(* ===== verification/_CoqProject ===== *)
-Q . S2P
Prelude.v
Effects.v
Ord.v
Text.v
Types.v
Storage.v
MemoryStore.v
MemoryFacts.v
Cbor.v
Etag.v
Checksum.v
Completion.v
Layout.v
Namespace.v
Lru.v
External.v
Keyring.v
Aead.v
Envelope.v
EnvelopeFacts.v
V3Wire.v
ObjectKeys.v
Commit.v
CommitCodec.v
CommitObject.v
Format.v
Anchor.v
RecoveryPolicy.v
StoreTypes.v
RecoveryHistory.v
CommitRead.v
CommitWrite.v
ChainFacts.v
AnchorFacts.v
CommitLog.v
CommitAppend.v
StoreSamples.v
RecoveryFacts.v
RecoveryCodec.v
RecoveryRoundTrip.v
RecoverySeal.v
RecoveryPublication.v
RecoveryReplay.v
RecoveryRegistry.v
LeaseApi.v
LeaseGuard.v
LeaseAnchor.v
LeaseFacts.v
LeaseProtocol.v
LeaseSafety.v
LeaseSimulation.v
RunWire.v
RunTypes.v
RunValidate.v
RunEncode.v
RunSamples.v
RunDecode.v
RunCodec.v
RunFrames.v
RunLoop.v
RunMetadata.v
RunProjections.v
RunRules.v
RunRecords.v
RunSafety.v
RunRoundTrip.v
