(* ===== verification/Prelude.v ===== *)
(** * rs3: a model of the repository core

    rs3 is an encrypted object store.  A gateway keeps the client's namespace
    (paths, ETags, retention) in metadata that it encrypts and writes to an
    untrusted backend as a sequence of signed commits; each commit carries an
    _index run_, the list of mutations the commit makes to the namespace, and a
    reader rebuilds the in-memory namespace from the runs.  This library models
    that path over abstract ciphers: the typed values, their canonical
    encodings, the index run with its encoder, decoder and validation, the
    commit object that carries it with the keyring that signs it, the format
    root, the namespace index the mutations are applied to, the record of
    finished multipart uploads and the cache of decoded metadata.  The _commit
    store_ uploads commits, checks what was stored and replays the chain; it is
    modelled over an abstract object store, of which the in-memory store is an
    instance.  Superseded commits stay recoverable for a promised window; the
    _recovery history_ that records them travels in the commits.  Which commit
    is the newest is kept outside the backend, as an _anchor_ in a Kubernetes
    Lease that also elects the one writer; the protocol of that Lease is
    modelled with its interleavings and lost replies.

    ** Conventions

    A Rust function is a Rocq function of the same name ([ObjectEtag_decode] is
    [ObjectEtag::decode]); a [Result] is [result E A] with the error values of
    the source; [&mut self] is explicit state, through the monad [M] where
    the source threads a cursor with [?] and the monad [IO] where it awaits the
    store and the anchor.  Machine integers are [Z] with the
    bound written where the source checks or relies on it ([checked_add],
    [try_u32], [is_u64]); [usize] is 64 bits wide.  A [String] is its UTF-8
    bytes, a [BTreeMap] a strictly sorted association list, a [HashMap] a
    [gmap].  What a Rust type guarantees of its values (a [u32] fits 32 bits, a
    [[u8; 32]] has 32 bytes, an identifier is not blank) is the predicate
    [wf_...] of the type, and a hypothesis of a theorem about arbitrary values
    of it.  Definitions are executable; [RunSamples] holds a run on which the
    theorems about runs are evaluated.

    ** Files

    - [Prelude]: results, the cursor monad, integers, bytes, and the two
      relations of the codec proofs.  [reads p enc a] says that [p] takes the
      bytes [enc] off any input that starts with them and returns [a];
      [accepts p R] says that whatever [p] takes off its input stands in [R] to
      what it returns.  The tactics [inv_bind], [b2p], [rd] and the hint
      database [codec] carry them through the composite readers.
    - [Effects]: effectful code as state passing, with [inv_io].
    - [Ord], [Text]: the parts of the Rust standard library the code uses
      ([Ord], [BTreeMap], [BTreeSet], sorting; UTF-8 validation and [trim]).
    - [Types]: crates/rs3-types/src/lib.rs (identifiers and policy types).
    - [Cbor], [Etag], [Checksum]: the files of these names of rs3-types/src.
    - [Completion]: crates/rs3-index/src/completion.rs.
    - [Layout], [Namespace]: crates/rs3-index/src/lib.rs ([PayloadLayout];
      [NamespaceIndex] and the payload references).
    - [Lru]: crates/rs3-repository/src/lru.rs.
    - crates/rs3-storage/src: [Storage] has the data of lib.rs, retention.rs,
      the operations that the commit store calls as the class [BlobStore], and
      what a faithful store promises as [BlobStoreLaws]; [MemoryStore] is
      [MemoryBlobStore] of lib.rs and [MemoryFacts] discharges the laws for it.
    - [External]: the third-party primitives (SHA-256, HMAC, Ed25519,
      AES-GCM-SIV, XChaCha20-Poly1305, base64, hexadecimal) as the class
      [Primitives], a parameter of everything that uses them, and what is
      assumed of them as [PrimitivesLaws]: output lengths, alphabets, decoding
      inverts encoding, decryption inverts encryption, a signature verifies
      under its own key.  Nothing is assumed of collisions or forgery.
      [Reference] is an instance on which the witnesses are evaluated.
    - [Keyring]: keyring.rs, checkpoint.rs, derive.rs, secret.rs,
      primitives.rs, error.rs and constant_time.rs of crates/rs3-crypto/src;
      [Aead]: metadata.rs and payload.rs; [Envelope] has the definitions of
      envelope.rs, [EnvelopeFacts] the theorems.
    - [V3Wire], [ObjectKeys], [Format]: error.rs and wire.rs; the commit key of
      commit.rs and standalone.rs; format.rs (crates/rs3-repository/src/v3).
    - crates/rs3-repository/src/v3/commit.rs: [Commit] holds the definitions,
      [CommitCodec] the canonical header, [CommitObject] whole objects.
    - crates/rs3-repository/src/v3/repository.rs, the commit store: [Anchor] and
      [StoreTypes] hold its data, [CommitRead] the read path with the class
      [V3CommitAnchor], the in-memory anchor and the state [World] of a store,
      [CommitWrite] the write path.  [ChainFacts] says what replay guarantees
      over any store, [AnchorFacts] how the anchor moves, [CommitLog] what
      replay returns over a faithful store, [CommitAppend] what a publication
      adds; [StoreSamples] evaluates them on a small repository.
    - crates/rs3-repository/src/v3/recovery.rs and recovery/: [RecoveryPolicy]
      (recovery.rs, policy.rs), [RecoveryHistory] and [RecoveryCodec]
      (history.rs), [RecoverySeal] (section.rs), [RecoveryPublication]
      (publication.rs), [RecoveryReplay] (replay.rs).  [RecoveryFacts] and
      [RecoveryRoundTrip] prove the validation and the codec exact,
      [RecoveryRegistry] relates the registry to the log it stands for.
    - crates/rs3-k8s/src: [LeaseApi] is what the code uses of Kubernetes (the
      Lease object, programs over the API, the server as the class [LeaseApi]
      with its [LeaseApiLaws]: optimistic concurrency on resource versions,
      replies may be lost); [LeaseGuard] is lease_guard.rs and [LeaseAnchor]
      lib.rs.  [LeaseFacts] says how each function changes a Lease,
      [LeaseProtocol] runs any number of operations of any number of processes
      as a step relation and gives each program its obligations, [LeaseSafety]
      proves the invariant of every reachable state, [LeaseSimulation] has a
      server, an executable scheduler, and what happens when a holder is gone.
    - crates/rs3-index/src/run.rs, the index run, is the largest component:
      [RunWire] (bounded [Writer] and [Reader]), [RunTypes] (data),
      [RunValidate] (every [validate_...] function), [RunEncode] (record and
      frame encoders, the packing loop), [RunDecode] (record decoders, the
      frame decoder and its loop) hold the definitions; [RunSamples] a sample;
      [RunCodec] (records), [RunFrames] (frames and packing), [RunLoop] (the
      frame loop), [RunMetadata] (tables), [RunProjections] (mutations) prove
      the round trip that [RunRoundTrip] states; [RunRules] and [RunRecords]
      say what validation decides, and [RunSafety] what the decoder guarantees.

    ** What is proved

    - Index runs.  A run that the encoder accepts is the run the decoder
      returns, for the frames and for their bundle, however the records fall
      into frames ([run_frames_roundtrip], [run_bundle_roundtrip]).  For
      arbitrary, possibly hostile frames the decoder returns only consistent
      runs ([decoded_run_consistent]).  Validation decides exactly the stated
      conditions ([validate_mutations_exact], [repeated_facts_exact],
      [receipt_scope_exact], [distinct_containers_exact]).  Frames are sorted,
      carry exact search bounds ([search_bounds_exact]) and are filled to the
      limit ([fill_frame_maximal]); packing terminates ([pack_loop_terminates]).
    - Codecs.  Variable-length integers, ETags, checksums, completion receipts
      and the hexadecimal blind key have exact codecs: the decoder accepts
      precisely the bytes the encoder writes, so each value has one encoding.
    - Commits.  A commit object parses under a key exactly when it encodes a
      header that names that key and is signed by a key of the keyring, over a
      region its section index describes ([commit_object_exact],
      [commit_header_codec_exact], [section_layout_exact]).  What one keyring
      signs and encodes, any later keyring that keeps the key reads back
      ([signed_commit_roundtrip]); a header fixes its body up to a SHA-256
      collision ([commit_body_binding]).  Object keys have one spelling and
      sort by sequence ([object_keys_exact], [commit_keys_sort_by_sequence]);
      the format root has an exact codec ([format_root_codec_exact]).
    - Commit store.  Over any object store whatsoever, a chain that replay
      returns is authentic ([replay_chain_authentic]), a publication tells the
      truth about the anchor ([publication_outcome_truthful]), and the accepted
      commits form one line ([accepted_history_linear]).  Over a faithful store
      replay returns the log that the store represents ([log_replays]) and a
      publication puts one entry in front of it ([publication_appends]).
      Sections are read completely ([section_reads_complete]).
    - Recovery.  The paged registry stands for the log of superseded commits
      ([registry_refines_log]); a commit leaves it only after its promised
      window ([recovery_window_honoured]); readers compute what the writer
      captured ([captured_publication_replays]), from any root as well as from
      the beginning ([root_cut_replays_same]); sections have an exact codec
      ([recovery_section_exact]).  Publication times and retention periods are
      exact and cover their deadlines ([publish_time_exact],
      [physical_retention_covers], [strongest_retention_is_join]).
    - Object store.  The in-memory store keeps its state well formed
      ([memory_state_well_formed]), never loses or weakens a retained version
      ([retained_versions_survive]), and pages through a listing without gap or
      repetition ([paged_listing_is_whole]).
    - Sealing.  A payload segment opens under every keyring that keeps the key
      ([sealed_segment_opens]), and its seal fixes everything that identifies it
      ([segment_seal_identifies]).  A sealed keyring fits its object, decodes and
      opens to the same keys in canonical order ([sealed_keyring_opens]); an
      envelope has one stored form ([envelope_codec_exact]), its seal fixes its
      public fields ([envelope_fields_bound]), and rewrapping keeps the keys
      ([rewrap_preserves_keyring]).
    - Keyring.  Construction accepts exactly the valid key sets
      ([keyring_new_exact]); a generated keyring is complete
      ([generated_keyring_complete]); signatures survive rotation
      ([signature_survives_rotation]); lookup tries the primary key first
      ([lookup_primary_first]).
    - Writer lease and anchor.  In every reachable state of any number of
      processes, writer epochs are exclusive ([epochs_exclusive]), the anchor
      moves only forward ([anchor_never_goes_back]) and only by the holder of
      the epoch in force ([anchor_writes_fenced]); a request prepared before
      another write is refused ([superseded_write_refused]); what an operation
      returns is what was stored ([outcomes_truthful]).  An abandoned lease is
      taken over within its duration ([abandoned_lease_taken]); the takeover
      may come while the last holder still counts itself live
      ([takeover_may_overlap]).
    - Namespace index.  After any history of operations the three maps agree
      and answer every query as the last operation on each key says
      ([namespace_history]); listing a prefix returns exactly its live members
      in order ([list_prefix_exact]); restoring a snapshot undoes any staged
      changes of the key ([restore_key_exact]).
    - Completion receipts.  The bounded map keeps exactly the newest receipts,
      whatever their order of arrival ([receipts_keep_newest],
      [receipts_order_independent]), and is rebuilt from a snapshot.
    - Cache.  The linked LRU cache behaves as a recency list
      ([lru_refines_list]).
    - Payload layout.  The stored length is the sum of the sealed parts and is
      refused exactly for malformed layouts ([stored_len_exact],
      [stored_len_overhead]).

    ** Bounds and fuel

    The packing loop is structural on a counter that [pack_prepared_frames]
    sets to one more than the number of records; every turn but the last
    consumes a record, and [pack_loop_terminates] shows that more fuel changes
    nothing.  The variable-length integer loops run ten turns, what 64 bits
    in groups of seven need; the reader's bound is the source's own.  The
    round trip assumes [decodable_limits]: the record counts that the limits
    allow fit the 32-bit fields that hold them, as they do for the default
    limits.  The update loops of the Lease make sixteen attempts, as in the
    source; the two polling loops, unbounded there, take a number of turns and
    return [None] when it is used up, and [abandoned_lease_taken] says how many
    turns are enough.  In the step relation time passes between any two steps
    by any amount.  A section is read in chunks by structural recursion on the
    number of chunks its length needs ([section_reads_complete]); the replay
    loop counts down from the limit on commits that the source checks in its
    loop, and a commit key is drawn at most three times, as in the source.

    ** Not modelled

    The filesystem and S3 backends are I/O through
    the operating system and a client library; streamed reads, multipart
    sessions and the test wrappers of rs3-storage are left out with them.  Of
    rs3-repository the encrypted pack, index-root and index-run containers,
    genesis and streamed payload uploads, and the asynchronous coordinator,
    service, compaction and garbage collection are not modelled; neither are the
    Kubernetes client and the bootstrap journal (rs3-k8s) and the HTTP servers
    (rs3-server, rs3-console).  Serialisation by [serde] derives and
    the [Debug] and [Display] implementations carry no logic of the format.
    Memory layout and allocation ([with_capacity], cloning) do not appear. *)

From Stdlib Require Export ZArith Lia Bool List.
From Stdlib Require Export Init.Byte Strings.Byte.
From Stdlib Require Import Strings.String.
From stdpp Require Export base tactics numbers list decidable countable.
Export ListNotations.
#[export] Set Default Goal Selector "!".
#[export] Set Warnings "-clear-no-such-hyp".
Open Scope Z_scope.

(** ** Results and the reader monad *)

Declare Scope rs_scope.
Delimit Scope rs_scope with rs.

(** Rust's [Result<A, E>]. *)
Inductive result (E A : Type) : Type :=
| Ok (a : A)
| Err (e : E).
Arguments Ok {E A} a.
Arguments Err {E A} e.

(** The [?] operator: run [e], hand its value to [k], or return its error. *)
Definition rbind {E A B} (e : result E A) (k : A -> result E B) : result E B :=
  match e with
  | Ok a => k a
  | Err err => Err err
  end.

(** Early return: [if c { return Err(e) }]. *)
Definition reject_if {E} (c : bool) (e : E) : result E unit :=
  if c then Err e else Ok tt.

(** [Option::ok_or]. *)
Definition ok_or {E A} (o : option A) (e : E) : result E A :=
  match o with
  | Some a => Ok a
  | None => Err e
  end.

(** [Result::map_err]. *)
Definition map_err {E F A} (f : E -> F) (r : result E A) : result F A :=
  match r with
  | Ok a => Ok a
  | Err e => Err (f e)
  end.

(** [Result::is_ok]. *)
Definition is_ok {E A} (r : result E A) : bool :=
  match r with
  | Ok _ => true
  | Err _ => false
  end.

(** A loop that pushes the result of a fallible step for each item. *)
Fixpoint try_map {E A B} (f : A -> result E B) (l : list A) : result E (list B) :=
  match l with
  | [] => Ok []
  | a :: l' => rbind (f a) (fun b => rbind (try_map f l') (fun bs => Ok (b :: bs)))
  end.

(** A computation with a cursor of type [S] that is mutated in place and may
    fail with an error of type [E]. *)
Definition M (S E A : Type) : Type := S -> result E (A * S).

Definition mret {S E A} (a : A) : M S E A := fun s => Ok (a, s).

Definition mbind {S E A B} (m : M S E A) (k : A -> M S E B) : M S E B :=
  fun s =>
    match m s with
    | Ok (a, s') => k a s'
    | Err e => Err e
    end.

(** A fallible computation that does not touch the cursor. *)
Definition lift {S E A} (r : result E A) : M S E A :=
  fun s =>
    match r with
    | Ok a => Ok (a, s)
    | Err e => Err e
    end.

(** [m.map_err(f)?]. *)
Definition mmap_err {S E F A} (f : E -> F) (m : M S E A) : M S F A :=
  fun s => map_err f (m s).

Notation "x <-? e ;; k" := (rbind e (fun x => k))
  (at level 20, e at level 99, k at level 200, only parsing) : rs_scope.
Notation "' p <-? e ;; k" := (rbind e (fun x => match x with p => k end))
  (at level 20, p pattern, e at level 99, k at level 200, only parsing) : rs_scope.
Notation "e ;;? k" := (rbind e (fun _ => k))
  (at level 100, k at level 200, right associativity) : rs_scope.
Notation "x <- m ;; k" := (mbind m (fun x => k))
  (at level 20, m at level 99, k at level 200, only parsing) : rs_scope.
Notation "' p <- m ;; k" := (mbind m (fun x => match x with p => k end))
  (at level 20, p pattern, m at level 99, k at level 200, only parsing) : rs_scope.
Notation "m ;; k" := (mbind m (fun _ => k))
  (at level 100, k at level 200, right associativity) : rs_scope.
Open Scope rs_scope.

(** ** Machine integers

    A [uN] or [iN] is a [Z]; the ranges are written out and every checked
    operation of the source is a function that compares with the range.
    [usize] is 64 bits wide. *)

Abbreviation u8_max := 255.
Abbreviation u16_max := 65535.
Abbreviation u32_max := 4294967295.
Abbreviation u64_max := 18446744073709551615.
Abbreviation usize_max := 18446744073709551615.
Abbreviation i64_min := (-9223372036854775808).
Abbreviation i64_max := 9223372036854775807.

Definition is_u16 (z : Z) : Prop := 0 <= z <= u16_max.
Definition is_u32 (z : Z) : Prop := 0 <= z <= u32_max.
Definition is_u64 (z : Z) : Prop := 0 <= z <= u64_max.
Definition is_i64 (z : Z) : Prop := i64_min <= z <= i64_max.

(** [u64::checked_add], [u64::checked_mul], [u64::checked_sub]; [usize] is the
    same width. *)
Definition checked_add (a b : Z) : option Z :=
  if a + b <=? u64_max then Some (a + b) else None.
Definition checked_mul (a b : Z) : option Z :=
  if a * b <=? u64_max then Some (a * b) else None.
Definition checked_sub (a b : Z) : option Z :=
  if b <=? a then Some (a - b) else None.

(** [u32::checked_add]. *)
Definition checked_add_u32 (a b : Z) : option Z :=
  if a + b <=? u32_max then Some (a + b) else None.

(** [u64::div_ceil] for a non-zero divisor. *)
Definition div_ceil (a b : Z) : Z := (a + b - 1) / b.

(** [u32::try_from] on an unsigned value, [i64::try_from] on an [i128]. *)
Definition try_u32 (z : Z) : option Z := if z <=? u32_max then Some z else None.
Definition try_i64 (z : Z) : option Z :=
  if (i64_min <=? z) && (z <=? i64_max) then Some z else None.

(** [slice.len()]. *)
Definition len {A} (l : list A) : Z := Z.of_nat (length l).

(** ** Positional numerals *)

(** The last [n] digits of [v] in base [b], most significant first. *)
Fixpoint to_digits (b : Z) (n : nat) (v : Z) : list Z :=
  match n with
  | O => []
  | S n' => v / b ^ Z.of_nat n' mod b :: to_digits b n' v
  end.

Definition from_digits (b : Z) (ds : list Z) : Z := fold_left (fun acc d => acc * b + d) ds 0.

(** ** Bytes *)

#[export] Instance byte_eq_dec : EqDecision byte := Byte.byte_eq_dec.

(** The value of a [u8], and the truncating cast [as u8]. *)
Definition u8 (b : byte) : Z := Z.of_N (Byte.to_N b).
Definition to_u8 (z : Z) : byte :=
  match Byte.of_N (Z.to_N (z mod 256)) with
  | Some b => b
  | None => x00
  end.

(** [to_be_bytes] on an [n]-byte integer and [from_be_bytes] on a slice. *)
Fixpoint to_be_bytes (n : nat) (v : Z) : list byte :=
  match n with
  | O => []
  | S n' => to_u8 (v / 256 ^ Z.of_nat n') :: to_be_bytes n' v
  end.

Fixpoint from_be_bytes (bs : list byte) : Z :=
  match bs with
  | [] => 0
  | b :: bs' => u8 b * 256 ^ Z.of_nat (length bs') + from_be_bytes bs'
  end.

(** [i64::to_be_bytes] and [i64::from_be_bytes]: two's complement. *)
Definition i64_to_be_bytes (v : Z) : list byte := to_be_bytes 8 (v mod 2 ^ 64).
Definition i64_from_be_bytes (bs : list byte) : Z :=
  let v := from_be_bytes bs in
  if v <=? i64_max then v else v - 2 ^ 64.

(** A Rust string literal as bytes. *)
Definition bytes_of_string (s : string) : list byte := list_byte_of_string s.

(** ** Tactics *)

(** Splits the binds of a successful computation in the context. *)
Ltac inv_bind :=
  repeat match goal with
  | H : Ok _ = Ok _ |- _ => injection H as H; try subst
  | H : Err _ = Ok _ |- _ => discriminate H
  | H : Ok _ = Err _ |- _ => discriminate H
  | H : Some _ = Some _ |- _ => injection H as H; try subst
  | H : None = Some _ |- _ => discriminate H
  | H : Some _ = None |- _ => discriminate H
  | H : (_, _) = (_, _) |- _ => injection H as ? ?; try subst
  | H : mret _ _ = Ok _ |- _ => unfold mret in H
  | H : reject_if ?c _ = Ok _ |- _ =>
      unfold reject_if in H; destruct c eqn:?; [discriminate H|]; clear H
  | H : rbind (Ok _) _ = Ok _ |- _ => unfold rbind at 1 in H
  | H : rbind ?e _ = Ok _ |- _ =>
      unfold rbind at 1 in H; destruct e eqn:?; [|discriminate H]
  | H : mbind ?m _ ?s = Ok _ |- _ =>
      unfold mbind at 1 in H; destruct (m s) as [[? ?]|] eqn:?; [|discriminate H]
  | H : lift (Ok _) _ = Ok _ |- _ => unfold lift at 1 in H
  | H : lift ?r ?s = Ok _ |- _ =>
      unfold lift at 1 in H; destruct r eqn:?; [|discriminate H]
  | H : ok_or ?o _ = Ok _ |- _ =>
      unfold ok_or at 1 in H; destruct o eqn:?; [|discriminate H]
  | H : map_err _ ?r = Ok _ |- _ =>
      unfold map_err at 1 in H; destruct r eqn:?; [|discriminate H]
  | H : mmap_err _ ?m ?s = Ok _ |- _ => unfold mmap_err at 1 in H
  | H : (let '(_, _) := ?p in _) = Ok _ |- _ => destruct p
  | H : (let '(_, _) := ?p in _) _ = Ok _ |- _ => destruct p
  | u : unit |- _ => destruct u
  end.

(** Turns boolean comparisons in the context into propositions. *)
Ltac b2p :=
  repeat match goal with
  | H : (_ && _) = true |- _ => apply andb_true_iff in H; destruct H
  | H : (_ || _) = false |- _ => apply orb_false_iff in H; destruct H
  | H : negb _ = true |- _ => apply negb_true_iff in H
  | H : negb _ = false |- _ => apply negb_false_iff in H
  | H : (_ <=? _) = true |- _ => apply Z.leb_le in H
  | H : (_ <=? _) = false |- _ => apply Z.leb_gt in H
  | H : (_ <? _) = true |- _ => apply Z.ltb_lt in H
  | H : (_ <? _) = false |- _ => apply Z.ltb_ge in H
  | H : (_ >? _) = true |- _ => rewrite Z.gtb_ltb in H
  | H : (_ >? _) = false |- _ => rewrite Z.gtb_ltb in H
  | H : (_ =? _) = true |- _ => apply Z.eqb_eq in H
  | H : (_ =? _) = false |- _ => apply Z.eqb_neq in H
  | H : bool_decide _ = true |- _ => apply bool_decide_eq_true in H
  | H : bool_decide _ = false |- _ => apply bool_decide_eq_false in H
  end.

(** Case analysis on the scrutinee of an [if] or [match] of the goal. *)
Ltac case_if :=
  match goal with
  | |- context [if ?c then _ else _] => destruct c eqn:?
  end.

Ltac case_if_in H :=
  match type of H with
  | context [if ?c then _ else _] => destruct c eqn:?
  end.

(** Applies a lemma to the hypothesis it fits. *)
Ltac fwd lem := match goal with H : _ |- _ => apply lem in H end.

(** ** Lemmas on integers and bytes *)

Lemma existsb_ext_in {A} (f g : A -> bool) l : (forall a, In a l -> f a = g a) -> existsb f l = existsb g l.
Proof.
  induction l as [|a l IH]; intros E; simpl; [done|].
  rewrite (E a), IH; [done|by intros; apply E; right|by left].
Qed.

Lemma len_nonneg {A} (l : list A) : 0 <= len l.
Proof. unfold len. lia. Qed.

Lemma len_app {A} (l k : list A) : len (l ++ k) = len l + len k.
Proof. unfold len. rewrite length_app. lia. Qed.

Lemma len_cons {A} (x : A) (l : list A) : len (x :: l) = len l + 1.
Proof. unfold len. simpl. lia. Qed.

Lemma len_nil {A} : len (@nil A) = 0.
Proof. reflexivity. Qed.

Lemma len_0_nil {A} (l : list A) : len l = 0 -> l = [].
Proof. destruct l; [done|]. unfold len. simpl. lia. Qed.

Lemma len_map {A B} (f : A -> B) (l : list A) : len (map f l) = len l.
Proof. unfold len. by rewrite length_map. Qed.

Create Rewrite HintDb len.
#[export] Hint Rewrite @len_app @len_cons @len_nil @len_map : len.

Lemma u8_range (b : byte) : 0 <= u8 b <= u8_max.
Proof.
  unfold u8. pose proof (Byte.to_N_bounded b). lia.
Qed.

Lemma to_u8_u8 (b : byte) : to_u8 (u8 b) = b.
Proof.
  unfold to_u8. rewrite Z.mod_small by (pose proof (u8_range b); lia).
  unfold u8. rewrite N2Z.id, Byte.of_to_N. done.
Qed.

Lemma u8_to_u8 (z : Z) : u8 (to_u8 z) = z mod 256.
Proof.
  unfold to_u8, u8.
  pose proof (Z.mod_pos_bound z 256 ltac:(lia)).
  destruct (Byte.of_N (Z.to_N (z mod 256))) eqn:E.
  - apply Byte.to_of_N in E. rewrite E. lia.
  - apply Byte.of_N_None_iff in E. lia.
Qed.

Lemma u8_to_u8_small (z : Z) : 0 <= z <= u8_max -> u8 (to_u8 z) = z.
Proof. intros. rewrite u8_to_u8. apply Z.mod_small. lia. Qed.

Lemma u8_inj (a b : byte) : u8 a = u8 b -> a = b.
Proof. intros H. rewrite <- (to_u8_u8 a), <- (to_u8_u8 b). by f_equal. Qed.

Lemma to_u8_eq (b : byte) (z : Z) : u8 b = z -> to_u8 z = b.
Proof. intros <-. apply to_u8_u8. Qed.

Lemma length_to_digits b n v : length (to_digits b n v) = n.
Proof. induction n; simpl; auto. Qed.

Lemma to_digits_range b n v : 0 < b -> Forall (fun d => 0 <= d < b) (to_digits b n v).
Proof. intros B. induction n; constructor; [by apply Z.mod_pos_bound|done]. Qed.

Lemma from_digits_acc b ds acc :
  fold_left (fun acc d => acc * b + d) ds acc = acc * b ^ len ds + from_digits b ds.
Proof.
  unfold from_digits. revert acc. induction ds as [|d ds IH]; intros acc; simpl; [unfold len; simpl; lia|].
  rewrite IH, (IH (0 * b + d)), len_cons, Z.pow_add_r by (pose proof (len_nonneg ds); lia). ring.
Qed.

Lemma from_digits_cons b d ds : from_digits b (d :: ds) = d * b ^ len ds + from_digits b ds.
Proof. unfold from_digits at 1. simpl. by rewrite from_digits_acc, Z.mul_0_l, Z.add_0_l. Qed.

Lemma from_digits_range b ds :
  0 < b -> Forall (fun d => 0 <= d < b) ds -> 0 <= from_digits b ds < b ^ len ds.
Proof.
  intros B F. induction F as [|d ds D F IH]; [unfold from_digits, len; simpl; lia|].
  rewrite from_digits_cons, len_cons, Z.pow_add_r by (pose proof (len_nonneg ds); lia). nia.
Qed.

Lemma from_to_digits b n v : 0 < b -> 0 <= v < b ^ Z.of_nat n -> from_digits b (to_digits b n v) = v.
Proof.
  intros B R. enough (from_digits b (to_digits b n v) = v mod b ^ Z.of_nat n) as ->.
  { by apply Z.mod_small. }
  clear R. induction n as [|n IH]; simpl to_digits; [by rewrite Z.mod_1_r|].
  rewrite from_digits_cons, IH. unfold len. rewrite length_to_digits, Nat2Z.inj_succ, Z.pow_succ_r by lia.
  assert (0 < b ^ Z.of_nat n) by (apply Z.pow_pos_nonneg; lia).
  rewrite (Z.mul_comm b), Z.rem_mul_r by lia. lia.
Qed.

Lemma to_digits_ext b n v w :
  0 < b -> v mod b ^ Z.of_nat n = w mod b ^ Z.of_nat n -> to_digits b n v = to_digits b n w.
Proof.
  intros B. induction n as [|n IH]; intros H; cbn [to_digits]; [done|].
  rewrite Nat2Z.inj_succ, Z.pow_succ_r, Z.mul_comm in H by lia.
  assert (0 < b ^ Z.of_nat n) by (apply Z.pow_pos_nonneg; lia).
  rewrite !Z.rem_mul_r in H by lia.
  assert (v mod b ^ Z.of_nat n = w mod b ^ Z.of_nat n
          /\ v / b ^ Z.of_nat n mod b = w / b ^ Z.of_nat n mod b) as [H1 H2].
  { pose proof (Z.mod_pos_bound v (b ^ Z.of_nat n)).
    pose proof (Z.mod_pos_bound w (b ^ Z.of_nat n)).
    apply and_comm, (Z.div_mod_unique (b ^ Z.of_nat n)); lia. }
  f_equal; [done|by apply IH].
Qed.

Lemma to_from_digits b ds :
  0 < b -> Forall (fun d => 0 <= d < b) ds -> to_digits b (length ds) (from_digits b ds) = ds.
Proof.
  intros B F. induction F as [|d ds D F IH]; [done|]. cbn [length to_digits].
  pose proof (from_digits_range b ds B F) as R. rewrite from_digits_cons. unfold len in *.
  assert (0 < b ^ Z.of_nat (length ds)) by (apply Z.pow_pos_nonneg; lia). f_equal.
  - rewrite Z.div_add_l, Z.div_small, Z.add_0_r by lia. by apply Z.mod_small.
  - etransitivity; [|exact IH]. apply to_digits_ext; [done|]. by rewrite Z.add_comm, Z.mod_add by lia.
Qed.

(** Big-endian bytes are numerals in base 256. *)
Lemma to_be_bytes_digits n v : to_be_bytes n v = map to_u8 (to_digits 256 n v).
Proof.
  induction n as [|n IH]; cbn [to_be_bytes to_digits map]; [done|]. rewrite IH. f_equal.
  apply u8_inj. by rewrite !u8_to_u8, Zmod_mod.
Qed.

Lemma from_be_bytes_digits bs : from_be_bytes bs = from_digits 256 (map u8 bs).
Proof.
  induction bs as [|b bs IH]; [done|]. cbn [from_be_bytes map].
  by rewrite from_digits_cons, IH, len_map.
Qed.

Lemma map_u8_range bs : Forall (fun d => 0 <= d < 256) (map u8 bs).
Proof. induction bs; constructor; [pose proof (u8_range a); lia|done]. Qed.

Lemma map_u8_to_u8 ds : Forall (fun d => 0 <= d < 256) ds -> map u8 (map to_u8 ds) = ds.
Proof. induction 1; simpl; [done|]. rewrite u8_to_u8_small by lia. by f_equal. Qed.

Lemma map_to_u8_u8 bs : map to_u8 (map u8 bs) = bs.
Proof. induction bs; simpl; [done|]. rewrite to_u8_u8. by f_equal. Qed.

Lemma length_to_be_bytes n v : length (to_be_bytes n v) = n.
Proof. by rewrite to_be_bytes_digits, length_map, length_to_digits. Qed.

Lemma len_to_be_bytes n v : len (to_be_bytes n v) = Z.of_nat n.
Proof. unfold len. by rewrite length_to_be_bytes. Qed.
#[export] Hint Rewrite len_to_be_bytes : len.

Lemma from_be_bytes_range bs : 0 <= from_be_bytes bs < 256 ^ len bs.
Proof.
  rewrite from_be_bytes_digits, <- (len_map u8 bs). apply from_digits_range; [lia|apply map_u8_range].
Qed.

Lemma from_to_be_bytes n v :
  0 <= v < 256 ^ Z.of_nat n -> from_be_bytes (to_be_bytes n v) = v.
Proof.
  intros. rewrite to_be_bytes_digits, from_be_bytes_digits, map_u8_to_u8 by (by apply to_digits_range).
  by apply from_to_digits.
Qed.

Lemma to_from_be_bytes bs : to_be_bytes (length bs) (from_be_bytes bs) = bs.
Proof.
  rewrite to_be_bytes_digits, from_be_bytes_digits, <- (length_map u8 bs).
  rewrite to_from_digits by (try lia; apply map_u8_range). apply map_to_u8_u8.
Qed.

Lemma to_from_be_bytes' n bs : length bs = n -> to_be_bytes n (from_be_bytes bs) = bs.
Proof. intros <-. apply to_from_be_bytes. Qed.

Lemma i64_from_to_be_bytes v : is_i64 v -> i64_from_be_bytes (i64_to_be_bytes v) = v.
Proof.
  unfold is_i64, i64_from_be_bytes, i64_to_be_bytes. intros H.
  rewrite from_to_be_bytes by (pose proof (Z.mod_pos_bound v (2 ^ 64)); simpl; lia).
  destruct (Z.leb_spec 0 v).
  - rewrite Z.mod_small by lia. case_if; b2p; lia.
  - rewrite <- (Z.mod_add v 1) by lia. rewrite Z.mod_small by lia.
    case_if; b2p; lia.
Qed.

Lemma i64_to_from_be_bytes bs :
  length bs = 8%nat -> i64_to_be_bytes (i64_from_be_bytes bs) = bs.
Proof.
  intros L. unfold i64_from_be_bytes, i64_to_be_bytes.
  pose proof (from_be_bytes_range bs) as R. unfold len in R. rewrite L in R.
  change (256 ^ Z.of_nat 8) with (2 ^ 64) in R.
  etransitivity; [|exact (to_from_be_bytes' 8 bs L)]. f_equal.
  case_if; [by apply Z.mod_small|].
  replace (from_be_bytes bs - 2 ^ 64) with (from_be_bytes bs + (-1) * 2 ^ 64) by lia.
  rewrite Z.mod_add by lia. by apply Z.mod_small.
Qed.

Lemma i64_from_be_bytes_range bs : length bs = 8%nat -> is_i64 (i64_from_be_bytes bs).
Proof.
  intros L. unfold i64_from_be_bytes, is_i64.
  pose proof (from_be_bytes_range bs) as R. unfold len in R. rewrite L in R.
  change (256 ^ Z.of_nat 8) with (2 ^ 64) in R. case_if; b2p; lia.
Qed.

Lemma checked_add_Some a b c : checked_add a b = Some c <-> c = a + b /\ a + b <= u64_max.
Proof. unfold checked_add. case_if; b2p; split; intros; inv_bind; destruct_and?; subst; try lia; done. Qed.

Lemma checked_mul_Some a b c : checked_mul a b = Some c <-> c = a * b /\ a * b <= u64_max.
Proof. unfold checked_mul. case_if; b2p; split; intros; inv_bind; destruct_and?; subst; try lia; done. Qed.

Lemma checked_add_ok a b : a + b <= u64_max -> checked_add a b = Some (a + b).
Proof. intros. by apply checked_add_Some. Qed.

(** A value or-ed into the low bits below a shifted one. *)
Lemma lor_shiftl a n b : 0 <= n -> 0 <= b < 2 ^ n -> Z.lor (Z.shiftl a n) b = a * 2 ^ n + b.
Proof.
  intros N B. rewrite <- Z.add_nocarry_lor; [by rewrite Z.shiftl_mul_pow2|].
  apply Z.bits_inj'. intros i I. rewrite Z.land_spec, Z.bits_0, Z.shiftl_spec by done.
  destruct (Z.ltb_spec i n).
  - by rewrite Z.testbit_neg_r by lia.
  - rewrite <- (Z.mod_small b (2 ^ n)), Z.mod_pow2_bits_high by lia. apply andb_false_r.
Qed.

Lemma land_pow2_minus1 a n : 0 <= n -> Z.land a (2 ^ n - 1) = a mod 2 ^ n.
Proof. intros N. rewrite <- Z.land_ones by done. f_equal. rewrite Z.ones_equiv. lia. Qed.

(** ** Cursors and codecs

    A cursor stands at a position of a byte stream; [view s l] says that [l] is
    what is left to read.  [reads p enc a]: wherever the cursor stands before
    [enc], [p] returns [a] and moves past exactly those bytes.  [accepts p R]:
    whenever [p] succeeds, what it consumed is related by [R] to its result.
    A decoder with [reads p (enc a) a] is complete for the encoding [enc]; one
    with [accepts p (fun a c => c = enc a)] accepts nothing else. *)

Class Cursor (S : Type) : Type := view : S -> list byte -> Prop.

Section Codec.
Context {S E : Type} `{Cursor S}.

Definition reads {A} (p : M S E A) (enc : list byte) (a : A) : Prop :=
  forall s rest, view s (enc ++ rest) -> exists s', p s = Ok (a, s') /\ view s' rest.

Definition accepts {A} (p : M S E A) (R : A -> list byte -> Prop) : Prop :=
  forall s l a s', view s l -> p s = Ok (a, s') ->
    exists c rest, l = c ++ rest /\ view s' rest /\ R a c.

Lemma reads_ret {A} (a : A) : reads (mret a) [] a.
Proof. intros s rest V. by exists s. Qed.

Lemma reads_lift {A} (r : result E A) (a : A) : r = Ok a -> reads (lift r) [] a.
Proof. intros -> s rest V. by exists s. Qed.

Lemma reads_bind {A B} (p : M S E A) (k : A -> M S E B) e1 e2 a b :
  reads p e1 a -> reads (k a) e2 b -> reads (mbind p k) (e1 ++ e2) b.
Proof.
  intros P K s rest V. rewrite <- app_assoc in V.
  destruct (P s _ V) as (s1 & E1 & V1). destruct (K s1 _ V1) as (s2 & E2 & V2).
  exists s2. unfold mbind. by rewrite E1.
Qed.

(** The same with the encoding already associated to the right. *)
Lemma reads_bind' {A B} (p : M S E A) (k : A -> M S E B) e1 e2 e a b :
  reads p e1 a -> e = e1 ++ e2 -> reads (k a) e2 b -> reads (mbind p k) e b.
Proof. intros P -> K. by eapply reads_bind. Qed.

Lemma reads_bind_nil {A B} (p : M S E A) (k : A -> M S E B) e a b :
  reads p [] a -> reads (k a) e b -> reads (mbind p k) e b.
Proof. intros P K. change e with ([] ++ e). by eapply reads_bind. Qed.

Lemma reads_bind_end {A B} (p : M S E A) (k : A -> M S E B) e a b :
  reads p e a -> reads (k a) [] b -> reads (mbind p k) e b.
Proof. intros P K. rewrite <- (app_nil_r e). by eapply reads_bind. Qed.

Lemma accepts_bind {A B} (p : M S E A) (k : A -> M S E B) R1 (R2 : A -> B -> list byte -> Prop) R :
  accepts p R1 ->
  (forall a c1, R1 a c1 -> accepts (k a) (R2 a)) ->
  (forall a b c1 c2, R1 a c1 -> R2 a b c2 -> R b (c1 ++ c2)) ->
  accepts (mbind p k) R.
Proof.
  intros P K C s l b s' V Eq. unfold mbind in Eq.
  destruct (p s) as [[a s1]|] eqn:E1; [|discriminate].
  destruct (P _ _ _ _ V E1) as (c1 & r1 & -> & V1 & H1).
  destruct (K a c1 H1 _ _ _ _ V1 Eq) as (c2 & r2 & -> & V2 & H2).
  exists (c1 ++ c2), r2. rewrite <- app_assoc. eauto.
Qed.

Lemma accepts_lift {A} (r : result E A) : accepts (lift r) (fun a c => r = Ok a /\ c = []).
Proof.
  intros s l a s' V Eq. unfold lift in Eq. destruct r; inv_bind.
  exists [], l. auto.
Qed.

Lemma accepts_ret {A} (x : A) : accepts (mret x) (fun a c => a = x /\ c = []).
Proof. intros s l a s' V Eq. inv_bind. exists [], l. auto. Qed.

Lemma accepts_weaken {A} (p : M S E A) (R R' : A -> list byte -> Prop) :
  accepts p R -> (forall a c, R a c -> R' a c) -> accepts p R'.
Proof. intros P I s l a s' V Eq. destruct (P _ _ _ _ V Eq) as (c & r & ? & ? & ?). eauto 10. Qed.
End Codec.

Create HintDb codec.
#[export] Hint Resolve reads_ret reads_lift : codec.

(** Runs the successful reads of the context forward, in order, with the
    [accepts] lemmas of the [codec] database: each consumed chunk gets a name
    and what the lemma says about it. *)
Ltac step_accepts :=
  match goal with
  | V : view ?s ?l, E : ?p ?s = Ok (?a, ?s') |- _ =>
      let HA := fresh "HA" in
      eassert (accepts p _) as HA by eauto with codec;
      let c := fresh "c" in
      let r := fresh "r" in
      let V' := fresh "V" in
      let HR := fresh "HR" in
      destruct (HA _ _ _ _ V E) as (c & r & -> & V' & HR);
      clear HA V E
  end.

Ltac all_accepts := repeat step_accepts; cbn [fst snd] in *; destruct_and?; subst.

(** Names everything consumed so far as the chunk of the goal, leaving what
    the relation says about it. *)
Ltac chunk :=
  rewrite ?app_assoc; do 2 eexists; split; [reflexivity|split; [eassumption|]];
  rewrite <- ?app_assoc.
