(* ===== verification/Effects.v ===== *)
(** * Stateful operations

    An operation of a service takes the state of the service and returns its
    result with the new state; unlike the cursor monad of [Prelude], a failing
    operation keeps what it had already changed. *)

From S2P Require Import Prelude.

Definition IO (S E A : Type) : Type := S -> result E A * S.

Definition io_ret {S E A} (a : A) : IO S E A := fun s => (Ok a, s).
Definition io_fail {S E A} (e : E) : IO S E A := fun s => (Err e, s).
Definition io_of {S E A} (r : result E A) : IO S E A := fun s => (r, s).

Definition io_bind {S E A B} (m : IO S E A) (k : A -> IO S E B) : IO S E B := fun s =>
  match m s with
  | (Ok a, s') => k a s'
  | (Err e, s') => (Err e, s')
  end.

(** [m.map_err(f)?]. *)
Definition io_map_err {S E F A} (f : E -> F) (m : IO S E A) : IO S F A := fun s =>
  let '(r, s') := m s in (map_err f r, s').

(** [match m { .. }]: the result as a value. *)
Definition io_try {S E F A} (m : IO S E A) : IO S F (result E A) := fun s =>
  let '(r, s') := m s in (Ok r, s').

(** An operation of a part of the state. *)
Definition io_on {S T E A} (get : T -> S) (set : S -> T -> T) (m : IO S E A) : IO T E A := fun t =>
  let '(r, s') := m (get t) in (r, set s' t).

Notation "x <~ m ;; k" := (io_bind m (fun x => k))
  (at level 20, m at level 99, k at level 200, only parsing) : rs_scope.
Notation "' p <~ m ;; k" := (io_bind m (fun x => match x with p => k end))
  (at level 20, p pattern, m at level 99, k at level 200, only parsing) : rs_scope.
Notation "m ;;~ k" := (io_bind m (fun _ => k))
  (at level 100, k at level 200, right associativity) : rs_scope.

(** ** Successful runs *)

Lemma ok_inj {E A} (a b : A) : @Ok E A a = Ok b -> a = b.
Proof. congruence. Qed.

Lemma rbind_Ok {E A B} (e : result E A) (k : A -> result E B) b : rbind e k = Ok b -> exists a, e = Ok a /\ k a = Ok b.
Proof. destruct e as [a|]; [|done]. by exists a. Qed.

Lemma io_bind_Ok {S E A B} (m : IO S E A) (k : A -> IO S E B) s b s2 :
  io_bind m k s = (Ok b, s2) <-> exists a s1, m s = (Ok a, s1) /\ k a s1 = (Ok b, s2).
Proof.
  unfold io_bind. split.
  - destruct (m s) as [[a|e] s1]; [|done]. intros K. by exists a, s1.
  - intros (a & s1 & -> & K). done.
Qed.

Lemma io_of_Ok {S E A} (r : result E A) (s : S) a s1 : io_of r s = (Ok a, s1) <-> r = Ok a /\ s1 = s.
Proof. unfold io_of. split; [intros [= -> ->]; done|intros [-> ->]; done]. Qed.

Lemma io_map_err_Ok {S E F A} (f : E -> F) (m : IO S E A) s a s1 :
  io_map_err f m s = (Ok a, s1) <-> m s = (Ok a, s1).
Proof. unfold io_map_err. destruct (m s) as [[x|e] s']; simpl; split; congruence. Qed.

Lemma io_try_Ok {S E F A} (m : IO S E A) s r s1 :
  @io_try S E F A m s = (Ok r, s1) <-> m s = (r, s1).
Proof. unfold io_try. destruct (m s) as [x s']. split; congruence. Qed.

Lemma io_on_Ok {S T E A} (get : T -> S) (set : S -> T -> T) (m : IO S E A) t a t1 :
  io_on get set m t = (Ok a, t1) <-> exists s1, m (get t) = (Ok a, s1) /\ t1 = set s1 t.
Proof.
  unfold io_on. destruct (m (get t)) as [r s1]. split.
  - intros [= -> <-]. by exists s1.
  - intros (s2 & [= -> ->] & ->). done.
Qed.

(** Splits the binds of a successful run in the context. *)
Ltac inv_io :=
  repeat match goal with
  | H : io_bind _ _ _ = (Ok _, _) |- _ => apply io_bind_Ok in H as (? & ? & ? & H)
  | H : io_of _ _ = (Ok _, _) |- _ => apply io_of_Ok in H as [? ?]; try subst
  | H : io_map_err _ _ _ = (Ok _, _) |- _ => apply io_map_err_Ok in H
  | H : io_try _ _ = (Ok _, _) |- _ => apply io_try_Ok in H
  | H : io_ret _ _ = (Ok _, _) |- _ => unfold io_ret in H; injection H as ? ?; try subst
  | H : io_fail _ _ = (Ok _, _) |- _ => discriminate H
  | H : (Ok _, _) = (Ok _, _) |- _ => injection H as ? ?; try subst
  | H : (Err _, _) = (Ok _, _) |- _ => discriminate H
  | H : match ?p with (_, _) => _ end _ = (Ok _, _) |- _ => destruct p
  | u : unit |- _ => destruct u
  end.

(** ** Running an operation on a concrete state *)

Definition succeeded {S E A} (m : IO S E A) (s : S) : bool :=
  match (m s).1 with
  | Ok _ => true
  | Err _ => false
  end.

Definition outcome {S E A} (default : A) (m : IO S E A) (s : S) : A :=
  match (m s).1 with
  | Ok a => a
  | Err _ => default
  end.

Lemma succeeded_Ok {S E A} default (m : IO S E A) s :
  succeeded m s = true -> m s = (Ok (outcome default m s), (m s).2).
Proof. unfold succeeded, outcome. by destruct (m s) as [[a|e] s']. Qed.
