(* ===== verification/Ord.v ===== *)
(** * Rust's [Ord], [BTreeMap], [BTreeSet] and slice sorting

    The order that derives on the identifiers, tuples, options and byte
    strings of the code; ordered maps and sets as strictly sorted association
    lists, whose iteration order is the key order; the stable sort used by the
    index-run encoder. *)

From Stdlib Require Import Sorted Permutation.
From S2P Require Import Prelude.

(** ** The [Ord] trait *)

Class Ord (A : Type) : Type := cmp : A -> A -> comparison.

Class OrdLaws (A : Type) `{Ord A} : Prop := {
  cmp_eq : forall a b : A, cmp a b = Eq <-> a = b;
  cmp_antisym : forall a b : A, cmp b a = CompOpp (cmp a b);
  cmp_trans : forall a b c : A, cmp a b = Lt -> cmp b c = Lt -> cmp a c = Lt
}.

(** [Ordering::then]. *)
Definition then_cmp (a b : comparison) : comparison :=
  match a with
  | Eq => b
  | c => c
  end.

Definition ltb {A} `{Ord A} (a b : A) : bool :=
  match cmp a b with
  | Lt => true
  | _ => false
  end.

Definition leb {A} `{Ord A} (a b : A) : bool :=
  match cmp a b with
  | Gt => false
  | _ => true
  end.

#[export] Instance ord_Z : Ord Z := Z.compare.
#[export] Instance ord_byte : Ord byte := fun a b => Z.compare (u8 a) (u8 b).

(** Slices, strings and arrays compare lexicographically. *)
Fixpoint list_cmp {A} `{Ord A} (l k : list A) : comparison :=
  match l, k with
  | [], [] => Eq
  | [], _ => Lt
  | _, [] => Gt
  | a :: l', b :: k' => then_cmp (cmp a b) (list_cmp l' k')
  end.
#[export] Instance ord_list {A} `{Ord A} : Ord (list A) := list_cmp.

#[export] Instance ord_prod {A B} `{Ord A, Ord B} : Ord (A * B) :=
  fun p q => then_cmp (cmp p.1 q.1) (cmp p.2 q.2).

(** [None < Some _]. *)
#[export] Instance ord_option {A} `{Ord A} : Ord (option A) :=
  fun a b =>
    match a, b with
    | None, None => Eq
    | None, Some _ => Lt
    | Some _, None => Gt
    | Some x, Some y => cmp x y
    end.

#[export] Instance ord_Z_laws : OrdLaws Z.
Proof.
  split; unfold cmp, ord_Z; intros.
  - apply Z.compare_eq_iff.
  - apply Z.compare_antisym.
  - rewrite Z.compare_lt_iff in *. lia.
Qed.

#[export] Instance ord_byte_laws : OrdLaws byte.
Proof.
  split; unfold cmp, ord_byte; intros.
  - rewrite Z.compare_eq_iff. split; [apply u8_inj|congruence].
  - apply Z.compare_antisym.
  - rewrite Z.compare_lt_iff in *. lia.
Qed.

Section OrdFacts.
Context {A : Type} `{OrdLaws A}.

Lemma cmp_refl (a : A) : cmp a a = Eq.
Proof. by apply cmp_eq. Qed.

Lemma cmp_gt_lt (a b : A) : cmp a b = Gt <-> cmp b a = Lt.
Proof. rewrite (cmp_antisym a b). destruct (cmp a b); simpl; split; congruence. Qed.

Lemma cmp_lt_irrefl (a : A) : cmp a a <> Lt.
Proof. by rewrite cmp_refl. Qed.

Lemma cmp_lt_neq (a b : A) : cmp a b = Lt -> a <> b.
Proof. intros L ->. by apply (cmp_lt_irrefl b). Qed.

Lemma ltb_lt (a b : A) : ltb a b = true <-> cmp a b = Lt.
Proof. unfold ltb. destruct (cmp a b); split; congruence. Qed.

Lemma leb_gt (a b : A) : leb a b = false <-> cmp b a = Lt.
Proof. rewrite <- cmp_gt_lt. unfold leb. destruct (cmp a b); split; congruence. Qed.

Lemma leb_le (a b : A) : leb a b = true <-> cmp a b = Lt \/ a = b.
Proof.
  rewrite <- cmp_eq. unfold leb. destruct (cmp a b); split; intros; try tauto; try done.
  destruct_or?; congruence.
Qed.

Lemma leb_trans (a b c : A) : leb a b = true -> leb b c = true -> leb a c = true.
Proof.
  rewrite !leb_le. intros [?| ->] [?| ->]; eauto using cmp_trans.
Qed.

Lemma leb_total (a b : A) : leb a b = true \/ leb b a = true.
Proof.
  destruct (leb a b) eqn:L; [by left|right]. apply leb_le. left. by apply leb_gt.
Qed.

Lemma leb_antisym (a b : A) : leb a b = true -> leb b a = true -> a = b.
Proof.
  rewrite !leb_le. intros [L1|?] [L2|?]; try congruence.
  destruct (cmp_lt_irrefl a). by apply (cmp_trans a b a).
Qed.

#[export] Instance ord_list_laws : OrdLaws (list A).
Proof.
  split; unfold cmp, ord_list.
  - intros l. induction l as [|a l IH]; intros [|b k]; simpl; try (split; congruence).
    destruct (cmp a b) eqn:E; simpl.
    + apply cmp_eq in E. subst. rewrite IH. split; congruence.
    + split; [discriminate|]. intros [= -> ->]. by rewrite cmp_refl in E.
    + split; [discriminate|]. intros [= -> ->]. by rewrite cmp_refl in E.
  - intros l. induction l as [|a l IH]; intros [|b k]; simpl; try done.
    rewrite (cmp_antisym a b). destruct (cmp a b); simpl; auto.
  - intros l. induction l as [|a l IH]; intros [|b k] [|c m]; simpl; try done.
    destruct (cmp a b) eqn:E1, (cmp b c) eqn:E2; simpl; try done; intros L1 L2.
    + apply cmp_eq in E1, E2. subst. rewrite cmp_refl. simpl. eauto.
    + apply cmp_eq in E1. subst. by rewrite E2.
    + apply cmp_eq in E2. subst. by rewrite E1.
    + by rewrite (cmp_trans a b c).
Qed.

#[export] Instance ord_option_laws : OrdLaws (option A).
Proof.
  split; unfold cmp, ord_option.
  - intros [x|] [y|]; try (split; congruence). rewrite cmp_eq. split; congruence.
  - intros [x|] [y|]; try done. apply cmp_antisym.
  - intros [x|] [y|] [z|]; try done. apply cmp_trans.
Qed.
End OrdFacts.

Lemma cmp_pair {A B} `{Ord A, Ord B} (a c : A) (b d : B) :
  cmp (a, b) (c, d) = then_cmp (cmp a c) (cmp b d).
Proof. done. Qed.

#[export] Instance ord_prod_laws {A B} `{OrdLaws A} `{OrdLaws B} : OrdLaws (A * B).
Proof.
  split.
  - intros [a b] [c d]. rewrite cmp_pair. destruct (cmp a c) eqn:E; simpl.
    + apply cmp_eq in E. subst. rewrite cmp_eq. split; congruence.
    + split; [discriminate|]. intros [= -> ->]. by rewrite cmp_refl in E.
    + split; [discriminate|]. intros [= -> ->]. by rewrite cmp_refl in E.
  - intros [a b] [c d]. rewrite !cmp_pair, (cmp_antisym a c).
    destruct (cmp a c); simpl; auto. apply cmp_antisym.
  - intros [a b] [c d] [e f]. rewrite !cmp_pair.
    destruct (cmp a c) eqn:E1, (cmp c e) eqn:E2; simpl; try done; intros L1 L2.
    + apply cmp_eq in E1, E2. subst. rewrite cmp_refl. simpl. by apply (cmp_trans b d f).
    + apply cmp_eq in E1. subst. by rewrite E2.
    + apply cmp_eq in E2. subst. by rewrite E1.
    + by rewrite (cmp_trans a c e).
Qed.

(** ** [BTreeMap] and [BTreeSet] *)

Definition BTreeMap (K V : Type) : Type := list (K * V).
Definition BTreeSet (K : Type) : Type := BTreeMap K unit.

Section BTree.
Context {K V : Type} `{OrdLaws K}.
Implicit Type m : list (K * V).

(** [BTreeMap::get]. *)
Fixpoint bt_get (k : K) m : option V :=
  match m with
  | [] => None
  | (k', v) :: m' =>
      match cmp k k' with
      | Lt => None
      | Eq => Some v
      | Gt => bt_get k m'
      end
  end.

(** [BTreeMap::insert]. *)
Fixpoint bt_insert (k : K) (v : V) m : list (K * V) :=
  match m with
  | [] => [(k, v)]
  | (k', v') :: m' =>
      match cmp k k' with
      | Lt => (k, v) :: m
      | Eq => (k, v) :: m'
      | Gt => (k', v') :: bt_insert k v m'
      end
  end.

(** [BTreeMap::remove]. *)
Fixpoint bt_remove (k : K) m : list (K * V) :=
  match m with
  | [] => []
  | (k', v') :: m' =>
      match cmp k k' with
      | Lt => m
      | Eq => m'
      | Gt => (k', v') :: bt_remove k m'
      end
  end.

(** Keys in strictly increasing order: the representation invariant. *)
Definition bt_wf m : Prop := StronglySorted (fun p q => cmp p.1 q.1 = Lt) m.

(** [k] is below every key of [m]. *)
Definition bt_below (k : K) m : Prop := Forall (fun p => cmp k p.1 = Lt) m.

Lemma bt_get_below k m : bt_below k m -> bt_get k m = None.
Proof. destruct m as [|[k' v] m]; [done|]. intros B. inversion B; subst. simpl in *. by case_match. Qed.

Lemma bt_below_trans k k' m : cmp k k' = Lt -> bt_below k' m -> bt_below k m.
Proof.
  intros L. unfold bt_below. apply Forall_impl. intros [k2 v]. simpl. by apply cmp_trans.
Qed.

Lemma bt_below_insert k k' v m : cmp k k' = Lt -> bt_below k m -> bt_below k (bt_insert k' v m).
Proof.
  unfold bt_below. intros L. induction m as [|[k2 v2] m IH]; intros B; simpl.
  { repeat constructor. done. }
  inversion B; subst. case_match; repeat (constructor; [done|]); auto.
Qed.

Lemma bt_below_remove k k' m : bt_below k m -> bt_below k (bt_remove k' m).
Proof.
  unfold bt_below. induction m as [|[k2 v2] m IH]; intros B; simpl; [done|].
  inversion B; subst. case_match; auto.
Qed.

Lemma bt_wf_cons k v m : bt_wf ((k, v) :: m) <-> bt_wf m /\ bt_below k m.
Proof.
  unfold bt_wf, bt_below. split.
  - intros S. inversion S; subst. auto.
  - intros [? ?]. by constructor.
Qed.

Lemma bt_wf_nil : bt_wf [].
Proof. constructor. Qed.

Lemma bt_wf_insert k v m : bt_wf m -> bt_wf (bt_insert k v m).
Proof.
  induction m as [|[k' v'] m IH]; intros W; simpl.
  { apply bt_wf_cons. split; constructor. }
  apply bt_wf_cons in W as [W B]. destruct (cmp k k') eqn:E.
  - apply cmp_eq in E. subst. by apply bt_wf_cons.
  - apply bt_wf_cons. split; [by apply bt_wf_cons|].
    constructor; [done|]. by apply (bt_below_trans k k').
  - apply bt_wf_cons. split; [auto|]. apply bt_below_insert; [|done]. by apply cmp_gt_lt.
Qed.

Lemma bt_wf_remove k m : bt_wf m -> bt_wf (bt_remove k m).
Proof.
  induction m as [|[k' v'] m IH]; intros W; simpl; [done|].
  pose proof W as W'. apply bt_wf_cons in W as [W B]. case_match; auto.
  apply bt_wf_cons. auto using bt_below_remove.
Qed.

Lemma bt_get_insert_eq k v m : bt_get k (bt_insert k v m) = Some v.
Proof.
  induction m as [|[k' v'] m IH]; simpl; [by rewrite cmp_refl|].
  destruct (cmp k k') eqn:E; simpl; rewrite ?cmp_refl, ?E; auto.
Qed.

Lemma bt_get_insert_ne k k' v m : k <> k' -> bt_get k (bt_insert k' v m) = bt_get k m.
Proof.
  intros N. induction m as [|[k2 v2] m IH]; simpl.
  { destruct (cmp k k') eqn:E; try done. by apply cmp_eq in E. }
  destruct (cmp k' k2) eqn:E'; simpl.
  - apply cmp_eq in E'. subst. destruct (cmp k k2) eqn:E; try done. by apply cmp_eq in E.
  - destruct (cmp k k') eqn:E; try done.
    + by apply cmp_eq in E.
    + by rewrite (cmp_trans k k' k2).
  - by rewrite IH.
Qed.

Lemma bt_get_remove_eq k m : bt_wf m -> bt_get k (bt_remove k m) = None.
Proof.
  induction m as [|[k' v'] m IH]; intros W; simpl; [done|].
  apply bt_wf_cons in W as [W B]. destruct (cmp k k') eqn:E; simpl; rewrite ?E; auto.
  apply cmp_eq in E. subst. by apply bt_get_below.
Qed.

Lemma bt_get_remove_ne k k' m : bt_wf m -> k <> k' -> bt_get k (bt_remove k' m) = bt_get k m.
Proof.
  intros W N. induction m as [|[k2 v2] m IH]; simpl; [done|].
  apply bt_wf_cons in W as [W B].
  destruct (cmp k' k2) eqn:E'; simpl; [|done|by rewrite IH].
  apply cmp_eq in E'. subst. destruct (cmp k k2) eqn:E; try done.
  - by apply cmp_eq in E.
  - apply bt_get_below. by apply (bt_below_trans k k2).
Qed.

Lemma bt_get_Some_in k v m : bt_get k m = Some v -> In (k, v) m.
Proof.
  induction m as [|[k' v'] m IH]; simpl; [done|]. destruct (cmp k k') eqn:E; intros G; try done.
  - apply cmp_eq in E. subst. left. congruence.
  - auto.
Qed.

Lemma bt_in_get k v m : bt_wf m -> In (k, v) m -> bt_get k m = Some v.
Proof.
  induction m as [|[k' v'] m IH]; simpl; [done|]. intros W. apply bt_wf_cons in W as [W B].
  intros [[= -> ->]|I]; [by rewrite cmp_refl|].
  assert (cmp k' k = Lt) as L.
  { unfold bt_below in B. rewrite Forall_forall in B. by apply (B (k, v)). }
  rewrite (proj2 (cmp_gt_lt k k') L). auto.
Qed.

(** A map is determined by its lookups. *)
Lemma bt_ext m1 m2 : bt_wf m1 -> bt_wf m2 -> (forall k, bt_get k m1 = bt_get k m2) -> m1 = m2.
Proof.
  revert m2. induction m1 as [|[k1 v1] m1 IH]; intros [|[k2 v2] m2] W1 W2 X.
  - done.
  - specialize (X k2). simpl in X. by rewrite cmp_refl in X.
  - specialize (X k1). simpl in X. by rewrite cmp_refl in X.
  - apply bt_wf_cons in W1 as [W1 B1], W2 as [W2 B2].
    pose proof (X k1) as X1. pose proof (X k2) as X2. simpl in X1, X2.
    rewrite cmp_refl in X1, X2. rewrite (cmp_antisym k1 k2) in X2.
    destruct (cmp k1 k2) eqn:E; simpl in *; try done.
    apply cmp_eq in E. subst. assert (v1 = v2) as -> by congruence. f_equal.
    apply IH; auto. intros k. specialize (X k). simpl in X.
    destruct (cmp k k2) eqn:Ek; auto.
    + apply cmp_eq in Ek. subst. by rewrite !bt_get_below.
    + rewrite !bt_get_below; [done|by apply (bt_below_trans k k2)..].
Qed.

Lemma bt_in_insert k v k' v' m :
  In (k', v') (bt_insert k v m) -> (k' = k /\ v' = v) \/ In (k', v') m.
Proof.
  induction m as [|[k2 v2] m IH]; simpl.
  - intros [[= <- <-]|[]]; auto.
  - case_match; simpl; intros I; repeat (destruct I as [I|I]); try (injection I as <- <-); auto.
    destruct (IH I); auto.
Qed.

Lemma bt_in_remove p k m : In p (bt_remove k m) -> In p m.
Proof.
  induction m as [|[k2 v2] m IH]; simpl; [done|]. case_match; simpl; tauto.
Qed.

Lemma bt_length_insert k v m :
  length (bt_insert k v m) = match bt_get k m with Some _ => length m | None => S (length m) end.
Proof.
  induction m as [|[k2 v2] m IH]; simpl; [done|].
  destruct (cmp k k2); simpl; try done. rewrite IH. by destruct (bt_get k m).
Qed.

Lemma bt_length_remove k m v :
  bt_get k m = Some v -> S (length (bt_remove k m)) = length m.
Proof.
  induction m as [|[k2 v2] m IH]; simpl; [done|].
  destruct (cmp k k2); simpl; try done. intros G. by rewrite IH.
Qed.

Lemma bt_remove_absent k m : bt_get k m = None -> bt_remove k m = m.
Proof.
  induction m as [|[k2 v2] m IH]; simpl; [done|].
  destruct (cmp k k2); try done. intros G. by rewrite IH.
Qed.

Lemma bt_insert_same k v m : bt_get k m = Some v -> bt_insert k v m = m.
Proof.
  induction m as [|[k2 v2] m IH]; simpl; [done|]. destruct (cmp k k2) eqn:E; try done.
  - apply cmp_eq in E. intros [= ->]. by subst.
  - intros G. by rewrite IH.
Qed.

Lemma bt_insert_snoc k v m :
  Forall (fun p => cmp p.1 k = Lt) m -> bt_insert k v m = m ++ [(k, v)].
Proof.
  induction m as [|[k2 v2] m IH]; intros F; [done|]. simpl. inversion F; subst; simpl in *.
  rewrite (proj2 (cmp_gt_lt k k2)) by done. by rewrite IH.
Qed.
End BTree.

Create HintDb btree.
#[export] Hint Extern 1 (bt_wf []) => apply bt_wf_nil : btree.
#[export] Hint Extern 1 (bt_wf (bt_insert _ _ _)) => apply bt_wf_insert : btree.
#[export] Hint Extern 1 (bt_wf (bt_remove _ _)) => apply bt_wf_remove : btree.

(** [BTreeSet::contains] and [BTreeSet::insert], which reports whether the
    value was new. *)
Definition bs_mem {K} `{Ord K} (k : K) (s : BTreeSet K) : bool :=
  match bt_get k s with
  | Some _ => true
  | None => false
  end.

Definition bs_insert {K} `{Ord K} (k : K) (s : BTreeSet K) : bool * BTreeSet K :=
  (negb (bs_mem k s), bt_insert k tt s).

Definition bs_add {K} `{Ord K} (k : K) (s : BTreeSet K) : BTreeSet K := (bs_insert k s).2.

(** [iter().collect::<BTreeSet<_>>()] and back to a sorted vector. *)
Definition bs_collect {K} `{Ord K} (l : list K) : BTreeSet K :=
  fold_left (fun s k => bs_add k s) l [].
Definition bs_to_list {K} (s : BTreeSet K) : list K := map fst s.

Section BTreeSetFacts.
Context {K : Type} `{OrdLaws K}.
Implicit Types (s : BTreeSet K) (k : K).

Lemma bs_mem_add k k' s : bs_mem k (bs_add k' s) = true <-> k = k' \/ bs_mem k s = true.
Proof.
  unfold bs_mem, bs_add, bs_insert. simpl. destruct (cmp k k') eqn:E.
  - apply cmp_eq in E. subst. rewrite bt_get_insert_eq. tauto.
  - pose proof (cmp_lt_neq _ _ E). rewrite bt_get_insert_ne by done. tauto.
  - apply cmp_gt_lt in E. pose proof (cmp_lt_neq _ _ E). rewrite bt_get_insert_ne by done.
    intuition congruence.
Qed.

Lemma bs_wf_add k s : bt_wf s -> bt_wf (bs_add k s).
Proof. apply bt_wf_insert. Qed.

Lemma bs_mem_in k s : bt_wf s -> bs_mem k s = true <-> In k (bs_to_list s).
Proof.
  intros W. unfold bs_mem, bs_to_list. rewrite in_map_iff. split.
  - destruct (bt_get k s) as [[]|] eqn:G; [|done]. intros _. exists (k, tt).
    split; [done|]. by apply bt_get_Some_in.
  - intros ([k' []] & <- & I). simpl. by rewrite (bt_in_get k' tt).
Qed.

Lemma bs_collect_spec l s :
  bt_wf s ->
  bt_wf (fold_left (fun s k => bs_add k s) l s)
  /\ forall k, bs_mem k (fold_left (fun s k => bs_add k s) l s) = true <-> In k l \/ bs_mem k s = true.
Proof.
  revert s. induction l as [|a l IH]; intros s W; simpl; [tauto|].
  destruct (IH (bs_add a s) (bs_wf_add _ _ W)) as [W' M]. split; [done|].
  intros k. rewrite M, bs_mem_add. intuition congruence.
Qed.

Lemma bs_collect_wf l : bt_wf (bs_collect l).
Proof. exact (proj1 (bs_collect_spec l [] bt_wf_nil)). Qed.

Lemma bs_collect_in l k : In k (bs_to_list (bs_collect l)) <-> In k l.
Proof.
  rewrite <- bs_mem_in by apply bs_collect_wf.
  rewrite (proj2 (bs_collect_spec l [] bt_wf_nil)). simpl. intuition discriminate.
Qed.

(** Vectors collected from a set are strictly increasing. *)
Lemma bs_to_list_sorted s : bt_wf s -> StronglySorted (fun a b => cmp a b = Lt) (bs_to_list s).
Proof.
  unfold bs_to_list. induction s as [|[k []] s IH]; intros W; simpl; [constructor|].
  apply bt_wf_cons in W as [W B]. constructor; [auto|].
  unfold bt_below in B. rewrite Forall_map. exact B.
Qed.

Lemma sorted_NoDup (l : list K) : StronglySorted (fun a b => cmp a b = Lt) l -> NoDup l.
Proof.
  induction 1 as [|a l S IH F]; [constructor|]. apply list.NoDup_cons. split; [|done].
  rewrite list_elem_of_In. intros I. rewrite Forall_forall in F. by apply (cmp_lt_irrefl a), F.
Qed.

Lemma bs_collect_length l : (length (bs_to_list (bs_collect l)) <= length l)%nat.
Proof.
  unfold bs_to_list. rewrite length_map. unfold bs_collect.
  assert (forall s, (length (fold_left (fun s k => bs_add k s) l s) <= length l + length s)%nat) as G.
  { induction l as [|a l IH]; intros s; simpl; [lia|]. specialize (IH (bs_add a s)).
    assert (length (bs_add a s) <= S (length s))%nat; [|lia].
    unfold bs_add. simpl. rewrite bt_length_insert. destruct (bt_get a s); lia. }
  specialize (G []). simpl in G. lia.
Qed.
Lemma bs_insert_eq (k : K) s : bs_insert k s = (negb (bs_mem k s), bs_add k s).
Proof. done. Qed.

Lemma bs_mem_add_false (k k' : K) s :
  bs_mem k' (bs_add k s) = false <-> k' <> k /\ bs_mem k' s = false.
Proof. pose proof (bs_mem_add k' k s). destruct (bs_mem k' (bs_add k s)), (bs_mem k' s); naive_solver. Qed.

(** Keys that are new one after the other. *)
Lemma fresh_cons (k : K) ks s :
  NoDup (k :: ks) /\ Forall (fun k' => bs_mem k' s = false) (k :: ks) <->
  bs_mem k s = false /\ NoDup ks /\ Forall (fun k' => bs_mem k' (bs_add k s) = false) ks.
Proof.
  rewrite list.NoDup_cons, Forall_cons_iff, !Forall_forall. setoid_rewrite bs_mem_add_false.
  rewrite list_elem_of_In. split.
  - intros ((N & D) & M & F). split_and!; [done|done|]. intros k' I. split; [congruence|by apply F].
  - intros (M & D & F). split_and!; [|done|done|by intros k' I; apply F]. intros I. by destruct (F k I).
Qed.

End BTreeSetFacts.

(** ** Sorting and searching slices *)

(** Insertion of an element before the first strictly greater one, and the
    stable sort built from it. *)
Fixpoint sort_insert {A} (le : A -> A -> bool) (a : A) (l : list A) : list A :=
  match l with
  | [] => [a]
  | b :: l' => if le a b then a :: l else b :: sort_insert le a l'
  end.

Fixpoint sort_by {A} (le : A -> A -> bool) (l : list A) : list A :=
  match l with
  | [] => []
  | a :: l' => sort_insert le a (sort_by le l')
  end.

(** [sort_by(|l, r| key(l).cmp(&key(r)))]. *)
Definition sort_by_key {A K} `{Ord K} (key : A -> K) (l : list A) : list A :=
  sort_by (fun a b => leb (key a) (key b)) l.

(** [binary_search_by] on a strictly sorted slice: the index of the element
    equal to [k], if there is one. *)
Fixpoint position {A} `{Ord A} (k : A) (l : list A) (i : Z) : option Z :=
  match l with
  | [] => None
  | a :: l' =>
      match cmp a k with
      | Eq => Some i
      | _ => position k l' (i + 1)
      end
  end.
Definition binary_search {A} `{Ord A} (l : list A) (k : A) : option Z := position k l 0.

Section SortFacts.
Context {A K : Type} `{OrdLaws K} (key : A -> K).
Implicit Type l : list A.

Lemma sort_insert_perm le (a : A) l : Permutation (a :: l) (sort_insert le a l).
Proof.
  induction l as [|b l IH]; simpl; [done|]. case_if; [done|].
  rewrite <- IH. apply Permutation_swap.
Qed.

Lemma sort_by_perm le l : Permutation l (sort_by le l).
Proof.
  induction l as [|a l IH]; simpl; [done|].
  rewrite <- sort_insert_perm. by constructor.
Qed.

Lemma sort_by_key_perm l : Permutation l (sort_by_key key l).
Proof. apply sort_by_perm. Qed.

Lemma sort_insert_sorted a l :
  StronglySorted (fun x y => leb (key x) (key y) = true) l ->
  StronglySorted (fun x y => leb (key x) (key y) = true) (sort_insert (fun x y => leb (key x) (key y)) a l).
Proof.
  induction l as [|b l IH]; intros S; simpl; [repeat constructor|].
  inversion S as [|? ? S' F]; subst. destruct (leb (key a) (key b)) eqn:L.
  - constructor; [done|]. constructor; [done|].
    eapply Forall_impl; [|exact F]. intros x. simpl. by apply leb_trans.
  - constructor; [auto|]. rewrite Forall_forall in *. intros x I.
    apply (Permutation_in x (Permutation_sym (sort_insert_perm _ a l))) in I.
    destruct I as [<-|I].
    + apply leb_gt in L. apply leb_le. by left.
    + by apply F.
Qed.

Lemma sort_by_key_sorted l :
  StronglySorted (fun x y => leb (key x) (key y) = true) (sort_by_key key l).
Proof. unfold sort_by_key. induction l; simpl; [constructor|]. by apply sort_insert_sorted. Qed.

(** With pairwise distinct keys the sorted slice is strictly increasing. *)
Lemma sort_by_key_strict l :
  NoDup (map key l) -> StronglySorted (fun x y => cmp (key x) (key y) = Lt) (sort_by_key key l).
Proof.
  intros D.
  assert (NoDup (map key (sort_by_key key l))) as D'.
  { rewrite <- (Permutation_map key (sort_by_key_perm l)). done. }
  pose proof (sort_by_key_sorted l) as S. revert D'. clear D.
  induction S as [|a l' S IH F]; simpl; intros D; [constructor|].
  apply list.NoDup_cons in D as [N D]. constructor; [auto|].
  rewrite Forall_forall in *. intros x I. specialize (F x I). apply leb_le in F as [F|F]; [done|].
  destruct N. rewrite F. by apply list_elem_of_In, in_map.
Qed.

(** Sorting leaves a sorted slice as it is. *)
Lemma sort_by_key_id l : StronglySorted (fun x y => cmp (key x) (key y) = Lt) l -> sort_by_key key l = l.
Proof.
  unfold sort_by_key. induction 1 as [|a l S IH F]; [done|]. cbn [sort_by]. rewrite IH.
  destruct F as [|b l L F]; [done|]. cbn [sort_insert]. rewrite (proj2 (leb_le _ _)); [done|by left].
Qed.
End SortFacts.

Lemma sort_by_key_length {A K} `{Ord K} (key : A -> K) (l : list A) :
  length (sort_by_key key l) = length l.
Proof. symmetry. apply Permutation_length, sort_by_perm. Qed.

Section Search.
Context {A : Type} `{OrdLaws A}.

Lemma position_app (k : A) l1 l2 i :
  ~ In k l1 -> position k (l1 ++ k :: l2) i = Some (i + len l1).
Proof.
  revert i. induction l1 as [|a l1 IH]; intros i N; simpl.
  - rewrite cmp_refl, len_nil. f_equal. lia.
  - destruct (cmp a k) eqn:E.
    + apply cmp_eq in E. subst. destruct N. by left.
    + rewrite IH by (intros ?; apply N; by right). rewrite len_cons. f_equal. lia.
    + rewrite IH by (intros ?; apply N; by right). rewrite len_cons. f_equal. lia.
Qed.

Lemma position_Some (k : A) l i j :
  position k l i = Some j -> i <= j < i + len l /\ l !! Z.to_nat (j - i) = Some k.
Proof.
  revert i. induction l as [|a l IH]; intros i; simpl; [done|].
  rewrite len_cons. pose proof (len_nonneg l).
  assert (position k l (i + 1) = Some j ->
          i <= j < i + (len l + 1) /\ (a :: l) !! Z.to_nat (j - i) = Some k) as R.
  { intros P. apply IH in P as [R L]. split; [lia|].
    replace (Z.to_nat (j - i)) with (S (Z.to_nat (j - (i + 1)))) by lia. exact L. }
  destruct (cmp a k) eqn:E; auto.
  intros [= <-]. apply cmp_eq in E. subst. rewrite Z.sub_diag. simpl. split; [lia|done].
Qed.

Lemma binary_search_in (k : A) l : In k l -> is_Some (binary_search l k).
Proof.
  unfold binary_search. generalize 0. induction l as [|a l IH]; intros i; simpl; [done|].
  intros [->|I]; [rewrite cmp_refl; eauto|]. destruct (cmp a k); eauto.
Qed.
End Search.
