(* ===== verification/Text.v ===== *)
(** * Rust strings

    A [String] or [str] is its UTF-8 bytes.  This file models the pieces
    of the standard library that decide which byte strings become identifiers:
    UTF-8 validation ([std::str::from_utf8]) and the whitespace test behind
    [str::trim]; and the searches and the decimal numerals that object keys are
    taken apart and built with. *)

From S2P Require Import Prelude.

Abbreviation text := (list byte).

(** A UTF-8 continuation byte. *)
Definition is_cont (b : byte) : bool := (0x80 <=? u8 b) && (u8 b <=? 0xBF).

(** Admissible second byte of a three- or four-byte sequence, by first byte:
    no overlong forms, no surrogates, nothing above U+10FFFF. *)
Definition second_of_three (x y : Z) : bool :=
  if x =? 0xE0 then (0xA0 <=? y) && (y <=? 0xBF)
  else if x =? 0xED then (0x80 <=? y) && (y <=? 0x9F)
  else (0xE1 <=? x) && (x <=? 0xEF) && (0x80 <=? y) && (y <=? 0xBF).

Definition second_of_four (x y : Z) : bool :=
  if x =? 0xF0 then (0x90 <=? y) && (y <=? 0xBF)
  else if x =? 0xF4 then (0x80 <=? y) && (y <=? 0x8F)
  else (0xF1 <=? x) && (x <=? 0xF3) && (0x80 <=? y) && (y <=? 0xBF).

(** The scalar values of a byte string, when it is valid UTF-8. *)
Fixpoint utf8_chars (l : list byte) : option (list Z) :=
  match l with
  | [] => Some []
  | b0 :: l1 =>
      let x := u8 b0 in
      if x <? 0x80 then cons x <$> utf8_chars l1
      else
        match l1 with
        | [] => None
        | b1 :: l2 =>
            let y := u8 b1 in
            if (0xC2 <=? x) && (x <=? 0xDF) then
              if is_cont b1 then cons ((x - 0xC0) * 64 + (y - 0x80)) <$> utf8_chars l2
              else None
            else
              match l2 with
              | [] => None
              | b2 :: l3 =>
                  let z := u8 b2 in
                  if second_of_three x y then
                    if is_cont b2 then
                      cons ((x - 0xE0) * 4096 + (y - 0x80) * 64 + (z - 0x80)) <$> utf8_chars l3
                    else None
                  else
                    match l3 with
                    | [] => None
                    | b3 :: l4 =>
                        if second_of_four x y && is_cont b2 && is_cont b3 then
                          cons ((x - 0xF0) * 262144 + (y - 0x80) * 4096
                                + (z - 0x80) * 64 + (u8 b3 - 0x80)) <$> utf8_chars l4
                        else None
                    end
              end
        end
  end.

(** [std::str::from_utf8(bytes).is_ok()]. *)
Definition utf8_valid (l : list byte) : bool :=
  match utf8_chars l with
  | Some _ => true
  | None => false
  end.

(** [char::is_whitespace]: the Unicode property White_Space. *)
Definition is_whitespace (c : Z) : bool :=
  ((0x09 <=? c) && (c <=? 0x0D)) || (c =? 0x20) || (c =? 0x85) || (c =? 0xA0)
  || (c =? 0x1680) || ((0x2000 <=? c) && (c <=? 0x200A)) || (c =? 0x2028) || (c =? 0x2029)
  || (c =? 0x202F) || (c =? 0x205F) || (c =? 0x3000).

(** [s.trim().is_empty()]. *)
Definition trim_is_empty (s : text) : bool :=
  match utf8_chars s with
  | Some cs => forallb is_whitespace cs
  | None => false
  end.

(** [str::strip_prefix] and [str::split_once] on one ASCII character. *)
Fixpoint strip_prefix (p s : text) : option text :=
  match p, s with
  | [], _ => Some s
  | a :: p', b :: s' => if bool_decide (a = b) then strip_prefix p' s' else None
  | _ :: _, [] => None
  end.

Fixpoint split_once (c : byte) (s : text) : option (text * text) :=
  match s with
  | [] => None
  | b :: s' =>
      if bool_decide (b = c) then Some ([], s')
      else match split_once c s' with
           | Some (l, r) => Some (b :: l, r)
           | None => None
           end
  end.

(** [str::contains] on one ASCII character. *)
Definition contains (c : byte) (s : text) : bool := existsb (fun b => bool_decide (b = c)) s.

(** A non-blank string: what every identifier of the repository holds. *)
Definition is_name (s : text) : bool := utf8_valid s && negb (trim_is_empty s).

Definition wf_name (s : text) : Prop := is_name s = true.

Lemma is_name_utf8 s : wf_name s -> utf8_valid s = true.
Proof. unfold wf_name, is_name. intros. by b2p. Qed.

Lemma is_name_trim s : wf_name s -> trim_is_empty s = false.
Proof. unfold wf_name, is_name. intros. by b2p. Qed.

Lemma wf_name_intro s : utf8_valid s = true -> trim_is_empty s = false -> wf_name s.
Proof. unfold wf_name, is_name. by intros -> ->. Qed.

Lemma wf_name_nonempty s : wf_name s -> 1 <= len s.
Proof. destruct s; [done|]. rewrite len_cons. pose proof (len_nonneg s). lia. Qed.

(** ASCII bytes are valid UTF-8 and are their own scalar values. *)
Lemma utf8_chars_ascii l : Forall (fun b => u8 b < 0x80) l -> utf8_chars l = Some (map u8 l).
Proof.
  induction l as [|b l IH]; intros F; [done|]. inversion F; subst. cbn [utf8_chars map].
  destruct (Z.ltb_spec (u8 b) 128); [|lia]. by rewrite IH.
Qed.

(** A string that starts with a visible ASCII character is not blank. *)
Lemma trim_is_empty_ascii b s : 0x20 < u8 b < 0x7F -> trim_is_empty (b :: s) = false.
Proof.
  intros B. unfold trim_is_empty. cbn [utf8_chars]. destruct (Z.ltb_spec (u8 b) 128); [|lia].
  destruct (utf8_chars s); simpl; [|done]. apply andb_false_intro1.
  unfold is_whitespace. repeat rewrite orb_false_iff. rewrite !andb_false_iff. lia.
Qed.

Lemma ascii_utf8 l : Forall (fun b => u8 b < 0x80) l -> utf8_valid l = true.
Proof. intros F. unfold utf8_valid. by rewrite utf8_chars_ascii. Qed.

Lemma ascii_name b l : 0x20 < u8 b < 0x7F -> Forall (fun b => u8 b < 0x80) l -> wf_name (b :: l).
Proof.
  intros B F. apply wf_name_intro; [|by apply trim_is_empty_ascii].
  apply ascii_utf8. constructor; [lia|done].
Qed.

(** ** Searching *)

Lemma strip_prefix_app p s : strip_prefix p (p ++ s) = Some s.
Proof. induction p as [|a p IH]; simpl; [done|]. by rewrite bool_decide_eq_true_2. Qed.

Lemma strip_prefix_Some p s rest : strip_prefix p s = Some rest -> s = p ++ rest.
Proof.
  revert s. induction p as [|a p IH]; intros s S; simpl in *; [by inv_bind|].
  destruct s; [done|]. case_if_in S; [|done]. b2p. subst. simpl. f_equal. auto.
Qed.

Lemma contains_false c s : contains c s = false <-> ~ In c s.
Proof.
  unfold contains. rewrite <- not_true_iff_false, existsb_exists. split.
  - intros N I. apply N. exists c. by rewrite bool_decide_eq_true_2.
  - intros N (b & I & E). b2p. by subst.
Qed.

Lemma split_once_app c l r : ~ In c l -> split_once c (l ++ c :: r) = Some (l, r).
Proof.
  induction l as [|b l IH]; intros N; simpl in *; [by rewrite bool_decide_eq_true_2|].
  rewrite bool_decide_eq_false_2 by tauto. rewrite IH by tauto. done.
Qed.

Lemma split_once_Some c s l r : split_once c s = Some (l, r) -> s = l ++ c :: r /\ ~ In c l.
Proof.
  revert l. induction s as [|b s IH]; intros l S; simpl in S; [done|].
  case_if_in S; b2p; [inv_bind; simpl; tauto|].
  destruct (split_once c s) as [[l' r']|]; [|done]. inv_bind.
  destruct (IH l' eq_refl) as [-> N]. simpl. split; [done|]. intros [->|I]; auto.
Qed.

(** ** Decimal numerals *)

(** [format!("{v:020}")]: a [u64] has at most twenty decimal digits. *)
Definition format_020 (v : Z) : text := map (fun d => to_u8 (48 + d)) (to_digits 10 20 v).

Definition is_ascii_digit (b : byte) : bool := (48 <=? u8 b) && (u8 b <=? 57).

(** [str::parse::<u64>] on a string of ASCII digits. *)
Definition parse_u64 (s : text) : option Z :=
  let v := from_digits 10 (map (fun b => u8 b - 48) s) in
  if v <=? u64_max then Some v else None.

Lemma format_020_length v : length (format_020 v) = 20%nat.
Proof. unfold format_020. by rewrite length_map, length_to_digits. Qed.

Lemma format_020_digits v : Forall (fun b => 48 <= u8 b <= 57) (format_020 v).
Proof.
  apply Forall_map. eapply List.Forall_impl; [|exact (to_digits_range 10 20 v ltac:(lia))].
  intros d D. cbv beta in D |- *. rewrite u8_to_u8_small by lia. lia.
Qed.

Lemma parse_format_020 v : is_u64 v -> parse_u64 (format_020 v) = Some v.
Proof.
  unfold is_u64. intros U. unfold parse_u64, format_020. rewrite map_map.
  assert (map (fun d => u8 (to_u8 (48 + d)) - 48) (to_digits 10 20 v) = to_digits 10 20 v) as ->.
  { rewrite <- map_id. apply map_ext_Forall.
    eapply List.Forall_impl; [|exact (to_digits_range 10 20 v ltac:(lia))].
    intros d D. cbv beta in D |- *. rewrite u8_to_u8_small by lia. lia. }
  rewrite from_to_digits by (simpl; lia). case_if; b2p; [done|lia].
Qed.

Lemma format_parse_020 s v :
  length s = 20%nat -> forallb is_ascii_digit s = true -> parse_u64 s = Some v ->
  is_u64 v /\ format_020 v = s.
Proof.
  intros L D P. unfold parse_u64 in P. case_if_in P; [|done]. b2p. inv_bind.
  assert (Forall (fun d => 0 <= d < 10) (map (fun b => u8 b - 48) s)) as F.
  { apply Forall_map, Forall_forall. intros b I. rewrite forallb_forall in D.
    specialize (D b I). unfold is_ascii_digit in D. b2p. lia. }
  split.
  { pose proof (from_digits_range 10 _ ltac:(lia) F). unfold is_u64. lia. }
  unfold format_020. replace 20%nat with (length (map (fun b => u8 b - 48) s)) at 1 by (rewrite length_map; done).
  rewrite to_from_digits, map_map by (done || lia). rewrite <- (map_id s) at 2. apply map_ext.
  intros b. apply to_u8_eq. lia.
Qed.

(** The digits without the leading zeros; zero keeps one digit. *)
Fixpoint strip_zeros (s : text) : text :=
  match s with
  | [] | [_] => s
  | b :: s' => if u8 b =? 48 then strip_zeros s' else s
  end.

(** [u64::to_string]. *)
Definition u64_to_string (v : Z) : text := strip_zeros (format_020 v).

(** [str::parse::<u64>]: an optional plus sign and at least one digit. *)
Definition u64_from_str (s : text) : option Z :=
  let digits := match s with x2b :: s' => s' | _ => s end in
  if bool_decide (digits = []) || negb (forallb is_ascii_digit digits) then None else parse_u64 digits.

Lemma strip_zeros_spec s :
  s <> [] -> Forall (fun b => 48 <= u8 b <= 57) s ->
  strip_zeros s <> [] /\ Forall (fun b => 48 <= u8 b <= 57) (strip_zeros s)
  /\ parse_u64 (strip_zeros s) = parse_u64 s.
Proof.
  intros N F. induction F as [|b s B F IH]; [done|]. simpl. destruct s as [|b' s'].
  { split_and!; [done|by constructor|done]. }
  destruct (Z.eqb_spec (u8 b) 48) as [E|]; [|split_and!; [done|by constructor|done]].
  destruct IH as (N' & F' & P); [done|]. split_and!; [done..|]. rewrite P.
  unfold parse_u64. cbn [map]. rewrite (from_digits_cons 10 (u8 b - 48)), E. done.
Qed.

Lemma u64_to_string_spec v : is_u64 v ->
  u64_to_string v <> [] /\ Forall (fun b => 48 <= u8 b <= 57) (u64_to_string v)
  /\ parse_u64 (u64_to_string v) = Some v.
Proof.
  intros U. unfold u64_to_string. rewrite <- (parse_format_020 v U).
  apply strip_zeros_spec; [|apply format_020_digits]. intros E.
  by apply (f_equal length) in E; rewrite format_020_length in E.
Qed.

Lemma u64_from_to_string v : is_u64 v -> u64_from_str (u64_to_string v) = Some v.
Proof.
  intros U. destruct (u64_to_string_spec v U) as (N & F & P). unfold u64_from_str.
  assert (match u64_to_string v with x2b :: s' => s' | _ => u64_to_string v end = u64_to_string v) as ->.
  { destruct F as [|b s B F]; [done|]. destruct b; try done. by destruct B as [[] _]. }
  rewrite bool_decide_eq_false_2 by done. rewrite (proj2 (forallb_forall _ _)); [done|].
  intros b I. rewrite Forall_forall in F. specialize (F b I). cbv beta in F. unfold is_ascii_digit. lia.
Qed.

Lemma u64_from_str_range s v : u64_from_str s = Some v -> is_u64 v.
Proof.
  unfold u64_from_str. set (d := match s with x2b :: s' => s' | _ => s end). clearbody d.
  intros P. case_if_in P; [done|]. b2p. unfold parse_u64 in P. case_if_in P; [|done]. b2p. inv_bind.
  unfold is_u64. split; [|done]. apply from_digits_range; [lia|]. apply Forall_map, Forall_forall.
  intros b I. match goal with F : forallb _ _ = true |- _ => rewrite forallb_forall in F; specialize (F b I) end.
  unfold is_ascii_digit in *. b2p. lia.
Qed.
