(* ===== verification/Types.v ===== *)
(** * Typed identifiers and policy types (crates/rs3-types/src/lib.rs)

    Every identifier newtype of the crate is a string that is not blank; its
    constructor is the same validation with another name in the error.  Raw
    fixed-width identities are byte strings with their length in the
    well-formedness predicate of the record that holds them. *)

From Stdlib Require Import Strings.String.
From S2P Require Import Prelude Ord Text.
Open Scope Z_scope.

(** Authentication tag bytes, plaintext bytes per payload-pack segment. *)
Definition PAYLOAD_AEAD_TAG_LEN : Z := 16.
Definition PAYLOAD_PACK_SEGMENT_BYTES : Z := 64 * 1024.

Inductive TypeError : Type :=
| TypeError_Empty (kind : string).

Definition validate_non_empty (kind : string) (value : text) : result TypeError text :=
  if trim_is_empty value then Err (TypeError_Empty kind) else Ok value.

Definition PublicBucket_new : text -> result TypeError text := validate_non_empty "public bucket".
Definition LogicalPath_new : text -> result TypeError text := validate_non_empty "logical path".
Definition BlindIndexKey_new : text -> result TypeError text := validate_non_empty "blind index key".
Definition PrefixToken_new : text -> result TypeError text := validate_non_empty "prefix token".
Definition BackendObjectId_new : text -> result TypeError text := validate_non_empty "backend object id".
Definition BackendVersionId_new : text -> result TypeError text := validate_non_empty "backend version id".
Definition ManifestId_new : text -> result TypeError text := validate_non_empty "manifest id".
Definition RepositoryId_new : text -> result TypeError text := validate_non_empty "repository id".
Definition KeyId_new : text -> result TypeError text := validate_non_empty "key id".

(** Reference to a backend object, optionally bound to a provider version. *)
Record BackendObjectRef : Type := {
  ref_object_id : text;
  ref_version_id : option text
}.

Definition BackendObjectRef_latest (object_id : text) : BackendObjectRef :=
  {| ref_object_id := object_id; ref_version_id := None |}.

Definition BackendObjectRef_versioned (object_id version_id : text) : BackendObjectRef :=
  {| ref_object_id := object_id; ref_version_id := Some version_id |}.

Module Keys.
Inductive KeyPurpose : Type := Namespace | Content | Metadata | CheckpointSigning.

Inductive KeyStatus : Type := Primary | Enabled | Disabled | Retired.

(** The key can be used for read, verify or lookup. *)
Definition is_enabled_for_lookup (s : KeyStatus) : bool :=
  match s with
  | Primary | Enabled => true
  | _ => false
  end.

(** The key is primary for new writes. *)
Definition is_primary (s : KeyStatus) : bool :=
  match s with
  | Primary => true
  | _ => false
  end.

#[export] Instance KeyPurpose_eq_dec : EqDecision KeyPurpose.
Proof. solve_decision. Defined.
#[export] Instance KeyStatus_eq_dec : EqDecision KeyStatus.
Proof. solve_decision. Defined.
End Keys.

(** A [Sequence] is a [u64]; [checked_next] fails at the last one. *)
Definition Sequence_ZERO : Z := 0.
Definition Sequence_checked_next (s : Z) : option Z := checked_add s 1.

Inductive RetentionMode : Type := RetentionNone | Governance | Compliance.

Inductive LegalHoldStatus : Type := Off | On.

Record RetentionPolicy : Type := {
  mode : RetentionMode;
  retain_days : Z
}.

#[export] Instance RetentionMode_eq_dec : EqDecision RetentionMode.
Proof. solve_decision. Defined.
#[export] Instance LegalHoldStatus_eq_dec : EqDecision LegalHoldStatus.
Proof. solve_decision. Defined.
#[export] Instance RetentionPolicy_eq_dec : EqDecision RetentionPolicy.
Proof. solve_decision. Defined.

Definition wf_retention (r : RetentionPolicy) : Prop := is_u32 (retain_days r).

(** An identifier constructor accepts exactly the names. *)
Lemma validate_non_empty_ok kind s : wf_name s -> validate_non_empty kind s = Ok s.
Proof. intros W. unfold validate_non_empty. by rewrite (is_name_trim s W). Qed.

Lemma validate_non_empty_inv kind s s' :
  validate_non_empty kind s = Ok s' -> s' = s /\ trim_is_empty s = false.
Proof. unfold validate_non_empty. destruct (trim_is_empty s); intros; by inv_bind. Qed.
