(* ===== verification/Storage.v ===== *)
(** * Object storage (crates/rs3-storage/src/lib.rs, retention.rs)

    The data of the provider-neutral object-store contract, retention policy
    comparisons, and the contract itself as a type class: the operations that
    the commit store calls and, apart from them, what a faithful provider
    promises about them. *)

From Stdlib Require Import Strings.String.
From S2P Require Import Prelude Effects Text Types.
Open Scope Z_scope.

Record BlobMetadata : Type := {
  meta_object_id : text;
  content_len : Z;                   (* u64 *)
  modified_at_ms : option Z;         (* i64 *)
  etag : option text;
  meta_version_id : option text;
  meta_retention : option RetentionPolicy;
  retain_until_ms : option Z;        (* i64 *)
  meta_legal_hold : option LegalHoldStatus
}.

Inductive ByteRange : Type :=
| Full
| Slice (offset len : Z).            (* u64 *)

Record PutOptions : Type := {
  put_retention : option RetentionPolicy;
  put_legal_hold : option LegalHoldStatus;
  put_content_type : option text;
  do_not_recreate : bool
}.

Inductive StorageError : Type :=
| NotFound (object_id : text)
| AlreadyExists (object_id : text)
| InvalidRange
| Provider (reason : text)
| RetentionBlocked
| RetentionExtensionUnsupported
| VersionUnsupported
| MissingVersionId (object_id : text)
| LegalHoldBlocked
| LegalHoldUnsupported
| MultipartUnsupported
| PagedListingUnsupported
| BoundedReadUnsupported
| InvalidListPage
| BoundedReadExceeded (max_bytes : Z).

Inductive BlobListMode : Type := Current | Versions.

Record BlobListPage : Type := {
  entries : list BlobMetadata;
  consumed_items : Z;                (* usize *)
  is_complete : bool
}.

Abbreviation SR A := (result StorageError A).

#[export] Instance BlobMetadata_eq_dec : EqDecision BlobMetadata.
Proof. solve_decision. Defined.

Definition read_range (body : list byte) (range : ByteRange) : SR (list byte) :=
  match range with
  | Full => Ok body
  | Slice offset length =>
      end_ <-? ok_or (checked_add offset length) InvalidRange ;;
      reject_if ((offset >? len body) || (end_ >? len body)) InvalidRange ;;?
      Ok (firstn (Z.to_nat length) (skipn (Z.to_nat offset) body))
  end.

(** ** Retention policies (retention.rs) *)

Definition retention_is_active (policy : RetentionPolicy) : bool :=
  negb (bool_decide (mode policy = RetentionNone)) && (retain_days policy >? 0).

Definition active_retention (policy : option RetentionPolicy) : option RetentionPolicy :=
  match policy with
  | Some policy => if retention_is_active policy then Some policy else None
  | None => None
  end.

Definition retention_mode_strength (mode : RetentionMode) : Z :=
  match mode with
  | RetentionNone => 0
  | Governance => 1
  | Compliance => 2
  end.

Definition stronger_retention_mode (left right : RetentionMode) : RetentionMode :=
  if retention_mode_strength left >=? retention_mode_strength right then left else right.

Definition strongest_retention_policy (left right : option RetentionPolicy) : option RetentionPolicy :=
  match active_retention left, active_retention right with
  | Some l, Some r =>
      Some {| mode := stronger_retention_mode (mode l) (mode r);
              retain_days := Z.max (retain_days l) (retain_days r) |}
  | Some policy, None | None, Some policy => Some policy
  | None, None => None
  end.

Definition retention_satisfies (actual : option RetentionPolicy) (requested : RetentionPolicy) : bool :=
  match actual with
  | None => false
  | Some actual =>
      (retention_mode_strength (mode actual) >=? retention_mode_strength (mode requested))
      && (retain_days actual >=? retain_days requested)
  end.

(** ** The store contract *)

(** The operations of [BlobStore] that the commit store calls. *)
Class BlobStore (St : Type) : Type := {
  put : text -> list byte -> PutOptions -> IO St StorageError BlobMetadata;
  get_range_at : text -> option text -> ByteRange -> IO St StorageError (list byte);
  head : text -> IO St StorageError BlobMetadata;
  head_at : text -> option text -> IO St StorageError BlobMetadata
}.

(** What a faithful provider promises: an object version, once written, reads
    back as written until somebody deletes it, and other reads and writes
    leave it alone.  [stored] is the version that a read finds; [room] is the
    state in which a further write can be told apart from the earlier ones. *)
Class BlobStoreLaws (St : Type) `{BlobStore St} : Type := {
  store_ok : St -> Prop;
  room : St -> Prop;
  stored : St -> text -> option text -> option (list byte * BlobMetadata);
  get_stored : forall s id v range body meta,
    store_ok s -> stored s id v = Some (body, meta) -> (get_range_at id v range s).1 = read_range body range;
  head_at_stored : forall s id v body meta,
    store_ok s -> stored s id v = Some (body, meta) -> (head_at id v s).1 = Ok meta;
  stored_meta : forall s id v body meta,
    store_ok s -> stored s id v = Some (body, meta) ->
    meta_object_id meta = id /\ content_len meta = len body
    /\ (forall version, v = Some version -> meta_version_id meta = Some version)
    /\ forall version, meta_version_id meta = Some version -> wf_name version /\ len version <= usize_max;
  get_keeps : forall s id v range id' v',
    store_ok s ->
    stored (get_range_at id v range s).2 id' v' = stored s id' v' /\ store_ok (get_range_at id v range s).2
    /\ (room s -> room (get_range_at id v range s).2);
  head_keeps : forall s id id' v',
    store_ok s ->
    stored (head id s).2 id' v' = stored s id' v' /\ store_ok (head id s).2 /\ (room s -> room (head id s).2);
  head_at_keeps : forall s id v id' v',
    store_ok s ->
    stored (head_at id v s).2 id' v' = stored s id' v' /\ store_ok (head_at id v s).2
    /\ (room s -> room (head_at id v s).2);
  put_Ok : forall s id body options meta s',
    store_ok s -> room s -> put id body options s = (Ok meta, s') ->
    store_ok s' /\ stored s' id (meta_version_id meta) = Some (body, meta)
    /\ meta_retention meta = active_retention (put_retention options)
    /\ meta_legal_hold meta = put_legal_hold options
    /\ (do_not_recreate options = true -> stored s id None = None)
    /\ (forall id' v', v' <> None \/ id' <> id -> forall x, stored s id' v' = Some x -> stored s' id' v' = Some x);
  put_exists : forall s id body options id' s',
    store_ok s -> put id body options s = (Err (AlreadyExists id'), s') ->
    store_ok s' /\ (room s -> room s') /\ forall id v, stored s' id v = stored s id v
}.

(** ** Policy comparison is a join *)

Lemma strength_compare a b : 
  retention_mode_strength (stronger_retention_mode a b)
  = Z.max (retention_mode_strength a) (retention_mode_strength b).
Proof. by destruct a, b. Qed.

Lemma retention_satisfies_iff actual requested :
  retention_satisfies (Some actual) requested = true <->
  retention_mode_strength (mode requested) <= retention_mode_strength (mode actual)
  /\ retain_days requested <= retain_days actual.
Proof. unfold retention_satisfies. rewrite andb_true_iff, !Z.geb_le. done. Qed.

(** Merging retention requirements gives the weakest policy that meets all
    of them: the merge meets whatever the active sides ask for, any policy that
    meets both active sides meets the merge, and nothing is required when
    neither side is active. *)
Theorem strongest_retention_is_join left right :
  match strongest_retention_policy left right with
  | Some merged =>
      (forall policy, active_retention left = Some policy \/ active_retention right = Some policy ->
         retention_satisfies (Some merged) policy = true)
      /\ (forall actual, (forall policy, active_retention left = Some policy \/ active_retention right = Some policy ->
             retention_satisfies actual policy = true) -> retention_satisfies actual merged = true)
      /\ retention_is_active merged = true
  | None => active_retention left = None /\ active_retention right = None
  end.
Proof.
  assert (forall o p, active_retention o = Some p -> retention_is_active p = true) as Act.
  { intros [o|] p; simpl; [|done]. case_if; [|done]. by intros [= <-]. }
  unfold strongest_retention_policy.
  destruct (active_retention left) as [l|] eqn:L, (active_retention right) as [r|] eqn:R; [| | |done].
  - apply Act in L, R. split_and!.
    + intros policy P. apply retention_satisfies_iff. cbn [mode retain_days]. rewrite strength_compare.
      destruct P as [[= <-]|[= <-]]; lia.
    + intros [actual|] S; [|by discriminate (S l (or_introl eq_refl))].
      pose proof (proj1 (retention_satisfies_iff _ _) (S l (or_introl eq_refl))).
      pose proof (proj1 (retention_satisfies_iff _ _) (S r (or_intror eq_refl))).
      apply retention_satisfies_iff. cbn [mode retain_days]. rewrite strength_compare. lia.
    + unfold retention_is_active in *. cbn [mode retain_days]. b2p.
      apply andb_true_iff. split; [|rewrite Z.gtb_ltb; apply Z.ltb_lt; lia].
      apply negb_true_iff, bool_decide_eq_false_2. intros E.
      assert (retention_mode_strength (stronger_retention_mode (mode l) (mode r)) = 0) as Z by by rewrite E.
      rewrite strength_compare in Z. destruct (mode l), (mode r); simpl in Z; try lia; done.
  - split_and!; [| |by eapply Act]; [|by intros actual S; apply S; left].
    intros policy [[= <-]|[=]]. apply retention_satisfies_iff. lia.
  - split_and!; [| |by eapply Act]; [|by intros actual S; apply S; right].
    intros policy [[=]|[= <-]]. apply retention_satisfies_iff. lia.
Qed.
