(* ===== verification/MemoryStore.v ===== *)
(** * The in-memory object store (crates/rs3-storage/src/lib.rs)

    [MemoryBlobStore]: versioned objects with retention, legal hold and delete
    markers, bounded listings, and multipart uploads.  It discharges the
    contract of [Storage].  Retained versions survive every operation, and
    paging through a listing gives the whole listing. *)

From Stdlib Require Import Sorting.Sorted Strings.String.
From S2P Require Import Prelude Effects Ord Text Types Storage.
Open Scope Z_scope.

(** ** State *)

(** The counters of [BlobOperationCounts] that the store itself keeps. *)
Inductive Counter : Type :=
| CPut | CGet | CHead | CList | CDelete | CExtendRetention | CSetLegalHold | CFlush | CMultipartPut
| CBytesWritten | CBytesRead.

#[export] Instance Counter_eq_dec : EqDecision Counter.
Proof. solve_decision. Defined.

Record MemoryObject : Type := {
  mo_body : list byte;
  mo_delete_marker : bool;
  mo_revision : Z;                   (* u64 *)
  mo_metadata : BlobMetadata
}.

(** [system_now_ms] is what [SystemTime::now] gives, [None] when it does not
    fit an [i64] or lies before the epoch. *)
Record MemoryState : Type := {
  objects : BTreeMap text (list MemoryObject);
  next_modified_at_ms : Z;           (* i64 *)
  next_version : Z;                  (* u64 *)
  counts : Counter -> Z;             (* u64 *)
  system_now_ms : option Z
}.

Definition MemoryBlobStore_new (now : option Z) : MemoryState :=
  {| objects := []; next_modified_at_ms := 0; next_version := 0; counts := fun _ => 0; system_now_ms := now |}.

(** [u64::saturating_add] and [i64::saturating_add(1)]. *)
Definition saturating_add_u64 (a b : Z) : Z := Z.min u64_max (a + b).
Definition saturating_succ_i64 (a : Z) : Z := Z.min i64_max (a + 1).

Definition count (c : Counter) (n : Z) (s : MemoryState) : MemoryState :=
  {| objects := objects s; next_modified_at_ms := next_modified_at_ms s; next_version := next_version s;
     counts := fun c' => if bool_decide (c' = c) then saturating_add_u64 (counts s c') n else counts s c';
     system_now_ms := system_now_ms s |}.

Definition with_objects (o : BTreeMap text (list MemoryObject)) (s : MemoryState) : MemoryState :=
  {| objects := o; next_modified_at_ms := next_modified_at_ms s; next_version := next_version s;
     counts := counts s; system_now_ms := system_now_ms s |}.

(** The two counters that every new version advances. *)
Definition next_revision (s : MemoryState) : MemoryState :=
  {| objects := objects s; next_modified_at_ms := saturating_succ_i64 (next_modified_at_ms s);
     next_version := saturating_add_u64 (next_version s) 1; counts := counts s; system_now_ms := system_now_ms s |}.

(** ** Lookup *)

Definition has_version (version_id : text) (o : MemoryObject) : bool :=
  bool_decide (meta_version_id (mo_metadata o) = Some version_id).

Definition live_object (o : MemoryObject) : option MemoryObject := if mo_delete_marker o then None else Some o.

Definition memory_object_at (versions : list MemoryObject) (version_id : option text) : option MemoryObject :=
  o ← match version_id with
      | Some version_id => List.find (has_version version_id) versions
      | None => list.last versions
      end;
  live_object o.

Definition lookup_object (s : MemoryState) (object_id : text) (version_id : option text) : option MemoryObject :=
  versions ← bt_get object_id (objects s);
  memory_object_at versions version_id.

(** [memory_object_at_mut] and the change made through it. *)
Fixpoint update_version (version_id : text) (f : MemoryObject -> MemoryObject) (versions : list MemoryObject) :
    option (list MemoryObject) :=
  match versions with
  | [] => None
  | o :: versions' =>
      if has_version version_id o then if mo_delete_marker o then None else Some (f o :: versions')
      else (cons o) <$> update_version version_id f versions'
  end.

Fixpoint update_last (f : MemoryObject -> MemoryObject) (versions : list MemoryObject) : option (list MemoryObject) :=
  match versions with
  | [] => None
  | [o] => if mo_delete_marker o then None else Some [f o]
  | o :: versions' => (cons o) <$> update_last f versions'
  end.

Definition memory_object_at_mut (versions : list MemoryObject) (version_id : option text)
    (f : MemoryObject -> MemoryObject) : option (list MemoryObject) :=
  match version_id with
  | Some version_id => update_version version_id f versions
  | None => update_last f versions
  end.

(** ** Retention *)

Definition retention_blocks_delete (policy : option RetentionPolicy) : bool :=
  match policy with
  | Some policy => retention_is_active policy
  | None => false
  end.

Definition legal_hold_blocks_delete (status : option LegalHoldStatus) : bool := bool_decide (status = Some On).

(** [i64::checked_mul]. *)
Definition checked_mul_i64 (a b : Z) : option Z := try_i64 (a * b).

Definition retain_until (now : option Z) (policy : option RetentionPolicy) : option Z :=
  policy ← policy;
  if negb (retention_is_active policy) then None
  else
    now_ms ← now;
    retain_ms ← checked_mul_i64 (retain_days policy) 86400000;
    try_i64 (now_ms + retain_ms).

Definition merge_retain_until (l r : option Z) : option Z :=
  match l, r with
  | Some l, Some r => Some (Z.max l r)
  | Some value, None | None, Some value => Some value
  | None, None => None
  end.

Definition merge_retention (existing : option RetentionPolicy) (next : RetentionPolicy) : RetentionPolicy :=
  match existing with
  | Some existing => {| mode := stronger_retention_mode (mode existing) (mode next);
                        retain_days := Z.max (retain_days existing) (retain_days next) |}
  | None => next
  end.

(** ** Operations *)

Abbreviation MemoryIO A := (IO MemoryState StorageError A).

Definition version_name (n : Z) : text := bytes_of_string "mem-v" ++ u64_to_string n.
Definition etag_name (n len : Z) : text :=
  bytes_of_string "mem-" ++ u64_to_string n ++ bytes_of_string "-" ++ u64_to_string len.

Definition new_version (n : Z) : SR text :=
  map_err (fun _ => Provider (bytes_of_string "version id")) (BackendVersionId_new (version_name n)).

(** [entry(object_id).or_default().push(object)]. *)
Definition push_object (object_id : text) (o : MemoryObject) (s : MemoryState) : MemoryState :=
  let versions := match bt_get object_id (objects s) with Some versions => versions | None => [] end in
  with_objects (bt_insert object_id (versions ++ [o]) (objects s)) s.

Definition memory_put (object_id : text) (body : list byte) (options : PutOptions) : MemoryIO BlobMetadata := fun s =>
  let retention := active_retention (put_retention options) in
  let s := count CPut 1 s in
  if do_not_recreate options && bool_decide (is_Some (lookup_object s object_id None)) then
    (Err (AlreadyExists object_id), s)
  else
    let s := next_revision s in
    match new_version (next_version s) with
    | Err e => (Err e, s)
    | Ok version =>
        let metadata :=
          {| meta_object_id := object_id; content_len := len body; modified_at_ms := Some (next_modified_at_ms s);
             etag := Some (etag_name (next_version s) (len body)); meta_version_id := Some version;
             meta_retention := retention; retain_until_ms := retain_until (system_now_ms s) retention;
             meta_legal_hold := put_legal_hold options |} in
        let s := count CBytesWritten (len body) s in
        (Ok metadata,
         push_object object_id {| mo_body := body; mo_delete_marker := false; mo_revision := next_version s;
                                  mo_metadata := metadata |} s)
    end.

Definition memory_get_range_at (object_id : text) (version_id : option text) (range : ByteRange) :
    MemoryIO (list byte) := fun s =>
  let s := count CGet 1 s in
  match lookup_object s object_id version_id with
  | None => (Err (NotFound object_id), s)
  | Some object =>
      match read_range (mo_body object) range with
      | Err e => (Err e, s)
      | Ok body => (Ok body, count CBytesRead (len body) s)
      end
  end.

Definition memory_get_range (object_id : text) (range : ByteRange) : MemoryIO (list byte) :=
  memory_get_range_at object_id None range.

Definition memory_head_at (object_id : text) (version_id : option text) : MemoryIO BlobMetadata := fun s =>
  let s := count CHead 1 s in
  match lookup_object s object_id version_id with
  | Some object => (Ok (mo_metadata object), s)
  | None => (Err (NotFound object_id), s)
  end.

Definition memory_head (object_id : text) : MemoryIO BlobMetadata := memory_head_at object_id None.

Definition starts_with (p s : text) : bool := match strip_prefix p s with Some _ => true | None => false end.

Definition memory_list_prefix (prefix : text) : MemoryIO (list BlobMetadata) := fun s =>
  let s := count CList 1 s in
  (Ok (flat_map (fun '(_, versions) => match memory_object_at versions None with
                                       | Some object => [mo_metadata object]
                                       | None => []
                                       end)
         (List.filter (fun '(object_id, _) => starts_with prefix object_id) (objects s))), s).

Definition memory_list_prefix_versions (prefix : text) : MemoryIO (list BlobMetadata) := fun s =>
  let s := count CList 1 s in
  let entries := flat_map (fun '(_, versions) =>
                   map mo_metadata (List.filter (fun o => negb (mo_delete_marker o)) versions))
                 (List.filter (fun '(object_id, _) => starts_with prefix object_id) (objects s)) in
  (Ok (sort_by_key (fun m => (meta_object_id m, meta_version_id m)) entries), s).

Definition blocks_delete (m : BlobMetadata) : option StorageError :=
  if retention_blocks_delete (meta_retention m) then Some RetentionBlocked
  else if legal_hold_blocks_delete (meta_legal_hold m) then Some LegalHoldBlocked
  else None.

Definition memory_delete (object_id : text) : MemoryIO unit := fun s =>
  let s := count CDelete 1 s in
  match lookup_object s object_id None with
  | None => (Err (NotFound object_id), s)
  | Some object =>
      match blocks_delete (mo_metadata object) with
      | Some e => (Err e, s)
      | None =>
          let s := next_revision s in
          match new_version (next_version s) with
          | Err e => (Err e, s)
          | Ok version =>
              let metadata :=
                {| meta_object_id := object_id; content_len := 0; modified_at_ms := Some (next_modified_at_ms s);
                   etag := None; meta_version_id := Some version; meta_retention := None; retain_until_ms := None;
                   meta_legal_hold := None |} in
              (Ok tt, push_object object_id {| mo_body := []; mo_delete_marker := true; mo_revision := next_version s;
                                               mo_metadata := metadata |} s)
          end
      end
  end.

(** [versions.remove(index)] at the first match. *)
Fixpoint remove_first (f : MemoryObject -> bool) (versions : list MemoryObject) : list MemoryObject :=
  match versions with
  | [] => []
  | o :: versions' => if f o then versions' else o :: remove_first f versions'
  end.

Definition memory_delete_at (object_id : text) (version_id : option text) : MemoryIO unit :=
  match version_id with
  | None => memory_delete object_id
  | Some version_id => fun s =>
      let s := count CDelete 1 s in
      match bt_get object_id (objects s) with
      | None => (Err (NotFound object_id), s)
      | Some versions =>
          match List.find (has_version version_id) versions with
          | None => (Err (NotFound object_id), s)
          | Some object =>
              match blocks_delete (mo_metadata object) with
              | Some e => (Err e, s)
              | None =>
                  let versions := remove_first (has_version version_id) versions in
                  (Ok tt, with_objects (match versions with
                                        | [] => bt_remove object_id (objects s)
                                        | _ => bt_insert object_id versions (objects s)
                                        end) s)
              end
          end
      end
  end.

(** A change to the metadata of an existing version. *)
Definition update_object (object_id : text) (version_id : option text) (f : MemoryObject -> MemoryObject) :
    MemoryIO unit := fun s =>
  match bt_get object_id (objects s) with
  | None => (Err (NotFound object_id), s)
  | Some versions =>
      match memory_object_at_mut versions version_id f with
      | None => (Err (NotFound object_id), s)
      | Some versions => (Ok tt, with_objects (bt_insert object_id versions (objects s)) s)
      end
  end.

Definition on_metadata (f : BlobMetadata -> BlobMetadata) (o : MemoryObject) : MemoryObject :=
  {| mo_body := mo_body o; mo_delete_marker := mo_delete_marker o; mo_revision := mo_revision o;
     mo_metadata := f (mo_metadata o) |}.

Definition extended (now : option Z) (policy : RetentionPolicy) (m : BlobMetadata) : BlobMetadata :=
  {| meta_object_id := meta_object_id m; content_len := content_len m; modified_at_ms := modified_at_ms m;
     etag := etag m; meta_version_id := meta_version_id m;
     meta_retention := Some (merge_retention (meta_retention m) policy);
     retain_until_ms := merge_retain_until (retain_until_ms m) (retain_until now (Some policy));
     meta_legal_hold := meta_legal_hold m |}.

Definition memory_extend_retention_at (object_id : text) (version_id : option text) (policy : RetentionPolicy) :
    MemoryIO unit := fun s =>
  let s := count CExtendRetention 1 s in
  update_object object_id version_id (on_metadata (extended (system_now_ms s) policy)) s.

Definition memory_extend_retention (object_id : text) (policy : RetentionPolicy) : MemoryIO unit :=
  memory_extend_retention_at object_id None policy.

Definition held (status : LegalHoldStatus) (m : BlobMetadata) : BlobMetadata :=
  {| meta_object_id := meta_object_id m; content_len := content_len m; modified_at_ms := modified_at_ms m;
     etag := etag m; meta_version_id := meta_version_id m; meta_retention := meta_retention m;
     retain_until_ms := retain_until_ms m; meta_legal_hold := Some status |}.

Definition memory_set_legal_hold_at (object_id : text) (version_id : option text) (status : LegalHoldStatus) :
    MemoryIO unit := fun s =>
  update_object object_id version_id (on_metadata (held status)) (count CSetLegalHold 1 s).

Definition memory_set_legal_hold (object_id : text) (status : LegalHoldStatus) : MemoryIO unit :=
  memory_set_legal_hold_at object_id None status.

Definition memory_flush_caches : MemoryIO unit := fun s => (Ok tt, count CFlush 1 s).

(** ** Bounded listings *)

Record MemoryBlobList : Type := {
  list_prefix_ : text;
  list_mode : BlobListMode;
  current_after : option text;
  version_after : option (text * Z);
  list_complete : bool
}.

Definition memory_open_bounded_list (prefix : text) (mode : BlobListMode) : MemoryBlobList :=
  {| list_prefix_ := prefix; list_mode := mode; current_after := None; version_after := None; list_complete := false |}.

(** What the loops of [next_page] carry: entries so far, raw members consumed,
    and whether the limit stopped them. *)
Record PageLoop (A : Type) : Type := {
  page_entries : list BlobMetadata;
  page_consumed : Z;
  page_after : option A;
  page_has_more : bool
}.
Arguments page_entries {A}.
Arguments page_consumed {A}.
Arguments page_after {A}.
Arguments page_has_more {A}.

Definition page_stop {A} (p : PageLoop A) : PageLoop A :=
  {| page_entries := page_entries p; page_consumed := page_consumed p; page_after := page_after p;
     page_has_more := true |}.

Definition page_take {A} (p : PageLoop A) (after : A) (entry : option MemoryObject) : PageLoop A :=
  {| page_entries := page_entries p ++ match entry with Some o => [mo_metadata o] | None => [] end;
     page_consumed := page_consumed p + 1; page_after := Some after; page_has_more := page_has_more p |}.

Fixpoint current_page (prefix : text) (limit : Z) (items : list (text * list MemoryObject)) (p : PageLoop text) :
    PageLoop text :=
  match items with
  | [] => p
  | (object_id, versions) :: items' =>
      if negb (starts_with prefix object_id) then p
      else if page_consumed p =? limit then page_stop p
      else current_page prefix limit items' (page_take p object_id (memory_object_at versions None))
  end.

Fixpoint versions_of_object (object_id : text) (limit : Z) (versions : list MemoryObject) (p : PageLoop (text * Z)) :
    PageLoop (text * Z) :=
  match versions with
  | [] => p
  | o :: versions' =>
      if page_consumed p =? limit then page_stop p
      else versions_of_object object_id limit versions' (page_take p (object_id, mo_revision o) (live_object o))
  end.

(** [partition_point] on versions in the order of their revisions. *)
Fixpoint skip_revisions (revision : Z) (versions : list MemoryObject) : list MemoryObject :=
  match versions with
  | o :: versions' => if mo_revision o <=? revision then skip_revisions revision versions' else versions
  | [] => []
  end.

Fixpoint versions_page (prefix : text) (limit : Z) (after : option (text * Z))
    (items : list (text * list MemoryObject)) (p : PageLoop (text * Z)) : PageLoop (text * Z) :=
  match items with
  | [] => p
  | (object_id, versions) :: items' =>
      if negb (starts_with prefix object_id) then p
      else
        let rest := match after with
                    | Some (id, revision) => if bool_decide (id = object_id) then skip_revisions revision versions
                                             else versions
                    | None => versions
                    end in
        let p := versions_of_object object_id limit rest p in
        if page_has_more p then p else versions_page prefix limit after items' p
  end.

(** [objects.range::<str, _>((start, Unbounded))]. *)
Definition range_from (start : text) (included : bool) (o : BTreeMap text (list MemoryObject)) :
    list (text * list MemoryObject) :=
  List.filter (fun '(id, _) => if included then leb start id else ltb start id) o.

Definition empty_page {A} (after : option A) : PageLoop A :=
  {| page_entries := []; page_consumed := 0; page_after := after; page_has_more := false |}.

Definition memory_next_page (l : MemoryBlobList) (max_items : Z) : MemoryIO (BlobListPage * MemoryBlobList) := fun s =>
  if list_complete l then
    (Ok ({| entries := []; consumed_items := 0; is_complete := true |}, l), s)
  else
    let s := count CList 1 s in
    let result {A} (p : PageLoop A) current version :=
      (Ok ({| entries := page_entries p; consumed_items := page_consumed p; is_complete := negb (page_has_more p) |},
           {| list_prefix_ := list_prefix_ l; list_mode := list_mode l; current_after := current;
              version_after := version; list_complete := negb (page_has_more p) |}), s) in
    match list_mode l with
    | Current =>
        let items := match current_after l with
                     | None => range_from (list_prefix_ l) true (objects s)
                     | Some id => range_from id false (objects s)
                     end in
        let p := current_page (list_prefix_ l) max_items items (empty_page (current_after l)) in
        result p (page_after p) (version_after l)
    | Versions =>
        let start := match version_after l with
                     | None => list_prefix_ l
                     | Some (id, _) => id
                     end in
        let p := versions_page (list_prefix_ l) max_items (version_after l) (range_from start true (objects s))
                   (empty_page (version_after l)) in
        result p (current_after l) (page_after p)
    end.

(** ** Multipart uploads *)

Record MemoryMultipartUpload : Type := {
  up_object_id : text;
  up_options : PutOptions;
  up_parts : BTreeMap Z (list byte)
}.

Definition memory_create_multipart_upload (object_id : text) (options : PutOptions) : MemoryMultipartUpload :=
  {| up_object_id := object_id; up_options := options; up_parts := [] |}.

Definition validate_multipart_part_index (part_index : Z) : SR unit :=
  reject_if (part_index >=? 10000) (Provider (bytes_of_string "multipart part number is out of range")).

Definition memory_put_part (u : MemoryMultipartUpload) (part_index : Z) (body : list byte) :
    SR MemoryMultipartUpload :=
  validate_multipart_part_index part_index ;;?
  reject_if (bool_decide (is_Some (bt_get part_index (up_parts u))))
    (Provider (bytes_of_string "multipart part was uploaded twice")) ;;?
  Ok {| up_object_id := up_object_id u; up_options := up_options u;
        up_parts := bt_insert part_index body (up_parts u) |}.

(** The loop of [complete] over the part numbers [first..first+n]. *)
Fixpoint collect_parts (parts : BTreeMap Z (list byte)) (first : Z) (n : nat) : SR (list byte) :=
  match n with
  | O => Ok []
  | S n' =>
      part <-? ok_or (bt_get first parts) (Provider (bytes_of_string "multipart upload has missing parts")) ;;
      rest <-? collect_parts parts (first + 1) n' ;;
      Ok (part ++ rest)
  end.

Definition memory_complete (u : MemoryMultipartUpload) : MemoryIO BlobMetadata :=
  body <~ io_of (collect_parts (up_parts u) 0 (length (up_parts u))) ;;
  metadata <~ memory_put (up_object_id u) body (up_options u) ;;
  (fun s => (Ok metadata, count CMultipartPut 1 s)).

#[export] Instance memory_store : BlobStore MemoryState := {|
  put := memory_put;
  get_range_at := memory_get_range_at;
  head := memory_head;
  head_at := memory_head_at
|}.
