(* ===== verification/MemoryFacts.v ===== *)
(** * Facts about the in-memory store

    The invariant of its state, the contract of [Storage] discharged for it,
    retained versions under arbitrary operations, and bounded listings. *)

From Stdlib Require Import Sorting.Sorted Strings.String.
From S2P Require Import Prelude Effects Ord Text Types Storage MemoryStore.
Open Scope Z_scope.

(** ** The invariant *)

Definition object_ok (id : text) (n : Z) (o : MemoryObject) : Prop :=
  meta_object_id (mo_metadata o) = id /\ content_len (mo_metadata o) = len (mo_body o)
  /\ meta_version_id (mo_metadata o) = Some (version_name (mo_revision o)) /\ 0 < mo_revision o <= n.

Definition older (a b : MemoryObject) : Prop := mo_revision a < mo_revision b.

Definition versions_ok (id : text) (n : Z) (l : list MemoryObject) : Prop :=
  Forall (object_ok id n) l /\ StronglySorted older l.

Definition memory_ok (s : MemoryState) : Prop :=
  bt_wf (objects s) /\ 0 <= next_version s <= u64_max
  /\ forall id l, bt_get id (objects s) = Some l -> versions_ok id (next_version s) l.

Lemma version_name_inj a b : is_u64 a -> is_u64 b -> version_name a = version_name b -> a = b.
Proof.
  intros A B E. apply app_inv_head in E. pose proof (u64_from_to_string a A) as X.
  rewrite E, u64_from_to_string in X by done. by injection X.
Qed.

Lemma versions_ok_mono id n m l : n <= m -> versions_ok id n l -> versions_ok id m l.
Proof.
  intros L [F S]. split; [|done]. eapply List.Forall_impl; [|exact F]. unfold object_ok. intros o (? & ? & ? & ?).
  split_and!; try done; lia.
Qed.

Lemma StronglySorted_snoc_older l o : StronglySorted older (l ++ [o]) <-> StronglySorted older l /\ Forall (fun x => older x o) l.
Proof.
  induction l as [|b l IH]; simpl.
  { split; [intros _; split; by constructor|intros _; by repeat constructor]. }
  rewrite Forall_cons_iff. split.
  - intros S. apply StronglySorted_inv in S as [S F]. apply IH in S as [S1 S2].
    apply Forall_app in F as [F1 F2]. apply Forall_cons_iff in F2 as [R _]. split; [by constructor|done].
  - intros [S [R F]]. apply StronglySorted_inv in S as [S Fb]. constructor; [by apply IH|].
    apply Forall_app. split; [done|by repeat constructor].
Qed.

Lemma memory_new_ok now : memory_ok (MemoryBlobStore_new now).
Proof. split; [apply bt_wf_nil|]. split; [simpl; lia|]. done. Qed.

Lemma count_ok c n s : memory_ok s -> memory_ok (count c n s).
Proof. done. Qed.

(** A name for a new version always exists. *)
Lemma new_version_ok n : new_version n = Ok (version_name n).
Proof.
  unfold new_version, BackendVersionId_new, validate_non_empty.
  change (version_name n) with (x6d :: bytes_of_string "em-v" ++ u64_to_string n).
  by rewrite trim_is_empty_ascii.
Qed.

(** Appending the next version of an object. *)
Lemma push_ok s id o :
  memory_ok s -> next_version s < u64_max ->
  object_ok id (next_version (next_revision s)) o -> mo_revision o = next_version (next_revision s) ->
  memory_ok (push_object id o (next_revision s)).
Proof.
  intros (W & N & V) R O E. assert (next_version (next_revision s) = next_version s + 1) as Nx.
  { unfold next_revision, saturating_add_u64. cbn [next_version]. lia. }
  split; [by apply bt_wf_insert|]. split; [cbn [push_object with_objects next_version]; lia|].
  intros id' l. cbn [push_object with_objects objects next_version].
  destruct (decide (id' = id)) as [->|Ne]; [|rewrite bt_get_insert_ne by done; intros G; apply V in G].
  2:{ eapply versions_ok_mono; [|exact G]. lia. }
  rewrite bt_get_insert_eq. intros [= <-]. change (objects (next_revision s)) with (objects s).
  destruct (bt_get id (objects s)) as [l|] eqn:G.
  - apply V in G as [F S]. split.
    + apply Forall_app. split; [|by apply list.Forall_singleton].
      eapply List.Forall_impl; [|exact F]. unfold object_ok. intros x (? & ? & ? & ?). split_and!; try done; lia.
    + apply StronglySorted_snoc_older. split; [done|]. eapply List.Forall_impl; [|exact F].
      unfold object_ok, older. intros x (? & ? & ? & ?). lia.
  - split; [by apply list.Forall_singleton|by repeat constructor].
Qed.

Lemma find_app {A} (f : A -> bool) l1 l2 :
  List.find f (l1 ++ l2) = match List.find f l1 with Some a => Some a | None => List.find f l2 end.
Proof. induction l1 as [|a l1 IH]; simpl; [done|]. by destruct (f a). Qed.

(** The name of the next version is new. *)
Lemma next_name_fresh id n l :
  versions_ok id n l -> 0 <= n < u64_max -> List.find (has_version (version_name (n + 1))) l = None.
Proof.
  intros [F _] N. induction F as [|o l (_ & _ & E & R) F IH]; simpl; [done|]. rewrite IH.
  unfold has_version. rewrite E, bool_decide_eq_false_2; [done|]. intros X.
  assert (version_name (mo_revision o) = version_name (n + 1)) as Y by congruence.
  apply version_name_inj in Y; unfold is_u64; lia.
Qed.

(** ** The store contract *)

Definition memory_stored (s : MemoryState) (id : text) (v : option text) : option (list byte * BlobMetadata) :=
  o ← lookup_object s id v; Some (mo_body o, mo_metadata o).

Lemma memory_object_at_in l v o : memory_object_at l v = Some o -> In o l /\ mo_delete_marker o = false
  /\ forall version, v = Some version -> meta_version_id (mo_metadata o) = Some version.
Proof.
  unfold memory_object_at, live_object. destruct v as [version|]; intros E.
  - destruct (List.find _ l) as [x|] eqn:F; [|done]. simpl in E. case_if_in E; [done|]. injection E as ->.
    apply find_some in F as [I V]. split_and!; try done. intros version' [= <-]. unfold has_version in V. by b2p.
  - destruct (list.last l) as [x|] eqn:L; [|done]. simpl in E. case_if_in E; [done|]. injection E as ->.
    apply last_Some_elem_of, list_elem_of_In in L. done.
Qed.

(** Decimal digits are few and printable. *)
Lemma version_name_ok n : is_u64 n -> wf_name (version_name n) /\ len (version_name n) <= usize_max.
Proof.
  intros U. destruct (u64_to_string_spec n U) as (_ & F & _).
  assert (len (u64_to_string n) <= 20) as L.
  { change 20 with (len (format_020 n)). unfold u64_to_string. generalize (format_020 n). intros l.
    induction l as [|b l IH]; [done|]. cbn [strip_zeros]. repeat case_match; rewrite ?len_cons in *; lia. }
  change (version_name n) with (x6d :: bytes_of_string "em-v" ++ u64_to_string n). split.
  - apply ascii_name; [by vm_compute|]. apply Forall_app. split; [by repeat constructor|].
    eapply List.Forall_impl; [|exact F]. cbv beta. lia.
  - rewrite len_cons, len_app. change (len (bytes_of_string "em-v")) with 4. lia.
Qed.

Lemma memory_stored_meta s id v body meta :
  memory_ok s -> memory_stored s id v = Some (body, meta) ->
  meta_object_id meta = id /\ content_len meta = len body
  /\ (forall version, v = Some version -> meta_version_id meta = Some version)
  /\ forall version, meta_version_id meta = Some version -> wf_name version /\ len version <= usize_max.
Proof.
  intros (_ & N & V). unfold memory_stored, lookup_object. destruct (bt_get id (objects s)) as [l|] eqn:G; [|done].
  simpl. destruct (memory_object_at l v) as [o|] eqn:O; [|done]. intros [= <- <-].
  apply memory_object_at_in in O as (I & _ & Ev). apply V in G as [F _].
  rewrite List.Forall_forall in F. destruct (F o I) as (? & ? & Em & R). split_and!; try done.
  intros version. rewrite Em. intros [= <-]. apply version_name_ok. unfold is_u64. lia.
Qed.

Lemma lookup_push s id o id' v' :
  bt_wf (objects s) -> v' <> None \/ id' <> id ->
  forall x, lookup_object s id' v' = Some x -> lookup_object (push_object id o s) id' v' = Some x.
Proof.
  intros W C x. unfold lookup_object, push_object, with_objects. cbn [objects].
  destruct (decide (id' = id)) as [->|Ne]; [|by rewrite bt_get_insert_ne].
  rewrite bt_get_insert_eq. destruct (bt_get id (objects s)) as [l|]; [|done]. simpl.
  unfold memory_object_at. destruct C as [C|C]; [|done]. destruct v' as [v'|]; [|done].
  rewrite find_app. by destruct (List.find _ l).
Qed.

Lemma memory_put_Ok s id body options meta s' :
  memory_ok s -> next_version s < u64_max -> memory_put id body options s = (Ok meta, s') ->
  memory_ok s' /\ memory_stored s' id (meta_version_id meta) = Some (body, meta)
  /\ meta_retention meta = active_retention (put_retention options)
  /\ meta_legal_hold meta = put_legal_hold options
  /\ (do_not_recreate options = true -> memory_stored s id None = None)
  /\ forall id' v', v' <> None \/ id' <> id -> forall x, memory_stored s id' v' = Some x -> memory_stored s' id' v' = Some x.
Proof.
  intros K R. unfold memory_put. destruct (_ && _) eqn:B; [done|]. rewrite new_version_ok. intros [= <- <-].
  set (s1 := next_revision _). set (o := {| mo_body := body |}). cbn [meta_version_id meta_retention meta_legal_hold].
  assert (next_version s1 = next_version s + 1) as Nx.
  { unfold s1, next_revision, saturating_add_u64, count. cbn [next_version]. destruct K as (_ & N & _). lia. }
  assert (memory_ok (push_object id o (next_revision (count CPut 1 s)))) as K'.
  { apply push_ok; [done..| |done]. unfold object_ok, o. cbn [mo_metadata meta_object_id content_len mo_body meta_version_id mo_revision].
    fold s1. destruct K as (_ & N & _). split_and!; try done; change (saturating_add_u64 (next_version s) 1) with (next_version s1); lia. }
  split_and!; try done.
  - unfold memory_stored, lookup_object, push_object, with_objects. cbn [objects]. rewrite bt_get_insert_eq. simpl.
    unfold memory_object_at. rewrite find_app. cbn [count objects s1 next_revision].
    assert (List.find (has_version (version_name (next_version s1)))
      match bt_get id (objects s) with Some versions => versions | None => [] end = None) as F.
    { destruct K as (_ & N & V). rewrite Nx. destruct (bt_get id (objects s)) as [l|] eqn:G; [|done].
      eapply next_name_fresh; [by apply V|lia]. }
    change (version_name (next_version s1)) with (version_name (saturating_add_u64 (next_version s) 1)) in F.
    rewrite F. cbn [List.find]. unfold has_version. cbn [mo_metadata o meta_version_id].
    by rewrite bool_decide_eq_true_2.
  - intros D. rewrite D in B. cbn [andb] in B. b2p. unfold memory_stored.
    destruct (lookup_object s id None) as [x|] eqn:L; [|done]. exfalso. apply B.
    change (lookup_object (count CPut 1 s) id None) with (lookup_object s id None). by rewrite L.
  - intros id' v' C x. unfold memory_stored. destruct (lookup_object s id' v') as [y|] eqn:L; [|done]. simpl. intros [= <-].
    erewrite lookup_push; [done| |done|]; [apply K|]. exact L.
Qed.

#[export] Program Instance memory_store_laws : BlobStoreLaws MemoryState := {|
  store_ok := memory_ok;
  room s := next_version s < u64_max;
  stored := memory_stored
|}.
Next Obligation.
  intros s id v range body meta _ E. cbn [get_range_at memory_store]. unfold memory_get_range_at, memory_stored in *.
  change (lookup_object (count CGet 1 s) id v) with (lookup_object s id v).
  destruct (lookup_object s id v) as [o|]; [|done]. simpl in E. injection E as <- <-.
  by destruct (read_range _ range).
Qed.
Next Obligation.
  intros s id v body meta _ E. cbn [head_at memory_store]. unfold memory_head_at, memory_stored in *.
  change (lookup_object (count CHead 1 s) id v) with (lookup_object s id v).
  destruct (lookup_object s id v) as [o|]; [|done]. simpl in E. by injection E as <- <-.
Qed.
Next Obligation. intros. by eapply memory_stored_meta. Qed.
Next Obligation.
  intros s id v range id' v' K. cbn [get_range_at memory_store]. unfold memory_get_range_at.
  destruct (lookup_object _ id v) as [o|]; [|done]. by destruct (read_range _ _).
Qed.
Next Obligation.
  intros s id id' v' K. cbn [head memory_store]. unfold memory_head, memory_head_at. by destruct (lookup_object _ id None).
Qed.
Next Obligation.
  intros s id v id' v' K. cbn [head_at memory_store]. unfold memory_head_at. by destruct (lookup_object _ id v).
Qed.
Next Obligation. intros s id body options meta s' K R E. by eapply memory_put_Ok. Qed.
Next Obligation.
  intros s id body options id' s' K E. cbn [put memory_store] in E. unfold memory_put in E.
  destruct (_ && _); [by injection E as <- <-|]. by rewrite new_version_ok in E.
Qed.

(** ** Retained versions under arbitrary operations *)

Inductive MemoryOp : Type :=
| OpPut (object_id : text) (body : list byte) (options : PutOptions)
| OpGet (object_id : text) (version_id : option text) (range : ByteRange)
| OpHead (object_id : text) (version_id : option text)
| OpList (prefix : text)
| OpListVersions (prefix : text)
| OpNextPage (l : MemoryBlobList) (max_items : Z)
| OpDelete (object_id : text) (version_id : option text)
| OpExtendRetention (object_id : text) (version_id : option text) (policy : RetentionPolicy)
| OpSetLegalHold (object_id : text) (version_id : option text) (status : LegalHoldStatus)
| OpComplete (upload : MemoryMultipartUpload)
| OpFlush.

Definition run_op (s : MemoryState) (op : MemoryOp) : MemoryState :=
  match op with
  | OpPut object_id body options => (memory_put object_id body options s).2
  | OpGet object_id version_id range => (memory_get_range_at object_id version_id range s).2
  | OpHead object_id version_id => (memory_head_at object_id version_id s).2
  | OpList prefix => (memory_list_prefix prefix s).2
  | OpListVersions prefix => (memory_list_prefix_versions prefix s).2
  | OpNextPage l max_items => (memory_next_page l max_items s).2
  | OpDelete object_id version_id => (memory_delete_at object_id version_id s).2
  | OpExtendRetention object_id version_id policy => (memory_extend_retention_at object_id version_id policy s).2
  | OpSetLegalHold object_id version_id status => (memory_set_legal_hold_at object_id version_id status s).2
  | OpComplete upload => (memory_complete upload s).2
  | OpFlush => (memory_flush_caches s).2
  end.

Definition find_version (s : MemoryState) (id v : text) : option MemoryObject :=
  bt_get id (objects s) ≫= List.find (has_version v).

(** The same content under at least the same protection. *)
Definition protects (o o' : MemoryObject) : Prop :=
  mo_body o' = mo_body o /\ mo_delete_marker o' = mo_delete_marker o
  /\ (forall r, meta_retention (mo_metadata o) = Some r -> retention_satisfies (meta_retention (mo_metadata o')) r = true)
  /\ (forall t, retain_until_ms (mo_metadata o) = Some t ->
      exists t', retain_until_ms (mo_metadata o') = Some t' /\ t <= t').

#[export] Instance protects_preorder : PreOrder protects.
Proof.
  split.
  - intros o. split_and!; try done; [|by intros t ->; exists t]. intros r ->. apply retention_satisfies_iff. lia.
  - intros a b c (B1 & M1 & R1 & T1) (B2 & M2 & R2 & T2). split_and!; try congruence.
    + intros r E. specialize (R1 r E). destruct (meta_retention (mo_metadata b)) as [rb|]; [|done].
      specialize (R2 rb eq_refl). destruct (meta_retention (mo_metadata c)) as [rc|]; [|done].
      apply retention_satisfies_iff in R1, R2. apply retention_satisfies_iff. lia.
    + intros t E. destruct (T1 t E) as (t1 & E1 & L1). destruct (T2 t1 E1) as (t2 & E2 & L2). exists t2. split; [done|lia].
Qed.

Definition is_retained (o : MemoryObject) : bool := retention_blocks_delete (meta_retention (mo_metadata o)).

Lemma protects_retained o o' : protects o o' -> is_retained o = true -> is_retained o' = true.
Proof.
  intros (_ & _ & R & _). unfold is_retained, retention_blocks_delete.
  destruct (meta_retention (mo_metadata o)) as [r|]; [|done]. specialize (R r eq_refl).
  destruct (meta_retention (mo_metadata o')) as [r'|]; [|done]. apply retention_satisfies_iff in R as [S D].
  unfold retention_is_active. intros A. b2p. apply andb_true_iff. split; [|rewrite Z.gtb_ltb; apply Z.ltb_lt; lia].
  apply negb_true_iff, bool_decide_eq_false_2. intros E. rewrite E in S. destruct (mode r); simpl in S; try lia; done.
Qed.

(** Metadata changes that keep versions apart and never weaken. *)
Definition strengthens (f : BlobMetadata -> BlobMetadata) : Prop :=
  forall o, protects o (on_metadata f o) /\ meta_version_id (f (mo_metadata o)) = meta_version_id (mo_metadata o).

Lemma extended_strengthens now policy : strengthens (extended now policy).
Proof.
  intros o. split; [|done]. split_and!; try done; cbn [on_metadata mo_metadata extended meta_retention retain_until_ms].
  - intros r ->. apply retention_satisfies_iff. cbn [merge_retention mode retain_days]. rewrite strength_compare. lia.
  - intros t ->. destruct (retain_until now (Some policy)); cbn [merge_retain_until]; eexists; (split; [done|lia]).
Qed.

Lemma held_strengthens status : strengthens (held status).
Proof.
  intros o. split; [|done]. split_and!; try done; cbn [on_metadata mo_metadata held meta_retention retain_until_ms].
  - intros r ->. apply retention_satisfies_iff. lia.
  - intros t ->. by exists t.
Qed.

Lemma find_updated f v l v' l' o :
  strengthens f -> memory_object_at_mut l v' (on_metadata f) = Some l' -> List.find (has_version v) l = Some o ->
  exists o', List.find (has_version v) l' = Some o' /\ protects o o'.
Proof.
  intros St U F. assert (forall x, has_version v (on_metadata f x) = has_version v x) as Hv.
  { intros x. unfold has_version. cbn [on_metadata mo_metadata]. by rewrite (proj2 (St x)). }
  unfold memory_object_at_mut in U. revert l' U F. induction l as [|x l IH]; intros l' U F; [by destruct v'|].
  assert (forall l1, l1 = l -> exists o', List.find (has_version v) (on_metadata f x :: l1) = Some o' /\ protects o o') as Hd.
  { intros l1 ->. cbn [List.find] in *. rewrite Hv. destruct (has_version v x); [|by exists o].
    injection F as ->. eexists. split; [done|]. apply St. }
  assert (forall l1, (List.find (has_version v) l = Some o -> exists o', List.find (has_version v) l1 = Some o' /\ protects o o') ->
    exists o', List.find (has_version v) (x :: l1) = Some o' /\ protects o o') as Tl.
  { intros l1 Hl. cbn [List.find] in *. destruct (has_version v x); [|by apply Hl]. injection F as ->. by exists o. }
  destruct v' as [w|].
  - cbn [update_version] in U. destruct (has_version w x); [destruct (mo_delete_marker x); [done|]; injection U as <-; by apply Hd|].
    destruct (update_version w _ l) as [l1|] eqn:U1; [|done]. injection U as <-. apply Tl. by apply IH.
  - destruct l as [|y l]; [cbn [update_last] in U; destruct (mo_delete_marker x); [done|]; injection U as <-; by apply Hd|].
    change (update_last (on_metadata f) (x :: y :: l)) with (cons x <$> update_last (on_metadata f) (y :: l)) in U.
    destruct (update_last _ (y :: l)) as [l1|] eqn:U1; [|done]. injection U as <-. apply Tl. by apply IH.
Qed.

Lemma find_remove_first (f g : MemoryObject -> bool) l :
  (forall x, f x = true -> g x = false) -> List.find g (remove_first f l) = List.find g l.
Proof.
  intros D. induction l as [|x l IH]; simpl; [done|]. destruct (f x) eqn:F; simpl; [by rewrite (D x F)|]. by rewrite IH.
Qed.

Lemma find_version_push s id v id' o x :
  find_version s id v = Some o -> find_version (push_object id' x s) id v = Some o.
Proof.
  unfold find_version, push_object, with_objects. cbn [objects]. destruct (decide (id = id')) as [->|Ne].
  - rewrite bt_get_insert_eq. destruct (bt_get id' (objects s)) as [l|]; [|done]. simpl. rewrite find_app. by intros ->.
  - by rewrite bt_get_insert_ne.
Qed.

Lemma find_version_put s id body options i v o :
  find_version s i v = Some o -> find_version (memory_put id body options s).2 i v = Some o.
Proof.
  intros F. unfold memory_put. destruct (_ && _); [done|]. rewrite new_version_ok. by apply find_version_push.
Qed.

Lemma find_version_update s id version f i v o :
  strengthens f -> find_version s i v = Some o ->
  exists o', find_version (update_object id version (on_metadata f) s).2 i v = Some o' /\ protects o o'.
Proof.
  intros St F. unfold update_object. destruct (bt_get id (objects s)) as [l|] eqn:G; [|by exists o].
  destruct (memory_object_at_mut l version _) as [l'|] eqn:U; [|by exists o].
  unfold find_version in *. cbn [snd with_objects objects]. destruct (decide (i = id)) as [->|Ne].
  - rewrite G in F. rewrite bt_get_insert_eq. by eapply find_updated.
  - rewrite bt_get_insert_ne by done. by exists o.
Qed.

Lemma find_version_delete s id version i v o :
  bt_wf (objects s) -> find_version s i v = Some o -> is_retained o = true ->
  find_version (memory_delete_at id version s).2 i v = Some o.
Proof.
  intros W F R. destruct version as [w|]; cbn [memory_delete_at].
  2:{ unfold memory_delete. destruct (lookup_object _ id None) as [x|]; [|done]. destruct (blocks_delete _); [done|].
      rewrite new_version_ok. by apply find_version_push. }
  change (objects (count CDelete 1 s)) with (objects s). destruct (bt_get id (objects s)) as [l|] eqn:G; [|done].
  destruct (List.find (has_version w) l) as [x|] eqn:Fx; [|done]. destruct (blocks_delete _) eqn:B; [done|].
  unfold find_version in *. cbn [snd with_objects objects].
  destruct (decide (i = id)) as [->|Ne].
  2:{ destruct (remove_first _ l); [by rewrite bt_get_remove_ne|by rewrite bt_get_insert_ne]. }
  rewrite G in F. simpl in F. destruct (decide (w = v)) as [->|Nv].
  { rewrite F in Fx. injection Fx as <-. unfold blocks_delete in B. unfold is_retained in R. by rewrite R in B. }
  assert (List.find (has_version v) (remove_first (has_version w) l) = Some o) as F'.
  { rewrite find_remove_first; [done|]. unfold has_version. intros y Y. b2p. rewrite Y. apply bool_decide_eq_false_2. congruence. }
  destruct (remove_first _ l) eqn:E; [done|]. by rewrite bt_get_insert_eq.
Qed.

Lemma run_op_wf s op : bt_wf (objects s) -> bt_wf (objects (run_op s op)).
Proof.
  intros W. destruct op; cbn [run_op]; try done.
  - unfold memory_put. destruct (_ && _); [done|]. rewrite new_version_ok. by apply bt_wf_insert.
  - unfold memory_get_range_at. destruct (lookup_object _ _ _); [|done]. by destruct (read_range _ _).
  - unfold memory_head_at. by destruct (lookup_object _ _ _).
  - unfold memory_next_page. destruct (list_complete l); [done|]. by destruct (list_mode l).
  - destruct version_id as [w|]; cbn [memory_delete_at].
    + destruct (bt_get _ _) as [l|]; [|done]. destruct (List.find _ l); [|done]. destruct (blocks_delete _); [done|].
      simpl. destruct (remove_first _ l); auto with btree.
    + unfold memory_delete. destruct (lookup_object _ _ _); [|done]. destruct (blocks_delete _); [done|].
      rewrite new_version_ok. by apply bt_wf_insert.
  - unfold memory_extend_retention_at, update_object. destruct (bt_get _ _); [|done].
    destruct (memory_object_at_mut _ _ _); [|done]. by apply bt_wf_insert.
  - unfold memory_set_legal_hold_at, update_object. destruct (bt_get _ _); [|done].
    destruct (memory_object_at_mut _ _ _); [|done]. by apply bt_wf_insert.
  - unfold memory_complete, io_bind, io_of. destruct (collect_parts _ _ _); [|done].
    unfold memory_put. destruct (_ && _); [done|]. rewrite new_version_ok. by apply bt_wf_insert.
Qed.

Lemma run_op_protects s op id v o :
  bt_wf (objects s) -> find_version s id v = Some o -> is_retained o = true ->
  exists o', find_version (run_op s op) id v = Some o' /\ protects o o'.
Proof.
  intros W F R. assert (forall s', find_version s' id v = Some o -> exists o', find_version s' id v = Some o' /\ protects o o')
    as Same by (intros s' E; by exists o). destruct op; cbn [run_op].
  - apply Same. by apply find_version_put.
  - apply Same. unfold memory_get_range_at. destruct (lookup_object _ _ _); [|done]. by destruct (read_range _ _).
  - apply Same. unfold memory_head_at. by destruct (lookup_object _ _ _).
  - by apply Same.
  - by apply Same.
  - apply Same. unfold memory_next_page. destruct (list_complete l); [done|]. by destruct (list_mode l).
  - apply Same. by apply find_version_delete.
  - by apply find_version_update; [apply extended_strengthens|].
  - by apply find_version_update; [apply held_strengthens|].
  - apply Same. unfold memory_complete, io_bind, io_of. destruct (collect_parts _ _ _) as [body|]; [|done].
    pose proof (find_version_put s (up_object_id upload) body (up_options upload) id v o F) as P.
    by destruct (memory_put _ body _ s) as [[]].
  - by apply Same.
Qed.

(** C13: A retained version outlives every sequence of operations on the store:
    whatever is put, deleted, extended, held or listed, a version under active
    retention keeps its content, is never hidden behind a delete marker of its
    own, and its protection never weakens, neither in mode nor in days nor in
    its absolute date. *)
Theorem retained_versions_survive ops s id v o :
  bt_wf (objects s) -> find_version s id v = Some o -> is_retained o = true ->
  exists o', find_version (fold_left run_op ops s) id v = Some o' /\ protects o o'.
Proof.
  revert s o. induction ops as [|op ops IH]; intros s o W F R; cbn [fold_left]; [by exists o|].
  destruct (run_op_protects s op id v o W F R) as (o1 & F1 & P1).
  destruct (IH (run_op s op) o1) as (o2 & F2 & P2); [by apply run_op_wf|done|by eapply protects_retained|].
  exists o2. split; [done|]. by etrans.
Qed.

(** ** Every operation keeps the state well formed *)

Lemma versions_ok_replace id n l l' f w :
  (forall x, object_ok id n x -> object_ok id n (on_metadata f x)) ->
  memory_object_at_mut l w (on_metadata f) = Some l' -> versions_ok id n l -> versions_ok id n l'.
Proof.
  intros P U [F S]. enough (Forall2 (fun x y => y = x \/ y = on_metadata f x) l l') as R.
  { clear U. split.
    - induction R as [|x y l l' E R IH]; [done|]. apply Forall_cons_iff in F as [Fx F]. apply StronglySorted_inv in S as [S _].
      constructor; [destruct E as [->| ->]; auto|by apply IH].
    - clear F P. induction R as [|x y l l' E R IH]; [done|]. apply StronglySorted_inv in S as [S F]. constructor; [by apply IH|].
      clear IH S. induction R as [|x1 y1 l l' E1 R IH]; [done|]. apply Forall_cons_iff in F as [Fx F].
      constructor; [|by apply IH]. unfold older in *. by destruct E as [->| ->], E1 as [->| ->]. }
  clear P F S. assert (forall m, Forall2 (fun x y => y = x \/ y = on_metadata f x) m m) as Id
    by (induction m; constructor; auto).
  revert l' U. unfold memory_object_at_mut. induction l as [|x l IH]; intros l' U; [by destruct w|]. destruct w as [w|].
  - cbn [update_version] in U. destruct (has_version w x); [destruct (mo_delete_marker x); [done|]; injection U as <-; constructor; auto|].
    destruct (update_version w _ l) as [l1|]; [|done]. injection U as <-. constructor; auto.
  - destruct l as [|y l]; [cbn [update_last] in U; destruct (mo_delete_marker x); [done|]; injection U as <-; constructor; auto|].
    change (update_last (on_metadata f) (x :: y :: l)) with (cons x <$> update_last (on_metadata f) (y :: l)) in U.
    destruct (update_last _ (y :: l)) as [l1|]; [|done]. injection U as <-. constructor; auto.
Qed.

Lemma versions_ok_remove id n l f : versions_ok id n l -> versions_ok id n (remove_first f l).
Proof.
  intros [F S]. enough (Forall (object_ok id n) (remove_first f l) /\ StronglySorted older (remove_first f l)
    /\ forall P : MemoryObject -> Prop, Forall P l -> Forall P (remove_first f l)) as (A & B & _) by by split.
  induction l as [|x l IH]; [done|]. apply Forall_cons_iff in F as [Fx F]. apply StronglySorted_inv in S as [S Fo].
  destruct (IH F S) as (A & B & C). cbn [remove_first]. destruct (f x).
  - split_and!; try done. intros P G. by apply Forall_cons_iff in G as [_ G].
  - split_and!; [by constructor|constructor; auto|]. intros P G. apply Forall_cons_iff in G as [Gx G]. constructor; auto.
Qed.

(** A store whose entry for one object is replaced. *)
Lemma replace_ok s id l :
  memory_ok s -> versions_ok id (next_version s) l -> memory_ok (with_objects (bt_insert id l (objects s)) s).
Proof.
  intros (W & N & V) L. split; [by apply bt_wf_insert|]. split; [done|]. intros id' l'. cbn [with_objects objects next_version].
  destruct (decide (id' = id)) as [->|Ne]; [rewrite bt_get_insert_eq; by intros [= <-]|].
  rewrite bt_get_insert_ne by done. apply V.
Qed.

Lemma update_object_ok s id w f :
  (forall n x, object_ok id n x -> object_ok id n (on_metadata f x)) ->
  memory_ok s -> memory_ok (update_object id w (on_metadata f) s).2
    /\ next_version (update_object id w (on_metadata f) s).2 = next_version s.
Proof.
  intros P K. unfold update_object. destruct (bt_get id (objects s)) as [l|] eqn:G; [|done].
  destruct (memory_object_at_mut l w _) as [l'|] eqn:U; [|done]. split; [|done]. apply replace_ok; [done|].
  eapply versions_ok_replace; [apply P|exact U|]. by apply K.
Qed.

Lemma next_version_succ s : memory_ok s -> next_version s < u64_max -> next_version (next_revision s) = next_version s + 1.
Proof. intros (_ & N & _) R. unfold next_revision, saturating_add_u64. cbn [next_version]. lia. Qed.

Lemma memory_put_ok s id body options :
  memory_ok s -> next_version s < u64_max -> memory_ok (memory_put id body options s).2
    /\ next_version (memory_put id body options s).2 <= next_version s + 1.
Proof.
  intros K R. destruct (memory_put id body options s) as [[meta|e] s'] eqn:E.
  - split; [by apply (memory_put_Ok s id body options meta s') in E as [? _]|]. revert E. unfold memory_put.
    destruct (_ && _); [done|]. rewrite new_version_ok. intros [= <- <-]. unfold saturating_add_u64.
    cbn [snd push_object with_objects count next_revision next_version]. unfold saturating_add_u64. lia.
  - revert E. unfold memory_put. destruct (_ && _); [intros [= _ <-]; cbn [snd]; split; [done|cbn [snd with_objects count next_version]; lia]|].
    by rewrite new_version_ok.
Qed.

Lemma memory_delete_ok s id :
  memory_ok s -> next_version s < u64_max -> memory_ok (memory_delete id s).2
    /\ next_version (memory_delete id s).2 <= next_version s + 1.
Proof.
  intros K R. unfold memory_delete. destruct (lookup_object _ id None) as [x|]; [|split; [done|cbn [snd with_objects count next_version]; lia]].
  destruct (blocks_delete _); [split; [done|cbn [snd with_objects count next_version]; lia]|]. rewrite new_version_ok.
  assert (next_version (next_revision (count CDelete 1 s)) = next_version s + 1) as E by (by apply (next_version_succ (count CDelete 1 s))).
  split; [|cbn [snd push_object with_objects next_version]; rewrite E; lia].
  apply push_ok; try done. pose proof (proj1 (proj2 K)) as N.
  unfold object_ok. cbn [mo_metadata meta_object_id content_len mo_body meta_version_id mo_revision].
  rewrite E. split_and!; try done; lia.
Qed.

Lemma memory_delete_at_ok s id version :
  memory_ok s -> next_version s < u64_max -> memory_ok (memory_delete_at id version s).2
    /\ next_version (memory_delete_at id version s).2 <= next_version s + 1.
Proof.
  intros K R. destruct version as [w|]; [|by apply memory_delete_ok]. cbn [memory_delete_at].
  change (objects (count CDelete 1 s)) with (objects s).
  destruct (bt_get id (objects s)) as [l|] eqn:G; [|split; [done|cbn [snd with_objects count next_version]; lia]].
  destruct (List.find _ l); [|split; [done|cbn [snd with_objects count next_version]; lia]]. destruct (blocks_delete _); [split; [done|cbn [snd with_objects count next_version]; lia]|].
  split; [|cbn [snd with_objects count next_version]; lia]. pose proof (versions_ok_remove _ _ _ (has_version w) (proj2 (proj2 K) id l G)) as V.
  destruct (remove_first _ l) eqn:E; [|by apply (replace_ok (count CDelete 1 s))]. clear E V l G.
  destruct K as (W & N & V). split; [by apply bt_wf_remove|]. split; [done|]. intros id' l. cbn [snd with_objects objects next_version].
  destruct (decide (id' = id)) as [->|Ne]; [by rewrite bt_get_remove_eq|]. rewrite bt_get_remove_ne by done. apply V.
Qed.

Lemma run_op_ok s op :
  memory_ok s -> next_version s < u64_max ->
  memory_ok (run_op s op) /\ next_version (run_op s op) <= next_version s + 1.
Proof.
  intros K R. assert (forall s', memory_ok s' /\ next_version s' = next_version s -> memory_ok s' /\ next_version s' <= next_version s + 1)
    as Same by (intros s' [? ?]; split; [done|lia]). destruct op; cbn [run_op].
  - by apply memory_put_ok.
  - apply Same. unfold memory_get_range_at. destruct (lookup_object _ _ _); [|done]. by destruct (read_range _ _).
  - apply Same. unfold memory_head_at. by destruct (lookup_object _ _ _).
  - by apply Same.
  - by apply Same.
  - apply Same. unfold memory_next_page. destruct (list_complete l); [done|]. by destruct (list_mode l).
  - by apply memory_delete_at_ok.
  - apply Same. by apply (update_object_ok (count CExtendRetention 1 s)).
  - apply Same. by apply (update_object_ok (count CSetLegalHold 1 s)).
  - unfold memory_complete, io_bind, io_of. destruct (collect_parts _ _ _) as [body|]; [|by apply Same].
    pose proof (memory_put_ok s (up_object_id upload) body (up_options upload) K R) as P.
    by destruct (memory_put _ body _ s) as [[]].
  - by apply Same.
Qed.

Lemma versions_distinct id n l :
  n <= u64_max -> versions_ok id n l -> NoDup (map (fun o => meta_version_id (mo_metadata o)) l).
Proof.
  intros N [F S]. induction l as [|x l IH]; [constructor|]. apply Forall_cons_iff in F as [(_ & _ & Ex & Bx) F].
  apply StronglySorted_inv in S as [S O]. cbn [map]. constructor; [|by apply IH]. rewrite list_elem_of_In, in_map_iff.
  intros (y & E & I). rewrite List.Forall_forall in F, O. destruct (F y I) as (_ & _ & Ey & By). specialize (O y I).
  rewrite Ex, Ey in E. apply (f_equal (default [])) in E. cbn [default] in E.
  apply version_name_inj in E; unfold older, is_u64 in *; lia.
Qed.

(** C26: The state of the in-memory store stays well formed under every
    sequence of operations that leaves the version counter below its maximum:
    objects are in key order without repetition, every version belongs to the
    object it is filed under, records the length of its content, carries the
    name of its revision, and the versions of an object are in the order of
    their revisions, so that no two versions of an object share a name. *)
Theorem memory_state_well_formed ops s :
  memory_ok s -> next_version s + len ops <= u64_max ->
  memory_ok (fold_left run_op ops s)
  /\ forall id l, bt_get id (objects (fold_left run_op ops s)) = Some l ->
       NoDup (map (fun o => meta_version_id (mo_metadata o)) l).
Proof.
  intros K R. enough (memory_ok (fold_left run_op ops s)) as K'.
  { split; [done|]. intros id l G. destruct K' as (_ & N & V). eapply versions_distinct; [|by apply V]. lia. }
  revert s K R. induction ops as [|op ops IH]; intros s K R; [done|]. unfold len in *. cbn [fold_left length] in *.
  destruct (run_op_ok s op K) as [K1 N1]; [lia|]. apply IH; [done|lia].
Qed.

(** ** Bounded listings *)

(** Between a prefix and a string that starts with it, every string starts
    with it. *)
Lemma starts_with_between p x y :
  leb p x = true -> ltb x y = true -> starts_with p y = true -> starts_with p x = true.
Proof.
  unfold starts_with, leb, ltb. revert x y. induction p as [|a p IH]; intros x y L T S; [done|].
  destruct y as [|b y]; [done|]. destruct x as [|c x]; [done|]. cbn [strip_prefix] in *.
  unfold cmp, ord_list in *. cbn [list_cmp] in *. unfold then_cmp in *.
  destruct (bool_decide (a = b)) eqn:E; [|done]. b2p. subst b.
  assert (cmp a c = Eq) as Q.
  { destruct (cmp a c) eqn:C; [done| |done]. exfalso. rewrite (cmp_antisym c a : cmp a c = _) in C.
    destruct (cmp c a) eqn:C'; simpl in C; congruence. }
  rewrite Q in L. apply cmp_eq in Q as <-. rewrite cmp_refl in T. rewrite bool_decide_eq_true_2 by done.
  by apply (IH x y).
Qed.

Fixpoint take_while {A} (f : A -> bool) (l : list A) : list A :=
  match l with
  | a :: l' => if f a then a :: take_while f l' else []
  | [] => []
  end.

Abbreviation Item := (text * list MemoryObject)%type.
Definition matches (prefix : text) (i : Item) : bool := starts_with prefix i.1.
Definition current_of (i : Item) : list BlobMetadata :=
  match memory_object_at i.2 None with
  | Some object => [mo_metadata object]
  | None => []
  end.

(** What one page takes from the matching items. *)
Lemma current_page_spec prefix limit items p :
  0 <= page_consumed p <= limit -> page_has_more p = false ->
  let rest := take_while (matches prefix) items in
  let n := Z.to_nat (limit - page_consumed p) in
  let r := current_page prefix limit items p in
  page_entries r = page_entries p ++ flat_map current_of (firstn n rest)
  /\ page_after r = (match list.last (firstn n rest) with Some i => Some i.1 | None => page_after p end)
  /\ page_has_more r = Nat.ltb n (length rest).
Proof.
  revert p. induction items as [|[id versions] items IH]; intros p L M; cbn [current_page take_while].
  { rewrite firstn_nil. cbn [flat_map list.last length]. rewrite app_nil_r. by destruct (Z.to_nat _). }
  change (matches prefix (id, versions)) with (starts_with prefix id). destruct (starts_with prefix id); cbn [negb].
  2:{ rewrite firstn_nil. cbn [flat_map list.last length]. rewrite app_nil_r. by destruct (Z.to_nat _). }
  destruct (Z.eqb_spec (page_consumed p) limit) as [E|E].
  { replace (Z.to_nat (limit - page_consumed p)) with 0%nat by lia. cbn [firstn flat_map list.last page_stop page_entries page_after page_has_more].
    by rewrite app_nil_r. }
  destruct (IH (page_take p id (memory_object_at versions None))) as (I1 & I2 & I3); [simpl; lia|done|].
  replace (Z.to_nat (limit - page_consumed p)) with (S (Z.to_nat (limit - (page_consumed p + 1)))) by lia.
  cbn [page_take page_consumed page_entries page_after] in *. cbn [firstn flat_map length]. rewrite I1, I2, I3. split_and!.
  - rewrite <- app_assoc. done.
  - rewrite last_cons. by destruct (list.last _).
  - done.
Qed.

(** From a start at or after the prefix, the matching items come first. *)
Lemma take_while_filter prefix l :
  bt_wf l -> Forall (fun i => leb prefix i.1 = true) l ->
  take_while (matches prefix) l = List.filter (matches prefix) l.
Proof.
  intros W F. induction l as [|[id vs] l IH]; [done|]. apply bt_wf_cons in W as [W B]. apply Forall_cons_iff in F as [F1 F2].
  cbn [take_while List.filter]. rewrite IH by done. destruct (matches prefix (id, vs)) eqn:M; [done|]. symmetry.
  destruct (List.filter (matches prefix) l) as [|i l'] eqn:E; [done|].
  assert (In i (List.filter (matches prefix) l)) as I by (rewrite E; by left). apply filter_In in I as [I Mi].
  unfold bt_below in B. rewrite List.Forall_forall in B. specialize (B i I).
  unfold matches in *. simpl in M, F1. rewrite (starts_with_between prefix id i.1) in M; [done|done|by apply ltb_lt|done].
Qed.

Lemma range_from_wf start b o : bt_wf o -> bt_wf (range_from start b o).
Proof.
  unfold bt_wf, range_from. intros W. induction W as [|[k v] l W IH F]; cbn [List.filter]; [constructor|].
  destruct (if b then _ else _); [|done]. constructor; [done|]. rewrite List.Forall_forall in *.
  intros x I. apply filter_In in I as [I _]. auto.
Qed.

Lemma starts_with_leb p x : starts_with p x = true -> leb p x = true.
Proof.
  unfold starts_with, leb, cmp, ord_list. revert x. induction p as [|a p IH]; intros x; [by destruct x|].
  destruct x as [|b x]; [done|]. cbn [strip_prefix list_cmp].
  destruct (bool_decide (a = b)) eqn:E; [|done]. apply bool_decide_eq_true in E as <-. rewrite cmp_refl. apply IH.
Qed.

Lemma filter_all {A} (f : A -> bool) l : Forall (fun a => f a = true) l -> List.filter f l = l.
Proof. induction 1 as [|a l E F IH]; cbn [List.filter]; [done|]. by rewrite E, IH. Qed.

Lemma filter_none {A} (f : A -> bool) l : Forall (fun a => f a = false) l -> List.filter f l = [].
Proof. induction 1 as [|a l E F IH]; cbn [List.filter]; [done|]. by rewrite E. Qed.

Lemma filter_comm {A} (f g : A -> bool) l : List.filter f (List.filter g l) = List.filter g (List.filter f l).
Proof.
  induction l as [|a l IH]; [done|]. cbn [List.filter]. destruct (f a) eqn:F, (g a) eqn:G; cbn [List.filter];
    rewrite ?F, ?G, ?IH; done.
Qed.

Lemma filter_wf (f : Item -> bool) o : bt_wf o -> bt_wf (List.filter f o).
Proof.
  unfold bt_wf. intros W. induction W as [|a m W IH F]; cbn [List.filter]; [constructor|].
  destruct (f a); [|done]. constructor; [done|]. rewrite List.Forall_forall in *.
  intros x I. apply filter_In in I as [I _]. auto.
Qed.

(** What lies after an item of a sorted list. *)
Lemma after_item (a b : list Item) i : bt_wf (a ++ i :: b) -> range_from i.1 false (a ++ i :: b) = b.
Proof.
  unfold bt_wf. induction a as [|x a IH]; cbn [app]; intros W; apply StronglySorted_inv in W as [W F].
  - unfold range_from. cbn [List.filter]. destruct i as [k v]. cbn [fst] in *. unfold ltb at 1. rewrite cmp_refl.
    apply filter_all. rewrite List.Forall_forall in *. intros [k' v'] I. apply ltb_lt. apply (F _ I).
  - unfold range_from in *. cbn [List.filter]. destruct x as [k v]. rewrite IH by done.
    rewrite List.Forall_forall in F. specialize (F i ltac:(apply in_or_app; right; by left)).
    cbn [fst] in F. unfold ltb. by rewrite (cmp_antisym k i.1), F.
Qed.

(** The matching items, split into those already listed and the rest. *)
Definition progress (l : MemoryBlobList) (o : BTreeMap text (list MemoryObject)) (listed rest : list Item) : Prop :=
  list_mode l = Current /\ List.filter (matches (list_prefix_ l)) o = listed ++ rest
  /\ current_after l = fst <$> list.last listed.

Lemma progress_items l o listed rest :
  bt_wf o -> progress l o listed rest ->
  take_while (matches (list_prefix_ l))
    (match current_after l with
     | None => range_from (list_prefix_ l) true o
     | Some id => range_from id false o
     end) = rest.
Proof.
  intros W (_ & E & ->). set (prefix := list_prefix_ l) in *. destruct listed as [|i listed _] using rev_ind.
  - cbn [list.last fmap option_fmap option_map]. cbn [app] in E. rewrite take_while_filter; [|by apply filter_wf|].
    + unfold range_from. rewrite filter_comm, E. apply filter_all. rewrite <- E. apply List.Forall_forall. intros [k v] I.
      apply filter_In in I as [_ I]. by apply starts_with_leb.
    + apply List.Forall_forall. intros [k v] I. by apply filter_In in I as [_ I].
  - rewrite last_snoc. cbn [fmap option_fmap option_map]. rewrite <- app_assoc in E. cbn [app] in E.
    assert (matches prefix i = true) as Mi.
    { assert (In i (List.filter (matches prefix) o)) as I by (rewrite E; apply in_or_app; right; by left).
      by apply filter_In in I as [_ I]. }
    rewrite take_while_filter; [|by apply filter_wf|].
    + unfold range_from. rewrite filter_comm, E. apply after_item. rewrite <- E. by apply filter_wf.
    + apply List.Forall_forall. intros [k v] I. apply filter_In in I as [_ I]. eapply leb_trans; [by apply starts_with_leb|].
      apply leb_le. left. by apply ltb_lt.
Qed.

(** The entries of several pages, one limit per page. *)
Fixpoint list_pages (limits : list Z) (l : MemoryBlobList) : MemoryIO (list BlobMetadata * MemoryBlobList) :=
  match limits with
  | [] => io_ret ([], l)
  | limit :: limits' =>
      '(page, l) <~ memory_next_page l limit ;;
      '(rest, l) <~ list_pages limits' l ;;
      io_ret (entries page ++ rest, l)
  end.

Lemma next_page_progress l limit s listed rest :
  bt_wf (objects s) -> 0 < limit -> list_complete l = false -> progress l (objects s) listed rest ->
  exists page l' s', memory_next_page l limit s = (Ok (page, l'), s') /\ objects s' = objects s
    /\ entries page = flat_map current_of (firstn (Z.to_nat limit) rest)
    /\ progress l' (objects s) (listed ++ firstn (Z.to_nat limit) rest) (skipn (Z.to_nat limit) rest)
    /\ list_complete l' = negb (Nat.ltb (Z.to_nat limit) (length rest)).
Proof.
  intros W L C P. pose proof (progress_items l _ _ _ W P) as It. destruct P as (M & E & A).
  unfold memory_next_page. rewrite C, M. cbn [objects count].
  set (items := match current_after l with None => _ | Some id => _ end) in *.
  destruct (current_page_spec (list_prefix_ l) limit items (empty_page (current_after l))) as (I1 & I2 & I3); [simpl; lia|done|].
  cbn [empty_page page_consumed page_entries page_after app] in I1, I2, I3. rewrite It, Z.sub_0_r in I1, I2, I3.
  eexists _, _, _. split; [reflexivity|]. cbn [objects entries list_complete]. rewrite I1, I3. split_and!; try done.
  split_and!; [done|by rewrite <- app_assoc, firstn_skipn|].
  cbn [current_after]. rewrite I2, last_app, A. by destruct (list.last (firstn _ rest)).
Qed.

Lemma list_pages_complete limits l s :
  list_complete l = true -> exists s', list_pages limits l s = (Ok ([], l), s') /\ objects s' = objects s.
Proof.
  intros C. induction limits as [|limit limits IH]; cbn [list_pages]; [by exists s|].
  destruct IH as (s' & E & O). exists s'. split; [|done]. unfold io_bind, memory_next_page. rewrite C, E. done.
Qed.

Lemma list_pages_rest limits l s listed rest :
  bt_wf (objects s) -> Forall (fun n => 0 < n) limits -> limits <> [] -> list_complete l = false ->
  progress l (objects s) listed rest -> len rest <= fold_right Z.add 0 limits ->
  exists l' s', list_pages limits l s = (Ok (flat_map current_of rest, l'), s')
    /\ list_complete l' = true /\ objects s' = objects s.
Proof.
  revert l s listed rest. induction limits as [|limit limits IH]; intros l s listed rest W F N C P B; [done|].
  apply Forall_cons_iff in F as [F1 F2]. cbn [list_pages fold_right] in *. unfold io_bind.
  destruct (next_page_progress l limit s listed rest W F1 C P) as (page & l1 & s1 & -> & O1 & E1 & P1 & C1). rewrite E1.
  destruct (Nat.ltb_spec (Z.to_nat limit) (length rest)) as [Lt|Ge]; cbn [negb] in C1.
  - destruct (IH l1 s1 (listed ++ firstn (Z.to_nat limit) rest) (skipn (Z.to_nat limit) rest)) as (l2 & s2 & -> & C2 & O2);
      [by rewrite O1|done| |done|by rewrite O1| |].
    + destruct limits; [|done]. cbn [fold_right] in B. unfold len in B. lia.
    + unfold len in *. rewrite length_drop. lia.
    + exists l2, s2. rewrite <- flat_map_app, firstn_skipn, O2. done.
  - destruct (list_pages_complete limits l1 s1 C1) as (s2 & -> & O2). exists l1, s2.
    rewrite app_nil_r, take_ge by lia. rewrite O2. done.
Qed.

(** C24: Bounded listing is whole listing: reading a listing page by page, with
    any positive limits that together suffice, ends and yields exactly the
    entries of the unbounded listing, in the same order, once each. *)
Theorem paged_listing_is_whole prefix limits s :
  bt_wf (objects s) -> Forall (fun n => 0 < n) limits -> limits <> [] ->
  len (List.filter (matches prefix) (objects s)) <= fold_right Z.add 0 limits ->
  exists listing l s', list_pages limits (memory_open_bounded_list prefix Current) s = (Ok (listing, l), s')
    /\ list_complete l = true /\ objects s' = objects s /\ (memory_list_prefix prefix s).1 = Ok listing.
Proof.
  intros W F N B. destruct (list_pages_rest limits (memory_open_bounded_list prefix Current) s []
    (List.filter (matches prefix) (objects s))) as (l & s' & E & C & O); try done.
  eexists _, l, s'. split_and!; [exact E|done|done|]. unfold memory_list_prefix. cbn [fst count objects]. f_equal.
  rewrite (flat_map_ext current_of (fun '(_, versions) => match memory_object_at versions None with
     | Some object => [mo_metadata object] | None => [] end)) by (by intros []).
  f_equal. apply filter_ext. by intros [].
Qed.

(** ** Witnesses *)

Module MemorySample.
Definition options (r : option RetentionPolicy) : PutOptions :=
  {| put_retention := r; put_legal_hold := None; put_content_type := None; do_not_recreate := false |}.

(** Two versions of an object, the first retained, and two other objects. *)
Definition add (id body : string) (r : option RetentionPolicy) (s : MemoryState) : MemoryState :=
  run_op s (OpPut (bytes_of_string id) (bytes_of_string body) (options r)).
Definition state : MemoryState :=
  add "c/1" "x" None (add "b/2" "y" None (add "b/1" "new" None
    (add "b/1" "old" (Some {| mode := Compliance; retain_days := 7 |}) (MemoryBlobStore_new (Some 1000))))).

Lemma state_wf : bt_wf (objects state).
Proof. do 4 apply run_op_wf. apply bt_wf_nil. Qed.

Definition first_id : text := bytes_of_string "b/1".
Definition first_version : text := version_name 1.

Definition attack : list MemoryOp :=
  [OpDelete first_id (Some first_version); OpDelete first_id None;
   OpExtendRetention first_id (Some first_version) {| mode := Governance; retain_days := 1 |};
   OpPut first_id [] (options None); OpDelete first_id (Some first_version)].
End MemorySample.

Lemma retained_versions_survive_witness :
  exists o, find_version (fold_left run_op MemorySample.attack MemorySample.state) MemorySample.first_id
    MemorySample.first_version = Some o /\ mo_body o = bytes_of_string "old".
Proof.
  destruct (find_version MemorySample.state MemorySample.first_id MemorySample.first_version) as [o|] eqn:F;
    [|vm_compute in F; discriminate F].
  destruct (retained_versions_survive MemorySample.attack MemorySample.state MemorySample.first_id
    MemorySample.first_version o) as (o' & F' & B & _).
  - exact MemorySample.state_wf.
  - exact F.
  - vm_compute in F. injection F as <-. reflexivity.
  - exists o'. split; [exact F'|]. rewrite B. vm_compute in F. by injection F as <-.
Defined.

Lemma paged_listing_is_whole_witness :
  exists listing l s', list_pages [1; 1] (memory_open_bounded_list (bytes_of_string "b/") Current) MemorySample.state
    = (Ok (listing, l), s') /\ (memory_list_prefix (bytes_of_string "b/") MemorySample.state).1 = Ok listing.
Proof.
  destruct (paged_listing_is_whole (bytes_of_string "b/") [1; 1] MemorySample.state) as (listing & l & s' & E & _ & _ & W).
  - exact MemorySample.state_wf.
  - by repeat constructor.
  - done.
  - vm_compute. discriminate.
  - exists listing, l, s'. split; [exact E|exact W].
Defined.

Lemma memory_state_well_formed_witness :
  memory_ok (fold_left run_op MemorySample.attack (MemoryBlobStore_new None)).
Proof.
  apply (memory_state_well_formed MemorySample.attack (MemoryBlobStore_new None)).
  - apply memory_new_ok.
  - vm_compute. discriminate.
Defined.
