(* ===== verification/Cbor.v ===== *)
(** * Bounded canonical CBOR (crates/rs3-types/src/cbor.rs)

    The writers append to an output vector; the [Reader] is a cursor over a
    borrowed slice.  Every decoder is shown complete (it reads back what the
    writer wrote, wherever it stands in the input) and canonical (whatever it
    accepts is byte for byte what the writer writes for the value it
    returns). *)

From S2P Require Import Prelude Text.

Inductive CborError : Type := Invalid.

(** ** Writers *)

Definition write_type_len (out : list byte) (major value : Z) : list byte :=
  let prefix := Z.shiftl major 5 in
  if value <=? 23 then out ++ [to_u8 (Z.lor prefix value)]
  else if value <=? 0xff then out ++ [to_u8 (Z.lor prefix 24); to_u8 value]
  else if value <=? 0xffff then out ++ to_u8 (Z.lor prefix 25) :: to_be_bytes 2 value
  else if value <=? 0xffffffff then out ++ to_u8 (Z.lor prefix 26) :: to_be_bytes 4 value
  else out ++ to_u8 (Z.lor prefix 27) :: to_be_bytes 8 value.

Definition write_u64 (out : list byte) (value : Z) : list byte := write_type_len out 0 value.

Definition write_i64 (out : list byte) (value : Z) : list byte :=
  if 0 <=? value then write_type_len out 0 value
  else write_type_len out 1 ((-1 - value) mod 2 ^ 64).

Definition write_bytes (out bytes : list byte) : list byte :=
  write_type_len out 2 (len bytes) ++ bytes.

Definition write_text (out : list byte) (s : text) : list byte :=
  write_type_len out 3 (len s) ++ s.

Definition write_array_len (out : list byte) (n : Z) : list byte := write_type_len out 4 n.

Definition write_map_len (out : list byte) (n : Z) : list byte := write_type_len out 5 n.

Definition write_null (out : list byte) : list byte := out ++ [xf6].

(** ** Reader *)

Record Reader : Type := {
  input : list byte;
  pos : Z
}.

Definition Reader_new (bs : list byte) : Reader := {| input := bs; pos := 0 |}.

Definition is_finished (r : Reader) : bool := pos r =? len (input r).

Abbreviation R := (M Reader CborError).

Definition read_byte : R byte := fun r =>
  b <-? ok_or (input r !! Z.to_nat (pos r)) Invalid ;;
  Ok (b, {| input := input r; pos := pos r + 1 |}).

Definition take (n : Z) : R (list byte) := fun r =>
  end_ <-? ok_or (checked_add (pos r) n) Invalid ;;
  reject_if (end_ >? len (input r)) Invalid ;;?
  Ok (firstn (Z.to_nat (end_ - pos r)) (skipn (Z.to_nat (pos r)) (input r)),
      {| input := input r; pos := end_ |}).

Definition read_initial : R (Z * Z) :=
  b <- read_byte ;;
  mret (Z.shiftr (u8 b) 5, Z.land (u8 b) 0x1f).

Definition read_len (additional : Z) : R Z :=
  if (0 <=? additional) && (additional <=? 23) then mret additional
  else if additional =? 24 then
    b <- read_byte ;;
    lift (reject_if (u8 b <? 24) Invalid) ;;
    mret (u8 b)
  else if additional =? 25 then
    bs <- take 2 ;;
    lift (reject_if (from_be_bytes bs <=? 0xff) Invalid) ;;
    mret (from_be_bytes bs)
  else if additional =? 26 then
    bs <- take 4 ;;
    lift (reject_if (from_be_bytes bs <=? 0xffff) Invalid) ;;
    mret (from_be_bytes bs)
  else if additional =? 27 then
    bs <- take 8 ;;
    lift (reject_if (from_be_bytes bs <=? 0xffffffff) Invalid) ;;
    mret (from_be_bytes bs)
  else lift (Err Invalid).

Definition read_u64 : R Z :=
  '(major, additional) <- read_initial ;;
  lift (reject_if (negb (major =? 0)) Invalid) ;;
  read_len additional.

Definition read_i64 : R Z :=
  '(major, additional) <- read_initial ;;
  value <- read_len additional ;;
  if major =? 0 then lift (ok_or (try_i64 value) Invalid)
  else if major =? 1 then lift (ok_or (try_i64 (-1 - value)) Invalid)
  else lift (Err Invalid).

Definition read_len_for_major (expected_major : Z) : R Z :=
  '(major, additional) <- read_initial ;;
  lift (reject_if (negb (major =? expected_major)) Invalid) ;;
  read_len additional.

Definition read_len_for_major_bounded (expected_major max_len : Z) : R Z :=
  n <- read_len_for_major expected_major ;;
  lift (reject_if (n >? max_len) Invalid) ;;
  mret n.

Definition read_bytes_bounded (max_len : Z) : R (list byte) :=
  n <- read_len_for_major_bounded 2 max_len ;;
  take n.

Definition read_bytes : R (list byte) := read_bytes_bounded usize_max.

Definition read_text_bounded (max_len : Z) : R text :=
  n <- read_len_for_major_bounded 3 max_len ;;
  bs <- take n ;;
  lift (reject_if (negb (utf8_valid bs)) Invalid) ;;
  mret bs.

Definition read_text : R text := read_text_bounded usize_max.

Definition read_array_len : R Z := read_len_for_major 4.

Definition read_map_len : R Z := read_len_for_major 5.

Definition read_null : R unit :=
  b <- read_byte ;;
  if u8 b =? 0xf6 then mret tt else lift (Err Invalid).

Definition next_is_null (r : Reader) : bool :=
  match input r !! Z.to_nat (pos r) with
  | Some b => u8 b =? 0xf6
  | None => false
  end.

(** The idiom [if reader.next_is_null() { reader.read_null()?; None } else
    { Some(..) }], with the conversion [f] of the CBOR errors. *)
Definition null_or {E A} (f : CborError -> E) (p : M Reader E A) : M Reader E (option A) := fun r =>
  if next_is_null r then (mmap_err f read_null ;; mret None) r
  else (a <- p ;; mret (Some a)) r.

(** ** What is left of the input *)

#[export] Instance reader_cursor : Cursor Reader := fun r l =>
  0 <= pos r <= len (input r) /\ len (input r) <= usize_max /\ skipn (Z.to_nat (pos r)) (input r) = l.

Lemma view_new bs : len bs <= usize_max -> view (Reader_new bs) bs.
Proof. intros L. unfold view, reader_cursor. simpl. pose proof (len_nonneg bs). auto with lia. Qed.

Lemma view_nil_finished r : view r [] -> is_finished r = true.
Proof.
  intros (P & L & D). apply Z.eqb_eq. apply (f_equal length) in D.
  rewrite length_drop in D. simpl in D. unfold len in *. lia.
Qed.

Lemma view_finished_nil r l : view r l -> is_finished r = true -> l = [].
Proof.
  intros (P & L & D) F. apply Z.eqb_eq in F. rewrite <- D, F. unfold len.
  rewrite Nat2Z.id. by apply drop_all.
Qed.

Lemma view_head r b l : view r (b :: l) -> input r !! Z.to_nat (pos r) = Some b.
Proof.
  intros (P & L & D). rewrite <- (Nat.add_0_r (Z.to_nat (pos r))), <- lookup_drop, D. done.
Qed.

Lemma view_next_null r b l : view r (b :: l) -> next_is_null r = (u8 b =? 0xf6).
Proof. intros V. unfold next_is_null. by rewrite (view_head _ _ _ V). Qed.

(** ** Primitive reads *)

Lemma reads_byte b : reads read_byte [b] b.
Proof.
  intros r rest V. pose proof (view_head _ _ _ V) as Hd. unfold read_byte. rewrite Hd. simpl.
  eexists. split; [done|]. destruct V as (P & L & D). unfold view, reader_cursor. simpl.
  apply (f_equal length) in D as DL. rewrite length_drop in DL. simpl in DL. unfold len in *.
  split_and!; [lia..|]. replace (Z.to_nat (pos r + 1)) with (Z.to_nat (pos r) + 1)%nat by lia.
  rewrite <- drop_drop, D. done.
Qed.

Lemma accepts_byte : accepts read_byte (fun b c => c = [b]).
Proof.
  intros r l b r' V Eq. unfold read_byte in Eq. inv_bind.
  destruct l as [|b' l].
  { destruct V as (P & L & D). apply (f_equal length) in D. rewrite length_drop in D.
    apply lookup_lt_Some in Heqo. simpl in D. lia. }
  pose proof (view_head _ _ _ V) as Hd. assert (b' = b) as -> by congruence.
  destruct (reads_byte b r l V) as (r' & Eq & V'). unfold read_byte in Eq. rewrite Heqo in Eq.
  simpl in Eq. inv_bind. exists [b], l. auto.
Qed.

Lemma reads_take bs n : n = len bs -> reads (take n) bs bs.
Proof.
  intros -> r rest (P & L & D). pose proof (len_nonneg bs).
  apply (f_equal length) in D as DL. rewrite length_drop, length_app in DL.
  unfold take. rewrite checked_add_ok by (unfold len in *; lia). simpl.
  assert ((pos r + len bs >? len (input r)) = false) as -> by (rewrite Z.gtb_ltb; unfold len in *; lia).
  simpl. rewrite D. replace (Z.to_nat (pos r + len bs - pos r)) with (length bs) by (unfold len; lia).
  rewrite take_app_length. eexists. split; [done|].
  unfold view, reader_cursor. simpl. split_and!; [unfold len in *; lia..|].
  replace (Z.to_nat (pos r + len bs)) with (Z.to_nat (pos r) + length bs)%nat by (unfold len; lia).
  by rewrite <- drop_drop, D, drop_app_length.
Qed.

Lemma accepts_take n : 0 <= n -> accepts (take n) (fun bs c => c = bs /\ len bs = n).
Proof.
  intros N r l bs r' V Eq. unfold take in Eq. inv_bind. destruct V as (P & L & D).
  apply checked_add_Some in Heqo as [-> _]. b2p.
  replace (pos r + n - pos r) with n by lia. rewrite D.
  exists (firstn (Z.to_nat n) l), (skipn (Z.to_nat n) l).
  apply (f_equal length) in D as DL. rewrite length_drop in DL.
  split_and!; [by rewrite take_drop| |done|].
  - unfold view, reader_cursor. simpl. split_and!; [unfold len in *; lia..|].
    by rewrite Z2Nat.inj_add, <- drop_drop, D by lia.
  - unfold len in *. rewrite length_take. lia.
Qed.

#[export] Hint Resolve reads_byte reads_take accepts_byte : codec.
#[export] Hint Extern 1 (accepts (take _) _) => apply accepts_take; lia : codec.

(** ** Heads *)

(** The canonical head of a value with this major type. *)
Definition head (major value : Z) : list byte := write_type_len [] major value.

Lemma write_type_len_head out major value :
  write_type_len out major value = out ++ head major value.
Proof. unfold head, write_type_len. repeat case_if; done. Qed.

(** An initial byte is its major type and its additional information. *)
Lemma initial_byte m a :
  0 <= m <= 7 -> 0 <= a <= 31 ->
  Z.shiftr (u8 (to_u8 (Z.lor (Z.shiftl m 5) a))) 5 = m
  /\ Z.land (u8 (to_u8 (Z.lor (Z.shiftl m 5) a))) 0x1f = a.
Proof.
  intros Hm Ha. rewrite lor_shiftl by lia.
  rewrite u8_to_u8_small by lia. change 0x1f with (2 ^ 5 - 1).
  rewrite land_pow2_minus1, Z.shiftr_div_pow2 by lia.
  rewrite Z.div_add_l, Z.div_small, (Z.add_comm (m * 2 ^ 5) a), Z.mod_add, Z.mod_small by lia. lia.
Qed.

Lemma initial_byte_inv b : b = to_u8 (Z.lor (Z.shiftl (Z.shiftr (u8 b) 5) 5) (Z.land (u8 b) 0x1f)).
Proof.
  change 0x1f with (2 ^ 5 - 1). rewrite land_pow2_minus1 by lia.
  rewrite lor_shiftl by (pose proof (Z.mod_pos_bound (u8 b) (2 ^ 5)); lia).
  rewrite Z.shiftr_div_pow2, Z.mul_comm, <- Z.div_mod by lia. by rewrite to_u8_u8.
Qed.

Lemma major_range b : 0 <= Z.shiftr (u8 b) 5 <= 7 /\ 0 <= Z.land (u8 b) 0x1f <= 31.
Proof.
  pose proof (u8_range b). change 0x1f with (2 ^ 5 - 1).
  rewrite land_pow2_minus1, Z.shiftr_div_pow2 by lia.
  pose proof (Z.mod_pos_bound (u8 b) (2 ^ 5)).
  pose proof (Z.div_pos (u8 b) (2 ^ 5)). pose proof (Z.div_lt_upper_bound (u8 b) (2 ^ 5) 8). lia.
Qed.

(** What [read_len] has to find after an initial byte with this additional
    information. *)
Definition len_tail (additional value : Z) : list byte :=
  if additional =? 24 then [to_u8 value]
  else if additional =? 25 then to_be_bytes 2 value
  else if additional =? 26 then to_be_bytes 4 value
  else if additional =? 27 then to_be_bytes 8 value
  else [].

(** The additional information of the minimal head. *)
Definition additional_of (value : Z) : Z :=
  if value <=? 23 then value
  else if value <=? 0xff then 24
  else if value <=? 0xffff then 25
  else if value <=? 0xffffffff then 26
  else 27.

Lemma head_eq major value :
  0 <= value ->
  head major value
  = to_u8 (Z.lor (Z.shiftl major 5) (additional_of value)) :: len_tail (additional_of value) value.
Proof.
  intros. unfold head, write_type_len, additional_of, len_tail.
  repeat (case_if; b2p; try lia); try done.
Qed.

Lemma additional_range value : 0 <= value -> 0 <= additional_of value <= 27.
Proof. intros. unfold additional_of. repeat case_if; b2p; lia. Qed.

Lemma reads_len value : is_u64 value -> reads (read_len (additional_of value)) (len_tail (additional_of value) value) value.
Proof.
  unfold is_u64. intros U. unfold additional_of.
  assert (forall n (m : Z), 0 <= value < 256 ^ Z.of_nat n -> m < value ->
    reads (bs <- take (Z.of_nat n) ;; lift (reject_if (from_be_bytes bs <=? m) Invalid) ;;
           mret (from_be_bytes bs)) (to_be_bytes n value) value) as W.
  { intros n m B L. eapply reads_bind_end; [apply reads_take; by rewrite len_to_be_bytes|].
    rewrite from_to_be_bytes by done. assert ((value <=? m) = false) as -> by lia.
    eapply reads_bind_nil; [by apply reads_lift|]. apply reads_ret. }
  repeat case_if; b2p; unfold read_len, len_tail; simpl.
  - assert ((0 <=? value) && (value <=? 23) = true) as -> by lia.
    repeat (case_if; b2p; [lia|]). apply reads_ret.
  - eapply reads_bind_end; [apply reads_byte|]. rewrite u8_to_u8_small by lia.
    assert ((value <? 24) = false) as -> by lia.
    eapply reads_bind_nil; [by apply reads_lift|]. apply reads_ret.
  - apply (W 2%nat); simpl; lia.
  - apply (W 4%nat); simpl; lia.
  - apply (W 8%nat); simpl; lia.
Qed.

Lemma accepts_len a :
  accepts (read_len a) (fun v c => is_u64 v /\ additional_of v = a /\ c = len_tail a v).
Proof.
  unfold read_len, is_u64.
  assert (forall n (m : Z),
    accepts (bs <- take (Z.of_nat n) ;; lift (reject_if (from_be_bytes bs <=? m) Invalid) ;;
             mret (from_be_bytes bs))
      (fun v c => m < v < 256 ^ Z.of_nat n /\ c = to_be_bytes n v)) as W.
  { intros n m s l v s' V Eq. inv_bind. all_accepts. b2p.
    chunk. pose proof (from_be_bytes_range l0) as B.
    replace (len l0) with (Z.of_nat n) in B.
    split_and!; [lia..|]. symmetry. apply to_from_be_bytes'. unfold len in *. lia. }
  destruct ((0 <=? a) && (a <=? 23)) eqn:Ea.
  { b2p. eapply accepts_weaken; [apply accepts_ret|]. intros v c [-> ->].
    unfold additional_of, len_tail. repeat (case_if; b2p; try lia). split_and!; try done; lia. }
  destruct (Z.eqb_spec a 24) as [->|].
  { intros s l v s' V Eq. inv_bind. all_accepts. b2p. pose proof (u8_range b).
    chunk. split_and!; [lia..| |].
    - unfold additional_of. repeat (case_if; b2p; try lia).
    - unfold len_tail. simpl. by rewrite to_u8_u8. }
  destruct (Z.eqb_spec a 25) as [->|]; [|destruct (Z.eqb_spec a 26) as [->|]; [|destruct (Z.eqb_spec a 27) as [->|]]].
  - eapply accepts_weaken; [apply (W 2%nat)|]. intros v c [B ->]. simpl in B.
    unfold additional_of. split_and!; [lia..| |done]. repeat (case_if; b2p; try lia).
  - eapply accepts_weaken; [apply (W 4%nat)|]. intros v c [B ->]. simpl in B.
    unfold additional_of. split_and!; [lia..| |done]. repeat (case_if; b2p; try lia).
  - eapply accepts_weaken; [apply (W 8%nat)|]. intros v c [B ->]. simpl in B.
    unfold additional_of. split_and!; [lia..| |done]. repeat (case_if; b2p; try lia).
  - intros s l v s' V Eq. discriminate.
Qed.
#[export] Hint Resolve accepts_len : codec.

Lemma reads_initial m a :
  0 <= m <= 7 -> 0 <= a <= 31 -> reads read_initial [to_u8 (Z.lor (Z.shiftl m 5) a)] (m, a).
Proof.
  intros. destruct (initial_byte m a) as [E1 E2]; [done..|].
  eapply reads_bind_end; [apply reads_byte|]. rewrite E1, E2. apply reads_ret.
Qed.

Lemma accepts_initial :
  accepts read_initial (fun p c => 0 <= p.1 <= 7 /\ 0 <= p.2 <= 31 /\ c = [to_u8 (Z.lor (Z.shiftl p.1 5) p.2)]).
Proof.
  intros s l p s' V Eq. unfold read_initial in Eq. inv_bind. all_accepts.
  chunk. pose proof (major_range b). split_and!; try done; try lia.
  f_equal. apply initial_byte_inv.
Qed.
#[export] Hint Resolve accepts_initial : codec.

Lemma head_assoc m v : 0 <= v -> head m v = [to_u8 (Z.lor (Z.shiftl m 5) (additional_of v))] ++ len_tail (additional_of v) v.
Proof. intros. by rewrite head_eq. Qed.

Lemma reads_head {A} m v (k : Z -> R A) rest a :
  0 <= m <= 7 -> is_u64 v -> reads (k v) rest a ->
  reads ('(major, additional) <- read_initial ;;
         lift (reject_if (negb (major =? m)) Invalid) ;;
         n <- read_len additional ;; k n) (head m v ++ rest) a.
Proof.
  intros Hm U K. rewrite head_assoc, <- app_assoc by (unfold is_u64 in U; lia).
  eapply reads_bind; [apply reads_initial; [done|pose proof (additional_range v); unfold is_u64 in U; lia]|].
  simpl. eapply reads_bind_nil; [apply reads_lift; by rewrite Z.eqb_refl|].
  eapply reads_bind; [by apply reads_len|done].
Qed.

(** ** Encodings of the primitive items *)

Definition enc_u64 (v : Z) : list byte := write_u64 [] v.
Definition enc_i64 (v : Z) : list byte := write_i64 [] v.
Definition enc_bytes (bs : list byte) : list byte := write_bytes [] bs.
Definition enc_text (s : text) : list byte := write_text [] s.
Definition enc_array_len (n : Z) : list byte := write_array_len [] n.
Definition enc_map_len (n : Z) : list byte := write_map_len [] n.
Definition enc_null : list byte := write_null [].

Lemma write_u64_app out v : write_u64 out v = out ++ enc_u64 v.
Proof. apply write_type_len_head. Qed.

Lemma write_i64_app out v : write_i64 out v = out ++ enc_i64 v.
Proof. unfold enc_i64, write_i64. case_if; apply write_type_len_head. Qed.

Lemma write_bytes_app out bs : write_bytes out bs = out ++ enc_bytes bs.
Proof. unfold enc_bytes, write_bytes. by rewrite write_type_len_head, <- app_assoc. Qed.

Lemma write_text_app out s : write_text out s = out ++ enc_text s.
Proof. unfold enc_text, write_text. by rewrite write_type_len_head, <- app_assoc. Qed.

Lemma write_array_len_app out n : write_array_len out n = out ++ enc_array_len n.
Proof. apply write_type_len_head. Qed.

Lemma write_map_len_app out n : write_map_len out n = out ++ enc_map_len n.
Proof. apply write_type_len_head. Qed.

Lemma write_null_app out : write_null out = out ++ enc_null.
Proof. done. Qed.

#[global] Arguments enc_u64 : simpl never.
#[global] Arguments enc_i64 : simpl never.
#[global] Arguments enc_bytes : simpl never.
#[global] Arguments enc_text : simpl never.
#[global] Arguments enc_array_len : simpl never.
#[global] Arguments enc_map_len : simpl never.
#[global] Arguments enc_null : simpl never.

Create Rewrite HintDb cbor.
#[export] Hint Rewrite write_u64_app write_i64_app write_bytes_app write_text_app
  write_array_len_app write_map_len_app write_null_app : cbor.

(** ** Decoders are complete *)

Lemma reads_len_for_major m v :
  0 <= m <= 7 -> is_u64 v -> reads (read_len_for_major m) (head m v) v.
Proof.
  intros Hm U. rewrite head_assoc by (unfold is_u64 in U; lia).
  eapply reads_bind; [apply reads_initial; [done|pose proof (additional_range v); unfold is_u64 in U; lia]|].
  simpl. eapply reads_bind_nil; [apply reads_lift; by rewrite Z.eqb_refl|].
  by apply reads_len.
Qed.

Lemma reads_u64 v : is_u64 v -> reads read_u64 (enc_u64 v) v.
Proof. intros. by apply (reads_len_for_major 0). Qed.

Lemma reads_array_len n : is_u64 n -> reads read_array_len (enc_array_len n) n.
Proof. intros. by apply reads_len_for_major. Qed.

Lemma reads_map_len n : is_u64 n -> reads read_map_len (enc_map_len n) n.
Proof. intros. by apply reads_len_for_major. Qed.

Lemma try_i64_ok v : is_i64 v -> try_i64 v = Some v.
Proof. unfold is_i64, try_i64. intros. case_if; [done|]. lia. Qed.

Lemma reads_i64 v : is_i64 v -> reads read_i64 (enc_i64 v) v.
Proof.
  unfold is_i64. intros I.
  assert (forall m w, 0 <= m <= 1 -> is_u64 w -> (if m =? 0 then w else -1 - w) = v ->
          reads read_i64 (head m w) v) as G.
  { intros m w Hm U E. rewrite head_assoc by (unfold is_u64 in U; lia).
    eapply reads_bind; [apply reads_initial; [lia|pose proof (additional_range w); unfold is_u64 in U; lia]|].
    simpl. eapply reads_bind_end; [by apply reads_len|].
    destruct (Z.eqb_spec m 0); [|destruct (Z.eqb_spec m 1); [|lia]];
      apply reads_lift; rewrite E, try_i64_ok by (unfold is_i64; lia); done. }
  unfold enc_i64, write_i64. destruct (Z.leb_spec 0 v); rewrite write_type_len_head; simpl.
  - apply G; unfold is_u64; simpl; lia.
  - rewrite Z.mod_small by lia. apply G; unfold is_u64; simpl; lia.
Qed.

Lemma reads_len_bounded m v maxlen :
  0 <= m <= 7 -> is_u64 v -> v <= maxlen ->
  reads (read_len_for_major_bounded m maxlen) (head m v) v.
Proof.
  intros. eapply reads_bind_end; [by apply reads_len_for_major|].
  assert ((v >? maxlen) = false) as -> by (rewrite Z.gtb_ltb; lia).
  eapply reads_bind_nil; [by apply reads_lift|]. apply reads_ret.
Qed.

Lemma reads_bytes_bounded bs maxlen :
  len bs <= maxlen -> len bs <= usize_max -> reads (read_bytes_bounded maxlen) (enc_bytes bs) bs.
Proof.
  intros. unfold enc_bytes, write_bytes. pose proof (len_nonneg bs).
  eapply reads_bind; [apply reads_len_bounded; unfold is_u64; lia|]. by apply reads_take.
Qed.

Lemma reads_text_bounded s maxlen :
  len s <= maxlen -> len s <= usize_max -> utf8_valid s = true ->
  reads (read_text_bounded maxlen) (enc_text s) s.
Proof.
  intros ? ? U. unfold enc_text, write_text. pose proof (len_nonneg s).
  eapply reads_bind; [apply reads_len_bounded; unfold is_u64; lia|].
  eapply reads_bind_end; [by apply reads_take|]. rewrite U.
  eapply reads_bind_nil; [by apply reads_lift|]. apply reads_ret.
Qed.

Lemma reads_null : reads read_null enc_null tt.
Proof. eapply reads_bind_end; [apply reads_byte|]. apply reads_ret. Qed.

#[export] Hint Resolve reads_u64 reads_i64 reads_array_len reads_map_len
  reads_bytes_bounded reads_text_bounded reads_null : codec.

(** ** Decoders are canonical *)

Lemma accepts_len_for_major m :
  accepts (read_len_for_major m) (fun v c => is_u64 v /\ c = head m v).
Proof.
  intros s l v s' V Eq. unfold read_len_for_major in Eq. inv_bind. b2p.
  subst. all_accepts. chunk.
  split; [done|]. rewrite head_assoc by (unfold is_u64 in *; lia). done.
Qed.
#[export] Hint Resolve accepts_len_for_major : codec.

Lemma accepts_u64 : accepts read_u64 (fun v c => is_u64 v /\ c = enc_u64 v).
Proof. apply (accepts_len_for_major 0). Qed.

Lemma accepts_array_len : accepts read_array_len (fun n c => is_u64 n /\ c = enc_array_len n).
Proof. apply accepts_len_for_major. Qed.

Lemma accepts_map_len : accepts read_map_len (fun n c => is_u64 n /\ c = enc_map_len n).
Proof. apply accepts_len_for_major. Qed.

Lemma try_i64_Some v w : try_i64 v = Some w <-> w = v /\ is_i64 v.
Proof.
  unfold try_i64, is_i64. destruct ((i64_min <=? v) && (v <=? i64_max)) eqn:B.
  - b2p. split; [intros [= <-]; lia|intros [-> _]; done].
  - split; [done|]. intros [-> ?]. lia.
Qed.

Lemma accepts_i64 : accepts read_i64 (fun v c => is_i64 v /\ c = enc_i64 v).
Proof.
  intros s l v s' V Eq. unfold read_i64 in Eq. inv_bind. rename z into m.
  assert (m = 0 \/ m = 1) as Hm.
  { destruct (Z.eqb_spec m 0); [by left|]. destruct (Z.eqb_spec m 1); [by right|]. discriminate. }
  destruct Hm as [-> | ->]; simpl in Eq; inv_bind;
    match goal with T : try_i64 _ = Some _ |- _ => apply try_i64_Some in T as [-> I] end;
    all_accepts; chunk; (split; [done|]); unfold is_u64, is_i64, enc_i64, write_i64 in *;
    match goal with U : 0 <= ?z <= u64_max |- _ => rename z into w end.
  - destruct (Z.leb_spec 0 w); [|lia]. rewrite write_type_len_head, head_assoc by lia. done.
  - destruct (Z.leb_spec 0 (-1 - w)); [lia|]. rewrite write_type_len_head.
    rewrite Z.mod_small by lia. replace (-1 - (-1 - w)) with w by lia.
    rewrite head_assoc by lia. done.
Qed.

Lemma accepts_len_bounded m maxlen :
  accepts (read_len_for_major_bounded m maxlen) (fun v c => is_u64 v /\ v <= maxlen /\ c = head m v).
Proof.
  intros s l v s' V Eq. unfold read_len_for_major_bounded in Eq. inv_bind. b2p. all_accepts. by chunk.
Qed.
#[export] Hint Resolve accepts_len_bounded : codec.

Lemma accepts_bytes_bounded maxlen :
  accepts (read_bytes_bounded maxlen) (fun bs c => len bs <= maxlen /\ c = enc_bytes bs).
Proof.
  intros s l bs s' V Eq. unfold read_bytes_bounded in Eq. inv_bind. step_accepts.
  destruct HR as (U & B & ->). unfold is_u64 in U. all_accepts. by chunk.
Qed.

Lemma accepts_text_bounded maxlen :
  accepts (read_text_bounded maxlen)
    (fun t c => len t <= maxlen /\ utf8_valid t = true /\ c = enc_text t).
Proof.
  intros s l t s' V Eq. unfold read_text_bounded in Eq. inv_bind. b2p. step_accepts.
  destruct HR as (U & B & ->). unfold is_u64 in U. all_accepts. by chunk.
Qed.

Lemma accepts_null : accepts read_null (fun _ c => c = enc_null).
Proof.
  intros s l t s' V Eq. unfold read_null in Eq. inv_bind. destruct (Z.eqb_spec (u8 b) 0xf6); inv_bind.
  all_accepts. chunk. by apply (f_equal to_u8) in e; rewrite to_u8_u8 in e; subst.
Qed.

#[export] Hint Resolve accepts_u64 accepts_i64 accepts_array_len accepts_map_len
  accepts_bytes_bounded accepts_text_bounded accepts_null : codec.

(** A null and a byte or text string start with different bytes, so
    [next_is_null] decides which of the two follows. *)
Lemma head_not_null m v rest r :
  0 <= m <= 5 -> is_u64 v -> view r (head m v ++ rest) -> next_is_null r = false.
Proof.
  intros Hm U V. rewrite head_assoc in V by (unfold is_u64 in U; lia). simpl in V.
  rewrite (view_next_null _ _ _ V).
  pose proof (additional_range (v)) as A. unfold is_u64 in U.
  rewrite lor_shiftl, u8_to_u8_small by lia. lia.
Qed.

Lemma null_view rest r : view r (enc_null ++ rest) -> next_is_null r = true.
Proof. intros V. by rewrite (view_next_null _ _ _ V). Qed.

(** A reader over exactly one encoding reads it and is finished; a finished
    reader has consumed the whole input. *)
Lemma reads_all {E A} (p : M Reader E A) enc a :
  reads p enc a -> len enc <= usize_max ->
  exists r, p (Reader_new enc) = Ok (a, r) /\ is_finished r = true.
Proof.
  intros P L. destruct (P (Reader_new enc) []) as (r & Eq & V).
  { rewrite app_nil_r. by apply view_new. }
  exists r. split; [done|]. by apply view_nil_finished.
Qed.

Lemma accepts_all {E A} (p : M Reader E A) Q bs a r :
  accepts p Q -> len bs <= usize_max ->
  p (Reader_new bs) = Ok (a, r) -> is_finished r = true -> Q a bs.
Proof.
  intros P L Eq F. destruct (P _ _ _ _ (view_new bs L) Eq) as (c & l & -> & V & H).
  rewrite (view_finished_nil _ _ V F), app_nil_r in *. done.
Qed.

(** Reads back a complete decode in the context with an [accepts] lemma. *)
Ltac whole_input lem :=
  match goal with
  | H : _ (Reader_new _) = Ok (_, _) |- _ =>
      eapply accepts_all in H; [|apply lem|unfold len in *; lia|assumption];
      cbv beta in H
  end.

(** Mapping the error of a reader changes neither what it reads nor what it
    accepts. *)
Lemma reads_mmap_err {E F A} (f : E -> F) (p : M Reader E A) enc a :
  reads p enc a -> reads (mmap_err f p) enc a.
Proof. intros P s rest V. destruct (P s rest V) as (s' & Eq & V'). exists s'. unfold mmap_err. by rewrite Eq. Qed.

Lemma accepts_mmap_err {E F A} (f : E -> F) (p : M Reader E A) Q :
  accepts p Q -> accepts (mmap_err f p) Q.
Proof.
  intros P s l a s' V Eq. unfold mmap_err, map_err in Eq.
  destruct (p s) as [[a' s1]|] eqn:Ep; [|discriminate]. inv_bind. eauto.
Qed.
#[export] Hint Resolve reads_mmap_err accepts_mmap_err : codec.

(** Encodings that [next_is_null] tells from a null. *)
Definition starts_item (e : list byte) : Prop :=
  exists m v t, e = head m v ++ t /\ 0 <= m <= 5 /\ is_u64 v.

Lemma starts_bytes bs : len bs <= usize_max -> starts_item (enc_bytes bs).
Proof. intros. exists 2, (len bs), bs. pose proof (len_nonneg bs). unfold is_u64. split_and!; [done|lia..]. Qed.

Lemma starts_text s : len s <= usize_max -> starts_item (enc_text s).
Proof. intros. exists 3, (len s), s. pose proof (len_nonneg s). unfold is_u64. split_and!; [done|lia..]. Qed.

Lemma starts_array_len n t : is_u64 n -> starts_item (enc_array_len n ++ t).
Proof. intros. exists 4, n, t. split_and!; [done|lia..|done]. Qed.

Lemma starts_map_len n t : is_u64 n -> starts_item (enc_map_len n ++ t).
Proof. intros. exists 5, n, t. split_and!; [done|lia..|done]. Qed.

Definition enc_or_null {A} (enc : A -> list byte) (o : option A) : list byte :=
  match o with
  | Some a => enc a
  | None => enc_null
  end.

Lemma reads_null_or {E A} (f : CborError -> E) (p : M Reader E A) enc o :
  (forall a, o = Some a -> starts_item (enc a) /\ reads p (enc a) a) ->
  reads (null_or f p) (enc_or_null enc o) o.
Proof.
  intros P s rest V. unfold null_or. destruct o as [a|]; cbn [enc_or_null] in V.
  - destruct (P a eq_refl) as [(m & v & t & Ea & Hm & U) Rp].
    assert (next_is_null s = false) as ->.
    { rewrite Ea, <- app_assoc in V. by eapply head_not_null. }
    revert s rest V. fold (reads (a <- p ;; mret (Some a)) (enc a) (Some a)).
    eapply reads_bind_end; [exact Rp|]. apply reads_ret.
  - rewrite (null_view _ _ V). revert s rest V. fold (reads (mmap_err f read_null ;; mret (@None A)) enc_null None).
    eapply reads_bind_end; [apply reads_mmap_err, reads_null|]. apply reads_ret.
Qed.

Lemma accepts_null_or {E A} (f : CborError -> E) (p : M Reader E A) Q :
  accepts p Q ->
  accepts (null_or f p) (fun o c => match o with Some a => Q a c | None => c = enc_null end).
Proof.
  intros P s l o s' V Eq. unfold null_or in Eq. case_if_in Eq; inv_bind; all_accepts; by chunk.
Qed.
#[export] Hint Resolve accepts_null_or : codec.

(** Lengths of the encodings: a head takes between one and nine bytes. *)
Lemma len_head_eq m v :
  len (head m v) = if v <=? 23 then 1 else if v <=? 0xff then 2
                   else if v <=? 0xffff then 3 else if v <=? 0xffffffff then 5 else 9.
Proof. unfold head, write_type_len. repeat case_if; autorewrite with len; done. Qed.

Lemma len_head m v : 1 <= len (head m v) <= 9.
Proof. rewrite len_head_eq. repeat case_if; lia. Qed.

Lemma len_enc_bytes bs : len (enc_bytes bs) = len (head 2 (len bs)) + len bs.
Proof. unfold enc_bytes, write_bytes. by rewrite write_type_len_head, len_app. Qed.

Lemma len_enc_text s : len (enc_text s) = len (head 3 (len s)) + len s.
Proof. unfold enc_text, write_text. by rewrite write_type_len_head, len_app. Qed.

Lemma enc_u64_head v : enc_u64 v = head 0 v.
Proof. done. Qed.
