(* ===== verification/Etag.v ===== *)
(** * Plaintext ETags (crates/rs3-types/src/etag.rs)

    An ETag is a part count (zero for an ordinary PUT) and an MD5 digest,
    stored as exactly twenty bytes. *)

From S2P Require Import Prelude.

Record ObjectEtag : Type := {
  digest : list byte;  (* Md5Digest: [u8; 16] *)
  parts : Z            (* u32 *)
}.

#[export] Instance ObjectEtag_eq_dec : EqDecision ObjectEtag.
Proof. solve_decision. Defined.

Inductive ObjectEtagError : Type := EtagInvalidEncoding | EtagInvalidPartCount.

Definition ETAG_ENCODED_BYTES : Z := 20.

Definition ObjectEtag_single (d : list byte) : ObjectEtag := {| digest := d; parts := 0 |}.

Definition ObjectEtag_multipart (d : list byte) (n : Z) : result ObjectEtagError ObjectEtag :=
  if negb ((1 <=? n) && (n <=? 10000)) then Err EtagInvalidPartCount
  else Ok {| digest := d; parts := n |}.

Definition ObjectEtag_part_count (e : ObjectEtag) : option Z :=
  if parts e =? 0 then None else Some (parts e).

Definition ObjectEtag_encode (e : ObjectEtag) : list byte := to_be_bytes 4 (parts e) ++ digest e.

(** [TryFrom<[u8; 20]>]. *)
Definition ObjectEtag_try_from (bytes : list byte) : result ObjectEtagError ObjectEtag :=
  let n := from_be_bytes (firstn 4 bytes) in
  let d := skipn 4 bytes in
  if n =? 0 then Ok (ObjectEtag_single d) else ObjectEtag_multipart d n.

Definition ObjectEtag_decode (bytes : list byte) : result ObjectEtagError ObjectEtag :=
  if len bytes =? ETAG_ENCODED_BYTES then ObjectEtag_try_from bytes else Err EtagInvalidEncoding.

(** The values the type can hold: its fields are private, so they come from
    its three constructors. *)
Definition wf_etag (e : ObjectEtag) : Prop :=
  length (digest e) = 16%nat /\ 0 <= parts e <= 10000.

Lemma ObjectEtag_single_wf d : length d = 16%nat -> wf_etag (ObjectEtag_single d).
Proof. unfold wf_etag. simpl. lia. Qed.

Lemma ObjectEtag_multipart_wf d n e : length d = 16%nat -> ObjectEtag_multipart d n = Ok e -> wf_etag e /\ ObjectEtag_part_count e = Some n.
Proof.
  unfold ObjectEtag_multipart. intros L. case_if; [done|]. b2p. intros. inv_bind.
  unfold wf_etag, ObjectEtag_part_count. simpl. destruct (Z.eqb_spec n 0); [lia|]. auto with lia.
Qed.

Lemma len_etag_encode e : wf_etag e -> len (ObjectEtag_encode e) = ETAG_ENCODED_BYTES.
Proof. intros [L P]. unfold ObjectEtag_encode. autorewrite with len. unfold len. by rewrite L. Qed.

Lemma etag_decode_encode e : wf_etag e -> ObjectEtag_decode (ObjectEtag_encode e) = Ok e.
Proof.
  intros W. pose proof (len_etag_encode e W) as Le. destruct W as [L P]. unfold ObjectEtag_decode.
  rewrite Le, Z.eqb_refl. unfold ObjectEtag_try_from, ObjectEtag_encode.
  rewrite take_app_length', drop_app_length' by (by rewrite length_to_be_bytes).
  rewrite from_to_be_bytes by (simpl; lia). destruct e as [d n]. simpl in *.
  destruct (Z.eqb_spec n 0); [by subst|]. unfold ObjectEtag_multipart. case_if; [lia|done].
Qed.

Lemma etag_decode_canonical bs e : ObjectEtag_decode bs = Ok e -> wf_etag e /\ ObjectEtag_encode e = bs.
Proof.
  unfold ObjectEtag_decode. case_if; [|done]. b2p. unfold ETAG_ENCODED_BYTES, len in Heqb. intros D.
  assert (length (skipn 4 bs) = 16%nat) as Ld by (rewrite length_drop; lia).
  assert (length (firstn 4 bs) = 4%nat) as Lt by (rewrite length_take; lia).
  unfold ObjectEtag_try_from in D.
  assert (wf_etag e /\ parts e = from_be_bytes (firstn 4 bs) /\ digest e = skipn 4 bs) as (W & Ep & Ed).
  { destruct (Z.eqb_spec (from_be_bytes (firstn 4 bs)) 0).
    - inv_bind. auto using ObjectEtag_single_wf.
    - pose proof (proj1 (ObjectEtag_multipart_wf _ _ _ Ld D)). unfold ObjectEtag_multipart in D.
      case_if_in D; [done|]. by inv_bind. }
  split; [done|]. unfold ObjectEtag_encode. rewrite Ep, Ed, to_from_be_bytes' by done. apply take_drop.
Qed.

(** ** Properties *)

(** The ETag codec is exact: [ObjectEtag::decode] returns an ETag for a
    byte string exactly when the ETag is well formed (a sixteen-byte digest and
    at most 10,000 parts) and the bytes are its encoding.  Encoding and decoding
    are inverse, and no second byte string decodes to the same ETag. *)
Theorem etag_codec_exact bs e :
  ObjectEtag_decode bs = Ok e <-> wf_etag e /\ bs = ObjectEtag_encode e.
Proof.
  split; [intros D; apply etag_decode_canonical in D; naive_solver|].
  intros [W ->]. by apply etag_decode_encode.
Qed.
