(* ===== verification/Checksum.v ===== *)
(** * Client checksum facts (crates/rs3-types/src/checksum.rs)

    Validated checksum metadata and its canonical CBOR encoding
    [[algorithm_tag, composite_parts_or_zero, raw_digest]]. *)

From S2P Require Import Prelude Text Cbor.

Inductive ChecksumAlgorithm : Type := Crc32 | Crc32c | Crc64Nvme | Sha1 | Sha256.

Definition digest_len (a : ChecksumAlgorithm) : Z :=
  match a with
  | Crc32 | Crc32c => 4
  | Crc64Nvme => 8
  | Sha1 => 20
  | Sha256 => 32
  end.

Inductive ChecksumType : Type :=
| FullObject
| Composite (n : Z).

Inductive ChecksumError : Type :=
| InvalidEncoding
| InvalidDigestLength
| InvalidPartCount
| UnsupportedType
| InvalidPartLength.

Record ObjectChecksum : Type := {
  algorithm : ChecksumAlgorithm;
  kind : ChecksumType;
  cdigest : list byte
}.

#[export] Instance ChecksumAlgorithm_eq_dec : EqDecision ChecksumAlgorithm.
Proof. solve_decision. Defined.
#[export] Instance ChecksumType_eq_dec : EqDecision ChecksumType.
Proof. solve_decision. Defined.
#[export] Instance ObjectChecksum_eq_dec : EqDecision ObjectChecksum.
Proof. solve_decision. Defined.

Definition MAX_ENCODED_BYTES : Z := 48.

Definition ObjectChecksum_new (a : ChecksumAlgorithm) (k : ChecksumType) (d : list byte) :
    result ChecksumError ObjectChecksum :=
  reject_if (negb (len d =? digest_len a)) InvalidDigestLength ;;?
  match k with
  | Composite n =>
      reject_if (negb ((1 <=? n) && (n <=? 10000))) InvalidPartCount ;;?
      reject_if (bool_decide (a = Crc64Nvme)) UnsupportedType
  | FullObject => Ok tt
  end ;;?
  Ok {| algorithm := a; kind := k; cdigest := d |}.

(** The wire tags of [ObjectChecksum_encode]. *)
Definition algorithm_tag (a : ChecksumAlgorithm) : Z :=
  match a with
  | Crc32 => 0
  | Crc32c => 1
  | Crc64Nvme => 2
  | Sha1 => 3
  | Sha256 => 4
  end.

Definition parts_field (k : ChecksumType) : Z :=
  match k with
  | FullObject => 0
  | Composite n => n
  end.

Definition ObjectChecksum_encode (c : ObjectChecksum) : list byte :=
  let out := write_array_len [] 3 in
  let out := write_u64 out (algorithm_tag (algorithm c)) in
  let out := write_u64 out (parts_field (kind c)) in
  write_bytes out (cdigest c).

(** [match reader.read_u64()? { 0 => Crc32, .. }]. *)
Definition algorithm_of_tag (t : Z) : result ChecksumError ChecksumAlgorithm :=
  if t =? 0 then Ok Crc32
  else if t =? 1 then Ok Crc32c
  else if t =? 2 then Ok Crc64Nvme
  else if t =? 3 then Ok Sha1
  else if t =? 4 then Ok Sha256
  else Err InvalidEncoding.

Definition kind_of_parts (n : Z) : result ChecksumError ChecksumType :=
  if n =? 0 then Ok FullObject
  else n' <-? ok_or (try_u32 n) InvalidPartCount ;; Ok (Composite n').

(** The fields read by [decode]; [From<CborError>] maps every CBOR error to
    [InvalidEncoding]. *)
Definition from_cbor {A} (m : M Reader CborError A) : M Reader ChecksumError A :=
  mmap_err (fun _ => InvalidEncoding) m.

Definition ObjectChecksum_decode_fields :
    M Reader ChecksumError (ChecksumAlgorithm * ChecksumType * list byte) :=
  n <- from_cbor read_array_len ;;
  lift (reject_if (negb (n =? 3)) InvalidEncoding) ;;
  tag <- from_cbor read_u64 ;;
  a <- lift (algorithm_of_tag tag) ;;
  p <- from_cbor read_u64 ;;
  k <- lift (kind_of_parts p) ;;
  d <- from_cbor (read_bytes_bounded (digest_len a)) ;;
  mret (a, k, d).

Definition ObjectChecksum_decode (bytes : list byte) : result ChecksumError ObjectChecksum :=
  reject_if (len bytes >? MAX_ENCODED_BYTES) InvalidEncoding ;;?
  '((a, k, d), r) <-? ObjectChecksum_decode_fields (Reader_new bytes) ;;
  reject_if (negb (is_finished r)) InvalidEncoding ;;?
  ObjectChecksum_new a k d.

(** The values the type can hold: exactly what [ObjectChecksum_new] returns. *)
Definition wf_checksum (c : ObjectChecksum) : Prop := ObjectChecksum_new (algorithm c) (kind c) (cdigest c) = Ok c.

Lemma checksum_new_wf a k d c :
  ObjectChecksum_new a k d = Ok c -> c = {| algorithm := a; kind := k; cdigest := d |} /\ wf_checksum c.
Proof.
  intros N. assert (c = {| algorithm := a; kind := k; cdigest := d |}) as ->; [|done].
  unfold ObjectChecksum_new in N. inv_bind. destruct k; by inv_bind.
Qed.

(** What validity says, branch by branch. *)
Lemma wf_checksum_iff c :
  wf_checksum c <->
  len (cdigest c) = digest_len (algorithm c)
  /\ match kind c with
     | FullObject => True
     | Composite n => 1 <= n <= 10000 /\ algorithm c <> Crc64Nvme
     end.
Proof.
  unfold wf_checksum, ObjectChecksum_new. destruct c as [a k d]. simpl. split.
  - intros N. inv_bind. b2p. split; [done|]. destruct k; [done|]. inv_bind. b2p. auto with lia.
  - intros [L K]. rewrite L, Z.eqb_refl. simpl. destruct k as [|n]; [done|].
    destruct K as [K1 K2]. rewrite (bool_decide_eq_false_2 (a = Crc64Nvme)) by done.
    simpl. unfold reject_if at 1. case_if; [b2p|done]. simpl in *. lia.
Qed.

Lemma checksum_encode_enc c :
  ObjectChecksum_encode c = enc_array_len 3 ++ enc_u64 (algorithm_tag (algorithm c))
             ++ enc_u64 (parts_field (kind c)) ++ enc_bytes (cdigest c).
Proof. unfold ObjectChecksum_encode. rewrite !write_bytes_app, !write_u64_app, <- !app_assoc. done. Qed.

Lemma algorithm_of_tag_ok a : algorithm_of_tag (algorithm_tag a) = Ok a.
Proof. by destruct a. Qed.

Lemma algorithm_of_tag_inv t a : algorithm_of_tag t = Ok a -> t = algorithm_tag a.
Proof. unfold algorithm_of_tag. repeat case_if; b2p; intros; by inv_bind. Qed.

Lemma kind_of_parts_ok c : wf_checksum c -> kind_of_parts (parts_field (kind c)) = Ok (kind c).
Proof.
  intros W. apply wf_checksum_iff in W as [_ K]. unfold kind_of_parts.
  destruct (kind c) as [|n]; [done|]. simpl. destruct (Z.eqb_spec n 0); [lia|].
  unfold try_u32. case_if; [done|lia].
Qed.

Lemma kind_of_parts_inv n k : 0 <= n -> kind_of_parts n = Ok k -> n = parts_field k.
Proof.
  intros N. unfold kind_of_parts. case_if; b2p; intros; inv_bind; [done|].
  unfold try_u32 in *. simpl. case_match; by inv_bind.
Qed.

Lemma digest_len_range a : 4 <= digest_len a <= 32.
Proof. destruct a; simpl; lia. Qed.

Lemma len_checksum_encode c :
  wf_checksum c -> 1 <= len (ObjectChecksum_encode c) <= MAX_ENCODED_BYTES.
Proof.
  intros W. apply wf_checksum_iff in W as [L K]. rewrite checksum_encode_enc. autorewrite with len.
  pose proof (digest_len_range (algorithm c)).
  rewrite (enc_u64_head (algorithm_tag _)), (enc_u64_head (parts_field _)), len_enc_bytes, L. change (len (enc_array_len 3)) with 1.
  rewrite !len_head_eq. unfold MAX_ENCODED_BYTES.
  destruct (kind c) as [|n], (algorithm c); simpl in *; repeat (case_if; b2p; try lia); lia.
Qed.

#[export] Hint Unfold from_cbor : codec.

Lemma reads_checksum_fields c :
  wf_checksum c -> reads ObjectChecksum_decode_fields (ObjectChecksum_encode c) (algorithm c, kind c, cdigest c).
Proof.
  intros W. pose proof (proj1 (wf_checksum_iff c) W) as [L K].
  pose proof (digest_len_range (algorithm c)). rewrite checksum_encode_enc.
  unfold ObjectChecksum_decode_fields, from_cbor.
  eapply reads_bind; [apply reads_mmap_err, reads_array_len; unfold is_u64; lia|].
  eapply reads_bind_nil; [by apply reads_lift|].
  eapply reads_bind; [apply reads_mmap_err, reads_u64; unfold is_u64; destruct (algorithm c); simpl; lia|].
  eapply reads_bind_nil; [apply reads_lift, algorithm_of_tag_ok|].
  eapply reads_bind.
  { apply reads_mmap_err, reads_u64. unfold is_u64. destruct (kind c); simpl in *; lia. }
  eapply reads_bind_nil; [by apply reads_lift, kind_of_parts_ok|].
  eapply reads_bind_end; [apply reads_mmap_err, reads_bytes_bounded; lia|]. apply reads_ret.
Qed.

Lemma accepts_checksum_fields :
  accepts ObjectChecksum_decode_fields (fun f c =>
    c = ObjectChecksum_encode {| algorithm := f.1.1; kind := f.1.2; cdigest := f.2 |}).
Proof.
  intros s l f s' V Eq. unfold ObjectChecksum_decode_fields, from_cbor in Eq. inv_bind. b2p. subst.
  fwd algorithm_of_tag_inv. all_accepts. unfold is_u64 in *.
  fwd kind_of_parts_inv; [|lia]. subst. chunk. by rewrite checksum_encode_enc.
Qed.

Lemma checksum_decode_encode c :
  wf_checksum c -> ObjectChecksum_decode (ObjectChecksum_encode c) = Ok c.
Proof.
  intros W. pose proof (len_checksum_encode c W) as B. unfold ObjectChecksum_decode, MAX_ENCODED_BYTES in *.
  assert ((len (ObjectChecksum_encode c) >? 48) = false) as -> by (rewrite Z.gtb_ltb; lia). simpl.
  destruct (reads_all _ _ _ (reads_checksum_fields c W)) as (r & -> & F); [lia|]. simpl.
  rewrite F. exact W.
Qed.

Lemma checksum_decode_canonical bs c :
  ObjectChecksum_decode bs = Ok c -> wf_checksum c /\ ObjectChecksum_encode c = bs.
Proof.
  intros D. unfold ObjectChecksum_decode, MAX_ENCODED_BYTES in D. inv_bind. b2p.
  apply checksum_new_wf in D as [-> W]. split; [done|]. symmetry.
  by whole_input accepts_checksum_fields.
Qed.

(** ** Properties *)

(** The checksum codec is exact: [ObjectChecksum::decode] returns a checksum
    for a byte string exactly when the checksum passes [ObjectChecksum::new]
    (digest length by algorithm, no composite for a full-object-only algorithm,
    a legal part count) and the bytes are its canonical CBOR encoding. *)
Theorem checksum_codec_exact bs c :
  ObjectChecksum_decode bs = Ok c <-> wf_checksum c /\ bs = ObjectChecksum_encode c.
Proof.
  split; [intros D; apply checksum_decode_canonical in D; naive_solver|].
  intros [W ->]. by apply checksum_decode_encode.
Qed.
