(* ===== verification/Completion.v ===== *)
(** * Multipart completion receipts (crates/rs3-index/src/completion.rs)

    The bounded authenticated results of accepted multipart completions: one
    receipt with its canonical CBOR encoding, and the map of the newest
    receipts, which is what makes a repeated completion idempotent. *)

From Stdlib Require Import Sorted Permutation.
From S2P Require Import Prelude Ord Text Types Cbor Etag Checksum.

Definition MAX_COMPLETION_RECEIPTS : Z := 1024.
Definition MAX_COMPLETION_RECEIPT_BYTES : Z := 2048.

Record CompletionReceipt : Type := {
  upload_id : list byte;         (* MultipartUploadId: [u8; 32] *)
  commit_sequence : Z;           (* Sequence: u64 *)
  selection_digest : list byte;  (* [u8; 32] *)
  attempts_digest : list byte;   (* [u8; 32] *)
  key : text;                    (* LogicalPath *)
  receipt_content_len : Z;       (* u64 *)
  receipt_etag : ObjectEtag;
  receipt_checksum : option ObjectChecksum
}.

#[export] Instance CompletionReceipt_eq_dec : EqDecision CompletionReceipt.
Proof. solve_decision. Defined.

Inductive CompletionReceiptError : Type := MkCompletionReceiptError.

(** The checksum clauses of [validate]: a full-object SHA cannot come from part
    digests, and a composite checksum covers exactly the ETag's parts. *)
Definition checksum_rejected (part_count : Z) (c : ObjectChecksum) : bool :=
  match algorithm c, kind c with
  | (Sha1 | Sha256), FullObject => true
  | _, _ => false
  end
  || match kind c with
     | Composite n => negb (n =? part_count)
     | FullObject => false
     end.

Definition CompletionReceipt_validate (r : CompletionReceipt) : result CompletionReceiptError unit :=
  part_count <-? ok_or (ObjectEtag_part_count (receipt_etag r)) MkCompletionReceiptError ;;
  reject_if
    ((commit_sequence r =? Sequence_ZERO)
     || (len (key r) >? 1024)
     || match receipt_checksum r with
        | Some c => checksum_rejected part_count c
        | None => false
        end) MkCompletionReceiptError.

Definition CompletionReceipt_encode (r : CompletionReceipt) :
    result CompletionReceiptError (list byte) :=
  CompletionReceipt_validate r ;;?
  let out := write_array_len [] 8 in
  let out := write_bytes out (upload_id r) in
  let out := write_u64 out (commit_sequence r) in
  let out := write_bytes out (selection_digest r) in
  let out := write_bytes out (attempts_digest r) in
  let out := write_text out (key r) in
  let out := write_u64 out (receipt_content_len r) in
  let out := write_bytes out (ObjectEtag_encode (receipt_etag r)) in
  let out := match receipt_checksum r with
             | Some c => write_bytes out (ObjectChecksum_encode c)
             | None => write_null out
             end in
  reject_if (len out >? MAX_COMPLETION_RECEIPT_BYTES) MkCompletionReceiptError ;;?
  Ok out.

(** [read_bytes_bounded(32)?.try_into()] for a 32-byte array. *)
Definition read_array32 : M Reader CborError (list byte) :=
  bs <- read_bytes_bounded 32 ;;
  lift (reject_if (negb (len bs =? 32)) Invalid) ;;
  mret bs.

(** The optional checksum at the end of a receipt. *)
Definition read_optional_checksum : M Reader CborError (option ObjectChecksum) :=
  null_or id
    (bs <- read_bytes_bounded MAX_ENCODED_BYTES ;;
     lift (map_err (fun _ => Invalid) (ObjectChecksum_decode bs))).

(** The fields read by the free function [decode]. *)
Definition decode_receipt_fields : M Reader CborError CompletionReceipt :=
  n <- read_array_len ;;
  lift (reject_if (negb (n =? 8)) Invalid) ;;
  upload_id <- read_array32 ;;
  commit_sequence <- read_u64 ;;
  selection_digest <- read_array32 ;;
  attempts_digest <- read_array32 ;;
  raw_key <- read_text_bounded 1024 ;;
  key <- lift (map_err (fun _ => Invalid) (LogicalPath_new raw_key)) ;;
  content_len <- read_u64 ;;
  raw_etag <- read_bytes_bounded ETAG_ENCODED_BYTES ;;
  etag <- lift (map_err (fun _ => Invalid) (ObjectEtag_decode raw_etag)) ;;
  checksum <- read_optional_checksum ;;
  mret {| upload_id := upload_id; commit_sequence := commit_sequence;
          selection_digest := selection_digest; attempts_digest := attempts_digest;
          key := key; receipt_content_len := content_len; receipt_etag := etag;
          receipt_checksum := checksum |}.

Definition decode_receipt (input : list byte) : result CborError CompletionReceipt :=
  '(receipt, r) <-? decode_receipt_fields (Reader_new input) ;;
  reject_if (negb (is_finished r)) Invalid ;;?
  map_err (fun _ => Invalid) (CompletionReceipt_validate receipt) ;;?
  Ok receipt.

Definition CompletionReceipt_decode (input : list byte) :
    result CompletionReceiptError CompletionReceipt :=
  reject_if (len input >? MAX_COMPLETION_RECEIPT_BYTES) MkCompletionReceiptError ;;?
  map_err (fun _ => MkCompletionReceiptError) (decode_receipt input).

(** ** The map of the newest receipts *)

(** [entries: BTreeMap<MultipartUploadId, CompletionReceipt>]. *)
Definition CompletionReceipts : Type := BTreeMap (list byte) CompletionReceipt.

Definition receipts_get (m : CompletionReceipts) (id : list byte) : option CompletionReceipt :=
  bt_get id m.

(** [iter]: the receipts in upload-id order. *)
Definition receipts_iter (m : CompletionReceipts) : list CompletionReceipt := map snd m.

Definition validate_insert (m : CompletionReceipts) (r : CompletionReceipt) :
    result CompletionReceiptError unit :=
  CompletionReceipt_validate r ;;?
  reject_if
    (match bt_get (upload_id r) m with
     | Some old => bool_decide (old <> r)
     | None => false
     end
     || existsb (fun old => (commit_sequence old =? commit_sequence r) && bool_decide (old <> r))
          (receipts_iter m)) MkCompletionReceiptError.

(** [Iterator::min_by_key]: the first element with the least key. *)
Fixpoint min_by_key {A} (f : A -> Z) (best : A) (l : list A) : A :=
  match l with
  | [] => best
  | a :: l' => min_by_key f (if f a <? f best then a else best) l'
  end.

Definition receipts_oldest (m : CompletionReceipts) : option (list byte) :=
  match receipts_iter m with
  | [] => None
  | r :: rs => Some (upload_id (min_by_key commit_sequence r rs))
  end.

Definition receipts_insert (m : CompletionReceipts) (r : CompletionReceipt) :
    result CompletionReceiptError CompletionReceipts :=
  validate_insert m r ;;?
  let m1 := bt_insert (upload_id r) r m in
  if len m1 >? MAX_COMPLETION_RECEIPTS then
    oldest <-? ok_or (receipts_oldest m1) MkCompletionReceiptError ;;
    Ok (bt_remove oldest m1)
  else Ok m1.

(** The loop of [from_snapshot]: previous id, sequences seen, entries built. *)
Fixpoint from_snapshot_loop (previous : option (list byte)) (sequences : BTreeSet Z)
    (entries : CompletionReceipts) (rs : list CompletionReceipt) :
    result CompletionReceiptError CompletionReceipts :=
  match rs with
  | [] => Ok entries
  | r :: rs' =>
      CompletionReceipt_validate r ;;?
      let '(fresh, sequences') := bs_insert (commit_sequence r) sequences in
      reject_if
        (match previous with
         | Some id => leb (upload_id r) id
         | None => false
         end || negb fresh) MkCompletionReceiptError ;;?
      from_snapshot_loop (Some (upload_id r)) sequences' (bt_insert (upload_id r) r entries) rs'
  end.

Definition receipts_from_snapshot (rs : list CompletionReceipt) :
    result CompletionReceiptError CompletionReceipts :=
  reject_if (len rs >? MAX_COMPLETION_RECEIPTS) MkCompletionReceiptError ;;?
  from_snapshot_loop None [] [] rs.

(** ** The receipt codec *)

(** What the Rust types guarantee of a receipt before [validate] looks at it. *)
Definition wf_receipt (r : CompletionReceipt) : Prop :=
  length (upload_id r) = 32%nat /\ is_u64 (commit_sequence r)
  /\ length (selection_digest r) = 32%nat /\ length (attempts_digest r) = 32%nat
  /\ wf_name (key r) /\ is_u64 (receipt_content_len r) /\ wf_etag (receipt_etag r)
  /\ match receipt_checksum r with Some c => wf_checksum c | None => True end.

Definition enc_optional_checksum : option ObjectChecksum -> list byte :=
  enc_or_null (fun c => enc_bytes (ObjectChecksum_encode c)).

Definition enc_receipt (r : CompletionReceipt) : list byte :=
  enc_array_len 8 ++ enc_bytes (upload_id r) ++ enc_u64 (commit_sequence r)
  ++ enc_bytes (selection_digest r) ++ enc_bytes (attempts_digest r) ++ enc_text (key r)
  ++ enc_u64 (receipt_content_len r) ++ enc_bytes (ObjectEtag_encode (receipt_etag r))
  ++ enc_optional_checksum (receipt_checksum r).

Lemma validate_key r : CompletionReceipt_validate r = Ok tt -> len (key r) <= 1024.
Proof. unfold CompletionReceipt_validate. intros. inv_bind. b2p. lia. Qed.

(** A valid receipt fits the whole-record limit, so encoding it never fails. *)
Lemma len_enc_receipt r :
  wf_receipt r -> len (key r) <= 1024 -> len (enc_receipt r) <= MAX_COMPLETION_RECEIPT_BYTES.
Proof.
  intros (L1 & U1 & L2 & L3 & N & U2 & WE & WC) K. unfold enc_receipt. autorewrite with len.
  rewrite !len_enc_bytes, len_enc_text, (enc_u64_head (commit_sequence r)),
    (enc_u64_head (receipt_content_len r)), (len_etag_encode _ WE).
  change (len (enc_array_len 8)) with 1. unfold ETAG_ENCODED_BYTES, MAX_COMPLETION_RECEIPT_BYTES.
  assert (len (upload_id r) = 32) as -> by (unfold len; lia).
  assert (len (selection_digest r) = 32) as -> by (unfold len; lia).
  assert (len (attempts_digest r) = 32) as -> by (unfold len; lia).
  pose proof (len_head 0 (commit_sequence r)). pose proof (len_head 0 (receipt_content_len r)).
  pose proof (len_head 3 (len (key r))). pose proof (len_head 2 32). pose proof (len_head 2 20).
  assert (len (enc_optional_checksum (receipt_checksum r)) <= 57); [|lia].
  destruct (receipt_checksum r) as [c|]; simpl; [|done]. rewrite len_enc_bytes.
  pose proof (len_checksum_encode c WC). unfold MAX_ENCODED_BYTES in *.
  pose proof (len_head 2 (len (ObjectChecksum_encode c))). lia.
Qed.

Lemma receipt_encode_enc r :
  wf_receipt r -> CompletionReceipt_validate r = Ok tt -> CompletionReceipt_encode r = Ok (enc_receipt r).
Proof.
  intros W Vd. unfold CompletionReceipt_encode. rewrite Vd. cbv beta iota zeta delta [rbind].
  assert (forall out, match receipt_checksum r with
                      | Some c => write_bytes out (ObjectChecksum_encode c)
                      | None => write_null out
                      end = out ++ enc_optional_checksum (receipt_checksum r)) as ->.
  { intros out. destruct (receipt_checksum r); simpl; autorewrite with cbor; done. }
  autorewrite with cbor. rewrite <- !app_assoc. rewrite app_nil_l.
  pose proof (len_enc_receipt r W (validate_key r Vd)) as B. fold (enc_receipt r).
  unfold reject_if. destruct (_ >? _) eqn:G; [|done]. b2p. lia.
Qed.

Lemma receipt_encode_inv r bs : CompletionReceipt_encode r = Ok bs -> CompletionReceipt_validate r = Ok tt.
Proof. unfold CompletionReceipt_encode. intros. by inv_bind. Qed.

Lemma reads_array32 bs : length bs = 32%nat -> reads read_array32 (enc_bytes bs) bs.
Proof.
  intros L. assert (len bs = 32) as E by (unfold len; lia).
  eapply reads_bind_end; [apply reads_bytes_bounded; lia|]. rewrite E.
  eapply reads_bind_nil; [by apply reads_lift|]. apply reads_ret.
Qed.

Lemma accepts_array32 : accepts read_array32 (fun bs c => length bs = 32%nat /\ c = enc_bytes bs).
Proof.
  intros s l a s' V Eq. unfold read_array32 in Eq. inv_bind. b2p. all_accepts. chunk.
  split; [unfold len in *; lia|done].
Qed.

Lemma reads_optional_checksum c :
  match c with Some c => wf_checksum c | None => True end ->
  reads read_optional_checksum (enc_optional_checksum c) c.
Proof.
  intros W. apply reads_null_or. intros c' ->. pose proof (len_checksum_encode c' W) as B.
  unfold MAX_ENCODED_BYTES in *. split; [apply starts_bytes; lia|].
  eapply reads_bind_end; [apply reads_bytes_bounded; lia|].
  apply reads_lift. by rewrite checksum_decode_encode.
Qed.

Lemma accepts_optional_checksum :
  accepts read_optional_checksum (fun c bs =>
    match c with Some c => wf_checksum c | None => True end /\ bs = enc_optional_checksum c).
Proof.
  eapply accepts_weaken.
  - apply (accepts_null_or _ _ (fun c bs => wf_checksum c /\ bs = enc_bytes (ObjectChecksum_encode c))).
    intros s l c s' V Eq. inv_bind. fwd checksum_decode_canonical. destruct_and?. all_accepts. by chunk.
  - intros [c|] bs; simpl; [done|by intros ->].
Qed.
#[export] Hint Resolve accepts_array32 accepts_optional_checksum : codec.

Lemma reads_receipt r :
  wf_receipt r -> len (key r) <= 1024 -> reads decode_receipt_fields (enc_receipt r) r.
Proof.
  intros (L1 & U1 & L2 & L3 & N & U2 & WE & WC) K. unfold enc_receipt, decode_receipt_fields.
  eapply reads_bind; [apply reads_array_len; unfold is_u64; lia|].
  eapply reads_bind_nil; [by apply reads_lift|].
  eapply reads_bind; [by apply reads_array32|].
  eapply reads_bind; [by apply reads_u64|].
  eapply reads_bind; [by apply reads_array32|].
  eapply reads_bind; [by apply reads_array32|].
  eapply reads_bind; [apply reads_text_bounded; [lia..|by apply is_name_utf8]|].
  eapply reads_bind_nil; [apply reads_lift; unfold LogicalPath_new; by rewrite validate_non_empty_ok|].
  eapply reads_bind; [by apply reads_u64|].
  eapply reads_bind; [apply reads_bytes_bounded; rewrite len_etag_encode by done; unfold ETAG_ENCODED_BYTES; lia|].
  eapply reads_bind_nil; [apply reads_lift; by rewrite etag_decode_encode|].
  eapply reads_bind_end; [by apply reads_optional_checksum|].
  destruct r. apply reads_ret.
Qed.

Lemma accepts_receipt :
  accepts decode_receipt_fields (fun r c => wf_receipt r /\ c = enc_receipt r).
Proof.
  intros s l r s' V Eq. unfold decode_receipt_fields in Eq. inv_bind. b2p. subst.
  fwd validate_non_empty_inv. fwd etag_decode_canonical. destruct_and?. subst.
  all_accepts. chunk. split; [|done]. unfold wf_receipt; simpl.
  split_and!; try done. by apply wf_name_intro.
Qed.

Lemma receipt_decode_encode r :
  wf_receipt r -> CompletionReceipt_validate r = Ok tt ->
  CompletionReceipt_decode (enc_receipt r) = Ok r.
Proof.
  intros W Vd. pose proof (validate_key r Vd) as K. pose proof (len_enc_receipt r W K) as B.
  unfold CompletionReceipt_decode, MAX_COMPLETION_RECEIPT_BYTES in *.
  assert ((len (enc_receipt r) >? 2048) = false) as -> by (rewrite Z.gtb_ltb; lia). simpl.
  unfold decode_receipt.
  destruct (reads_all _ _ _ (reads_receipt r W K)) as (s & -> & F); [lia|]. simpl.
  rewrite F. simpl. by rewrite Vd.
Qed.

Lemma receipt_decode_canonical bs r :
  CompletionReceipt_decode bs = Ok r ->
  wf_receipt r /\ CompletionReceipt_validate r = Ok tt /\ bs = enc_receipt r.
Proof.
  intros D. unfold CompletionReceipt_decode, MAX_COMPLETION_RECEIPT_BYTES, decode_receipt in D.
  inv_bind. b2p. whole_input accepts_receipt. destruct_and?. by split_and!.
Qed.

(** ** The receipts kept are the newest *)

(** Invariant of the map: sorted by id, every entry under its own id and valid,
    commit sequences pairwise distinct, and no more entries than the bound. *)
Record receipts_ok (m : CompletionReceipts) : Prop := {
  ro_wf : bt_wf m;
  ro_key : forall id r, In (id, r) m -> id = upload_id r /\ CompletionReceipt_validate r = Ok tt;
  ro_seq : forall r r', In r (receipts_iter m) -> In r' (receipts_iter m) ->
             commit_sequence r = commit_sequence r' -> r = r';
  ro_len : len m <= MAX_COMPLETION_RECEIPTS
}.

Lemma receipts_ok_empty : receipts_ok [].
Proof. split; try done. apply bt_wf_nil. Qed.

Lemma in_iter m r : receipts_ok m -> In r (receipts_iter m) <-> receipts_get m (upload_id r) = Some r.
Proof.
  intros O. unfold receipts_iter, receipts_get. rewrite in_map_iff. split.
  - intros ([id r'] & <- & I). simpl. destruct (ro_key _ O _ _ I) as [-> _].
    apply bt_in_get; [apply O|done].
  - intros G. apply bt_get_Some_in in G. by exists (upload_id r, r).
Qed.

Lemma min_by_key_spec {A} (f : A -> Z) best (l : list A) :
  In (min_by_key f best l) (best :: l)
  /\ (forall a, In a (best :: l) -> f (min_by_key f best l) <= f a).
Proof.
  revert best. induction l as [|a l IH]; intros best; cbn [min_by_key].
  { split; [by left|]. intros a [<-|[]]. lia. }
  destruct (IH (if f a <? f best then a else best)) as [I L]. split.
  - destruct I as [I|I]; [|by do 2 right]. rewrite <- I. case_if; [right; by left|by left].
  - intros b [<-|[<-|B]].
    + etransitivity; [apply L; by left|]. case_if; b2p; lia.
    + etransitivity; [apply L; by left|]. case_if; b2p; lia.
    + apply L. by right.
Qed.

(** Two receipts agree when neither identity nor sequence tells them apart. *)
Definition consistent (r r' : CompletionReceipt) : Prop :=
  (upload_id r = upload_id r' \/ commit_sequence r = commit_sequence r') -> r = r'.

Lemma validate_insert_ok m r :
  receipts_ok m -> CompletionReceipt_validate r = Ok tt ->
  (forall r', In r' (receipts_iter m) -> consistent r' r) -> validate_insert m r = Ok tt.
Proof.
  intros O Vd C. unfold validate_insert. rewrite Vd. simpl. unfold reject_if.
  destruct (_ || _) eqn:B; [|done]. exfalso. apply orb_true_iff in B as [B|B].
  - destruct (bt_get (upload_id r) m) as [old|] eqn:G; [|done]. b2p. apply B.
    apply C; [|left].
    + apply in_map_iff. exists (upload_id r, old). split; [done|]. by apply bt_get_Some_in.
    + by destruct (ro_key _ O _ _ (bt_get_Some_in _ _ _ G)).
  - apply existsb_exists in B as (old & I & B). b2p. apply H0. apply C; auto.
Qed.

Lemma validate_insert_inv m r :
  receipts_ok m -> validate_insert m r = Ok tt ->
  CompletionReceipt_validate r = Ok tt /\ forall r', In r' (receipts_iter m) -> consistent r' r.
Proof.
  intros O Vi. unfold validate_insert in Vi. inv_bind. apply orb_false_iff in Heqb as [B1 B2].
  split; [done|]. intros r' I [Ei|Es].
  - apply in_iter in I; [|done]. unfold receipts_get in I. rewrite Ei in I. rewrite I in B1.
    b2p. by apply dec_stable.
  - destruct (decide (r' = r)) as [|N]; [done|]. exfalso.
    rewrite <- not_true_iff_false in B2. apply B2. apply existsb_exists. exists r'.
    split; [done|]. rewrite Es, Z.eqb_refl. by apply bool_decide_eq_true_2.
Qed.

(** Adding a receipt to the map, before any eviction. *)
Lemma receipts_add m r :
  receipts_ok m -> validate_insert m r = Ok tt ->
  bt_wf (bt_insert (upload_id r) r m)
  /\ (forall id r', In (id, r') (bt_insert (upload_id r) r m) ->
        id = upload_id r' /\ CompletionReceipt_validate r' = Ok tt)
  /\ (forall r', In r' (receipts_iter (bt_insert (upload_id r) r m)) <-> r' = r \/ In r' (receipts_iter m))
  /\ (forall r1 r2, In r1 (receipts_iter (bt_insert (upload_id r) r m)) ->
        In r2 (receipts_iter (bt_insert (upload_id r) r m)) ->
        commit_sequence r1 = commit_sequence r2 -> r1 = r2).
Proof.
  intros O Vi. destruct (validate_insert_inv m r O Vi) as [Vd C].
  assert (bt_wf (bt_insert (upload_id r) r m)) as W by (apply bt_wf_insert, O).
  assert (forall id r', In (id, r') (bt_insert (upload_id r) r m) ->
            id = upload_id r' /\ CompletionReceipt_validate r' = Ok tt) as K.
  { intros id r' I. apply bt_in_insert in I as [[-> ->]|I]; [done|]. by apply (ro_key _ O). }
  assert (forall r', In r' (receipts_iter (bt_insert (upload_id r) r m)) <-> r' = r \/ In r' (receipts_iter m)) as E.
  { intros r'. unfold receipts_iter. rewrite !in_map_iff. split.
    - intros ([id x] & <- & I). apply bt_in_insert in I as [[-> ->]|I]; [by left|right; eauto].
    - intros [->|([id x] & <- & I)]; simpl.
      + exists (upload_id r, r). split; [done|]. apply bt_get_Some_in, bt_get_insert_eq.
      + destruct (ro_key _ O _ _ I) as [-> _]. exists (upload_id x, x). split; [done|].
        apply bt_get_Some_in. destruct (decide (upload_id x = upload_id r)) as [Eq|N].
        * rewrite (C x); [apply bt_get_insert_eq| |by left].
          apply in_map_iff. by exists (upload_id x, x).
        * rewrite bt_get_insert_ne by done. apply bt_in_get; [apply O|done]. }
  split_and!; try done.
  intros r1 r2 I1 I2 S. apply E in I1 as [->|I1], I2 as [->|I2]; try done.
  - symmetry. apply C; auto.
  - apply C; auto.
  - by apply (ro_seq _ O).
Qed.

(** What [insert] does: the new receipt joins, and past the bound the one with
    the least commit sequence leaves. *)
Lemma receipts_insert_spec m r :
  receipts_ok m -> validate_insert m r = Ok tt ->
  exists m', receipts_insert m r = Ok m' /\ receipts_ok m'
    /\ ((len (bt_insert (upload_id r) r m) <= MAX_COMPLETION_RECEIPTS
         /\ forall x, In x (receipts_iter m') <-> x = r \/ In x (receipts_iter m))
        \/ (MAX_COMPLETION_RECEIPTS < len (bt_insert (upload_id r) r m)
            /\ exists o, (o = r \/ In o (receipts_iter m))
               /\ (forall x, x = r \/ In x (receipts_iter m) -> commit_sequence o <= commit_sequence x)
               /\ len m' = len (bt_insert (upload_id r) r m) - 1
               /\ forall x, In x (receipts_iter m') <-> (x = r \/ In x (receipts_iter m)) /\ x <> o)).
Proof.
  intros O Vi. destruct (receipts_add m r O Vi) as (W & K & E & S).
  unfold receipts_insert. rewrite Vi. simpl. set (m1 := bt_insert (upload_id r) r m) in *.
  destruct (len m1 >? MAX_COMPLETION_RECEIPTS) eqn:B; b2p.
  2:{ exists m1. split; [done|]. split; [by split|]. left. auto. }
  unfold receipts_oldest.
  assert (In r (receipts_iter m1)) as Ir by (apply E; by left).
  destruct (receipts_iter m1) as [|r0 rs] eqn:It; [done|]. simpl.
  destruct (min_by_key_spec commit_sequence r0 rs) as [Io Lo]. rewrite <- It in Io, Lo, E, S.
  set (o := min_by_key commit_sequence r0 rs) in *.
  assert (bt_get (upload_id o) m1 = Some o) as Go.
  { unfold receipts_iter in Io. apply in_map_iff in Io as ([id x] & <- & I). simpl.
    destruct (K _ _ I) as [-> _]. by apply bt_in_get. }
  pose proof (bt_length_remove _ _ _ Go) as Lr.
  assert (forall x, In x (receipts_iter (bt_remove (upload_id o) m1)) <->
                    In x (receipts_iter m1) /\ x <> o) as E'.
  { intros x. unfold receipts_iter. rewrite !in_map_iff. split.
    - intros ([id y] & <- & I). simpl. split; [exists (id, y); eauto using bt_in_remove|].
      intros ->. pose proof (bt_in_remove _ _ _ I) as I'. destruct (K _ _ I') as [-> _].
      apply bt_in_get in I; [|by apply bt_wf_remove]. by rewrite bt_get_remove_eq in I.
    - intros [([id y] & <- & I) N]. simpl in *. destruct (K _ _ I) as [-> _].
      exists (upload_id y, y). split; [done|]. apply bt_get_Some_in.
      rewrite bt_get_remove_ne; [by apply bt_in_get|done|].
      intros Eq. apply N. apply bt_in_get in I; [|done]. congruence. }
  exists (bt_remove (upload_id o) m1). split; [done|]. split.
  - split.
    + by apply bt_wf_remove.
    + intros id x I. apply K. by apply bt_in_remove in I.
    + intros x y Ix Iy. apply E' in Ix as [Ix _], Iy as [Iy _]. by apply S.
    + pose proof (ro_len _ O). pose proof (bt_length_insert (upload_id r) r m) as L1.
      fold m1 in L1. unfold len in *. destruct (bt_get (upload_id r) m); lia.
  - right. split; [lia|]. exists o. split_and!.
    + by apply E.
    + intros x Ix. apply Lo. by apply E.
    + unfold len. lia.
    + intros x. rewrite E', E. done.
Qed.

Lemma receipts_insert_len m r m' :
  receipts_insert m r = Ok m' -> len (bt_insert (upload_id r) r m) <= MAX_COMPLETION_RECEIPTS ->
  len m' = len (bt_insert (upload_id r) r m).
Proof. unfold receipts_insert. intros Ei B. inv_bind. case_if_in Ei; b2p; [lia|]. by inv_bind. Qed.

(** [m] holds the newest of the receipts [all]. *)
Record newest (all : list CompletionReceipt) (m : CompletionReceipts) : Prop := {
  nw_ok : receipts_ok m;
  nw_sub : forall r, In r (receipts_iter m) -> In r all;
  nw_old : forall r r', In r (receipts_iter m) -> In r' all -> ~ In r' (receipts_iter m) ->
             commit_sequence r' < commit_sequence r;
  nw_full : len m = MAX_COMPLETION_RECEIPTS \/ forall r, In r all -> In r (receipts_iter m)
}.

Lemma newest_empty : newest [] [].
Proof. split; try done; [apply receipts_ok_empty|by right]. Qed.

Lemma newest_insert all m r :
  newest all m -> CompletionReceipt_validate r = Ok tt ->
  (forall r', In r' all -> consistent r' r) ->
  exists m', receipts_insert m r = Ok m' /\ newest (all ++ [r]) m'.
Proof.
  intros [O Sub Old Full] Vd C.
  assert (validate_insert m r = Ok tt) as Vi by (apply validate_insert_ok; auto).
  destruct (receipts_insert_spec m r O Vi) as (m' & Ei & O' & D). exists m'. split; [done|].
  pose proof (bt_length_insert (upload_id r) r m) as L1. pose proof (ro_len _ O) as L0.
  assert (forall x, In x (all ++ [r]) <-> In x all \/ x = r) as Ia.
  { intros x. rewrite in_app_iff. simpl. intuition congruence. }
  destruct D as [[B E]|(B & o & Io & Lo & Lm & E)].
  - split; [done|..].
    + intros x Ix. apply Ia. apply E in Ix as [->|Ix]; auto.
    + intros x y Ix Iy Ny. apply Ia in Iy. rewrite E in Ix, Ny.
      destruct Iy as [Iy| ->]; [|tauto].
      destruct Ix as [->|Ix]; [|apply Old; tauto].
      destruct Full as [Full|Full]; [|exfalso; apply Ny; right; auto].
      unfold len in *. destruct (bt_get (upload_id r) m) as [x|] eqn:G; [|lia].
      assert (In x (receipts_iter m)) as Ixm.
      { apply in_map_iff. exists (upload_id r, x). split; [done|]. by apply bt_get_Some_in. }
      destruct (ro_key _ O _ _ (bt_get_Some_in _ _ _ G)) as [Ei' _].
      assert (x = r) as -> by (apply C; auto). apply Old; tauto.
    + destruct Full as [Full|Full].
      * left. rewrite (receipts_insert_len m r m' Ei B). unfold len in *.
        destruct (bt_get (upload_id r) m); lia.
      * right. intros x Ix. apply E. apply Ia in Ix as [Ix|Ix]; auto.
  - assert (forall x, x = r \/ In x (receipts_iter m) -> commit_sequence x = commit_sequence o -> x = o) as Inj.
    { intros x [->|Ix] Es; destruct Io as [->|Io]; try done.
      - symmetry. apply C; auto.
      - apply C; auto.
      - by apply (ro_seq _ O). }
    split; [done|..].
    + intros x Ix. apply Ia. apply E in Ix as [[->|Ix] _]; auto.
    + intros x y Ix Iy Ny. apply E in Ix as [Ix Nx]. rewrite E in Ny.
      destruct (decide (y = o)) as [->|No].
      * specialize (Lo x Ix). destruct (Z.eq_dec (commit_sequence x) (commit_sequence o)); [|lia].
        destruct Nx. by apply Inj.
      * assert (y <> r /\ ~ In y (receipts_iter m)) as [Nr Nm] by tauto.
        apply Ia in Iy as [Iy|]; [|done].
        destruct Ix as [->|Ix]; [|by apply Old].
        destruct Io as [->|Io]; [done|]. specialize (Lo r (or_introl eq_refl)).
        pose proof (Old o y Io Iy Nm). lia.
    + left. pose proof (ro_len _ O'). lia.
Qed.

(** Inserts a history of receipts, in order. *)
Fixpoint insert_history (m : CompletionReceipts) (rs : list CompletionReceipt) :
    result CompletionReceiptError CompletionReceipts :=
  match rs with
  | [] => Ok m
  | r :: rs' => m' <-? receipts_insert m r ;; insert_history m' rs'
  end.

Lemma newest_history rs all m :
  newest all m ->
  (forall r, In r rs -> CompletionReceipt_validate r = Ok tt) ->
  (forall r r', In r (all ++ rs) -> In r' (all ++ rs) -> consistent r r') ->
  exists m', insert_history m rs = Ok m' /\ newest (all ++ rs) m'.
Proof.
  revert all m. induction rs as [|r rs IH]; intros all m N Vd C; simpl.
  { rewrite app_nil_r. eauto. }
  destruct (newest_insert all m r N) as (m1 & -> & N1).
  { apply Vd. by left. }
  { intros r' I. apply C; rewrite in_app_iff; simpl; auto. }
  simpl. destruct (IH (all ++ [r]) m1 N1) as (m' & -> & N').
  { intros x I. apply Vd. by right. }
  { rewrite <- app_assoc. exact C. }
  rewrite <- app_assoc in N'. eauto.
Qed.

(** ** Snapshots *)

(** Strictly increasing ids in list order. *)
Definition ids_sorted (rs : list CompletionReceipt) : Prop :=
  StronglySorted (fun a b => cmp (upload_id a) (upload_id b) = Lt) rs.

Lemma from_snapshot_loop_ok prev seqs m rs :
  bt_wf m -> bt_wf seqs ->
  (forall r, In r rs -> CompletionReceipt_validate r = Ok tt) ->
  ids_sorted rs ->
  (forall p r, prev = Some p -> In r rs -> cmp p (upload_id r) = Lt) ->
  (forall p r, In p m -> In r rs -> cmp p.1 (upload_id r) = Lt) ->
  (forall r, In r rs -> bs_mem (commit_sequence r) seqs = false) ->
  NoDup (map commit_sequence rs) ->
  from_snapshot_loop prev seqs m rs = Ok (m ++ map (fun r => (upload_id r, r)) rs).
Proof.
  revert prev seqs m. induction rs as [|r rs IH]; intros prev seqs m W Ws Vd Ids Hp Hm Hs D.
  { simpl. by rewrite app_nil_r. }
  cbn [from_snapshot_loop]. rewrite Vd by (by left). simpl.
  inversion Ids as [|? ? Ids' F]; subst. apply list.NoDup_cons in D as [Nr D].
  rewrite (Hs r) by (by left). simpl. rewrite orb_false_r.
  assert (match prev with Some id => leb (upload_id r) id | None => false end = false) as ->.
  { destruct prev as [p|]; [|done]. apply leb_gt, Hp; [done|by left]. }
  simpl. rewrite Forall_forall in F. rewrite IH.
  - rewrite bt_insert_snoc; [by rewrite <- app_assoc|].
    apply Forall_forall. intros p I. apply Hm; [done|by left].
  - by apply bt_wf_insert.
  - by apply bt_wf_insert.
  - intros x I. apply Vd. by right.
  - done.
  - intros p x [= <-] I. by apply F.
  - intros [id x] y I J. apply bt_in_insert in I as [[-> ->]|I]; [by apply F|].
    apply Hm; [done|by right].
  - intros x I. apply not_true_iff_false. intros M. apply (bs_mem_add _ _ seqs) in M as [M|M].
    + destruct Nr. apply list_elem_of_In. rewrite <- M. by apply in_map.
    + rewrite Hs in M by (by right). done.
  - done.
Qed.

(** The invariant makes the iteration order the snapshot order. *)
Lemma receipts_iter_sorted m : receipts_ok m -> ids_sorted (receipts_iter m).
Proof.
  intros O. pose proof (ro_wf _ O) as W. pose proof (ro_key _ O) as K. clear O.
  unfold ids_sorted, receipts_iter. induction W as [|[id r] m W IH F]; simpl; [constructor|].
  constructor; [apply IH; intros; apply K; by right|].
  rewrite Forall_map. rewrite Forall_forall in *. intros [id' r'] I. specialize (F _ I). simpl in *.
  destruct (K id r (or_introl eq_refl)) as [-> _].
  by destruct (K id' r' (or_intror I)) as [-> _].
Qed.

Lemma receipts_iter_pairs m :
  receipts_ok m -> map (fun r => (upload_id r, r)) (receipts_iter m) = m.
Proof.
  intros O. pose proof (ro_key _ O) as K. clear O. unfold receipts_iter.
  induction m as [|[id r] m IH]; simpl; [done|].
  destruct (K id r (or_introl eq_refl)) as [-> _]. f_equal. apply IH. intros. apply K. by right.
Qed.

Lemma snapshot_roundtrip m :
  receipts_ok m -> receipts_from_snapshot (receipts_iter m) = Ok m.
Proof.
  intros O. unfold receipts_from_snapshot.
  assert (len (receipts_iter m) = len m) as -> by apply len_map.
  pose proof (ro_len _ O) as L.
  assert ((len m >? MAX_COMPLETION_RECEIPTS) = false) as -> by (rewrite Z.gtb_ltb; lia). simpl.
  rewrite from_snapshot_loop_ok; try done.
  - simpl. by rewrite receipts_iter_pairs.
  - apply bt_wf_nil.
  - apply bt_wf_nil.
  - intros r I. apply in_map_iff in I as ([id x] & <- & I). by apply (ro_key _ O id).
  - by apply receipts_iter_sorted.
  - pose proof (receipts_iter_sorted m O) as S. pose proof (ro_seq _ O) as Q.
    induction S as [|r rs S IH F]; simpl; [constructor|].
    apply list.NoDup_cons. split; [|apply IH; intros; apply Q; try done; by right].
    intros I. apply list_elem_of_In, in_map_iff in I as (x & Es & I).
    rewrite Forall_forall in F. specialize (F x I).
    assert (x = r) as -> by (apply Q; [by right|by left|done]). by apply cmp_lt_irrefl in F.
Qed.

(** Two maps that hold the newest of the same receipts are equal. *)
Lemma receipts_iter_nodup m : receipts_ok m -> NoDup (receipts_iter m).
Proof.
  intros O. apply receipts_iter_sorted in O. unfold ids_sorted in O.
  induction O as [|r rs S IH F]; [constructor|]. apply list.NoDup_cons. split; [|done].
  rewrite list_elem_of_In. intros I. rewrite Forall_forall in F. by apply (cmp_lt_irrefl (upload_id r)), F.
Qed.

Lemma newest_sub all m m' r :
  newest all m -> newest all m' -> In r (receipts_iter m) -> In r (receipts_iter m').
Proof.
  intros N N' I. destruct (decide (r ∈ receipts_iter m')) as [E|E]; rewrite list_elem_of_In in E; [done|].
  exfalso. destruct (nw_full _ _ N') as [L'|A]; [|by apply E, A, (nw_sub _ _ N)].
  assert (length (receipts_iter m) <= length (receipts_iter m'))%nat as Le.
  { unfold receipts_iter, len in *. rewrite !length_map. pose proof (ro_len _ (nw_ok _ _ N)). unfold len in *. lia. }
  destruct (decide (Forall (fun x => x ∈ receipts_iter m) (receipts_iter m'))) as [F|F].
  - assert (incl (receipts_iter m) (receipts_iter m')) as Inc; [|by apply E, Inc].
    apply NoDup_length_incl; [|done|].
    + apply NoDup_ListNoDup, receipts_iter_nodup, N'.
    + intros x Ix. rewrite Forall_forall in F. apply list_elem_of_In, F. exact Ix.
  - apply not_Forall_Exists in F; [|intros x; apply _]. apply list.Exists_exists in F as (r' & I' & E').
    unfold compose in E'. cbv beta in E'. rewrite list_elem_of_In in I', E'.
    pose proof (nw_old _ _ N r r' I (nw_sub _ _ N' _ I') E').
    pose proof (nw_old _ _ N' r' r I' (nw_sub _ _ N _ I) E). lia.
Qed.

Lemma newest_unique all m m' : newest all m -> newest all m' -> m = m'.
Proof.
  intros N N'. pose proof (nw_ok _ _ N) as O. pose proof (nw_ok _ _ N') as O'.
  apply bt_ext; [apply O|apply O'|]. intros id.
  assert (forall m m' r, newest all m -> newest all m' -> bt_get id m = Some r -> bt_get id m' = Some r) as G.
  { clear. intros m m' r N N' G. destruct (ro_key _ (nw_ok _ _ N) _ _ (bt_get_Some_in _ _ _ G)) as [-> _].
    apply (in_iter m' r (nw_ok _ _ N')). apply (newest_sub all m); [done..|].
    by apply (in_iter m r (nw_ok _ _ N)). }
  destruct (bt_get id m) as [r|] eqn:G1; [symmetry; by apply (G m m')|].
  destruct (bt_get id m') as [r|] eqn:G2; [|done]. rewrite (G m' m r) in G1; done.
Qed.

Lemma newest_perm all all' m : Permutation all all' -> newest all m -> newest all' m.
Proof.
  intros P [O S Od F]. assert (forall r, In r all <-> In r all') as I.
  { intros r. split; apply Permutation_in; [done|by symmetry]. }
  split; [done|..]; setoid_rewrite <- I; done.
Qed.

(** ** Properties *)

(** The completion-receipt codec is exact: [CompletionReceipt::decode]
    returns a receipt for a byte string exactly when the receipt is well typed
    and [CompletionReceipt::encode] produces those bytes from it. *)
Theorem receipt_codec_exact bs r :
  CompletionReceipt_decode bs = Ok r <-> wf_receipt r /\ CompletionReceipt_encode r = Ok bs.
Proof.
  split.
  - intros D. apply receipt_decode_canonical in D as (W & Vd & ->). split; [done|].
    by apply receipt_encode_enc.
  - intros [W E]. pose proof (receipt_encode_inv r bs E) as Vd. rewrite (receipt_encode_enc r W Vd) in E. inv_bind. by apply receipt_decode_encode.
Qed.

(** Inserting any history of valid, mutually consistent receipts succeeds
    and keeps exactly the newest of them by commit sequence, at most 1,024. *)
Theorem receipts_keep_newest rs :
  (forall r, In r rs -> CompletionReceipt_validate r = Ok tt) ->
  (forall r r', In r rs -> In r' rs -> consistent r r') ->
  exists m, insert_history [] rs = Ok m /\ newest rs m.
Proof. intros Vd C. by apply (newest_history rs [] [] newest_empty). Qed.

(** The receipts kept do not depend on the order in which a set of valid,
    mutually consistent receipts arrives. *)
Theorem receipts_order_independent rs rs' :
  (forall r, In r rs -> CompletionReceipt_validate r = Ok tt) ->
  (forall r r', In r rs -> In r' rs -> consistent r r') ->
  Permutation rs rs' -> insert_history [] rs = insert_history [] rs'.
Proof.
  intros Vd C P. destruct (newest_history rs [] [] newest_empty) as (m & -> & N); [done..|].
  assert (forall r, In r rs' -> In r rs) as I by (intros r; apply Permutation_in; by symmetry).
  destruct (newest_history rs' [] [] newest_empty) as (m' & -> & N'); [auto..|].
  f_equal. apply (newest_unique rs m m' N). simpl in N'. by apply (newest_perm rs').
Qed.

(** A snapshot of the receipts, taken with [iter] and rebuilt with
    [from_snapshot], is the same map. *)
Theorem receipts_snapshot_roundtrip m :
  receipts_ok m -> receipts_from_snapshot (receipts_iter m) = Ok m.
Proof. apply snapshot_roundtrip. Qed.

(** Two receipts for the witnesses. *)
Definition sample_receipt (id : byte) (sequence : Z) : CompletionReceipt := {|
  upload_id := repeat id 32;
  commit_sequence := sequence;
  selection_digest := repeat x01 32;
  attempts_digest := repeat x02 32;
  key := repeat x61 3;
  receipt_content_len := 12;
  receipt_etag := {| digest := repeat x03 16; parts := 2 |};
  receipt_checksum := None |}.
Definition sample_receipts : list CompletionReceipt := [sample_receipt x01 5; sample_receipt x02 9].

Lemma sample_receipts_valid r : In r sample_receipts -> CompletionReceipt_validate r = Ok tt.
Proof. by intros [<-|[<-|[]]]. Qed.

Lemma sample_receipts_consistent r r' : In r sample_receipts -> In r' sample_receipts -> consistent r r'.
Proof. by intros [<-|[<-|[]]] [<-|[<-|[]]] [E|E]. Qed.

Lemma receipts_keep_newest_witness :
  exists m, insert_history [] sample_receipts = Ok m /\ newest sample_receipts m.
Proof.
  apply receipts_keep_newest; [apply sample_receipts_valid|apply sample_receipts_consistent].
Defined.

Lemma receipts_order_independent_witness :
  insert_history [] sample_receipts = insert_history [] (rev sample_receipts).
Proof.
  apply receipts_order_independent;
    [apply sample_receipts_valid|apply sample_receipts_consistent|apply Permutation_rev].
Defined.

Lemma receipts_snapshot_roundtrip_witness :
  exists m, receipts_get m (repeat x02 32) = Some (sample_receipt x02 9)
    /\ receipts_from_snapshot (receipts_iter m) = Ok m.
Proof.
  destruct (newest_history sample_receipts [] [] newest_empty) as (m & E & N);
    [apply sample_receipts_valid|apply sample_receipts_consistent|].
  exists m. split; [|apply receipts_snapshot_roundtrip, (nw_ok _ _ N)].
  vm_compute in E. injection E as <-. reflexivity.
Defined.
