(* ===== verification/Layout.v ===== *)
(** * Detached payload layout (crates/rs3-index/src/lib.rs, [PayloadLayout])

    The authenticated layout of a ciphertext-only detached payload, and the
    computation of its exact stored length.  The loop is shown to compute the
    closed form and to refuse exactly the malformed or overflowing layouts. *)

From S2P Require Import Prelude Text Types.

Definition MAX_PAYLOAD_PARTS : Z := 10000.

Record PayloadPart : Type := {
  part_number : Z;            (* u32 *)
  part_attempt_id : list byte; (* PayloadAttemptId: [u8; 32] *)
  part_plaintext_len : Z      (* u64 *)
}.

Record PayloadLayout : Type := {
  chunk_size : Z;             (* u64 *)
  plaintext_len : Z;          (* u64 *)
  layout_key_id : text;       (* KeyId *)
  carrier_id : list byte;     (* [u8; 32] *)
  layout_parts : list PayloadPart
}.

#[export] Instance PayloadPart_eq_dec : EqDecision PayloadPart.
Proof. solve_decision. Defined.
#[export] Instance PayloadLayout_eq_dec : EqDecision PayloadLayout.
Proof. solve_decision. Defined.

(** One pass over the parts with the running [previous], [plaintext] and
    [stored]. *)
Fixpoint stored_len_loop (chunk previous plaintext stored : Z) (ps : list PayloadPart) :
    option (Z * Z) :=
  match ps with
  | [] => Some (plaintext, stored)
  | p :: ps' =>
      if (part_number p <=? previous)
         || (part_number p >? MAX_PAYLOAD_PARTS)
         || (part_plaintext_len p =? 0) then None
      else
        match checked_add plaintext (part_plaintext_len p) with
        | None => None
        | Some plaintext' =>
            match checked_mul (div_ceil (part_plaintext_len p) chunk) PAYLOAD_AEAD_TAG_LEN with
            | None => None
            | Some tags =>
                match checked_add (part_plaintext_len p) tags with
                | None => None
                | Some part_stored =>
                    match checked_add stored part_stored with
                    | None => None
                    | Some stored' => stored_len_loop chunk (part_number p) plaintext' stored' ps'
                    end
                end
            end
        end
  end.

Definition PayloadLayout_stored_len (l : PayloadLayout) : option Z :=
  if (chunk_size l =? 0)
     || (chunk_size l >? 64 * 1024 * 1024)
     || (plaintext_len l =? 0)
     || (len (layout_parts l) =? 0)
     || (len (layout_parts l) >? MAX_PAYLOAD_PARTS)
     || (len (layout_key_id l) =? 0)
     || (len (layout_key_id l) >? 255) then None
  else
    match stored_len_loop (chunk_size l) 0 0 0 (layout_parts l) with
    | Some (plaintext, stored) => if plaintext =? plaintext_len l then Some stored else None
    | None => None
    end.

(** What the Rust types guarantee. *)
Definition wf_part (p : PayloadPart) : Prop :=
  is_u32 (part_number p) /\ length (part_attempt_id p) = 32%nat /\ is_u64 (part_plaintext_len p).

Definition wf_layout (l : PayloadLayout) : Prop :=
  is_u64 (chunk_size l) /\ is_u64 (plaintext_len l) /\ wf_name (layout_key_id l)
  /\ length (carrier_id l) = 32%nat /\ Forall wf_part (layout_parts l).

(** ** The closed form *)

(** Ciphertext bytes of a part: its plaintext and one tag per segment. *)
Definition part_stored (chunk : Z) (p : PayloadPart) : Z :=
  part_plaintext_len p + div_ceil (part_plaintext_len p) chunk * PAYLOAD_AEAD_TAG_LEN.

Definition sum_Z (l : list Z) : Z := fold_right Z.add 0 l.
Definition parts_plaintext (ps : list PayloadPart) : Z := sum_Z (map part_plaintext_len ps).
Definition parts_stored (chunk : Z) (ps : list PayloadPart) : Z := sum_Z (map (part_stored chunk) ps).

(** Part numbers strictly increase from above [previous] and stay in range;
    every part is non-empty. *)
Fixpoint parts_ordered (previous : Z) (ps : list PayloadPart) : Prop :=
  match ps with
  | [] => True
  | p :: ps' =>
      previous < part_number p <= MAX_PAYLOAD_PARTS /\ 0 < part_plaintext_len p
      /\ parts_ordered (part_number p) ps'
  end.

Lemma div_ceil_pos a b : 0 < a -> 0 < b -> 1 <= div_ceil a b.
Proof. intros. unfold div_ceil. apply Z.div_le_lower_bound; lia. Qed.

Lemma div_ceil_nonneg a b : 0 <= a -> 0 < b -> 0 <= div_ceil a b.
Proof. intros. unfold div_ceil. apply Z.div_pos; lia. Qed.

Lemma parts_plaintext_cons p ps : parts_plaintext (p :: ps) = part_plaintext_len p + parts_plaintext ps.
Proof. done. Qed.

Lemma parts_stored_cons chunk p ps :
  parts_stored chunk (p :: ps) = part_stored chunk p + parts_stored chunk ps.
Proof. done. Qed.

Lemma parts_sums_nonneg chunk ps :
  0 < chunk -> Forall wf_part ps -> 0 <= parts_plaintext ps <= parts_stored chunk ps.
Proof.
  intros C F. unfold parts_plaintext, parts_stored.
  induction F as [|p ps (_ & _ & U) F IH]; simpl; [lia|].
  unfold part_stored, PAYLOAD_AEAD_TAG_LEN, is_u64 in *.
  pose proof (div_ceil_nonneg (part_plaintext_len p) chunk). lia.
Qed.

Lemma stored_len_loop_iff chunk prev pl st ps r :
  0 < chunk -> 0 <= pl -> pl <= st -> st <= u64_max -> Forall wf_part ps ->
  stored_len_loop chunk prev pl st ps = Some r <->
  parts_ordered prev ps /\ st + parts_stored chunk ps <= u64_max
  /\ r = (pl + parts_plaintext ps, st + parts_stored chunk ps).
Proof.
  intros C. revert prev pl st. induction ps as [|p ps IH]; intros prev pl st P S B F.
  { unfold parts_plaintext, parts_stored. simpl. rewrite !Z.add_0_r.
    split; [intros [= <-]; auto with lia|intros (_ & _ & ->); done]. }
  inversion F as [|? ? Wp F']; subst. pose proof Wp as (Un & _ & Up). unfold is_u64, is_u32 in *.
  cbn [stored_len_loop parts_ordered]. rewrite parts_plaintext_cons, parts_stored_cons.
  pose proof (parts_sums_nonneg chunk ps C F') as N.
  pose proof (div_ceil_nonneg (part_plaintext_len p) chunk ltac:(lia) C) as Nd.
  assert (part_stored chunk p = part_plaintext_len p
            + div_ceil (part_plaintext_len p) chunk * PAYLOAD_AEAD_TAG_LEN) as Ep by done.
  unfold PAYLOAD_AEAD_TAG_LEN, checked_add, checked_mul in *.
  destruct (_ || _) eqn:G.
  { split; [done|]. intros (O & _). rewrite !orb_true_iff in G. exfalso.
    destruct G as [[G|G]|G]; b2p; lia. }
  b2p. repeat (case_if; cbv iota; b2p; [|split; [done|]; intros; lia]).
  rewrite IH by (try done; lia).
  replace (st + (part_plaintext_len p + div_ceil (part_plaintext_len p) chunk * 16))
    with (st + part_stored chunk p) by lia.
  rewrite <- !Z.add_assoc. split; intros (?&?&?); split_and!; try done; lia || tauto.
Qed.

(** A layout is well formed exactly when it has a stored length, which is then
    the closed form. *)
Definition layout_ok (l : PayloadLayout) : Prop :=
  0 < chunk_size l <= 64 * 1024 * 1024 /\ 0 < plaintext_len l
  /\ 1 <= len (layout_parts l) <= MAX_PAYLOAD_PARTS /\ 1 <= len (layout_key_id l) <= 255
  /\ parts_ordered 0 (layout_parts l)
  /\ plaintext_len l = parts_plaintext (layout_parts l)
  /\ parts_stored (chunk_size l) (layout_parts l) <= u64_max.

Lemma stored_len_iff l n :
  wf_layout l ->
  PayloadLayout_stored_len l = Some n <->
  layout_ok l /\ n = parts_stored (chunk_size l) (layout_parts l).
Proof.
  intros (Uc & Up & _ & _ & F). unfold is_u64 in *. unfold PayloadLayout_stored_len, layout_ok.
  pose proof (len_nonneg (layout_parts l)). pose proof (len_nonneg (layout_key_id l)).
  destruct (_ || _) eqn:G.
  { split; [done|]. intros (O & _). rewrite !orb_true_iff in G. exfalso.
    destruct_or?; b2p; lia. }
  b2p. destruct (stored_len_loop (chunk_size l) 0 0 0 (layout_parts l)) as [[pl st]|] eqn:E.
  - apply stored_len_loop_iff in E as (O & B & [= -> ->]); [|lia..|done].
    case_if; b2p.
    + split; [intros [= <-]; split_and!; auto with lia|intros (_ & ->); done].
    + split; [done|]. intros ((_ & _ & _ & _ & _ & Ep & _) & _). lia.
  - split; [done|]. intros ((_ & _ & _ & _ & O & _ & B) & _). exfalso.
    assert (stored_len_loop (chunk_size l) 0 0 0 (layout_parts l)
            = Some (0 + parts_plaintext (layout_parts l), 0 + parts_stored (chunk_size l) (layout_parts l))) as E'.
    { apply stored_len_loop_iff; auto with lia. }
    congruence.
Qed.

(** Every stored byte past the plaintext is a tag: sixteen per segment, at
    least one segment per part. *)
Lemma parts_stored_overhead chunk prev ps :
  0 < chunk -> parts_ordered prev ps ->
  parts_plaintext ps + PAYLOAD_AEAD_TAG_LEN * len ps <= parts_stored chunk ps.
Proof.
  intros C. revert prev. induction ps as [|p ps IH]; intros prev O; [done|].
  destruct O as (_ & P & O). specialize (IH _ O).
  rewrite len_cons, parts_plaintext_cons, parts_stored_cons.
  unfold part_stored, PAYLOAD_AEAD_TAG_LEN in *.
  pose proof (div_ceil_pos (part_plaintext_len p) chunk). lia.
Qed.

(** ** Properties *)

(** [PayloadLayout::stored_len] is total and exact: it returns a length
    exactly for the layouts that are within bounds, list their non-empty parts
    in strictly increasing part number, sum to the declared plaintext length and
    do not overflow, and the length is then the sum over the parts of the
    plaintext and one authentication tag per segment. *)
Theorem stored_len_exact l n :
  wf_layout l ->
  PayloadLayout_stored_len l = Some n <->
  layout_ok l /\ n = parts_stored (chunk_size l) (layout_parts l).
Proof. apply stored_len_iff. Qed.

(** A stored payload is longer than its plaintext by sixteen bytes for every
    segment, hence by at least sixteen bytes for every part. *)
Theorem stored_len_overhead l n :
  wf_layout l -> PayloadLayout_stored_len l = Some n ->
  plaintext_len l + PAYLOAD_AEAD_TAG_LEN * len (layout_parts l) <= n <= u64_max.
Proof.
  intros W S. apply stored_len_iff in S as [(C & _ & _ & _ & O & -> & B) ->]; [|done].
  split; [|done]. apply (parts_stored_overhead _ 0); [lia|done].
Qed.

(** A layout of two parts, one of them of more than one segment. *)
Definition sample_layout : PayloadLayout := {|
  chunk_size := 65536;
  plaintext_len := 70001;
  layout_key_id := repeat x6b 4;
  carrier_id := repeat x01 32;
  layout_parts :=
    [{| part_number := 1; part_attempt_id := repeat x02 32; part_plaintext_len := 70000 |};
     {| part_number := 3; part_attempt_id := repeat x03 32; part_plaintext_len := 1 |}] |}.

Lemma sample_layout_wf : wf_layout sample_layout.
Proof. repeat split; try done; repeat constructor; done. Qed.

Lemma stored_len_exact_witness :
  PayloadLayout_stored_len sample_layout = Some 70049 <->
  layout_ok sample_layout /\ 70049 = parts_stored 65536 (layout_parts sample_layout).
Proof. apply (stored_len_exact sample_layout 70049), sample_layout_wf. Defined.

Lemma stored_len_overhead_witness : 70001 + PAYLOAD_AEAD_TAG_LEN * 2 <= 70049 <= u64_max.
Proof. apply (stored_len_overhead sample_layout 70049); [apply sample_layout_wf|reflexivity]. Defined.
