(* ===== verification/Namespace.v ===== *)
(** * In-memory namespace index (crates/rs3-index/src/lib.rs)

    Three ordered maps that must agree: the live entries, the prefix tokens of
    each entry, and the members of each token.  The invariant [index_wf] says
    how they agree; two indexes that satisfy it and answer the same queries are
    equal ([index_ext]), so every operation is specified by what it does to the
    answers. *)

From Stdlib Require Import Sorted.
From S2P Require Import Prelude Ord Text Types Layout.

(** ** Data *)

Record V3PackCarrierReference : Type := {
  commit_key : text;
  commit_version_id : option text;
  body_digest : list byte;
  commit_stored_len : Z;
  carrier_pack_section_ordinal : Z;
  pack_offset : Z;
  pack_length : Z;
  carrier_pack_id : list byte;
  carrier_attempt_id : list byte;
  carrier_content_key_id : text;
  carrier_keyring_object_id : text;
  carrier_keyring_digest : list byte;
  carrier_record_count : Z
}.

Record V3PackRecordReference : Type := {
  ref_record_ordinal : Z;
  ref_record_offset : Z
}.

Record V3StandaloneStreamCarrierReference : Type := {
  stream_object_id : text;
  stream_version_id : option text;
  stream_object_digest : list byte;
  stream_stored_len : Z;
  stream_keyring_object_id : text;
  stream_keyring_digest : list byte;
  stream_payload_layout : PayloadLayout
}.

Inductive PayloadReference : Type :=
| V3PackSelf (pack_section_ordinal : Z) (pack_id attempt_id : list byte) (content_key_id : text)
    (keyring_envelope_object_id : text) (keyring_envelope_digest : list byte)
    (pack_record_count record_ordinal record_offset : Z)
| V3Pack (carrier : V3PackCarrierReference) (record : V3PackRecordReference)
| Pending
| V3StandaloneStream (carrier : V3StandaloneStreamCarrierReference).

Record NamespaceEntry : Type := {
  entry_namespace_key_id : text;
  entry_blind_key : text;
  entry_object_id : text;
  entry_object_version_id : option text;
  entry_payload_ref : option PayloadReference;
  entry_manifest_id : text;
  entry_content_len : Z;
  entry_modified_at_ms : Z;
  entry_generation : Z;
  entry_retention : option RetentionPolicy;
  entry_legal_hold : option LegalHoldStatus
}.

Record NamespaceIndex : Type := {
  entries : BTreeMap text NamespaceEntry;
  entry_prefixes : BTreeMap text (BTreeSet text);
  prefixes : BTreeMap text (BTreeSet text)
}.

Record NamespaceIndexKeySnapshot : Type := {
  snap_blind_key : text;
  snap_entry : option NamespaceEntry;
  snap_prefix_tokens : list text
}.

(** ** Operations *)

Definition NamespaceIndex_new : NamespaceIndex :=
  {| entries := []; entry_prefixes := []; prefixes := [] |}.

(** [prefixes.entry(token).or_default().insert(key)]. *)
Definition add_member (key : text) (ps : BTreeMap text (BTreeSet text)) (token : text) :
    BTreeMap text (BTreeSet text) :=
  bt_insert token (bs_add key (default [] (bt_get token ps))) ps.

(** One iteration of the loop of [remove_prefix_membership]: the token goes
    when its last member does. *)
Definition remove_member (key : text) (ps : BTreeMap text (BTreeSet text)) (token : text) :
    BTreeMap text (BTreeSet text) :=
  match bt_get token ps with
  | Some members =>
      let members := bt_remove key members in
      let ps := bt_insert token members ps in
      if len members =? 0 then bt_remove token ps else ps
  | None => ps
  end.

Definition remove_prefix_membership (idx : NamespaceIndex) (key : text) : NamespaceIndex :=
  match bt_get key (entry_prefixes idx) with
  | None => idx
  | Some tokens =>
      {| entries := entries idx;
         entry_prefixes := bt_remove key (entry_prefixes idx);
         prefixes := fold_left (remove_member key) (bs_to_list tokens) (prefixes idx) |}
  end.

Definition upsert (idx : NamespaceIndex) (entry : NamespaceEntry) (prefix_tokens : list text) :
    NamespaceIndex :=
  let key := entry_blind_key entry in
  let idx := remove_prefix_membership idx key in
  let prefix_set := bs_collect prefix_tokens in
  {| entries := bt_insert key entry (entries idx);
     entry_prefixes :=
       if negb (len prefix_set =? 0) then bt_insert key prefix_set (entry_prefixes idx)
       else entry_prefixes idx;
     prefixes := fold_left (add_member key) (bs_to_list prefix_set) (prefixes idx) |}.

Definition upsert_without_prefixes (idx : NamespaceIndex) (entry : NamespaceEntry) : NamespaceIndex :=
  upsert idx entry [].

Definition head (idx : NamespaceIndex) (key : text) : option NamespaceEntry :=
  bt_get key (entries idx).

Definition live_entries (idx : NamespaceIndex) : list NamespaceEntry := map snd (entries idx).

Definition prefix_tokens (idx : NamespaceIndex) (key : text) : list text :=
  match bt_get key (entry_prefixes idx) with
  | Some tokens => bs_to_list tokens
  | None => []
  end.

Definition snapshot_key (idx : NamespaceIndex) (key : text) : NamespaceIndexKeySnapshot :=
  {| snap_blind_key := key;
     snap_entry := bt_get key (entries idx);
     snap_prefix_tokens :=
       match bt_get key (entry_prefixes idx) with
       | Some tokens => bs_to_list tokens
       | None => []
       end |}.

(** [remove]: the entry first, then its prefix membership. *)
Definition remove (idx : NamespaceIndex) (key : text) : NamespaceIndex :=
  remove_prefix_membership
    {| entries := bt_remove key (entries idx);
       entry_prefixes := entry_prefixes idx;
       prefixes := prefixes idx |} key.

Definition restore_key (idx : NamespaceIndex) (snap : NamespaceIndexKeySnapshot) : NamespaceIndex :=
  let idx :=
    remove_prefix_membership
      {| entries := bt_remove (snap_blind_key snap) (entries idx);
         entry_prefixes := entry_prefixes idx;
         prefixes := prefixes idx |} (snap_blind_key snap) in
  match snap_entry snap with
  | Some entry => upsert idx entry (snap_prefix_tokens snap)
  | None => idx
  end.

Definition list_prefix (idx : NamespaceIndex) (token : text) : list NamespaceEntry :=
  match bt_get token (prefixes idx) with
  | Some members => omap (fun key => bt_get key (entries idx)) (bs_to_list members)
  | None => []
  end.

(** ** Multimaps

    [entry_prefixes] and [prefixes] are maps of sets that never hold an empty
    set; such a map is determined by the pairs it relates. *)

Definition rel (ps : BTreeMap text (BTreeSet text)) (a b : text) : bool :=
  bs_mem b (default [] (bt_get a ps)).

Definition mm_wf (ps : BTreeMap text (BTreeSet text)) : Prop :=
  bt_wf ps /\ forall a s, bt_get a ps = Some s -> bt_wf s /\ s <> [].

Lemma set_ext (s1 s2 : BTreeSet text) :
  bt_wf s1 -> bt_wf s2 -> (forall k, bs_mem k s1 = bs_mem k s2) -> s1 = s2.
Proof.
  intros W1 W2 M. apply bt_ext; [done..|]. intros k. specialize (M k). unfold bs_mem in M.
  by destruct (bt_get k s1) as [[]|], (bt_get k s2) as [[]|].
Qed.

Lemma set_nonempty (s : BTreeSet text) : bt_wf s -> s <> [] -> exists k, bs_mem k s = true.
Proof.
  destruct s as [|[k []] s]; [done|]. intros _ _. exists k. unfold bs_mem. simpl.
  by rewrite cmp_refl.
Qed.

Lemma mm_ext ps1 ps2 :
  mm_wf ps1 -> mm_wf ps2 -> (forall a b, rel ps1 a b = rel ps2 a b) -> ps1 = ps2.
Proof.
  intros [W1 N1] [W2 N2] R. apply bt_ext; [done..|]. intros a. specialize (R a). unfold rel in R.
  destruct (bt_get a ps1) as [s1|] eqn:G1, (bt_get a ps2) as [s2|] eqn:G2; simpl in R; [| | |done].
  - destruct (N1 _ _ G1), (N2 _ _ G2). f_equal. by apply set_ext.
  - destruct (N1 _ _ G1) as [W Ne]. destruct (set_nonempty _ W Ne) as [k K]. by rewrite R in K.
  - destruct (N2 _ _ G2) as [W Ne]. destruct (set_nonempty _ W Ne) as [k K]. by rewrite <- R in K.
Qed.

Lemma mm_inner_wf ps a : mm_wf ps -> bt_wf (default [] (bt_get a ps)).
Proof. intros [_ N]. destruct (bt_get a ps) eqn:G; [by destruct (N _ _ G)|constructor]. Qed.

Lemma mm_wf_nil : mm_wf [].
Proof. by split; [constructor|]. Qed.

Lemma mm_wf_insert ps a s : mm_wf ps -> bt_wf s -> s <> [] -> mm_wf (bt_insert a s ps).
Proof.
  intros [W N] Ws Ne. split; [auto with btree|]. intros a' s'.
  destruct (decide (a' = a)) as [->|D].
  - rewrite bt_get_insert_eq. intros [= <-]. done.
  - rewrite bt_get_insert_ne by done. apply N.
Qed.

Lemma mm_wf_remove ps a : mm_wf ps -> mm_wf (bt_remove a ps).
Proof.
  intros [W N]. split; [auto with btree|]. intros a' s'.
  destruct (decide (a' = a)) as [->|D]; [by rewrite bt_get_remove_eq|].
  rewrite bt_get_remove_ne by done. apply N.
Qed.

Lemma rel_insert ps a s a' b :
  rel (bt_insert a s ps) a' b = if decide (a' = a) then bs_mem b s else rel ps a' b.
Proof.
  unfold rel. case_decide as D; [subst; by rewrite bt_get_insert_eq|by rewrite bt_get_insert_ne].
Qed.

Lemma rel_remove ps a a' b :
  mm_wf ps -> rel (bt_remove a ps) a' b = if decide (a' = a) then false else rel ps a' b.
Proof.
  intros [W _]. unfold rel.
  case_decide as D; [subst; by rewrite bt_get_remove_eq|by rewrite bt_get_remove_ne].
Qed.

Lemma bs_mem_remove (k k' : text) s :
  bt_wf s -> bs_mem k (bt_remove k' s) = true <-> bs_mem k s = true /\ k <> k'.
Proof.
  intros W. unfold bs_mem. destruct (decide (k = k')) as [->|D].
  - rewrite bt_get_remove_eq by done. naive_solver.
  - rewrite bt_get_remove_ne by done. naive_solver.
Qed.

Lemma add_member_spec key ps token :
  mm_wf ps ->
  mm_wf (add_member key ps token)
  /\ forall t k, rel (add_member key ps token) t k = true <->
       rel ps t k = true \/ (t = token /\ k = key).
Proof.
  intros W. pose proof (mm_inner_wf ps token W) as Wi. unfold add_member. split.
  - apply mm_wf_insert; [done|by apply bs_wf_add|]. intros E.
    assert (bs_mem key (bs_add key (default [] (bt_get token ps))) = true) as M
      by (apply bs_mem_add; auto). by rewrite E in M.
  - intros t k. rewrite rel_insert. case_decide; [subst; rewrite bs_mem_add|]; unfold rel; naive_solver.
Qed.

Lemma remove_member_spec key ps token :
  mm_wf ps ->
  mm_wf (remove_member key ps token)
  /\ forall t k, rel (remove_member key ps token) t k = true <->
       rel ps t k = true /\ ~ (t = token /\ k = key).
Proof.
  intros W. unfold remove_member. destruct (bt_get token ps) as [s|] eqn:G.
  2: { split; [done|]. intros t k. split; [|tauto]. intros R. split; [done|].
       intros [-> ->]. unfold rel in R. by rewrite G in R. }
  pose proof (proj2 W _ _ G) as [Ws _].
  assert (forall t k, rel (bt_insert token (bt_remove key s) ps) t k = true <->
            rel ps t k = true /\ ~ (t = token /\ k = key)) as R.
  { intros t k. rewrite rel_insert. case_decide; [subst|naive_solver].
    rewrite bs_mem_remove by done. unfold rel. rewrite G. simpl. naive_solver. }
  case_if; b2p.
  - apply len_0_nil in Heqb. rewrite Heqb in *.
    assert (bt_remove token (bt_insert token [] ps) = bt_remove token ps) as ->.
    { destruct W as [W _]. apply bt_ext; [auto with btree..|]. intros a.
      destruct (decide (a = token)) as [->|]; [by rewrite !bt_get_remove_eq by auto with btree|].
      by rewrite !bt_get_remove_ne, bt_get_insert_ne by auto with btree. }
    split; [by apply mm_wf_remove|]. intros t k. rewrite <- R, rel_remove, rel_insert by done.
    by case_decide.
  - split; [|done]. apply mm_wf_insert; [done|auto with btree|]. intros E. by rewrite E in Heqb.
Qed.

(** The two loops. *)
Lemma add_members_spec key tokens ps :
  mm_wf ps ->
  mm_wf (fold_left (add_member key) tokens ps)
  /\ forall t k, rel (fold_left (add_member key) tokens ps) t k = true <->
       rel ps t k = true \/ (In t tokens /\ k = key).
Proof.
  revert ps. induction tokens as [|a l IH]; intros ps W; simpl; [naive_solver|].
  destruct (add_member_spec key ps a W) as [W1 R1]. destruct (IH _ W1) as [W2 R2].
  split; [done|]. intros t k. rewrite R2, R1. naive_solver.
Qed.

Lemma remove_members_spec key tokens ps :
  mm_wf ps ->
  mm_wf (fold_left (remove_member key) tokens ps)
  /\ forall t k, rel (fold_left (remove_member key) tokens ps) t k = true <->
       rel ps t k = true /\ ~ (In t tokens /\ k = key).
Proof.
  revert ps. induction tokens as [|a l IH]; intros ps W; simpl; [naive_solver|].
  destruct (remove_member_spec key ps a W) as [W1 R1]. destruct (IH _ W1) as [W2 R2].
  split; [done|]. intros t k. rewrite R2, R1. naive_solver.
Qed.

(** ** The invariant *)

Record index_wf (idx : NamespaceIndex) : Prop := {
  iw_entries : bt_wf (entries idx);
  iw_entry_prefixes : mm_wf (entry_prefixes idx);
  iw_prefixes : mm_wf (prefixes idx);
  (* entries are filed under their own key *)
  iw_key : forall k e, head idx k = Some e -> entry_blind_key e = k;
  (* the two prefix maps are converse relations *)
  iw_converse : forall k t, rel (entry_prefixes idx) k t = rel (prefixes idx) t k;
  (* only live entries have prefix tokens *)
  iw_live : forall k t, rel (entry_prefixes idx) k t = true -> is_Some (head idx k)
}.

(** The entry [k] is filed under the token [t]. *)
Definition has_prefix (idx : NamespaceIndex) (k t : text) : bool := rel (entry_prefixes idx) k t.

(** An index is determined by its answers. *)
Lemma index_ext idx1 idx2 :
  index_wf idx1 -> index_wf idx2 ->
  (forall k, head idx1 k = head idx2 k) ->
  (forall k t, has_prefix idx1 k t = true <-> has_prefix idx2 k t = true) -> idx1 = idx2.
Proof.
  intros [E1 F1 P1 _ C1 _] [E2 F2 P2 _ C2 _] Hh Hp.
  assert (forall k t, has_prefix idx1 k t = has_prefix idx2 k t) as Hp'
    by (intros; by apply eq_true_iff_eq).
  destruct idx1 as [e1 f1 p1], idx2 as [e2 f2 p2]. unfold has_prefix, head in *. simpl in *. f_equal.
  - by apply bt_ext.
  - by apply mm_ext.
  - apply mm_ext; [done..|]. intros a b. by rewrite <- C1, <- C2.
Qed.

Lemma index_wf_new : index_wf NamespaceIndex_new.
Proof. split; try done; try apply mm_wf_nil. constructor. Qed.

(** What [remove_prefix_membership] does to each map, from prefix maps that
    are converse relations. *)
Lemma remove_prefix_membership_spec idx key :
  mm_wf (entry_prefixes idx) -> mm_wf (prefixes idx) ->
  (forall k t, rel (entry_prefixes idx) k t = rel (prefixes idx) t k) ->
  let idx' := remove_prefix_membership idx key in
  entries idx' = entries idx /\ mm_wf (entry_prefixes idx') /\ mm_wf (prefixes idx')
  /\ (forall k t, rel (entry_prefixes idx') k t = true <-> has_prefix idx k t = true /\ k <> key)
  /\ (forall t k, rel (prefixes idx') t k = true <-> has_prefix idx k t = true /\ k <> key).
Proof.
  intros F P C idx'. unfold idx', remove_prefix_membership, has_prefix.
  destruct (bt_get key (entry_prefixes idx)) as [tokens|] eqn:G; simpl.
  - destruct (proj2 F _ _ G) as [Wt _].
    destruct (remove_members_spec key (bs_to_list tokens) _ P) as [P' R].
    split_and!; [done|by apply mm_wf_remove|done|..].
    + intros k t. rewrite rel_remove by done. case_decide; naive_solver.
    + intros t k. rewrite R, <- C, <- bs_mem_in by done. split; [|naive_solver].
      intros [H N]. split; [done|]. intros ->. apply N. unfold rel in H. rewrite G in H. done.
  - assert (forall t, rel (entry_prefixes idx) key t = false) as N by (intros; unfold rel; by rewrite G).
    split_and!; [done..| |]; intros a b; rewrite <- ?C.
    + split; [|tauto]. intros H. split; [done|]. intros ->. by rewrite N in H.
    + split; [|tauto]. intros H. split; [done|]. intros ->. by rewrite N in H.
Qed.

(** [upsert]: the invariant and the answers, from any index whose prefix maps
    agree. *)
Lemma upsert_spec idx entry tokens :
  bt_wf (entries idx) -> mm_wf (entry_prefixes idx) -> mm_wf (prefixes idx) ->
  (forall k t, rel (entry_prefixes idx) k t = rel (prefixes idx) t k) ->
  let idx' := upsert idx entry tokens in
  bt_wf (entries idx') /\ mm_wf (entry_prefixes idx') /\ mm_wf (prefixes idx')
  /\ (forall k, head idx' k = if decide (k = entry_blind_key entry) then Some entry else head idx k)
  /\ (forall k t, rel (entry_prefixes idx') k t = true <->
        if decide (k = entry_blind_key entry) then In t tokens else has_prefix idx k t = true)
  /\ (forall t k, rel (prefixes idx') t k = true <->
        if decide (k = entry_blind_key entry) then In t tokens else has_prefix idx k t = true).
Proof.
  intros E F P C idx'. set (key := entry_blind_key entry).
  destruct (remove_prefix_membership_spec idx key F P C) as (Re & Rf & Rp & Mf & Mp).
  set (s := bs_collect tokens).
  assert (bt_wf s) as Ws by apply bs_collect_wf.
  assert (forall t, bs_mem t s = true <-> In t tokens) as Ms
    by (intros t; unfold s; rewrite bs_mem_in by done; apply bs_collect_in).
  destruct (add_members_spec key (bs_to_list s) _ Rp) as [Ap Am].
  unfold idx', upsert. simpl. fold key s. split_and!; simpl.
  - rewrite Re. auto with btree.
  - case_if; [|done]. b2p. apply mm_wf_insert; [done..|]. by intros ->.
  - done.
  - intros k. unfold head. simpl. rewrite Re.
    case_decide as D; [subst; apply bt_get_insert_eq|by apply bt_get_insert_ne].
  - intros k t. case_if; b2p.
    + rewrite rel_insert. case_decide; [apply Ms|]. rewrite Mf. naive_solver.
    + rewrite Mf. case_decide; [|naive_solver]. rewrite <- Ms, (len_0_nil s) by done. naive_solver.
  - intros t k. rewrite Am, Mp, <- bs_mem_in, Ms by done. case_decide; naive_solver.
Qed.

Lemma index_wf_upsert idx entry tokens : index_wf idx -> index_wf (upsert idx entry tokens).
Proof.
  intros [E F P K C L]. destruct (upsert_spec idx entry tokens E F P C) as (E' & F' & P' & H' & Mf & Mp).
  split; [done..| | |].
  - intros k e. rewrite H'. case_decide; [naive_solver|apply K].
  - intros k t. apply eq_true_iff_eq. by rewrite Mf, Mp.
  - intros k t. rewrite Mf, H'. case_decide; [done|apply L].
Qed.

Lemma remove_spec idx key :
  index_wf idx ->
  index_wf (remove idx key)
  /\ (forall k, head (remove idx key) k = if decide (k = key) then None else head idx k)
  /\ (forall k t, has_prefix (remove idx key) k t = true <-> has_prefix idx k t = true /\ k <> key).
Proof.
  intros [E F P K C L]. unfold remove.
  set (idx0 := {| entries := bt_remove key (entries idx); entry_prefixes := _; prefixes := _ |}).
  destruct (remove_prefix_membership_spec idx0 key F P C) as (Re & Rf & Rp & Mf & Mp).
  assert (forall k, head (remove_prefix_membership idx0 key) k = if decide (k = key) then None else head idx k) as H'.
  { intros k. unfold head. rewrite Re. simpl. case_decide; [subst; by apply bt_get_remove_eq|by apply bt_get_remove_ne]. }
  split; [|done]. split; [rewrite Re; simpl; auto with btree|done|done| | |].
  - intros k e. rewrite H'. case_decide; [done|apply K].
  - intros k t. apply eq_true_iff_eq. by rewrite Mf, Mp.
  - intros k t. rewrite Mf, H'. intros [H N]. rewrite decide_False by done. by apply (L _ t).
Qed.

(** ** Histories *)

Inductive IndexOp : Type :=
| OpUpsert (entry : NamespaceEntry) (tokens : list text)
| OpRemove (key : text).

Definition op_key (o : IndexOp) : text :=
  match o with
  | OpUpsert e _ => entry_blind_key e
  | OpRemove k => k
  end.

Definition apply_op (idx : NamespaceIndex) (o : IndexOp) : NamespaceIndex :=
  match o with
  | OpUpsert e tokens => upsert idx e tokens
  | OpRemove k => remove idx k
  end.

Definition apply_ops (idx : NamespaceIndex) (ops : list IndexOp) : NamespaceIndex :=
  fold_left apply_op ops idx.

(** What an operation leaves under its key. *)
Definition op_entry (o : IndexOp) : option NamespaceEntry :=
  match o with
  | OpUpsert e _ => Some e
  | OpRemove _ => None
  end.
Definition op_tokens (o : IndexOp) : list text :=
  match o with
  | OpUpsert _ tokens => tokens
  | OpRemove _ => []
  end.

Lemma apply_op_spec idx o :
  index_wf idx ->
  index_wf (apply_op idx o)
  /\ (forall k, head (apply_op idx o) k = if decide (k = op_key o) then op_entry o else head idx k)
  /\ (forall k t, has_prefix (apply_op idx o) k t = true <->
        if decide (k = op_key o) then In t (op_tokens o) else has_prefix idx k t = true).
Proof.
  intros W. destruct o as [e tokens|key]; simpl.
  - split; [by apply index_wf_upsert|]. destruct W as [E F P K C L].
    by destruct (upsert_spec idx e tokens E F P C) as (_ & _ & _ & H' & Mf & _).
  - destruct (remove_spec idx key W) as (W' & H' & M). split_and!; [done..|].
    intros k t. rewrite M. case_decide; naive_solver.
Qed.

(** The last operation on a key. *)
Fixpoint last_op (k : text) (ops : list IndexOp) : option IndexOp :=
  match ops with
  | [] => None
  | o :: ops' =>
      match last_op k ops' with
      | Some o' => Some o'
      | None => if decide (k = op_key o) then Some o else None
      end
  end.

Lemma apply_ops_spec idx ops :
  index_wf idx ->
  index_wf (apply_ops idx ops)
  /\ (forall k, head (apply_ops idx ops) k =
        match last_op k ops with Some o => op_entry o | None => head idx k end)
  /\ (forall k t, has_prefix (apply_ops idx ops) k t = true <->
        match last_op k ops with Some o => In t (op_tokens o) | None => has_prefix idx k t = true end).
Proof.
  revert idx. induction ops as [|o ops IH]; intros idx W; simpl; [done|].
  destruct (apply_op_spec idx o W) as (W1 & H1 & M1).
  destruct (IH _ W1) as (W2 & H2 & M2). split; [done|]. split.
  - intros k. rewrite H2, H1. destruct (last_op k ops); [done|]. by case_decide.
  - intros k t. rewrite M2. destruct (last_op k ops); [done|]. rewrite M1. by case_decide.
Qed.

(** The tokens listed for a key are the set it was filed under, in order. *)
Lemma prefix_tokens_spec idx k (tokens : list text) :
  index_wf idx -> (forall t, has_prefix idx k t = true <-> In t tokens) ->
  prefix_tokens idx k = bs_to_list (bs_collect tokens).
Proof.
  intros W M. unfold prefix_tokens, has_prefix, rel in *.
  destruct W as [_ F _ _ _ _]. pose proof (mm_inner_wf _ k F) as Wi.
  assert (default [] (bt_get k (entry_prefixes idx)) = bs_collect tokens) as E.
  { apply set_ext; [done|apply bs_collect_wf|]. intros t. apply eq_true_iff_eq.
    rewrite M, bs_mem_in by apply bs_collect_wf. by rewrite bs_collect_in. }
  rewrite <- E. by destruct (bt_get k (entry_prefixes idx)).
Qed.

(** Rolling a key back to its snapshot. *)
Lemma restore_key_spec idx idx' k :
  index_wf idx -> index_wf idx' ->
  (forall k', k' <> k -> head idx' k' = head idx k') ->
  (forall k' t, k' <> k -> has_prefix idx' k' t = true <-> has_prefix idx k' t = true) ->
  restore_key idx' (snapshot_key idx k) = idx.
Proof.
  intros W W' Hh Hp. unfold restore_key, snapshot_key. simpl.
  change (remove_prefix_membership _ k) with (remove idx' k).
  destruct (remove_spec idx' k W') as (Wr & Hr & Mr).
  pose proof (iw_entry_prefixes _ W) as F. pose proof (mm_inner_wf _ k F) as Wi.
  destruct (bt_get k (entries idx)) as [e|] eqn:G.
  - assert (entry_blind_key e = k) as Ek by (by apply (iw_key _ W)). subst k.
    apply index_ext; [by apply index_wf_upsert|done|..];
      destruct Wr as [E1 F1 P1 K1 C1 L1];
      destruct (upsert_spec _ e (match bt_get (entry_blind_key e) (entry_prefixes idx) with
                                 | Some tokens => bs_to_list tokens | None => [] end) E1 F1 P1 C1)
        as (_ & _ & _ & Hu & Mu & _).
    + intros k'. rewrite Hu. case_decide as D; [subst; by unfold head|]. rewrite Hr, decide_False by done.
      by apply Hh.
    + intros k' t. unfold has_prefix at 1. rewrite Mu. case_decide as D; [subst|].
      * unfold has_prefix, rel. destruct (bt_get _ (entry_prefixes idx)) as [s|] eqn:G2; simpl; [|naive_solver].
        simpl in Wi. by rewrite bs_mem_in.
      * rewrite Mr. rewrite Hp by done. naive_solver.
  - apply index_ext; [done..| |].
    + intros k'. rewrite Hr. case_decide as D; [subst; by unfold head|]. by apply Hh.
    + intros k' t. rewrite Mr. destruct (decide (k' = k)) as [->|D]; [|rewrite Hp by done; tauto].
      split; [tauto|]. intros H. destruct (iw_live _ W _ _ H) as [e He]. unfold head in He. congruence.
Qed.

(** [list_prefix] against a filter of the live entries. *)
Lemma bt_wf_filter {V} (f : text * V -> bool) (m : BTreeMap text V) : bt_wf m -> bt_wf (List.filter f m).
Proof.
  induction m as [|[k v] m IH]; intros W; simpl; [done|]. apply bt_wf_cons in W as [W B].
  destruct (f (k, v)); [|auto]. apply bt_wf_cons. split; [auto|].
  apply Forall_forall. intros p Hp. apply filter_In in Hp as [Hp _].
  unfold bt_below in B. rewrite Forall_forall in B. auto.
Qed.

Lemma bt_wf_keys {V} (m : BTreeMap text V) : bt_wf m -> bt_wf (map (fun p => (p.1, tt)) m).
Proof.
  induction m as [|[k v] m IH]; intros W; simpl; [constructor|]. apply bt_wf_cons in W as [W B].
  apply bt_wf_cons. split; [auto|]. unfold bt_below in *. by rewrite Forall_map.
Qed.

Lemma omap_get_sub (m m' : BTreeMap text NamespaceEntry) :
  (forall k v, In (k, v) m' -> bt_get k m = Some v) ->
  omap (fun key => bt_get key m) (map fst m') = map snd m'.
Proof.
  induction m' as [|[k v] m' IH]; intros H; [done|]. simpl.
  rewrite (H k v) by (left; done). f_equal. apply IH. intros. apply H. by right.
Qed.

Lemma list_prefix_filter idx t :
  index_wf idx ->
  list_prefix idx t = map snd (List.filter (fun p => has_prefix idx p.1 t) (entries idx)).
Proof.
  intros W. pose proof W as [E F P K C L]. unfold list_prefix. pose proof (mm_inner_wf _ t P) as Wi.
  set (m := List.filter (fun p => has_prefix idx p.1 t) (entries idx)).
  assert (default [] (bt_get t (prefixes idx)) = map (fun p => (p.1, tt)) m) as Em.
  { assert (bt_wf (map (fun p => (p.1, tt)) m)) as Wm by (apply bt_wf_keys, bt_wf_filter, E).
    apply set_ext; [done..|]. intros k. apply eq_true_iff_eq.
    fold (rel (prefixes idx) t k). rewrite <- C. rewrite (bs_mem_in _ _ Wm). unfold bs_to_list.
    rewrite map_map, in_map_iff. unfold m. setoid_rewrite filter_In. simpl. split.
    - intros H. destruct (L _ _ H) as [e He]. exists (k, e). split; [done|]. split; [|done].
      by apply bt_get_Some_in.
    - by intros ([k' e] & <- & _ & H). }
  assert (omap (fun key => bt_get key (entries idx)) (bs_to_list (default [] (bt_get t (prefixes idx))))
          = map snd m) as G.
  { rewrite Em. unfold bs_to_list. rewrite map_map. simpl. apply omap_get_sub.
    unfold m. intros k v Hi. apply filter_In in Hi as [Hi _]. by apply bt_in_get. }
  destruct (bt_get t (prefixes idx)); [exact G|]. simpl in Em. by rewrite (map_eq_nil _ _ (eq_sym Em)).
Qed.

(** ** Properties *)

(** C36: After any history of upserts and removals the index satisfies its
    invariant, looks up the entry of the last operation on each key, lists the
    sorted set of tokens that operation gave, and lists live entries in
    blind-key order. *)
Theorem namespace_history ops k :
  let idx := apply_ops NamespaceIndex_new ops in
  index_wf idx
  /\ head idx k = match last_op k ops with Some o => op_entry o | None => None end
  /\ prefix_tokens idx k
     = bs_to_list (bs_collect (match last_op k ops with Some o => op_tokens o | None => [] end))
  /\ StronglySorted (fun p q => cmp p.1 q.1 = Lt) (entries idx).
Proof.
  intros idx. destruct (apply_ops_spec _ ops index_wf_new) as (W & H & M). fold idx in W, H, M.
  split_and!; [done|rewrite H; by destruct (last_op k ops)| |apply W].
  apply prefix_tokens_spec; [done|]. intros t. rewrite M. by destruct (last_op k ops).
Qed.

(** Listing a prefix token returns exactly the live entries filed under it,
    each once, in blind-key order. *)
Theorem list_prefix_exact ops t :
  let idx := apply_ops NamespaceIndex_new ops in
  list_prefix idx t = map snd (List.filter (fun p => has_prefix idx p.1 t) (entries idx)).
Proof.
  intros idx. apply list_prefix_filter. by destruct (apply_ops_spec _ ops index_wf_new).
Qed.

(** Rollback is exact: whatever staged mutations touch one key, restoring
    the snapshot of that key gives back the whole index as it was. *)
Theorem restore_key_exact history staged k :
  Forall (fun o => op_key o = k) staged ->
  let idx := apply_ops NamespaceIndex_new history in
  restore_key (apply_ops idx staged) (snapshot_key idx k) = idx.
Proof.
  intros F idx. destruct (apply_ops_spec _ history index_wf_new) as (W & _ & _). fold idx in W.
  destruct (apply_ops_spec idx staged W) as (W' & H & M).
  assert (forall k', k' <> k -> last_op k' staged = None) as L.
  { intros k' D. clear -F D. induction F as [|o l E F IH]; [done|]. simpl. by rewrite IH, decide_False by congruence. }
  apply restore_key_spec; [done..| |].
  - intros k' D. by rewrite H, L.
  - intros k' t D. by rewrite M, L.
Qed.

Definition sample_entry (k : text) : NamespaceEntry := {|
  entry_namespace_key_id := [x6e]; entry_blind_key := k; entry_object_id := [x6f];
  entry_object_version_id := None; entry_payload_ref := Some Pending; entry_manifest_id := [x6d];
  entry_content_len := 4; entry_modified_at_ms := 5; entry_generation := 6;
  entry_retention := None; entry_legal_hold := None |}.

Lemma restore_key_exact_witness :
  let idx := apply_ops NamespaceIndex_new [OpUpsert (sample_entry [x61]) [[x01]; [x02]]] in
  restore_key (apply_ops idx [OpUpsert (sample_entry [x61]) [[x03]]; OpRemove [x61]])
    (snapshot_key idx [x61]) = idx.
Proof.
  apply (restore_key_exact [OpUpsert (sample_entry [x61]) [[x01]; [x02]]]). repeat constructor.
Defined.
