(* ===== verification/Lru.v ===== *)
(** * Least-recently-used cache (crates/rs3-repository/src/lru.rs)

    A hash map of nodes that are linked by key in recency order, with the two
    ends of the list.  [represents c l] says that the links of [c] spell the
    association list [l], least recently used first; every operation is shown
    to act on the links as the evident operation acts on [l]. *)

From stdpp Require Import gmap.
From S2P Require Import Prelude.

Section Lru.
Context {K V : Type} `{Countable K}.

Record LruEntry : Type := {
  value : V;
  previous : option K;
  next : option K
}.

Record LruCache : Type := {
  lru_entries : gmap K LruEntry;
  lru_head : option K;
  lru_tail : option K
}.

Definition set_value (v : V) (e : LruEntry) : LruEntry :=
  {| value := v; previous := previous e; next := next e |}.
Definition set_previous (p : option K) (e : LruEntry) : LruEntry :=
  {| value := value e; previous := p; next := next e |}.
Definition set_next (n : option K) (e : LruEntry) : LruEntry :=
  {| value := value e; previous := previous e; next := n |}.

(** [if let Some(entry) = entries.get_mut(k) { f(entry) }] *)
Definition modify (f : LruEntry -> LruEntry) (k : K) (c : LruCache) : LruCache :=
  {| lru_entries := alter f k (lru_entries c); lru_head := lru_head c; lru_tail := lru_tail c |}.
Definition set_head (h : option K) (c : LruCache) : LruCache :=
  {| lru_entries := lru_entries c; lru_head := h; lru_tail := lru_tail c |}.
Definition set_tail (t : option K) (c : LruCache) : LruCache :=
  {| lru_entries := lru_entries c; lru_head := lru_head c; lru_tail := t |}.

(** ** Operations *)

Definition LruCache_new : LruCache :=
  {| lru_entries := ∅; lru_head := None; lru_tail := None |}.

Definition LruCache_len (c : LruCache) : Z := Z.of_nat (size (lru_entries c)).

Definition peek_cloned (c : LruCache) (key : K) : option V := value <$> lru_entries c !! key.

Definition detach (c : LruCache) (key : K) : LruCache :=
  match lru_entries c !! key with
  | None => c
  | Some entry =>
      let previous := previous entry in
      let next := next entry in
      let c :=
        match previous with
        | Some previous => modify (set_next next) previous c
        | None => set_head next c
        end in
      let c :=
        match next with
        | Some next => modify (set_previous previous) next c
        | None => set_tail previous c
        end in
      modify (fun e => set_next None (set_previous None e)) key c
  end.

Definition push_back_existing (c : LruCache) (key : K) : LruCache :=
  let previous := lru_tail c in
  let c :=
    match previous with
    | Some previous => modify (set_next (Some key)) previous c
    | None => set_head (Some key) c
    end in
  let c := modify (fun e => set_next None (set_previous previous e)) key c in
  set_tail (Some key) c.

Definition touch (c : LruCache) (key : K) : LruCache :=
  match lru_entries c !! key with
  | None => c
  | Some _ =>
      if bool_decide (lru_tail c = Some key) then c
      else push_back_existing (detach c key) key
  end.

Definition LruCache_insert (c : LruCache) (key : K) (v : V) : option V * LruCache :=
  match lru_entries c !! key with
  | Some entry => (Some (value entry), touch (modify (set_value v) key c) key)
  | None =>
      let previous := lru_tail c in
      let entry := {| value := v; previous := previous; next := None |} in
      let c :=
        match previous with
        | Some previous => modify (set_next (Some key)) previous c
        | None => set_head (Some key) c
        end in
      let c := set_tail (Some key) c in
      (None, {| lru_entries := <[key := entry]> (lru_entries c);
                lru_head := lru_head c; lru_tail := lru_tail c |})
  end.

Definition pop_lru (c : LruCache) : option (K * V) * LruCache :=
  match lru_head c with
  | None => (None, c)
  | Some key =>
      let c := detach c key in
      ((fun entry => (key, value entry)) <$> lru_entries c !! key,
       {| lru_entries := delete key (lru_entries c); lru_head := lru_head c; lru_tail := lru_tail c |})
  end.

(** ** The recency list *)

Definition first_key (l : list (K * V)) (n : option K) : option K :=
  match l with
  | [] => n
  | (k, _) :: _ => Some k
  end.

Fixpoint last_key (p : option K) (l : list (K * V)) : option K :=
  match l with
  | [] => p
  | (k, _) :: l' => last_key (Some k) l'
  end.

(** The node of [x] in the segment [l] between the neighbours [p] and [n]. *)
Fixpoint node_of (p : option K) (l : list (K * V)) (n : option K) (x : K) : option LruEntry :=
  match l with
  | [] => None
  | (k, v) :: l' =>
      if decide (x = k) then Some {| value := v; previous := p; next := first_key l' n |}
      else node_of (Some k) l' n x
  end.

Record represents (c : LruCache) (l : list (K * V)) : Prop := {
  rep_nodup : NoDup l.*1;
  rep_nodes : forall x, lru_entries c !! x = node_of None l None x;
  rep_head : lru_head c = first_key l None;
  rep_tail : lru_tail c = last_key None l
}.

(** The same operations on the list. *)
Fixpoint list_get (l : list (K * V)) (key : K) : option V :=
  match l with
  | [] => None
  | (k, v) :: l' => if decide (key = k) then Some v else list_get l' key
  end.
Definition list_without (l : list (K * V)) (key : K) : list (K * V) :=
  List.filter (fun p => negb (bool_decide (p.1 = key))) l.
Definition list_touch (l : list (K * V)) (key : K) : list (K * V) :=
  match list_get l key with
  | None => l
  | Some v => list_without l key ++ [(key, v)]
  end.
Definition list_insert (l : list (K * V)) (key : K) (v : V) : list (K * V) :=
  list_without l key ++ [(key, v)].
Definition list_pop (l : list (K * V)) : option (K * V) * list (K * V) :=
  match l with
  | [] => (None, [])
  | p :: l' => (Some p, l')
  end.

(** ** Segments *)

Lemma first_key_app l1 l2 n : first_key (l1 ++ l2) n = first_key l1 (first_key l2 n).
Proof. by destruct l1 as [|[k v] l1]. Qed.

Lemma last_key_app p l1 l2 : last_key p (l1 ++ l2) = last_key (last_key p l1) l2.
Proof. revert p. induction l1 as [|[k v] l1 IH]; intros p; simpl; [done|]. apply IH. Qed.

Lemma last_key_Some k l : is_Some (last_key (Some k) l).
Proof. revert k. induction l as [|[k' v] l IH]; intros k; simpl; [done|apply IH]. Qed.

Lemma last_key_in p l x : last_key p l = Some x -> x ∈ l.*1 \/ (l = [] /\ p = Some x).
Proof.
  revert p. induction l as [|[k v] l IH]; intros p; simpl; [auto|]. intros L.
  destruct (IH _ L) as [I|[-> [= ->]]]; left; set_solver.
Qed.

Lemma first_key_in l n x : first_key l n = Some x -> x ∈ l.*1 \/ (l = [] /\ n = Some x).
Proof. destruct l as [|[k v] l]; simpl; [auto|]. intros [= ->]. left. set_solver. Qed.

Lemma node_of_None p l n x : x ∉ l.*1 -> node_of p l n x = None.
Proof.
  revert p. induction l as [|[k v] l IH]; intros p I; simpl; [done|].
  rewrite decide_False by set_solver. apply IH. set_solver.
Qed.

Lemma node_of_Some p l n x : x ∈ l.*1 -> is_Some (node_of p l n x).
Proof.
  revert p. induction l as [|[k v] l IH]; intros p I; simpl; [set_solver|].
  case_decide; [done|]. apply IH. set_solver.
Qed.

Lemma node_of_app p l1 l2 n x :
  node_of p (l1 ++ l2) n x =
  match node_of p l1 (first_key l2 n) x with
  | Some e => Some e
  | None => node_of (last_key p l1) l2 n x
  end.
Proof.
  revert p. induction l1 as [|[k v] l1 IH]; intros p; simpl; [done|].
  case_decide; [by rewrite first_key_app|]. apply IH.
Qed.

(** Replacing a neighbour of a segment changes the node at that end. *)
Lemma node_of_set_next p l n n' x :
  NoDup l.*1 ->
  (if decide (last_key None l = Some x) then set_next n' <$> node_of p l n x else node_of p l n x)
  = node_of p l n' x.
Proof.
  revert p. induction l as [|[k v] l IH]; intros p ND; [done|].
  cbn [fmap list_fmap fst] in ND. apply list.NoDup_cons in ND as [I ND]. simpl.
  destruct l as [|[k2 v2] l].
  { simpl. destruct (decide (x = k)) as [->|]; repeat case_decide; simplify_eq; done. }
  destruct (decide (x = k)) as [->|D].
  - rewrite decide_False; [done|]. intros L. apply last_key_in in L as [L|[? _]]; [done|discriminate].
  - apply (IH (Some k) ND).
Qed.

Lemma node_of_set_previous p p' l n x :
  (if decide (first_key l None = Some x) then set_previous p' <$> node_of p l n x else node_of p l n x)
  = node_of p' l n x.
Proof.
  destruct l as [|[k v] l]; simpl; [done|].
  destruct (decide (x = k)) as [->|D]; repeat case_decide; simplify_eq; done.
Qed.

Lemma list_get_app l1 k v l2 : k ∉ l1.*1 -> list_get (l1 ++ (k, v) :: l2) k = Some v.
Proof.
  induction l1 as [|[k1 v1] l1 IH]; intros I; simpl; [by rewrite decide_True|].
  rewrite decide_False by set_solver. apply IH. set_solver.
Qed.

Lemma list_get_split l k :
  match list_get l k with
  | Some v => exists l1 l2, l = l1 ++ (k, v) :: l2 /\ k ∉ l1.*1
  | None => k ∉ l.*1
  end.
Proof.
  induction l as [|[k1 v1] l IH]; simpl; [set_solver|].
  destruct (decide (k = k1)) as [->|D]; [exists [], l; set_solver|].
  destruct (list_get l k) as [v|]; [|set_solver].
  destruct IH as (l1 & l2 & -> & I). exists ((k1, v1) :: l1), l2. set_solver.
Qed.

Lemma list_without_absent l k : k ∉ l.*1 -> list_without l k = l.
Proof.
  unfold list_without. induction l as [|[k1 v1] l IH]; intros I; simpl; [done|].
  rewrite bool_decide_false by set_solver. simpl. rewrite IH by set_solver. done.
Qed.

Lemma list_without_split l1 k v l2 :
  k ∉ l1.*1 -> k ∉ l2.*1 -> list_without (l1 ++ (k, v) :: l2) k = l1 ++ l2.
Proof.
  intros I1 I2. unfold list_without. rewrite List.filter_app. simpl.
  rewrite bool_decide_true by done. simpl. f_equal; by apply list_without_absent.
Qed.

(** ** Simulation *)

Lemma lookup_modify f k c x :
  lru_entries (modify f k c) !! x =
  if decide (k = x) then f <$> lru_entries c !! x else lru_entries c !! x.
Proof. unfold modify. simpl. rewrite lookup_alter. by case_decide; subst. Qed.

(** Relinking a neighbour, or the end of the list when there is none. *)
Lemma lookup_link_next c p h n x :
  lru_entries (match p with Some q => modify (set_next n) q c | None => set_head h c end) !! x =
  if decide (p = Some x) then set_next n <$> lru_entries c !! x else lru_entries c !! x.
Proof.
  destruct p as [q|]; [|done]. rewrite lookup_modify.
  repeat case_decide; simplify_eq; done.
Qed.

Lemma lookup_link_previous c n t p x :
  lru_entries (match n with Some q => modify (set_previous p) q c | None => set_tail t c end) !! x =
  if decide (n = Some x) then set_previous p <$> lru_entries c !! x else lru_entries c !! x.
Proof.
  destruct n as [q|]; [|done]. rewrite lookup_modify.
  repeat case_decide; simplify_eq; done.
Qed.

(** After [detach] the list lacks the key, whose node hangs loose. *)
Record detached (c : LruCache) (l : list (K * V)) (k : K) (v : V) : Prop := {
  det_nodup : NoDup l.*1;
  det_absent : k ∉ l.*1;
  det_nodes : forall x, x <> k -> lru_entries c !! x = node_of None l None x;
  det_loose : lru_entries c !! k = Some {| value := v; previous := None; next := None |};
  det_head : lru_head c = first_key l None;
  det_tail : lru_tail c = last_key None l
}.

Lemma nodup_split (l1 l2 : list (K * V)) k v :
  NoDup (l1 ++ (k, v) :: l2).*1 ->
  NoDup (l1 ++ l2).*1 /\ NoDup l1.*1 /\ (k ∉ l1.*1) /\ (k ∉ l2.*1) /\ (forall x, x ∈ l1.*1 -> x ∉ l2.*1).
Proof.
  rewrite !fmap_app. cbn [fmap list_fmap fst]. rewrite list.NoDup_app, list.NoDup_cons.
  intros (N1 & D & I & N2). rewrite list.NoDup_app. set_solver.
Qed.

Lemma node_of_middle p l1 k v l2 n :
  k ∉ l1.*1 ->
  node_of p (l1 ++ (k, v) :: l2) n k
  = Some {| value := v; previous := last_key p l1; next := first_key l2 n |}.
Proof. intros I. rewrite node_of_app, node_of_None by done. simpl. by rewrite decide_True. Qed.

Lemma detach_spec c l1 k v l2 :
  represents c (l1 ++ (k, v) :: l2) -> detached (detach c k) (l1 ++ l2) k v.
Proof.
  intros [ND Nodes Hd Tl]. destruct (nodup_split _ _ _ _ ND) as (ND' & N1 & I1 & I2 & Dj).
  unfold detach. rewrite Nodes, node_of_middle by done. cbn [previous next].
  split; [done|set_solver| | | |].
  - intros x D. rewrite lookup_modify, decide_False by done.
    rewrite lookup_link_previous, lookup_link_next, Nodes, !node_of_app. simpl.
    rewrite (decide_False (P := x = k)) by done.
    destruct (decide (x ∈ l1.*1)) as [I|I].
    + rewrite decide_False.
      2: { intros F. apply first_key_in in F as [F|[_ ?]]; [by apply (Dj x)|done]. }
      rewrite <- (node_of_set_next None l1 (Some k) (first_key l2 None) x N1).
      destruct (node_of_Some None l1 (Some k) x I) as [e ->]. by case_decide.
    + rewrite (decide_False (P := last_key None l1 = Some x)).
      2: { intros F. apply last_key_in in F as [F|[_ ?]]; done. }
      rewrite !(node_of_None _ l1) by done. apply node_of_set_previous.
  - rewrite lookup_modify, decide_True by done.
    rewrite lookup_link_previous, lookup_link_next, Nodes, node_of_middle by done.
    by repeat case_decide.
  - destruct l1 as [|[k1 v1] l1']; simpl in *; [by destruct l2 as [|[k2 v2] l2]|].
    destruct (last_key_Some k1 l1') as [q ->]. by destruct (first_key l2 None).
  - rewrite last_key_app in *. cbn [last_key] in Tl.
    destruct l2 as [|[k2 v2] l2]; simpl in *; [done|].
    by destruct (last_key None l1).
Qed.

Lemma push_back_spec c l k v :
  detached c l k v -> represents (push_back_existing c k) (l ++ [(k, v)]).
Proof.
  intros [ND I Nodes Loose Hd Tl]. unfold push_back_existing. split.
  - rewrite fmap_app. apply list.NoDup_app. simpl. split_and!; [done|set_solver|apply NoDup_singleton].
  - intros x. unfold set_tail at 1. cbn [lru_entries]. rewrite lookup_modify, lookup_link_next, Tl.
    destruct (decide (x = k)) as [->|D].
    + rewrite node_of_middle by done. rewrite decide_True, Loose by done. by case_decide.
    + rewrite decide_False, Nodes, node_of_app by done. simpl.
      rewrite (decide_False (P := x = k)) by done.
      rewrite <- (node_of_set_next None l None (Some k) x ND).
      by destruct (if decide _ then _ else _).
  - rewrite first_key_app. simpl. rewrite Tl. destruct l as [|[k1 v1] l]; [done|]. simpl.
    destruct (last_key (Some k1) l) eqn:L; simpl; [by rewrite Hd|].
    by destruct (last_key_Some k1 l) as [? ?]; simplify_eq.
  - by rewrite last_key_app.
Qed.

Lemma represents_new : represents LruCache_new [].
Proof. split; [constructor|intros x; apply lookup_empty|done|done]. Qed.

Lemma represents_lookup c l k :
  represents c l -> value <$> lru_entries c !! k = list_get l k.
Proof.
  intros [ND Nodes _ _]. rewrite Nodes. generalize (@None K) at 1.
  clear. induction l as [|[k' v] l IH]; intros p; simpl; [done|]. case_decide; [done|apply IH].
Qed.

Lemma represents_get_None c l k : represents c l -> lru_entries c !! k = None <-> list_get l k = None.
Proof. intros R. rewrite <- (represents_lookup c l k R). by destruct (lru_entries c !! k). Qed.

Lemma represents_touch c l k : represents c l -> represents (touch c k) (list_touch l k).
Proof.
  intros R. unfold touch, list_touch. pose proof (represents_get_None c l k R) as G.
  pose proof (list_get_split l k) as Sp. destruct (lru_entries c !! k) eqn:Ek.
  2: { by rewrite (proj1 G). }
  destruct (list_get l k) as [v|] eqn:Eg; [|naive_solver].
  destruct Sp as (l1 & l2 & -> & I1). destruct (nodup_split _ _ _ _ (rep_nodup _ _ R)) as (_ & _ & _ & I2 & _).
  rewrite list_without_split by done. case_bool_decide as T.
  - rewrite (rep_tail _ _ R), last_key_app in T. simpl in T.
    destruct l2 as [|p2 l2]; [by rewrite app_nil_r|].
    apply last_key_in in T as [T|[? _]]; [done|discriminate].
  - by apply push_back_spec, detach_spec.
Qed.

Lemma node_of_set_value p l1 k v v' l2 n x :
  k ∉ l1.*1 ->
  node_of p (l1 ++ (k, v') :: l2) n x =
  if decide (k = x) then set_value v' <$> node_of p (l1 ++ (k, v) :: l2) n x
  else node_of p (l1 ++ (k, v) :: l2) n x.
Proof.
  intros I. case_decide; [subst; by rewrite !node_of_middle|].
  rewrite !node_of_app. simpl. by rewrite !(decide_False (P := x = k)) by congruence.
Qed.

Lemma represents_set_value c l1 k v v' l2 :
  represents c (l1 ++ (k, v) :: l2) -> represents (modify (set_value v') k c) (l1 ++ (k, v') :: l2).
Proof.
  intros [ND Nodes Hd Tl]. destruct (nodup_split _ _ _ _ ND) as (_ & _ & I1 & _ & _). split.
  - by rewrite fmap_app in *.
  - intros x. rewrite lookup_modify, Nodes. by rewrite (node_of_set_value None l1 k v v').
  - simpl. rewrite Hd, !first_key_app. done.
  - simpl. by rewrite Tl, !last_key_app.
Qed.

Lemma represents_insert c l k v :
  represents c l ->
  (LruCache_insert c k v).1 = list_get l k
  /\ represents (LruCache_insert c k v).2 (list_insert l k v).
Proof.
  intros R. unfold LruCache_insert, list_insert. pose proof (represents_lookup c l k R) as G.
  pose proof (list_get_split l k) as Sp. destruct (lru_entries c !! k) as [e|] eqn:Ek; simpl in *.
  - rewrite <- G in *. split; [done|]. destruct Sp as (l1 & l2 & -> & I1).
    destruct (nodup_split _ _ _ _ (rep_nodup _ _ R)) as (_ & _ & _ & I2 & _).
    rewrite list_without_split by done. apply (represents_set_value _ _ _ _ v) in R.
    apply (represents_touch _ _ k) in R. unfold list_touch in R.
    by rewrite list_get_app, list_without_split in R.
  - rewrite <- G in *. split; [done|]. rewrite list_without_absent by done.
    destruct R as [ND Nodes Hd Tl]. split; simpl.
    + rewrite fmap_app. apply list.NoDup_app. simpl. split_and!; [done|set_solver|apply NoDup_singleton].
    + intros x. rewrite lookup_insert, Tl. case_decide as D.
      * subst x. by rewrite node_of_middle.
      * rewrite lookup_link_next, Nodes, node_of_app. simpl. rewrite (decide_False (P := x = k)) by done.
        rewrite (node_of_set_next None l None (Some k) x ND). by destruct (node_of _ _ _ _).
    + rewrite first_key_app, Tl. simpl. destruct l as [|[k1 v1] l]; [done|]. simpl in *.
      by destruct (last_key_Some k1 l) as [q ->].
    + by rewrite last_key_app.
Qed.

Lemma represents_pop c l :
  represents c l -> (pop_lru c).1 = (list_pop l).1 /\ represents (pop_lru c).2 (list_pop l).2.
Proof.
  intros R. unfold pop_lru. rewrite (rep_head _ _ R). destruct l as [|[k v] l]; simpl; [done|].
  destruct (detach_spec c [] k v l R) as [ND I Nodes Loose Hd Tl]. simpl in *.
  rewrite Loose. split; [done|]. split; simpl; [done| |done|done].
  intros x. rewrite lookup_delete. case_decide as D; [subst; by rewrite node_of_None|by apply Nodes].
Qed.

Lemma represents_len c l : represents c l -> LruCache_len c = len l.
Proof.
  intros [ND Nodes _ _]. unfold LruCache_len, len. f_equal.
  rewrite <- size_dom. replace (dom (lru_entries c)) with (list_to_set l.*1 : gset K).
  - rewrite size_list_to_set by done. apply length_fmap.
  - apply set_eq. intros x. rewrite elem_of_list_to_set, elem_of_dom, Nodes.
    destruct (decide (x ∈ l.*1)) as [I|I].
    + split; [intros _; by apply node_of_Some|done].
    + rewrite node_of_None by done. split; [done|by intros []].
Qed.

(** ** Histories *)

Inductive LruOp : Type :=
| OpInsert (k : K) (v : V)
| OpTouch (k : K)
| OpPop
| OpPeek (k : K)
| OpLen.

Inductive LruOut : Type :=
| OutValue (o : option V)
| OutNode (o : option (K * V))
| OutLen (n : Z)
| OutUnit.

Definition cache_step (c : LruCache) (o : LruOp) : LruOut * LruCache :=
  match o with
  | OpInsert k v => (OutValue (LruCache_insert c k v).1, (LruCache_insert c k v).2)
  | OpTouch k => (OutUnit, touch c k)
  | OpPop => (OutNode (pop_lru c).1, (pop_lru c).2)
  | OpPeek k => (OutValue (peek_cloned c k), c)
  | OpLen => (OutLen (LruCache_len c), c)
  end.

Definition list_step (l : list (K * V)) (o : LruOp) : LruOut * list (K * V) :=
  match o with
  | OpInsert k v => (OutValue (list_get l k), list_insert l k v)
  | OpTouch k => (OutUnit, list_touch l k)
  | OpPop => (OutNode (list_pop l).1, (list_pop l).2)
  | OpPeek k => (OutValue (list_get l k), l)
  | OpLen => (OutLen (len l), l)
  end.

Fixpoint run {S} (step : S -> LruOp -> LruOut * S) (s : S) (ops : list LruOp) : list LruOut * S :=
  match ops with
  | [] => ([], s)
  | o :: ops' =>
      let '(out, s) := step s o in
      let '(outs, s) := run step s ops' in (out :: outs, s)
  end.

Lemma step_simulates c l o :
  represents c l ->
  (cache_step c o).1 = (list_step l o).1 /\ represents (cache_step c o).2 (list_step l o).2.
Proof.
  intros R. destruct o as [k v|k| |k|]; simpl.
  - destruct (represents_insert c l k v R) as [-> ?]. done.
  - split; [done|by apply represents_touch].
  - destruct (represents_pop c l R) as [-> ?]. done.
  - split; [|done]. f_equal. by apply represents_lookup.
  - split; [|done]. f_equal. by apply represents_len.
Qed.

Lemma run_simulates c l ops :
  represents c l ->
  (run cache_step c ops).1 = (run list_step l ops).1
  /\ represents (run cache_step c ops).2 (run list_step l ops).2.
Proof.
  revert c l. induction ops as [|o ops IH]; intros c l R; simpl; [done|].
  destruct (step_simulates c l o R) as [E R'].
  destruct (cache_step c o) as [out c'], (list_step l o) as [out' l']. simpl in *. subst.
  specialize (IH _ _ R'). destruct (run cache_step c' ops), (run list_step l' ops). simpl in *.
  destruct IH as [-> ?]. done.
Qed.
End Lru.

(** ** Properties *)

(** C37: The linked cache refines a recency list: over any sequence of inserts,
    touches, pops, peeks and length queries from an empty cache, it returns what
    the list returns, and its links, head and tail spell that list, each key
    once, least recently used first. *)
Theorem lru_refines_list {K V : Type} `{Countable K} (ops : list (@LruOp K V)) :
  (run cache_step LruCache_new ops).1 = (run list_step [] ops).1
  /\ represents (run cache_step LruCache_new ops).2 (run list_step [] ops).2.
Proof. apply run_simulates, represents_new. Qed.
