(* ===== verification/External.v ===== *)
(** * Third-party primitives

    The cryptographic crates ([sha2], [hmac], [ring], [aes-gcm-siv],
    [chacha20poly1305]) and the text encodings ([base64], [hex]) that the
    repository calls.  They are parameters of the model: the class [Primitives]
    names the operations, [PrimitivesLaws] what their documentation promises
    and the code relies on.  [Reference] is an instance on which definitions
    are evaluated; its encodings are the standard ones, its hash, signature and
    ciphers are stand-ins of the right shape. *)

From Stdlib Require Import Strings.String.
From S2P Require Import Prelude Text.
Open Scope Z_scope.

Class Primitives : Type := {
  (** [sha2::Sha256]; a stream hashed in pieces is the digest of the pieces
      joined. *)
  sha256 : list byte -> list byte;
  (** [Hmac<Sha256>]: key and joined message, [None] for a rejected key. *)
  hmac_sha256 : list byte -> list byte -> option (list byte);
  (** [ring::signature::Ed25519KeyPair] and [UnparsedPublicKey::verify]. *)
  Ed25519KeyPair : Type;
  from_seed_unchecked : list byte -> option Ed25519KeyPair;
  ed25519_public_key : Ed25519KeyPair -> list byte;
  ed25519_sign : Ed25519KeyPair -> list byte -> list byte;
  ed25519_verify : list byte -> list byte -> list byte -> bool;
  (** [base64::engine::general_purpose::URL_SAFE_NO_PAD]. *)
  b64_encode : list byte -> text;
  b64_decode : text -> option (list byte);
  (** [hex::encode] and [hex::decode]. *)
  hex_encode : list byte -> text;
  hex_decode : text -> option (list byte);
  (** [aes_gcm_siv::Aes256GcmSiv], detached: key, nonce, associated data and
      plaintext to ciphertext and tag, and back. *)
  gcm_siv_encrypt : list byte -> list byte -> list byte -> list byte -> option (list byte * list byte);
  gcm_siv_decrypt : list byte -> list byte -> list byte -> list byte -> list byte -> option (list byte);
  (** [chacha20poly1305::XChaCha20Poly1305]: the tag follows the ciphertext. *)
  xchacha_encrypt : list byte -> list byte -> list byte -> list byte -> option (list byte);
  xchacha_decrypt : list byte -> list byte -> list byte -> list byte -> option (list byte)
}.

(** The URL-safe alphabet of RFC 4648 and the lowercase hexadecimal digits. *)
Definition B64_ALPHABET : list byte :=
  bytes_of_string "ABCDEFGHIJKLMNOPQRSTUVWXYZabcdefghijklmnopqrstuvwxyz0123456789-_".
Definition HEX_ALPHABET : list byte := bytes_of_string "0123456789abcdef".

Class PrimitivesLaws `{Primitives} : Prop := {
  sha256_length m : length (sha256 m) = 32%nat;
  ed25519_public_key_length k : length (ed25519_public_key k) = 32%nat;
  ed25519_sign_length k m : length (ed25519_sign k m) = 64%nat;
  ed25519_verify_sign k m : ed25519_verify (ed25519_public_key k) m (ed25519_sign k m) = true;
  b64_decode_encode bs : b64_decode (b64_encode bs) = Some bs;
  b64_encode_length bs : len (b64_encode bs) = div_ceil (4 * len bs) 3;
  b64_encode_alphabet bs : Forall (fun b => In b B64_ALPHABET) (b64_encode bs);
  hex_decode_encode bs : hex_decode (hex_encode bs) = Some bs;
  hex_encode_length bs : len (hex_encode bs) = 2 * len bs;
  hex_encode_alphabet bs : Forall (fun b => In b HEX_ALPHABET) (hex_encode bs);
  hmac_sha256_length k m d : hmac_sha256 k m = Some d -> length d = 32%nat;
  gcm_siv_lengths k n a p c t :
    gcm_siv_encrypt k n a p = Some (c, t) -> length c = length p /\ length t = 16%nat;
  gcm_siv_decrypt_encrypt k n a p c t :
    gcm_siv_encrypt k n a p = Some (c, t) -> gcm_siv_decrypt k n a c t = Some p;
  xchacha_length k n a p c : xchacha_encrypt k n a p = Some c -> length c = (length p + 16)%nat;
  xchacha_decrypt_encrypt k n a p c : xchacha_encrypt k n a p = Some c -> xchacha_decrypt k n a c = Some p
}.

(** ** A reference instance *)

Module Reference.

Definition digit_char (alphabet : list byte) (d : Z) : byte := nth (Z.to_nat d) alphabet x00.

Fixpoint char_digit (alphabet : list byte) (c : byte) : option Z :=
  match alphabet with
  | [] => None
  | a :: alphabet' =>
      if bool_decide (a = c) then Some 0 else Z.succ <$> char_digit alphabet' c
  end.

Fixpoint char_digits (alphabet : list byte) (t : text) : option (list Z) :=
  match t with
  | [] => Some []
  | c :: t' =>
      match char_digit alphabet c, char_digits alphabet t' with
      | Some d, Some ds => Some (d :: ds)
      | _, _ => None
      end
  end.

(** The bits of the bytes, padded with zeros to whole digits of [w] bits. *)
Definition encode_group (alphabet : list byte) (w : Z) (bs : list byte) : text :=
  let m := div_ceil (8 * len bs) w in
  map (digit_char alphabet)
    (to_digits (2 ^ w) (Z.to_nat m) (from_be_bytes bs * 2 ^ (w * m - 8 * len bs))).

Definition decode_group (alphabet : list byte) (w : Z) (t : text) : option (list byte) :=
  let n := w * len t / 8 in
  (fun ds => to_be_bytes (Z.to_nat n) (from_digits (2 ^ w) ds / 2 ^ (w * len t - 8 * n)))
  <$> char_digits alphabet t.

Lemma char_digit_char alphabet d :
  NoDup alphabet -> 0 <= d < len alphabet -> char_digit alphabet (digit_char alphabet d) = Some d.
Proof.
  intros N. revert d. induction N as [|a l A N IH]; intros d D; [unfold len in D; simpl in D; lia|].
  rewrite len_cons in D. unfold digit_char. destruct (Z.eq_dec d 0) as [->|Nz]; simpl.
  { by rewrite bool_decide_eq_true_2. }
  replace (Z.to_nat d) with (S (Z.to_nat (d - 1))) by lia. simpl.
  rewrite bool_decide_eq_false_2.
  - fold (digit_char l (d - 1)). rewrite IH by lia. simpl. f_equal. lia.
  - intros E. apply A. rewrite E. apply list_elem_of_In, nth_In. unfold len in D. lia.
Qed.

Lemma char_digits_map alphabet ds :
  NoDup alphabet -> Forall (fun d => 0 <= d < len alphabet) ds ->
  char_digits alphabet (map (digit_char alphabet) ds) = Some ds.
Proof.
  intros N F. induction F as [|d ds D F IH]; simpl; [done|]. by rewrite char_digit_char, IH.
Qed.

Lemma decode_encode_group alphabet w bs :
  0 < w <= 8 -> NoDup alphabet -> len alphabet = 2 ^ w -> decode_group alphabet w (encode_group alphabet w bs) = Some bs.
Proof.
  intros W N A. pose proof (len_nonneg bs) as Ln. unfold decode_group, encode_group, div_ceil.
  set (m := (8 * len bs + w - 1) / w). set (v := from_be_bytes bs * _).
  assert (8 * len bs <= w * m < 8 * len bs + w) as M.
  { pose proof (Z.div_mod (8 * len bs + w - 1) w). pose proof (Z.mod_pos_bound (8 * len bs + w - 1) w).
    fold m in H. lia. }
  assert (0 <= m) by nia.
  rewrite len_map. assert (len (to_digits (2 ^ w) (Z.to_nat m) v) = m) as ->.
  { unfold len. rewrite length_to_digits. lia. }
  assert (w * m / 8 = len bs) as -> by (symmetry; apply (Z.div_unique _ _ _ (w * m - 8 * len bs)); lia).
  assert (0 < 2 ^ w) by (apply Z.pow_pos_nonneg; lia).
  rewrite char_digits_map by (try done; rewrite A; by apply to_digits_range). simpl. f_equal.
  assert (0 <= v < (2 ^ w) ^ Z.of_nat (Z.to_nat m)) as V.
  { rewrite Z2Nat.id, <- Z.pow_mul_r by lia. unfold v.
    assert (2 ^ (w * m) = 2 ^ (8 * len bs) * 2 ^ (w * m - 8 * len bs)) as ->
      by (rewrite <- Z.pow_add_r by lia; f_equal; lia).
    pose proof (from_be_bytes_range bs) as R. change 256 with (2 ^ 8) in R.
    rewrite <- Z.pow_mul_r in R by lia.
    assert (0 < 2 ^ (w * m - 8 * len bs)) by (apply Z.pow_pos_nonneg; lia). nia. }
  rewrite from_to_digits by done. unfold v. rewrite Z.div_mul by (apply Z.pow_nonzero; lia).
  unfold len. rewrite Nat2Z.id. apply to_from_be_bytes.
Qed.

Lemma len_encode_group alphabet w bs : 0 < w -> len (encode_group alphabet w bs) = div_ceil (8 * len bs) w.
Proof.
  intros W. unfold encode_group. rewrite len_map. unfold len at 1. rewrite length_to_digits.
  pose proof (len_nonneg bs). rewrite Z2Nat.id; [done|]. unfold div_ceil. apply Z.div_pos; lia.
Qed.

Lemma encode_group_alphabet alphabet w bs :
  0 < w -> len alphabet = 2 ^ w -> Forall (fun b => In b alphabet) (encode_group alphabet w bs).
Proof.
  intros W A. assert (0 < 2 ^ w) as P by (apply Z.pow_pos_nonneg; lia). unfold encode_group.
  apply Forall_map. eapply List.Forall_impl; [|exact (to_digits_range (2 ^ w) _ _ P)]. intros d D.
  apply nth_In. cbv beta in D. rewrite <- A in D. unfold len in D. lia.
Qed.

(** Groups of [n] bytes and [m] digits that hold the same number of bits; the
    last group may be shorter. *)
Fixpoint encode_all (alphabet : list byte) (w : Z) (n : nat) (fuel : nat) (bs : list byte) : text :=
  match fuel, bs with
  | S fuel', _ :: _ => encode_group alphabet w (firstn n bs) ++ encode_all alphabet w n fuel' (skipn n bs)
  | _, _ => []
  end.

Fixpoint decode_all (alphabet : list byte) (w : Z) (m : nat) (fuel : nat) (t : text) : option (list byte) :=
  match fuel, t with
  | S fuel', _ :: _ =>
      match decode_group alphabet w (firstn m t), decode_all alphabet w m fuel' (skipn m t) with
      | Some bs, Some bs' => Some (bs ++ bs')
      | _, _ => None
      end
  | _, _ => Some []
  end.

Definition encode (alphabet : list byte) (w : Z) (n : nat) (bs : list byte) : text :=
  encode_all alphabet w n (length bs) bs.
Definition decode (alphabet : list byte) (w : Z) (m : nat) (t : text) : option (list byte) :=
  decode_all alphabet w m (length t) t.

Section Groups.
Context (alphabet : list byte) (w : Z) (n m : nat).
Hypotheses (W : 0 < w <= 8) (N : (0 < n)%nat) (E : 8 * Z.of_nat n = w * Z.of_nat m)
  (D : NoDup alphabet) (A : len alphabet = 2 ^ w).

Lemma length_group bs : (0 < length bs <= n)%nat ->
  (0 < length (encode_group alphabet w bs) <= m)%nat
  /\ (length bs = n -> length (encode_group alphabet w bs) = m).
Proof.
  intros L. pose proof (len_encode_group alphabet w bs (proj1 W)) as G. unfold len, div_ceil in G.
  pose proof (Z.div_mod (8 * Z.of_nat (length bs) + w - 1) w). pose proof (Z.mod_pos_bound (8 * Z.of_nat (length bs) + w - 1) w).
  rewrite <- G in *. split; [split; nia|]. intros Ln. rewrite Ln, E in *. nia.
Qed.

Lemma decode_encode_all fuel fuel' bs :
  (length bs <= fuel)%nat -> (length (encode_all alphabet w n fuel bs) <= fuel')%nat ->
  decode_all alphabet w m fuel' (encode_all alphabet w n fuel bs) = Some bs.
Proof.
  revert fuel' bs. induction fuel as [|fuel IH]; intros fuel' bs L L'.
  { destruct bs; [by destruct fuel'|simpl in L; lia]. }
  destruct bs as [|b bs]; [by destruct fuel'|]. cbn [encode_all] in *. set (l := b :: bs) in *.
  assert (length l = S (length bs)) as Ll by done.
  destruct (length_group (firstn n l)) as [G1 G2]; [rewrite length_take; lia|].
  set (g := encode_group alphabet w (firstn n l)) in *. rewrite length_app in L'.
  destruct g as [|c g'] eqn:Eg; [simpl in G1; lia|]. destruct fuel' as [|fuel']; [simpl in L'; lia|].
  cbn [app decode_all]. change (c :: g' ++ ?x) with ((c :: g') ++ x). rewrite <- Eg in *.
  assert (firstn m (g ++ encode_all alphabet w n fuel (skipn n l)) = g
    /\ skipn m (g ++ encode_all alphabet w n fuel (skipn n l)) = encode_all alphabet w n fuel (skipn n l)) as [-> ->].
  { destruct (decide (n <= length l)%nat) as [Ge|Lt].
    - assert (length g = m) as <- by (apply G2; rewrite length_take; lia). by rewrite take_app_length, drop_app_length.
    - rewrite (drop_ge l) by lia. destruct fuel; cbn [encode_all]; rewrite app_nil_r;
        (split; [apply take_ge|apply drop_ge]); lia. }
  unfold g. rewrite decode_encode_group by done. rewrite IH; [by rewrite take_drop|rewrite length_drop; lia|].
  rewrite Eg in L'. simpl in L'. lia.
Qed.

Lemma decode_encode bs : decode alphabet w m (encode alphabet w n bs) = Some bs.
Proof. by apply decode_encode_all. Qed.

Lemma len_encode bs : len (encode alphabet w n bs) = div_ceil (8 * len bs) w.
Proof.
  unfold encode. cut (forall fuel, (length bs <= fuel)%nat -> len (encode_all alphabet w n fuel bs) = div_ceil (8 * len bs) w);
    [by auto|]. intros fuel. revert bs. induction fuel as [|fuel IH]; intros bs L.
  - destruct bs; [|simpl in L; lia]. cbn [encode_all]. rewrite len_nil. unfold div_ceil. rewrite Z.div_small; lia.
  - destruct bs as [|b bs]; cbn [encode_all]; [rewrite len_nil; unfold div_ceil; rewrite Z.div_small; lia|].
    set (l := b :: bs) in *. assert (length l = S (length bs)) as Ll by done.
    rewrite len_app, len_encode_group, IH by (rewrite ?length_drop; lia). unfold len, div_ceil. rewrite length_take, length_drop.
    destruct (decide (n <= length l)%nat) as [Ge|Lt].
    + rewrite Nat.min_l, E by lia. replace (8 * Z.of_nat (length l)) with (Z.of_nat m * w + 8 * Z.of_nat (length l - n)) by lia.
      replace (w * Z.of_nat m + w - 1) with (Z.of_nat m * w + (w - 1)) by lia.
      replace (Z.of_nat m * w + 8 * Z.of_nat (length l - n) + w - 1)
        with (Z.of_nat m * w + (8 * Z.of_nat (length l - n) + w - 1)) by lia.
      rewrite !Z.div_add_l by lia. rewrite (Z.div_small (w - 1)) by lia. lia.
    + rewrite Nat.min_r by lia. replace (length l - n)%nat with 0%nat by lia.
      rewrite (Z.div_small (8 * Z.of_nat 0 + w - 1)) by lia. lia.
Qed.

Lemma encode_alphabet bs : Forall (fun b => In b alphabet) (encode alphabet w n bs).
Proof.
  unfold encode. generalize (length bs) as fuel. intros fuel. revert bs.
  induction fuel as [|fuel IH]; intros [|b bs]; cbn [encode_all]; try apply Forall_nil; [done..|].
  apply Forall_app. split; [apply encode_group_alphabet; [lia|done]|apply IH].
Qed.
End Groups.

(** A hash of the right length, and a signature built from it. *)
Definition digest32 (m : list byte) : list byte :=
  List.repeat x00 24 ++ to_be_bytes 8 (fold_left (fun acc b => acc + u8 b + 1) m 0).

Definition sign (k m : list byte) : list byte := digest32 (k ++ m) ++ digest32 (m ++ k).

(** A tag over everything, in front of which the plaintext is left as it is. *)
Definition tag (k n a p : list byte) : list byte := 
  List.repeat x00 8 ++ to_be_bytes 8 (fold_left (fun acc b => acc + u8 b + 1) (k ++ n ++ a ++ p) 0).

Lemma length_digest32 m : length (digest32 m) = 32%nat.
Proof. unfold digest32. by rewrite length_app, length_to_be_bytes. Qed.

Lemma length_tag k n a p : length (tag k n a p) = 16%nat.
Proof. unfold tag. by rewrite length_app, length_to_be_bytes. Qed.

#[export] Instance primitives : Primitives := {|
  sha256 := digest32;
  hmac_sha256 k m := Some (digest32 (k ++ m));
  Ed25519KeyPair := list byte;
  from_seed_unchecked := Some;
  ed25519_public_key := digest32;
  ed25519_sign k := sign (digest32 k);
  ed25519_verify pk m s := bool_decide (s = sign pk m);
  b64_encode := encode B64_ALPHABET 6 3;
  b64_decode := decode B64_ALPHABET 6 4;
  hex_encode := encode HEX_ALPHABET 4 1;
  hex_decode := decode HEX_ALPHABET 4 2;
  gcm_siv_encrypt k n a p := Some (p, tag k n a p);
  gcm_siv_decrypt k n a c t := if bool_decide (t = tag k n a c) then Some c else None;
  xchacha_encrypt k n a p := Some (p ++ tag k n a p);
  xchacha_decrypt k n a c :=
    let p := firstn (length c - 16) c in
    if bool_decide (c = p ++ tag k n a p) then Some p else None
|}.

#[export] Instance primitives_laws : PrimitivesLaws.
Proof.
  split; intros.
  - apply length_digest32.
  - apply length_digest32.
  - change (length (sign (digest32 k) m) = 64%nat). unfold sign. by rewrite length_app, !length_digest32.
  - by apply bool_decide_eq_true_2.
  - apply decode_encode; [lia..| |done]. by apply (bool_decide_unpack _).
  - cbn [b64_encode hex_encode primitives]. rewrite (len_encode B64_ALPHABET 6 3 4) by (lia || done). unfold div_ceil.
    pose proof (len_nonneg bs). Z.to_euclidean_division_equations. lia.
  - apply (encode_alphabet B64_ALPHABET 6 3 4); done || lia.
  - apply decode_encode; [lia..| |done]. by apply (bool_decide_unpack _).
  - cbn [b64_encode hex_encode primitives]. rewrite (len_encode HEX_ALPHABET 4 1 2) by (lia || done). unfold div_ceil.
    pose proof (len_nonneg bs). Z.to_euclidean_division_equations. lia.
  - apply (encode_alphabet HEX_ALPHABET 4 1 2); done || lia.
  - cbn [hmac_sha256 primitives] in *. inv_bind. apply length_digest32.
  - cbn [gcm_siv_encrypt primitives] in *. inv_bind. split; [done|apply length_tag].
  - cbn [gcm_siv_encrypt gcm_siv_decrypt primitives] in *. inv_bind. by rewrite bool_decide_eq_true_2.
  - cbn [xchacha_encrypt primitives] in *. inv_bind. by rewrite length_app, length_tag.
  - cbn [xchacha_encrypt xchacha_decrypt primitives] in *. inv_bind.
    assert (firstn (length (p ++ tag k n a p) - 16) (p ++ tag k n a p) = p) as ->; [|by rewrite bool_decide_eq_true_2].
    rewrite length_app, length_tag, Nat.add_sub. apply take_app_length.
Qed.

End Reference.
