(* ===== verification/Keyring.v ===== *)
(** * Keyrings and checkpoint signatures (crates/rs3-crypto/src)

    keyring.rs, checkpoint.rs, derive.rs and their helpers secret.rs and
    primitives.rs: the validated set of purpose-specific keys of a repository,
    the lookup of primary and enabled keys, commit signatures with the
    checkpoint-signing key, and the blind keys of the namespace.  The
    primitives come from [External]. *)

From Stdlib Require Import Strings.String Sorted Permutation.
From S2P Require Import Prelude Ord Text Types External.
Open Scope Z_scope.
Import Keys.

Inductive CryptoError : Type :=
| SecretTooShort (minimum_len : Z)
| InvalidHmacKey
| CryptoType (e : TypeError)
| RepositorySaltTooShort (minimum_len : Z)
| NoPrimaryKey (purpose : KeyPurpose)
| MultiplePrimaryKeys (purpose : KeyPurpose)
| NoEnabledKeys (purpose : KeyPurpose)
| DuplicateKeyId (key_id : text)
| MissingKey (key_id : text)
| KeyPurposeMismatch (key_id : text) (expected actual : KeyPurpose)
| InactiveKey (key_id : text) (status : KeyStatus)
| SignatureMismatch
| CheckpointSigningKeyRejected
| CheckpointPublicKeyMalformed
| CheckpointPublicKeyMismatch
| RecoveryPublicKeyMalformed
| AeadOperationFailed
| InvalidRepositoryEnvelope (reason : string)
| RandomnessUnavailable.

Record KeyDescriptor : Type := {
  key_id : text;
  purpose : KeyPurpose;
  status : KeyStatus;
  created_at_ms : Z;           (* i64 *)
  public_key : option text
}.

Record KeyMaterial : Type := {
  descriptor : KeyDescriptor;
  secret : list byte           (* SecretBytes *)
}.

Record KeyRing : Type := { keys : list KeyMaterial }.

Record CheckpointSignature : Type := {
  sig_key_id : text;
  signature : list byte
}.

Record NamespaceBlindKey : Type := {
  nb_key_id : text;
  nb_blind_key : text
}.

(** ** Secrets *)

Definition SECRET_MIN_LEN : Z := 32.

Definition SecretBytes_new (bytes : list byte) : result CryptoError (list byte) :=
  reject_if (len bytes <? SECRET_MIN_LEN) (SecretTooShort SECRET_MIN_LEN) ;;? Ok bytes.

(** [ct_eq]: equality of byte strings, in constant time. *)
Definition ct_eq (left right : list byte) : bool := bool_decide (left = right).

Section Keyring.
Context `{Primitives}.

Abbreviation CR A := (result CryptoError A).

Definition derive_hmac (repository_secret domain material : list byte) : CR (list byte) :=
  ok_or (hmac_sha256 repository_secret (domain ++ [x00] ++ material)) InvalidHmacKey.

(** ** Checkpoint keys *)

Definition CHECKPOINT_PUBLIC_KEY_HEX_LEN : Z := 64.
Definition CHECKPOINT_PUBLIC_KEY_PREFIX : text := bytes_of_string "ed25519:".

Definition checkpoint_signing_key (secret : list byte) : CR Ed25519KeyPair :=
  seed <-? derive_hmac secret (bytes_of_string "rs3:checkpoint-ed25519-seed:v1") (bytes_of_string "ed25519") ;;
  ok_or (from_seed_unchecked seed) CheckpointSigningKeyRejected.

Definition derive_checkpoint_public_key (secret : list byte) : CR (list byte) :=
  key <-? checkpoint_signing_key secret ;; Ok (ed25519_public_key key).

Definition derive_checkpoint_public_key_descriptor (secret : list byte) : CR text :=
  key <-? derive_checkpoint_public_key secret ;; Ok (CHECKPOINT_PUBLIC_KEY_PREFIX ++ hex_encode key).

Definition prefixed_ed25519_public_key_bytes (public_key : text) : option (list byte) :=
  match strip_prefix CHECKPOINT_PUBLIC_KEY_PREFIX public_key with
  | None => None
  | Some hex_key =>
      if negb (len hex_key =? CHECKPOINT_PUBLIC_KEY_HEX_LEN) then None else hex_decode hex_key
  end.

Definition checkpoint_public_key_bytes (public_key : text) : CR (list byte) :=
  ok_or (prefixed_ed25519_public_key_bytes public_key) CheckpointPublicKeyMalformed.

Definition recovery_public_key_bytes (public_key : text) : CR (list byte) :=
  ok_or (prefixed_ed25519_public_key_bytes public_key) RecoveryPublicKeyMalformed.

Definition verify_recovery_signature (public_key : text) (canonical_payload signature : list byte) :
    CR unit :=
  public_key <-? recovery_public_key_bytes public_key ;;
  reject_if (negb (ed25519_verify public_key canonical_payload signature)) SignatureMismatch.

Definition validate_recovery_public_key (public_key : text) : CR unit :=
  recovery_public_key_bytes public_key ;;? Ok tt.

(** ** Keyrings *)

Definition is_primary_for (p : KeyPurpose) (key : KeyMaterial) : bool :=
  bool_decide (purpose (descriptor key) = p) && is_primary (status (descriptor key)).

(** The declared public key of a checkpoint-signing key belongs to its secret. *)
Definition validate_declared_key (key : KeyMaterial) : CR unit :=
  match purpose (descriptor key), public_key (descriptor key) with
  | CheckpointSigning, Some public_key =>
      declared <-? checkpoint_public_key_bytes public_key ;;
      derived <-? derive_checkpoint_public_key (secret key) ;;
      reject_if (negb (ct_eq declared derived)) CheckpointPublicKeyMismatch
  | _, _ => Ok tt
  end.

Fixpoint validate_keys_loop (ids : BTreeSet text) (keys : list KeyMaterial) : CR unit :=
  match keys with
  | [] => Ok tt
  | key :: keys' =>
      let '(fresh, ids) := bs_insert (key_id (descriptor key)) ids in
      reject_if (negb fresh) (DuplicateKeyId (key_id (descriptor key))) ;;?
      validate_declared_key key ;;?
      validate_keys_loop ids keys'
  end.

Fixpoint validate_primaries (keys : list KeyMaterial) (purposes : list KeyPurpose) : CR unit :=
  match purposes with
  | [] => Ok tt
  | p :: purposes' =>
      reject_if (len (List.filter (is_primary_for p) keys) >? 1) (MultiplePrimaryKeys p) ;;?
      validate_primaries keys purposes'
  end.

Definition validate_keyring (keys : list KeyMaterial) : CR unit :=
  validate_keys_loop [] keys ;;?
  validate_primaries keys [Namespace; Content; Metadata; CheckpointSigning] ;;?
  reject_if (negb (existsb (is_primary_for Namespace) keys)) (NoPrimaryKey Namespace).

Definition KeyRing_new (keys : list KeyMaterial) : CR KeyRing :=
  validate_keyring keys ;;? Ok {| keys := keys |}.

Definition primary_key (ring : KeyRing) (p : KeyPurpose) : CR KeyMaterial :=
  match List.filter (is_primary_for p) (keys ring) with
  | [] => Err (NoPrimaryKey p)
  | [primary] => Ok primary
  | _ => Err (MultiplePrimaryKeys p)
  end.

Definition primary_key_id (ring : KeyRing) (p : KeyPurpose) : CR text :=
  key <-? primary_key ring p ;; Ok (key_id (descriptor key)).

(** The loop of [enabled_keys]: primary keys and other enabled keys so far. *)
Fixpoint enabled_keys_loop (p : KeyPurpose) (primary enabled keys : list KeyMaterial) :
    list KeyMaterial * list KeyMaterial :=
  match keys with
  | [] => (primary, enabled)
  | key :: keys' =>
      if negb (bool_decide (purpose (descriptor key) = p))
         || negb (is_enabled_for_lookup (status (descriptor key)))
      then enabled_keys_loop p primary enabled keys'
      else if is_primary (status (descriptor key))
      then enabled_keys_loop p (primary ++ [key]) enabled keys'
      else enabled_keys_loop p primary (enabled ++ [key]) keys'
  end.

Definition enabled_keys (ring : KeyRing) (p : KeyPurpose) : CR (list KeyMaterial) :=
  let '(primary, enabled) := enabled_keys_loop p [] [] (keys ring) in
  reject_if (len primary >? 1) (MultiplePrimaryKeys p) ;;?
  reject_if (len (primary ++ enabled) =? 0) (NoEnabledKeys p) ;;?
  Ok (primary ++ enabled).

Definition enabled_key_by_id (ring : KeyRing) (id : text) (expected : KeyPurpose) : CR KeyMaterial :=
  key <-? ok_or (List.find (fun key => bool_decide (key_id (descriptor key) = id)) (keys ring))
            (MissingKey id) ;;
  reject_if (negb (bool_decide (purpose (descriptor key) = expected)))
    (KeyPurposeMismatch id expected (purpose (descriptor key))) ;;?
  reject_if (negb (is_enabled_for_lookup (status (descriptor key))))
    (InactiveKey id (status (descriptor key))) ;;?
  Ok key.

(** [descriptors]: public metadata in the order of purpose and id. *)
Definition purpose_rank (p : KeyPurpose) : Z :=
  match p with
  | Namespace => 0
  | Content => 1
  | Metadata => 2
  | CheckpointSigning => 3
  end.

Definition descriptors (ring : KeyRing) : list KeyDescriptor :=
  sort_by_key (fun d => (purpose_rank (purpose d), key_id d)) (map descriptor (keys ring)).

(** ** Signatures *)

Definition sign_checkpoint_payload (ring : KeyRing) (canonical_payload : list byte) :
    CR CheckpointSignature :=
  key <-? primary_key ring CheckpointSigning ;;
  signing_key <-? checkpoint_signing_key (secret key) ;;
  Ok {| sig_key_id := key_id (descriptor key);
        signature := ed25519_sign signing_key canonical_payload |}.

Definition verify_checkpoint_payload (ring : KeyRing) (id : text) (canonical_payload signature : list byte) :
    CR unit :=
  key <-? enabled_key_by_id ring id CheckpointSigning ;;
  public_key <-? match public_key (descriptor key) with
                 | Some public_key => checkpoint_public_key_bytes public_key
                 | None => derive_checkpoint_public_key (secret key)
                 end ;;
  reject_if (negb (ed25519_verify public_key canonical_payload signature)) SignatureMismatch.

(** ** Blind keys *)

Definition derive_blind_index_key (repository_secret : list byte) (normalized_path : text) : CR text :=
  bytes <-? derive_hmac repository_secret (bytes_of_string "rs3:blind-index:v1") normalized_path ;;
  map_err CryptoType (BlindIndexKey_new (hex_encode bytes)).

Definition derive_manifest_id (repository_secret material : list byte) : CR text :=
  bytes <-? derive_hmac repository_secret (bytes_of_string "rs3:manifest-id:v1") material ;;
  map_err CryptoType (ManifestId_new (hex_encode bytes)).

Definition namespace_blind_key (normalized_path : text) (key : KeyMaterial) : CR NamespaceBlindKey :=
  blind_key <-? derive_blind_index_key (secret key) normalized_path ;;
  Ok {| nb_key_id := key_id (descriptor key); nb_blind_key := blind_key |}.

Definition derive_primary_blind_index_key (ring : KeyRing) (normalized_path : text) :
    CR NamespaceBlindKey :=
  key <-? primary_key ring Namespace ;; namespace_blind_key normalized_path key.

Definition derive_blind_index_keys_for_lookup (ring : KeyRing) (normalized_path : text) :
    CR (list NamespaceBlindKey) :=
  keys <-? enabled_keys ring Namespace ;; try_map (namespace_blind_key normalized_path) keys.

(** ** Generation *)

(** [random_secret]: [filled] is what the system source returned. *)
Definition random_secret (filled : option (list byte)) : CR (list byte) :=
  secret <-? ok_or filled RandomnessUnavailable ;; SecretBytes_new secret.

Definition default_descriptor (id : string) (p : KeyPurpose) (public_key : option text) : KeyDescriptor :=
  {| key_id := bytes_of_string id; purpose := p; status := Primary; created_at_ms := 0;
     public_key := public_key |}.

(** [generate_random], with the outcomes of the four draws in their order. *)
Definition generate_random (checkpoint namespace content metadata : option (list byte)) : CR KeyRing :=
  checkpoint_secret <-? random_secret checkpoint ;;
  namespace_secret <-? random_secret namespace ;;
  content_secret <-? random_secret content ;;
  metadata_secret <-? random_secret metadata ;;
  public_key <-? derive_checkpoint_public_key_descriptor checkpoint_secret ;;
  KeyRing_new
    [ {| descriptor := default_descriptor "namespace-v1" Namespace None; secret := namespace_secret |};
      {| descriptor := default_descriptor "content-v1" Content None; secret := content_secret |};
      {| descriptor := default_descriptor "metadata-v1" Metadata None; secret := metadata_secret |};
      {| descriptor := default_descriptor "checkpoint-v1" CheckpointSigning (Some public_key);
         secret := checkpoint_secret |} ].

(** ** What validation decides *)

(** The public key a signing key declares is that of its secret. *)
Definition declared_matches (key : KeyMaterial) : Prop :=
  purpose (descriptor key) = CheckpointSigning ->
  forall pk, public_key (descriptor key) = Some pk ->
  exists k, checkpoint_signing_key (secret key) = Ok k
            /\ prefixed_ed25519_public_key_bytes pk = Some (ed25519_public_key k).

Lemma validate_declared_key_Ok key : validate_declared_key key = Ok tt <-> declared_matches key.
Proof.
  unfold validate_declared_key, declared_matches, checkpoint_public_key_bytes, derive_checkpoint_public_key.
  destruct (purpose (descriptor key)); try (split; [done|naive_solver]).
  destruct (public_key (descriptor key)) as [pk|]; [|split; [done|naive_solver]].
  destruct (prefixed_ed25519_public_key_bytes pk) as [d|] eqn:P; simpl;
    [|split; [done|intros D; destruct (D eq_refl pk eq_refl) as (k & _ & E); congruence]].
  destruct (checkpoint_signing_key (secret key)) as [k|e]; simpl;
    [|split; [done|intros D; by destruct (D eq_refl pk eq_refl) as (k & E & _)]].
  unfold reject_if, ct_eq. split.
  - intros D _ pk' E. case_if_in D; [done|]. b2p. inv_bind. eauto.
  - intros D. destruct (D eq_refl pk eq_refl) as (k' & E & P'). inv_bind.
    by rewrite bool_decide_eq_true_2 by congruence.
Qed.

Lemma validate_keys_loop_Ok ids ks :
  validate_keys_loop ids ks = Ok tt <->
  (NoDup (map (fun k => key_id (descriptor k)) ks)
   /\ Forall (fun id => bs_mem id ids = false) (map (fun k => key_id (descriptor k)) ks))
  /\ Forall declared_matches ks.
Proof.
  revert ids. induction ks as [|k ks IH]; intros ids; cbn [validate_keys_loop map].
  { split; [by repeat constructor|done]. }
  rewrite bs_insert_eq, fresh_cons, (Forall_cons_iff declared_matches), <- validate_declared_key_Ok.
  unfold reject_if. destruct (bs_mem _ ids); cbn [negb rbind]; [naive_solver|].
  destruct (validate_declared_key k) as [[]|]; cbn [rbind]; [rewrite IH|]; naive_solver.
Qed.
Lemma validate_keyring_Ok ks :
  validate_keyring ks = Ok tt <->
  NoDup (map (fun k => key_id (descriptor k)) ks)
  /\ (forall p, (length (List.filter (is_primary_for p) ks) <= 1)%nat)
  /\ length (List.filter (is_primary_for Namespace) ks) = 1%nat
  /\ Forall declared_matches ks.
Proof.
  unfold validate_keyring.
  assert (validate_keys_loop [] ks = Ok tt <->
    NoDup (map (fun k => key_id (descriptor k)) ks) /\ Forall declared_matches ks) as L.
  { rewrite validate_keys_loop_Ok. split; [tauto|]. intros [N D]. split_and!; try done.
    by apply Forall_forall. }
  assert (validate_primaries ks [Namespace; Content; Metadata; CheckpointSigning] = Ok tt <->
    forall p, (length (List.filter (is_primary_for p) ks) <= 1)%nat) as P.
  { cbn [validate_primaries]. unfold reject_if, len. split.
    - intros V p. repeat (case_if_in V; cbn [rbind] in V; [done|]). b2p. destruct p; lia.
    - intros F. repeat (case_if; b2p; [match goal with
        | B : 1 < Z.of_nat (length (List.filter (is_primary_for ?p) ks)) |- _ => specialize (F p); lia end|]).
      done. }
  assert (existsb (is_primary_for Namespace) ks = false <->
    length (List.filter (is_primary_for Namespace) ks) = 0%nat) as E.
  { clear. induction ks as [|k ks IH]; cbn [existsb List.filter]; [done|].
    destruct (is_primary_for Namespace k); [done|exact IH]. }
  destruct (validate_keys_loop [] ks) as [[]|]; cbn [rbind]; [|naive_solver].
  destruct (validate_primaries ks _) as [[]|]; cbn [rbind]; [|naive_solver].
  destruct P as [P _]. specialize (P eq_refl). pose proof (P Namespace). unfold reject_if.
  destruct (existsb _ ks); cbn [negb]; destruct E as [E1 E2]; destruct L as [L1 L2].
  - split; [|done]. intros _. destruct (L1 eq_refl). split_and!; try done.
    assert (length (List.filter (is_primary_for Namespace) ks) <> 0%nat) by (intros Z; by apply E2 in Z).
    lia.
  - split; [done|]. intros (_ & _ & ? & _). rewrite E1 in * by done. done.
Qed.

Lemma KeyRing_new_Ok ks ring : KeyRing_new ks = Ok ring <-> ring = {| keys := ks |} /\ validate_keyring ks = Ok tt.
Proof.
  unfold KeyRing_new. destruct (validate_keyring ks) as [[]|]; simpl; [|naive_solver].
  split; [intros; by inv_bind|naive_solver].
Qed.

(** ** Lookup *)

Lemma primary_key_Ok ring p key :
  primary_key ring p = Ok key -> In key (keys ring) /\ is_primary_for p key = true
  /\ List.filter (is_primary_for p) (keys ring) = [key].
Proof.
  unfold primary_key. destruct (List.filter _ _) as [|k [|]] eqn:F; intros E; inv_bind.
  assert (In key (List.filter (is_primary_for p) (keys ring))) as I by (rewrite F; by left).
  apply filter_In in I. tauto.
Qed.

Lemma is_primary_for_true p key :
  is_primary_for p key = true -> purpose (descriptor key) = p /\ is_enabled_for_lookup (status (descriptor key)) = true.
Proof. unfold is_primary_for. intros. b2p. by destruct (status (descriptor key)). Qed.

Lemma find_by_id ks key :
  NoDup (map (fun k => key_id (descriptor k)) ks) -> In key ks ->
  List.find (fun k => bool_decide (key_id (descriptor k) = key_id (descriptor key))) ks = Some key.
Proof.
  induction ks as [|k ks IH]; intros N I; [done|]. cbn [List.find map] in *.
  apply list.NoDup_cons in N as [A N]. rewrite list_elem_of_In in A.
  destruct I as [->|I]; [by rewrite bool_decide_eq_true_2|].
  rewrite bool_decide_eq_false_2; [by apply IH|]. intros E. apply A. rewrite E.
  exact (in_map (fun k => key_id (descriptor k)) _ _ I).
Qed.

Lemma enabled_key_by_id_Ok ks key p :
  validate_keyring ks = Ok tt -> In key ks -> purpose (descriptor key) = p ->
  is_enabled_for_lookup (status (descriptor key)) = true ->
  enabled_key_by_id {| keys := ks |} (key_id (descriptor key)) p = Ok key.
Proof.
  intros V I P E. apply validate_keyring_Ok in V as (N & _). unfold enabled_key_by_id. cbn [keys].
  rewrite find_by_id by done. cbn [ok_or rbind]. by rewrite bool_decide_eq_true_2, E.
Qed.

Lemma enabled_keys_loop_eq p primary enabled ks :
  enabled_keys_loop p primary enabled ks =
  (primary ++ List.filter (is_primary_for p) ks,
   enabled ++ List.filter (fun k => bool_decide (purpose (descriptor k) = p)
                                    && bool_decide (status (descriptor k) = Enabled)) ks).
Proof.
  revert primary enabled. induction ks as [|k ks IH]; intros primary enabled;
    cbn [enabled_keys_loop List.filter]; [by rewrite !app_nil_r|].
  replace (is_primary_for p k) with (bool_decide (purpose (descriptor k) = p) && is_primary (status (descriptor k)))
    by done.
  destruct (bool_decide (purpose (descriptor k) = p)); cbn [negb orb andb];
    [|apply IH].
  destruct (status (descriptor k)); cbn [is_enabled_for_lookup is_primary negb]; rewrite IH;
    try (rewrite <- app_assoc); done.
Qed.

(** ** Signing *)

Lemma declared_key_bytes key k :
  declared_matches key -> purpose (descriptor key) = CheckpointSigning ->
  checkpoint_signing_key (secret key) = Ok k ->
  match public_key (descriptor key) with
  | Some public_key => checkpoint_public_key_bytes public_key
  | None => derive_checkpoint_public_key (secret key)
  end = Ok (ed25519_public_key k).
Proof.
  intros D P K. destruct (public_key (descriptor key)) as [pk|] eqn:E.
  - destruct (D P pk E) as (k' & K' & B). unfold checkpoint_public_key_bytes. rewrite B.
    rewrite K in K'. by inv_bind.
  - unfold derive_checkpoint_public_key. by rewrite K.
Qed.

Lemma verify_own `{!PrimitivesLaws} ks key k payload :
  validate_keyring ks = Ok tt -> In key ks -> purpose (descriptor key) = CheckpointSigning ->
  is_enabled_for_lookup (status (descriptor key)) = true -> checkpoint_signing_key (secret key) = Ok k ->
  verify_checkpoint_payload {| keys := ks |} (key_id (descriptor key)) payload (ed25519_sign k payload) = Ok tt.
Proof.
  intros V I P E K. unfold verify_checkpoint_payload. rewrite enabled_key_by_id_Ok by done. cbn [rbind].
  apply validate_keyring_Ok in V as (_ & _ & _ & D). rewrite Forall_forall in D.
  rewrite (declared_key_bytes key k) by auto. cbn [rbind]. by rewrite ed25519_verify_sign.
Qed.

Lemma sign_Ok ring payload sig :
  sign_checkpoint_payload ring payload = Ok sig <->
  exists key k, primary_key ring CheckpointSigning = Ok key /\ checkpoint_signing_key (secret key) = Ok k
    /\ sig = {| sig_key_id := key_id (descriptor key); signature := ed25519_sign k payload |}.
Proof.
  unfold sign_checkpoint_payload. split.
  - intros. inv_bind. eauto.
  - intros (key & k & -> & K & ->). simpl. by rewrite K.
Qed.
End Keyring.

(** ** Sample keyrings *)

Definition sample_key (id : string) (p : KeyPurpose) (s : KeyStatus) (b : byte) : KeyMaterial :=
  {| descriptor := {| key_id := bytes_of_string id; purpose := p; status := s; created_at_ms := 0;
                      public_key := None |};
     secret := List.repeat b 32 |}.

Definition sample_keys : list KeyMaterial :=
  [sample_key "namespace" Namespace Primary x01; sample_key "old" Namespace Enabled x02;
   sample_key "signing" CheckpointSigning Primary x03].

(** The same repository after its signing key has been rotated. *)
Definition rotated_keys : list KeyMaterial :=
  [sample_key "namespace" Namespace Primary x01; sample_key "signing" CheckpointSigning Enabled x03;
   sample_key "signing-2" CheckpointSigning Primary x04].

(** ** Properties *)

Section KeyringProperties.
Context `{Primitives}.

(** C38: [KeyRing::new] accepts a set of keys exactly when no two keys share an
    id, no purpose has two primary keys, the namespace has one, and every
    public key declared for a signing key is the one its secret derives. *)
Theorem keyring_new_exact ks ring :
  KeyRing_new ks = Ok ring <->
  ring = {| keys := ks |}
  /\ NoDup (map (fun k => key_id (descriptor k)) ks)
  /\ (forall p, (length (List.filter (is_primary_for p) ks) <= 1)%nat)
  /\ length (List.filter (is_primary_for Namespace) ks) = 1%nat
  /\ Forall declared_matches ks.
Proof. by rewrite KeyRing_new_Ok, validate_keyring_Ok. Qed.

(** A signature outlives the rotation of its key: what a keyring signed with
    its primary signing key verifies in every valid keyring that still holds
    that key, under the same id, enabled for lookup.  The signing keyring
    itself is one of them. *)
Theorem signature_survives_rotation `{!PrimitivesLaws} ring key payload sig ks' ring' key' :
  primary_key ring CheckpointSigning = Ok key -> sign_checkpoint_payload ring payload = Ok sig ->
  KeyRing_new ks' = Ok ring' -> In key' ks' ->
  key_id (descriptor key') = key_id (descriptor key) -> secret key' = secret key ->
  purpose (descriptor key') = CheckpointSigning ->
  is_enabled_for_lookup (status (descriptor key')) = true ->
  verify_checkpoint_payload ring' (sig_key_id sig) payload (signature sig) = Ok tt.
Proof.
  intros P S R I Eid Es Pu En. apply KeyRing_new_Ok in R as [-> V].
  apply sign_Ok in S as (key0 & k & P0 & K & ->). rewrite P in P0. inv_bind.
  simpl. rewrite <- Eid. apply verify_own; try done. by rewrite Es.
Qed.

(** Looking a path up tries the primary namespace key first and then the
    other enabled namespace keys, in keyring order and no others: the first
    blind key is the one under which the path would be written. *)
Theorem lookup_primary_first ks ring path l :
  KeyRing_new ks = Ok ring -> derive_blind_index_keys_for_lookup ring path = Ok l ->
  exists first rest, l = first :: rest
    /\ derive_primary_blind_index_key ring path = Ok first
    /\ try_map (namespace_blind_key path)
         (List.filter (fun k => bool_decide (purpose (descriptor k) = Namespace)
                                && bool_decide (status (descriptor k) = Enabled)) ks) = Ok rest.
Proof.
  intros R L. apply KeyRing_new_Ok in R as [-> V]. apply validate_keyring_Ok in V as (_ & _ & C & _).
  unfold derive_blind_index_keys_for_lookup, enabled_keys in L. rewrite enabled_keys_loop_eq in L.
  unfold derive_primary_blind_index_key, primary_key. cbn [keys app] in *.
  destruct (List.filter (is_primary_for Namespace) ks) as [|k [|]]; try done.
  inv_bind. simpl in L. inv_bind. eauto 10.
Qed.

(** A freshly generated keyring is complete: given four draws of enough
    bytes from which the signing key derives, generation succeeds, every purpose has a
    primary key, and what the ring signs, the ring verifies. *)
Theorem generated_keyring_complete `{!PrimitivesLaws} c n m d k :
  SECRET_MIN_LEN <= len c -> SECRET_MIN_LEN <= len n -> SECRET_MIN_LEN <= len m ->
  SECRET_MIN_LEN <= len d -> checkpoint_signing_key c = Ok k ->
  exists ring, generate_random (Some c) (Some n) (Some m) (Some d) = Ok ring
    /\ (forall p, is_ok (primary_key ring p) = true)
    /\ forall payload, exists sig, sign_checkpoint_payload ring payload = Ok sig
       /\ verify_checkpoint_payload ring (sig_key_id sig) payload (signature sig) = Ok tt.
Proof.
  intros Lc Ln Lm Ld K.
  assert (forall s, SECRET_MIN_LEN <= len s -> random_secret (Some s) = Ok s) as Rs.
  { intros s L. unfold random_secret, SecretBytes_new. simpl. by destruct (Z.ltb_spec (len s) SECRET_MIN_LEN); [lia|]. }
  unfold generate_random. rewrite !Rs by done. cbn [rbind].
  unfold derive_checkpoint_public_key_descriptor, derive_checkpoint_public_key. rewrite K. cbn [rbind].
  match goal with |- context [KeyRing_new ?ks] => assert (validate_keyring ks = Ok tt) as V end.
  { apply validate_keyring_Ok. split_and!; [by apply (bool_decide_unpack _)|by intros []|done|].
    repeat constructor; intros P pk E; try discriminate.
    replace pk with (CHECKPOINT_PUBLIC_KEY_PREFIX ++ hex_encode (ed25519_public_key k)) by (apply Some_inj in E; exact E).
    exists k. split; [done|].
    unfold prefixed_ed25519_public_key_bytes. rewrite strip_prefix_app, hex_encode_length.
    unfold len. rewrite ed25519_public_key_length. apply hex_decode_encode. }
  unfold KeyRing_new. rewrite V. cbn [rbind]. eexists. split; [done|]. split; [by intros []|].
  intros payload. eexists. split.
  { apply sign_Ok. do 2 eexists. split; [reflexivity|]. split; [exact K|reflexivity]. }
  apply verify_own; try done. simpl. tauto.
Qed.

End KeyringProperties.

Import Reference.

Lemma signature_survives_rotation_witness :
  exists sig, sign_checkpoint_payload {| keys := sample_keys |} [x07] = Ok sig
    /\ verify_checkpoint_payload {| keys := rotated_keys |} (sig_key_id sig) [x07] (signature sig) = Ok tt.
Proof.
  eexists. split; [vm_compute; reflexivity|].
  apply (signature_survives_rotation {| keys := sample_keys |} (sample_key "signing" CheckpointSigning Primary x03)
           [x07] _ rotated_keys _ (sample_key "signing" CheckpointSigning Enabled x03));
    try (vm_compute; reflexivity). right. by left.
Defined.

Lemma lookup_primary_first_witness :
  exists l, derive_blind_index_keys_for_lookup {| keys := sample_keys |} [x61] = Ok l
    /\ length l = 2%nat
    /\ exists first rest, l = first :: rest
       /\ derive_primary_blind_index_key {| keys := sample_keys |} [x61] = Ok first.
Proof.
  eexists. split; [vm_compute; reflexivity|]. split; [reflexivity|].
  destruct (lookup_primary_first sample_keys {| keys := sample_keys |} [x61] _ ltac:(vm_compute; reflexivity)
              ltac:(vm_compute; reflexivity)) as (first & rest & E & P & _).
  exists first, rest. split; [exact E|exact P].
Defined.

Lemma generated_keyring_complete_witness :
  exists ring, generate_random (Some (List.repeat x01 32)) (Some (List.repeat x02 32))
                 (Some (List.repeat x03 32)) (Some (List.repeat x04 32)) = Ok ring
    /\ forall p, is_ok (primary_key ring p) = true.
Proof.
  edestruct (generated_keyring_complete (List.repeat x01 32) (List.repeat x02 32) (List.repeat x03 32)
               (List.repeat x04 32)) as (ring & E & P & _).
  - vm_compute. discriminate.
  - vm_compute. discriminate.
  - vm_compute. discriminate.
  - vm_compute. discriminate.
  - vm_compute. reflexivity.
  - exists ring. split; [exact E|exact P].
Defined.
