(* ===== verification/Aead.v ===== *)
(** * Sealing metadata and payload segments (crates/rs3-crypto/src)

    metadata.rs seals metadata with a fresh nonce; payload.rs seals each
    payload segment with a nonce derived from everything that identifies the
    segment.  Both bind associated data, and what they seal stays readable for
    as long as some keyring keeps the key.  The ciphers come from
    [External]. *)

From Stdlib Require Import Strings.String.
From S2P Require Import Prelude Ord Text Types External Keyring.
Open Scope Z_scope.
Import Keys.

Abbreviation CR A := (result CryptoError A).

(** ** Metadata (metadata.rs) *)

Definition METADATA_NONCE_LEN : Z := 12.
Definition METADATA_TAG_LEN : Z := 16.

Record MetadataSeal : Type := {
  seal_key_id : text;
  seal_nonce : list byte;
  seal_ciphertext : list byte;
  seal_tag : list byte
}.

(** ** Payload segments (payload.rs) *)

Definition XCHACHA20_NONCE_LEN : Z := 24.
Definition PAYLOAD_SEGMENT_NONCE_DOMAIN : list byte := bytes_of_string "rs3:payload-segment-nonce:v3".
Definition PAYLOAD_SEGMENT_AAD_DOMAIN : list byte := bytes_of_string "rs3:payload-segment-aad:v3".

Record PayloadSegmentContext : Type := {
  repository_context : list byte;
  containing_object : text;
  section_ordinal : option Z;        (* u32 *)
  carrier_id : list byte;            (* [u8; 32] *)
  attempt_id : list byte;            (* PayloadAttemptId: [u8; 32] *)
  part_ordinal : Z;                  (* u32 *)
  segment_ordinal : Z;               (* u64 *)
  plaintext_len : Z;                 (* u64 *)
  is_final : bool;
  layout_context : list byte
}.

Record PayloadSegmentSeal : Type := {
  segment_key_id : text;
  segment_ciphertext : list byte
}.

Definition nonce_context (c : PayloadSegmentContext) : list byte :=
  carrier_id c ++ attempt_id c ++ to_be_bytes 4 (part_ordinal c) ++ to_be_bytes 8 (segment_ordinal c).

(** A field with its length in front. *)
Definition framed (field : list byte) : list byte := to_be_bytes 8 (len field) ++ field.

Definition aad_bytes (c : PayloadSegmentContext) (key_id : text) : list byte :=
  PAYLOAD_SEGMENT_AAD_DOMAIN
  ++ flat_map framed [repository_context c; containing_object c; key_id]
  ++ match section_ordinal c with
     | None => [x00]
     | Some ordinal => x01 :: to_be_bytes 4 ordinal
     end
  ++ nonce_context c
  ++ to_be_bytes 8 (plaintext_len c)
  ++ [if is_final c then x01 else x00]
  ++ to_be_bytes 8 (len (layout_context c)) ++ layout_context c.

Definition associated_data (c : PayloadSegmentContext) (key_id : text) : CR (list byte) :=
  reject_if
    ((len (repository_context c) =? 0)
     || (len (repository_context c) >? 4096)
     || (len (containing_object c) >? 1024)
     || (len (layout_context c) >? 1024)
     || (len key_id >? 255)
     || (plaintext_len c =? 0)
     || (plaintext_len c >? 64 * 1024 * 1024)) AeadOperationFailed ;;?
  Ok (aad_bytes c key_id).

(** ** Associated data identifies the segment *)

(** What the Rust types guarantee of a context. *)
Definition wf_context (c : PayloadSegmentContext) : Prop :=
  (forall o, section_ordinal c = Some o -> is_u32 o) /\ length (carrier_id c) = 32%nat
  /\ length (attempt_id c) = 32%nat /\ is_u32 (part_ordinal c) /\ is_u64 (segment_ordinal c)
  /\ is_u64 (plaintext_len c).

Lemma to_be_bytes_inj n a b :
  0 <= a < 256 ^ Z.of_nat n -> 0 <= b < 256 ^ Z.of_nat n -> to_be_bytes n a = to_be_bytes n b -> a = b.
Proof. intros A B E. rewrite <- (from_to_be_bytes n a), <- (from_to_be_bytes n b), E by done. done. Qed.

Lemma to_be_bytes_app_inj n a b x y :
  0 <= a < 256 ^ Z.of_nat n -> 0 <= b < 256 ^ Z.of_nat n -> to_be_bytes n a ++ x = to_be_bytes n b ++ y ->
  a = b /\ x = y.
Proof.
  intros A B E. apply app_inj_1 in E as [E ->]; [|by rewrite !length_to_be_bytes].
  split; [by eapply to_be_bytes_inj|done].
Qed.

Lemma framed_app_inj a b x y :
  len a <= u64_max -> len b <= u64_max -> framed a ++ x = framed b ++ y -> a = b /\ x = y.
Proof.
  unfold framed. rewrite <- !app_assoc. intros A B E. pose proof (len_nonneg a). pose proof (len_nonneg b).
  apply to_be_bytes_app_inj in E as [L E]; [|simpl; lia..]. apply app_inj_1 in E; [done|]. unfold len in L. lia.
Qed.

Lemma ordinal_app_inj (o1 o2 : option Z) x y :
  (forall o, o1 = Some o -> is_u32 o) -> (forall o, o2 = Some o -> is_u32 o) ->
  match o1 with None => [x00] | Some o => x01 :: to_be_bytes 4 o end ++ x
  = match o2 with None => [x00] | Some o => x01 :: to_be_bytes 4 o end ++ y -> o1 = o2 /\ x = y.
Proof.
  unfold is_u32. intros U1 U2 E. destruct o1 as [o1|], o2 as [o2|]; cbn [app] in E; try discriminate E.
  - apply (f_equal List.tl) in E. cbn [List.tl] in E. specialize (U1 _ eq_refl). specialize (U2 _ eq_refl).
    apply to_be_bytes_app_inj in E as [-> ->]; [done|simpl; lia..].
  - by injection E as ->.
Qed.

Lemma associated_data_Ok c k a :
  associated_data c k = Ok a ->
  a = aad_bytes c k /\ len (repository_context c) <= 4096 /\ len (containing_object c) <= 1024
  /\ len (layout_context c) <= 1024 /\ len k <= 255 /\ plaintext_len c <= 64 * 1024 * 1024.
Proof.
  unfold associated_data, reject_if. case_if; [done|]. cbn [rbind]. intros E. b2p.
  apply (f_equal (fun r => match r with Ok x => x | Err _ => [] end)) in E. cbv beta iota in E. subst a.
  split; [done|]. lia.
Qed.

Lemma aad_bytes_inj c1 c2 k1 k2 :
  wf_context c1 -> wf_context c2 -> len (repository_context c1) <= 4096 -> len (repository_context c2) <= 4096 ->
  len (containing_object c1) <= 1024 -> len (containing_object c2) <= 1024 ->
  len (layout_context c1) <= 1024 -> len (layout_context c2) <= 1024 -> len k1 <= 255 -> len k2 <= 255 ->
  aad_bytes c1 k1 = aad_bytes c2 k2 -> c1 = c2 /\ k1 = k2.
Proof.
  intros (O1 & C1 & A1 & P1 & S1 & L1) (O2 & C2 & A2 & P2 & S2 & L2) **.
  match goal with X : aad_bytes _ _ = _ |- _ => rename X into E end. unfold aad_bytes, nonce_context, is_u32, is_u64 in *.
  cbn [flat_map] in E. rewrite !app_nil_r in E. rewrite <- ?app_assoc in E.
  apply app_inv_head in E. do 3 (apply framed_app_inj in E as [? E]; [|lia..]).
  apply ordinal_app_inj in E as [? E]; [|done..].
  do 2 (apply app_inj_1 in E as [? E]; [|lia]).
  apply to_be_bytes_app_inj in E as [? E]; [|simpl; lia..].
  do 2 (apply to_be_bytes_app_inj in E as [? E]; [|simpl; lia..]).
  apply app_inj_1 in E as [Ef E]; [|done]. apply to_be_bytes_app_inj in E as [_ E].
  2,3: pose proof (len_nonneg (layout_context c1)); pose proof (len_nonneg (layout_context c2)); simpl; lia.
  assert (is_final c1 = is_final c2) by (by destruct (is_final c1), (is_final c2)).
  destruct c1, c2. simpl in *. subst. done.
Qed.

Lemma associated_data_inj c1 c2 k1 k2 a :
  wf_context c1 -> wf_context c2 -> associated_data c1 k1 = Ok a -> associated_data c2 k2 = Ok a ->
  c1 = c2 /\ k1 = k2.
Proof.
  intros W1 W2 E1 E2. apply associated_data_Ok in E1 as (-> & ? & ? & ? & ? & _).
  apply associated_data_Ok in E2 as (E & ? & ? & ? & ? & _).
  by apply aad_bytes_inj.
Qed.

Section Aead.
Context `{Primitives}.

Definition metadata_cipher (secret : list byte) : CR (list byte) :=
  key <-? derive_hmac secret (bytes_of_string "rs3:metadata-aead-key:v2") (bytes_of_string "aes-256-gcm-siv") ;;
  reject_if (negb (len key =? 32)) AeadOperationFailed ;;? Ok key.

Definition encrypt_metadata_with_key (secret associated_data nonce plaintext : list byte) :
    CR (list byte * list byte) :=
  cipher <-? metadata_cipher secret ;;
  reject_if (negb (len nonce =? METADATA_NONCE_LEN)) AeadOperationFailed ;;?
  ok_or (gcm_siv_encrypt cipher nonce associated_data plaintext) AeadOperationFailed.

Definition decrypt_metadata_with_key (secret associated_data nonce ciphertext tag : list byte) : CR (list byte) :=
  cipher <-? metadata_cipher secret ;;
  reject_if (negb (len nonce =? METADATA_NONCE_LEN) || negb (len tag =? METADATA_TAG_LEN)) AeadOperationFailed ;;?
  ok_or (gcm_siv_decrypt cipher nonce associated_data ciphertext tag) AeadOperationFailed.

(** [filled] is the nonce the system source returned. *)
Definition seal_metadata_payload (ring : KeyRing) (filled : option (list byte)) (associated_data plaintext : list byte) :
    CR MetadataSeal :=
  key <-? primary_key ring Metadata ;;
  nonce <-? ok_or filled RandomnessUnavailable ;;
  '(ciphertext, tag) <-? encrypt_metadata_with_key (secret key) associated_data nonce plaintext ;;
  Ok {| seal_key_id := key_id (descriptor key); seal_nonce := nonce; seal_ciphertext := ciphertext; seal_tag := tag |}.

Definition open_metadata_payload (ring : KeyRing) (key_id : text)
    (associated_data nonce ciphertext tag : list byte) : CR (list byte) :=
  key <-? enabled_key_by_id ring key_id Metadata ;;
  decrypt_metadata_with_key (secret key) associated_data nonce ciphertext tag.

Definition payload_cipher (secret : list byte) : CR (list byte) :=
  key <-? derive_hmac secret (bytes_of_string "rs3:payload-aead-key:v1") (bytes_of_string "xchacha20poly1305") ;;
  reject_if (negb (len key =? 32)) AeadOperationFailed ;;? Ok key.

Definition encrypt_payload_with_key (secret associated_data plaintext nonce : list byte) : CR (list byte) :=
  cipher <-? payload_cipher secret ;;
  reject_if (negb (len nonce =? XCHACHA20_NONCE_LEN)) AeadOperationFailed ;;?
  ok_or (xchacha_encrypt cipher nonce associated_data plaintext) AeadOperationFailed.

Definition decrypt_payload_with_key (secret associated_data nonce ciphertext : list byte) : CR (list byte) :=
  cipher <-? payload_cipher secret ;;
  reject_if (negb (len nonce =? XCHACHA20_NONCE_LEN)) AeadOperationFailed ;;?
  ok_or (xchacha_decrypt cipher nonce associated_data ciphertext) AeadOperationFailed.

Definition derive_segment_nonce (secret associated_data nonce_context domain : list byte) : CR (list byte) :=
  derived <-? derive_hmac secret domain (framed associated_data ++ framed nonce_context) ;;
  reject_if (len derived <? XCHACHA20_NONCE_LEN) AeadOperationFailed ;;?
  Ok (firstn (Z.to_nat XCHACHA20_NONCE_LEN) derived).

Definition seal_payload_segment (ring : KeyRing) (context : PayloadSegmentContext) (plaintext : list byte) :
    CR PayloadSegmentSeal :=
  reject_if (negb (len plaintext =? plaintext_len context)) AeadOperationFailed ;;?
  key <-? primary_key ring Content ;;
  aad <-? associated_data context (key_id (descriptor key)) ;;
  nonce <-? derive_segment_nonce (secret key) aad (nonce_context context) PAYLOAD_SEGMENT_NONCE_DOMAIN ;;
  ciphertext <-? encrypt_payload_with_key (secret key) aad plaintext nonce ;;
  Ok {| segment_key_id := key_id (descriptor key); segment_ciphertext := ciphertext |}.

Definition open_payload_segment (ring : KeyRing) (key_id : text) (context : PayloadSegmentContext)
    (ciphertext : list byte) : CR (list byte) :=
  reject_if (negb (len ciphertext =? Z.min u64_max (plaintext_len context + 16))) AeadOperationFailed ;;?
  key <-? enabled_key_by_id ring key_id Content ;;
  aad <-? associated_data context key_id ;;
  nonce <-? derive_segment_nonce (secret key) aad (nonce_context context) PAYLOAD_SEGMENT_NONCE_DOMAIN ;;
  decrypt_payload_with_key (secret key) aad nonce ciphertext.

(** ** Opening what was sealed *)

(** A valid keyring still holds [key] for this purpose, enabled for lookup. *)
Definition still_enabled (ks : list KeyMaterial) (key : KeyMaterial) (p : KeyPurpose) : Prop :=
  validate_keyring ks = Ok tt /\ exists key', In key' ks /\ key_id (descriptor key') = key_id (descriptor key)
    /\ secret key' = secret key /\ purpose (descriptor key') = p
    /\ is_enabled_for_lookup (status (descriptor key')) = true.

Lemma still_enabled_lookup ks key p :
  still_enabled ks key p ->
  exists key', enabled_key_by_id {| keys := ks |} (key_id (descriptor key)) p = Ok key' /\ secret key' = secret key.
Proof.
  intros (V & key' & I & Eid & Es & P & En). exists key'. split; [|done]. rewrite <- Eid.
  by apply enabled_key_by_id_Ok.
Qed.

Lemma primary_still_enabled ks key p :
  validate_keyring ks = Ok tt -> primary_key {| keys := ks |} p = Ok key -> still_enabled ks key p.
Proof.
  intros V P. apply primary_key_Ok in P as (I & Pr & _). apply is_primary_for_true in Pr as [? ?].
  split; [done|]. by exists key.
Qed.

Context `{!PrimitivesLaws}.

Lemma open_sealed_metadata ring ks key filled aad plaintext sealed :
  primary_key ring Metadata = Ok key -> seal_metadata_payload ring filled aad plaintext = Ok sealed ->
  still_enabled ks key Metadata ->
  open_metadata_payload {| keys := ks |} (seal_key_id sealed) aad (seal_nonce sealed) (seal_ciphertext sealed)
    (seal_tag sealed) = Ok plaintext
  /\ seal_key_id sealed = key_id (descriptor key) /\ len (seal_nonce sealed) = METADATA_NONCE_LEN
  /\ len (seal_ciphertext sealed) = len plaintext /\ len (seal_tag sealed) = METADATA_TAG_LEN.
Proof.
  intros P S En. unfold seal_metadata_payload, encrypt_metadata_with_key in S. rewrite P in S. inv_bind. b2p.
  destruct (still_enabled_lookup _ _ _ En) as (key' & L & Es). cbn [seal_key_id seal_nonce seal_ciphertext seal_tag].
  match goal with X : gcm_siv_encrypt _ _ _ _ = Some _ |- _ =>
    pose proof (gcm_siv_lengths _ _ _ _ _ _ X) as [Lc Lt]; pose proof (gcm_siv_decrypt_encrypt _ _ _ _ _ _ X) as D end.
  unfold METADATA_NONCE_LEN, METADATA_TAG_LEN in *. split_and!; [|done|done|unfold len; lia|unfold len; lia].
  unfold open_metadata_payload, decrypt_metadata_with_key. rewrite L. cbn [rbind]. rewrite Es.
  match goal with X : metadata_cipher _ = Ok _ |- _ => rewrite X end. cbn [rbind].
  unfold reject_if, len at 2, METADATA_NONCE_LEN, METADATA_TAG_LEN. rewrite Lt.
  match goal with X : len _ = 12 |- _ => rewrite X end. cbn [Z.eqb Pos.eqb Z.of_nat Pos.of_succ_nat negb orb rbind].
  by rewrite D.
Qed.

Lemma open_sealed_segment ring ks key context plaintext sealed :
  primary_key ring Content = Ok key -> seal_payload_segment ring context plaintext = Ok sealed ->
  still_enabled ks key Content ->
  open_payload_segment {| keys := ks |} (segment_key_id sealed) context (segment_ciphertext sealed) = Ok plaintext
  /\ len (segment_ciphertext sealed) = len plaintext + 16.
Proof.
  intros P S En. unfold seal_payload_segment, encrypt_payload_with_key in S. rewrite P in S. inv_bind. b2p.
  destruct (still_enabled_lookup _ _ _ En) as (key' & L & Es). cbn [segment_key_id segment_ciphertext].
  match goal with X : xchacha_encrypt _ _ _ _ = Some _ |- _ =>
    pose proof (xchacha_length _ _ _ _ _ X) as Lc; pose proof (xchacha_decrypt_encrypt _ _ _ _ _ X) as D end.
  match goal with X : associated_data _ _ = Ok _ |- _ => rename X into A; pose proof A as B end.
  apply associated_data_Ok in B as (_ & _ & _ & _ & _ & B). split; [|unfold len; lia].
  unfold open_payload_segment, decrypt_payload_with_key, reject_if. rewrite L. cbn [rbind]. rewrite Es, A. cbn [rbind].
  match goal with |- context [negb (?n =? ?m)] => replace (n =? m) with true by (unfold len in *; lia) end. cbn [negb rbind].
  match goal with X : derive_segment_nonce _ _ _ _ = Ok _ |- _ => rewrite X end. cbn [rbind].
  match goal with X : payload_cipher _ = Ok _ |- _ => rewrite X end. cbn [rbind].
  match goal with X : len ?n = XCHACHA20_NONCE_LEN |- _ => rewrite X, Z.eqb_refl end. cbn [negb rbind]. by rewrite D.
Qed.

(** C32: A payload segment sealed under the primary content key opens under every
    valid keyring that still has that key enabled, whatever other keys have been
    rotated in, to exactly the plaintext, and its ciphertext is sixteen bytes
    longer, provided it is opened in the context it was sealed in. *)
Theorem sealed_segment_opens ring ks key context plaintext sealed :
  primary_key ring Content = Ok key -> seal_payload_segment ring context plaintext = Ok sealed ->
  still_enabled ks key Content ->
  open_payload_segment {| keys := ks |} (segment_key_id sealed) context (segment_ciphertext sealed) = Ok plaintext
  /\ len (segment_ciphertext sealed) = len plaintext + 16.
Proof. apply open_sealed_segment. Qed.
End Aead.

(** The data a segment's seal authenticates identifies the segment: two
    contexts of the Rust types that give the same associated data agree on the
    repository, the containing object, the section, the carrier, the attempt,
    the part, the segment, the length, whether it is the last, the layout and
    the key, so no segment can be moved, reordered or cut off under a seal. *)
Theorem segment_seal_identifies c1 c2 k1 k2 a :
  wf_context c1 -> wf_context c2 -> associated_data c1 k1 = Ok a -> associated_data c2 k2 = Ok a -> c1 = c2 /\ k1 = k2.
Proof. apply associated_data_inj. Qed.

(** ** Witnesses *)

Import Reference.

Module AeadSample.
Definition sealing : list KeyMaterial := [sample_key "namespace" Namespace Primary x01; sample_key "content" Content Primary x05].
Definition rotated : list KeyMaterial :=
  [sample_key "namespace" Namespace Primary x01; sample_key "content" Content Enabled x05;
   sample_key "content-2" Content Primary x06].
Definition context : PayloadSegmentContext :=
  {| repository_context := [x72]; containing_object := bytes_of_string "o/1"; section_ordinal := Some 2;
     carrier_id := List.repeat x0a 32; attempt_id := List.repeat x0b 32; part_ordinal := 1; segment_ordinal := 7;
     plaintext_len := 3; is_final := true; layout_context := [x6c] |}.
End AeadSample.

Lemma sealed_segment_opens_witness :
  exists sealed, seal_payload_segment {| keys := AeadSample.sealing |} AeadSample.context [x61; x62; x63] = Ok sealed
    /\ open_payload_segment {| keys := AeadSample.rotated |} (segment_key_id sealed) AeadSample.context
         (segment_ciphertext sealed) = Ok [x61; x62; x63].
Proof.
  eexists. split; [vm_compute; reflexivity|].
  apply (sealed_segment_opens {| keys := AeadSample.sealing |} AeadSample.rotated (sample_key "content" Content Primary x05)
           AeadSample.context [x61; x62; x63]).
  - vm_compute; reflexivity.
  - vm_compute; reflexivity.
  - split; [vm_compute; reflexivity|]. exists (sample_key "content" Content Enabled x05).
    split; [right; by left|]. by repeat split.
Defined.

Lemma segment_seal_identifies_witness :
  exists a, associated_data AeadSample.context (bytes_of_string "content") = Ok a
    /\ AeadSample.context = AeadSample.context /\ bytes_of_string "content" = bytes_of_string "content".
Proof.
  eexists. split; [vm_compute; reflexivity|].
  apply (segment_seal_identifies AeadSample.context AeadSample.context (bytes_of_string "content")
           (bytes_of_string "content") (aad_bytes AeadSample.context (bytes_of_string "content"))).
  1,2: split_and!; try done; intros o [= <-]; done.
  all: vm_compute; reflexivity.
Defined.
