(* ===== verification/Envelope.v ===== *)
(** * Repository envelopes (crates/rs3-crypto/src/envelope.rs)

    A keyring and a format root are stored outside the commits, encrypted under
    a wrapping key of the operator.  An envelope is one canonical CBOR map
    whose public fields are bound as associated data; the plaintext of a
    keyring is a canonical list of its keys in the order of purpose and id.
    [EnvelopeFacts] has the theorems. *)

From Stdlib Require Import Strings.String.
From S2P Require Import Prelude Ord Text Types Cbor External Keyring.
Open Scope Z_scope.
Import Keys.

Abbreviation CR A := (result CryptoError A).

(** ** Data *)

Definition REPOSITORY_ENVELOPE_VERSION : Z := 3.
Definition MAX_KEYRING_ENVELOPE_OBJECT_BYTES : Z := 16 * 1024 * 1024.
Definition MAX_FORMAT_ENVELOPE_OBJECT_BYTES : Z := 1024 * 1024.
Definition NONCE_LEN : Z := 12.
Definition TAG_LEN : Z := 16.
Definition MAX_PUBLIC_TEXT : Z := 1024.
Definition MAX_SALT : Z := 4096.
Definition MAX_KEYS : Z := 4096.
Definition MAX_SECRET : Z := 4096.
Definition MIN_REPOSITORY_SALT_LEN : Z := 32.

Inductive EnvelopePurpose : Type := Keyring | Format.

#[export] Instance EnvelopePurpose_eq_dec : EqDecision EnvelopePurpose.
Proof. solve_decision. Defined.

Definition envelope_purpose_tag (p : EnvelopePurpose) : Z :=
  match p with
  | Keyring => 0
  | Format => 1
  end.

Definition maximum (p : EnvelopePurpose) : Z :=
  match p with
  | Keyring => MAX_KEYRING_ENVELOPE_OBJECT_BYTES
  | Format => MAX_FORMAT_ENVELOPE_OBJECT_BYTES
  end.

Definition key_domain (p : EnvelopePurpose) : list byte :=
  match p with
  | Keyring => bytes_of_string "rs3:keyring-envelope-aead-key:v1"
  | Format => bytes_of_string "rs3:format-envelope-aead-key:v1"
  end.

Record RepositoryKeyContext : Type := {
  context_repository_id : text;
  context_salt : list byte
}.

Record RepositoryEnvelope : Type := {
  env_version : Z;               (* u16 *)
  env_purpose : EnvelopePurpose;
  env_generation : Z;            (* u64 *)
  env_repository_id : text;
  env_repository_salt : list byte;
  env_wrapping_key_id : text;
  env_nonce : list byte;
  env_ciphertext : list byte;
  env_tag : list byte
}.

Definition invalid (reason : string) : CryptoError := InvalidRepositoryEnvelope reason.

Definition RepositoryKeyContext_new (repository_id : text) (salt : list byte) : CR RepositoryKeyContext :=
  reject_if (len salt <? MIN_REPOSITORY_SALT_LEN) (RepositorySaltTooShort MIN_REPOSITORY_SALT_LEN) ;;?
  Ok {| context_repository_id := repository_id; context_salt := salt |}.

(** ** The envelope on the wire *)

Definition validate_shape (e : RepositoryEnvelope) : CR unit :=
  reject_if
    (negb (env_version e =? REPOSITORY_ENVELOPE_VERSION)
     || (len (env_repository_id e) >? MAX_PUBLIC_TEXT)
     || (len (env_repository_salt e) <? MIN_REPOSITORY_SALT_LEN)
     || (len (env_repository_salt e) >? MAX_SALT)
     || trim_is_empty (env_wrapping_key_id e)
     || (len (env_wrapping_key_id e) >? MAX_PUBLIC_TEXT)
     || negb (len (env_nonce e) =? NONCE_LEN)
     || negb (len (env_tag e) =? TAG_LEN)
     || (len (env_ciphertext e) >? maximum (env_purpose e))) (invalid "invalid envelope field or bound").

Definition write_public_fields (out : list byte) (e : RepositoryEnvelope) : list byte :=
  let out := write_u64 out 0 in
  let out := write_u64 out (env_version e) in
  let out := write_u64 out 1 in
  let out := write_u64 out (envelope_purpose_tag (env_purpose e)) in
  let out := write_u64 out 2 in
  let out := write_u64 out (env_generation e) in
  let out := write_u64 out 3 in
  let out := write_text out (env_repository_id e) in
  let out := write_u64 out 4 in
  let out := write_bytes out (env_repository_salt e) in
  let out := write_u64 out 5 in
  let out := write_text out (env_wrapping_key_id e) in
  let out := write_u64 out 6 in
  write_bytes out (env_nonce e).

Definition envelope_associated_data (e : RepositoryEnvelope) : list byte :=
  write_public_fields (write_map_len [] 7) e.

Definition to_object_bytes (e : RepositoryEnvelope) : CR (list byte) :=
  validate_shape e ;;?
  let bytes := write_u64 (write_public_fields (write_map_len [] 9) e) 7 in
  let length_header := write_u64 [] (len (env_ciphertext e)) in
  reject_if (len bytes + len length_header + len (env_ciphertext e) + 2 + TAG_LEN >? maximum (env_purpose e))
    (invalid "maximum encoded size exceeded") ;;?
  Ok (write_bytes (write_u64 (write_bytes bytes (env_ciphertext e)) 8) (env_tag e)).

Definition require (condition : bool) : result CborError unit := reject_if (negb condition) Invalid.

Definition field (key : Z) : R unit := k <- read_u64 ;; lift (require (k =? key)).

(** The closure of [from_object_bytes], up to the end of the input. *)
Definition read_envelope (purpose : EnvelopePurpose) : R RepositoryEnvelope :=
  n <- read_map_len ;; lift (require (n =? 9)) ;;
  field 0 ;;
  version <- read_u64 ;; lift (require (version =? REPOSITORY_ENVELOPE_VERSION)) ;;
  field 1 ;;
  tag <- read_u64 ;; lift (require (tag =? envelope_purpose_tag purpose)) ;;
  field 2 ;;
  generation <- read_u64 ;;
  field 3 ;;
  raw <- read_text_bounded MAX_PUBLIC_TEXT ;;
  repository_id <- lift (map_err (fun _ => Invalid) (RepositoryId_new raw)) ;;
  field 4 ;;
  repository_salt <- read_bytes_bounded MAX_SALT ;;
  field 5 ;;
  wrapping_key_id <- read_text_bounded MAX_PUBLIC_TEXT ;;
  field 6 ;;
  nonce <- read_bytes_bounded NONCE_LEN ;;
  field 7 ;;
  ciphertext <- read_bytes_bounded (maximum purpose) ;;
  field 8 ;;
  tag <- read_bytes_bounded TAG_LEN ;;
  mret {| env_version := REPOSITORY_ENVELOPE_VERSION; env_purpose := purpose; env_generation := generation;
          env_repository_id := repository_id; env_repository_salt := repository_salt;
          env_wrapping_key_id := wrapping_key_id; env_nonce := nonce; env_ciphertext := ciphertext;
          env_tag := tag |}.

Definition from_object_bytes (bytes : list byte) (purpose : EnvelopePurpose) : CR RepositoryEnvelope :=
  reject_if (len bytes >? maximum purpose) (invalid "maximum encoded size exceeded") ;;?
  decoded <-? map_err (fun _ => invalid "invalid canonical CBOR envelope")
                ('(e, r) <-? read_envelope purpose (Reader_new bytes) ;;
                 require (is_finished r) ;;? Ok e) ;;
  validate_shape decoded ;;?
  Ok decoded.

(** ** The plaintext of a keyring *)

Definition purpose_tag (p : KeyPurpose) : Z :=
  match p with
  | Namespace => 0
  | Content => 1
  | Metadata => 2
  | CheckpointSigning => 3
  end.

Definition key_status_tag (s : KeyStatus) : Z :=
  match s with
  | Primary => 0
  | Enabled => 1
  | Disabled => 2
  | Retired => 3
  end.

(** The order of [sort_by_key(|key| (purpose, id))]. *)
Definition identity_of (key : KeyMaterial) : Z * text :=
  (purpose_rank (purpose (descriptor key)), key_id (descriptor key)).

Definition key_purpose_of_tag (tag : Z) : CR KeyPurpose :=
  if tag =? 0 then Ok Namespace
  else if tag =? 1 then Ok Content
  else if tag =? 2 then Ok Metadata
  else if tag =? 3 then Ok CheckpointSigning
  else Err (invalid "invalid key purpose").

Definition key_status_of_tag (tag : Z) : CR KeyStatus :=
  if tag =? 0 then Ok Primary
  else if tag =? 1 then Ok Enabled
  else if tag =? 2 then Ok Disabled
  else if tag =? 3 then Ok Retired
  else Err (invalid "invalid key status").

(** The loop that adds up the room the keys need. *)
Fixpoint keys_capacity (capacity : Z) (ks : list KeyMaterial) : CR Z :=
  match ks with
  | [] => Ok capacity
  | key :: ks' =>
      let id_len := len (key_id (descriptor key)) in
      let secret_len := len (secret key) in
      reject_if ((id_len >? 255) || (secret_len >? MAX_SECRET)) (invalid "key material exceeds bound") ;;?
      keys_capacity (capacity + (64 + id_len + secret_len)) ks'
  end.

(** [From<CborError> for CryptoError]. *)
Definition cbor_invalid (_ : CborError) : CryptoError := invalid "invalid canonical CBOR".
Abbreviation KR := (M Reader CryptoError).
Definition cbor_read {A} (m : R A) : KR A := mmap_err cbor_invalid m.
Definition crypto_require (condition : bool) : CR unit := map_err cbor_invalid (require condition).

Section Envelope.
Context `{Primitives}.

Definition write_declared_key (out : list byte) (d : KeyDescriptor) : CR (list byte) :=
  match public_key d with
  | None => Ok (write_null out)
  | Some value =>
      reject_if (negb (bool_decide (purpose d = CheckpointSigning)))
        (invalid "public verification key has wrong purpose") ;;?
      bytes <-? ok_or (prefixed_ed25519_public_key_bytes value) (invalid "invalid public verification key") ;;
      Ok (write_bytes out bytes)
  end.

Fixpoint write_keys (out : list byte) (ks : list KeyMaterial) : CR (list byte) :=
  match ks with
  | [] => Ok out
  | key :: ks' =>
      let d := descriptor key in
      let out := write_array_len out 6 in
      let out := write_text out (key_id d) in
      let out := write_u64 out (purpose_tag (purpose d)) in
      let out := write_u64 out (key_status_tag (status d)) in
      let out := write_i64 out (created_at_ms d) in
      out <-? write_declared_key out d ;;
      let out := write_bytes out (secret key) in
      reject_if (len out >? MAX_KEYRING_ENVELOPE_OBJECT_BYTES) (invalid "key material exceeds bound") ;;?
      write_keys out ks'
  end.

Definition keyring_plaintext_bytes (ring : KeyRing) : CR (list byte) :=
  reject_if (len (keys ring) >? MAX_KEYS) (invalid "key count exceeds bound") ;;?
  let ks := sort_by_key identity_of (keys ring) in
  capacity <-? keys_capacity 16 ks ;;
  reject_if (capacity >? MAX_KEYRING_ENVELOPE_OBJECT_BYTES) (invalid "key material exceeds bound") ;;?
  let out := write_array_len [] 2 in
  let out := write_u64 out REPOSITORY_ENVELOPE_VERSION in
  let out := write_array_len out (len ks) in
  write_keys out ks.

Definition read_declared_key (p : KeyPurpose) : KR (option text) :=
  null_or cbor_invalid
    (bytes <- cbor_read (read_bytes_bounded 32) ;;
     lift (crypto_require ((len bytes =? 32) && bool_decide (p = CheckpointSigning))) ;;
     mret (CHECKPOINT_PUBLIC_KEY_PREFIX ++ hex_encode bytes)).

(** One turn of the decoding loop; [previous] is the identity of the key before. *)
Definition read_key (previous : option (Z * text)) : KR KeyMaterial :=
  n <- cbor_read read_array_len ;; lift (crypto_require (n =? 6)) ;;
  raw <- cbor_read (read_text_bounded 255) ;;
  id <- lift (map_err (fun _ => invalid "invalid key id") (KeyId_new raw)) ;;
  tag <- cbor_read read_u64 ;; p <- lift (key_purpose_of_tag tag) ;;
  tag <- cbor_read read_u64 ;; s <- lift (key_status_of_tag tag) ;;
  created <- cbor_read read_i64 ;;
  declared <- read_declared_key p ;;
  lift (crypto_require (match previous with
                        | Some old => ltb old (purpose_rank p, id)
                        | None => true
                        end)) ;;
  raw <- cbor_read (read_bytes_bounded MAX_SECRET) ;;
  secret <- lift (SecretBytes_new raw) ;;
  mret {| descriptor := {| key_id := id; purpose := p; status := s; created_at_ms := created; public_key := declared |};
          secret := secret |}.

Fixpoint read_keys (n : nat) (previous : option (Z * text)) : KR (list KeyMaterial) :=
  match n with
  | O => mret []
  | S n' =>
      key <- read_key previous ;;
      rest <- read_keys n' (Some (identity_of key)) ;;
      mret (key :: rest)
  end.

Definition read_keyring (plaintext_len : Z) : KR (list KeyMaterial) :=
  n <- cbor_read read_array_len ;; lift (crypto_require (n =? 2)) ;;
  version <- cbor_read read_u64 ;; lift (crypto_require (version =? REPOSITORY_ENVELOPE_VERSION)) ;;
  count <- cbor_read read_array_len ;;
  lift (crypto_require ((count >? 0) && (count <=? MAX_KEYS) && (count <=? plaintext_len / 7))) ;;
  read_keys (Z.to_nat count) None.

Definition decode_keyring_plaintext (plaintext : list byte) : CR KeyRing :=
  reject_if (len plaintext >? MAX_KEYRING_ENVELOPE_OBJECT_BYTES) (invalid "key material exceeds bound") ;;?
  '(ks, r) <-? read_keyring (len plaintext) (Reader_new plaintext) ;;
  crypto_require (is_finished r) ;;?
  KeyRing_new ks.

(** ** Sealing *)

Definition envelope_cipher (wrapping_key : list byte) (purpose : EnvelopePurpose) : CR (list byte) :=
  key <-? derive_hmac wrapping_key (key_domain purpose) (bytes_of_string "aes-256-gcm-siv") ;;
  reject_if (negb (len key =? 32)) AeadOperationFailed ;;? Ok key.

(** [filled] is the nonce the system source returned. *)
Definition envelope_seal (filled : option (list byte)) (purpose : EnvelopePurpose) (context : RepositoryKeyContext)
    (wrapping_key_id : text) (wrapping_key : list byte) (generation : Z) (plaintext : list byte) :
    CR RepositoryEnvelope :=
  reject_if
    ((len plaintext >? maximum purpose)
     || (len (context_repository_id context) >? MAX_PUBLIC_TEXT)
     || (len (context_salt context) >? MAX_SALT)
     || (len wrapping_key_id >? MAX_PUBLIC_TEXT)) (invalid "maximum encoded size exceeded") ;;?
  nonce <-? ok_or filled RandomnessUnavailable ;;
  let envelope ciphertext tag :=
    {| env_version := REPOSITORY_ENVELOPE_VERSION; env_purpose := purpose; env_generation := generation;
       env_repository_id := context_repository_id context; env_repository_salt := context_salt context;
       env_wrapping_key_id := wrapping_key_id; env_nonce := nonce; env_ciphertext := ciphertext; env_tag := tag |} in
  let empty := envelope [] (List.repeat x00 (Z.to_nat TAG_LEN)) in
  validate_shape empty ;;?
  let aad := envelope_associated_data empty in
  encoded <-? to_object_bytes empty ;;
  let overhead := len encoded + 8 in
  reject_if (match checked_add (len plaintext) overhead with
             | Some total => total >? maximum purpose
             | None => true
             end) (invalid "maximum encoded size exceeded") ;;?
  cipher <-? envelope_cipher wrapping_key purpose ;;
  '(ciphertext, tag) <-? ok_or (gcm_siv_encrypt cipher nonce aad plaintext) AeadOperationFailed ;;
  Ok (envelope ciphertext tag).

Definition seal_keyring_envelope (filled : option (list byte)) (ring : KeyRing) (context : RepositoryKeyContext)
    (wrapping_key_id : text) (wrapping_key : list byte) (generation : Z) : CR RepositoryEnvelope :=
  plaintext <-? keyring_plaintext_bytes ring ;;
  envelope_seal filled Keyring context wrapping_key_id wrapping_key generation plaintext.

Definition seal_format (filled : option (list byte)) (context : RepositoryKeyContext) (wrapping_key_id : text)
    (wrapping_key : list byte) (generation : Z) (plaintext : list byte) : CR RepositoryEnvelope :=
  envelope_seal filled Format context wrapping_key_id wrapping_key generation plaintext.

Definition envelope_open (e : RepositoryEnvelope) (purpose : EnvelopePurpose) (context : RepositoryKeyContext)
    (wrapping_key_id : text) (wrapping_key : list byte) : CR (list byte) :=
  validate_shape e ;;?
  reject_if
    (negb (bool_decide (env_purpose e = purpose))
     || negb (bool_decide (env_repository_id e = context_repository_id context))
     || negb (bool_decide (env_repository_salt e = context_salt context))
     || negb (bool_decide (env_wrapping_key_id e = wrapping_key_id)))
    (invalid "envelope purpose or public context mismatch") ;;?
  cipher <-? envelope_cipher wrapping_key purpose ;;
  ok_or (gcm_siv_decrypt cipher (env_nonce e) (envelope_associated_data e) (env_ciphertext e) (env_tag e))
    AeadOperationFailed.

Definition open_format (e : RepositoryEnvelope) (context : RepositoryKeyContext) (wrapping_key_id : text)
    (wrapping_key : list byte) : CR (list byte) :=
  envelope_open e Format context wrapping_key_id wrapping_key.

Definition open_keyring (e : RepositoryEnvelope) (context : RepositoryKeyContext) (wrapping_key_id : text)
    (wrapping_key : list byte) : CR KeyRing :=
  plaintext <-? envelope_open e Keyring context wrapping_key_id wrapping_key ;;
  decode_keyring_plaintext plaintext.

Definition rewrap (filled : option (list byte)) (e : RepositoryEnvelope) (context : RepositoryKeyContext)
    (old_wrapping_key_id : text) (old_wrapping_key : list byte) (new_wrapping_key_id : text)
    (new_wrapping_key : list byte) (new_generation : Z) : CR RepositoryEnvelope :=
  ring <-? open_keyring e context old_wrapping_key_id old_wrapping_key ;;
  seal_keyring_envelope filled ring context new_wrapping_key_id new_wrapping_key new_generation.

Definition envelope_digest (e : RepositoryEnvelope) : CR text :=
  bytes <-? to_object_bytes e ;; Ok (hex_encode (sha256 bytes)).
End Envelope.
