(* ===== verification/EnvelopeFacts.v ===== *)
(** * Facts about repository envelopes

    The envelope has an exact codec and binds its public fields; what is sealed
    opens again, and a keyring survives storage and rewrapping. *)

From Stdlib Require Import Strings.String Sorting.Sorted Permutation.
From S2P Require Import Prelude Ord Text Types Cbor External Keyring Envelope.
Open Scope Z_scope.
Import Keys.

(** ** The envelope codec *)

(** What the Rust types guarantee of an envelope. *)
Definition wf_envelope (e : RepositoryEnvelope) : Prop :=
  is_u64 (env_generation e) /\ wf_name (env_repository_id e) /\ utf8_valid (env_wrapping_key_id e) = true.

Definition shape_ok (e : RepositoryEnvelope) : Prop :=
  env_version e = REPOSITORY_ENVELOPE_VERSION /\ len (env_repository_id e) <= MAX_PUBLIC_TEXT
  /\ MIN_REPOSITORY_SALT_LEN <= len (env_repository_salt e) <= MAX_SALT
  /\ trim_is_empty (env_wrapping_key_id e) = false /\ len (env_wrapping_key_id e) <= MAX_PUBLIC_TEXT
  /\ len (env_nonce e) = NONCE_LEN /\ len (env_tag e) = TAG_LEN /\ len (env_ciphertext e) <= maximum (env_purpose e).

Definition enc_public (e : RepositoryEnvelope) : list byte :=
  enc_u64 0 ++ enc_u64 (env_version e) ++ enc_u64 1 ++ enc_u64 (envelope_purpose_tag (env_purpose e))
  ++ enc_u64 2 ++ enc_u64 (env_generation e) ++ enc_u64 3 ++ enc_text (env_repository_id e)
  ++ enc_u64 4 ++ enc_bytes (env_repository_salt e) ++ enc_u64 5 ++ enc_text (env_wrapping_key_id e)
  ++ enc_u64 6 ++ enc_bytes (env_nonce e).

Definition enc_envelope (e : RepositoryEnvelope) : list byte :=
  enc_map_len 9 ++ enc_public e ++ enc_u64 7 ++ enc_bytes (env_ciphertext e) ++ enc_u64 8 ++ enc_bytes (env_tag e).

Lemma write_public_fields_app out e : write_public_fields out e = out ++ enc_public e.
Proof. unfold write_public_fields, enc_public. autorewrite with cbor. by rewrite <- !app_assoc. Qed.

Lemma validate_shape_Ok e : validate_shape e = Ok tt <-> shape_ok e.
Proof.
  unfold validate_shape, shape_ok, reject_if. case_if.
  - split; [done|]. intros (? & ? & ? & ? & ? & ? & ? & ?). exfalso.
    repeat (apply orb_true_iff in Heqb as [Heqb|Heqb]); b2p; congruence || lia.
  - split; [|done]. intros _. repeat (apply orb_false_iff in Heqb as [Heqb ?]). b2p. split_and!; try done; lia.
Qed.

Lemma len_enc_envelope e :
  shape_ok e ->
  len (enc_envelope e)
  = len (enc_map_len 9 ++ enc_public e ++ enc_u64 7) + len (enc_u64 (len (env_ciphertext e)))
    + len (env_ciphertext e) + 2 + TAG_LEN.
Proof.
  intros (_ & _ & _ & _ & _ & _ & T & _). unfold enc_envelope. rewrite !len_app, !len_enc_bytes, T, (enc_u64_head (len _)).
  rewrite (len_head_eq 2 (len (env_ciphertext e))), (len_head_eq 0 (len (env_ciphertext e))).
  change (len (head 2 TAG_LEN)) with 1. change (len (enc_u64 8)) with 1. unfold TAG_LEN. lia.
Qed.

Lemma to_object_bytes_Ok e bs :
  to_object_bytes e = Ok bs <-> shape_ok e /\ len bs <= maximum (env_purpose e) /\ bs = enc_envelope e.
Proof.
  unfold to_object_bytes. rewrite write_public_fields_app. autorewrite with cbor. rewrite <- !app_assoc. cbn [app].
  pose proof (validate_shape_Ok e) as V. destruct (validate_shape e) as [[]|]; cbn [rbind].
  2:{ split; [done|]. intros (S & _). apply V in S. done. }
  assert (shape_ok e) as S by (by apply V). pose proof (len_enc_envelope e S) as L.
  unfold reject_if. case_if; b2p; cbn [rbind].
  - split; [done|]. intros (_ & B & ->). lia.
  - fold (enc_envelope e). split; [|by intros (_ & _ & ->)]. intros E. assert (enc_envelope e = bs) as <- by congruence.
    split_and!; done || lia.
Qed.

Lemma require_true c : c = true -> require c = Ok tt.
Proof. by intros ->. Qed.

Lemma require_inv c u : require c = Ok u -> c = true.
Proof. unfold require, reject_if. by destruct c. Qed.

Lemma reads_field k : is_u64 k -> reads (field k) (enc_u64 k) tt.
Proof.
  intros U. unfold field. eapply reads_bind_end; [by apply reads_u64|]. apply reads_lift, require_true, Z.eqb_refl.
Qed.

Lemma accepts_field k : accepts (field k) (fun _ c => c = enc_u64 k).
Proof.
  intros s l u s' V Eq. unfold field in Eq. inv_bind. fwd require_inv. b2p. subst. all_accepts. by chunk.
Qed.
#[local] Hint Resolve accepts_field : codec.

Lemma reads_envelope e :
  wf_envelope e -> shape_ok e -> reads (read_envelope (env_purpose e)) (enc_envelope e) e.
Proof.
  intros (G & Nr & Uw) (Ve & Lr & Ls & Tw & Lw & Ln & Lt & Lc). destruct e as [v p g rid salt wid nonce ct tag].
  cbn [env_version env_purpose env_generation env_repository_id env_repository_salt env_wrapping_key_id env_nonce
       env_ciphertext env_tag] in *. subst v. unfold read_envelope, enc_envelope, enc_public.
  cbn [env_version env_purpose env_generation env_repository_id env_repository_salt env_wrapping_key_id env_nonce
       env_ciphertext env_tag]. rewrite <- !app_assoc.
  assert (maximum p <= 16 * 1024 * 1024) by (by destruct p).
  unfold MAX_PUBLIC_TEXT, MAX_SALT, NONCE_LEN, TAG_LEN in *.
  eapply reads_bind; [apply reads_map_len; unfold is_u64; lia|]. eapply reads_bind_nil; [by apply reads_lift|].
  eapply reads_bind; [apply reads_field; unfold is_u64; lia|].
  eapply reads_bind; [apply reads_u64; unfold is_u64, REPOSITORY_ENVELOPE_VERSION; lia|].
  eapply reads_bind_nil; [by apply reads_lift|].
  eapply reads_bind; [apply reads_field; unfold is_u64; lia|].
  eapply reads_bind; [apply reads_u64; unfold is_u64; destruct p; cbn [envelope_purpose_tag]; lia|].
  eapply reads_bind_nil; [apply reads_lift, require_true, Z.eqb_refl|].
  eapply reads_bind; [apply reads_field; unfold is_u64; lia|]. eapply reads_bind; [by apply reads_u64|].
  eapply reads_bind; [apply reads_field; unfold is_u64; lia|].
  eapply reads_bind; [apply reads_text_bounded; [lia..|by apply is_name_utf8]|].
  eapply reads_bind_nil; [apply reads_lift; unfold RepositoryId_new; by rewrite validate_non_empty_ok|].
  eapply reads_bind; [apply reads_field; unfold is_u64; lia|]. eapply reads_bind; [apply reads_bytes_bounded; lia|].
  eapply reads_bind; [apply reads_field; unfold is_u64; lia|]. eapply reads_bind; [apply reads_text_bounded; [lia..|done]|].
  eapply reads_bind; [apply reads_field; unfold is_u64; lia|]. eapply reads_bind; [apply reads_bytes_bounded; lia|].
  eapply reads_bind; [apply reads_field; unfold is_u64; lia|]. eapply reads_bind; [apply reads_bytes_bounded; lia|].
  eapply reads_bind; [apply reads_field; unfold is_u64; lia|]. eapply reads_bind_end; [apply reads_bytes_bounded; lia|].
  apply reads_ret.
Qed.

Lemma accepts_envelope p :
  accepts (read_envelope p) (fun e c => wf_envelope e /\ env_purpose e = p /\ c = enc_envelope e).
Proof.
  intros s l e s' V Eq. unfold read_envelope in Eq. inv_bind. repeat fwd require_inv. b2p. subst.
  repeat match goal with X : map_err _ (RepositoryId_new _) = Ok _ |- _ => unfold RepositoryId_new in X end.
  inv_bind. repeat fwd validate_non_empty_inv. destruct_and?. subst. all_accepts. chunk.
  unfold wf_envelope. cbn [env_generation env_repository_id env_wrapping_key_id env_purpose].
  split; [split_and!; try done; by apply wf_name_intro|]. split; [done|].
  unfold enc_envelope, enc_public. cbn [env_version env_purpose env_generation env_repository_id env_repository_salt
    env_wrapping_key_id env_nonce env_ciphertext env_tag]. by rewrite <- ?app_assoc.
Qed.

Lemma envelope_decode_iff bs p e :
  from_object_bytes bs p = Ok e <-> wf_envelope e /\ env_purpose e = p /\ to_object_bytes e = Ok bs.
Proof.
  rewrite to_object_bytes_Ok. unfold from_object_bytes. assert (maximum p <= 16 * 1024 * 1024) by (by destruct p). split.
  - intros D. inv_bind. repeat fwd require_inv. b2p. whole_input accepts_envelope.
    destruct Heqr as (W & P & E). apply validate_shape_Ok in Heqr0. rewrite P. split_and!; done || lia.
  - intros (W & P & S & B & ->). rewrite P in B. unfold reject_if at 1. case_if; [b2p; lia|]. cbn [rbind].
    rewrite <- P. destruct (reads_all _ _ _ (reads_envelope e W S)) as (r & -> & Fin); [lia|]. cbn [rbind].
    rewrite Fin. cbn [require negb reject_if rbind map_err]. by rewrite (proj2 (validate_shape_Ok e)).
Qed.

(** ** The plaintext of a keyring *)

Section KeyringPlaintext.
Context `{Primitives}.

(** What the Rust types guarantee of key material. *)
Definition wf_key (k : KeyMaterial) : Prop :=
  wf_name (key_id (descriptor k)) /\ is_i64 (created_at_ms (descriptor k)) /\ SECRET_MIN_LEN <= len (secret k).

(** The public key as it comes back from storage: the lowercase spelling of
    the same bytes. *)
Definition stored_public_key (value : text) : option text :=
  bytes ← prefixed_ed25519_public_key_bytes value;
  Some (CHECKPOINT_PUBLIC_KEY_PREFIX ++ hex_encode bytes).

Definition stored_key (k : KeyMaterial) : KeyMaterial :=
  let d := descriptor k in
  {| descriptor := {| key_id := key_id d; purpose := purpose d; status := status d; created_at_ms := created_at_ms d;
                      public_key := public_key d ≫= stored_public_key |};
     secret := secret k |}.

Definition stored_ring (ring : KeyRing) : KeyRing :=
  {| keys := map stored_key (sort_by_key identity_of (keys ring)) |}.

(** The key fits the format, its public key in the lowercase spelling. *)
Definition canonical_key (k : KeyMaterial) : Prop :=
  wf_key k /\ len (key_id (descriptor k)) <= 255 /\ len (secret k) <= MAX_SECRET
  /\ forall value, public_key (descriptor k) = Some value ->
       purpose (descriptor k) = CheckpointSigning
       /\ exists bytes, length bytes = 32%nat /\ value = CHECKPOINT_PUBLIC_KEY_PREFIX ++ hex_encode bytes.

Definition before (a b : KeyMaterial) : Prop := cmp (identity_of a) (identity_of b) = Lt.

Definition enc_declared (o : option text) : list byte :=
  enc_or_null (fun value => enc_bytes (default [] (prefixed_ed25519_public_key_bytes value))) o.

Definition enc_key (k : KeyMaterial) : list byte :=
  let d := descriptor k in
  enc_array_len 6 ++ enc_text (key_id d) ++ enc_u64 (purpose_tag (purpose d)) ++ enc_u64 (key_status_tag (status d))
  ++ enc_i64 (created_at_ms d) ++ enc_declared (public_key d) ++ enc_bytes (secret k).

Definition enc_keys (ks : list KeyMaterial) : list byte :=
  enc_array_len 2 ++ enc_u64 REPOSITORY_ENVELOPE_VERSION ++ enc_array_len (len ks) ++ flat_map enc_key ks.

(** *** Writing *)

Lemma write_declared_key_Ok out d out' :
  write_declared_key out d = Ok out' ->
  out' = out ++ enc_declared (public_key d)
  /\ forall value, public_key d = Some value ->
       purpose d = CheckpointSigning /\ is_Some (prefixed_ed25519_public_key_bytes value).
Proof.
  unfold write_declared_key, enc_declared. destruct (public_key d) as [value|]; intros E.
  - inv_bind. b2p. rewrite write_bytes_app. cbn [enc_or_null]. split.
    + match goal with X : prefixed_ed25519_public_key_bytes value = Some _ |- _ => by rewrite X end.
    + intros ? [= <-]. split; [done|eauto].
  - inv_bind. rewrite write_null_app. split; [done|]. intros ? [=].
Qed.

Lemma write_keys_Ok ks out bs :
  write_keys out ks = Ok bs ->
  bs = out ++ flat_map enc_key ks /\ (ks <> [] -> len bs <= MAX_KEYRING_ENVELOPE_OBJECT_BYTES)
  /\ Forall (fun k => forall value, public_key (descriptor k) = Some value ->
       purpose (descriptor k) = CheckpointSigning /\ is_Some (prefixed_ed25519_public_key_bytes value)) ks.
Proof.
  revert out. induction ks as [|k ks IH]; intros out E; cbn [write_keys flat_map] in *.
  { inv_bind. rewrite app_nil_r. done. }
  inv_bind. b2p. fwd write_declared_key_Ok. destruct Heqr as [-> D]. apply IH in E as (-> & L & F).
  autorewrite with cbor in *. split_and!; [|intros _|by constructor].
  - unfold enc_key. by rewrite <- !app_assoc.
  - destruct ks as [|k' ks]; [cbn [flat_map]; rewrite app_nil_r; lia|by apply L].
Qed.

Lemma keys_capacity_Ok ks capacity n :
  keys_capacity capacity ks = Ok n ->
  Forall (fun k => len (key_id (descriptor k)) <= 255 /\ len (secret k) <= MAX_SECRET) ks.
Proof.
  revert capacity. induction ks as [|k ks IH]; intros capacity E; cbn [keys_capacity] in E; [done|].
  inv_bind. b2p. constructor; [split; lia|by eapply IH].
Qed.

Lemma keyring_plaintext_Ok ring bs :
  let ks := sort_by_key identity_of (keys ring) in
  keyring_plaintext_bytes ring = Ok bs ->
  bs = enc_keys ks /\ len ks <= MAX_KEYS /\ (ks <> [] -> len bs <= MAX_KEYRING_ENVELOPE_OBJECT_BYTES)
  /\ Forall (fun k => len (key_id (descriptor k)) <= 255 /\ len (secret k) <= MAX_SECRET) ks
  /\ Forall (fun k => forall value, public_key (descriptor k) = Some value ->
       purpose (descriptor k) = CheckpointSigning /\ is_Some (prefixed_ed25519_public_key_bytes value)) ks.
Proof.
  intros ks. unfold keyring_plaintext_bytes. fold ks. intros E. inv_bind. b2p.
  match goal with X : keys_capacity _ _ = Ok _ |- _ => apply keys_capacity_Ok in X as C end.
  apply write_keys_Ok in E as (-> & L & F). autorewrite with cbor in *.
  split; [unfold enc_keys; by rewrite <- ?app_assoc|]. split_and!; try done.
  unfold ks, len. rewrite sort_by_key_length. unfold len in *. lia.
Qed.

(** *** Reading *)

Lemma crypto_require_true c : c = true -> crypto_require c = Ok tt.
Proof. by intros ->. Qed.

Lemma crypto_require_inv c u : crypto_require c = Ok u -> c = true.
Proof. unfold crypto_require, require, reject_if. by destruct c. Qed.

Lemma key_purpose_of_tag_ok p : key_purpose_of_tag (purpose_tag p) = Ok p.
Proof. by destruct p. Qed.

Lemma key_purpose_of_tag_inv t p : key_purpose_of_tag t = Ok p -> t = purpose_tag p.
Proof. unfold key_purpose_of_tag. repeat case_if; b2p; intros; by inv_bind. Qed.

Lemma key_status_of_tag_ok s : key_status_of_tag (key_status_tag s) = Ok s.
Proof. by destruct s. Qed.

Lemma key_status_of_tag_inv t s : key_status_of_tag t = Ok s -> t = key_status_tag s.
Proof. unfold key_status_of_tag. repeat case_if; b2p; intros; by inv_bind. Qed.

Context `{!PrimitivesLaws}.

Lemma prefixed_canonical bytes :
  length bytes = 32%nat ->
  prefixed_ed25519_public_key_bytes (CHECKPOINT_PUBLIC_KEY_PREFIX ++ hex_encode bytes) = Some bytes.
Proof.
  intros L. unfold prefixed_ed25519_public_key_bytes. rewrite strip_prefix_app, hex_encode_length, hex_decode_encode.
  unfold len. by rewrite L.
Qed.

Lemma stored_canonical k : canonical_key k -> stored_key k = k.
Proof.
  intros (_ & _ & _ & P). destruct k as [[id p s c pk] sec]. unfold stored_key.
  cbn [descriptor key_id purpose status created_at_ms public_key secret] in *. repeat f_equal.
  destruct pk as [v|]; [|done]. destruct (P v eq_refl) as (_ & bytes & L & ->).
  change (stored_public_key (CHECKPOINT_PUBLIC_KEY_PREFIX ++ hex_encode bytes)
    = Some (CHECKPOINT_PUBLIC_KEY_PREFIX ++ hex_encode bytes)). unfold stored_public_key. by rewrite prefixed_canonical.
Qed.

Lemma reads_declared_key p o :
  (forall value, o = Some value -> p = CheckpointSigning
     /\ exists bytes, length bytes = 32%nat /\ value = CHECKPOINT_PUBLIC_KEY_PREFIX ++ hex_encode bytes) ->
  reads (read_declared_key p) (enc_declared o) o.
Proof.
  intros P. apply reads_null_or. intros value ->. destruct (P value eq_refl) as (-> & bytes & L & ->).
  rewrite prefixed_canonical by done. cbn [from_option id]. assert (len bytes = 32) as Lb by (unfold len; lia).
  split; [apply starts_bytes; lia|]. eapply reads_bind_end; [apply reads_mmap_err, reads_bytes_bounded; lia|].
  eapply reads_bind_nil; [apply reads_lift, crypto_require_true; by rewrite Lb|]. apply reads_ret.
Qed.

Lemma accepts_declared_key p :
  accepts (read_declared_key p) (fun o c =>
    (forall value, o = Some value -> p = CheckpointSigning
       /\ exists bytes, length bytes = 32%nat /\ value = CHECKPOINT_PUBLIC_KEY_PREFIX ++ hex_encode bytes)
    /\ c = enc_declared o).
Proof.
  eapply accepts_weaken.
  - apply (accepts_null_or _ _ (fun value c => p = CheckpointSigning /\ exists bytes, length bytes = 32%nat
      /\ value = CHECKPOINT_PUBLIC_KEY_PREFIX ++ hex_encode bytes /\ c = enc_bytes bytes)).
    intros s l value s' V Eq. unfold cbor_read in Eq. inv_bind. fwd crypto_require_inv. b2p. all_accepts. chunk.
    split; [done|]. eexists. split_and!; [|done|done]. unfold len in *. lia.
  - intros [value|] c; [|by intros ->]. intros (-> & bytes & L & -> & ->). unfold enc_declared. cbn [enc_or_null].
    rewrite prefixed_canonical by done. split; [|done]. intros ? [= <-]. eauto.
Qed.
#[local] Hint Resolve accepts_declared_key : codec.

Lemma reads_key previous k :
  canonical_key k -> (forall old, previous = Some old -> cmp old (identity_of k) = Lt) ->
  reads (read_key previous) (enc_key k) k.
Proof.
  intros ((W & C & Ls) & Li & Lm & P) Pr. destruct k as [[id p s c pk] sec]. unfold read_key, enc_key, cbor_read.
  cbn [descriptor key_id purpose status created_at_ms public_key secret] in *. unfold MAX_SECRET, SECRET_MIN_LEN in *.
  eapply reads_bind; [apply reads_mmap_err, reads_array_len; unfold is_u64; lia|].
  eapply reads_bind_nil; [by apply reads_lift|].
  eapply reads_bind; [apply reads_mmap_err, reads_text_bounded; [lia..|by apply is_name_utf8]|].
  eapply reads_bind_nil; [apply reads_lift; unfold KeyId_new; by rewrite validate_non_empty_ok|].
  eapply reads_bind; [apply reads_mmap_err, reads_u64; unfold is_u64; destruct p; cbn [purpose_tag]; lia|].
  eapply reads_bind_nil; [apply reads_lift, key_purpose_of_tag_ok|].
  eapply reads_bind; [apply reads_mmap_err, reads_u64; unfold is_u64; destruct s; cbn [key_status_tag]; lia|].
  eapply reads_bind_nil; [apply reads_lift, key_status_of_tag_ok|].
  eapply reads_bind; [by apply reads_mmap_err, reads_i64|].
  eapply reads_bind; [by apply reads_declared_key|].
  eapply reads_bind_nil; [apply reads_lift, crypto_require_true; destruct previous as [old|]; [|done];
    apply ltb_lt; by apply Pr|].
  eapply reads_bind_end; [apply reads_mmap_err, reads_bytes_bounded; lia|].
  eapply reads_bind_nil; [apply reads_lift; unfold SecretBytes_new, SECRET_MIN_LEN, reject_if; case_if; [b2p; lia|done]|].
  apply reads_ret.
Qed.

Lemma accepts_key previous :
  accepts (read_key previous) (fun k c =>
    canonical_key k /\ (forall old, previous = Some old -> cmp old (identity_of k) = Lt) /\ c = enc_key k).
Proof.
  intros s l k s' V Eq. unfold read_key, cbor_read, SecretBytes_new, KeyId_new in Eq. inv_bind.
  repeat fwd crypto_require_inv. b2p. fwd key_purpose_of_tag_inv. fwd key_status_of_tag_inv. subst.
  repeat fwd validate_non_empty_inv. destruct_and?. subst. all_accepts. chunk.
  unfold canonical_key, wf_key. cbn [descriptor key_id purpose status created_at_ms public_key secret].
  split; [split_and!; try done; by apply wf_name_intro|]. split; [|by unfold enc_key].
  intros old ->. by apply ltb_lt.
Qed.
#[local] Hint Resolve accepts_key : codec.

Definition above (previous : option (Z * text)) (ks : list KeyMaterial) : Prop :=
  forall old, previous = Some old -> Forall (fun k => cmp old (identity_of k) = Lt) ks.

Lemma above_next previous k ks :
  above previous [k] -> above (Some (identity_of k)) ks -> above previous (k :: ks).
Proof.
  intros A B old E. pose proof (proj1 (proj1 (Forall_cons_iff _ _ _) (A old E))) as L. constructor; [done|].
  eapply Forall_impl; [|exact (B _ eq_refl)]. intros x X. eapply cmp_trans; [exact L|exact X].
Qed.

Lemma reads_keys ks previous :
  Forall canonical_key ks -> StronglySorted before ks -> above previous ks ->
  reads (read_keys (length ks) previous) (flat_map enc_key ks) ks.
Proof.
  revert previous. induction ks as [|k ks IH]; intros previous C S A; cbn [length read_keys flat_map]; [apply reads_ret|].
  apply Forall_cons_iff in C as [Ck C]. apply StronglySorted_inv in S as [S F].
  eapply reads_bind; [apply reads_key; [done|]|].
  { intros old E. exact (proj1 (proj1 (Forall_cons_iff _ _ _) (A old E))). }
  eapply reads_bind_end; [apply IH; [done|done|]|apply reads_ret]. by intros old [= <-].
Qed.

Lemma accepts_keys n previous :
  accepts (read_keys n previous) (fun ks c =>
    length ks = n /\ Forall canonical_key ks /\ StronglySorted before ks /\ above previous ks /\ c = flat_map enc_key ks).
Proof.
  revert previous. induction n as [|n IH]; intros previous s l ks s' V Eq; cbn [read_keys] in Eq.
  { inv_bind. exists [], l. split_and!; try done; [constructor|]. intros old _. constructor. }
  unfold mbind in Eq. destruct (read_key previous s) as [[k s1]|] eqn:K; [|done].
  destruct (accepts_key previous _ _ _ _ V K) as (c1 & l1 & -> & V1 & Ck & Lk & ->).
  destruct (read_keys n _ s1) as [[rest s2]|] eqn:R; [|done].
  destruct (IH _ _ _ _ _ V1 R) as (c2 & l2 & -> & V2 & Ln & C & S & A & ->). inv_bind.
  exists (enc_key k ++ flat_map enc_key rest), l2. rewrite <- app_assoc. split_and!; try done.
  - by constructor.
  - constructor; [done|]. exact (A _ eq_refl).
  - apply above_next; [|done]. intros old E. constructor; [by apply Lk|constructor].
Qed.
#[local] Hint Resolve accepts_keys : codec.

Lemma len_enc_key k : wf_key k -> 7 <= len (enc_key k).
Proof.
  intros (_ & _ & L). unfold enc_key. rewrite !len_app, len_enc_bytes. unfold SECRET_MIN_LEN in L.
  pose proof (len_head 2 (len (secret k))).
  repeat match goal with |- context [len ?x] => lazymatch x with
    | head _ _ => fail | secret _ => fail | _ => pose proof (len_nonneg x); generalize dependent (len x); intros end end. lia.
Qed.

Lemma len_enc_keys ks : Forall canonical_key ks -> 7 * len ks <= len (flat_map enc_key ks).
Proof.
  induction 1 as [|k ks [W _] F IH]; [done|]. cbn [flat_map]. rewrite len_app, len_cons. pose proof (len_enc_key k W). lia.
Qed.

Lemma decode_keyring_Ok bs ring :
  decode_keyring_plaintext bs = Ok ring ->
  Forall canonical_key (keys ring) /\ StronglySorted before (keys ring) /\ validate_keyring (keys ring) = Ok tt
  /\ bs = enc_keys (keys ring).
Proof.
  unfold decode_keyring_plaintext, MAX_KEYRING_ENVELOPE_OBJECT_BYTES. intros D. inv_bind. fwd crypto_require_inv. b2p.
  apply KeyRing_new_Ok in D as [-> Val]. cbn [keys].
  assert (accepts (read_keyring (len bs)) (fun ks c =>
    Forall canonical_key ks /\ StronglySorted before ks /\ c = enc_keys ks)) as A.
  { intros s x ks s' V Eq. unfold read_keyring, cbor_read in Eq. inv_bind. repeat fwd crypto_require_inv. b2p. subst.
    all_accepts. chunk. split_and!; try done. unfold enc_keys, len.
    match goal with L : length ks = Z.to_nat ?n |- _ => rewrite L, Z2Nat.id by lia end. by rewrite <- ?app_assoc. }
  whole_input A. destruct_and?. done.
Qed.

Lemma decode_enc_keys ks :
  Forall canonical_key ks -> StronglySorted before ks -> validate_keyring ks = Ok tt -> len ks <= MAX_KEYS ->
  len (enc_keys ks) <= MAX_KEYRING_ENVELOPE_OBJECT_BYTES -> decode_keyring_plaintext (enc_keys ks) = Ok {| keys := ks |}.
Proof.
  intros C S Val Lk Le. unfold decode_keyring_plaintext. unfold reject_if at 1. case_if; [b2p; lia|]. cbn [rbind].
  assert (0 < len ks) as Pos.
  { apply validate_keyring_Ok in Val as (_ & _ & Pr & _). destruct ks; [done|]. rewrite len_cons. pose proof (len_nonneg ks). lia. }
  assert (reads (read_keyring (len (enc_keys ks))) (enc_keys ks) ks) as R.
  { pose proof (len_enc_keys ks C) as L7. unfold read_keyring, cbor_read, MAX_KEYS in *.
    assert (len ks <= len (enc_keys ks) / 7) as L.
    { apply Z.div_le_lower_bound; [lia|]. unfold enc_keys. rewrite !len_app.
      pose proof (len_nonneg (enc_array_len 2)). pose proof (len_nonneg (enc_u64 REPOSITORY_ENVELOPE_VERSION)).
      pose proof (len_nonneg (enc_array_len (len ks))). lia. }
    generalize dependent (len (enc_keys ks) / 7). intros bound L. unfold enc_keys.
    eapply reads_bind; [apply reads_mmap_err, reads_array_len; unfold is_u64; lia|].
    eapply reads_bind_nil; [by apply reads_lift|].
    eapply reads_bind; [apply reads_mmap_err, reads_u64; unfold is_u64, REPOSITORY_ENVELOPE_VERSION; lia|].
    eapply reads_bind_nil; [by apply reads_lift|].
    eapply reads_bind; [apply reads_mmap_err, reads_array_len; unfold is_u64; lia|].
    eapply reads_bind_nil; [apply reads_lift, crypto_require_true; rewrite !andb_true_iff, Z.gtb_lt, !Z.leb_le; lia|].
    unfold len. rewrite Nat2Z.id. by apply reads_keys. }
  destruct (reads_all _ _ _ R) as (r & -> & Fin); [unfold MAX_KEYRING_ENVELOPE_OBJECT_BYTES in *; lia|].
  cbn [rbind]. rewrite Fin. cbn [crypto_require require negb reject_if map_err rbind]. unfold KeyRing_new. by rewrite Val.
Qed.

(** *** What comes back *)

Definition spelled (k : KeyMaterial) : Prop :=
  forall value, public_key (descriptor k) = Some value ->
    purpose (descriptor k) = CheckpointSigning /\ is_Some (prefixed_ed25519_public_key_bytes value).

(** The public key of a valid signing key is 32 bytes, so its stored form
    names the same bytes. *)
Lemma stored_spelling k value :
  declared_matches k -> spelled k -> public_key (descriptor k) = Some value ->
  exists bytes, length bytes = 32%nat /\ prefixed_ed25519_public_key_bytes value = Some bytes
    /\ public_key (descriptor (stored_key k)) = Some (CHECKPOINT_PUBLIC_KEY_PREFIX ++ hex_encode bytes).
Proof.
  intros D Sp E. destruct (Sp value E) as [P _]. destruct (D P value E) as (pair & _ & B).
  exists (ed25519_public_key pair). split; [apply ed25519_public_key_length|]. split; [done|].
  unfold stored_key. cbn [descriptor public_key]. rewrite E. change (stored_public_key value
    = Some (CHECKPOINT_PUBLIC_KEY_PREFIX ++ hex_encode (ed25519_public_key pair))). unfold stored_public_key. by rewrite B.
Qed.

Lemma stored_no_key k : public_key (descriptor k) = None -> public_key (descriptor (stored_key k)) = None.
Proof. intros E. unfold stored_key. cbn [descriptor public_key]. by rewrite E. Qed.

Lemma stored_key_canonical k :
  wf_key k -> len (key_id (descriptor k)) <= 255 -> len (secret k) <= MAX_SECRET -> declared_matches k -> spelled k ->
  canonical_key (stored_key k).
Proof.
  intros W Li Ls D Sp. split; [done|]. split; [done|]. split; [done|]. intros value E.
  destruct (public_key (descriptor k)) as [v|] eqn:P; [|rewrite (stored_no_key k P) in E; done].
  destruct (stored_spelling k v D Sp P) as (bytes & L & _ & E'). rewrite E in E'.
  assert (value = CHECKPOINT_PUBLIC_KEY_PREFIX ++ hex_encode bytes) as -> by congruence.
  split; [exact (proj1 (Sp v P))|eauto].
Qed.

Lemma enc_stored_key k : declared_matches k -> spelled k -> enc_key (stored_key k) = enc_key k.
Proof.
  intros D Sp. enough (enc_declared (public_key (descriptor (stored_key k))) = enc_declared (public_key (descriptor k))) as E
    by (unfold enc_key; by rewrite E).
  destruct (public_key (descriptor k)) as [v|] eqn:P; [|by rewrite (stored_no_key k P)].
  destruct (stored_spelling k v D Sp P) as (bytes & L & B & ->). unfold enc_declared. cbn [enc_or_null].
  by rewrite prefixed_canonical, B.
Qed.

Lemma enc_stored_keys ks : Forall declared_matches ks -> Forall spelled ks -> enc_keys (map stored_key ks) = enc_keys ks.
Proof.
  intros D Sp. unfold enc_keys, len. rewrite length_map. do 3 f_equal.
  induction D as [|k ks Dk D IH]; [done|]. apply Forall_cons_iff in Sp as [Sk Sp]. cbn [map flat_map].
  by rewrite enc_stored_key, IH.
Qed.

Lemma stored_declared k : declared_matches k -> spelled k -> declared_matches (stored_key k).
Proof.
  intros D Sp P value E. destruct (public_key (descriptor k)) as [v|] eqn:Pk; [|rewrite (stored_no_key k Pk) in E; done].
  destruct (stored_spelling k v D Sp Pk) as (bytes & L & B & E'). rewrite E in E'.
  assert (value = CHECKPOINT_PUBLIC_KEY_PREFIX ++ hex_encode bytes) as -> by congruence.
  destruct (D P v Pk) as (pair & Ck & B'). exists pair. split; [done|]. rewrite prefixed_canonical by done. congruence.
Qed.

Lemma stored_valid ks ks' :
  Permutation ks ks' -> Forall spelled ks -> validate_keyring ks = Ok tt -> validate_keyring (map stored_key ks') = Ok tt.
Proof.
  intros P Sp V. apply validate_keyring_Ok in V as (N & F & Fn & D). apply validate_keyring_Ok. rewrite map_map.
  assert (forall p, length (List.filter (is_primary_for p) (map stored_key ks')) = length (List.filter (is_primary_for p) ks)) as L.
  { intros p. clear - P. transitivity (length (List.filter (is_primary_for p) ks')).
    - clear P. induction ks' as [|k ks' IH]; [done|]. cbn [map List.filter].
      change (is_primary_for p (stored_key k)) with (is_primary_for p k). destruct (is_primary_for p k); cbn [length]; by rewrite IH.
    - induction P; cbn [List.filter]; repeat case_if; cbn [length]; congruence. }
  split_and!.
  - change (NoDup (map (fun k => key_id (descriptor k)) ks')). by rewrite <- P.
  - intros p. rewrite L. apply F.
  - by rewrite L.
  - apply Forall_map. rewrite <- P. rewrite Forall_forall in *. intros k I. by apply stored_declared; [apply D|apply Sp].
Qed.

Lemma identities_distinct ks : validate_keyring ks = Ok tt -> NoDup (map identity_of ks).
Proof.
  intros V. apply validate_keyring_Ok in V as (N & _). apply (NoDup_fmap_1 snd). change (NoDup (map snd (map identity_of ks))). by rewrite map_map.
Qed.

Lemma keyring_plaintext_decodes ring bs :
  validate_keyring (keys ring) = Ok tt -> Forall wf_key (keys ring) -> keyring_plaintext_bytes ring = Ok bs ->
  decode_keyring_plaintext bs = Ok (stored_ring ring).
Proof.
  intros V W E. apply keyring_plaintext_Ok in E as (-> & Lk & Le & B & Sp). unfold stored_ring.
  pose proof (sort_by_key_perm identity_of (keys ring)) as P. pose proof V as (_ & _ & Pr & D)%validate_keyring_Ok.
  pose proof (sort_by_key_strict identity_of _ (identities_distinct _ V)) as S.
  set (ks := sort_by_key identity_of (keys ring)) in *. rewrite P in W, D.
  assert (ks <> []) as Ne. { intros Ek. rewrite Ek in P. apply Permutation_sym, Permutation_nil in P. by rewrite P in Pr. }
  rewrite <- (enc_stored_keys ks D Sp) in *.
  apply decode_enc_keys.
  - apply Forall_map. rewrite List.Forall_forall in *. intros k I. destruct (B k I).
    apply stored_key_canonical; auto. exact (Sp k I).
  - clear - S. induction S as [|k ks S IH F]; cbn [map]; constructor; [done|]. by apply Forall_map.
  - apply (stored_valid (keys ring)); [done| |done]. by rewrite P.
  - unfold len. by rewrite length_map.
  - by apply Le.
Qed.

(** A keyring that was decoded is already in its stored form. *)
Lemma decoded_stored bs ring : decode_keyring_plaintext bs = Ok ring -> stored_ring ring = ring.
Proof.
  intros D. apply decode_keyring_Ok in D as (C & S & _ & _). destruct ring as [ks]. unfold stored_ring. cbn [keys] in *.
  f_equal. rewrite sort_by_key_id by exact S. clear S. induction C as [|k ks Ck C IH]; [done|]. cbn [map].
  by rewrite stored_canonical, IH.
Qed.
End KeyringPlaintext.

(** ** Sealing *)

Section Sealing.
Context `{Primitives} `{!PrimitivesLaws}.

Lemma seal_Ok filled purpose context wid wkey generation plaintext e :
  envelope_seal filled purpose context wid wkey generation plaintext = Ok e ->
  envelope_open e purpose context wid wkey = Ok plaintext
  /\ env_purpose e = purpose /\ env_generation e = generation /\ env_repository_id e = context_repository_id context
  /\ env_wrapping_key_id e = wid /\ exists bs, to_object_bytes e = Ok bs.
Proof.
  unfold envelope_seal. intros E. inv_bind. b2p.
  repeat match goal with X : validate_shape _ = Ok _ |- _ => apply validate_shape_Ok in X end.
  match goal with X : to_object_bytes _ = Ok _ |- _ => apply to_object_bytes_Ok in X as (S & Le & ->) end.
  match goal with X : gcm_siv_encrypt _ _ _ _ = Some _ |- _ =>
    pose proof (gcm_siv_lengths _ _ _ _ _ _ X) as [Lc Lt]; pose proof (gcm_siv_decrypt_encrypt _ _ _ _ _ _ X) as D end.
  rewrite (len_enc_envelope _ S) in *.
  match goal with |- envelope_open ?e _ _ _ _ = _ /\ _ => set (sealed := e) end.
  assert (shape_ok sealed) as Ss.
  { unfold shape_ok, sealed in *. destruct_and!. cbn [env_version env_purpose env_repository_id env_repository_salt
      env_wrapping_key_id env_nonce env_ciphertext env_tag] in *. split_and!; try done; unfold len, TAG_LEN in *; lia. }
  split_and!; try done.
  - unfold envelope_open. rewrite (proj2 (validate_shape_Ok _) Ss). cbn [rbind sealed env_purpose env_repository_id
      env_repository_salt env_wrapping_key_id]. rewrite !bool_decide_eq_true_2 by done. cbn [negb orb reject_if rbind].
    match goal with X : envelope_cipher _ _ = Ok _ |- _ => rewrite X end. cbn [rbind].
    exact (f_equal (fun o => ok_or o AeadOperationFailed) D).
  - exists (enc_envelope sealed). apply to_object_bytes_Ok. split; [done|]. split; [|done]. rewrite (len_enc_envelope _ Ss).
    pose proof (len_head 0 (len (env_ciphertext sealed))) as Lh. rewrite <- enc_u64_head in Lh.
    match goal with X : (match checked_add _ _ with _ => _ end) = false |- _ =>
      revert X; unfold checked_add; case_if; [|done]; intros X; b2p end.
    cbn [sealed env_ciphertext env_purpose] in *. change (len (enc_u64 (len []))) with 1 in *. rewrite len_nil in *.
    match type of S with shape_ok ?e => change (enc_public e) with (enc_public sealed) in * end.
    assert (len l = len plaintext) as Ll by (unfold len; by rewrite Lc). rewrite Ll in *. lia.
Qed.

Lemma seal_keyring_opens filled ring context wid wkey generation e :
  validate_keyring (keys ring) = Ok tt -> Forall wf_key (keys ring) ->
  seal_keyring_envelope filled ring context wid wkey generation = Ok e ->
  open_keyring e context wid wkey = Ok (stored_ring ring).
Proof.
  intros V W S. unfold seal_keyring_envelope in S. inv_bind. apply seal_Ok in S as (O & _).
  unfold open_keyring. rewrite O. cbn [rbind]. by apply keyring_plaintext_decodes.
Qed.
End Sealing.

(** ** Associated data *)

(** An envelope with its secret fields blanked. *)
Definition bare (e : RepositoryEnvelope) : RepositoryEnvelope :=
  {| env_version := env_version e; env_purpose := env_purpose e; env_generation := env_generation e;
     env_repository_id := env_repository_id e; env_repository_salt := env_repository_salt e;
     env_wrapping_key_id := env_wrapping_key_id e; env_nonce := env_nonce e; env_ciphertext := [];
     env_tag := List.repeat x00 16 |}.

Lemma bare_shape e : shape_ok e -> shape_ok (bare e).
Proof.
  intros (? & ? & ? & ? & ? & ? & ? & ?). unfold shape_ok, bare. cbn [env_version env_purpose env_repository_id
    env_repository_salt env_wrapping_key_id env_nonce env_ciphertext env_tag].
  split_and!; try done; try lia. by destruct (env_purpose e).
Qed.

Lemma len_enc_bare e : shape_ok e -> len (enc_envelope (bare e)) <= usize_max.
Proof.
  intros S. rewrite (len_enc_envelope _ (bare_shape e S)). destruct S as (_ & Li & [_ Ls] & _ & Lw & Ln & _).
  change (enc_public (bare e)) with (enc_public e). change (env_ciphertext (bare e)) with (@nil byte).
  unfold enc_public. rewrite !len_app, !len_enc_text, !len_enc_bytes, Ln. change (len (@nil byte)) with 0.
  change (enc_map_len 9) with (head 5 9). change (enc_u64 ?v) with (head 0 v). unfold MAX_PUBLIC_TEXT, MAX_SALT, NONCE_LEN, TAG_LEN in *.
  repeat match goal with |- context [len (head ?m ?v)] =>
    pose proof (len_head m v); generalize dependent (len (head m v)); intros end. lia.
Qed.

Lemma enc_public_inj e1 e2 :
  wf_envelope e1 -> wf_envelope e2 -> shape_ok e1 -> shape_ok e2 -> enc_public e1 = enc_public e2 -> bare e1 = bare e2.
Proof.
  intros W1 W2 S1 S2 E. assert (env_purpose e1 = env_purpose e2) as P.
  { pose proof (proj1 S1) as V1. pose proof (proj1 S2) as V2. unfold enc_public in E. rewrite V1, V2 in E.
    destruct (env_purpose e1), (env_purpose e2); try done; discriminate E. }
  assert (enc_envelope (bare e1) = enc_envelope (bare e2)) as Eb.
  { unfold enc_envelope. change (enc_public (bare ?x)) with (enc_public x). by rewrite E. }
  pose proof (reads_envelope (bare e1) W1 (bare_shape e1 S1)) as R1.
  pose proof (reads_envelope (bare e2) W2 (bare_shape e2 S2)) as R2.
  change (env_purpose (bare ?x)) with (env_purpose x) in *. rewrite <- P, <- Eb in R2.
  pose proof (len_enc_bare e1 S1) as L. destruct (reads_all _ _ _ R1 L) as (r1 & F1 & _).
  destruct (reads_all _ _ _ R2 L) as (r2 & F2 & _). congruence.
Qed.

(** ** Properties *)

(** C31: The envelope codec is exact: bytes decode to an envelope of a purpose
    precisely when they are what the encoder writes for an envelope of that
    purpose, so an envelope has one stored form and its digest is well
    defined. *)
Theorem envelope_codec_exact bs p e :
  from_object_bytes bs p = Ok e <-> wf_envelope e /\ env_purpose e = p /\ to_object_bytes e = Ok bs.
Proof. apply envelope_decode_iff. Qed.

(** The associated data of an envelope identifies its public fields: two
    envelopes with the same associated data have the same purpose, generation,
    repository, salt, wrapping key and nonce, so none of them can be exchanged
    under a valid tag. *)
Theorem envelope_fields_bound e1 e2 :
  wf_envelope e1 -> wf_envelope e2 -> validate_shape e1 = Ok tt -> validate_shape e2 = Ok tt ->
  envelope_associated_data e1 = envelope_associated_data e2 ->
  env_purpose e1 = env_purpose e2 /\ env_generation e1 = env_generation e2
  /\ env_repository_id e1 = env_repository_id e2 /\ env_repository_salt e1 = env_repository_salt e2
  /\ env_wrapping_key_id e1 = env_wrapping_key_id e2 /\ env_nonce e1 = env_nonce e2.
Proof.
  rewrite !validate_shape_Ok. unfold envelope_associated_data. rewrite !write_public_fields_app.
  intros W1 W2 S1 S2 E%app_inv_head. apply enc_public_inj in E; try done. by injection E.
Qed.

Section EnvelopeProperties.
Context `{Primitives} `{!PrimitivesLaws}.

(** C29: A sealed keyring survives storage: what is sealed under a wrapping key
    is within the object limit, decodes from its bytes, and opens under the same
    key and context to the same keys, in the order of purpose and id and with
    public keys in lowercase, which is again a valid keyring. *)
Theorem sealed_keyring_opens filled ring context wid wkey generation e :
  validate_keyring (keys ring) = Ok tt -> Forall wf_key (keys ring) ->
  wf_name (context_repository_id context) -> utf8_valid wid = true -> is_u64 generation ->
  seal_keyring_envelope filled ring context wid wkey generation = Ok e ->
  exists bs, to_object_bytes e = Ok bs /\ len bs <= MAX_KEYRING_ENVELOPE_OBJECT_BYTES
    /\ from_object_bytes bs Envelope.Keyring = Ok e
    /\ open_keyring e context wid wkey = Ok (stored_ring ring)
    /\ validate_keyring (keys (stored_ring ring)) = Ok tt.
Proof.
  intros V W Nr Uw G S. pose proof (seal_keyring_opens _ _ _ _ _ _ _ V W S) as O. pose proof O as O'.
  unfold seal_keyring_envelope in S. inv_bind. apply seal_Ok in S as (_ & P & Eg & Er & Ew & bs & Eb).
  exists bs. pose proof Eb as (_ & Le & _)%to_object_bytes_Ok. rewrite P in Le. split_and!; try done.
  - apply envelope_decode_iff. split; [|done]. unfold wf_envelope. by rewrite Eg, Er, Ew.
  - unfold open_keyring in O'. inv_bind. by apply decode_keyring_Ok in O' as (_ & _ & ? & _).
Qed.

(** C30: Rewrapping changes the wrapping key and nothing else: whenever an
    envelope opens under the old key and is rewrapped, the new envelope opens
    under the new key to exactly the same keyring, with the new generation. *)
Theorem rewrap_preserves_keyring filled e context old_id old_key new_id new_key generation e' ring :
  open_keyring e context old_id old_key = Ok ring ->
  rewrap filled e context old_id old_key new_id new_key generation = Ok e' ->
  open_keyring e' context new_id new_key = Ok ring /\ env_generation e' = generation.
Proof.
  intros O Rw. unfold rewrap in Rw. rewrite O in Rw. cbn [rbind] in Rw. unfold open_keyring in O. inv_bind.
  pose proof (decoded_stored _ _ O) as St. apply decode_keyring_Ok in O as (C & _ & V & _).
  split; [|unfold seal_keyring_envelope in Rw; inv_bind; by apply seal_Ok in Rw as (_ & _ & ? & _)].
  rewrite <- St. eapply seal_keyring_opens; [done| |exact Rw]. eapply Forall_impl; [|exact C]. by intros k [? _].
Qed.
End EnvelopeProperties.

(** ** Witnesses *)

Import Reference.

Module EnvelopeSample.
Definition context : RepositoryKeyContext :=
  {| context_repository_id := bytes_of_string "repo"; context_salt := List.repeat x07 32 |}.
Definition nonce : option (list byte) := Some (List.repeat x0c 12).
Definition ring : KeyRing := {| keys := rotated_keys |}.
Definition old_id : text := bytes_of_string "operator-1".
Definition new_id : text := bytes_of_string "operator-2".
Definition old_key : list byte := List.repeat x21 32.
Definition new_key : list byte := List.repeat x22 32.
Definition sealed : CR RepositoryEnvelope := Eval vm_compute in seal_keyring_envelope nonce ring context old_id old_key 1.
Definition rewrapped : CR RepositoryEnvelope :=
  Eval vm_compute in (e <-? sealed ;; rewrap nonce e context old_id old_key new_id new_key 2).
End EnvelopeSample.
Import EnvelopeSample.

Lemma sealed_keyring_opens_witness :
  exists e bs, sealed = Ok e /\ from_object_bytes bs Envelope.Keyring = Ok e
    /\ open_keyring e context old_id old_key = Ok (stored_ring ring).
Proof.
  eexists. edestruct (sealed_keyring_opens nonce ring context old_id old_key 1) as (bs & _ & _ & D & O & _).
  - vm_compute; reflexivity.
  - repeat constructor; vm_compute; discriminate.
  - vm_compute; reflexivity.
  - vm_compute; reflexivity.
  - by split.
  - vm_compute; reflexivity.
  - exists bs. split; [reflexivity|]. split; [exact D|exact O].
Defined.

Lemma rewrap_preserves_keyring_witness :
  exists e e', sealed = Ok e /\ rewrapped = Ok e'
    /\ open_keyring e' context new_id new_key = Ok (stored_ring ring) /\ env_generation e' = 2.
Proof.
  destruct sealed as [e|] eqn:Es; [|discriminate]. destruct rewrapped as [e'|] eqn:Er; [|discriminate].
  exists e, e'. split; [reflexivity|]. split; [reflexivity|].
  apply (rewrap_preserves_keyring nonce e context old_id old_key new_id new_key 2 e' (stored_ring ring));
    injection Es as <-; injection Er as <-; vm_compute; reflexivity.
Defined.

Lemma envelope_fields_bound_witness :
  exists e, sealed = Ok e /\ env_nonce e = env_nonce (bare e).
Proof.
  eexists. split; [reflexivity|]. eapply (envelope_fields_bound _ (bare _)).
  - vm_compute. done.
  - vm_compute. done.
  - vm_compute; reflexivity.
  - vm_compute; reflexivity.
  - reflexivity.
Defined.
