(* ===== verification/V3Wire.v ===== *)
(** * Errors and shared wire fields of format v3

    crates/rs3-repository/src/v3/error.rs and wire.rs: the error taxonomy of
    the repository format, and the bounded text, digest and envelope-reference
    fields that its canonical CBOR records share. *)

From Stdlib Require Import Strings.String.
From S2P Require Import Prelude Text Types Cbor External.
Open Scope Z_scope.

(** ** Errors *)

Inductive V3ErrorClass : Type :=
| ClassRetryableClient
| ClassFailClosedSecurity
| ClassProviderConformance
| ClassOperatorActionRequired
| ClassRollbackUnsafeDr.

Module V3.
Inductive V3FormatError : Type :=
| ContentMd5Mismatch
| InvalidCommitKey
| TruncatedHeader
| TruncatedBody
| UnsupportedFormatVersion
| UnsupportedReaderVersion
| UnsupportedCapabilities
| NonzeroReserved
| HeaderTooLarge
| MalformedCbor
| NonCanonicalCbor
| MissingHeaderField
| InvalidHeaderField
| InvalidPublicationTime
| InvalidRecoveryHistory
| RecoveryHistoryCapacity
| InvalidRecoveryPolicy
| InvalidAlgorithms
| SelfKeyMismatch
| SignatureVerification
| SectionBounds
| ObjectTooLarge
| ObjectLengthMismatch
| ReplayBudgetExceeded
| ObjectBodyReadFailed
| UnsupportedSection
| ReservedSectionFlags
| BodyDigestMismatch
| SectionDigestMismatch
| InvalidIndexRun
| IndexRunLimitExceeded
| InvalidIndexRoot
| IndexRootLimitExceeded
| InvalidPayloadPack
| PayloadPackLimitExceeded
| CryptoOperation
| TypeValidation
| RandomnessUnavailable
| AnchorReadFailed
| AnchorAdvanceFailed
| AnchorReconciliationRequired
| MissingAnchor
| StaleAnchor
| BootstrapUploadRequired
| StorageOperationFailed
| FormatEncoding
| InvalidFormatRoot
| ProviderProfileFailed
| RecoveryBundleRequired
| RollbackUnsafeDr
| MaintenanceAccessRequired
| MaintenanceBudgetExceeded
| MaintenancePlanChanged
| OrphanGcMinAgeTooLow
| MaintenanceCancelled.
End V3.
Import V3.

Definition class (e : V3FormatError) : V3ErrorClass :=
  match e with
  | ContentMd5Mismatch | ObjectTooLarge | ObjectLengthMismatch | ObjectBodyReadFailed |
    RandomnessUnavailable | MaintenanceCancelled => ClassRetryableClient
  | ProviderProfileFailed => ClassProviderConformance
  | RecoveryHistoryCapacity | InvalidRecoveryPolicy | ReplayBudgetExceeded |
    RecoveryBundleRequired | MaintenanceAccessRequired | MaintenanceBudgetExceeded |
    MaintenancePlanChanged | OrphanGcMinAgeTooLow => ClassOperatorActionRequired
  | RollbackUnsafeDr => ClassRollbackUnsafeDr
  | InvalidCommitKey | TruncatedHeader | TruncatedBody | UnsupportedFormatVersion |
    UnsupportedReaderVersion | UnsupportedCapabilities | NonzeroReserved | HeaderTooLarge |
    MalformedCbor | NonCanonicalCbor | MissingHeaderField | InvalidHeaderField |
    InvalidPublicationTime | InvalidRecoveryHistory | InvalidAlgorithms | SelfKeyMismatch |
    SignatureVerification | SectionBounds | UnsupportedSection | ReservedSectionFlags |
    BodyDigestMismatch | SectionDigestMismatch | InvalidIndexRun | IndexRunLimitExceeded |
    InvalidIndexRoot | IndexRootLimitExceeded | InvalidPayloadPack |
    PayloadPackLimitExceeded | CryptoOperation | TypeValidation | AnchorReadFailed |
    AnchorAdvanceFailed | AnchorReconciliationRequired | MissingAnchor | StaleAnchor |
    BootstrapUploadRequired | StorageOperationFailed | FormatEncoding | InvalidFormatRoot => ClassFailClosedSecurity
  end.

Abbreviation V3Result A := (result V3FormatError A).
Abbreviation R A := (M Reader V3FormatError A).

(** [From<CborError>], [From<TypeError>]. *)
Definition from_cbor {A} (m : M Reader CborError A) : R A := mmap_err (fun _ => MalformedCbor) m.
Definition from_type {A} (r : result TypeError A) : V3Result A := map_err (fun _ => TypeValidation) r.

(** The compact reference to a keyring envelope that commit headers carry
    (commit.rs). *)
Record V3KeyringEnvelopeRef : Type := {
  ke_object_id : text;
  ke_digest : list byte          (* [u8; 32] *)
}.

(** ** Fields *)

Definition MAX_WIRE_TEXT : Z := 1024.
Definition MAX_WIRE_KEY_ID : Z := 255.

Definition require (valid : bool) : V3Result unit := if valid then Ok tt else Err MalformedCbor.

Definition write_text (out : list byte) (t : text) (maximum : Z) : V3Result (list byte) :=
  require (len t <=? maximum) ;;? Ok (Cbor.write_text out t).

Definition write_optional_text (out : list byte) (t : option text) : V3Result (list byte) :=
  match t with
  | Some t => write_text out t MAX_WIRE_TEXT
  | None => Ok (write_null out)
  end.

Definition read_optional_text : R (option text) :=
  null_or (fun _ => MalformedCbor) (from_cbor (read_text_bounded MAX_WIRE_TEXT)).

(** [try_into] for a [[u8; 32]]. *)
Definition read_digest : R (list byte) :=
  bs <- from_cbor (read_bytes_bounded 32) ;;
  lift (require (len bs =? 32)) ;;
  mret bs.

(** [Option::map(new).transpose()?] on an optional identifier. *)
Definition transpose {A B E} (f : A -> result E B) (o : option A) : result E (option B) :=
  match o with
  | Some a => b <-? f a ;; Ok (Some b)
  | None => Ok None
  end.

Section Wire.
Context `{Primitives}.

Definition digest_bytes (hex_digest : text) : V3Result (list byte) :=
  require (len hex_digest =? 64) ;;?
  bytes <-? ok_or (hex_decode hex_digest) MalformedCbor ;;
  require (len bytes =? 32) ;;?
  Ok bytes.

Definition write_envelope_ref (out : list byte) (generation : Z) (digest object_id : text)
    (version_id : option text) : V3Result (list byte) :=
  digest <-? digest_bytes digest ;;
  let out := write_array_len out 4 in
  let out := write_u64 out generation in
  let out := write_bytes out digest in
  out <-? write_text out object_id MAX_WIRE_TEXT ;;
  write_optional_text out version_id.

Definition read_envelope_ref : R (Z * text * text * option text) :=
  n <- from_cbor read_array_len ;;
  lift (require (n =? 4)) ;;
  generation <- from_cbor read_u64 ;;
  digest <- read_digest ;;
  raw_id <- from_cbor (read_text_bounded MAX_WIRE_TEXT) ;;
  object_id <- lift (from_type (BackendObjectId_new raw_id)) ;;
  raw_version <- read_optional_text ;;
  version_id <- lift (from_type (transpose BackendVersionId_new raw_version)) ;;
  mret (generation, hex_encode digest, object_id, version_id).

(** ** Encodings of the fields *)

Definition wf_opt_name (o : option text) : Prop := match o with Some t => wf_name t | None => True end.

Definition opt_utf8 (o : option text) : Prop :=
  match o with Some t => utf8_valid t = true | None => True end.

Definition opt_len (o : option text) : Z := match o with Some t => len t | None => 0 end.

Definition enc_envelope_ref (generation : Z) (digest : list byte) (object_id : text)
    (version_id : option text) : list byte :=
  enc_array_len 4 ++ enc_u64 generation ++ enc_bytes digest ++ enc_text object_id
  ++ enc_or_null enc_text version_id.

Lemma require_Ok b u : require b = Ok u <-> b = true.
Proof. destruct u, b; done. Qed.

Lemma write_text_Ok out t m out' : write_text out t m = Ok out' <-> len t <= m /\ out' = out ++ enc_text t.
Proof.
  unfold write_text, require. rewrite write_text_app. destruct (Z.leb_spec (len t) m); simpl.
  - split; [intros; by inv_bind|by intros [_ ->]].
  - split; [done|lia].
Qed.

Lemma write_optional_text_Ok out o out' :
  write_optional_text out o = Ok out' <-> opt_len o <= MAX_WIRE_TEXT /\ out' = out ++ enc_or_null enc_text o.
Proof.
  destruct o as [t|]; simpl; [apply write_text_Ok|]. rewrite write_null_app. unfold MAX_WIRE_TEXT.
  split; [intros; inv_bind; split; [lia|done]|by intros [_ ->]].
Qed.

Lemma digest_bytes_Ok h d :
  digest_bytes h = Ok d <-> len h = 64 /\ hex_decode h = Some d /\ len d = 32.
Proof.
  unfold digest_bytes, require. destruct (Z.eqb_spec (len h) 64); simpl; [|split; [done|lia]].
  destruct (hex_decode h) as [d'|]; simpl; [|naive_solver].
  destruct (Z.eqb_spec (len d') 32); simpl; split; intros; inv_bind; try done; destruct_and?; congruence.
Qed.

Lemma write_envelope_ref_Ok out g h id v out' :
  write_envelope_ref out g h id v = Ok out' <->
  exists d, digest_bytes h = Ok d /\ len id <= MAX_WIRE_TEXT /\ opt_len v <= MAX_WIRE_TEXT
    /\ out' = out ++ enc_envelope_ref g d id v.
Proof.
  unfold write_envelope_ref, enc_envelope_ref.
  destruct (digest_bytes h) as [d|]; cbn [rbind]; [|split; [done|naive_solver]].
  autorewrite with cbor. split.
  - intros W. inv_bind. apply write_text_Ok in Heqr as [L ->].
    apply write_optional_text_Ok in W as [L' ->]. exists d. by rewrite <- !app_assoc.
  - intros (d' & [= <-] & L & L' & ->).
    rewrite (proj2 (write_text_Ok _ id MAX_WIRE_TEXT _)) by done. cbn [rbind].
    rewrite (proj2 (write_optional_text_Ok _ v _)) by done. by rewrite <- !app_assoc.
Qed.

Lemma reads_digest d : length d = 32%nat -> reads read_digest (enc_bytes d) d.
Proof.
  intros L. assert (len d = 32) as E by (unfold len; lia).
  eapply reads_bind_end; [apply reads_mmap_err, reads_bytes_bounded; lia|].
  eapply reads_bind_nil; [apply reads_lift; by rewrite E|]. apply reads_ret.
Qed.

Lemma accepts_digest : accepts read_digest (fun d c => length d = 32%nat /\ c = enc_bytes d).
Proof.
  intros s l d s' V Eq. unfold read_digest, from_cbor in Eq. inv_bind. fwd require_Ok. b2p.
  all_accepts. chunk. split; [unfold len in *; lia|done].
Qed.

Lemma reads_optional_text o :
  wf_opt_name o -> opt_len o <= MAX_WIRE_TEXT -> reads read_optional_text (enc_or_null enc_text o) o.
Proof.
  intros W L. apply reads_null_or. intros t ->. simpl in *. unfold MAX_WIRE_TEXT in *.
  split; [apply starts_text; lia|]. apply reads_mmap_err, reads_text_bounded; [lia..|by apply is_name_utf8].
Qed.

Lemma accepts_optional_text :
  accepts read_optional_text (fun o c => opt_len o <= MAX_WIRE_TEXT
    /\ opt_utf8 o /\ c = enc_or_null enc_text o).
Proof.
  eapply accepts_weaken; [apply accepts_null_or, accepts_mmap_err, accepts_text_bounded|].
  intros [t|] c; simpl; [tauto|]. intros ->. unfold MAX_WIRE_TEXT. split_and!; [lia|done..].
Qed.
#[local] Hint Resolve accepts_digest accepts_optional_text : codec.

Lemma from_type_name {new : text -> result TypeError text} {kind} t :
  new = validate_non_empty kind -> wf_name t -> from_type (new t) = Ok t.
Proof. intros -> W. unfold from_type. by rewrite validate_non_empty_ok. Qed.

Lemma transpose_name kind o :
  wf_opt_name o -> from_type (transpose (validate_non_empty kind) o) = Ok o.
Proof. destruct o as [t|]; [|done]. intros W. simpl. by rewrite validate_non_empty_ok. Qed.

Lemma transpose_name_inv kind o o' :
  transpose (validate_non_empty kind) o = Ok o' -> o' = o /\ (opt_utf8 o -> wf_opt_name o).
Proof.
  destruct o as [t|]; simpl; intros T; inv_bind; [|done]. fwd validate_non_empty_inv. destruct_and?. subst.
  split; [done|]. intros. by apply wf_name_intro.
Qed.

Lemma reads_envelope_ref g d id v :
  is_u64 g -> length d = 32%nat -> wf_name id -> len id <= MAX_WIRE_TEXT -> wf_opt_name v ->
  opt_len v <= MAX_WIRE_TEXT ->
  reads read_envelope_ref (enc_envelope_ref g d id v) (g, hex_encode d, id, v).
Proof.
  intros U L N Ln Nv Lv. unfold read_envelope_ref, enc_envelope_ref, from_cbor.
  eapply reads_bind; [apply reads_mmap_err, reads_array_len; unfold is_u64; lia|].
  eapply reads_bind_nil; [by apply reads_lift|].
  eapply reads_bind; [by apply reads_mmap_err, reads_u64|].
  eapply reads_bind; [by apply reads_digest|].
  eapply reads_bind.
  { apply reads_mmap_err, reads_text_bounded; [done|unfold MAX_WIRE_TEXT in *; lia|by apply is_name_utf8]. }
  eapply reads_bind_nil; [apply reads_lift; by apply (from_type_name id eq_refl)|].
  eapply reads_bind_end; [by apply reads_optional_text|].
  eapply reads_bind_nil; [by apply reads_lift, transpose_name|apply reads_ret].
Qed.

Lemma accepts_envelope_ref :
  accepts read_envelope_ref (fun x c => let '(g, h, id, v) := x in
    is_u64 g /\ wf_name id /\ len id <= MAX_WIRE_TEXT /\ wf_opt_name v /\ opt_len v <= MAX_WIRE_TEXT
    /\ exists d, length d = 32%nat /\ h = hex_encode d /\ c = enc_envelope_ref g d id v).
Proof.
  intros s l x s' V Eq. unfold read_envelope_ref, from_cbor in Eq. inv_bind. fwd require_Ok. b2p. subst.
  unfold from_type in *. inv_bind. fwd validate_non_empty_inv. destruct_and?. subst.
  fwd transpose_name_inv. destruct_and?. subst. all_accepts. chunk.
  split_and!; try done; [by apply wf_name_intro|auto|eauto].
Qed.
End Wire.
#[export] Hint Resolve accepts_digest accepts_optional_text accepts_envelope_ref : codec.
