(* ===== verification/ObjectKeys.v ===== *)
(** * Keys of commits and standalone objects

    [V3CommitKey] of crates/rs3-repository/src/v3/commit.rs and the standalone
    identities of standalone.rs: backend keys that carry a sequence number in
    twenty decimal digits and a random identifier in URL-safe base64.  Parsing
    is strict, so a key has one spelling. *)

From Stdlib Require Import Strings.String.
From S2P Require Import Prelude Ord Text Types External V3Wire.
Open Scope Z_scope.
Import V3.

Definition V3_COMMIT_RANDOM_ID_LEN : Z := 32.
Definition V3_COMMIT_RANDOM_ID_B64_LEN : Z := 43.
Definition COMMIT_PREFIX : text := bytes_of_string "commits/v03/".

Record V3CommitKey : Type := {
  sequence : Z;              (* Sequence: u64 *)
  random_id : list byte;     (* [u8; 32] *)
  object_id : text
}.

Definition V3_STANDALONE_OBJECT_PREFIX : text := bytes_of_string "objects/v03/".
Definition V3_STANDALONE_OBJECT_ID_BYTES : Z := 32.
Definition V3_STANDALONE_OBJECT_ID_B64_LEN : Z := 43.

Section ObjectKeys.
Context `{Primitives}.

Definition V3CommitKey_from_parts (sequence : Z) (random_id : list byte) : V3Result V3CommitKey :=
  let encoded := b64_encode random_id in
  object_id <-? from_type (BackendObjectId_new (COMMIT_PREFIX ++ format_020 sequence ++ x2f :: encoded)) ;;
  Ok {| sequence := sequence; random_id := random_id; object_id := object_id |}.

Definition V3CommitKey_parse (object_id : text) : V3Result V3CommitKey :=
  rest <-? ok_or (strip_prefix COMMIT_PREFIX object_id) InvalidCommitKey ;;
  '(seq_segment, encoded_id) <-? ok_or (split_once x2f rest) InvalidCommitKey ;;
  reject_if
    (negb (len seq_segment =? 20)
     || negb (forallb is_ascii_digit seq_segment)
     || negb (len encoded_id =? V3_COMMIT_RANDOM_ID_B64_LEN)
     || contains x3d encoded_id
     || contains x2f encoded_id) InvalidCommitKey ;;?
  reject_if (contains x2b encoded_id) InvalidCommitKey ;;?
  sequence_raw <-? ok_or (parse_u64 seq_segment) InvalidCommitKey ;;
  reject_if (negb (bool_decide (format_020 sequence_raw = seq_segment))) InvalidCommitKey ;;?
  random_id <-? ok_or (b64_decode encoded_id) InvalidCommitKey ;;
  reject_if (negb (len random_id =? V3_COMMIT_RANDOM_ID_LEN)) InvalidCommitKey ;;?
  reject_if (negb (bool_decide (b64_encode random_id = encoded_id))) InvalidCommitKey ;;?
  Ok {| sequence := sequence_raw; random_id := random_id; object_id := object_id |}.

(** [generate_v3_commit_key]; [random] is what the system source returned. *)
Definition generate_v3_commit_key (random : option (list byte)) (sequence : Z) : V3Result V3CommitKey :=
  random_id <-? ok_or random RandomnessUnavailable ;;
  V3CommitKey_from_parts sequence random_id.

(** ** Standalone objects *)

Definition generate_v3_standalone_object_id (random : option (list byte)) : V3Result text :=
  random_id <-? ok_or random RandomnessUnavailable ;;
  from_type (BackendObjectId_new (V3_STANDALONE_OBJECT_PREFIX ++ b64_encode random_id)).

Definition standalone_carrier_id (object_id : text) : V3Result (list byte) :=
  encoded_id <-? ok_or (strip_prefix V3_STANDALONE_OBJECT_PREFIX object_id) InvalidHeaderField ;;
  reject_if
    (negb (len encoded_id =? V3_STANDALONE_OBJECT_ID_B64_LEN)
     || (contains x3d encoded_id || contains x2f encoded_id || contains x2b encoded_id))
    InvalidHeaderField ;;?
  random_id <-? ok_or (b64_decode encoded_id) InvalidHeaderField ;;
  reject_if (negb (len random_id =? V3_STANDALONE_OBJECT_ID_BYTES)) InvalidHeaderField ;;?
  reject_if (negb (bool_decide (b64_encode random_id = encoded_id))) InvalidHeaderField ;;?
  Ok random_id.

Definition validate_v3_standalone_object (object_id : text) (stored_len : Z) : V3Result unit :=
  reject_if (stored_len =? 0) InvalidHeaderField ;;?
  standalone_carrier_id object_id ;;? Ok tt.

(** ** Lemmas *)

Lemma from_parts_eq s r :
  V3CommitKey_from_parts s r =
  Ok {| sequence := s; random_id := r;
        object_id := COMMIT_PREFIX ++ format_020 s ++ x2f :: b64_encode r |}.
Proof.
  unfold V3CommitKey_from_parts, BackendObjectId_new, validate_non_empty.
  change COMMIT_PREFIX with (x63 :: bytes_of_string "ommits/v03/").
  rewrite <- app_comm_cons, trim_is_empty_ascii by done. done.
Qed.

Lemma from_parts_object_id s r k :
  V3CommitKey_from_parts s r = Ok k -> object_id k = COMMIT_PREFIX ++ format_020 s ++ x2f :: b64_encode r.
Proof.
  rewrite from_parts_eq. intros E.
  by apply (f_equal (fun x => match x with Ok k => object_id k | Err _ => [] end)) in E.
Qed.

Lemma b64_clean `{!PrimitivesLaws} bs c : ~ In c B64_ALPHABET -> contains c (b64_encode bs) = false.
Proof.
  intros N. apply contains_false. intros I. apply N.
  pose proof (b64_encode_alphabet bs) as F. rewrite Forall_forall in F. auto.
Qed.

Lemma b64_len_32 `{!PrimitivesLaws} r : length r = 32%nat -> len (b64_encode r) = 43.
Proof. intros L. rewrite b64_encode_length. unfold len. by rewrite L. Qed.

Lemma format_020_is_digits s : forallb is_ascii_digit (format_020 s) = true.
Proof.
  apply forallb_forall. intros b I. pose proof (format_020_digits s) as F. rewrite Forall_forall in F.
  specialize (F b I). cbv beta in F. unfold is_ascii_digit. lia.
Qed.

Lemma parse_from_parts `{!PrimitivesLaws} s r :
  is_u64 s -> length r = 32%nat ->
  V3CommitKey_parse (COMMIT_PREFIX ++ format_020 s ++ x2f :: b64_encode r) =
  Ok {| sequence := s; random_id := r;
        object_id := COMMIT_PREFIX ++ format_020 s ++ x2f :: b64_encode r |}.
Proof.
  intros U L. unfold V3CommitKey_parse. rewrite strip_prefix_app. cbn [ok_or rbind].
  rewrite split_once_app; [cbn [ok_or rbind]|].
  2:{ intros I. pose proof (format_020_digits s) as F. rewrite Forall_forall in F.
      destruct (F x2f I) as [F1 _]. by compute in F1. }
  rewrite format_020_is_digits, (b64_len_32 r L), !b64_clean by (apply (bool_decide_unpack _); done).
  unfold len at 1. rewrite format_020_length. cbn [Z.of_nat negb orb].
  rewrite parse_format_020, b64_decode_encode by done. cbn [ok_or rbind].
  rewrite !bool_decide_eq_true_2 by done. unfold len. rewrite L. done.
Qed.

Lemma parse_Ok object_id k :
  V3CommitKey_parse object_id = Ok k ->
  is_u64 (sequence k) /\ length (random_id k) = 32%nat /\ ObjectKeys.object_id k = object_id
  /\ object_id = COMMIT_PREFIX ++ format_020 (sequence k) ++ x2f :: b64_encode (random_id k).
Proof.
  unfold V3CommitKey_parse, V3_COMMIT_RANDOM_ID_LEN. intros P. inv_bind. b2p.
  fwd strip_prefix_Some. fwd split_once_Some. destruct_and?. subst.
  match goal with D : forallb _ _ = true, Q : parse_u64 _ = Some _ |- _ =>
    apply format_parse_020 in Q; [|unfold len in *; lia|exact D] end.
  destruct_and?. simpl. split_and!; [done|unfold len in *; lia|done|congruence].
Qed.

Lemma standalone_Ok `{!PrimitivesLaws} id r :
  standalone_carrier_id id = Ok r <->
  length r = 32%nat /\ id = V3_STANDALONE_OBJECT_PREFIX ++ b64_encode r.
Proof.
  unfold standalone_carrier_id, V3_STANDALONE_OBJECT_ID_BYTES. split.
  - intros P. inv_bind. b2p. fwd strip_prefix_Some. subst. split; [unfold len in *; lia|done].
  - intros [L ->]. rewrite strip_prefix_app. cbn [ok_or rbind].
    rewrite (b64_len_32 r L), !b64_clean by (apply (bool_decide_unpack _); done). cbn.
    rewrite b64_decode_encode. cbn [ok_or rbind]. rewrite bool_decide_eq_true_2 by done.
    unfold len. by rewrite L.
Qed.

(** Fixed-width numerals compare as the numbers they spell. *)
Lemma to_digits_lt b (f : Z -> byte) n v w :
  0 < b -> (forall d e, 0 <= d -> d < e < b -> u8 (f d) < u8 (f e)) ->
  0 <= v -> v < w -> w < b ^ Z.of_nat n ->
  cmp (map f (to_digits b n v)) (map f (to_digits b n w)) = Lt.
Proof.
  intros B F. revert v w. induction n as [|n IH]; intros v w V L W; [simpl in W; lia|].
  cbn [to_digits map]. rewrite Nat2Z.inj_succ, Z.pow_succ_r in W by lia.
  set (c := b ^ Z.of_nat n) in *. assert (0 < c) by (apply Z.pow_pos_nonneg; lia).
  assert (0 <= v / c /\ w / c < b /\ v / c <= w / c) as (D1 & D2 & D3).
  { split_and!; [by apply Z.div_pos|apply Z.div_lt_upper_bound; lia|apply Z.div_le_mono; lia]. }
  rewrite !Z.mod_small by lia. unfold cmp, ord_list. cbn [list_cmp].
  destruct (Z.eq_dec (v / c) (w / c)) as [E|N].
  - rewrite E. change (cmp (f (w / c)) (f (w / c))) with (Z.compare (u8 (f (w / c))) (u8 (f (w / c)))).
    rewrite Z.compare_refl.
    assert (forall x, to_digits b n x = to_digits b n (x mod c)) as M.
    { intros x. apply to_digits_ext; [done|]. by rewrite Zmod_mod. }
    rewrite (M v), (M w). apply IH; [apply Z.mod_pos_bound; lia| |apply Z.mod_pos_bound; lia].
    rewrite !Z.mod_eq, E by lia. lia.
  - assert (u8 (f (v / c)) < u8 (f (w / c))) as Lt by (apply F; lia).
    change (cmp (f (v / c)) (f (w / c))) with (Z.compare (u8 (f (v / c))) (u8 (f (w / c)))).
    by rewrite (proj2 (Z.compare_lt_iff _ _) Lt).
Qed.

Lemma list_cmp_app_l (p s t : text) : cmp (p ++ s) (p ++ t) = cmp s t.
Proof.
  induction p as [|a p IH]; [done|]. cbn [app]. unfold cmp at 1, ord_list. cbn [list_cmp].
  change (cmp a a) with (Z.compare (u8 a) (u8 a)). by rewrite Z.compare_refl.
Qed.

Lemma list_cmp_app_r (p q s t : text) :
  length p = length q -> cmp p q = Lt -> cmp (p ++ s) (q ++ t) = Lt.
Proof.
  revert q. induction p as [|a p IH]; intros [|b q] L C; simpl in L; try discriminate.
  unfold cmp, ord_list in *. cbn [app list_cmp] in *. destruct (cmp a b); [|done|done].
  apply IH; [lia|done].
Qed.
End ObjectKeys.

(** ** Properties *)

Section ObjectKeyProperties.
Context `{PrimitivesLaws}.

(** Commit keys and standalone keys have one spelling.  A backend key parses
    to a commit key exactly when it is what [from_parts] builds from a 64-bit
    sequence and 32 bytes, and carries a standalone identity exactly when it is
    what generation builds from those 32 bytes; both parses return the parts. *)
Theorem object_keys_exact id :
  (forall k, V3CommitKey_parse id = Ok k <->
     is_u64 (sequence k) /\ length (random_id k) = 32%nat /\ object_id k = id
     /\ V3CommitKey_from_parts (sequence k) (random_id k) = Ok k)
  /\ forall r, standalone_carrier_id id = Ok r <->
       length r = 32%nat /\ generate_v3_standalone_object_id (Some r) = Ok id.
Proof.
  split.
  - intros k. split.
    + intros P. apply parse_Ok in P as (U & L & <- & E). split_and!; try done.
      rewrite from_parts_eq. destruct k as [s r o]. cbn [sequence random_id object_id] in *. by rewrite E.
    + intros (U & L & <- & E). destruct k as [s r o]. cbn [sequence random_id object_id] in *.
      apply from_parts_object_id in E. cbn [object_id] in E. subst o. by apply parse_from_parts.
  - intros r. rewrite standalone_Ok. unfold generate_v3_standalone_object_id, BackendObjectId_new, validate_non_empty.
    cbn [ok_or rbind]. change V3_STANDALONE_OBJECT_PREFIX with (x6f :: bytes_of_string "bjects/v03/").
    rewrite <- app_comm_cons, trim_is_empty_ascii by done. simpl. naive_solver.
Qed.

(** Commit keys sort by sequence: a listing of backend keys in byte order
    shows commits in the order of their sequence numbers. *)
Theorem commit_keys_sort_by_sequence s1 s2 r1 r2 k1 k2 :
  is_u64 s1 -> is_u64 s2 -> V3CommitKey_from_parts s1 r1 = Ok k1 -> V3CommitKey_from_parts s2 r2 = Ok k2 ->
  s1 < s2 -> cmp (object_id k1) (object_id k2) = Lt.
Proof.
  unfold is_u64. intros U1 U2 P1 P2 L. rewrite (from_parts_object_id _ _ _ P1), (from_parts_object_id _ _ _ P2).
  rewrite list_cmp_app_l. apply list_cmp_app_r; [by rewrite !format_020_length|].
  apply to_digits_lt; [lia| |lia|lia|simpl; lia].
  intros d e D E. rewrite !u8_to_u8_small by lia. lia.
Qed.
End ObjectKeyProperties.

Import Reference.

Lemma object_keys_exact_witness :
  exists k, V3CommitKey_from_parts 7 (List.repeat x05 32) = Ok k
    /\ V3CommitKey_parse (object_id k) = Ok k.
Proof.
  eexists. split; [vm_compute; reflexivity|].
  apply (proj2 (proj1 (object_keys_exact _) _)).
  split; [unfold is_u64; simpl; lia|]. split; [reflexivity|]. split; [reflexivity|vm_compute; reflexivity].
Defined.

Lemma commit_keys_sort_by_sequence_witness :
  exists k1 k2, V3CommitKey_from_parts 9 (List.repeat xff 32) = Ok k1
    /\ V3CommitKey_from_parts 10 (List.repeat x00 32) = Ok k2
    /\ cmp (object_id k1) (object_id k2) = Lt.
Proof.
  do 2 eexists. split; [vm_compute; reflexivity|]. split; [vm_compute; reflexivity|].
  apply (commit_keys_sort_by_sequence 9 10 (List.repeat xff 32) (List.repeat x00 32));
    first [vm_compute; reflexivity | unfold is_u64; lia | lia].
Defined.
