(* ===== verification/Commit.v ===== *)
(** * Commit objects (crates/rs3-repository/src/v3/commit.rs)

    A commit object is a fixed 40-byte prefix, a canonical CBOR header that is
    signed with its signature field zeroed, and the sections the header
    declares, back to back.  This file holds the definitions: the header codec,
    the signature, the section layout and the parsing of whole objects. *)

From Stdlib Require Import Strings.String.
From S2P Require Import Prelude Ord Text Types Cbor External Keyring V3Wire ObjectKeys.
Open Scope Z_scope.
Import Keys V3.

Definition V3_DIGEST_LEN : Z := 32.
Definition V3_SIGNATURE_LEN : Z := 64.
Definition V3_HEADER_META_LEN : Z := 40.
Definition V3_MAX_HEADER_SIZE : Z := 8192.
Definition V3_MAX_COMMIT_SECTIONS : Z := 3.
Definition V3_COMMIT_MAGIC : list byte := bytes_of_string "rs3:cmt" ++ [x0a].
Definition V3_FORMAT_VERSION : Z := 3.
Definition V3_MIN_READER_VERSION : Z := 3.
Definition V3_SECTION_FLAG_MUST_UNDERSTAND : Z := 1.
Definition V3_SECTION_FLAG_COMPRESSED : Z := 2.
Definition MAX_HEADER_CBOR_LEN : Z := V3_MAX_HEADER_SIZE - V3_HEADER_META_LEN.

(** ** Data *)

Inductive V3CommitKind : Type := Delta | Root.

Definition kind_to_wire (k : V3CommitKind) : Z :=
  match k with
  | Delta => 1
  | Root => 2
  end.

Definition kind_from_wire (value : Z) : V3Result V3CommitKind :=
  if value =? 1 then Ok Delta
  else if value =? 2 then Ok Root
  else Err InvalidHeaderField.

Inductive V3SectionType : Type :=
| IndexRun
| IndexRoot
| PayloadPack
| Recovery
| Unknown (value : Z).

Definition section_to_wire (t : V3SectionType) : Z :=
  match t with
  | IndexRun => 0x0005
  | IndexRoot => 0x0006
  | PayloadPack => 0x0007
  | Recovery => 0x0008
  | Unknown value => value
  end.

Definition section_from_wire (value : Z) : V3SectionType :=
  if value =? 0x0005 then IndexRun
  else if value =? 0x0006 then IndexRoot
  else if value =? 0x0007 then PayloadPack
  else if value =? 0x0008 then Recovery
  else Unknown value.

Definition is_supported (t : V3SectionType) : bool :=
  match t with
  | Unknown _ => false
  | _ => true
  end.

Record V3CommitSelfRef : Type := {
  self_sequence : Z;
  self_commit_key : text
}.

Record V3CommitParentRef : Type := {
  parent_sequence : Z;
  parent_commit_key : text;
  parent_body_digest : list byte;
  parent_version_id : option text
}.

Record V3Algorithms : Type := {
  alg_signature : text;
  alg_payload_aead : text;
  alg_index_aead : text;
  alg_digest : text;
  alg_kdf : text
}.

Definition V3Algorithms_v03 : V3Algorithms := {|
  alg_signature := bytes_of_string "Ed25519";
  alg_payload_aead := bytes_of_string "XChaCha20-Poly1305";
  alg_index_aead := bytes_of_string "AES-256-GCM-SIV-Random-Nonce-v1";
  alg_digest := bytes_of_string "SHA-256";
  alg_kdf := bytes_of_string "HMAC-SHA256"
|}.

Record V3SectionDescriptor : Type := {
  section_type : V3SectionType;
  section_offset : Z;        (* u64 *)
  section_length : Z;        (* u64 *)
  section_flags : Z;         (* u8 *)
  section_digest : list byte
}.

Record V3CommitHeader : Type := {
  self_ref : V3CommitSelfRef;
  parent : option V3CommitParentRef;
  publish_time_ms : Z;       (* i64 *)
  kind : V3CommitKind;
  algorithms : V3Algorithms;
  keyring_envelope_ref : V3KeyringEnvelopeRef;
  section_index : list V3SectionDescriptor;
  body_digest : list byte;
  header_signature : list byte;
  signing_key_id : text
}.

Record V3ParsedCommitHeader : Type := {
  parsed_header_ : V3CommitHeader;
  header_len : Z;
  sections_start : Z
}.

Record V3ParsedCommit : Type := {
  parsed_header : V3ParsedCommitHeader;
  version_id : option text;
  body : list byte
}.

Inductive SignatureMode : Type := Actual | Zero.

Record FixedHeader : Type := {
  fixed_header_len : Z;
  header_span_len : Z
}.

#[export] Instance V3SectionType_eq_dec : EqDecision V3SectionType.
Proof. solve_decision. Defined.
#[export] Instance V3CommitKind_eq_dec : EqDecision V3CommitKind.
Proof. solve_decision. Defined.
#[export] Instance V3Algorithms_eq_dec : EqDecision V3Algorithms.
Proof. solve_decision. Defined.

(** ** Encoding *)

Definition encode_self_ref (out : list byte) (r : V3CommitSelfRef) : list byte :=
  let out := write_map_len out 2 in
  let out := write_u64 out 1 in
  let out := write_u64 out (self_sequence r) in
  let out := write_u64 out 2 in
  Cbor.write_text out (self_commit_key r).

Definition encode_parent_ref (out : list byte) (p : V3CommitParentRef) : list byte :=
  let out := write_map_len out 4 in
  let out := write_u64 out 1 in
  let out := write_u64 out (parent_sequence p) in
  let out := write_u64 out 2 in
  let out := Cbor.write_text out (parent_commit_key p) in
  let out := write_u64 out 3 in
  let out := write_bytes out (parent_body_digest p) in
  let out := write_u64 out 4 in
  match parent_version_id p with
  | Some version_id => write_bytes out version_id
  | None => write_null out
  end.

Definition encode_algorithms (out : list byte) (a : V3Algorithms) : list byte :=
  let out := write_map_len out 5 in
  let out := write_u64 out 1 in
  let out := Cbor.write_text out (alg_signature a) in
  let out := write_u64 out 2 in
  let out := Cbor.write_text out (alg_payload_aead a) in
  let out := write_u64 out 3 in
  let out := Cbor.write_text out (alg_index_aead a) in
  let out := write_u64 out 4 in
  let out := Cbor.write_text out (alg_digest a) in
  let out := write_u64 out 5 in
  Cbor.write_text out (alg_kdf a).

Definition encode_keyring_ref (out : list byte) (r : V3KeyringEnvelopeRef) : list byte :=
  let out := write_map_len out 2 in
  let out := write_u64 out 1 in
  let out := Cbor.write_text out (ke_object_id r) in
  let out := write_u64 out 2 in
  write_bytes out (ke_digest r).

Definition encode_section (out : list byte) (s : V3SectionDescriptor) : list byte :=
  let out := write_map_len out 5 in
  let out := write_u64 out 1 in
  let out := write_u64 out (section_to_wire (section_type s)) in
  let out := write_u64 out 2 in
  let out := write_u64 out (section_offset s) in
  let out := write_u64 out 3 in
  let out := write_u64 out (section_length s) in
  let out := write_u64 out 4 in
  let out := write_u64 out (section_flags s) in
  let out := write_u64 out 5 in
  write_bytes out (section_digest s).

Definition encode_header_cbor (header : V3CommitHeader) (signature_mode : SignatureMode) : list byte :=
  let out := write_map_len [] 10 in
  let out := write_u64 out 1 in
  let out := encode_self_ref out (self_ref header) in
  let out := write_u64 out 2 in
  let out := match parent header with
             | Some parent => encode_parent_ref out parent
             | None => write_null out
             end in
  let out := write_u64 out 3 in
  let out := write_i64 out (publish_time_ms header) in
  let out := write_u64 out 4 in
  let out := write_u64 out (kind_to_wire (kind header)) in
  let out := write_u64 out 5 in
  let out := encode_algorithms out (algorithms header) in
  let out := write_u64 out 6 in
  let out := encode_keyring_ref out (keyring_envelope_ref header) in
  let out := write_u64 out 7 in
  let out := write_array_len out (len (section_index header)) in
  let out := fold_left encode_section (section_index header) out in
  let out := write_u64 out 8 in
  let out := write_bytes out (body_digest header) in
  let out := write_u64 out 9 in
  let out := match signature_mode with
             | Actual => write_bytes out (header_signature header)
             | Zero => write_bytes out (List.repeat x00 64)
             end in
  let out := write_u64 out 10 in
  write_bytes out (signing_key_id header).

(** The zeroed buffer with its fields copied in. *)
Definition header_span (header : V3CommitHeader) (signature_mode : SignatureMode) : V3Result (list byte) :=
  let cbor := encode_header_cbor header signature_mode in
  reject_if (len cbor >? MAX_HEADER_CBOR_LEN) HeaderTooLarge ;;?
  Ok (V3_COMMIT_MAGIC ++ to_be_bytes 4 V3_FORMAT_VERSION ++ to_be_bytes 4 V3_MIN_READER_VERSION
      ++ to_be_bytes 4 (len cbor) ++ List.repeat x00 20 ++ cbor).

(** ** Decoding *)

(** [read_ordered_key]: the next map key, above the last one. *)
Definition read_ordered_key (last_key : Z) : R Z :=
  key <- from_cbor read_u64 ;;
  lift (reject_if (key <=? last_key) MalformedCbor) ;;
  mret key.

(** The loop over the entries of a map: [entry key fields] reads the value of
    [key] into the local variables [fields]. *)
Fixpoint map_entries {F} (count : nat) (entry : Z -> F -> R F) (last_key : Z) (fields : F) : R F :=
  match count with
  | O => mret fields
  | S count' =>
      key <- read_ordered_key last_key ;;
      fields' <- entry key fields ;;
      map_entries count' entry key fields'
  end.

(** The head of a map that must have [n] entries, and the entries. *)
Definition read_map {F} (n : nat) (entry : Z -> F -> R F) (fields : F) : R F :=
  count <- from_cbor read_map_len ;;
  lift (reject_if (negb (count =? Z.of_nat n)) MissingHeaderField) ;;
  map_entries n entry 0 fields.

Definition field {A} (o : option A) : R A := lift (ok_or o MissingHeaderField).

Definition bytes_to_string (bytes : list byte) : V3Result text :=
  if utf8_valid bytes then Ok bytes else Err InvalidHeaderField.

Definition decode_digest : R (list byte) :=
  bytes <- from_cbor read_bytes ;;
  lift (reject_if (negb (len bytes =? V3_DIGEST_LEN)) InvalidHeaderField) ;;
  mret bytes.

Definition decode_signature : R (list byte) :=
  bytes <- from_cbor read_bytes ;;
  lift (reject_if (negb (len bytes =? V3_SIGNATURE_LEN)) InvalidHeaderField) ;;
  mret bytes.

Definition decode_key_id : R text :=
  bytes <- from_cbor read_bytes ;;
  string <- lift (bytes_to_string bytes) ;;
  lift (from_type (KeyId_new string)).

Definition decode_object_id : R text :=
  value <- from_cbor Cbor.read_text ;;
  lift (from_type (BackendObjectId_new value)).

Definition decode_version_id : R (option text) :=
  null_or (fun _ => MalformedCbor)
    (bytes <- from_cbor read_bytes ;;
     string <- lift (bytes_to_string bytes) ;;
     lift (from_type (BackendVersionId_new string))).

Definition self_ref_entry (key : Z) (fields : option Z * option text) : R (option Z * option text) :=
  let '(sequence, commit_key) := fields in
  if key =? 1 then v <- from_cbor read_u64 ;; mret (Some v, commit_key)
  else if key =? 2 then v <- decode_object_id ;; mret (sequence, Some v)
  else lift (Err InvalidHeaderField).

Definition decode_self_ref : R V3CommitSelfRef :=
  '(sequence, commit_key) <- read_map 2 self_ref_entry (None, None) ;;
  sequence <- field sequence ;;
  commit_key <- field commit_key ;;
  mret {| self_sequence := sequence; self_commit_key := commit_key |}.

Abbreviation parent_fields := (option Z * option text * option (list byte) * option (option text))%type.

Definition parent_ref_entry (key : Z) (fields : parent_fields) : R parent_fields :=
  let '(sequence, commit_key, body_digest, version_id) := fields in
  if key =? 1 then v <- from_cbor read_u64 ;; mret (Some v, commit_key, body_digest, version_id)
  else if key =? 2 then v <- decode_object_id ;; mret (sequence, Some v, body_digest, version_id)
  else if key =? 3 then v <- decode_digest ;; mret (sequence, commit_key, Some v, version_id)
  else if key =? 4 then v <- decode_version_id ;; mret (sequence, commit_key, body_digest, Some v)
  else lift (Err InvalidHeaderField).

Definition decode_parent_ref : R V3CommitParentRef :=
  '(sequence, commit_key, body_digest, version_id) <-
    read_map 4 parent_ref_entry (None, None, None, None) ;;
  sequence <- field sequence ;;
  commit_key <- field commit_key ;;
  body_digest <- field body_digest ;;
  version_id <- field version_id ;;
  mret {| parent_sequence := sequence; parent_commit_key := commit_key;
          parent_body_digest := body_digest; parent_version_id := version_id |}.

Abbreviation algorithm_fields :=
  (option text * option text * option text * option text * option text)%type.

(** Here the value is read before the key is looked at. *)
Definition algorithms_entry (key : Z) (fields : algorithm_fields) : R algorithm_fields :=
  let '(signature, payload_aead, index_aead, digest, kdf) := fields in
  v <- from_cbor Cbor.read_text ;;
  if key =? 1 then mret (Some v, payload_aead, index_aead, digest, kdf)
  else if key =? 2 then mret (signature, Some v, index_aead, digest, kdf)
  else if key =? 3 then mret (signature, payload_aead, Some v, digest, kdf)
  else if key =? 4 then mret (signature, payload_aead, index_aead, Some v, kdf)
  else if key =? 5 then mret (signature, payload_aead, index_aead, digest, Some v)
  else lift (Err InvalidHeaderField).

Definition decode_algorithms : R V3Algorithms :=
  '(signature, payload_aead, index_aead, digest, kdf) <-
    read_map 5 algorithms_entry (None, None, None, None, None) ;;
  signature <- field signature ;;
  payload_aead <- field payload_aead ;;
  index_aead <- field index_aead ;;
  digest <- field digest ;;
  kdf <- field kdf ;;
  mret {| alg_signature := signature; alg_payload_aead := payload_aead;
          alg_index_aead := index_aead; alg_digest := digest; alg_kdf := kdf |}.

Definition keyring_ref_entry (key : Z) (fields : option text * option (list byte)) :
    R (option text * option (list byte)) :=
  let '(object_id, digest) := fields in
  if key =? 1 then v <- decode_object_id ;; mret (Some v, digest)
  else if key =? 2 then v <- decode_digest ;; mret (object_id, Some v)
  else lift (Err InvalidHeaderField).

Definition decode_keyring_ref : R V3KeyringEnvelopeRef :=
  '(object_id, digest) <- read_map 2 keyring_ref_entry (None, None) ;;
  object_id <- field object_id ;;
  digest <- field digest ;;
  mret {| ke_object_id := object_id; ke_digest := digest |}.

Abbreviation section_fields :=
  (option V3SectionType * option Z * option Z * option Z * option (list byte))%type.

Definition section_entry (key : Z) (fields : section_fields) : R section_fields :=
  let '(section_type, offset, length, flags, digest) := fields in
  if key =? 1 then
    v <- from_cbor read_u64 ;;
    lift (reject_if (v >? u16_max) InvalidHeaderField) ;;
    mret (Some (section_from_wire v), offset, length, flags, digest)
  else if key =? 2 then v <- from_cbor read_u64 ;; mret (section_type, Some v, length, flags, digest)
  else if key =? 3 then v <- from_cbor read_u64 ;; mret (section_type, offset, Some v, flags, digest)
  else if key =? 4 then
    v <- from_cbor read_u64 ;;
    lift (reject_if (v >? u8_max) InvalidHeaderField) ;;
    mret (section_type, offset, length, Some v, digest)
  else if key =? 5 then v <- decode_digest ;; mret (section_type, offset, length, flags, Some v)
  else lift (Err InvalidHeaderField).

Definition decode_section : R V3SectionDescriptor :=
  '(section_type, offset, length, flags, digest) <-
    read_map 5 section_entry (None, None, None, None, None) ;;
  section_type <- field section_type ;;
  offset <- field offset ;;
  length <- field length ;;
  flags <- field flags ;;
  digest <- field digest ;;
  mret {| section_type := section_type; section_offset := offset; section_length := length;
          section_flags := flags; section_digest := digest |}.

Fixpoint decode_sections_loop (count : nat) : R (list V3SectionDescriptor) :=
  match count with
  | O => mret []
  | S count' =>
      section <- decode_section ;;
      sections <- decode_sections_loop count' ;;
      mret (section :: sections)
  end.

Definition decode_sections : R (list V3SectionDescriptor) :=
  count <- from_cbor read_array_len ;;
  lift (reject_if (count >? V3_MAX_COMMIT_SECTIONS) InvalidHeaderField) ;;
  decode_sections_loop (Z.to_nat count).

(** The local variables of [decode_header_cbor]. *)
Record HeaderFields : Type := MkHeaderFields {
  hf_self_ref : option V3CommitSelfRef;
  hf_parent : option (option V3CommitParentRef);
  hf_publish_time_ms : option Z;
  hf_kind : option V3CommitKind;
  hf_algorithms : option V3Algorithms;
  hf_keyring_envelope_ref : option V3KeyringEnvelopeRef;
  hf_section_index : option (list V3SectionDescriptor);
  hf_body_digest : option (list byte);
  hf_signature : option (list byte);
  hf_signing_key_id : option text
}.

Definition header_entry (key : Z) (fields : HeaderFields) : R HeaderFields :=
  let '(MkHeaderFields self_ref parent time kind algs keyring sections digest signature key_id) := fields in
  if key =? 1 then
    v <- decode_self_ref ;;
    mret (MkHeaderFields (Some v) parent time kind algs keyring sections digest signature key_id)
  else if key =? 2 then
    v <- null_or (fun _ => MalformedCbor) decode_parent_ref ;;
    mret (MkHeaderFields self_ref (Some v) time kind algs keyring sections digest signature key_id)
  else if key =? 3 then
    v <- from_cbor read_i64 ;;
    mret (MkHeaderFields self_ref parent (Some v) kind algs keyring sections digest signature key_id)
  else if key =? 4 then
    v <- from_cbor read_u64 ;;
    k <- lift (kind_from_wire v) ;;
    mret (MkHeaderFields self_ref parent time (Some k) algs keyring sections digest signature key_id)
  else if key =? 5 then
    v <- decode_algorithms ;;
    mret (MkHeaderFields self_ref parent time kind (Some v) keyring sections digest signature key_id)
  else if key =? 6 then
    v <- decode_keyring_ref ;;
    mret (MkHeaderFields self_ref parent time kind algs (Some v) sections digest signature key_id)
  else if key =? 7 then
    v <- decode_sections ;;
    mret (MkHeaderFields self_ref parent time kind algs keyring (Some v) digest signature key_id)
  else if key =? 8 then
    v <- decode_digest ;;
    mret (MkHeaderFields self_ref parent time kind algs keyring sections (Some v) signature key_id)
  else if key =? 9 then
    v <- decode_signature ;;
    mret (MkHeaderFields self_ref parent time kind algs keyring sections digest (Some v) key_id)
  else if key =? 10 then
    v <- decode_key_id ;;
    mret (MkHeaderFields self_ref parent time kind algs keyring sections digest signature (Some v))
  else lift (Err InvalidHeaderField).

Definition decode_header_cbor (input : list byte) : V3Result V3CommitHeader :=
  '(fields, reader) <-?
    read_map 10 header_entry (MkHeaderFields None None None None None None None None None None)
      (Reader_new input) ;;
  reject_if (negb (is_finished reader)) MalformedCbor ;;?
  self_ref <-? ok_or (hf_self_ref fields) MissingHeaderField ;;
  parent <-? ok_or (hf_parent fields) MissingHeaderField ;;
  publish_time_ms <-? ok_or (hf_publish_time_ms fields) MissingHeaderField ;;
  kind <-? ok_or (hf_kind fields) MissingHeaderField ;;
  algorithms <-? ok_or (hf_algorithms fields) MissingHeaderField ;;
  keyring_envelope_ref <-? ok_or (hf_keyring_envelope_ref fields) MissingHeaderField ;;
  section_index <-? ok_or (hf_section_index fields) MissingHeaderField ;;
  body_digest <-? ok_or (hf_body_digest fields) MissingHeaderField ;;
  signature <-? ok_or (hf_signature fields) MissingHeaderField ;;
  signing_key_id <-? ok_or (hf_signing_key_id fields) MissingHeaderField ;;
  Ok {| self_ref := self_ref; parent := parent; publish_time_ms := publish_time_ms; kind := kind;
        algorithms := algorithms; keyring_envelope_ref := keyring_envelope_ref;
        section_index := section_index; body_digest := body_digest; header_signature := signature;
        signing_key_id := signing_key_id |}.

(** [input[start..start + n]]. *)
Definition slice (start n : Z) (l : list byte) : list byte :=
  firstn (Z.to_nat n) (skipn (Z.to_nat start) l).

Definition nonzero (l : list byte) : bool := existsb (fun b => negb (u8 b =? 0)) l.

Definition parse_fixed_header (input : list byte) : V3Result FixedHeader :=
  reject_if ((len input <? V3_HEADER_META_LEN)
             || negb (bool_decide (slice 0 (len V3_COMMIT_MAGIC) input = V3_COMMIT_MAGIC)))
    TruncatedHeader ;;?
  let word start := from_be_bytes (slice start 4 input) in
  reject_if (negb (word 8 =? V3_FORMAT_VERSION)) UnsupportedFormatVersion ;;?
  reject_if (negb (word 12 =? V3_MIN_READER_VERSION)) UnsupportedReaderVersion ;;?
  reject_if (nonzero (slice 20 8 input)) UnsupportedCapabilities ;;?
  reject_if (nonzero (slice 28 12 input)) NonzeroReserved ;;?
  let header_len := word 16 in
  reject_if (header_len >? MAX_HEADER_CBOR_LEN) HeaderTooLarge ;;?
  Ok {| fixed_header_len := header_len; header_span_len := V3_HEADER_META_LEN + header_len |}.

Definition v3_commit_header_span_len (input : list byte) : V3Result Z :=
  fixed <-? parse_fixed_header input ;; Ok (header_span_len fixed).

(** ** Sections *)

Fixpoint section_layout_loop (section_region_len next_start : Z) (sections : list V3SectionDescriptor) :
    V3Result Z :=
  match sections with
  | [] => Ok next_start
  | section :: sections' =>
      reject_if (negb (Z.land (section_flags section)
                         (Z.lxor (Z.lor V3_SECTION_FLAG_MUST_UNDERSTAND V3_SECTION_FLAG_COMPRESSED) u8_max) =? 0))
        ReservedSectionFlags ;;?
      reject_if (negb (Z.land (section_flags section) V3_SECTION_FLAG_MUST_UNDERSTAND =? 0)
                 && negb (is_supported (section_type section))) UnsupportedSection ;;?
      end_ <-? ok_or (checked_add (section_offset section) (section_length section)) SectionBounds ;;
      reject_if (negb (section_offset section =? next_start) || (end_ >? section_region_len)) SectionBounds ;;?
      section_layout_loop section_region_len end_ sections'
  end.

Definition validate_section_layout (sections : list V3SectionDescriptor) (section_region_len : Z) :
    V3Result unit :=
  reject_if (len sections >? V3_MAX_COMMIT_SECTIONS) InvalidHeaderField ;;?
  next_start <-? section_layout_loop section_region_len 0 sections ;;
  reject_if (negb (next_start =? section_region_len)) SectionBounds.

(** The parent link and the section types a commit of each kind may carry. *)
Definition valid_section_types (header : V3CommitHeader) : bool :=
  match kind header, map section_type (section_index header) with
  | Root, ([IndexRoot] | [IndexRoot; Recovery]) => true
  | Root, _ => false
  | Delta, ([IndexRun] | [PayloadPack; IndexRun] | [IndexRun; Recovery] | [PayloadPack; IndexRun; Recovery]) =>
      match parent header with Some _ => true | None => false end
  | Delta, _ => false
  end.

Definition validate_commit_section_semantics (header : V3CommitHeader) : V3Result unit :=
  reject_if (match parent header with
             | None => negb (self_sequence (self_ref header) =? 1)
             | Some parent =>
                 negb (bool_decide (Sequence_checked_next (parent_sequence parent)
                                    = Some (self_sequence (self_ref header))))
             end) InvalidHeaderField ;;?
  reject_if (existsb (fun section => negb (section_flags section =? V3_SECTION_FLAG_MUST_UNDERSTAND))
               (section_index header)) InvalidHeaderField ;;?
  reject_if (negb (valid_section_types header)) InvalidHeaderField.

Definition validate_v3_commit_object_len (p : V3ParsedCommitHeader) (object_len : Z) : V3Result unit :=
  section_region_len <-? ok_or (checked_sub object_len (sections_start p)) TruncatedBody ;;
  validate_section_layout (section_index (parsed_header_ p)) section_region_len ;;?
  validate_commit_section_semantics (parsed_header_ p).

Section Commit.
Context `{Primitives}.

Definition digest_v3_section (section_bytes : list byte) : list byte := sha256 section_bytes.

(** The digest loop; [hashed] is what has been fed to the hasher. *)
Fixpoint body_digest_loop (region hashed : list byte) (sections : list V3SectionDescriptor) :
    V3Result (list byte) :=
  match sections with
  | [] => Ok (sha256 hashed)
  | section :: sections' =>
      let section_bytes := slice (section_offset section) (section_length section) region in
      reject_if (negb (bool_decide (digest_v3_section section_bytes = section_digest section)))
        SectionDigestMismatch ;;?
      body_digest_loop region (hashed ++ section_bytes) sections'
  end.

Definition body_digest_for_v3_sections (sections : list V3SectionDescriptor) (region : list byte) :
    V3Result (list byte) :=
  validate_section_layout sections (len region) ;;?
  body_digest_loop region [] sections.

(** ** Objects *)

Definition sign_with_keyring (header : V3CommitHeader) (keyring : KeyRing) : V3Result V3CommitHeader :=
  let sign_as key_id signature :=
    {| self_ref := self_ref header; parent := parent header; publish_time_ms := publish_time_ms header;
       kind := kind header; algorithms := algorithms header;
       keyring_envelope_ref := keyring_envelope_ref header; section_index := section_index header;
       body_digest := body_digest header; header_signature := signature; signing_key_id := key_id |} in
  key_id <-? map_err (fun _ => CryptoOperation) (primary_key_id keyring CheckpointSigning) ;;
  signing_bytes <-? header_span (sign_as key_id (List.repeat x00 64)) Zero ;;
  signed <-? map_err (fun _ => CryptoOperation) (sign_checkpoint_payload keyring signing_bytes) ;;
  reject_if (negb (len (signature signed) =? V3_SIGNATURE_LEN)) InvalidHeaderField ;;?
  Ok (sign_as (sig_key_id signed) (signature signed)).

Definition encode_object (header : V3CommitHeader) (section_region : list byte) : V3Result (list byte) :=
  validate_commit_section_semantics header ;;?
  digest <-? body_digest_for_v3_sections (section_index header) section_region ;;
  reject_if (negb (bool_decide (digest = body_digest header))) BodyDigestMismatch ;;?
  span <-? header_span header Actual ;;
  Ok (span ++ section_region).

Definition parse_v3_commit_header (object_id : text) (input : list byte) (keyring : KeyRing) :
    V3Result V3ParsedCommitHeader :=
  fixed <-? parse_fixed_header input ;;
  reject_if (len input <? header_span_len fixed) TruncatedHeader ;;?
  let header_cbor := slice V3_HEADER_META_LEN (fixed_header_len fixed) input in
  header <-? decode_header_cbor header_cbor ;;
  reject_if (negb (bool_decide (encode_header_cbor header Actual = header_cbor))) NonCanonicalCbor ;;?
  reject_if (negb (bool_decide (algorithms header = V3Algorithms_v03))) InvalidAlgorithms ;;?
  commit_key <-? V3CommitKey_parse (self_commit_key (self_ref header)) ;;
  reject_if (negb (sequence commit_key =? self_sequence (self_ref header))) SelfKeyMismatch ;;?
  reject_if (negb (bool_decide (self_commit_key (self_ref header) = object_id))) SelfKeyMismatch ;;?
  signing_bytes <-? header_span header Zero ;;
  map_err (fun _ => SignatureVerification)
    (verify_checkpoint_payload keyring (signing_key_id header) signing_bytes (header_signature header)) ;;?
  Ok {| parsed_header_ := header; header_len := fixed_header_len fixed;
        sections_start := header_span_len fixed |}.

Definition parse_v3_commit_object (object_id : text) (body : list byte) (keyring : KeyRing) :
    V3Result V3ParsedCommit :=
  parsed <-? parse_v3_commit_header object_id body keyring ;;
  reject_if (len body <? sections_start parsed) TruncatedBody ;;?
  let section_region := skipn (Z.to_nat (sections_start parsed)) body in
  digest <-? body_digest_for_v3_sections (section_index (parsed_header_ parsed)) section_region ;;
  reject_if (negb (bool_decide (digest = body_digest (parsed_header_ parsed)))) BodyDigestMismatch ;;?
  validate_commit_section_semantics (parsed_header_ parsed) ;;?
  Ok {| parsed_header := parsed; version_id := None; body := body |}.
End Commit.
