(* ===== verification/CommitCodec.v ===== *)
(** * The commit header codec is exact

    The header is a nest of CBOR maps whose keys must ascend.  A map of [n]
    entries whose reader refuses keys above [n] can only hold the keys
    [1 .. n] in order, so the loops over entries read exactly the sequence the
    encoder writes. *)

From Stdlib Require Import Strings.String.
From S2P Require Import Prelude Ord Text Types Cbor External V3Wire ObjectKeys Commit.
Open Scope Z_scope.
Import V3.

(** ** Maps with ascending keys *)

Section Entries.
Context {F : Type} (entry : Z -> F -> R F).

Lemma reads_entry n last key st st1 st' e1 e2 :
  last < key -> is_u64 key -> reads (entry key st) e1 st1 ->
  reads (map_entries n entry key st1) e2 st' ->
  reads (map_entries (S n) entry last st) (enc_u64 key ++ e1 ++ e2) st'.
Proof.
  intros L U E M. cbn [map_entries]. unfold read_ordered_key, from_cbor.
  eapply reads_bind; [|by eapply reads_bind].
  eapply reads_bind_end; [by apply reads_mmap_err, reads_u64|].
  eapply reads_bind_nil; [apply reads_lift; unfold reject_if; case_if; b2p; [lia|done]|]. apply reads_ret.
Qed.

Lemma reads_entries_end last st : reads (map_entries 0 entry last st) [] st.
Proof. apply reads_ret. Qed.

Lemma reads_map n st st' e :
  Z.of_nat n <= 23 -> reads (map_entries n entry 0 st) e st' ->
  reads (read_map n entry st) (enc_map_len (Z.of_nat n) ++ e) st'.
Proof.
  intros N M. unfold read_map, from_cbor.
  eapply reads_bind; [apply reads_mmap_err, reads_map_len; unfold is_u64; lia|].
  eapply reads_bind_nil; [apply reads_lift; by rewrite Z.eqb_refl|done].
Qed.

(** Keys above [m] are refused. *)
Definition refuses_above (m : Z) : Prop := forall key st s r, m < key -> entry key st s <> Ok r.

Lemma map_entries_bound m n last st s r :
  refuses_above m -> (0 < n)%nat -> map_entries n entry last st s = Ok r -> last + Z.of_nat n <= m.
Proof.
  intros B. revert last st s. induction n as [|n IH]; intros last st s N E; [lia|].
  cbn [map_entries] in E. unfold read_ordered_key, from_cbor in E. inv_bind. b2p.
  destruct n as [|n].
  - destruct (Z_lt_le_dec m z) as [G|]; [|lia]. match goal with X : entry _ _ _ = Ok _ |- _ => by destruct (B _ _ _ _ G X) end.
  - apply IH in E; lia.
Qed.

Lemma map_entries_step n last st s st' s' :
  refuses_above (last + Z.of_nat (S n)) -> map_entries (S n) entry last st s = Ok (st', s') ->
  exists st1 s1 s2, read_u64 s = Ok (last + 1, s1) /\ entry (last + 1) st s1 = Ok (st1, s2)
    /\ map_entries n entry (last + 1) st1 s2 = Ok (st', s').
Proof.
  intros B E. cbn [map_entries] in E. unfold read_ordered_key, from_cbor in E. inv_bind. b2p.
  assert (z = last + 1) as ->; [|eauto 10]. destruct n as [|n].
  - destruct (Z_lt_le_dec (last + Z.of_nat 1) z) as [G|]; [|lia]. match goal with X : entry _ _ _ = Ok _ |- _ => by destruct (B _ _ _ _ G X) end.
  - apply (map_entries_bound (last + Z.of_nat (S (S n)))) in E; [lia|done|lia].
Qed.

Lemma read_map_inv n st s st' s' :
  read_map n entry st s = Ok (st', s') ->
  exists s1, read_map_len s = Ok (Z.of_nat n, s1) /\ map_entries n entry 0 st s1 = Ok (st', s').
Proof. unfold read_map, from_cbor. intros E. inv_bind. b2p. subst. eauto. Qed.
End Entries.

Ltac solve_refuses :=
  intros key fields s r L E; cbv beta iota delta [self_ref_entry parent_ref_entry algorithms_entry
    keyring_ref_entry section_entry header_entry] in E;
  repeat match type of E with
  | (let '(_, _) := ?x in _) _ = _ => destruct x
  end;
  try (destruct fields); inv_bind;
  repeat (case_if_in E; [b2p; lia|]); discriminate E.

(** Splits a read of a map in the context into the reads of its entries, in
    order; [refused] shows that keys beyond the last are refused. *)
Ltac entry_step refused :=
  match goal with
  | E : map_entries (S ?n) ?entry ?last ?st ?s = Ok _ |- _ =>
      let K := fresh "K" in
      let X := fresh "X" in
      apply map_entries_step in E as (? & ? & ? & K & X & E); [|exact refused];
      let k := eval compute in (last + 1) in
      change (last + 1) with k in *;
      unfold entry in X; cbn [Z.eqb Pos.eqb] in X; inv_bind
  end.

Ltac map_steps refused :=
  match goal with
  | E : read_map _ _ _ _ = Ok _ |- _ => apply read_map_inv in E as (? & ? & E)
  end;
  repeat entry_step refused;
  match goal with
  | E : map_entries 0 _ _ _ _ = Ok _ |- _ => cbn [map_entries] in E; inv_bind
  end;
  unfold field in *; cbn [ok_or] in *; inv_bind.

(** ** Well-formed values *)

Definition wf_string (s : text) : Prop := utf8_valid s = true /\ len s <= usize_max.
Definition wf_id (s : text) : Prop := wf_name s /\ len s <= usize_max.

Definition wf_self_ref (r : V3CommitSelfRef) : Prop := is_u64 (self_sequence r) /\ wf_id (self_commit_key r).

Definition wf_parent_ref (p : V3CommitParentRef) : Prop :=
  is_u64 (parent_sequence p) /\ wf_id (parent_commit_key p) /\ length (parent_body_digest p) = 32%nat
  /\ match parent_version_id p with Some v => wf_id v | None => True end.

Definition wf_algorithms (a : V3Algorithms) : Prop :=
  wf_string (alg_signature a) /\ wf_string (alg_payload_aead a) /\ wf_string (alg_index_aead a)
  /\ wf_string (alg_digest a) /\ wf_string (alg_kdf a).

Definition wf_keyring_ref (r : V3KeyringEnvelopeRef) : Prop :=
  wf_id (ke_object_id r) /\ length (ke_digest r) = 32%nat.

(** An unknown section type is a 16-bit code other than the known ones. *)
Definition wf_section_type (t : V3SectionType) : Prop :=
  match t with
  | Unknown v => is_u16 v /\ (v < 5 \/ 8 < v)
  | _ => True
  end.

Definition wf_section (s : V3SectionDescriptor) : Prop :=
  wf_section_type (section_type s) /\ is_u64 (section_offset s) /\ is_u64 (section_length s)
  /\ 0 <= section_flags s <= u8_max /\ length (section_digest s) = 32%nat.

Definition wf_header (h : V3CommitHeader) : Prop :=
  wf_self_ref (self_ref h) /\ match parent h with Some p => wf_parent_ref p | None => True end
  /\ is_i64 (publish_time_ms h) /\ wf_algorithms (algorithms h)
  /\ wf_keyring_ref (keyring_envelope_ref h) /\ Forall wf_section (section_index h)
  /\ length (body_digest h) = 32%nat /\ length (header_signature h) = 64%nat /\ wf_id (signing_key_id h).

(** ** Encodings *)

Definition enc_self_ref (r : V3CommitSelfRef) : list byte :=
  enc_map_len 2 ++ enc_u64 1 ++ enc_u64 (self_sequence r) ++ enc_u64 2 ++ enc_text (self_commit_key r).

Definition enc_parent_ref (p : V3CommitParentRef) : list byte :=
  enc_map_len 4 ++ enc_u64 1 ++ enc_u64 (parent_sequence p) ++ enc_u64 2 ++ enc_text (parent_commit_key p)
  ++ enc_u64 3 ++ enc_bytes (parent_body_digest p) ++ enc_u64 4 ++ enc_or_null enc_bytes (parent_version_id p).

Definition enc_algorithms (a : V3Algorithms) : list byte :=
  enc_map_len 5 ++ enc_u64 1 ++ enc_text (alg_signature a) ++ enc_u64 2 ++ enc_text (alg_payload_aead a)
  ++ enc_u64 3 ++ enc_text (alg_index_aead a) ++ enc_u64 4 ++ enc_text (alg_digest a)
  ++ enc_u64 5 ++ enc_text (alg_kdf a).

Definition enc_keyring_ref (r : V3KeyringEnvelopeRef) : list byte :=
  enc_map_len 2 ++ enc_u64 1 ++ enc_text (ke_object_id r) ++ enc_u64 2 ++ enc_bytes (ke_digest r).

Definition enc_section (s : V3SectionDescriptor) : list byte :=
  enc_map_len 5 ++ enc_u64 1 ++ enc_u64 (section_to_wire (section_type s)) ++ enc_u64 2
  ++ enc_u64 (section_offset s) ++ enc_u64 3 ++ enc_u64 (section_length s) ++ enc_u64 4
  ++ enc_u64 (section_flags s) ++ enc_u64 5 ++ enc_bytes (section_digest s).

Definition enc_header (h : V3CommitHeader) (signature : list byte) : list byte :=
  enc_map_len 10 ++ enc_u64 1 ++ enc_self_ref (self_ref h) ++ enc_u64 2 ++ enc_or_null enc_parent_ref (parent h)
  ++ enc_u64 3 ++ enc_i64 (publish_time_ms h) ++ enc_u64 4 ++ enc_u64 (kind_to_wire (kind h))
  ++ enc_u64 5 ++ enc_algorithms (algorithms h) ++ enc_u64 6 ++ enc_keyring_ref (keyring_envelope_ref h)
  ++ enc_u64 7 ++ (enc_array_len (len (section_index h)) ++ flat_map enc_section (section_index h))
  ++ enc_u64 8 ++ enc_bytes (body_digest h) ++ enc_u64 9 ++ enc_bytes signature
  ++ enc_u64 10 ++ enc_bytes (signing_key_id h).

Definition signature_of (h : V3CommitHeader) (m : SignatureMode) : list byte :=
  match m with
  | Actual => header_signature h
  | Zero => List.repeat x00 64
  end.

Lemma encode_self_ref_app out r : encode_self_ref out r = out ++ enc_self_ref r.
Proof. unfold encode_self_ref, enc_self_ref. autorewrite with cbor. by rewrite <- !app_assoc. Qed.

Lemma encode_parent_ref_app out p : encode_parent_ref out p = out ++ enc_parent_ref p.
Proof.
  unfold encode_parent_ref, enc_parent_ref. destruct (parent_version_id p); cbn [enc_or_null];
    autorewrite with cbor; by rewrite <- !app_assoc.
Qed.

Lemma encode_algorithms_app out a : encode_algorithms out a = out ++ enc_algorithms a.
Proof. unfold encode_algorithms, enc_algorithms. autorewrite with cbor. by rewrite <- !app_assoc. Qed.

Lemma encode_keyring_ref_app out r : encode_keyring_ref out r = out ++ enc_keyring_ref r.
Proof. unfold encode_keyring_ref, enc_keyring_ref. autorewrite with cbor. by rewrite <- !app_assoc. Qed.

Lemma encode_section_app out s : encode_section out s = out ++ enc_section s.
Proof. unfold encode_section, enc_section. autorewrite with cbor. by rewrite <- !app_assoc. Qed.

Lemma encode_sections_app out l : fold_left encode_section l out = out ++ flat_map enc_section l.
Proof.
  revert out. induction l as [|s l IH]; intros out; simpl; [by rewrite app_nil_r|].
  by rewrite IH, encode_section_app, <- app_assoc.
Qed.

Lemma encode_header_eq h m : encode_header_cbor h m = enc_header h (signature_of h m).
Proof.
  unfold encode_header_cbor, enc_header, signature_of.
  destruct (parent h), m; cbn [enc_or_null];
    rewrite encode_sections_app, encode_keyring_ref_app, encode_algorithms_app, ?encode_parent_ref_app,
      encode_self_ref_app; autorewrite with cbor; by rewrite <- !app_assoc.
Qed.

(** ** Values *)

Lemma reads_bytes bs : len bs <= usize_max -> reads (from_cbor read_bytes) (enc_bytes bs) bs.
Proof. intros L. by apply reads_mmap_err, reads_bytes_bounded. Qed.

Lemma reads_text s : wf_string s -> reads (from_cbor Cbor.read_text) (enc_text s) s.
Proof. intros [U L]. by apply reads_mmap_err, reads_text_bounded. Qed.

Lemma reads_id_text s : wf_id s -> reads (from_cbor Cbor.read_text) (enc_text s) s.
Proof. intros [N L]. apply reads_text. split; [by apply is_name_utf8|done]. Qed.

Lemma reads_wire_u64 v : is_u64 v -> reads (from_cbor read_u64) (enc_u64 v) v.
Proof. intros U. by apply reads_mmap_err, reads_u64. Qed.

Lemma reads_array n bs p :
  p = (bytes <- from_cbor read_bytes ;; lift (reject_if (negb (len bytes =? Z.of_nat n)) InvalidHeaderField) ;; mret bytes) ->
  length bs = n -> Z.of_nat n <= usize_max -> reads p (enc_bytes bs) bs.
Proof.
  intros -> L B. assert (len bs = Z.of_nat n) as E by (unfold len; lia).
  eapply reads_bind_end; [apply reads_bytes; lia|]. rewrite E, Z.eqb_refl.
  eapply reads_bind_nil; [by apply reads_lift|]. apply reads_ret.
Qed.

Lemma reads_decode_digest bs : length bs = 32%nat -> reads decode_digest (enc_bytes bs) bs.
Proof. intros L. by apply (reads_array 32 bs). Qed.

Lemma reads_decode_signature bs : length bs = 64%nat -> reads decode_signature (enc_bytes bs) bs.
Proof. intros L. by apply (reads_array 64 bs). Qed.

Lemma accepts_decode_digest : accepts decode_digest (fun bs c => length bs = 32%nat /\ c = enc_bytes bs).
Proof.
  intros s l bs s' V Eq. unfold decode_digest, from_cbor, read_bytes, V3_DIGEST_LEN in Eq. inv_bind. b2p.
  all_accepts. chunk. split; [unfold len in *; lia|done].
Qed.

Lemma accepts_decode_signature : accepts decode_signature (fun bs c => length bs = 64%nat /\ c = enc_bytes bs).
Proof.
  intros s l bs s' V Eq. unfold decode_signature, from_cbor, read_bytes, V3_SIGNATURE_LEN in Eq. inv_bind. b2p.
  all_accepts. chunk. split; [unfold len in *; lia|done].
Qed.

Lemma bytes_to_string_Ok bs s : bytes_to_string bs = Ok s <-> s = bs /\ utf8_valid bs = true.
Proof. unfold bytes_to_string. destruct (utf8_valid bs); split; intros; inv_bind; naive_solver. Qed.

(** Identifiers stored as byte strings. *)
Lemma reads_byte_id kind s :
  wf_id s ->
  reads (bytes <- from_cbor read_bytes ;; string <- lift (bytes_to_string bytes) ;;
         lift (from_type (validate_non_empty kind string))) (enc_bytes s) s.
Proof.
  intros [N L]. eapply reads_bind_end; [by apply reads_bytes|].
  eapply reads_bind_nil; [apply reads_lift; apply bytes_to_string_Ok; split; [done|by apply is_name_utf8]|].
  apply reads_lift. unfold from_type. by rewrite validate_non_empty_ok.
Qed.

Lemma accepts_byte_id kind :
  accepts (bytes <- from_cbor read_bytes ;; string <- lift (bytes_to_string bytes) ;;
           lift (from_type (validate_non_empty kind string))) (fun s c => wf_id s /\ c = enc_bytes s).
Proof.
  intros s l t s' V Eq. unfold from_cbor, read_bytes, from_type in Eq. inv_bind.
  fwd bytes_to_string_Ok. fwd validate_non_empty_inv. destruct_and?. subst. all_accepts. chunk.
  split; [|done]. split; [by apply wf_name_intro|done].
Qed.

Lemma reads_object_id s : wf_id s -> reads decode_object_id (enc_text s) s.
Proof.
  intros W. eapply reads_bind_end; [by apply reads_id_text|]. apply reads_lift.
  apply (from_type_name s eq_refl). apply W.
Qed.

Lemma accepts_object_id : accepts decode_object_id (fun s c => wf_id s /\ c = enc_text s).
Proof.
  intros s l t s' V Eq. unfold decode_object_id, from_cbor, Cbor.read_text, from_type in Eq. inv_bind.
  fwd validate_non_empty_inv. destruct_and?. subst. all_accepts. chunk.
  split; [|done]. split; [by apply wf_name_intro|done].
Qed.

Lemma reads_decode_version_id o :
  match o with Some v => wf_id v | None => True end -> reads decode_version_id (enc_or_null enc_bytes o) o.
Proof.
  intros W. apply reads_null_or. intros v ->. split; [apply starts_bytes; apply W|]. by apply reads_byte_id.
Qed.

Lemma accepts_decode_version_id :
  accepts decode_version_id (fun o c =>
    match o with Some v => wf_id v | None => True end /\ c = enc_or_null enc_bytes o).
Proof.
  eapply accepts_weaken; [apply accepts_null_or, accepts_byte_id|].
  intros [v|] c; simpl; [done|by intros ->].
Qed.

Lemma accepts_key_id : accepts decode_key_id (fun s c => wf_id s /\ c = enc_bytes s).
Proof. apply accepts_byte_id. Qed.

Lemma accepts_wire_text : accepts (from_cbor Cbor.read_text) (fun s c => wf_string s /\ c = enc_text s).
Proof.
  eapply accepts_weaken; [apply accepts_mmap_err, accepts_text_bounded|]. intros s c (L & U & ->). done.
Qed.
#[local] Hint Resolve accepts_decode_digest accepts_decode_signature accepts_object_id
  accepts_decode_version_id accepts_key_id accepts_wire_text : codec.

(** ** References *)

Lemma self_ref_refuses : refuses_above self_ref_entry 2.
Proof. solve_refuses. Qed.
Lemma parent_ref_refuses : refuses_above parent_ref_entry 4.
Proof. solve_refuses. Qed.
Lemma algorithms_refuses : refuses_above algorithms_entry 5.
Proof. solve_refuses. Qed.
Lemma keyring_ref_refuses : refuses_above keyring_ref_entry 2.
Proof. solve_refuses. Qed.
Lemma section_refuses : refuses_above section_entry 5.
Proof. solve_refuses. Qed.
Lemma header_refuses : refuses_above header_entry 10.
Proof. solve_refuses. Qed.

Lemma reads_entry_last {F} (entry : Z -> F -> R F) last key st st1 e :
  last < key -> is_u64 key -> reads (entry key st) e st1 ->
  reads (map_entries 1 entry last st) (enc_u64 key ++ e) st1.
Proof.
  intros L U E. rewrite <- (app_nil_r e). eapply reads_entry; [done..|]. apply reads_entries_end.
Qed.

(** One entry of a map: the value is read by [tac] and stored. *)
Ltac entry_with tac :=
  first [eapply reads_entry_last | eapply reads_entry]; [lia|unfold is_u64; lia|tac|..].
Ltac value_by tac := eapply reads_bind_end; [tac|apply reads_ret].

Lemma reads_self_ref r : wf_self_ref r -> reads decode_self_ref (enc_self_ref r) r.
Proof.
  intros [U W]. unfold decode_self_ref, enc_self_ref. eapply reads_bind_end.
  { apply (reads_map _ 2); [lia|].
    entry_with ltac:(value_by ltac:(by apply reads_wire_u64)).
    entry_with ltac:(value_by ltac:(by apply reads_object_id)). }
  destruct r. repeat (eapply reads_bind_nil; [by apply reads_lift|]). apply reads_ret.
Qed.

Lemma reads_parent_ref p : wf_parent_ref p -> reads decode_parent_ref (enc_parent_ref p) p.
Proof.
  intros (U & W & L & Wv). unfold decode_parent_ref, enc_parent_ref. eapply reads_bind_end.
  { apply (reads_map _ 4); [lia|].
    entry_with ltac:(value_by ltac:(by apply reads_wire_u64)).
    entry_with ltac:(value_by ltac:(by apply reads_object_id)).
    entry_with ltac:(value_by ltac:(by apply reads_decode_digest)).
    entry_with ltac:(value_by ltac:(by apply reads_decode_version_id)). }
  destruct p. repeat (eapply reads_bind_nil; [by apply reads_lift|]). apply reads_ret.
Qed.

Lemma reads_algorithms a : wf_algorithms a -> reads decode_algorithms (enc_algorithms a) a.
Proof.
  intros (W1 & W2 & W3 & W4 & W5). unfold decode_algorithms, enc_algorithms. eapply reads_bind_end.
  { apply (reads_map _ 5); [lia|]. do 5 entry_with ltac:(value_by ltac:(by apply reads_text)). }
  destruct a. repeat (eapply reads_bind_nil; [by apply reads_lift|]). apply reads_ret.
Qed.

Lemma reads_keyring_ref r : wf_keyring_ref r -> reads decode_keyring_ref (enc_keyring_ref r) r.
Proof.
  intros [W L]. unfold decode_keyring_ref, enc_keyring_ref. eapply reads_bind_end.
  { apply (reads_map _ 2); [lia|].
    entry_with ltac:(value_by ltac:(by apply reads_object_id)).
    entry_with ltac:(value_by ltac:(by apply reads_decode_digest)). }
  destruct r. repeat (eapply reads_bind_nil; [by apply reads_lift|]). apply reads_ret.
Qed.

Lemma section_wire t : wf_section_type t -> is_u16 (section_to_wire t) /\ section_from_wire (section_to_wire t) = t.
Proof.
  unfold is_u16. destruct t; simpl; try (split; [lia|done]). unfold section_from_wire, is_u16.
  intros [U N]. split; [lia|]. repeat (case_if; b2p; [lia|]). done.
Qed.

Lemma section_from_wire_inv v : is_u64 v -> v <= u16_max ->
  wf_section_type (section_from_wire v) /\ section_to_wire (section_from_wire v) = v.
Proof.
  unfold section_from_wire, is_u64. intros U L. repeat (case_if; b2p; [subst; done|]).
  simpl. unfold is_u16. split; [lia|done].
Qed.

Lemma reads_section s : wf_section s -> reads decode_section (enc_section s) s.
Proof.
  intros (Wt & Uo & Ul & Wf & Ld). destruct (section_wire _ Wt) as [Ut Et]. unfold is_u16 in Ut.
  assert (forall v m, is_u64 v -> v <= m ->
    forall F (k : Z -> R F) e a, reads (k v) e a ->
    reads (v <- from_cbor read_u64 ;; lift (reject_if (v >? m) InvalidHeaderField) ;; k v) (enc_u64 v ++ e) a) as B.
  { intros v m U L F k e a K. eapply reads_bind; [by apply reads_wire_u64|].
    eapply reads_bind_nil; [apply reads_lift; unfold reject_if; case_if; b2p; [lia|done]|done]. }
  unfold decode_section, enc_section. eapply reads_bind_end.
  { apply (reads_map _ 5); [lia|].
    entry_with ltac:(rewrite <- (app_nil_r (enc_u64 (section_to_wire _))); apply B;
                     [unfold is_u64; lia|lia|rewrite Et; apply reads_ret]).
    do 2 entry_with ltac:(value_by ltac:(by apply reads_wire_u64)).
    entry_with ltac:(rewrite <- (app_nil_r (enc_u64 (section_flags _))); apply B;
                     [unfold is_u64; lia|lia|apply reads_ret]).
    entry_with ltac:(value_by ltac:(by apply reads_decode_digest)). }
  destruct s. repeat (eapply reads_bind_nil; [by apply reads_lift|]). apply reads_ret.
Qed.

Lemma reads_sections_loop l :
  Forall wf_section l -> reads (decode_sections_loop (length l)) (flat_map enc_section l) l.
Proof.
  induction 1 as [|s l W F IH]; [apply reads_ret|]. cbn [length decode_sections_loop flat_map].
  eapply reads_bind; [by apply reads_section|]. eapply reads_bind_end; [exact IH|]. apply reads_ret.
Qed.

Lemma reads_sections l :
  Forall wf_section l -> len l <= V3_MAX_COMMIT_SECTIONS ->
  reads decode_sections (enc_array_len (len l) ++ flat_map enc_section l) l.
Proof.
  intros F L. unfold V3_MAX_COMMIT_SECTIONS in L. pose proof (len_nonneg l). unfold decode_sections, from_cbor.
  eapply reads_bind; [apply reads_mmap_err, reads_array_len; unfold is_u64; lia|].
  eapply reads_bind_nil; [apply reads_lift; unfold reject_if, V3_MAX_COMMIT_SECTIONS; case_if; b2p; [lia|done]|].
  unfold len. rewrite Nat2Z.id. by apply reads_sections_loop.
Qed.

Lemma kind_wire k : is_u64 (kind_to_wire k) /\ kind_from_wire (kind_to_wire k) = Ok k.
Proof. unfold is_u64. destruct k; simpl; split; try done; lia. Qed.

Lemma kind_from_wire_inv v k : kind_from_wire v = Ok k -> v = kind_to_wire k.
Proof. unfold kind_from_wire. repeat case_if; b2p; intros; by inv_bind. Qed.

Lemma reads_header_fields h :
  wf_header h -> len (section_index h) <= V3_MAX_COMMIT_SECTIONS ->
  reads (read_map 10 header_entry (MkHeaderFields None None None None None None None None None None))
    (enc_header h (header_signature h))
    (MkHeaderFields (Some (self_ref h)) (Some (parent h)) (Some (publish_time_ms h)) (Some (kind h))
       (Some (algorithms h)) (Some (keyring_envelope_ref h)) (Some (section_index h))
       (Some (body_digest h)) (Some (header_signature h)) (Some (signing_key_id h))).
Proof.
  intros (Ws & Wp & It & Wa & Wk & Fs & Lb & Lg & Wi) L. destruct (kind_wire (kind h)) as [Uk Ek].
  unfold enc_header. apply (reads_map _ 10); [lia|].
  entry_with ltac:(value_by ltac:(by apply reads_self_ref)).
  entry_with ltac:(value_by ltac:(apply reads_null_or; intros p Ep; rewrite Ep in Wp;
    split; [apply starts_map_len; unfold is_u64; lia|by apply reads_parent_ref])).
  entry_with ltac:(value_by ltac:(by apply reads_mmap_err, reads_i64)).
  entry_with ltac:(eapply reads_bind_end; [by apply reads_wire_u64|];
    eapply reads_bind_nil; [by apply reads_lift|apply reads_ret]).
  entry_with ltac:(value_by ltac:(by apply reads_algorithms)).
  entry_with ltac:(value_by ltac:(by apply reads_keyring_ref)).
  entry_with ltac:(value_by ltac:(by apply reads_sections)).
  entry_with ltac:(value_by ltac:(by apply reads_decode_digest)).
  entry_with ltac:(value_by ltac:(by apply reads_decode_signature)).
  entry_with ltac:(value_by ltac:(by apply reads_byte_id)).
Qed.

(** ** Nothing else is accepted *)

Lemma accepts_self_ref : accepts decode_self_ref (fun r c => wf_self_ref r /\ c = enc_self_ref r).
Proof.
  intros s l r s' V Eq. unfold decode_self_ref, from_cbor in Eq. inv_bind. map_steps self_ref_refuses.
  unfold from_cbor in *. inv_bind. all_accepts. by chunk.
Qed.

Lemma accepts_parent_ref : accepts decode_parent_ref (fun p c => wf_parent_ref p /\ c = enc_parent_ref p).
Proof.
  intros s l r s' V Eq. unfold decode_parent_ref, from_cbor in Eq. inv_bind. map_steps parent_ref_refuses.
  unfold from_cbor in *. inv_bind. all_accepts. by chunk.
Qed.

Lemma accepts_algorithms : accepts decode_algorithms (fun a c => wf_algorithms a /\ c = enc_algorithms a).
Proof.
  intros s l r s' V Eq. unfold decode_algorithms in Eq. inv_bind. map_steps algorithms_refuses.
  all_accepts. by chunk.
Qed.

Lemma accepts_keyring_ref : accepts decode_keyring_ref (fun r c => wf_keyring_ref r /\ c = enc_keyring_ref r).
Proof.
  intros s l r s' V Eq. unfold decode_keyring_ref, from_cbor in Eq. inv_bind. map_steps keyring_ref_refuses.
  all_accepts. by chunk.
Qed.

Lemma accepts_section : accepts decode_section (fun s c => wf_section s /\ c = enc_section s).
Proof.
  intros s l r s' V Eq. unfold decode_section, from_cbor in Eq. inv_bind. map_steps section_refuses.
  unfold from_cbor in *. inv_bind. b2p. all_accepts. chunk.
  match goal with U : is_u64 ?v, B : ?v <= u16_max |- context [section_from_wire ?v] =>
    destruct (section_from_wire_inv v U B) as [Wt Et] end.
  unfold wf_section, enc_section. simpl. rewrite Et. unfold is_u64 in *. split_and!; try done; lia.
Qed.
#[local] Hint Resolve accepts_self_ref accepts_parent_ref accepts_algorithms accepts_keyring_ref accepts_section : codec.

Lemma accepts_sections_loop n :
  accepts (decode_sections_loop n) (fun l c => length l = n /\ Forall wf_section l /\ c = flat_map enc_section l).
Proof.
  induction n as [|n IH].
  - eapply accepts_weaken; [apply accepts_ret|]. intros l c [-> ->]. by split_and!.
  - intros s l r s' V Eq. cbn [decode_sections_loop] in Eq. inv_bind. all_accepts. chunk.
    simpl. split_and!; [done|by constructor|done].
Qed.
#[local] Hint Resolve accepts_sections_loop : codec.

Lemma accepts_sections :
  accepts decode_sections (fun l c => Forall wf_section l /\ len l <= V3_MAX_COMMIT_SECTIONS
    /\ c = enc_array_len (len l) ++ flat_map enc_section l).
Proof.
  intros s l r s' V Eq. unfold decode_sections, from_cbor in Eq. inv_bind. b2p. all_accepts. chunk.
  unfold is_u64 in *.
  assert (len r = z) as <- by (unfold len; lia). split_and!; [done|lia|done].
Qed.
#[local] Hint Resolve accepts_sections : codec.

Definition header_of (fields : HeaderFields) (h : V3CommitHeader) : Prop :=
  fields = MkHeaderFields (Some (self_ref h)) (Some (parent h)) (Some (publish_time_ms h)) (Some (kind h))
             (Some (algorithms h)) (Some (keyring_envelope_ref h)) (Some (section_index h))
             (Some (body_digest h)) (Some (header_signature h)) (Some (signing_key_id h)).

Lemma accepts_header_fields :
  accepts (read_map 10 header_entry (MkHeaderFields None None None None None None None None None None))
    (fun fields c => exists h, header_of fields h /\ wf_header h
       /\ len (section_index h) <= V3_MAX_COMMIT_SECTIONS /\ c = enc_header h (header_signature h)).
Proof.
  intros s l fields s' V Eq. map_steps header_refuses. unfold from_cbor in *. inv_bind.
  fwd kind_from_wire_inv. subst. all_accepts. chunk.
  match goal with |- exists h, header_of (MkHeaderFields (Some ?a) (Some ?b) (Some ?c) (Some ?d) (Some ?e)
      (Some ?f) (Some ?g) (Some ?i) (Some ?j) (Some ?k)) h /\ _ =>
    exists {| self_ref := a; parent := b; publish_time_ms := c; kind := d; algorithms := e;
              keyring_envelope_ref := f; section_index := g; body_digest := i; header_signature := j;
              signing_key_id := k |} end.
  assert (match o with Some p => wf_parent_ref p | None => True end /\ c3 = enc_or_null enc_parent_ref o)
    as [Wp ->] by (destruct o; naive_solver).
  split; [done|]. split; [by unfold wf_header|]. split; [done|]. unfold enc_header. cbn. by rewrite <- ?app_assoc.
Qed.

(** ** The codec *)

Lemma decode_header_iff bs h :
  len bs <= usize_max ->
  decode_header_cbor bs = Ok h <->
  wf_header h /\ len (section_index h) <= V3_MAX_COMMIT_SECTIONS /\ bs = encode_header_cbor h Actual.
Proof.
  intros L. rewrite encode_header_eq. cbn [signature_of]. split.
  - intros D. unfold decode_header_cbor in D. inv_bind. b2p.
    match goal with E : read_map _ _ _ _ = Ok (?f, ?r) |- _ =>
      destruct (accepts_all _ _ _ _ _ accepts_header_fields L E) as (h' & Hf & W & Ls & ->); [done|] end.
    unfold header_of in Hf. subst. cbn in *. inv_bind. destruct h'. cbn in *. by split_and!.
  - intros (W & Ls & ->). unfold decode_header_cbor.
    destruct (reads_all _ _ _ (reads_header_fields h W Ls)) as (r & -> & F); [done|].
    cbn [rbind]. rewrite F. cbn. by destruct h.
Qed.
