(* ===== verification/CommitObject.v ===== *)
(** * Commit objects are exact

    The fixed prefix, the tiling of the section region, and the theorems about
    whole commit objects: what parsing accepts is what encoding produces for an
    authentic header, signed commits parse, and a header determines its body up
    to collisions of the hash. *)

From Stdlib Require Import Strings.String.
From S2P Require Import Prelude Ord Text Types Cbor External Keyring V3Wire ObjectKeys Commit CommitCodec.
Open Scope Z_scope.
Import Keys V3.

(** ** The fixed prefix *)

Definition fixed_prefix (n : Z) : list byte :=
  V3_COMMIT_MAGIC ++ to_be_bytes 4 V3_FORMAT_VERSION ++ to_be_bytes 4 V3_MIN_READER_VERSION
  ++ to_be_bytes 4 n ++ List.repeat x00 20.

Lemma length_fixed_prefix n : length (fixed_prefix n) = 40%nat.
Proof. done. Qed.

Lemma slice_split a n (l : list byte) :
  0 <= a -> 0 <= n -> skipn (Z.to_nat a) l = slice a n l ++ skipn (Z.to_nat (a + n)) l.
Proof.
  intros A N. unfold slice. rewrite Z2Nat.inj_add, <- drop_drop by done. by rewrite take_drop.
Qed.

Lemma slice_length a n (l : list byte) : 0 <= a -> 0 <= n -> a + n <= len l -> length (slice a n l) = Z.to_nat n.
Proof. intros. unfold slice, len in *. rewrite length_take, length_drop. lia. Qed.

Lemma nonzero_false (l : list byte) : nonzero l = false -> l = List.repeat x00 (length l).
Proof.
  unfold nonzero. induction l as [|b l IH]; simpl; [done|]. intros N. b2p. f_equal; [|by apply IH].
  by apply u8_inj.
Qed.

Lemma fixed_prefix_split (input : list byte) :
  40 <= len input ->
  input = slice 0 8 input ++ slice 8 4 input ++ slice 12 4 input ++ slice 16 4 input
          ++ slice 20 8 input ++ slice 28 12 input ++ skipn 40 input.
Proof.
  intros L. rewrite <- (slice_split 28 12), <- (slice_split 20 8), <- (slice_split 16 4), <- (slice_split 12 4),
    <- (slice_split 8 4), <- (slice_split 0 8) by lia. done.
Qed.

Lemma parse_fixed_header_iff input f :
  parse_fixed_header input = Ok f <->
  exists n rest, 0 <= n <= MAX_HEADER_CBOR_LEN /\ input = fixed_prefix n ++ rest
    /\ f = {| fixed_header_len := n; header_span_len := V3_HEADER_META_LEN + n |}.
Proof.
  split.
  - unfold parse_fixed_header. intros P. inv_bind. b2p. unfold V3_HEADER_META_LEN in *.
    change (len V3_COMMIT_MAGIC) with 8 in *.
    exists (from_be_bytes (slice 16 4 input)), (skipn 40 input).
    split; [pose proof (from_be_bytes_range (slice 16 4 input)); lia|]. split; [|done].
    assert (forall a, 0 <= a -> a + 4 <= len input ->
      slice a 4 input = to_be_bytes 4 (from_be_bytes (slice a 4 input))) as W.
    { intros a A Le. symmetry. apply to_from_be_bytes'. by apply slice_length. }
    pose proof (W 8 ltac:(lia) ltac:(lia)) as W8. pose proof (W 12 ltac:(lia) ltac:(lia)) as W12.
    pose proof (W 16 ltac:(lia) ltac:(lia)) as W16. set (n := from_be_bytes (slice 16 4 input)) in *.
    repeat match goal with Z : nonzero _ = false |- _ => apply nonzero_false in Z; rewrite slice_length in Z by lia end.
    rewrite (fixed_prefix_split input) at 1 by done. unfold fixed_prefix.
    change (List.repeat x00 20) with (List.repeat x00 (Z.to_nat 8) ++ List.repeat x00 (Z.to_nat 12)).
    rewrite <- !app_assoc. congruence.
  - intros (n & rest & N & -> & ->). unfold MAX_HEADER_CBOR_LEN, V3_MAX_HEADER_SIZE, V3_HEADER_META_LEN in N.
    unfold parse_fixed_header. rewrite len_app. change (len (fixed_prefix n)) with 40.
    pose proof (len_nonneg rest).
    assert ((40 + len rest <? V3_HEADER_META_LEN) = false) as -> by (unfold V3_HEADER_META_LEN; lia).
    replace (slice 16 4 (fixed_prefix n ++ rest)) with (to_be_bytes 4 n) by done.
    rewrite from_to_be_bytes by (simpl; lia). cbn -[Z.gtb MAX_HEADER_CBOR_LEN Z.add].
    unfold reject_if. destruct (n >? MAX_HEADER_CBOR_LEN) eqn:G; [|done]. b2p.
    unfold MAX_HEADER_CBOR_LEN, V3_MAX_HEADER_SIZE, V3_HEADER_META_LEN in G. lia.
Qed.

Lemma header_span_Ok h m span :
  header_span h m = Ok span <->
  len (encode_header_cbor h m) <= MAX_HEADER_CBOR_LEN
  /\ span = fixed_prefix (len (encode_header_cbor h m)) ++ encode_header_cbor h m.
Proof.
  unfold header_span, fixed_prefix, reject_if. rewrite <- !app_assoc.
  destruct (_ >? _) eqn:G; b2p; cbn [rbind]; split; intros; inv_bind; destruct_and?; subst; try done; lia.
Qed.

(** ** Sections tile the region *)

(** Each section starts where the one before it ended, and the last ends at
    [n]. *)
Fixpoint tiles (start : Z) (sections : list V3SectionDescriptor) (n : Z) : Prop :=
  match sections with
  | [] => start = n
  | s :: sections' => section_offset s = start /\ tiles (start + section_length s) sections' n
  end.

(** No reserved flag is set, and a section that must be understood is. *)
Definition flags_ok (s : V3SectionDescriptor) : Prop :=
  section_flags s <= 3 /\ (Z.odd (section_flags s) = true -> is_supported (section_type s) = true).

Lemma flag_bits f :
  0 <= f <= u8_max ->
  (Z.land f (Z.lxor (Z.lor V3_SECTION_FLAG_MUST_UNDERSTAND V3_SECTION_FLAG_COMPRESSED) u8_max) =? 0) = (f <=? 3)
  /\ (Z.land f V3_SECTION_FLAG_MUST_UNDERSTAND =? 0) = negb (Z.odd f).
Proof.
  intros F.
  assert (forallb (fun f => Bool.eqb
    (Z.land f (Z.lxor (Z.lor V3_SECTION_FLAG_MUST_UNDERSTAND V3_SECTION_FLAG_COMPRESSED) u8_max) =? 0) (f <=? 3)
    && Bool.eqb (Z.land f V3_SECTION_FLAG_MUST_UNDERSTAND =? 0) (negb (Z.odd f))) (seqZ 0 256) = true) as A
    by (vm_compute; done).
  rewrite forallb_forall in A. specialize (A f). rewrite <- list_elem_of_In, elem_of_seqZ in A.
  specialize (A ltac:(lia)). b2p. by split; apply eqb_prop.
Qed.

Lemma section_layout_loop_Ok n start sections next :
  Forall wf_section sections -> 0 <= start -> n <= u64_max ->
  section_layout_loop n start sections = Ok next /\ next = n <->
  next = n /\ Forall flags_ok sections /\ tiles start sections n.
Proof.
  intros W S N. revert start S. induction W as [|s sections Ws W IH]; intros start S; cbn [section_layout_loop tiles].
  { split; [intros [[= ->] ->]; by repeat constructor|intros (-> & _ & ->); done]. }
  destruct Ws as (_ & Uo & Ul & Ff & _). unfold is_u64 in *. destruct (flag_bits _ Ff) as [-> ->].
  rewrite Forall_cons_iff, negb_involutive. unfold flags_ok at 1, reject_if.
  assert (forall a sections, Forall wf_section sections -> tiles a sections n -> a <= n) as Le.
  { intros a l F. revert a. induction F as [|x l X F IHl]; simpl; [lia|]. intros a [_ T].
    destruct X as (_ & _ & Ux & _). unfold is_u64 in Ux. specialize (IHl _ T). lia. }
  destruct (Z.leb_spec (section_flags s) 3); cbn [negb rbind]; [|split; [by intros []|lia]].
  destruct (Z.odd (section_flags s)), (is_supported (section_type s)); cbn [andb negb rbind];
    try (split; [by intros []|intros (_ & ((_ & F) & _) & _); specialize (F eq_refl); done]);
    (destruct (checked_add _ _) as [e|] eqn:C; cbn [ok_or rbind];
     [apply checked_add_Some in C as [-> C]|unfold checked_add in C; case_if_in C; [done|b2p];
      split; [by intros []|intros (_ & _ & Eo & T); apply Le in T; [lia|done]]]);
    (destruct (Z.eqb_spec (section_offset s) start) as [->|]; cbn [negb orb rbind];
     [|split; [by intros []|intros (_ & _ & ? & _); lia]]);
    (destruct (_ >? n) eqn:G; b2p; cbn [rbind];
     [split; [by intros []|intros (_ & _ & _ & T); apply Le in T; [lia|done]]|]);
    rewrite IH by lia; naive_solver.
Qed.

Lemma validate_section_layout_iff sections n :
  Forall wf_section sections -> n <= u64_max ->
  validate_section_layout sections n = Ok tt <->
  len sections <= V3_MAX_COMMIT_SECTIONS /\ Forall flags_ok sections /\ tiles 0 sections n.
Proof.
  intros W N. unfold validate_section_layout, reject_if. destruct (len sections >? _) eqn:G; b2p; cbn [rbind].
  { split; [done|lia]. }
  destruct (section_layout_loop n 0 sections) as [next|] eqn:L; cbn [rbind].
  - pose proof (section_layout_loop_Ok n 0 sections next W ltac:(lia) N) as I. rewrite L in I.
    destruct (Z.eqb_spec next n); cbn [negb]; [naive_solver|]. split; [done|]. intros (_ & F & T).
    pose proof (section_layout_loop_Ok n 0 sections n W ltac:(lia) N) as I'. rewrite L in I'.
    destruct I' as [_ I']. by destruct (I' (conj eq_refl (conj F T))) as [[= ->] _].
  - split; [done|]. intros (_ & F & T). pose proof (section_layout_loop_Ok n 0 sections n W ltac:(lia) N) as I.
    rewrite L in I. destruct I as [_ I]. by destruct (I (conj eq_refl (conj F T))).
Qed.

Section Objects.
Context `{Primitives}.

(** The loop hashes the region from its start, section by section. *)
Lemma body_digest_loop_Ok region start sections d :
  Forall wf_section sections -> 0 <= start -> tiles start sections (len region) ->
  body_digest_loop region (firstn (Z.to_nat start) region) sections = Ok d ->
  d = sha256 region
  /\ Forall (fun s => sha256 (slice (section_offset s) (section_length s) region) = section_digest s) sections.
Proof.
  intros W. revert start. induction W as [|s sections Ws W IH]; intros start S T D;
    cbn [body_digest_loop tiles] in *.
  - subst start. inv_bind. unfold len. rewrite Nat2Z.id, firstn_all. done.
  - destruct T as [Eo T]. destruct Ws as (_ & _ & Ul & _). unfold is_u64 in Ul. inv_bind. b2p.
    assert (firstn (Z.to_nat start) region ++ slice (section_offset s) (section_length s) region
            = firstn (Z.to_nat (start + section_length s)) region) as E.
    { rewrite Eo. unfold slice. rewrite Z2Nat.inj_add by lia. by rewrite take_take_drop. }
    rewrite E in D. apply IH in D as [-> F]; [|lia|done]. split; [done|]. by constructor.
Qed.

Lemma body_digest_is_hash sections region d :
  Forall wf_section sections -> len region <= u64_max ->
  body_digest_for_v3_sections sections region = Ok d -> d = sha256 region.
Proof.
  intros W L D. unfold body_digest_for_v3_sections in D. inv_bind.
  match goal with V : validate_section_layout _ _ = Ok _ |- _ =>
    apply validate_section_layout_iff in V as (_ & _ & T); [|done..] end.
  by apply (body_digest_loop_Ok region 0 sections) in D as [-> _].
Qed.

(** ** Authentic headers *)

(** What parsing requires of a header read under the key [id]. *)
Definition authentic (keyring : KeyRing) (id : text) (h : V3CommitHeader) : Prop :=
  wf_header h /\ algorithms h = V3Algorithms_v03 /\ self_commit_key (self_ref h) = id
  /\ (exists key, V3CommitKey_parse id = Ok key /\ sequence key = self_sequence (self_ref h))
  /\ exists span, header_span h Zero = Ok span
     /\ verify_checkpoint_payload keyring (signing_key_id h) span (header_signature h) = Ok tt.

Definition parsed_of (h : V3CommitHeader) : V3ParsedCommitHeader := {|
  parsed_header_ := h;
  header_len := len (encode_header_cbor h Actual);
  sections_start := V3_HEADER_META_LEN + len (encode_header_cbor h Actual)
|}.

Lemma parse_header_iff id input keyring p :
  parse_v3_commit_header id input keyring = Ok p <->
  exists h rest, authentic keyring id h /\ len (section_index h) <= V3_MAX_COMMIT_SECTIONS
    /\ (exists span, header_span h Actual = Ok span /\ input = span ++ rest) /\ p = parsed_of h.
Proof.
  unfold parse_v3_commit_header, authentic. split.
  - intros P. inv_bind. b2p.
    match goal with F : parse_fixed_header _ = Ok _ |- _ =>
      apply parse_fixed_header_iff in F as (n & rest & N & -> & ->) end.
    cbn [fixed_header_len header_span_len] in *. unfold V3_HEADER_META_LEN in *.
    rewrite len_app in *. change (len (fixed_prefix n)) with 40 in *.
    assert (slice 40 n (fixed_prefix n ++ rest) = firstn (Z.to_nat n) rest) as E by done. rewrite E in *.
    assert (len (firstn (Z.to_nat n) rest) = n) as Ln by (unfold len in *; rewrite length_take; lia).
    match goal with D : decode_header_cbor _ = Ok ?x |- _ =>
      exists x, (skipn (Z.to_nat n) rest); apply decode_header_iff in D as (W & Ls & _);
      [|rewrite Ln; unfold MAX_HEADER_CBOR_LEN, V3_MAX_HEADER_SIZE, V3_HEADER_META_LEN in N; lia] end.
    unfold parsed_of. match goal with C : encode_header_cbor _ _ = _ |- _ => rewrite C, Ln end.
    split_and!; try done; [by subst; eauto|eauto|].
    exists (fixed_prefix n ++ firstn (Z.to_nat n) rest). rewrite header_span_Ok.
    match goal with C : encode_header_cbor _ _ = _ |- _ => rewrite C, Ln end.
    rewrite <- app_assoc, take_drop. split; [split; [lia|done]|done].
  - intros (h & rest & (W & Ea & Ei & (key & Pk & Es) & span & Hz & Vz) & Ls & (sp & Ha & ->) & ->).
    apply header_span_Ok in Ha as [Lc ->]. pose proof (len_nonneg (encode_header_cbor h Actual)) as Ln.
    set (c := encode_header_cbor h Actual) in *.
    rewrite <- app_assoc. rewrite (proj2 (parse_fixed_header_iff _ _)) by eauto 10. cbn [rbind].
    cbn [fixed_header_len header_span_len]. rewrite !len_app. change (len (fixed_prefix _)) with 40.
    unfold V3_HEADER_META_LEN at 1. pose proof (len_nonneg rest).
    assert ((40 + (len c + len rest) <? 40 + len c) = false) as -> by lia. cbn [rbind].
    replace (slice V3_HEADER_META_LEN (len c) (fixed_prefix (len c) ++ c ++ rest)) with c.
    2:{ change (c = firstn (Z.to_nat (len c)) (c ++ rest)). unfold len. by rewrite Nat2Z.id, take_app_length. }
    assert (len c <= usize_max) as Lu
      by (unfold MAX_HEADER_CBOR_LEN, V3_MAX_HEADER_SIZE, V3_HEADER_META_LEN in *; lia).
    rewrite (proj2 (decode_header_iff c h Lu)) by done. cbn [rbind]. fold c.
    rewrite !bool_decide_eq_true_2 by done. cbn [negb rbind reject_if]. rewrite Ei, Pk. cbn [rbind].
    rewrite Es, Z.eqb_refl. cbn [negb rbind reject_if]. rewrite Hz. cbn [rbind]. by rewrite Vz.
Qed.

Lemma encode_object_Ok h region bytes :
  encode_object h region = Ok bytes <->
  validate_commit_section_semantics h = Ok tt
  /\ body_digest_for_v3_sections (section_index h) region = Ok (body_digest h)
  /\ exists span, header_span h Actual = Ok span /\ bytes = span ++ region.
Proof.
  unfold encode_object. split.
  - intros E. inv_bind. b2p. subst. eauto 10.
  - intros (-> & -> & span & -> & ->). cbn [rbind]. by rewrite bool_decide_eq_true_2.
Qed.

Lemma section_count_bounded sections region d :
  body_digest_for_v3_sections sections region = Ok d -> len sections <= V3_MAX_COMMIT_SECTIONS.
Proof. unfold body_digest_for_v3_sections, validate_section_layout. intros D. inv_bind. b2p. lia. Qed.

Lemma parsed_of_start h span :
  header_span h Actual = Ok span -> sections_start (parsed_of h) = len span.
Proof. intros S. apply header_span_Ok in S as [_ ->]. rewrite len_app. done. Qed.

Lemma parse_object_iff id bytes keyring p :
  parse_v3_commit_object id bytes keyring = Ok p <->
  exists h region, authentic keyring id h /\ encode_object h region = Ok bytes
    /\ p = {| parsed_header := parsed_of h; version_id := None; body := bytes |}.
Proof.
  unfold parse_v3_commit_object. split.
  - intros P. inv_bind. b2p.
    match goal with Q : parse_v3_commit_header _ _ _ = Ok _ |- _ =>
      apply parse_header_iff in Q as (h & rest & A & _ & (span & S & ->) & ->) end.
    exists h, rest. split; [done|]. rewrite (parsed_of_start h span S) in *. unfold len in *.
    rewrite Nat2Z.id, drop_app_length in *. cbn [parsed_of parsed_header_] in *.
    split; [|done]. apply encode_object_Ok. subst. eauto.
  - intros (h & region & A & E & ->). apply encode_object_Ok in E as (V & D & span & S & ->).
    assert (parse_v3_commit_header id (span ++ region) keyring = Ok (parsed_of h)) as ->
      by (apply parse_header_iff; eauto 10 using section_count_bounded).
    cbn [rbind]. rewrite (parsed_of_start h span S). unfold len. rewrite Nat2Z.id, drop_app_length.
    rewrite length_app. destruct (_ <? _) eqn:L; b2p; [lia|]. cbn [parsed_of parsed_header_ rbind reject_if].
    rewrite D. cbn [rbind]. rewrite bool_decide_eq_true_2, V by done. done.
Qed.

Lemma body_is_hashed id bytes keyring p :
  len bytes <= u64_max -> parse_v3_commit_object id bytes keyring = Ok p ->
  exists span, header_span (parsed_header_ (parsed_header p)) Actual = Ok span
    /\ sections_start (parsed_header p) = len span
    /\ bytes = span ++ skipn (Z.to_nat (len span)) bytes
    /\ body_digest (parsed_header_ (parsed_header p)) = sha256 (skipn (Z.to_nat (len span)) bytes).
Proof.
  intros L P. apply parse_object_iff in P as (h & region & (W & _) & E & ->).
  apply encode_object_Ok in E as (_ & D & span & S & ->). exists span. cbn [parsed_header parsed_of parsed_header_].
  unfold len at 2 3. rewrite Nat2Z.id, drop_app_length. split_and!; try done; [by apply parsed_of_start|].
  rewrite len_app in L. pose proof (len_nonneg span).
  apply (body_digest_is_hash (section_index h) region); [apply W|lia|done].
Qed.

Lemma sign_with_keyring_Ok h keyring signed :
  sign_with_keyring h keyring = Ok signed <->
  exists key k span, primary_key keyring CheckpointSigning = Ok key
    /\ checkpoint_signing_key (secret key) = Ok k
    /\ header_span signed Zero = Ok span
    /\ len (ed25519_sign k span) = V3_SIGNATURE_LEN
    /\ signed = {| self_ref := self_ref h; parent := parent h; publish_time_ms := publish_time_ms h;
         kind := kind h; algorithms := algorithms h; keyring_envelope_ref := keyring_envelope_ref h;
         section_index := section_index h; body_digest := body_digest h;
         header_signature := ed25519_sign k span; signing_key_id := key_id (descriptor key) |}.
Proof.
  unfold sign_with_keyring, primary_key_id.
  destruct (primary_key keyring CheckpointSigning) as [key|] eqn:P; cbn [rbind map_err];
    [|split; [done|by intros (? & ? & ? & [=] & _)]].
  split.
  - intros S. inv_bind. b2p.
    match goal with Q : sign_checkpoint_payload _ _ = Ok _ |- _ =>
      apply sign_Ok in Q as (key0 & k & P0 & K & ->) end.
    rewrite P in P0. inv_bind. cbn [signature sig_key_id] in *. eauto 10.
  - intros (key0 & k & span & [= <-] & K & S & L & ->).
    assert (forall g g0, header_span (Build_V3CommitHeader (self_ref h) (parent h) (publish_time_ms h) (kind h)
      (algorithms h) (keyring_envelope_ref h) (section_index h) (body_digest h) g (key_id (descriptor key))) Zero
      = header_span (Build_V3CommitHeader (self_ref h) (parent h) (publish_time_ms h) (kind h)
      (algorithms h) (keyring_envelope_ref h) (section_index h) (body_digest h) g0 (key_id (descriptor key))) Zero)
      as Z by done.
    rewrite (Z _ (ed25519_sign k span)), S. cbn [rbind].
    rewrite (proj2 (sign_Ok keyring span {| sig_key_id := key_id (descriptor key);
      signature := ed25519_sign k span |})) by eauto. cbn [rbind map_err signature]. by rewrite L.
Qed.
End Objects.

(** ** Properties *)

(** The commit header codec is exact: on any buffer, the decoder returns a
    header if and only if the buffer is the encoding of that header and the
    header is well formed and within the section limit.  Reordered, repeated,
    missing or unknown keys, non-minimal integers and trailing bytes are
    refused, so a header has one encoding. *)
Theorem commit_header_codec_exact bs h :
  len bs <= usize_max ->
  decode_header_cbor bs = Ok h <->
  wf_header h /\ len (section_index h) <= V3_MAX_COMMIT_SECTIONS /\ bs = encode_header_cbor h Actual.
Proof. apply decode_header_iff. Qed.

(** A section index is accepted for a region exactly when it has at most the
    permitted number of sections, no reserved flag, no section that must be
    understood and is not, and the sections tile the region: the first starts
    at zero, each starts where the one before it ended, and the last ends at
    the end of the region.  No gap, overlap or overflow passes. *)
Theorem section_layout_exact sections n :
  Forall wf_section sections -> n <= u64_max ->
  validate_section_layout sections n = Ok tt <->
  len sections <= V3_MAX_COMMIT_SECTIONS /\ Forall flags_ok sections /\ tiles 0 sections n.
Proof. apply validate_section_layout_iff. Qed.

Section ObjectProperties.
Context `{Primitives}.

(** C8: Parsing and encoding a commit object are inverse: [parse_v3_commit_object]
    accepts bytes under an object id if and only if they are what
    [encode_object] writes for a header that is well formed, uses the 0.3
    algorithms, names that object id as its own key with the matching sequence
    and carries a signature of its span that the keyring verifies; the result
    is that header. *)
Theorem commit_object_exact id bytes keyring p :
  parse_v3_commit_object id bytes keyring = Ok p <->
  exists h region, authentic keyring id h /\ encode_object h region = Ok bytes
    /\ p = {| parsed_header := parsed_of h; version_id := None; body := bytes |}.
Proof. apply parse_object_iff. Qed.

(** C22: What a writer signs and encodes, a reader parses: a well formed draft
    under a generated commit key, signed with a keyring and encoded with its
    sections, parses under that key to the signed header, in every valid
    keyring that still holds the signing key enabled for lookup. *)
Theorem signed_commit_roundtrip `{!PrimitivesLaws} draft region bytes ring key signed s r ck ks' ring' key' :
  wf_header draft -> algorithms draft = V3Algorithms_v03 ->
  is_u64 s -> length r = 32%nat -> V3CommitKey_from_parts s r = Ok ck ->
  self_ref draft = {| self_sequence := s; self_commit_key := object_id ck |} ->
  primary_key ring CheckpointSigning = Ok key -> wf_id (key_id (descriptor key)) ->
  sign_with_keyring draft ring = Ok signed -> encode_object signed region = Ok bytes ->
  KeyRing_new ks' = Ok ring' -> In key' ks' -> key_id (descriptor key') = key_id (descriptor key) ->
  secret key' = secret key -> purpose (descriptor key') = CheckpointSigning ->
  is_enabled_for_lookup (status (descriptor key')) = true ->
  parse_v3_commit_object (object_id ck) bytes ring'
  = Ok {| parsed_header := parsed_of signed; version_id := None; body := bytes |}.
Proof.
  intros W A U R C E P Wk S En N I Ei Es Pu El. apply parse_object_iff.
  exists signed, region. split; [|done]. apply KeyRing_new_Ok in N as [-> V].
  apply sign_with_keyring_Ok in S as (key0 & k & span & P0 & K & Sp & L & ->).
  rewrite P in P0. injection P0 as <-.
  unfold authentic, wf_header in *. cbn [algorithms self_ref header_signature signing_key_id parent
    publish_time_ms keyring_envelope_ref section_index body_digest] in *.
  rewrite E in *. cbn [self_sequence self_commit_key] in *.
  destruct W as (W1 & W2 & W3 & W4 & W5 & W6 & W7 & _). unfold len, V3_SIGNATURE_LEN in L.
  split_and!; try done; [lia| |].
  - rewrite (from_parts_object_id _ _ _ C), parse_from_parts by done. eauto.
  - exists span. split; [done|]. rewrite <- Ei. apply verify_own; try done. by rewrite Es.
Qed.

(** C23: The signed header binds the body: two objects that parse to the same
    header are byte for byte equal, unless their section regions are two
    different inputs with one SHA-256 digest. *)
Theorem commit_body_binding id1 id2 bytes1 bytes2 ring1 ring2 p1 p2 :
  len bytes1 <= u64_max -> len bytes2 <= u64_max ->
  parse_v3_commit_object id1 bytes1 ring1 = Ok p1 -> parse_v3_commit_object id2 bytes2 ring2 = Ok p2 ->
  parsed_header p1 = parsed_header p2 ->
  let region1 := skipn (Z.to_nat (sections_start (parsed_header p1))) bytes1 in
  let region2 := skipn (Z.to_nat (sections_start (parsed_header p2))) bytes2 in
  bytes1 = bytes2 \/ (region1 <> region2 /\ sha256 region1 = sha256 region2).
Proof.
  intros L1 L2 P1 P2 E. apply body_is_hashed in P1 as (span1 & S1 & T1 & E1 & D1); [|done].
  apply body_is_hashed in P2 as (span2 & S2 & T2 & E2 & D2); [|done].
  intros region1 region2. rewrite <- T1 in E1, D1. rewrite <- T2 in E2, D2. fold region1 in E1, D1. fold region2 in E2, D2.
  rewrite E, S2 in S1. injection S1 as ->. rewrite E in D1.
  destruct (decide (region1 = region2)) as [Er|Ne]; [left; congruence|right; split; congruence].
Qed.
End ObjectProperties.

(** ** A sample commit *)

Module Sample.
Import Reference.

Definition random_id : list byte := List.repeat x2a 32.
Definition commit_id : text := COMMIT_PREFIX ++ format_020 7 ++ x2f :: b64_encode random_id.
Definition region : list byte := bytes_of_string "index root and recovery".

Definition section (t : V3SectionType) (offset length : Z) : V3SectionDescriptor := {|
  section_type := t; section_offset := offset; section_length := length; section_flags := 1;
  section_digest := sha256 (slice offset length region)
|}.

Definition sections : list V3SectionDescriptor := [section IndexRoot 0 10; section Recovery 10 13].

Definition draft : V3CommitHeader := {|
  self_ref := {| self_sequence := 7; self_commit_key := commit_id |};
  parent := Some {| parent_sequence := 6; parent_commit_key := bytes_of_string "commits/v03/parent";
                    parent_body_digest := List.repeat x11 32; parent_version_id := None |};
  publish_time_ms := 1700000000000;
  kind := Root;
  algorithms := V3Algorithms_v03;
  keyring_envelope_ref := {| ke_object_id := bytes_of_string "envelope"; ke_digest := List.repeat x22 32 |};
  section_index := sections;
  body_digest := sha256 region;
  header_signature := List.repeat x00 64;
  signing_key_id := bytes_of_string "none"
|}.

Lemma wf_draft : wf_header draft.
Proof.
  unfold wf_header, draft, sections. cbn [self_ref parent publish_time_ms algorithms keyring_envelope_ref
    section_index body_digest header_signature signing_key_id].
  rewrite !Forall_cons_iff. unfold wf_self_ref, wf_parent_ref, wf_algorithms, wf_keyring_ref, wf_section, wf_id, wf_string,
    wf_name, is_u64, is_i64.
  split_and!; try apply Forall_nil_2.
  all: vm_compute; first [reflexivity|discriminate|exact I].
Qed.

Definition ring : KeyRing := {| keys := sample_keys |}.
Definition signing_key : KeyMaterial := sample_key "signing" CheckpointSigning Primary x03.

Definition signed : V3CommitHeader := Eval vm_compute in
  match sign_with_keyring draft ring with Ok h => h | Err _ => draft end.

Definition object : list byte := Eval vm_compute in
  match encode_object signed region with Ok bytes => bytes | Err _ => [] end.

Definition parsed : V3ParsedCommit := Eval vm_compute in
  {| parsed_header := parsed_of signed; version_id := None; body := object |}.
End Sample.

Import Reference.

Lemma commit_header_codec_exact_witness :
  decode_header_cbor (encode_header_cbor Sample.signed Actual) = Ok Sample.signed
  /\ wf_header Sample.signed.
Proof.
  assert (decode_header_cbor (encode_header_cbor Sample.signed Actual) = Ok Sample.signed) as D
    by (vm_compute; reflexivity).
  split; [exact D|]. refine (proj1 (proj1 (commit_header_codec_exact _ _ _) D)). vm_compute. discriminate.
Defined.

Lemma section_layout_exact_witness :
  validate_section_layout Sample.sections (len Sample.region) = Ok tt
  /\ tiles 0 Sample.sections (len Sample.region).
Proof.
  assert (validate_section_layout Sample.sections (len Sample.region) = Ok tt) as V by (vm_compute; reflexivity).
  split; [exact V|]. refine (proj2 (proj2 (proj1 (section_layout_exact _ _ _ _) V))).
  - exact (proj1 (proj2 (proj2 (proj2 (proj2 (proj2 Sample.wf_draft)))))).
  - vm_compute. discriminate.
Defined.

Lemma signed_commit_roundtrip_witness :
  parse_v3_commit_object Sample.commit_id Sample.object {| keys := rotated_keys |} = Ok Sample.parsed.
Proof.
  eapply (signed_commit_roundtrip Sample.draft Sample.region Sample.object Sample.ring Sample.signing_key
    Sample.signed 7 Sample.random_id
    {| sequence := 7; random_id := Sample.random_id; object_id := Sample.commit_id |} rotated_keys
    {| keys := rotated_keys |} (sample_key "signing" CheckpointSigning Enabled x03) Sample.wf_draft).
  all: try (vm_compute; reflexivity).
  - vm_compute. split; discriminate.
  - vm_compute. split; [reflexivity|discriminate].
  - right. left. reflexivity.
Defined.

Lemma commit_body_binding_witness :
  parse_v3_commit_object Sample.commit_id Sample.object Sample.ring = Ok Sample.parsed
  /\ (Sample.object = Sample.object \/
      (skipn (Z.to_nat (sections_start (parsed_header Sample.parsed))) Sample.object
       <> skipn (Z.to_nat (sections_start (parsed_header Sample.parsed))) Sample.object
       /\ sha256 (skipn (Z.to_nat (sections_start (parsed_header Sample.parsed))) Sample.object)
          = sha256 (skipn (Z.to_nat (sections_start (parsed_header Sample.parsed))) Sample.object))).
Proof.
  assert (parse_v3_commit_object Sample.commit_id Sample.object Sample.ring = Ok Sample.parsed) as P
    by (vm_compute; reflexivity).
  split; [exact P|].
  refine (commit_body_binding _ _ _ _ _ _ _ _ _ _ P P eq_refl); vm_compute; discriminate.
Defined.
