(* ===== verification/Format.v ===== *)
(** * Format root (crates/rs3-repository/src/v3/format.rs)

    The plaintext of the repository's format root: which keyring envelope,
    signing key, provider profile and default retention are in force.  Its
    canonical CBOR encoding is exact. *)

From Stdlib Require Import Strings.String.
From S2P Require Import Prelude Text Types Cbor External V3Wire.
Open Scope Z_scope.
Import V3.

Definition MAX_FORMAT_ROOT_BYTES : Z := 1024 * 1024.

Inductive V3ProviderProfile : Type := Dev | AtomicCreate | RetainedVersionObjectLock.

Record V3FormatRef : Type := {
  fr_generation : Z;             (* u64 *)
  fr_digest : text;
  fr_object_id : text;
  fr_version_id : option text
}.

Record V3KeyringEnvelopeRootRef : Type := {
  kref_generation : Z;           (* u64 *)
  kref_digest : text;
  kref_object_id : text;
  kref_version_id : option text
}.

Record V3FormatRoot : Type := {
  format_version : Z;            (* u32 *)
  repository_id : text;
  active_keyring_envelope_ref : V3KeyringEnvelopeRootRef;
  root_signing_key_id : text;
  provider_profile : V3ProviderProfile;
  root_retention : option RetentionPolicy
}.

Definition V3FormatRoot_new (repository_id : text) (ref : V3KeyringEnvelopeRootRef)
    (signing_key_id : text) (profile : V3ProviderProfile) (retention : option RetentionPolicy) :
    V3FormatRoot :=
  {| format_version := 3; repository_id := repository_id; active_keyring_envelope_ref := ref;
     root_signing_key_id := signing_key_id; provider_profile := profile; root_retention := retention |}.

Definition profile_tag (p : V3ProviderProfile) : Z :=
  match p with
  | Dev => 0
  | AtomicCreate => 1
  | RetainedVersionObjectLock => 2
  end.

Definition profile_of_tag (tag : Z) : V3Result V3ProviderProfile :=
  if tag =? 0 then Ok Dev
  else if tag =? 1 then Ok AtomicCreate
  else if tag =? 2 then Ok RetainedVersionObjectLock
  else Err InvalidFormatRoot.

Definition mode_tag (m : RetentionMode) : Z :=
  match m with
  | RetentionNone => 0
  | Governance => 1
  | Compliance => 2
  end.

Definition mode_of_tag (tag : Z) : V3Result RetentionMode :=
  if tag =? 0 then Ok RetentionNone
  else if tag =? 1 then Ok Governance
  else if tag =? 2 then Ok Compliance
  else Err InvalidFormatRoot.

Definition write_retention (out : list byte) (retention : option RetentionPolicy) : list byte :=
  match retention with
  | None => write_null out
  | Some policy =>
      let out := write_array_len out 2 in
      let out := write_u64 out (mode_tag (mode policy)) in
      write_u64 out (retain_days policy)
  end.

Definition read_retention : R (option RetentionPolicy) :=
  null_or (fun _ => MalformedCbor)
    (n <- from_cbor read_array_len ;;
     lift (require (n =? 2)) ;;
     tag <- from_cbor read_u64 ;;
     mode <- lift (mode_of_tag tag) ;;
     raw <- from_cbor read_u64 ;;
     days <- lift (ok_or (try_u32 raw) InvalidFormatRoot) ;;
     mret {| mode := mode; retain_days := days |}).

Section Format.
Context `{Primitives}.

Definition commit_ref (r : V3KeyringEnvelopeRootRef) : V3Result V3KeyringEnvelopeRef :=
  digest <-? ok_or (hex_decode (kref_digest r)) InvalidFormatRoot ;;
  reject_if (negb (len digest =? 32)) InvalidFormatRoot ;;?
  Ok {| ke_object_id := kref_object_id r; ke_digest := digest |}.

Definition to_plaintext_bytes (root : V3FormatRoot) : V3Result (list byte) :=
  require (format_version root =? 3) ;;?
  let out := write_array_len [] 6 in
  let out := write_u64 out (format_version root) in
  out <-? write_text out (repository_id root) MAX_WIRE_TEXT ;;
  let keyring := active_keyring_envelope_ref root in
  out <-? write_envelope_ref out (kref_generation keyring) (kref_digest keyring)
            (kref_object_id keyring) (kref_version_id keyring) ;;
  out <-? write_text out (root_signing_key_id root) MAX_WIRE_KEY_ID ;;
  let out := write_u64 out (profile_tag (provider_profile root)) in
  let out := write_retention out (root_retention root) in
  require (len out <=? MAX_FORMAT_ROOT_BYTES) ;;?
  Ok out.

(** The fields read by [from_plaintext_bytes]. *)
Definition read_format_root : R V3FormatRoot :=
  n <- from_cbor read_array_len ;;
  lift (require (n =? 6)) ;;
  version <- from_cbor read_u64 ;;
  lift (require (version =? 3)) ;;
  raw_repository <- from_cbor (read_text_bounded MAX_WIRE_TEXT) ;;
  repository_id <- lift (from_type (RepositoryId_new raw_repository)) ;;
  '(generation, digest, object_id, version_id) <- read_envelope_ref ;;
  raw_key <- from_cbor (read_text_bounded MAX_WIRE_KEY_ID) ;;
  signing_key_id <- lift (from_type (KeyId_new raw_key)) ;;
  tag <- from_cbor read_u64 ;;
  profile <- lift (profile_of_tag tag) ;;
  retention <- read_retention ;;
  mret {| format_version := 3; repository_id := repository_id;
          active_keyring_envelope_ref :=
            {| kref_generation := generation; kref_digest := digest; kref_object_id := object_id;
               kref_version_id := version_id |};
          root_signing_key_id := signing_key_id; provider_profile := profile;
          root_retention := retention |}.

Definition from_plaintext_bytes (bytes : list byte) : V3Result V3FormatRoot :=
  require (len bytes <=? MAX_FORMAT_ROOT_BYTES) ;;?
  '(root, r) <-? read_format_root (Reader_new bytes) ;;
  require (is_finished r) ;;?
  Ok root.

Definition v3_format_object_id (generation : Z) (digest : text) : V3Result text :=
  from_type (BackendObjectId_new (bytes_of_string "format/" ++ format_020 generation ++ [x2d] ++ digest)).

(** ** The codec *)

(** What the Rust types guarantee of a format root. *)
Definition wf_root (root : V3FormatRoot) : Prop :=
  let keyring := active_keyring_envelope_ref root in
  wf_name (repository_id root) /\ is_u64 (kref_generation keyring) /\ wf_name (kref_object_id keyring)
  /\ wf_opt_name (kref_version_id keyring) /\ wf_name (root_signing_key_id root)
  /\ match root_retention root with Some p => wf_retention p | None => True end.

(** The digest is written the way [hex::encode] writes 32 bytes. *)
Definition canonical_digest (h : text) : Prop := exists d, length d = 32%nat /\ h = hex_encode d.

Definition enc_policy (p : RetentionPolicy) : list byte :=
  enc_array_len 2 ++ enc_u64 (mode_tag (mode p)) ++ enc_u64 (retain_days p).

Definition enc_root (root : V3FormatRoot) (digest : list byte) : list byte :=
  let keyring := active_keyring_envelope_ref root in
  enc_array_len 6 ++ enc_u64 3 ++ enc_text (repository_id root)
  ++ enc_envelope_ref (kref_generation keyring) digest (kref_object_id keyring) (kref_version_id keyring)
  ++ enc_text (root_signing_key_id root) ++ enc_u64 (profile_tag (provider_profile root))
  ++ enc_or_null enc_policy (root_retention root).

(** The lengths [to_plaintext_bytes] checks. *)
Definition root_fits (root : V3FormatRoot) : Prop :=
  let keyring := active_keyring_envelope_ref root in
  len (repository_id root) <= MAX_WIRE_TEXT /\ len (kref_object_id keyring) <= MAX_WIRE_TEXT
  /\ opt_len (kref_version_id keyring) <= MAX_WIRE_TEXT
  /\ len (root_signing_key_id root) <= MAX_WIRE_KEY_ID.

Lemma write_retention_app out o : write_retention out o = out ++ enc_or_null enc_policy o.
Proof. destruct o; simpl; unfold enc_policy; autorewrite with cbor; by rewrite <- ?app_assoc. Qed.

Lemma to_plaintext_bytes_Ok root bs :
  to_plaintext_bytes root = Ok bs <->
  format_version root = 3 /\ root_fits root /\ len bs <= MAX_FORMAT_ROOT_BYTES
  /\ exists d, digest_bytes (kref_digest (active_keyring_envelope_ref root)) = Ok d /\ bs = enc_root root d.
Proof.
  unfold to_plaintext_bytes, root_fits, enc_root. split.
  - intros T. inv_bind. repeat match goal with E : _ = Ok _ |- _ => revert E end.
    rewrite !require_Ok. intros V E1 E2 E3 Le. b2p. apply write_text_Ok in E1 as [L1 ->].
    apply write_envelope_ref_Ok in E2 as (d & D & L2 & L3 & ->). apply write_text_Ok in E3 as [L4 ->].
    rewrite write_retention_app in *. autorewrite with cbor in *. rewrite V in *.
    split_and!; try done. exists d. split; [done|]. by rewrite <- !app_assoc.
  - intros (V & (L1 & L2 & L3 & L4) & Le & d & D & ->). rewrite V. cbn [Z.eqb Pos.eqb require rbind].
    rewrite (proj2 (write_text_Ok _ (repository_id root) MAX_WIRE_TEXT _)) by done. cbn [rbind].
    erewrite (proj2 (write_envelope_ref_Ok _ _ _ _ _ _)) by eauto. cbn [rbind].
    rewrite (proj2 (write_text_Ok _ (root_signing_key_id root) MAX_WIRE_KEY_ID _)) by done. cbn [rbind].
    rewrite write_retention_app. autorewrite with cbor. rewrite <- !app_assoc. cbn [app].
    unfold require. destruct (_ <=? _) eqn:B; [done|]. b2p. lia.
Qed.

Lemma mode_of_tag_ok m : mode_of_tag (mode_tag m) = Ok m.
Proof. by destruct m. Qed.

Lemma mode_of_tag_inv t m : mode_of_tag t = Ok m -> t = mode_tag m.
Proof. unfold mode_of_tag. repeat case_if; b2p; intros; by inv_bind. Qed.

Lemma profile_of_tag_ok m : profile_of_tag (profile_tag m) = Ok m.
Proof. by destruct m. Qed.

Lemma profile_of_tag_inv t m : profile_of_tag t = Ok m -> t = profile_tag m.
Proof. unfold profile_of_tag. repeat case_if; b2p; intros; by inv_bind. Qed.

Lemma reads_root_retention o :
  match o with Some p => wf_retention p | None => True end ->
  reads read_retention (enc_or_null enc_policy o) o.
Proof.
  intros W. apply reads_null_or. intros p ->. unfold wf_retention, is_u32 in W. split.
  { apply starts_array_len. unfold is_u64. lia. }
  unfold enc_policy, from_cbor. eapply reads_bind; [apply reads_mmap_err, reads_array_len; unfold is_u64; lia|].
  eapply reads_bind_nil; [by apply reads_lift|].
  eapply reads_bind; [apply reads_mmap_err, reads_u64; unfold is_u64; destruct (mode p); simpl; lia|].
  eapply reads_bind_nil; [apply reads_lift, mode_of_tag_ok|].
  eapply reads_bind_end; [apply reads_mmap_err, reads_u64; unfold is_u64; lia|].
  eapply reads_bind_nil; [apply reads_lift; unfold try_u32; case_if; [reflexivity|b2p; lia]|].
  destruct p. apply reads_ret.
Qed.

Lemma accepts_root_retention :
  accepts read_retention (fun o c =>
    match o with Some p => wf_retention p | None => True end /\ c = enc_or_null enc_policy o).
Proof.
  eapply accepts_weaken.
  - apply (accepts_null_or _ _ (fun p c => wf_retention p /\ c = enc_policy p)).
    intros s l p s' V Eq. unfold from_cbor in Eq. inv_bind. fwd require_Ok. b2p. subst.
    fwd mode_of_tag_inv. subst. unfold try_u32 in *. case_match; inv_bind. b2p. all_accepts. chunk.
    unfold wf_retention, is_u32, is_u64 in *. simpl. split; [lia|done].
  - intros [p|] c; simpl; [done|by intros ->].
Qed.
#[local] Hint Resolve accepts_root_retention : codec.

Lemma reads_format_root root d :
  wf_root root -> root_fits root -> format_version root = 3 -> length d = 32%nat ->
  kref_digest (active_keyring_envelope_ref root) = hex_encode d ->
  reads read_format_root (enc_root root d) root.
Proof.
  intros (N1 & U & N2 & Nv & N3 & Wr) (L1 & L2 & Lv & L3) V Ld D.
  destruct root as [v repo [g h id ver] key prof ret]. simpl in *. subst.
  unfold read_format_root, enc_root, from_cbor, MAX_WIRE_TEXT, MAX_WIRE_KEY_ID in *.
  cbn [repository_id active_keyring_envelope_ref root_signing_key_id provider_profile root_retention
       kref_generation kref_object_id kref_version_id].
  eapply reads_bind; [apply reads_mmap_err, reads_array_len; unfold is_u64; lia|].
  eapply reads_bind_nil; [by apply reads_lift|].
  eapply reads_bind; [apply reads_mmap_err, reads_u64; unfold is_u64; lia|].
  eapply reads_bind_nil; [by apply reads_lift|].
  eapply reads_bind; [apply reads_mmap_err, reads_text_bounded; [lia..|by apply is_name_utf8]|].
  eapply reads_bind_nil; [apply reads_lift; by apply (from_type_name repo eq_refl)|].
  eapply reads_bind; [by apply reads_envelope_ref|].
  eapply reads_bind; [apply reads_mmap_err, reads_text_bounded; [lia..|by apply is_name_utf8]|].
  eapply reads_bind_nil; [apply reads_lift; by apply (from_type_name key eq_refl)|].
  eapply reads_bind; [apply reads_mmap_err, reads_u64; unfold is_u64; destruct prof; simpl; lia|].
  eapply reads_bind_nil; [apply reads_lift, profile_of_tag_ok|].
  eapply reads_bind_end; [by apply reads_root_retention|]. apply reads_ret.
Qed.

Lemma accepts_format_root :
  accepts read_format_root (fun root c =>
    wf_root root /\ root_fits root /\ format_version root = 3
    /\ exists d, length d = 32%nat /\ kref_digest (active_keyring_envelope_ref root) = hex_encode d
       /\ c = enc_root root d).
Proof.
  intros s l root s' V Eq. unfold read_format_root, from_cbor in Eq. inv_bind.
  repeat fwd require_Ok. b2p. subst. unfold from_type in *. inv_bind. repeat fwd validate_non_empty_inv.
  fwd profile_of_tag_inv. destruct_and?. subst. all_accepts. destruct_and?.
  match goal with E : exists d, _ |- _ => destruct E as (d & Ld & -> & ->) end. chunk.
  unfold wf_root, root_fits; simpl. split_and!; try done; try (by apply wf_name_intro). eauto.
Qed.

(** ** Properties *)

(** The format-root codec is exact: a byte string decodes to a format root
    precisely when it is what [to_plaintext_bytes] writes for that root and
    the root names its keyring envelope by a lowercase 64-digit digest.  In
    particular every root so written is read back, and nothing else is
    accepted. *)
Theorem format_root_codec_exact `{!PrimitivesLaws} bs root :
  from_plaintext_bytes bs = Ok root <->
  wf_root root /\ canonical_digest (kref_digest (active_keyring_envelope_ref root))
  /\ to_plaintext_bytes root = Ok bs.
Proof.
  assert (forall d, length d = 32%nat -> digest_bytes (hex_encode d) = Ok d) as Dh.
  { intros d L. apply digest_bytes_Ok. rewrite hex_encode_length, hex_decode_encode. unfold len. rewrite L. done. }
  rewrite to_plaintext_bytes_Ok. unfold from_plaintext_bytes, MAX_FORMAT_ROOT_BYTES. split.
  - intros D. inv_bind. repeat fwd require_Ok. b2p. whole_input accepts_format_root.
    destruct Heqr0 as (W & F & Ev & d & Ld & Ed & ->). split_and!; try done; [by exists d|].
    exists d. split; [|done]. rewrite Ed. by apply Dh.
  - intros (W & (d & Ld & Ed) & V & F & Le & d' & D' & ->). rewrite Ed, (Dh d Ld) in D'. inv_bind.
    unfold require at 1. rewrite (proj2 (Z.leb_le _ _) Le). cbn [rbind].
    destruct (reads_all _ _ _ (reads_format_root root d' W F V Ld Ed)) as (r & -> & Fin); [lia|].
    cbn [rbind]. by rewrite Fin.
Qed.
End Format.

Import Reference.

Definition sample_root : V3FormatRoot :=
  V3FormatRoot_new (bytes_of_string "repo")
    {| kref_generation := 1; kref_digest := hex_encode (List.repeat x11 32);
       kref_object_id := bytes_of_string "keyrings/1"; kref_version_id := None |}
    (bytes_of_string "signing") RetainedVersionObjectLock
    (Some {| mode := Compliance; retain_days := 30 |}).

Lemma format_root_codec_exact_witness :
  exists bs, to_plaintext_bytes sample_root = Ok bs
    /\ from_plaintext_bytes bs = Ok sample_root.
Proof.
  eexists. split; [vm_compute; reflexivity|].
  apply (proj2 (format_root_codec_exact _ _)). split; [|split].
  - unfold wf_root, wf_name. simpl. split_and!; try done; try (vm_compute; done).
  - exists (List.repeat x11 32). split; reflexivity.
  - vm_compute. reflexivity.
Defined.
