(* ===== verification/Anchor.v ===== *)
(** * The accepted anchor (crates/rs3-repository/src/v3/repository.rs)

    [V3AnchorState] names the last accepted commit: its sequence, key, body
    digest, provider version, signing key and the format root it was written
    under.  It is what a coordination backend stores and what a recovery point
    refers to. *)

From S2P Require Import Prelude Text Types External V3Wire Format.
Open Scope Z_scope.

Record V3AnchorState : Type := {
  anchor_sequence : Z;                 (* Sequence: u64 *)
  anchor_commit_key : text;
  anchor_body_digest : list byte;      (* [u8; 32] *)
  anchor_version_id : option text;
  anchor_signing_key_id : text;
  anchor_format_ref : V3FormatRef
}.

#[export] Instance V3FormatRef_eq_dec : EqDecision V3FormatRef.
Proof. solve_decision. Defined.
#[export] Instance V3AnchorState_eq_dec : EqDecision V3AnchorState.
Proof. solve_decision. Defined.
