(* ===== verification/RecoveryPolicy.v ===== *)
(** * Recovery promises and publication times

    crates/rs3-repository/src/v3/recovery.rs (signed publication times) and
    recovery/policy.rs (how long a superseded point stays recoverable, and how
    an absolute deadline becomes a relative retention in whole days). *)

From Stdlib Require Import Strings.String.
From S2P Require Import Prelude Text Types External V3Wire.
Open Scope Z_scope.
Import V3.

(** ** Publication times (recovery.rs) *)

Definition MAX_PUBLICATION_CLOCK_LEAD_MS : Z := 60000.

(** [i64::checked_add] and [i64::checked_sub]. *)
Definition checked_add_i64 (a b : Z) : option Z := try_i64 (a + b).
Definition checked_sub_i64 (a b : Z) : option Z := try_i64 (a - b).

(** [i64::saturating_sub]. *)
Definition saturating_sub_i64 (a b : Z) : Z := Z.max i64_min (Z.min i64_max (a - b)).

(** [Option::filter] with a condition on the surroundings. *)
Definition filter_if {A} (c : bool) (o : option A) : option A := if c then o else None.

Definition validate_publication_time (now_ms chosen_ms : Z) : V3Result unit :=
  maximum <-? ok_or (filter_if (0 <=? now_ms) (checked_add_i64 now_ms MAX_PUBLICATION_CLOCK_LEAD_MS))
                InvalidPublicationTime ;;
  reject_if ((chosen_ms <? 0) || (chosen_ms >? maximum)) InvalidPublicationTime.

Definition choose_publish_time (now_ms : Z) (parent_ms : option Z) : V3Result Z :=
  next <-? match parent_ms with
           | Some parent =>
               if 0 <=? parent then ok_or (checked_add_i64 parent 1) InvalidPublicationTime
               else Err InvalidPublicationTime
           | None => Ok 0
           end ;;
  let chosen := Z.max now_ms next in
  validate_publication_time now_ms chosen ;;?
  Ok chosen.

Definition validate_parent_time (parent_ms : option Z) (child_ms : Z) : V3Result unit :=
  reject_if
    ((child_ms <? 0)
     || match parent_ms with
        | Some parent => (parent <? 0) || (child_ms <=? parent)
        | None => false
        end) InvalidPublicationTime.

Definition validate_history_publication_freshness (now_ms chosen_ms uncertainty_ms : Z) : V3Result unit :=
  validate_publication_time now_ms chosen_ms ;;?
  minimum <-? ok_or (checked_sub_i64 now_ms uncertainty_ms) InvalidPublicationTime ;;
  reject_if (chosen_ms <? minimum) InvalidPublicationTime.

(** ** The policy (recovery/policy.rs) *)

Definition DAY_MS : Z := 86400000.
Definition MAX_WINDOW_DAYS : Z := 36500.
Definition MAX_MARGIN_SECONDS : Z := 365 * 86400.
Definition MAX_CLOCK_UNCERTAINTY_MS : Z := 3600000.

Record RecoveryPolicy : Type := {
  window_days : Z;               (* u32 *)
  renewal_margin_seconds : Z;    (* u32 *)
  clock_uncertainty_ms : Z       (* u32 *)
}.

#[export] Instance RecoveryPolicy_eq_dec : EqDecision RecoveryPolicy.
Proof. solve_decision. Defined.

Definition RecoveryPolicy_PRESET : RecoveryPolicy :=
  {| window_days := 30; renewal_margin_seconds := 86400; clock_uncertainty_ms := 60000 |}.

(** [(1..=maximum).contains(&value)]. *)
Definition in_1_to (maximum value : Z) : bool := (1 <=? value) && (value <=? maximum).

Definition RecoveryPolicy_new (window_days renewal_margin_seconds clock_uncertainty_ms : Z) :
    V3Result RecoveryPolicy :=
  reject_if
    (negb (in_1_to MAX_WINDOW_DAYS window_days)
     || negb (in_1_to MAX_MARGIN_SECONDS renewal_margin_seconds)
     || negb (in_1_to MAX_CLOCK_UNCERTAINTY_MS clock_uncertainty_ms)
     || (renewal_margin_seconds * 1000 <=? clock_uncertainty_ms)) InvalidRecoveryPolicy ;;?
  Ok {| window_days := window_days; renewal_margin_seconds := renewal_margin_seconds;
        clock_uncertainty_ms := clock_uncertainty_ms |}.

Definition checked_deadline (base_ms offset_ms : Z) : V3Result Z :=
  ok_or (filter_if (0 <=? base_ms) (checked_add_i64 base_ms offset_ms)) InvalidPublicationTime.

Definition promised_until_ms (policy : RecoveryPolicy) (superseded_at_ms : Z) : V3Result Z :=
  checked_deadline superseded_at_ms (window_days policy * DAY_MS + clock_uncertainty_ms policy).

Definition coverage_until_ms (policy : RecoveryPolicy) (superseded_at_ms : Z) : V3Result Z :=
  promised <-? promised_until_ms policy superseded_at_ms ;;
  checked_deadline promised (renewal_margin_seconds policy * 1000 + clock_uncertainty_ms policy).

Definition expiry_cutoff_ms (policy : RecoveryPolicy) (trusted_now_ms : Z) : V3Result Z :=
  reject_if (trusted_now_ms <? 0) InvalidPublicationTime ;;?
  Ok (Z.max (trusted_now_ms - clock_uncertainty_ms policy) 0).

Definition ceil_physical_deadline_ms (required_until_ms : Z) : V3Result Z :=
  reject_if (required_until_ms <? 0) InvalidPublicationTime ;;?
  let remainder := required_until_ms mod DAY_MS in
  ok_or (checked_add_i64 required_until_ms ((DAY_MS - remainder) mod DAY_MS)) InvalidPublicationTime.

(** [u32::try_from] on an [i64]. *)
Definition try_u32_from_i64 (z : Z) : option Z := if 0 <=? z then try_u32 z else None.

Definition physical_retention_for_deadline (retention : option RetentionPolicy)
    (required_until_ms : option Z) (now_ms : Z) : V3Result (option RetentionPolicy) :=
  match required_until_ms with
  | None => Ok retention
  | Some required =>
      policy <-? ok_or (match retention with
                        | Some policy =>
                            filter_if (negb (bool_decide (mode policy = RetentionNone)) && (0 <? retain_days policy))
                              (Some policy)
                        | None => None
                        end) ProviderProfileFailed ;;
      reject_if ((required <? 0) || (now_ms <? 0)) InvalidPublicationTime ;;?
      let remaining_ms := Z.max (saturating_sub_i64 required now_ms) 0 in
      days <-? ok_or (try_u32_from_i64 (remaining_ms / DAY_MS + (if remaining_ms mod DAY_MS =? 0 then 0 else 1)))
                 InvalidRecoveryPolicy ;;
      Ok (Some {| mode := mode policy; retain_days := Z.max (retain_days policy) days |})
  end.

Section Identity.
Context `{Primitives}.

Definition POLICY_DOMAIN : list byte := bytes_of_string "rs3:recovery-policy:v03" ++ [x0a].

Definition identity (policy : RecoveryPolicy) : list byte :=
  sha256 (POLICY_DOMAIN ++ to_be_bytes 4 (window_days policy)
          ++ to_be_bytes 4 (renewal_margin_seconds policy) ++ to_be_bytes 4 (clock_uncertainty_ms policy)).
End Identity.

(** ** Promises and cutoffs *)

Lemma promised_until_Ok p t d :
  promised_until_ms p t = Ok d <->
  d = t + window_days p * DAY_MS + clock_uncertainty_ms p /\ 0 <= t /\ is_i64 d.
Proof.
  unfold promised_until_ms, checked_deadline, filter_if, checked_add_i64, try_i64, is_i64.
  destruct (Z.leb_spec 0 t); simpl; [|split; [done|lia]].
  case_if; simpl; b2p; split; intros E; try (injection E as <-); try (f_equal; lia); try lia; try done.
Qed.

Lemma expiry_cutoff_Ok p now c :
  expiry_cutoff_ms p now = Ok c <-> c = Z.max (now - clock_uncertainty_ms p) 0 /\ 0 <= now.
Proof.
  unfold expiry_cutoff_ms, reject_if. case_if; simpl; b2p; split; intros E; try done; try lia.
  - by injection E as <-.
  - by destruct E as [-> _].
Qed.

Lemma validate_publication_time_Ok now t :
  is_i64 now ->
  validate_publication_time now t = Ok tt <->
  0 <= now /\ now + MAX_PUBLICATION_CLOCK_LEAD_MS <= i64_max /\ 0 <= t <= now + MAX_PUBLICATION_CLOCK_LEAD_MS.
Proof.
  unfold is_i64, validate_publication_time, filter_if, checked_add_i64, try_i64, MAX_PUBLICATION_CLOCK_LEAD_MS, reject_if.
  intros N. destruct (Z.leb_spec 0 now); cbn [ok_or rbind]; [|split; [done|lia]].
  destruct (_ && _) eqn:B; b2p; cbn [ok_or rbind].
  - destruct (_ || _) eqn:C; b2p; [|split; [lia|done]]. split; [done|]. apply orb_true_iff in C as [C|C]; b2p; lia.
  - split; [done|]. apply andb_false_iff in B as [B|B]; b2p; lia.
Qed.

Lemma validate_parent_time_Ok parent t :
  validate_parent_time (Some parent) t = Ok tt <-> 0 <= parent < t.
Proof.
  unfold validate_parent_time, reject_if. destruct (_ || _) eqn:B; b2p; [|split; [lia|done]].
  split; [done|]. apply orb_true_iff in B as [B|B]; [b2p; lia|]. apply orb_true_iff in B as [B|B]; b2p; lia.
Qed.

Lemma choose_publish_time_Ok now parent t :
  is_i64 now -> is_i64 parent ->
  choose_publish_time now (Some parent) = Ok t <->
  t = Z.max now (parent + 1) /\ 0 <= now /\ 0 <= parent
  /\ now + MAX_PUBLICATION_CLOCK_LEAD_MS <= i64_max /\ parent < now + MAX_PUBLICATION_CLOCK_LEAD_MS
  /\ validate_parent_time (Some parent) t = Ok tt /\ validate_publication_time now t = Ok tt.
Proof.
  intros N P. rewrite validate_parent_time_Ok, (validate_publication_time_Ok now t N).
  unfold choose_publish_time. unfold is_i64, checked_add_i64, try_i64 in *.
  destruct (Z.leb_spec 0 parent); cbn [rbind]; [|split; [done|lia]].
  destruct (_ && _) eqn:B; b2p; cbn [ok_or rbind].
  2:{ split; [done|]. apply andb_false_iff in B as [B|B]; b2p; unfold MAX_PUBLICATION_CLOCK_LEAD_MS in *; lia. }
  pose proof (validate_publication_time_Ok now (Z.max now (parent + 1)) N) as V. unfold MAX_PUBLICATION_CLOCK_LEAD_MS in *.
  destruct (validate_publication_time _ _) as [[]|err]; cbn [rbind].
  - apply proj1 in V. specialize (V eq_refl). split; [intros [= <-]; lia|]. intros (-> & _). done.
  - split; [done|]. intros (-> & X). assert (@Err V3FormatError unit err = Ok tt) by (apply V; lia). done.
Qed.

(** ** Properties *)


(** C28: Relative retention covers an absolute deadline: the policy that is
    requested keeps the mode, never shortens the configured period, reaches the
    deadline counted from now, and is longer than configured only by the days
    the deadline needs. *)
Theorem physical_retention_covers policy required now p :
  is_i64 required -> is_i64 now -> is_u32 (retain_days policy) ->
  physical_retention_for_deadline (Some policy) (Some required) now = Ok (Some p) ->
  mode p = mode policy /\ is_u32 (retain_days p) /\ retain_days policy <= retain_days p
  /\ required <= now + retain_days p * DAY_MS
  /\ (retain_days policy < retain_days p -> now + (retain_days p - 1) * DAY_MS < required).
Proof.
  unfold is_i64, is_u32, physical_retention_for_deadline, saturating_sub_i64, try_u32_from_i64, try_u32, filter_if.
  intros R N D E. inv_bind. b2p.
  match goal with X : (if _ && _ then _ else _) = Some _ |- _ => case_if_in X; [|done]; inv_bind end.
  replace (Z.max i64_min (Z.min i64_max (required - now))) with (required - now) in * by lia.
  pose proof (Z.div_mod (Z.max (required - now) 0) DAY_MS). pose proof (Z.mod_pos_bound (Z.max (required - now) 0) DAY_MS).
  unfold DAY_MS in *.
  repeat match goal with X : context [if ?c then _ else _] |- _ => destruct c eqn:?; try discriminate X end; inv_bind; b2p;
    cbn [mode retain_days]; (split_and!; [done|lia..]).
Qed.


Lemma physical_retention_covers_witness :
  physical_retention_for_deadline (Some {| mode := Governance; retain_days := 1 |}) (Some (1000 + 30 * DAY_MS + 1)) 1000
    = Ok (Some {| mode := Governance; retain_days := 31 |})
  /\ 1000 + 30 * DAY_MS + 1 <= 1000 + 31 * DAY_MS.
Proof.
  assert (physical_retention_for_deadline (Some {| mode := Governance; retain_days := 1 |}) (Some (1000 + 30 * DAY_MS + 1)) 1000
    = Ok (Some {| mode := Governance; retain_days := 31 |})) as E by (vm_compute; reflexivity).
  split; [exact E|]. refine (proj1 (proj2 (proj2 (proj2 (physical_retention_covers _ _ _ _ _ _ _ E)))));
    unfold is_i64, is_u32, DAY_MS; cbn [retain_days]; lia.
Defined.
