(* ===== verification/StoreTypes.v ===== *)
(** * Data of the commit store (crates/rs3-repository/src/v3/repository.rs)

    The options of a commit store, what a writer hands to it, what it returns,
    and the verified chain that replay produces. *)

From S2P Require Import Prelude Ord Text Types External V3Wire ObjectKeys Commit Format Anchor RecoveryPolicy.
Open Scope Z_scope.
Import V3.

Definition MAX_RANDOM_KEY_ATTEMPTS : nat := 3.
Definition VERIFIED_PUBLICATION_TIME_CACHE_ENTRIES : Z := 4.
Definition DEFAULT_V3_REPLAY_MAX_COMMITS : Z := 4096.
Definition DEFAULT_V3_REPLAY_MAX_TOTAL_COMMIT_BYTES : Z := 1024 * 1024 * 1024 * 1024.
Definition DEFAULT_V3_REPLAY_MAX_RETAINED_BYTES : Z := 64 * 1024 * 1024.
Definition DEFAULT_V3_REPLAY_READ_CHUNK_BYTES : Z := 8 * 1024 * 1024.

#[export] Instance V3ProviderProfile_eq_dec : EqDecision V3ProviderProfile.
Proof. solve_decision. Defined.

Record V3ReplayLimits : Type := {
  max_commits : Z;                   (* usize *)
  max_total_commit_bytes : Z;        (* u64 *)
  max_retained_bytes : Z;            (* u64 *)
  read_chunk_bytes : Z               (* u64 *)
}.

Definition V3ReplayLimits_default : V3ReplayLimits :=
  {| max_commits := DEFAULT_V3_REPLAY_MAX_COMMITS;
     max_total_commit_bytes := DEFAULT_V3_REPLAY_MAX_TOTAL_COMMIT_BYTES;
     max_retained_bytes := DEFAULT_V3_REPLAY_MAX_RETAINED_BYTES;
     read_chunk_bytes := DEFAULT_V3_REPLAY_READ_CHUNK_BYTES |}.

(** The stall timeout of streamed bodies and the budgets that only maintenance
    reads are left out. *)
Record V3CommitStoreOptions : Type := {
  opt_repository_id : text;
  opt_recovery_policy : option RecoveryPolicy;
  opt_provider_profile : V3ProviderProfile;
  opt_retention : option RetentionPolicy;
  opt_legal_hold : option LegalHoldStatus;
  opt_keyring_envelope_ref : V3KeyringEnvelopeRef;
  opt_format_ref : V3FormatRef;
  opt_maintenance_keyring_envelope_ref : option V3KeyringEnvelopeRootRef;
  opt_replay_limits : V3ReplayLimits
}.

Definition for_profile (profile : V3ProviderProfile) (repository_id : text)
    (keyring_envelope_ref : V3KeyringEnvelopeRef) (format_ref : V3FormatRef) : V3CommitStoreOptions :=
  {| opt_repository_id := repository_id;
     opt_recovery_policy := None;
     opt_provider_profile := profile;
     opt_retention := match profile with
                      | RetainedVersionObjectLock => Some {| mode := Governance; retain_days := 1 |}
                      | Dev | AtomicCreate => None
                      end;
     opt_legal_hold := None;
     opt_keyring_envelope_ref := keyring_envelope_ref;
     opt_format_ref := format_ref;
     opt_maintenance_keyring_envelope_ref := None;
     opt_replay_limits := V3ReplayLimits_default |}.

Record V3CommitSection : Type := {
  cs_section_type : V3SectionType;
  cs_flags : Z;                      (* u8 *)
  cs_bytes : list byte
}.

Record V3CommitWrite : Type := {
  write_kind : V3CommitKind;
  write_sections : list V3CommitSection;
  write_retention_policy : option RetentionPolicy;
  write_legal_hold : option LegalHoldStatus;
  write_required_retain_until_ms : option Z   (* i64 *)
}.

Definition V3CommitWrite_snapshot (sections : list V3CommitSection) : V3CommitWrite :=
  {| write_kind := Root; write_sections := sections; write_retention_policy := None;
     write_legal_hold := None; write_required_retain_until_ms := None |}.

Definition V3CommitWrite_delta (sections : list V3CommitSection) : V3CommitWrite :=
  {| write_kind := Delta; write_sections := sections; write_retention_policy := None;
     write_legal_hold := None; write_required_retain_until_ms := None |}.

Record V3StoredCommit : Type := {
  verified_retain_until_ms : option Z;        (* i64 *)
  stored_publish_time_ms : Z;                 (* i64 *)
  stored_anchor_state : V3AnchorState;
  stored_commit_key : V3CommitKey;
  stored_version_id : option text;
  stored_object_len : Z;                      (* u64 *)
  stored_sections_start : Z                   (* u64 *)
}.

Record V3ReplayCommit : Type := {
  replay_header : V3ParsedCommitHeader;
  replay_version_id : option text;
  replay_object_len : Z;                      (* u64 *)
  retained_sections : list (option (list byte))
}.

Definition clear_retained_sections (c : V3ReplayCommit) : V3ReplayCommit :=
  {| replay_header := replay_header c; replay_version_id := replay_version_id c;
     replay_object_len := replay_object_len c;
     retained_sections := map (fun _ => None) (retained_sections c) |}.

Definition header_facts (c : V3ReplayCommit) : V3ReplayCommit := clear_retained_sections c.

Record V3ReplayChain : Type := {
  commits_newest_first : list V3ReplayCommit
}.

(** A section of this type in the index of a header. *)
Definition is_section (t : V3SectionType) (d : V3SectionDescriptor) : bool := bool_decide (section_type d = t).
Definition has_recovery (h : V3CommitHeader) : bool := existsb (is_section Recovery) (section_index h).

(** [iter().position(..)]. *)
Fixpoint position_of {A} (f : A -> bool) (l : list A) : option nat :=
  match l with
  | [] => None
  | a :: l' => if f a then Some O else S <$> position_of f l'
  end.

(** The anchor a commit is accepted as. *)
Definition anchor_of (options : V3CommitStoreOptions) (c : V3ReplayCommit) : V3AnchorState :=
  let h := parsed_header_ (replay_header c) in
  {| anchor_sequence := self_sequence (self_ref h); anchor_commit_key := self_commit_key (self_ref h);
     anchor_body_digest := body_digest h; anchor_version_id := replay_version_id c;
     anchor_signing_key_id := signing_key_id h; anchor_format_ref := opt_format_ref options |}.

(** One choice of parent and time, shared by everything a publication does. *)
Record V3PublicationPlan : Type := {
  sampled_now_ms : Z;                       (* i64 *)
  plan_parent : V3AnchorState;
  parent_publish_time_ms : Z;               (* i64 *)
  plan_publish_time_ms : Z                  (* i64 *)
}.

(** The reference to its parent that a commit on top of [state] carries. *)
Definition parent_ref_of (state : V3AnchorState) : V3CommitParentRef :=
  {| parent_sequence := anchor_sequence state; parent_commit_key := anchor_commit_key state;
     parent_body_digest := anchor_body_digest state; parent_version_id := anchor_version_id state |}.

Lemma position_of_Some {A} (f : A -> bool) l i :
  position_of f l = Some i -> exists a, l !! i = Some a /\ f a = true.
Proof.
  revert i. induction l as [|a l IH]; intros i E; cbn [position_of] in E; [done|].
  destruct (f a) eqn:F; [injection E as <-; by exists a|].
  destruct (position_of f l) as [j|]; [|done]. injection E as <-. apply (IH j eq_refl).
Qed.
