(* ===== verification/RecoveryHistory.v ===== *)
(** * Recovery history (crates/rs3-repository/src/v3/recovery/history.rs)

    The registry of superseded points that must stay recoverable.  It is kept
    in two levels, full pages that live in older commits and are named by
    reference, and a tail of recent points, and every commit carries the
    change it makes to it.  The file holds the data, its validation and the
    transition; the wire format is in [RecoveryCodec]. *)

From S2P Require Import Prelude Ord Text Types External V3Wire ObjectKeys Commit Format Anchor RecoveryPolicy StoreTypes.
Open Scope Z_scope.
Import V3.

Definition MAX_RECOVERY_SECTION_BYTES : Z := 8 * 1024 * 1024.
Definition MAX_RECOVERY_TAIL_RECORDS : Z := 4096.
Definition MAX_RECOVERY_PAGES : Z := 1024.
Definition MAX_RECOVERY_PAGE_RECORDS : Z := 4096.
Definition WIRE_VERSION : Z := 1.
Definition MAX_OBJECT_ID_BYTES : Z := 1024.
Definition MAX_VERSION_ID_BYTES : Z := 1024.
Definition MAX_KEY_ID_BYTES : Z := 255.

Record RecoveryPoint : Type := {
  point_anchor : V3AnchorState;
  point_publish_time_ms : Z;         (* i64 *)
  protected_until_ms : Z;            (* i64 *)
  policy_id : list byte              (* [u8; 32] *)
}.

Record RecoveryDelta : Type := {
  register : option RecoveryPoint;
  delta_expire_before_ms : option Z; (* i64 *)
  roll_tail : option Z               (* u32 *)
}.

Record RecoveryPage : Type := {
  points : list RecoveryPoint
}.

Record RecoveryPageClaims : Type := {
  record_count : Z;                  (* u32 *)
  first_sequence : Z;
  last_sequence : Z;
  minimum_deadline_ms : Z;           (* i64 *)
  maximum_deadline_ms : Z            (* i64 *)
}.

Inductive RecoveryPageLocation : Type :=
| ThisSection (page_index : Z)
| Exact (anchor : V3AnchorState) (section_ordinal page_index : Z).

Record RecoveryPageRef : Type := {
  location : RecoveryPageLocation;
  claims : RecoveryPageClaims
}.

Record RecoverySnapshot : Type := {
  pages : list RecoveryPageRef;
  tail : list RecoveryPoint;
  expire_before_ms : Z               (* i64 *)
}.

Record RecoverySection : Type := {
  current_policy : RecoveryPolicy;
  delta : RecoveryDelta;
  snapshot : option RecoverySnapshot;
  local_pages : list RecoveryPage
}.

#[export] Instance RecoveryPoint_eq_dec : EqDecision RecoveryPoint.
Proof. solve_decision. Defined.
#[export] Instance RecoveryPageClaims_eq_dec : EqDecision RecoveryPageClaims.
Proof. solve_decision. Defined.
#[export] Instance RecoveryPageLocation_eq_dec : EqDecision RecoveryPageLocation.
Proof. solve_decision. Defined.
#[export] Instance RecoveryPageRef_eq_dec : EqDecision RecoveryPageRef.
Proof. solve_decision. Defined.
#[export] Instance RecoverySnapshot_eq_dec : EqDecision RecoverySnapshot.
Proof. solve_decision. Defined.

Definition capacity (length maximum : Z) : V3Result unit := reject_if (length >? maximum) RecoveryHistoryCapacity.

Definition bounded_text (t : text) (maximum : Z) : V3Result unit :=
  reject_if (len t =? 0) InvalidRecoveryHistory ;;?
  capacity (len t) maximum.

Definition validate_ordinal (ordinal : Z) : V3Result unit :=
  reject_if (ordinal >=? V3_MAX_COMMIT_SECTIONS) InvalidRecoveryHistory.

(** [usize::saturating_add(1)]. *)
Definition saturating_succ (n : Z) : Z := Z.min usize_max (n + 1).

(** [option.is_some_and(f)]. *)
Definition is_some_and {A} (f : A -> bool) (o : option A) : bool :=
  match o with
  | Some a => f a
  | None => false
  end.

Definition validate_claims (c : RecoveryPageClaims) : V3Result unit :=
  capacity (record_count c) MAX_RECOVERY_PAGE_RECORDS ;;?
  reject_if
    ((record_count c =? 0)
     || (first_sequence c =? Sequence_ZERO)
     || (first_sequence c >? last_sequence c)
     || ((record_count c =? 1) && negb (first_sequence c =? last_sequence c))
     || (last_sequence c - first_sequence c <? record_count c - 1)
     || (minimum_deadline_ms c <=? 0)
     || (minimum_deadline_ms c >? maximum_deadline_ms c)) InvalidRecoveryHistory.

(** [local_pages.get(page_index)]. *)
Definition page (s : RecoverySection) (page_index : Z) : V3Result RecoveryPage :=
  ok_or (local_pages s !! Z.to_nat page_index) InvalidRecoveryHistory.

Section RecoveryHistory.
Context `{Primitives}.

(** ** Validation *)

Definition validate_anchor (anchor : V3AnchorState) : V3Result unit :=
  key <-? map_err (fun _ => InvalidRecoveryHistory) (V3CommitKey_parse (anchor_commit_key anchor)) ;;
  reject_if ((anchor_sequence anchor =? Sequence_ZERO) || negb (sequence key =? anchor_sequence anchor))
    InvalidRecoveryHistory ;;?
  bounded_text (anchor_commit_key anchor) MAX_OBJECT_ID_BYTES ;;?
  bounded_text (anchor_signing_key_id anchor) MAX_KEY_ID_BYTES ;;?
  version <-? ok_or (anchor_version_id anchor) InvalidRecoveryHistory ;;
  bounded_text version MAX_VERSION_ID_BYTES ;;?
  let format := anchor_format_ref anchor in
  reject_if (fr_generation format =? 0) InvalidRecoveryHistory ;;?
  bounded_text (fr_object_id format) MAX_OBJECT_ID_BYTES ;;?
  version <-? ok_or (fr_version_id format) InvalidRecoveryHistory ;;
  bounded_text version MAX_VERSION_ID_BYTES ;;?
  reject_if (negb (len (fr_digest format) =? 64)) InvalidRecoveryHistory ;;?
  digest <-? ok_or (hex_decode (fr_digest format)) InvalidRecoveryHistory ;;
  reject_if (negb (len digest =? 32) || negb (bool_decide (hex_encode digest = fr_digest format)))
    InvalidRecoveryHistory.

Definition validate_point (p : RecoveryPoint) : V3Result unit :=
  validate_anchor (point_anchor p) ;;?
  reject_if ((point_publish_time_ms p <? 0) || (protected_until_ms p <=? point_publish_time_ms p))
    InvalidRecoveryHistory.

(** The loop of [validate_points]; [previous] is the sequence and time of the
    point before. *)
Fixpoint validate_points_loop (previous : option (Z * Z)) (l : list RecoveryPoint) : V3Result unit :=
  match l with
  | [] => Ok tt
  | p :: l' =>
      validate_point p ;;?
      reject_if (is_some_and (fun '(sequence, time) =>
                   (sequence >=? anchor_sequence (point_anchor p)) || (time >=? point_publish_time_ms p)) previous)
        InvalidRecoveryHistory ;;?
      validate_points_loop (Some (anchor_sequence (point_anchor p), point_publish_time_ms p)) l'
  end.

Definition validate_points (l : list RecoveryPoint) (maximum : Z) : V3Result unit :=
  capacity (len l) maximum ;;?
  validate_points_loop None l.

Definition page_claims (page : RecoveryPage) : V3Result RecoveryPageClaims :=
  validate_points (points page) MAX_RECOVERY_PAGE_RECORDS ;;?
  first <-? ok_or (hd_error (points page)) InvalidRecoveryHistory ;;
  last <-? ok_or (list.last (points page)) InvalidRecoveryHistory ;;
  let minimum := fold_left (fun m p => Z.min m (protected_until_ms p)) (points page) (protected_until_ms first) in
  let maximum := fold_left (fun m p => Z.max m (protected_until_ms p)) (points page) (protected_until_ms first) in
  count <-? ok_or (try_u32 (len (points page))) RecoveryHistoryCapacity ;;
  Ok {| record_count := count;
        first_sequence := anchor_sequence (point_anchor first);
        last_sequence := anchor_sequence (point_anchor last);
        minimum_deadline_ms := minimum; maximum_deadline_ms := maximum |}.

Definition verify_page (r : RecoveryPageRef) (page : RecoveryPage) : V3Result unit :=
  c <-? page_claims page ;;
  reject_if (negb (bool_decide (claims r = c))) InvalidRecoveryHistory.

Definition validate_location (r : RecoveryPageRef) : V3Result unit :=
  match location r with
  | ThisSection page_index => capacity (saturating_succ page_index) MAX_RECOVERY_PAGES
  | Exact anchor section_ordinal page_index =>
      validate_anchor anchor ;;?
      validate_ordinal section_ordinal ;;?
      capacity (saturating_succ page_index) MAX_RECOVERY_PAGES ;;?
      reject_if (last_sequence (claims r) >=? anchor_sequence anchor) InvalidRecoveryHistory
  end.

(** The loop over the pages of [validate_snapshot]; it returns the last
    sequence of the last page. *)
Fixpoint validate_pages_loop (expire : Z) (previous : option Z) (l : list RecoveryPageRef) : V3Result (option Z) :=
  match l with
  | [] => Ok previous
  | r :: l' =>
      validate_claims (claims r) ;;?
      validate_location r ;;?
      reject_if ((maximum_deadline_ms (claims r) <=? expire)
                 || is_some_and (fun sequence => sequence >=? first_sequence (claims r)) previous)
        InvalidRecoveryHistory ;;?
      validate_pages_loop expire (Some (last_sequence (claims r))) l'
  end.

Definition validate_snapshot (s : RecoverySnapshot) : V3Result unit :=
  capacity (len (pages s)) MAX_RECOVERY_PAGES ;;?
  validate_points (tail s) MAX_RECOVERY_TAIL_RECORDS ;;?
  reject_if ((expire_before_ms s <? 0) || existsb (fun p => protected_until_ms p <=? expire_before_ms s) (tail s))
    InvalidRecoveryHistory ;;?
  previous <-? validate_pages_loop (expire_before_ms s) None (pages s) ;;
  reject_if (match previous, hd_error (tail s) with
             | Some sequence, Some point => sequence >=? anchor_sequence (point_anchor point)
             | _, _ => false
             end) InvalidRecoveryHistory.

Definition is_this_section (r : RecoveryPageRef) : bool :=
  match location r with
  | ThisSection _ => true
  | Exact _ _ _ => false
  end.

Definition validate_normalized (s : RecoverySnapshot) : V3Result unit :=
  validate_snapshot s ;;?
  reject_if (existsb is_this_section (pages s)) InvalidRecoveryHistory.

(** The loop over the local pages of [RecoverySection::validate]. *)
Fixpoint validate_local_pages (previous_page : option Z) (l : list RecoveryPage) : V3Result unit :=
  match l with
  | [] => Ok tt
  | p :: l' =>
      c <-? page_claims p ;;
      reject_if (is_some_and (fun last => last >=? first_sequence c) previous_page) InvalidRecoveryHistory ;;?
      validate_local_pages (Some (last_sequence c)) l'
  end.

(** The loop that verifies the references of a snapshot to local pages and
    marks the pages they use. *)
Fixpoint mark_used (s : RecoverySection) (l : list RecoveryPageRef) (used : list bool) : V3Result (list bool) :=
  match l with
  | [] => Ok used
  | r :: l' =>
      match location r with
      | ThisSection page_index =>
          local <-? page s page_index ;;
          verify_page r local ;;?
          mark_used s l' (<[Z.to_nat page_index := true]> used)
      | Exact _ _ _ => mark_used s l' used
      end
  end.

Definition section_validate (s : RecoverySection) : V3Result unit :=
  capacity (len (local_pages s)) MAX_RECOVERY_PAGES ;;?
  reject_if (is_some_and (fun cutoff => cutoff <? 0) (delta_expire_before_ms (delta s))) InvalidRecoveryHistory ;;?
  match register (delta s) with
  | Some point => validate_point point
  | None => Ok tt
  end ;;?
  validate_local_pages None (local_pages s) ;;?
  let used := repeat false (length (local_pages s)) in
  used <-? match roll_tail (delta s) with
           | Some index => page s index ;;? Ok (<[Z.to_nat index := true]> used)
           | None => Ok used
           end ;;
  used <-? match snapshot s with
           | Some snapshot =>
               validate_snapshot snapshot ;;?
               reject_if (is_some_and (fun cutoff => negb (cutoff =? expire_before_ms snapshot))
                            (delta_expire_before_ms (delta s))) InvalidRecoveryHistory ;;?
               mark_used s (pages snapshot) used
           | None => Ok used
           end ;;
  reject_if (existsb negb used) InvalidRecoveryHistory.

(** ** Binding to the enclosing commit *)

Definition genesis_registry (s : RecoverySection) : V3Result unit :=
  snapshot <-? ok_or (snapshot s) InvalidRecoveryHistory ;;
  reject_if
    (negb (len (pages snapshot) =? 0)
     || negb (len (tail snapshot) =? 0)
     || negb (expire_before_ms snapshot =? 0)
     || negb (len (local_pages s) =? 0)
     || bool_decide (is_Some (delta_expire_before_ms (delta s)))
     || bool_decide (is_Some (roll_tail (delta s)))) InvalidRecoveryHistory.

Definition bound_to_parent (s : RecoverySection) (parent : V3CommitParentRef) (point : RecoveryPoint)
    (publish_time_ms : Z) : V3Result unit :=
  let anchor := point_anchor point in
  reject_if
    (negb (anchor_sequence anchor =? parent_sequence parent)
     || negb (bool_decide (anchor_commit_key anchor = parent_commit_key parent))
     || negb (bool_decide (anchor_body_digest anchor = parent_body_digest parent))
     || negb (bool_decide (anchor_version_id anchor = parent_version_id parent))
     || (point_publish_time_ms point >=? publish_time_ms)
     || (protected_until_ms point <=? publish_time_ms)) InvalidRecoveryHistory ;;?
  reject_if (is_some_and (fun snapshot =>
      negb (bool_decide (list.last (tail snapshot) = Some point))
      || existsb (fun r => match location r with
                           | Exact anchor _ _ => anchor_sequence anchor >? parent_sequence parent
                           | ThisSection _ => false
                           end) (pages snapshot)) (snapshot s)) InvalidRecoveryHistory ;;?
  reject_if (existsb (fun local => existsb (fun old =>
      anchor_sequence (point_anchor old) >=? parent_sequence parent) (points local)) (local_pages s))
    InvalidRecoveryHistory.

Definition validate_for_header (s : RecoverySection) (parent : option V3CommitParentRef)
    (publish_time_ms : Z) (is_root : bool) : V3Result unit :=
  section_validate s ;;?
  reject_if
    ((publish_time_ms <? 0)
     || negb (Bool.eqb (bool_decide (is_Some (snapshot s))) is_root)
     || is_some_and (fun cutoff => cutoff >? publish_time_ms) (delta_expire_before_ms (delta s))
     || is_some_and (fun snapshot => expire_before_ms snapshot >? publish_time_ms) (snapshot s))
    InvalidRecoveryHistory ;;?
  match parent, register (delta s) with
  | None, None => if is_root then genesis_registry s else Err InvalidRecoveryHistory
  | Some parent, Some point => bound_to_parent s parent point publish_time_ms
  | _, _ => Err InvalidRecoveryHistory
  end.

Definition validate_for_commit (s : RecoverySection) (parent : option (V3AnchorState * Z * RecoveryPolicy))
    (publish_time_ms : Z) (is_root : bool) (safe_expiry_ms : Z) : V3Result unit :=
  let parent_ref := (fun '(anchor, _, _) => parent_ref_of anchor) <$> parent in
  validate_for_header s parent_ref publish_time_ms is_root ;;?
  reject_if ((safe_expiry_ms <? 0)
             || is_some_and (fun cutoff => cutoff >? safe_expiry_ms) (delta_expire_before_ms (delta s)))
    InvalidRecoveryHistory ;;?
  match parent with
  | Some (anchor, parent_time, policy) =>
      point <-? ok_or (register (delta s)) InvalidRecoveryHistory ;;
      promised <-? promised_until_ms policy publish_time_ms ;;
      reject_if
        (negb (bool_decide (point_anchor point = anchor))
         || negb (point_publish_time_ms point =? parent_time)
         || (protected_until_ms point <? promised)
         || negb (bool_decide (policy_id point = identity policy))) InvalidRecoveryHistory
  | None => Ok tt
  end.

(** ** The transition *)

(** The loop of [normalize_snapshot]: references to this section become exact. *)
Fixpoint normalize_refs (s : RecoverySection) (enclosing : V3AnchorState) (ordinal : Z)
    (l : list RecoveryPageRef) : V3Result (list RecoveryPageRef) :=
  match l with
  | [] => Ok []
  | r :: l' =>
      r' <-? match location r with
             | ThisSection page_index =>
                 local <-? page s page_index ;;
                 verify_page r local ;;?
                 Ok {| location := Exact enclosing ordinal page_index; claims := claims r |}
             | Exact _ _ _ => Ok r
             end ;;
      l'' <-? normalize_refs s enclosing ordinal l' ;;
      Ok (r' :: l'')
  end.

Definition normalize_snapshot (s : RecoverySection) (snapshot : RecoverySnapshot)
    (enclosing : V3AnchorState) (ordinal : Z) : V3Result RecoverySnapshot :=
  validate_anchor enclosing ;;?
  validate_ordinal ordinal ;;?
  refs <-? normalize_refs s enclosing ordinal (pages snapshot) ;;
  let normalized := {| pages := refs; tail := tail snapshot; expire_before_ms := expire_before_ms snapshot |} in
  validate_normalized normalized ;;?
  Ok normalized.

Definition normalized_snapshot (s : RecoverySection) (enclosing : V3AnchorState) (section_ordinal : Z) :
    V3Result (option RecoverySnapshot) :=
  section_validate s ;;?
  transpose (fun snapshot => normalize_snapshot s snapshot enclosing section_ordinal) (snapshot s).

(** The three changes of a delta, in the order [apply_delta] makes them. *)
Definition apply_expiry (s : RecoverySection) (next : RecoverySnapshot) : V3Result RecoverySnapshot :=
  match delta_expire_before_ms (delta s) with
  | Some cutoff =>
      reject_if (cutoff <? expire_before_ms next) InvalidRecoveryHistory ;;?
      Ok {| pages := List.filter (fun r => maximum_deadline_ms (claims r) >? cutoff) (pages next);
            tail := List.filter (fun p => protected_until_ms p >? cutoff) (tail next);
            expire_before_ms := cutoff |}
  | None => Ok next
  end.

Definition apply_roll (s : RecoverySection) (enclosing : V3AnchorState) (section_ordinal : Z)
    (next : RecoverySnapshot) : V3Result RecoverySnapshot :=
  match roll_tail (delta s) with
  | Some index =>
      local <-? page s index ;;
      reject_if (negb (bool_decide (points local = tail next)) || (len (tail next) =? 0))
        InvalidRecoveryHistory ;;?
      capacity (saturating_succ (len (pages next))) MAX_RECOVERY_PAGES ;;?
      c <-? page_claims local ;;
      Ok {| pages := pages next ++ [{| location := Exact enclosing section_ordinal index; claims := c |}];
            tail := []; expire_before_ms := expire_before_ms next |}
  | None => Ok next
  end.

Definition apply_register (s : RecoverySection) (next : RecoverySnapshot) : V3Result RecoverySnapshot :=
  match register (delta s) with
  | Some point =>
      capacity (saturating_succ (len (tail next))) MAX_RECOVERY_TAIL_RECORDS ;;?
      Ok {| pages := pages next; tail := tail next ++ [point]; expire_before_ms := expire_before_ms next |}
  | None => Ok next
  end.

Definition apply_delta (s : RecoverySection) (previous : RecoverySnapshot) (enclosing : V3AnchorState)
    (section_ordinal : Z) : V3Result RecoverySnapshot :=
  section_validate s ;;?
  validate_normalized previous ;;?
  validate_anchor enclosing ;;?
  validate_ordinal section_ordinal ;;?
  reject_if (is_some_and (fun point =>
      negb (bool_decide (Sequence_checked_next (anchor_sequence (point_anchor point)) = Some (anchor_sequence enclosing))))
    (register (delta s))) InvalidRecoveryHistory ;;?
  next <-? apply_expiry s previous ;;
  next <-? apply_roll s enclosing section_ordinal next ;;
  next <-? apply_register s next ;;
  validate_normalized next ;;?
  match snapshot s with
  | Some snapshot =>
      normalized <-? normalize_snapshot s snapshot enclosing section_ordinal ;;
      reject_if (negb (bool_decide (normalized = next))) InvalidRecoveryHistory
  | None => Ok tt
  end ;;?
  Ok next.
End RecoveryHistory.
