(* ===== verification/CommitRead.v ===== *)
(** * Reading verified commits (crates/rs3-repository/src/v3/repository.rs)

    A commit store works on an object store it does not trust and an anchor
    that names the accepted head.  This file holds its state and the read
    path: signed headers, digested sections, and the chain from the head to
    the nearest root. *)

From S2P Require Import Prelude Effects Ord Text Types Storage External Keyring V3Wire ObjectKeys Commit Format.
From S2P Require Import Anchor RecoveryPolicy RecoveryHistory StoreTypes.
Open Scope Z_scope.
Import V3 Keys.

(** ** The anchor *)

(** [V3CommitAnchor]. *)
Class V3CommitAnchor (An : Type) : Type := {
  read_v3 : IO An V3FormatError (option V3AnchorState);
  compare_and_advance_v3 : option V3AnchorState -> V3AnchorState -> IO An V3FormatError V3AnchorState;
  fence_and_read_v3 : IO An V3FormatError (option V3AnchorState)
}.

(** [V3MemoryAnchor]. *)
Record V3MemoryAnchor : Type := {
  memory_anchor : option V3AnchorState
}.

Definition memory_read_v3 : IO V3MemoryAnchor V3FormatError (option V3AnchorState) := fun a => (Ok (memory_anchor a), a).

Definition memory_compare_and_advance_v3 (expected : option V3AnchorState) (next : V3AnchorState) :
    IO V3MemoryAnchor V3FormatError V3AnchorState := fun a =>
  if negb (bool_decide (memory_anchor a = expected)) then (Err StaleAnchor, a)
  else if match memory_anchor a with
          | Some current => anchor_sequence next <=? anchor_sequence current
          | None => false
          end then (Err StaleAnchor, a)
  else (Ok next, {| memory_anchor := Some next |}).

#[export] Instance memory_commit_anchor : V3CommitAnchor V3MemoryAnchor := {|
  read_v3 := memory_read_v3;
  compare_and_advance_v3 := memory_compare_and_advance_v3;
  fence_and_read_v3 := memory_read_v3
|}.

(** ** The state of a commit store *)

(** The store, the anchor, the cache of verified publication times (oldest
    first), the payload objects being uploaded, and the system clock and random
    source as the sequences of what they will return: the milliseconds since the
    epoch, [None] before it, and the random bytes, [None] when the source fails. *)
Record World (St An : Type) : Type := {
  w_store : St;
  w_anchor : An;
  verified_publication_times : list (V3AnchorState * Z * bool);
  inflight_standalone_objects : BTreeSet text;
  clock : nat -> option Z;           (* u128 *)
  ticks : nat;
  random : nat -> option (list byte);
  draws : nat
}.
Arguments w_store {St An}.
Arguments w_anchor {St An}.
Arguments verified_publication_times {St An}.
Arguments inflight_standalone_objects {St An}.
Arguments clock {St An}.
Arguments ticks {St An}.
Arguments random {St An}.
Arguments draws {St An}.

Section Read.
Context {St An : Type} `{BlobStore St} `{V3CommitAnchor An} `{Primitives}.
Context (options : V3CommitStoreOptions) (keyring : KeyRing).

Abbreviation W := (World St An).
Abbreviation VIO A := (IO W V3FormatError A).

Definition set_store (s : St) (w : W) : W :=
  {| w_store := s; w_anchor := w_anchor w; verified_publication_times := verified_publication_times w;
     inflight_standalone_objects := inflight_standalone_objects w; clock := clock w; ticks := ticks w;
     random := random w; draws := draws w |}.

Definition set_anchor (a : An) (w : W) : W :=
  {| w_store := w_store w; w_anchor := a; verified_publication_times := verified_publication_times w;
     inflight_standalone_objects := inflight_standalone_objects w; clock := clock w; ticks := ticks w;
     random := random w; draws := draws w |}.

Definition set_times (t : list (V3AnchorState * Z * bool)) (w : W) : W :=
  {| w_store := w_store w; w_anchor := w_anchor w; verified_publication_times := t;
     inflight_standalone_objects := inflight_standalone_objects w; clock := clock w; ticks := ticks w;
     random := random w; draws := draws w |}.

Definition set_inflight (i : BTreeSet text) (w : W) : W :=
  {| w_store := w_store w; w_anchor := w_anchor w; verified_publication_times := verified_publication_times w;
     inflight_standalone_objects := i; clock := clock w; ticks := ticks w; random := random w; draws := draws w |}.

Definition on_store {E A} (m : IO St E A) : IO W E A := io_on w_store set_store m.
Definition on_anchor {A} (m : IO An V3FormatError A) : VIO A := io_on w_anchor set_anchor m.

(** A storage call whose error becomes [e]. *)
Definition store_call {A} (e : V3FormatError) (m : IO St StorageError A) : VIO A :=
  io_map_err (fun _ => e) (on_store m).

Definition publication_now_ms : VIO Z := fun w =>
  (Ok (match clock w (ticks w) with
       | Some elapsed => if elapsed <=? i64_max then elapsed else i64_max
       | None => -1
       end),
   {| w_store := w_store w; w_anchor := w_anchor w; verified_publication_times := verified_publication_times w;
      inflight_standalone_objects := inflight_standalone_objects w; clock := clock w; ticks := S (ticks w);
      random := random w; draws := draws w |}).

Definition draw : VIO (option (list byte)) := fun w =>
  (Ok (random w (draws w)),
   {| w_store := w_store w; w_anchor := w_anchor w; verified_publication_times := verified_publication_times w;
      inflight_standalone_objects := inflight_standalone_objects w; clock := clock w; ticks := ticks w;
      random := random w; draws := S (draws w) |}).

Definition no_limit (limits : V3ReplayLimits) : bool :=
  (max_commits limits =? 0) || (max_total_commit_bytes limits =? 0) || (max_retained_bytes limits =? 0)
  || (read_chunk_bytes limits =? 0).

(** ** Payload objects in flight *)

Definition claim_inflight_standalone_object (object_id : text) : VIO unit := fun w =>
  let '(fresh, roots) := bs_insert object_id (inflight_standalone_objects w) in
  if fresh then (Ok tt, set_inflight roots w) else (Err InvalidHeaderField, w).

(** [Drop] of the claim. *)
Definition release_inflight_standalone_object (object_id : text) (w : W) : W :=
  set_inflight (bt_remove object_id (inflight_standalone_objects w)) w.

Definition is_inflight_standalone_object (object_id : text) : VIO bool := fun w =>
  (Ok (bs_mem object_id (inflight_standalone_objects w)), w).

(** ** Headers and ranges *)

Definition unversioned (version_id : option text) : bool :=
  bool_decide (opt_provider_profile options = RetainedVersionObjectLock) && bool_decide (version_id = None).

Definition read_commit_header_at (object_id : text) (version_id : option text) : VIO V3ParsedCommitHeader :=
  io_of (reject_if (unversioned version_id) InvalidHeaderField) ;;~
  prefix <~ store_call StorageOperationFailed (get_range_at object_id version_id (Slice 0 V3_HEADER_META_LEN)) ;;
  header_span_len <~ io_of (v3_commit_header_span_len prefix) ;;
  header_bytes <~
    (if header_span_len =? V3_HEADER_META_LEN then io_ret prefix
     else
       remaining_len <~ io_of (ok_or (checked_sub header_span_len V3_HEADER_META_LEN) HeaderTooLarge) ;;
       remaining <~ store_call StorageOperationFailed
                      (get_range_at object_id version_id (Slice V3_HEADER_META_LEN remaining_len)) ;;
       io_ret (prefix ++ remaining)) ;;
  parsed <~ io_of (parse_v3_commit_header object_id header_bytes keyring) ;;
  io_of (validate_parent_time None (publish_time_ms (parsed_header_ parsed))) ;;~
  io_ret parsed.

Definition read_commit_range_at (object_id : text) (version_id : option text) (range : ByteRange) : VIO (list byte) :=
  io_of (reject_if (unversioned version_id) InvalidHeaderField) ;;~
  store_call StorageOperationFailed (get_range_at object_id version_id range).

(** ** The cache of verified publication times *)

(** [iter().position(|(candidate, _, _)| candidate == anchor)]. *)
Definition is_entry (anchor : V3AnchorState) (entry : V3AnchorState * Z * bool) : bool :=
  bool_decide (entry.1.1 = anchor).

Fixpoint remove_entry (anchor : V3AnchorState) (cache : list (V3AnchorState * Z * bool)) :
    list (V3AnchorState * Z * bool) :=
  match cache with
  | [] => []
  | entry :: cache' => if is_entry anchor entry then cache' else entry :: remove_entry anchor cache'
  end.

(** [while cache.len() > N { cache.pop_front() }]. *)
Definition keep_last {A} (n : Z) (l : list A) : list A := skipn (Z.to_nat (len l - n)) l.

Definition remember_verified_publication_time (anchor : V3AnchorState) (time : Z) (has_recovery : bool) : VIO unit :=
  io_of (validate_parent_time None time) ;;~
  (fun w =>
     let cache := remove_entry anchor (verified_publication_times w) ++ [(anchor, time, has_recovery)] in
     (Ok tt, set_times (keep_last VERIFIED_PUBLICATION_TIME_CACHE_ENTRIES cache) w)).

Definition cached_facts (anchor : V3AnchorState) : VIO (option (Z * bool)) := fun w =>
  match List.find (is_entry anchor) (verified_publication_times w) with
  | Some entry =>
      (Ok (Some (entry.1.2, entry.2)),
       set_times (remove_entry anchor (verified_publication_times w) ++ [entry]) w)
  | None => (Ok None, w)
  end.

Definition verified_parent_header_facts (anchor : V3AnchorState) : VIO (Z * bool) :=
  cached <~ cached_facts anchor ;;
  match cached with
  | Some facts => io_ret facts
  | None =>
      parsed <~ read_commit_header_at (anchor_commit_key anchor) (anchor_version_id anchor) ;;
      let header := parsed_header_ parsed in
      io_of (reject_if
        (negb (self_sequence (self_ref header) =? anchor_sequence anchor)
         || negb (bool_decide (body_digest header = anchor_body_digest anchor))
         || negb (bool_decide (signing_key_id header = anchor_signing_key_id anchor))) StaleAnchor) ;;~
      remember_verified_publication_time anchor (publish_time_ms header) (has_recovery header) ;;~
      io_ret (publish_time_ms header, has_recovery header)
  end.

Definition verified_parent_publish_time (anchor : V3AnchorState) : VIO Z :=
  '(time, _) <~ verified_parent_header_facts anchor ;; io_ret time.

(** ** Sections *)

(** The loop that reads [remaining] bytes from [offset] in chunks; [fuel]
    bounds the number of chunks. *)
Fixpoint read_chunks (fuel : nat) (object_id : text) (version_id : option text) (offset remaining chunk : Z) :
    VIO (list byte) :=
  if remaining <=? 0 then io_ret []
  else
    match fuel with
    | O => io_fail TruncatedBody
    | S fuel' =>
        let read_len := Z.min remaining chunk in
        bytes <~ read_commit_range_at object_id version_id (Slice offset read_len) ;;
        io_of (reject_if (negb (len bytes =? read_len)) TruncatedBody) ;;~
        offset <~ io_of (ok_or (checked_add offset read_len) SectionBounds) ;;
        rest <~ read_chunks fuel' object_id version_id offset (remaining - read_len) chunk ;;
        io_ret (bytes ++ rest)
    end.

(** One chunk for every [chunk] bytes. *)
Definition chunk_count (remaining chunk : Z) : nat := Z.to_nat (div_ceil remaining chunk).

(** The bytes of a section, checked against its digest. *)
Definition read_section (object_id : text) (version_id : option text) (sections_start : Z) (chunk : Z)
    (section : V3SectionDescriptor) : VIO (list byte) :=
  offset <~ io_of (ok_or (checked_add sections_start (section_offset section)) SectionBounds) ;;
  bytes <~ read_chunks (chunk_count (section_length section) chunk) object_id version_id offset
             (section_length section) chunk ;;
  io_of (reject_if (negb (bool_decide (sha256 bytes = section_digest section))) SectionDigestMismatch) ;;~
  io_ret bytes.

Definition is_retained_type (t : V3SectionType) : bool :=
  match t with
  | IndexRun | IndexRoot | Recovery => true
  | _ => false
  end.

(** The loop of [verify_replay_sections]; it returns the retained sections and
    the new total. *)
Fixpoint verify_replay_sections_loop (object_id : text) (version_id : option text) (sections_start : Z)
    (limits : V3ReplayLimits) (pending_limit : Z) (sections : list V3SectionDescriptor) (retained_bytes : Z) :
    VIO (list (option (list byte)) * Z) :=
  match sections with
  | [] => io_ret ([], retained_bytes)
  | section :: sections' =>
      if negb (is_retained_type (section_type section)) then
        '(rest, total) <~ verify_replay_sections_loop object_id version_id sections_start limits pending_limit
                            sections' retained_bytes ;;
        io_ret (None :: rest, total)
      else
        io_of (reject_if (is_section Recovery section
                          && (section_length section >? MAX_RECOVERY_SECTION_BYTES)) RecoveryHistoryCapacity) ;;~
        total <~ io_of (ok_or (match checked_add retained_bytes (section_length section) with
                               | Some total => if total <=? max_retained_bytes limits then Some total else None
                               | None => None
                               end) ReplayBudgetExceeded) ;;
        io_of (reject_if (match checked_add total (Z.min (section_length section) (read_chunk_bytes limits)) with
                          | Some bytes => bytes >? pending_limit
                          | None => true
                          end) MaintenanceBudgetExceeded) ;;~
        bytes <~ read_section object_id version_id sections_start (read_chunk_bytes limits) section ;;
        '(rest, total) <~ verify_replay_sections_loop object_id version_id sections_start limits pending_limit
                            sections' total ;;
        io_ret (Some bytes :: rest, total)
  end.

Definition verify_replay_sections (object_id : text) (version_id : option text) (parsed_header : V3ParsedCommitHeader)
    (retained_bytes : Z) (limits : V3ReplayLimits) (pending_limit : Z) : VIO (list (option (list byte)) * Z) :=
  verify_replay_sections_loop object_id version_id (sections_start parsed_header) limits pending_limit
    (section_index (parsed_header_ parsed_header)) retained_bytes.

(** The loop of [verify_full_commit_sections]; [hashed] is what has been fed
    to the body digest. *)
Fixpoint verify_full_loop (object_id : text) (version_id : option text) (sections_start chunk : Z)
    (sections : list V3SectionDescriptor) (hashed : list byte) : VIO (list byte) :=
  match sections with
  | [] => io_ret hashed
  | section :: sections' =>
      bytes <~ read_section object_id version_id sections_start chunk section ;;
      verify_full_loop object_id version_id sections_start chunk sections' (hashed ++ bytes)
  end.

Definition verify_full_commit_sections (object_id : text) (version_id : option text)
    (parsed_header : V3ParsedCommitHeader) : VIO unit :=
  let chunk_len := read_chunk_bytes (opt_replay_limits options) in
  io_of (reject_if (chunk_len =? 0) ReplayBudgetExceeded) ;;~
  hashed <~ verify_full_loop object_id version_id (sections_start parsed_header) chunk_len
              (section_index (parsed_header_ parsed_header)) [] ;;
  io_of (reject_if (negb (bool_decide (sha256 hashed = body_digest (parsed_header_ parsed_header))))
           BodyDigestMismatch).

Definition read_commit_facts_at (object_id : text) (version_id : option text) : VIO V3ReplayCommit :=
  let limits := opt_replay_limits options in
  io_of (reject_if (no_limit limits) ReplayBudgetExceeded) ;;~
  metadata <~ store_call StorageOperationFailed (head_at object_id version_id) ;;
  io_of (reject_if (content_len metadata >? max_total_commit_bytes limits) ReplayBudgetExceeded) ;;~
  io_of (reject_if (negb (bool_decide (meta_object_id metadata = object_id))
                    || (bool_decide (is_Some version_id) && negb (bool_decide (meta_version_id metadata = version_id))))
           ProviderProfileFailed) ;;~
  parsed_header <~ read_commit_header_at object_id version_id ;;
  io_of (validate_v3_commit_object_len parsed_header (content_len metadata)) ;;~
  io_ret {| replay_header := parsed_header; replay_version_id := version_id;
            replay_object_len := content_len metadata;
            retained_sections := List.repeat None (length (section_index (parsed_header_ parsed_header))) |}.

Definition V3_INDEX_RUN_MAX_OBJECT_BYTES : Z := 8 * 1024 * 1024.
Definition V3_INDEX_ROOT_MAX_BYTES : Z := 8 * 1024 * 1024.

Definition metadata_section_buffer_bytes (length read_chunk : Z) : V3Result Z :=
  reject_if (read_chunk =? 0) ReplayBudgetExceeded ;;?
  ok_or (checked_add length (Z.min length read_chunk)) MaintenanceBudgetExceeded.

Definition read_metadata_section (commit : V3ReplayCommit) (ordinal pending_limit : Z) : VIO (list byte) :=
  let header := parsed_header_ (replay_header commit) in
  descriptor <~ io_of (ok_or (section_index header !! Z.to_nat ordinal) SectionBounds) ;;
  format_limit <~ io_of (match section_type descriptor with
                         | IndexRun => Ok V3_INDEX_RUN_MAX_OBJECT_BYTES
                         | IndexRoot => Ok V3_INDEX_ROOT_MAX_BYTES
                         | Recovery => Ok MAX_RECOVERY_SECTION_BYTES
                         | _ => Err UnsupportedSection
                         end) ;;
  let chunk := read_chunk_bytes (opt_replay_limits options) in
  io_of (reject_if (is_section Recovery descriptor && (section_length descriptor >? format_limit))
           RecoveryHistoryCapacity) ;;~
  buffer <~ io_of (metadata_section_buffer_bytes (section_length descriptor) chunk) ;;
  io_of (reject_if ((buffer >? pending_limit) || (section_length descriptor >? format_limit))
           MaintenanceBudgetExceeded) ;;~
  read_section (self_commit_key (self_ref header)) (replay_version_id commit)
    (sections_start (replay_header commit)) chunk descriptor.

Definition read_replay_commit_at (object_id : text) (version_id : option text) : VIO V3ReplayCommit :=
  commit <~ read_commit_facts_at object_id version_id ;;
  '(retained, _) <~ verify_replay_sections object_id version_id (replay_header commit) 0
                      (opt_replay_limits options) u64_max ;;
  io_ret {| replay_header := replay_header commit; replay_version_id := replay_version_id commit;
            replay_object_len := replay_object_len commit; retained_sections := retained |}.

Definition read_commit_from_anchor_state (state : V3AnchorState) : VIO V3ReplayCommit :=
  parsed <~ read_replay_commit_at (anchor_commit_key state) (anchor_version_id state) ;;
  let header := parsed_header_ (replay_header parsed) in
  io_of (reject_if (negb (self_sequence (self_ref header) =? anchor_sequence state)) SelfKeyMismatch) ;;~
  io_of (reject_if (negb (bool_decide (body_digest header = anchor_body_digest state))) BodyDigestMismatch) ;;~
  io_ret parsed.

Definition read_anchor_head : VIO (option V3ReplayCommit) :=
  state <~ on_anchor read_v3 ;;
  match state with
  | None => io_ret None
  | Some state => commit <~ read_commit_from_anchor_state state ;; io_ret (Some commit)
  end.

(** ** The replay chain *)

(** What the loop of [load_replay_chain_with_pending_limit] carries. *)
Record ChainLoop : Type := {
  next_key : text;
  next_version_id : option text;
  next_digest : list byte;
  next_sequence : Z;
  seen_keys : BTreeSet text;
  total_commit_bytes : Z;
  total_retained : Z;
  child_publish_time : option Z
}.

(** The loop; [left_] is how many commits [max_commits] still allows. *)
Fixpoint load_chain_loop (left_ : nat) (limits : V3ReplayLimits) (pending_limit : Z) (c : ChainLoop) :
    VIO (list V3ReplayCommit) :=
  match left_ with
  | O => io_fail ReplayBudgetExceeded
  | S left' =>
      let '(fresh, seen) := bs_insert (next_key c) (seen_keys c) in
      io_of (reject_if (negb fresh) StaleAnchor) ;;~
      metadata <~ store_call StorageOperationFailed (head_at (next_key c) (next_version_id c)) ;;
      total <~ io_of (ok_or (match checked_add (total_commit_bytes c) (content_len metadata) with
                             | Some total => if total <=? max_total_commit_bytes limits then Some total else None
                             | None => None
                             end) ReplayBudgetExceeded) ;;
      parsed_header <~ read_commit_header_at (next_key c) (next_version_id c) ;;
      let header := parsed_header_ parsed_header in
      io_of (reject_if (negb (self_sequence (self_ref header) =? next_sequence c)) SelfKeyMismatch) ;;~
      io_of (reject_if (negb (bool_decide (body_digest header = next_digest c))) BodyDigestMismatch) ;;~
      io_of (validate_v3_commit_object_len parsed_header (content_len metadata)) ;;~
      io_of (match child_publish_time c with
             | Some child_time => validate_parent_time (Some (publish_time_ms header)) child_time
             | None => Ok tt
             end) ;;~
      '(retained, retained_bytes) <~ verify_replay_sections (next_key c) (next_version_id c) parsed_header
                                       (total_retained c) limits pending_limit ;;
      let commit := {| replay_header := parsed_header; replay_version_id := next_version_id c;
                       replay_object_len := content_len metadata; retained_sections := retained |} in
      if bool_decide (kind header = Root) then io_ret [commit]
      else
        match parent header with
        | None => io_fail InvalidHeaderField
        | Some parent =>
            rest <~ load_chain_loop left' limits pending_limit
                      {| next_key := parent_commit_key parent; next_version_id := parent_version_id parent;
                         next_digest := parent_body_digest parent; next_sequence := parent_sequence parent;
                         seen_keys := seen; total_commit_bytes := total; total_retained := retained_bytes;
                         child_publish_time := Some (publish_time_ms header) |} ;;
            io_ret (commit :: rest)
        end
  end.

Definition chain_from (anchor_state : V3AnchorState) : ChainLoop :=
  {| next_key := anchor_commit_key anchor_state; next_version_id := anchor_version_id anchor_state;
     next_digest := anchor_body_digest anchor_state; next_sequence := anchor_sequence anchor_state;
     seen_keys := []; total_commit_bytes := 0; total_retained := 0; child_publish_time := None |}.

Definition load_replay_chain_with_pending_limit (anchor_state : V3AnchorState) (limits : V3ReplayLimits)
    (pending_limit : Z) : VIO V3ReplayChain :=
  io_of (reject_if (no_limit limits) ReplayBudgetExceeded) ;;~
  commits <~ load_chain_loop (Z.to_nat (max_commits limits)) limits pending_limit (chain_from anchor_state) ;;
  head <~ io_of (ok_or (hd_error commits) MissingAnchor) ;;
  let header := parsed_header_ (replay_header head) in
  io_of (reject_if (negb (bool_decide (signing_key_id header = anchor_signing_key_id anchor_state))) StaleAnchor) ;;~
  remember_verified_publication_time anchor_state (publish_time_ms header) (has_recovery header) ;;~
  io_ret {| commits_newest_first := commits |}.

Definition load_replay_chain_from_state_with_limits (anchor_state : V3AnchorState) (limits : V3ReplayLimits) :
    VIO V3ReplayChain :=
  load_replay_chain_with_pending_limit anchor_state limits u64_max.

Definition load_replay_chain_from_state (anchor_state : V3AnchorState) : VIO V3ReplayChain :=
  load_replay_chain_from_state_with_limits anchor_state (opt_replay_limits options).

Definition load_replay_chain_from_anchor : VIO (option V3ReplayChain) :=
  anchor_state <~ on_anchor read_v3 ;;
  match anchor_state with
  | None => io_ret None
  | Some anchor_state => chain <~ load_replay_chain_from_state anchor_state ;; io_ret (Some chain)
  end.
End Read.
