(* ===== verification/CommitWrite.v ===== *)
(** * Publishing commits (crates/rs3-repository/src/v3/repository.rs)

    The write path of the commit store: a child commit is built, signed and
    uploaded under a fresh random key, checked against the provider profile, and
    only then offered to the anchor; a commit that was uploaded but never
    anchored is adopted, and a lost anchor is recreated from a recovery bundle. *)

From Stdlib Require Import Strings.String.
From S2P Require Import Prelude Effects Ord Text Types Storage External Keyring V3Wire ObjectKeys Commit Format.
From S2P Require Import Anchor RecoveryPolicy RecoveryHistory StoreTypes CommitRead.
Open Scope Z_scope.
Import V3 Keys.

Definition V3_COMMIT_CONTENT_TYPE : text := bytes_of_string "application/vnd.rs3.commit.v3".

(** [V3WritePostconditions::commit]; the stored digest is only expected of
    payload objects. *)
Record V3WritePostconditions : Type := {
  expected_object_len : Z;                  (* u64 *)
  required_retention : option RetentionPolicy;
  required_retain_until_ms : option Z;      (* i64 *)
  required_legal_hold : option LegalHoldStatus
}.

Record V3RecoveryBundle : Type := {
  bundle_repository_id : option text;
  repository_salt_digest : option (list byte);
  bundle_anchor : V3AnchorState;
  weak_subjectivity_floor_sequence : Z;     (* u64 *)
  exported_at_ms : Z;                       (* i64 *)
  offline_signature : option (list byte)
}.

Definition strongest_legal_hold (left_ right_ : option LegalHoldStatus) : option LegalHoldStatus :=
  if bool_decide (left_ = Some On) || bool_decide (right_ = Some On) then Some On
  else match left_ with
       | Some hold => Some hold
       | None => right_
       end.

Section Write.
Context {St An : Type} `{BlobStore St} `{V3CommitAnchor An} `{Primitives}.
Context (options : V3CommitStoreOptions) (keyring : KeyRing).

Abbreviation W := (World St An).
Abbreviation VIO A := (IO W V3FormatError A).

(** ** Building a commit *)

Definition validate_write_protection_profile (retention : option RetentionPolicy)
    (legal_hold : option LegalHoldStatus) : V3Result unit :=
  reject_if (bool_decide (legal_hold = Some On)) ProviderProfileFailed ;;?
  let active_retention :=
    match retention with
    | Some policy => negb (bool_decide (mode policy = RetentionNone)) && (retain_days policy >? 0)
    | None => false
    end in
  reject_if (active_retention && negb (bool_decide (opt_provider_profile options = RetainedVersionObjectLock)))
    ProviderProfileFailed.

(** The loop of [build_section_region]; [region] is what precedes. *)
Fixpoint build_section_region_loop (region : list byte) (sections : list V3CommitSection) :
    list V3SectionDescriptor * list byte :=
  match sections with
  | [] => ([], region)
  | section :: sections' =>
      let '(index, whole) := build_section_region_loop (region ++ cs_bytes section) sections' in
      ({| section_type := cs_section_type section; section_offset := len region;
          section_length := len (cs_bytes section); section_flags := cs_flags section;
          section_digest := digest_v3_section (cs_bytes section) |} :: index, whole)
  end.

Definition build_section_region (sections : list V3CommitSection) : list V3SectionDescriptor * list byte :=
  build_section_region_loop [] sections.

Definition build_header (commit_key : V3CommitKey) (parent : option V3CommitParentRef) (write : V3CommitWrite)
    (section_index : list V3SectionDescriptor) (body_digest : list byte) (publish_time_ms : Z) :
    V3Result V3CommitHeader :=
  signing_key_id <-? map_err (fun _ => CryptoOperation) (primary_key_id keyring CheckpointSigning) ;;
  let header :=
    {| self_ref := {| self_sequence := sequence commit_key; self_commit_key := object_id commit_key |};
       parent := parent; publish_time_ms := publish_time_ms; kind := write_kind write;
       algorithms := V3Algorithms_v03; keyring_envelope_ref := opt_keyring_envelope_ref options;
       section_index := section_index; body_digest := body_digest; header_signature := List.repeat x00 64;
       signing_key_id := signing_key_id |} in
  validate_commit_section_semantics header ;;?
  sign_with_keyring header keyring.

(** ** Uploading and checking it *)

Definition put_commit_object (object_id : text) (body : list byte) (retention : option RetentionPolicy)
    (legal_hold : option LegalHoldStatus) : IO W StorageError BlobMetadata :=
  (if bool_decide (opt_provider_profile options = RetainedVersionObjectLock) then
     found <~ io_try (on_store (head object_id)) ;;
     match found with
     | Ok _ => io_fail (AlreadyExists object_id)
     | Err (NotFound _) => io_ret tt
     | Err error => io_fail error
     end
   else io_ret tt) ;;~
  on_store (put object_id body
    {| put_retention := retention; put_legal_hold := legal_hold;
       put_content_type := Some V3_COMMIT_CONTENT_TYPE;
       do_not_recreate := negb (bool_decide (opt_provider_profile options = RetainedVersionObjectLock)) |}).

Definition verify_commit_protection_postconditions (object_id : text) (metadata : BlobMetadata)
    (postconditions : V3WritePostconditions) : VIO BlobMetadata :=
  io_of (reject_if (negb (content_len metadata =? expected_object_len postconditions)
                    || (expected_object_len postconditions =? 0)) ProviderProfileFailed) ;;~
  exact <~ store_call ProviderProfileFailed (head_at object_id (meta_version_id metadata)) ;;
  io_of (reject_if (negb (bool_decide (meta_object_id exact = object_id))
                    || negb (bool_decide (meta_version_id exact = meta_version_id metadata))
                    || negb (content_len exact =? expected_object_len postconditions)) ProviderProfileFailed) ;;~
  io_of (reject_if (match required_retain_until_ms postconditions with
                    | Some required => match retain_until_ms exact with
                                       | Some actual => actual <? required
                                       | None => true
                                       end
                    | None => false
                    end) ProviderProfileFailed) ;;~
  match opt_provider_profile options with
  | Dev | AtomicCreate => io_ret exact
  | RetainedVersionObjectLock =>
      io_of (reject_if (bool_decide (required_retention postconditions = None)
                        && negb (bool_decide (required_legal_hold postconditions = Some On)))
               ProviderProfileFailed) ;;~
      io_of (reject_if (bool_decide (meta_version_id exact = None)) ProviderProfileFailed) ;;~
      io_of (reject_if (match required_retention postconditions with
                        | Some retention => negb (retention_satisfies (meta_retention exact) retention)
                        | None => false
                        end) ProviderProfileFailed) ;;~
      io_of (reject_if (bool_decide (required_legal_hold postconditions = Some On)
                        && negb (bool_decide (meta_legal_hold exact = Some On))) ProviderProfileFailed) ;;~
      io_ret exact
  end.

Definition verify_commit_postconditions (object_id : text) (metadata : BlobMetadata)
    (postconditions : V3WritePostconditions) : VIO BlobMetadata :=
  exact <~ verify_commit_protection_postconditions object_id metadata postconditions ;;
  visible <~ store_call ProviderProfileFailed (get_range_at object_id (meta_version_id exact) (Slice 0 1)) ;;
  io_of (reject_if (negb (len visible =? 1)) ProviderProfileFailed) ;;~
  io_ret exact.

Definition verify_existing_commit_postconditions (object_id : text) (version_id : option text) : VIO (option Z) :=
  match opt_provider_profile options with
  | Dev | AtomicCreate => io_ret None
  | RetainedVersionObjectLock =>
      io_of (reject_if (bool_decide (opt_retention options = None)
                        && negb (bool_decide (opt_legal_hold options = Some On))) ProviderProfileFailed) ;;~
      match version_id with
      | None => io_fail ProviderProfileFailed
      | Some version =>
          metadata <~ store_call ProviderProfileFailed (head_at object_id (Some version)) ;;
          io_of (reject_if (negb (bool_decide (meta_object_id metadata = object_id))
                            || negb (bool_decide (meta_version_id metadata = Some version))
                            || (content_len metadata =? 0)) ProviderProfileFailed) ;;~
          io_of (reject_if (match opt_retention options with
                            | Some retention => negb (retention_satisfies (meta_retention metadata) retention)
                            | None => false
                            end) ProviderProfileFailed) ;;~
          store_call ProviderProfileFailed (get_range_at object_id (Some version) (Slice 0 1)) ;;~
          io_ret (retain_until_ms metadata)
      end
  end.

(** ** Publishing it *)

(** The publication time of a write. *)
Definition select_publish_time (parent_time selected_time : option Z) : VIO Z :=
  match selected_time with
  | Some chosen =>
      io_of (validate_parent_time parent_time chosen) ;;~
      now <~ publication_now_ms ;;
      io_of (validate_publication_time now chosen) ;;~
      io_ret chosen
  | None =>
      now <~ publication_now_ms ;;
      io_of (choose_publish_time now parent_time)
  end.

(** What follows a successful upload: the checks of the stored version, the
    cache, and the offer to the anchor. *)
Definition anchor_upload (expected : option V3AnchorState) (sequence_ publish_time_ms : Z) (commit_key : V3CommitKey)
    (section_index : list V3SectionDescriptor) (body_digest : list byte) (signing_key_id : text) (sections_start : Z)
    (metadata : BlobMetadata) (postconditions : V3WritePostconditions) : VIO V3StoredCommit :=
  verified <~ verify_commit_postconditions (object_id commit_key) metadata postconditions ;;
  let anchor_state :=
    {| anchor_sequence := sequence_; anchor_commit_key := object_id commit_key;
       anchor_body_digest := body_digest; anchor_version_id := meta_version_id verified;
       anchor_signing_key_id := signing_key_id; anchor_format_ref := opt_format_ref options |} in
  remember_verified_publication_time anchor_state publish_time_ms (existsb (is_section Recovery) section_index) ;;~
  on_anchor (compare_and_advance_v3 expected anchor_state) ;;~
  io_ret {| verified_retain_until_ms := retain_until_ms verified; stored_publish_time_ms := publish_time_ms;
            stored_anchor_state := anchor_state; stored_commit_key := commit_key;
            stored_version_id := meta_version_id verified;
            stored_object_len := expected_object_len postconditions;
            stored_sections_start := sections_start |}.

(** The attempts of [write_commit_with_expected_anchor_builder]. *)
Fixpoint write_attempts (attempts : nat) (last_collision : bool) (expected : option V3AnchorState) (sequence_ : Z)
    (publish_time_ms : Z) (build : V3CommitKey -> V3Result V3CommitWrite) : VIO V3StoredCommit :=
  match attempts with
  | O => io_fail (if last_collision then RandomnessUnavailable else StorageOperationFailed)
  | S attempts' =>
      random_id <~ draw ;;
      commit_key <~ io_of (generate_v3_commit_key random_id sequence_) ;;
      write <~ io_of (build commit_key) ;;
      now <~ publication_now_ms ;;
      commit_retention <~ io_of (physical_retention_for_deadline
                                   (strongest_retention_policy (opt_retention options) (write_retention_policy write))
                                   (write_required_retain_until_ms write) now) ;;
      let commit_legal_hold := strongest_legal_hold (opt_legal_hold options) (write_legal_hold write) in
      io_of (validate_write_protection_profile commit_retention commit_legal_hold) ;;~
      let '(section_index, section_region) := build_section_region (write_sections write) in
      body_digest <~ io_of (body_digest_for_v3_sections section_index section_region) ;;
      header <~ io_of (build_header commit_key (parent_ref_of <$> expected) write section_index body_digest
                         publish_time_ms) ;;
      object_body <~ io_of (encode_object header section_region) ;;
      let object_len := len object_body in
      sections_start <~ io_of (ok_or (checked_sub object_len (len section_region)) SectionBounds) ;;
      put_result <~ io_try (put_commit_object (object_id commit_key) object_body commit_retention commit_legal_hold) ;;
      match put_result with
      | Err (AlreadyExists _) => write_attempts attempts' true expected sequence_ publish_time_ms build
      | Err _ => io_fail StorageOperationFailed
      | Ok metadata =>
          anchor_upload expected sequence_ publish_time_ms commit_key section_index body_digest
            (signing_key_id header) sections_start metadata
            {| expected_object_len := object_len; required_retention := commit_retention;
               required_retain_until_ms := write_required_retain_until_ms write;
               required_legal_hold := commit_legal_hold |}
      end
  end.

Definition write_commit_with_expected_anchor_builder (expected : option V3AnchorState) (sequence_ : Z)
    (selected_time : option Z) (build : V3CommitKey -> V3Result V3CommitWrite) : VIO V3StoredCommit :=
  parent_time <~ match expected with
                 | Some anchor => time <~ verified_parent_publish_time options keyring anchor ;; io_ret (Some time)
                 | None => io_ret None
                 end ;;
  publish_time_ms <~ select_publish_time parent_time selected_time ;;
  write_attempts MAX_RANDOM_KEY_ATTEMPTS false expected sequence_ publish_time_ms build.

Definition write_commit_with_expected_anchor (expected : option V3AnchorState) (sequence_ : Z)
    (write : V3CommitWrite) : VIO V3StoredCommit :=
  write_commit_with_expected_anchor_builder expected sequence_ None (fun _ => Ok write).

Definition carries_recovery (write : V3CommitWrite) : bool :=
  existsb (fun section => bool_decide (cs_section_type section = Recovery)) (write_sections write).

(** What [write_child_commit] and [write_child_commit_with] check first. *)
Definition native_parent : VIO (V3AnchorState * Z) :=
  io_of (reject_if (bool_decide (is_Some (opt_recovery_policy options))) InvalidRecoveryHistory) ;;~
  current <~ on_anchor read_v3 ;;
  current <~ io_of (ok_or current MissingAnchor) ;;
  '(_, recovery) <~ verified_parent_header_facts options keyring current ;;
  io_of (reject_if recovery InvalidRecoveryHistory) ;;~
  next_sequence <~ io_of (ok_or (Sequence_checked_next (anchor_sequence current)) InvalidHeaderField) ;;
  io_ret (current, next_sequence).

Definition write_child_commit (write : V3CommitWrite) : VIO V3StoredCommit :=
  '(current, next_sequence) <~ native_parent ;;
  io_of (reject_if (carries_recovery write) InvalidRecoveryHistory) ;;~
  write_commit_with_expected_anchor (Some current) next_sequence write.

Definition write_child_commit_with (build : V3CommitKey -> V3Result V3CommitWrite) : VIO V3StoredCommit :=
  '(current, next_sequence) <~ native_parent ;;
  write_commit_with_expected_anchor_builder (Some current) next_sequence None
    (fun key => write <-? build key ;; reject_if (carries_recovery write) InvalidRecoveryHistory ;;? Ok write).

Definition prepare_child_publication (parent : V3AnchorState) : VIO V3PublicationPlan :=
  parent_time <~ verified_parent_publish_time options keyring parent ;;
  now <~ publication_now_ms ;;
  time <~ io_of (choose_publish_time now (Some parent_time)) ;;
  io_ret {| sampled_now_ms := now; plan_parent := parent; parent_publish_time_ms := parent_time;
            plan_publish_time_ms := time |}.

Definition write_prepared_child_commit_with (plan : V3PublicationPlan)
    (build : V3CommitKey -> V3Result V3CommitWrite) : VIO V3StoredCommit :=
  current <~ on_anchor read_v3 ;;
  io_of (reject_if (negb (bool_decide (current = Some (plan_parent plan)))) StaleAnchor) ;;~
  time <~ verified_parent_publish_time options keyring (plan_parent plan) ;;
  io_of (reject_if (negb (time =? parent_publish_time_ms plan)) StaleAnchor) ;;~
  sequence_ <~ io_of (ok_or (Sequence_checked_next (anchor_sequence (plan_parent plan))) InvalidHeaderField) ;;
  write_commit_with_expected_anchor_builder (Some (plan_parent plan)) sequence_ (Some (plan_publish_time_ms plan)) build.

(** ** Adopting an uploaded commit *)

Definition adopt_unanchored_child (object_id_ : text) (version_id_ : option text) : VIO V3StoredCommit :=
  current <~ on_anchor read_v3 ;;
  current <~ io_of (ok_or current MissingAnchor) ;;
  io_of (reject_if (bool_decide (is_Some (opt_recovery_policy options))) InvalidRecoveryHistory) ;;~
  accepted <~ read_commit_header_at options keyring (anchor_commit_key current) (anchor_version_id current) ;;
  let accepted_header := parsed_header_ accepted in
  io_of (reject_if (negb (bool_decide (body_digest accepted_header = anchor_body_digest current))
                    || negb (self_sequence (self_ref accepted_header) =? anchor_sequence current)
                    || negb (bool_decide (signing_key_id accepted_header = anchor_signing_key_id current)))
           StaleAnchor) ;;~
  io_of (reject_if (has_recovery accepted_header) InvalidRecoveryHistory) ;;~
  parsed <~ read_replay_commit_at options keyring object_id_ version_id_ ;;
  let header := parsed_header_ (replay_header parsed) in
  io_of (reject_if (has_recovery header) InvalidRecoveryHistory) ;;~
  verify_full_commit_sections options object_id_ version_id_ (replay_header parsed) ;;~
  parent <~ io_of (ok_or (parent header) InvalidHeaderField) ;;
  io_of (reject_if (self_sequence (self_ref header) <=? anchor_sequence current) StaleAnchor) ;;~
  io_of (reject_if (negb (parent_sequence parent =? anchor_sequence current)
                    || negb (bool_decide (parent_commit_key parent = anchor_commit_key current))
                    || negb (bool_decide (parent_body_digest parent = anchor_body_digest current))
                    || negb (bool_decide (parent_version_id parent = anchor_version_id current))) StaleAnchor) ;;~
  parent_time <~ verified_parent_publish_time options keyring current ;;
  io_of (validate_parent_time (Some parent_time) (publish_time_ms header)) ;;~
  now <~ publication_now_ms ;;
  io_of (validate_publication_time now (publish_time_ms header)) ;;~
  verified <~ verify_existing_commit_postconditions object_id_ version_id_ ;;
  commit_key <~ io_of (V3CommitKey_parse object_id_) ;;
  let anchor_state :=
    {| anchor_sequence := self_sequence (self_ref header); anchor_commit_key := object_id_;
       anchor_body_digest := body_digest header; anchor_version_id := version_id_;
       anchor_signing_key_id := signing_key_id header; anchor_format_ref := anchor_format_ref current |} in
  remember_verified_publication_time anchor_state (publish_time_ms header) false ;;~
  on_anchor (compare_and_advance_v3 (Some current) anchor_state) ;;~
  io_ret {| verified_retain_until_ms := verified; stored_publish_time_ms := publish_time_ms header;
            stored_anchor_state := anchor_state; stored_commit_key := commit_key;
            stored_version_id := version_id_; stored_object_len := replay_object_len parsed;
            stored_sections_start := sections_start (replay_header parsed) |}.

(** The reply of an advance, settled under a fencing write when it was lost. *)
Definition settle_advance (expected_parent next : V3AnchorState) : VIO unit :=
  advance <~ io_try (on_anchor (compare_and_advance_v3 (Some expected_parent) next)) ;;
  if match advance with Ok accepted => bool_decide (accepted = next) | Err _ => false end then io_ret tt
  else
    observed <~ io_try (on_anchor fence_and_read_v3) ;;
    match observed with
    | Ok (Some accepted) =>
        if bool_decide (accepted = next) then io_ret tt
        else if bool_decide (accepted = expected_parent) then
          io_fail (match advance with Err error => error | Ok _ => StaleAnchor end)
        else io_fail AnchorReconciliationRequired
    | _ => io_fail AnchorReconciliationRequired
    end.

Definition adopt_verified_unanchored_child (expected_parent : V3AnchorState) (uploaded : V3StoredCommit)
    (history_uncertainty_ms : option Z) : VIO V3StoredCommit :=
  current <~ on_anchor read_v3 ;;
  let state := stored_anchor_state uploaded in
  io_of (reject_if (negb (bool_decide (current = Some expected_parent))
                    || negb (bool_decide (Sequence_checked_next (anchor_sequence expected_parent)
                                          = Some (anchor_sequence state)))
                    || negb (sequence (stored_commit_key uploaded) =? anchor_sequence state)
                    || negb (bool_decide (object_id (stored_commit_key uploaded) = anchor_commit_key state))
                    || negb (bool_decide (stored_version_id uploaded = anchor_version_id state))
                    || negb (bool_decide (anchor_format_ref state = anchor_format_ref expected_parent))
                    || negb (bool_decide (anchor_format_ref state = opt_format_ref options))
                    || (stored_sections_start uploaded >? stored_object_len uploaded)) StaleAnchor) ;;~
  parent_time <~ verified_parent_publish_time options keyring expected_parent ;;
  io_of (validate_parent_time (Some parent_time) (stored_publish_time_ms uploaded)) ;;~
  now <~ publication_now_ms ;;
  io_of (validate_publication_time now (stored_publish_time_ms uploaded)) ;;~
  verified <~ verify_existing_commit_postconditions (object_id (stored_commit_key uploaded))
                (stored_version_id uploaded) ;;
  '(time, _) <~ verified_parent_header_facts options keyring state ;;
  io_of (reject_if (negb (time =? stored_publish_time_ms uploaded)) StaleAnchor) ;;~
  match history_uncertainty_ms with
  | Some uncertainty =>
      now <~ publication_now_ms ;;
      io_of (validate_history_publication_freshness now (stored_publish_time_ms uploaded) uncertainty)
  | None => io_ret tt
  end ;;~
  settle_advance expected_parent state ;;~
  io_ret {| verified_retain_until_ms := verified; stored_publish_time_ms := stored_publish_time_ms uploaded;
            stored_anchor_state := state; stored_commit_key := stored_commit_key uploaded;
            stored_version_id := stored_version_id uploaded; stored_object_len := stored_object_len uploaded;
            stored_sections_start := stored_sections_start uploaded |}.

(** ** Recreating a lost anchor *)

Definition recreate_anchor_from_recovery_bundle (bundle : V3RecoveryBundle) (min_sequence : Z) : VIO V3ReplayChain :=
  io_of (reject_if (negb (bool_decide (bundle_repository_id bundle = Some (opt_repository_id options)))
                    || (anchor_sequence (bundle_anchor bundle) <? weak_subjectivity_floor_sequence bundle)
                    || (anchor_sequence (bundle_anchor bundle) <? min_sequence)) RecoveryBundleRequired) ;;~
  current <~ on_anchor read_v3 ;;
  io_of (reject_if (bool_decide (is_Some current)) StaleAnchor) ;;~
  chain <~ load_replay_chain_from_state options keyring (bundle_anchor bundle) ;;
  on_anchor (compare_and_advance_v3 None (bundle_anchor bundle)) ;;~
  io_ret chain.
End Write.
