(* ===== verification/ChainFacts.v ===== *)
(** * What a loaded chain guarantees

    The object store is not trusted: whatever its operations return, a replay
    chain that loads is signed, linked from the anchor to a root, ordered in
    time, digested, and within the replay limits. *)

From S2P Require Import Prelude Effects Ord Text Types Storage External Keyring V3Wire ObjectKeys Commit CommitCodec.
From S2P Require Import CommitObject Format Anchor RecoveryPolicy RecoveryHistory StoreTypes CommitRead.
Open Scope Z_scope.
Import V3 Keys.

(** ** Commits and chains *)

Definition header_of (c : V3ReplayCommit) : V3CommitHeader := parsed_header_ (replay_header c).

(** What replay keeps of a section: the bytes of an index or recovery section,
    which have its length and digest. *)
Definition retained_ok `{Primitives} (d : V3SectionDescriptor) (o : option (list byte)) : Prop :=
  if is_retained_type (section_type d) then
    exists bytes, o = Some bytes /\ len bytes = section_length d /\ sha256 bytes = section_digest d
  else o = None.

(** What a reader is looking for: a key and version, and what must be there. *)
Record Expectation : Type := {
  exp_key : text;
  exp_version_id : option text;
  exp_digest : list byte;
  exp_sequence : Z;
  exp_before : option Z
}.

Definition expect_anchor (a : V3AnchorState) : Expectation :=
  {| exp_key := anchor_commit_key a; exp_version_id := anchor_version_id a; exp_digest := anchor_body_digest a;
     exp_sequence := anchor_sequence a; exp_before := None |}.

Definition expect_parent (p : V3CommitParentRef) (time : Z) : Expectation :=
  {| exp_key := parent_commit_key p; exp_version_id := parent_version_id p; exp_digest := parent_body_digest p;
     exp_sequence := parent_sequence p; exp_before := Some time |}.

Definition verified_commit `{Primitives} (keyring : KeyRing) (e : Expectation) (c : V3ReplayCommit) : Prop :=
  replay_header c = parsed_of (header_of c) /\ authentic keyring (exp_key e) (header_of c)
  /\ replay_version_id c = exp_version_id e /\ body_digest (header_of c) = exp_digest e
  /\ self_sequence (self_ref (header_of c)) = exp_sequence e
  /\ 0 <= publish_time_ms (header_of c)
  /\ (forall t, exp_before e = Some t -> publish_time_ms (header_of c) < t)
  /\ validate_v3_commit_object_len (replay_header c) (replay_object_len c) = Ok tt
  /\ Forall2 retained_ok (section_index (header_of c)) (retained_sections c).

(** The chain ends at its first root. *)
Fixpoint verified_chain `{Primitives} (keyring : KeyRing) (e : Expectation) (commits : list V3ReplayCommit) : Prop :=
  match commits with
  | [] => False
  | c :: older =>
      verified_commit keyring e c
      /\ match kind (header_of c) with
         | Root => older = []
         | Delta => exists p, parent (header_of c) = Some p
             /\ verified_chain keyring (expect_parent p (publish_time_ms (header_of c))) older
         end
  end.

Definition sum (l : list Z) : Z := fold_right Z.add 0 l.
Definition kept_len (o : option (list byte)) : Z := match o with Some bytes => len bytes | None => 0 end.
Definition retained_len (c : V3ReplayCommit) : Z := sum (map kept_len (retained_sections c)).

Lemma sum_cons {A} (f : A -> Z) a l : sum (map f (a :: l)) = f a + sum (map f l).
Proof. done. Qed.

Lemma sum_nonneg {A} (f : A -> Z) l : (forall a, 0 <= f a) -> 0 <= sum (map f l).
Proof. intros F. induction l as [|a l IH]; [done|]. rewrite sum_cons. specialize (F a). lia. Qed.

Definition wf_limits (limits : V3ReplayLimits) : Prop :=
  0 <= max_commits limits /\ is_u64 (max_total_commit_bytes limits) /\ is_u64 (max_retained_bytes limits)
  /\ is_u64 (read_chunk_bytes limits).

Lemma no_limit_false limits : wf_limits limits -> no_limit limits = false ->
  0 < max_commits limits /\ 0 < max_total_commit_bytes limits /\ 0 < max_retained_bytes limits
  /\ 0 < read_chunk_bytes limits.
Proof. unfold wf_limits, is_u64, no_limit. intros L N. rewrite !orb_false_iff in N. b2p. lia. Qed.

Section Reads.
Context {St An : Type} `{BlobStore St} `{V3CommitAnchor An} `{Primitives}.
Context (options : V3CommitStoreOptions) (keyring : KeyRing).
Implicit Types w : World St An.

Lemma read_header_Ok id v w p w' :
  read_commit_header_at options keyring id v w = (Ok p, w') ->
  unversioned options v = false /\ authentic keyring id (parsed_header_ p) /\ p = parsed_of (parsed_header_ p)
  /\ 0 <= publish_time_ms (parsed_header_ p).
Proof.
  unfold read_commit_header_at. intros R. apply io_bind_Ok in R as ([] & ? & U & R). inv_io.
  unfold reject_if in *. destruct (unversioned options v); [done|].
  match goal with P : parse_v3_commit_header _ _ _ = Ok _ |- _ =>
    apply parse_header_iff in P as (h & rest & A & _ & _ & ->) end.
  split_and!; try done. cbn [parsed_of parsed_header_].
  match goal with T : validate_parent_time None _ = Ok _ |- _ => unfold validate_parent_time, reject_if in T;
    repeat case_if_in T; b2p; try done end; try lia.
Qed.

(** ** Chunks *)

Lemma div_ceil_step a b : 0 < b -> 0 < a -> div_ceil a b = 1 + div_ceil (a - Z.min a b) b.
Proof.
  intros B A. unfold div_ceil. destruct (Z.le_ge_cases a b) as [L|G].
  - rewrite Z.min_l by done. rewrite Z.sub_diag. rewrite (Z.div_small (0 + b - 1)) by lia.
    symmetry. apply (Z.div_unique_pos _ _ _ (a - 1)); lia.
  - rewrite Z.min_r by lia. rewrite <- Z.div_add_l by lia. f_equal. lia.
Qed.

Lemma chunk_count_step a b : 0 < b -> 0 < a -> chunk_count a b = S (chunk_count (a - Z.min a b) b).
Proof.
  intros B A. unfold chunk_count. rewrite (div_ceil_step a b) by done.
  assert (0 <= div_ceil (a - Z.min a b) b) by (apply Z.div_pos; lia). lia.
Qed.

Lemma read_chunks_Ok fuel id v offset remaining chunk w bytes w' :
  0 <= remaining -> 0 < chunk ->
  read_chunks options fuel id v offset remaining chunk w = (Ok bytes, w') -> len bytes = remaining.
Proof.
  revert offset remaining w bytes w'. induction fuel as [|fuel IH]; intros offset remaining w bytes w' R C E;
    cbn [read_chunks] in E; destruct (Z.leb_spec remaining 0); cbv iota in E; inv_io;
    [unfold len; simpl; lia..|].
  inv_bind. b2p. match goal with X : read_chunks _ _ _ _ _ _ _ _ = _ |- _ => apply IH in X; [|lia..] end.
  rewrite len_app. lia.
Qed.

(** The fuel suffices: more of it changes nothing. *)
Lemma read_chunks_fuel fuel id v offset remaining chunk w :
  0 < chunk -> (chunk_count remaining chunk <= fuel)%nat ->
  read_chunks options fuel id v offset remaining chunk w
  = read_chunks options (chunk_count remaining chunk) id v offset remaining chunk w.
Proof.
  intros C. revert offset remaining w. induction fuel as [|fuel IH]; intros offset remaining w L.
  { by replace (chunk_count remaining chunk) with O by lia. }
  destruct (Z.leb_spec remaining 0) as [Le|G].
  { cbn [read_chunks]. destruct (chunk_count remaining chunk); cbn [read_chunks];
      by replace (remaining <=? 0) with true by lia. }
  rewrite (chunk_count_step remaining chunk) in L |- * by lia. cbn [read_chunks].
  destruct (remaining <=? 0); [done|]. unfold io_bind.
  repeat match goal with
  | |- context [match ?m with (_, _) => _ end] => destruct m as [[?|?] ?]; [|done]
  end. rewrite IH by lia. done.
Qed.

Lemma read_section_Ok id v start chunk d w bytes w' :
  0 <= section_length d -> 0 < chunk ->
  read_section options id v start chunk d w = (Ok bytes, w') ->
  len bytes = section_length d /\ sha256 bytes = section_digest d.
Proof.
  intros L C E. unfold read_section in E. inv_io. inv_bind. b2p.
  match goal with X : read_chunks _ _ _ _ _ _ _ _ = _ |- _ => apply read_chunks_Ok in X; [|lia..] end. done.
Qed.

Lemma replay_sections_Ok id v start limits pending sections before w retained total w' :
  wf_limits limits -> no_limit limits = false -> Forall wf_section sections ->
  verify_replay_sections_loop options id v start limits pending sections before w = (Ok (retained, total), w') ->
  Forall2 retained_ok sections retained
  /\ total = before + sum (map kept_len retained)
  /\ (before <= max_retained_bytes limits -> total <= max_retained_bytes limits).
Proof.
  intros Wl Nl W. destruct (no_limit_false _ Wl Nl) as (_ & _ & _ & Pc).
  revert before w retained total w'. induction W as [|d sections Wd W IH]; intros before w retained total w' E;
    cbn [verify_replay_sections_loop] in E.
  { inv_io. cbn. split_and!; [constructor|lia|done]. }
  destruct (is_retained_type (section_type d)) eqn:T; cbn [negb] in E; inv_io.
  - match goal with X : verify_replay_sections_loop _ _ _ _ _ _ _ _ _ = _ |- _ => apply IH in X as (F & -> & Le) end.
    inv_bind. destruct (checked_add before (section_length d)) as [t'|] eqn:C; [|done].
    match goal with X : (if _ then Some _ else None) = Some _ |- _ => case_if_in X; [|done]; injection X as -> end.
    apply checked_add_Some in C as [-> _]. b2p.
    match goal with X : read_section _ _ _ _ _ _ _ = _ |- _ => apply read_section_Ok in X as [Lb Db]; [|apply Wd|done] end.
    split_and!; [|rewrite sum_cons; cbn [kept_len]; lia|intros _; by apply Le].
    constructor; [|done]. unfold retained_ok. rewrite T. eauto.
  - match goal with X : verify_replay_sections_loop _ _ _ _ _ _ _ _ _ = _ |- _ => apply IH in X as (F & -> & Le) end.
    split_and!; [|rewrite sum_cons; cbn [kept_len]; lia|done]. constructor; [|done]. unfold retained_ok. by rewrite T.
Qed.

(** ** The chain *)

Definition expect_loop (c : ChainLoop) : Expectation :=
  {| exp_key := next_key c; exp_version_id := next_version_id c; exp_digest := next_digest c;
     exp_sequence := next_sequence c; exp_before := child_publish_time c |}.

Definition loop_ok (limits : V3ReplayLimits) (c : ChainLoop) : Prop :=
  total_commit_bytes c <= max_total_commit_bytes limits /\ total_retained c <= max_retained_bytes limits.

Lemma load_chain_loop_Ok left_ limits pending c w commits w' :
  wf_limits limits -> no_limit limits = false -> loop_ok limits c ->
  load_chain_loop options keyring left_ limits pending c w = (Ok commits, w') ->
  verified_chain keyring (expect_loop c) commits /\ (length commits <= left_)%nat
  /\ total_commit_bytes c + sum (map replay_object_len commits) <= max_total_commit_bytes limits
  /\ total_retained c + sum (map retained_len commits) <= max_retained_bytes limits.
Proof.
  intros Wl Nl. revert c w commits w'. induction left_ as [|n IH]; intros c w commits w' B E; cbn [load_chain_loop] in E;
    [done|].
  destruct (bs_insert (next_key c) (seen_keys c)) as [fresh seen]. inv_io. inv_bind. b2p.
  match goal with X : read_commit_header_at _ _ _ _ _ = _ |- _ => apply read_header_Ok in X as (_ & A & Ep & Pt) end.
  match goal with X : verify_replay_sections _ _ _ _ _ _ _ _ = _ |- _ =>
    apply replay_sections_Ok in X as (F & -> & Le); [|done..|apply A] end.
  destruct (checked_add (total_commit_bytes c) _) as [t'|] eqn:C; [|done].
  match goal with X : (if _ then Some _ else None) = Some _ |- _ => case_if_in X; [|done]; injection X as -> end.
  apply checked_add_Some in C as [-> _]. b2p. destruct B as [_ Br]. specialize (Le Br).
  match type of E with context [io_ret [?x]] => set (commit := x) in * end.
  assert (verified_commit keyring (expect_loop c) commit) as V.
  { unfold verified_commit, header_of. cbn [commit replay_header replay_version_id replay_object_len retained_sections].
    split_and!; try done. cbn [expect_loop exp_before]. intros t Et. rewrite Et in *.
    match goal with X : validate_parent_time (Some _) _ = Ok _ |- _ => apply validate_parent_time_Ok in X; lia end. }
  change (parsed_header_ x5) with (header_of commit) in E.
  assert (content_len x1 = replay_object_len commit) as Eo by done.
  assert (sum (map kept_len l) = retained_len commit) as Er by done.
  destruct (kind (header_of commit)) eqn:K.
  - rewrite bool_decide_eq_false_2 in E by done. destruct (parent (header_of commit)) as [p|] eqn:P; [|done]. inv_io.
    match goal with X : load_chain_loop _ _ _ _ _ _ _ = _ |- _ => apply IH in X as (Vr & L1 & L2 & L3); [|done] end.
    cbn [total_commit_bytes total_retained length] in *. rewrite !sum_cons. split_and!; [|lia..].
    cbn [verified_chain]. rewrite K. eauto.
  - rewrite bool_decide_eq_true_2 in E by done. inv_io. rewrite !sum_cons. cbn [map sum fold_right length].
    split_and!; [|lia..]. cbn [verified_chain]. by rewrite K.
Qed.

Lemma load_chain_Ok anchor limits pending w chain w' :
  wf_limits limits ->
  load_replay_chain_with_pending_limit options keyring anchor limits pending w = (Ok chain, w') ->
  let commits := commits_newest_first chain in
  verified_chain keyring (expect_anchor anchor) commits
  /\ (exists c, hd_error commits = Some c /\ signing_key_id (header_of c) = anchor_signing_key_id anchor)
  /\ len commits <= max_commits limits
  /\ sum (map replay_object_len commits) <= max_total_commit_bytes limits
  /\ sum (map retained_len commits) <= max_retained_bytes limits.
Proof.
  intros Wl E. unfold load_replay_chain_with_pending_limit in E. inv_io. inv_bind. b2p.
  destruct (no_limit_false limits) as (Lc & Lt & Lr & _); [done..|].
  match goal with X : load_chain_loop _ _ _ _ _ _ _ = _ |- _ =>
    apply load_chain_loop_Ok in X as (V & L1 & L2 & L3); [|done..|split; cbn; lia] end.
  cbn [commits_newest_first]. cbn [chain_from total_commit_bytes total_retained] in *.
  split_and!; [done|eauto|unfold len; lia..].
Qed.
End Reads.

(** ** Sequences *)

Lemma object_len_parent p n parent_ :
  validate_v3_commit_object_len p n = Ok tt -> parent (parsed_header_ p) = Some parent_ ->
  self_sequence (self_ref (parsed_header_ p)) = parent_sequence parent_ + 1.
Proof.
  unfold validate_v3_commit_object_len, validate_commit_section_semantics. intros V P. rewrite P in V. inv_bind. b2p.
  match goal with X : Sequence_checked_next _ = Some _ |- _ =>
    unfold Sequence_checked_next in X; apply checked_add_Some in X as [-> _] end. done.
Qed.

(** Along a verified chain sequences count down by one, so no commit repeats,
    and every commit but the last is a delta. *)
Lemma chain_sequences `{Primitives} keyring e commits i c :
  verified_chain keyring e commits -> commits !! i = Some c ->
  self_sequence (self_ref (header_of c)) = exp_sequence e - Z.of_nat i
  /\ (kind (header_of c) = Root <-> i = (length commits - 1)%nat).
Proof.
  revert e i. induction commits as [|c0 commits IH]; intros e i V L; [done|].
  destruct V as [(_ & _ & _ & _ & S & _ & _ & O & _) N]. destruct i as [|i].
  - injection L as <-. split; [lia|]. destruct (kind (header_of c0)).
    + destruct N as (p & _ & V). destruct commits; [done|]. split; [done|cbn [length]; lia].
    + subst commits. done.
  - change (commits !! i = Some c) in L. destruct (kind (header_of c0)); [|by subst commits].
    destruct N as (p & P & V). apply (IH _ i V) in L as [-> R]. cbn [expect_parent exp_sequence].
    pose proof (object_len_parent _ _ p O P). unfold header_of in S. split; [lia|]. rewrite R.
    destruct commits; [done|]. cbn [length]. lia.
Qed.

(** ** Properties *)

Section ChainProperties.
Context {St An : Type} `{BlobStore St} `{V3CommitAnchor An} `{Primitives}.

(** C2: Replay trusts nothing the object store says: whatever its operations
    return, a chain that loads from an anchor state consists of authentic
    signed headers, starts with the commit that the anchor names by key,
    version, sequence, digest and signing key, follows each parent reference
    with publication times increasing towards the head, ends at its first root,
    holds the index and recovery sections with their signed lengths and digests,
    counts its sequences down by one, and stays within every replay limit. *)
Theorem replay_chain_authentic (options : V3CommitStoreOptions) (keyring : KeyRing) (anchor : V3AnchorState)
    (limits : V3ReplayLimits) (pending : Z) (w w' : World St An) (chain : V3ReplayChain) :
  wf_limits limits ->
  load_replay_chain_with_pending_limit options keyring anchor limits pending w = (Ok chain, w') ->
  let commits := commits_newest_first chain in
  verified_chain keyring (expect_anchor anchor) commits
  /\ (exists c, hd_error commits = Some c /\ signing_key_id (header_of c) = anchor_signing_key_id anchor)
  /\ (forall i c, commits !! i = Some c ->
        self_sequence (self_ref (header_of c)) = anchor_sequence anchor - Z.of_nat i
        /\ (kind (header_of c) = Root <-> i = (length commits - 1)%nat))
  /\ len commits <= max_commits limits
  /\ sum (map replay_object_len commits) <= max_total_commit_bytes limits
  /\ sum (map retained_len commits) <= max_retained_bytes limits.
Proof.
  intros Wl E. destruct (load_chain_Ok options keyring anchor limits pending w chain w' Wl E) as (V & S & L1 & L2 & L3).
  split_and!; try done. intros i c L. by apply (chain_sequences keyring (expect_anchor anchor)).
Qed.

(** C25: A section is read in as many requests as its length needs: the number
    of turns the model allows is enough, so a section read never fails for lack
    of turns, and what it returns has the length the descriptor states. *)
Theorem section_reads_complete (options : V3CommitStoreOptions) (fuel : nat) (id : text) (v : option text)
    (offset remaining chunk : Z) (w : World St An) :
  0 <= remaining -> 0 < chunk -> (chunk_count remaining chunk <= fuel)%nat ->
  read_chunks options fuel id v offset remaining chunk w
  = read_chunks options (chunk_count remaining chunk) id v offset remaining chunk w
  /\ forall bytes w', read_chunks options fuel id v offset remaining chunk w = (Ok bytes, w') -> len bytes = remaining.
Proof.
  intros R C L. split; [by apply read_chunks_fuel|]. intros bytes w'. by apply read_chunks_Ok.
Qed.
End ChainProperties.
