(* ===== verification/AnchorFacts.v ===== *)
(** * The anchor under publications

    Operations of the commit store over an arbitrary object store and the
    compare-and-swap anchor: reads never touch the anchor, a publication moves
    it exactly when it succeeds, and only to a direct successor, so at most one
    child of a parent is ever accepted. *)

From S2P Require Import Prelude Effects Ord Text Types Storage External Keyring V3Wire ObjectKeys Commit CommitCodec.
From S2P Require Import CommitObject Format Anchor RecoveryPolicy RecoveryHistory StoreTypes CommitRead CommitWrite ChainFacts.
Open Scope Z_scope.
Import V3 Keys.

Create HintDb anchor.

(** ** Operations that leave the anchor alone *)

Definition keeps_anchor {St An E A} (m : IO (World St An) E A) : Prop := forall w, w_anchor (m w).2 = w_anchor w.

Section Keeps.
Context {St An : Type} `{BlobStore St} `{V3CommitAnchor An} `{Primitives}.
Context (options : V3CommitStoreOptions) (keyring : KeyRing).
Abbreviation W := (World St An).

Lemma keeps_bind {E A B} (m : IO W E A) (k : A -> IO W E B) :
  keeps_anchor m -> (forall a, keeps_anchor (k a)) -> keeps_anchor (io_bind m k).
Proof.
  intros M K w. unfold io_bind. specialize (M w). destruct (m w) as [[a|e] w1]; [|done].
  simpl in M. by rewrite K.
Qed.

Lemma keeps_of {E A} (r : result E A) : keeps_anchor (io_of r : IO W E A).
Proof. done. Qed.

Lemma keeps_try {E F A} (m : IO W E A) : keeps_anchor m -> keeps_anchor (io_try m : IO W F _).
Proof. intros M w. unfold io_try. specialize (M w). by destruct (m w). Qed.

Lemma keeps_map_err {E F A} (f : E -> F) (m : IO W E A) : keeps_anchor m -> keeps_anchor (io_map_err f m).
Proof. intros M w. unfold io_map_err. specialize (M w). by destruct (m w). Qed.

Lemma keeps_on_store {E A} (m : IO St E A) : keeps_anchor (on_store m : IO W E A).
Proof. intros w. unfold on_store, io_on. by destruct (m (w_store w)). Qed.

Lemma keeps_store_call {A} e (m : IO St StorageError A) : keeps_anchor (store_call e m : IO W _ A).
Proof. apply keeps_map_err, keeps_on_store. Qed.
End Keeps.

#[export] Hint Resolve keeps_of keeps_on_store keeps_store_call : anchor.

(** Goes through the binds, matches and loops of an operation that only reads. *)
Ltac keeps :=
  repeat first
    [ progress intros
    | solve [eauto with anchor]
    | apply keeps_bind
    | apply keeps_try
    | match goal with |- keeps_anchor (match ?x with _ => _ end) => destruct x end
    | done ].

Section Reads.
Context {St An : Type} `{BlobStore St} `{V3CommitAnchor An} `{Primitives}.
Context (options : V3CommitStoreOptions) (keyring : KeyRing).
Abbreviation W := (World St An).

Lemma keeps_now : keeps_anchor (publication_now_ms : IO W _ _).
Proof. done. Qed.
Lemma keeps_draw : keeps_anchor (draw : IO W _ _).
Proof. done. Qed.

Lemma keeps_remember a t r : keeps_anchor (remember_verified_publication_time a t r : IO W _ _).
Proof. unfold remember_verified_publication_time. keeps. Qed.

Lemma keeps_cached a : keeps_anchor (cached_facts a : IO W _ _).
Proof. intros w. unfold cached_facts. by destruct (List.find _ _). Qed.

Lemma keeps_header id v : keeps_anchor (read_commit_header_at options keyring id v : IO W _ _).
Proof. unfold read_commit_header_at. keeps. Qed.

Lemma keeps_range id v r : keeps_anchor (read_commit_range_at options id v r : IO W _ _).
Proof. unfold read_commit_range_at. keeps. Qed.
#[local] Hint Resolve keeps_now keeps_draw keeps_remember keeps_cached keeps_header keeps_range : anchor.

Lemma keeps_facts a : keeps_anchor (verified_parent_header_facts options keyring a : IO W _ _).
Proof. unfold verified_parent_header_facts. keeps. Qed.
#[local] Hint Resolve keeps_facts : anchor.

Lemma keeps_parent_time a : keeps_anchor (verified_parent_publish_time options keyring a : IO W _ _).
Proof. unfold verified_parent_publish_time. keeps. Qed.

Lemma keeps_chunks fuel id v offset remaining chunk :
  keeps_anchor (read_chunks options fuel id v offset remaining chunk : IO W _ _).
Proof. revert offset remaining. induction fuel as [|fuel IH]; intros offset remaining; cbn [read_chunks]; keeps. Qed.
#[local] Hint Resolve keeps_parent_time keeps_chunks : anchor.

Lemma keeps_section id v start chunk d : keeps_anchor (read_section options id v start chunk d : IO W _ _).
Proof. unfold read_section. keeps. Qed.
#[local] Hint Resolve keeps_section : anchor.

Lemma keeps_replay_sections id v p before limits pending :
  keeps_anchor (verify_replay_sections options id v p before limits pending : IO W _ _).
Proof.
  unfold verify_replay_sections. revert before. generalize (section_index (parsed_header_ p)).
  induction l as [|d l IH]; intros before; cbn [verify_replay_sections_loop]; keeps.
Qed.
#[local] Hint Resolve keeps_replay_sections : anchor.

Lemma keeps_full id v p : keeps_anchor (verify_full_commit_sections options id v p : IO W _ _).
Proof.
  unfold verify_full_commit_sections. assert (forall start chunk l hashed,
    keeps_anchor (verify_full_loop options id v start chunk l hashed : IO W _ _)) as L.
  { intros start chunk l. induction l as [|d l IH]; intros hashed; cbn [verify_full_loop]; keeps. }
  keeps.
Qed.

Lemma keeps_read_commit id v : keeps_anchor (read_replay_commit_at options keyring id v : IO W _ _).
Proof. unfold read_replay_commit_at, read_commit_facts_at. keeps. Qed.

Lemma keeps_load a limits pending :
  keeps_anchor (load_replay_chain_with_pending_limit options keyring a limits pending : IO W _ _).
Proof.
  unfold load_replay_chain_with_pending_limit. assert (forall n c,
    keeps_anchor (load_chain_loop options keyring n limits pending c : IO W _ _)) as L.
  { induction n as [|n IH]; intros c; cbn [load_chain_loop]; keeps. }
  keeps.
Qed.

Lemma keeps_put id body r l : keeps_anchor (put_commit_object options id body r l : IO W _ _).
Proof. unfold put_commit_object. keeps. Qed.

Lemma keeps_verify id m p : keeps_anchor (verify_commit_postconditions options id m p : IO W _ _).
Proof. unfold verify_commit_postconditions, verify_commit_protection_postconditions. keeps. Qed.

Lemma keeps_verify_existing id v : keeps_anchor (verify_existing_commit_postconditions options id v : IO W _ _).
Proof. unfold verify_existing_commit_postconditions. keeps. Qed.

Lemma keeps_select p t : keeps_anchor (select_publish_time p t : IO W _ _).
Proof. unfold select_publish_time. keeps. Qed.
End Reads.

#[export] Hint Resolve keeps_now keeps_draw keeps_remember keeps_header keeps_facts keeps_parent_time keeps_full
  keeps_read_commit keeps_load keeps_put keeps_verify keeps_verify_existing keeps_select : anchor.

(** ** Publications *)

Section Publications.
Context {St : Type} `{BlobStore St} `{Primitives}.
Context (options : V3CommitStoreOptions) (keyring : KeyRing).
Abbreviation W := (World St V3MemoryAnchor).
Abbreviation VIO A := (IO W V3FormatError A).

Definition accepted (w : W) : option V3AnchorState := memory_anchor (w_anchor w).

(** [next] directly follows [before]; a missing anchor can only be [restored]. *)
Definition succeeds (restored : bool) (before : option V3AnchorState) (next : V3AnchorState) : Prop :=
  match before with
  | Some parent => anchor_sequence next = anchor_sequence parent + 1
  | None => restored = true
  end.

(** From the anchor [before], success moves the anchor to [next] of the result
    and failure leaves it. *)
Definition advances {A} (restored : bool) (before : option V3AnchorState) (m : VIO A) (next : A -> V3AnchorState) : Prop :=
  forall w, accepted w = before ->
  match m w with
  | (Ok a, w') => accepted w' = Some (next a) /\ succeeds restored before (next a)
  | (Err _, w') => accepted w' = before
  end.

Lemma accepted_keeps {E A} (m : IO W E A) w : keeps_anchor m -> accepted (m w).2 = accepted w.
Proof. intros K. unfold accepted. by rewrite K. Qed.

Lemma advances_bind {A B} restored before (m : VIO A) (k : A -> VIO B) next :
  keeps_anchor m -> (forall w a w', m w = (Ok a, w') -> advances restored before (k a) next) ->
  advances restored before (io_bind m k) next.
Proof.
  intros M K w Ew. unfold io_bind. pose proof (accepted_keeps m w M) as Ek.
  destruct (m w) as [[a|e] w1] eqn:Em; cbn [snd] in Ek; [|congruence].
  apply (K w a w1 Em). congruence.
Qed.

Lemma advances_of {A B} restored before (r : V3Result A) (k : A -> VIO B) next :
  (forall a, r = Ok a -> advances restored before (k a) next) -> advances restored before (io_bind (io_of r) k) next.
Proof. intros K w Ew. unfold io_bind, io_of. destruct r as [a|e]; [|done]. by apply (K a). Qed.

Lemma advances_fail {A} restored before e (next : A -> V3AnchorState) : advances restored before (io_fail e) next.
Proof. by intros w Ew. Qed.

Lemma advances_read {B} restored before (k : option V3AnchorState -> VIO B) next :
  advances restored before (k before) next -> advances restored before (io_bind (on_anchor read_v3) k) next.
Proof. intros K w <-. exact (K (set_anchor (w_anchor w) w) eq_refl). Qed.

Lemma advances_cas {B} restored before expected s (b : B) next :
  next b = s -> (forall parent, expected = Some parent -> anchor_sequence s = anchor_sequence parent + 1) ->
  (expected = None -> restored = true) ->
  advances restored before (io_bind (on_anchor (compare_and_advance_v3 expected s)) (fun _ => io_ret b)) next.
Proof.
  intros <- S R w <-. unfold io_bind, on_anchor, io_on. cbn [compare_and_advance_v3 memory_commit_anchor].
  unfold memory_compare_and_advance_v3, accepted.
  destruct (bool_decide _) eqn:B1; b2p; cbn [negb]; [|done].
  destruct (match memory_anchor (w_anchor w) with Some _ => _ | None => _ end); [done|].
  split; [done|]. rewrite B1. unfold succeeds. destruct expected; auto.
Qed.

(** Steps through an operation up to its call of the anchor. *)
Ltac step :=
  first
    [ apply advances_of; intros ? ?
    | apply advances_read
    | apply advances_bind; [solve [eauto with anchor]|intros ? ? ? ?]
    | match goal with |- advances _ _ (match ?p with (_, _) => _ end) _ => destruct p end ].

Lemma attempts_advance before n collided expected seq time build :
  expected <> None -> (forall parent, expected = Some parent -> seq = anchor_sequence parent + 1) ->
  advances false before (write_attempts options keyring n collided expected seq time build) stored_anchor_state.
Proof.
  intros N S. revert collided. induction n as [|n IH]; intros collided; cbn [write_attempts]; [apply advances_fail|].
  repeat step.
  apply advances_bind; [apply keeps_try, keeps_put|]. intros ? put_result ? _.
  destruct put_result as [meta|[]]; [|first [apply IH|apply advances_fail]..]. unfold anchor_upload. repeat step. by apply advances_cas.
Qed.

Lemma builder_advances before expected seq time build :
  expected <> None -> (forall parent, expected = Some parent -> seq = anchor_sequence parent + 1) ->
  advances false before (write_commit_with_expected_anchor_builder options keyring expected seq time build) stored_anchor_state.
Proof.
  intros N S. unfold write_commit_with_expected_anchor_builder.
  apply advances_bind; [destruct expected; keeps|]. intros. step. by apply attempts_advance.
Qed.

Lemma checked_next_Ok s n (e : V3FormatError) : ok_or (Sequence_checked_next s) e = Ok n -> n = s + 1.
Proof.
  unfold Sequence_checked_next. destruct (checked_add s 1) as [m|] eqn:C; [|done]. intros [= <-].
  by apply checked_add_Some in C as [-> _].
Qed.

Lemma native_parent_keeps : keeps_anchor (native_parent options keyring : VIO _).
Proof. unfold native_parent. keeps. Qed.

Lemma native_parent_next (w : W) current n w' :
  native_parent options keyring w = (Ok (current, n), w') -> n = anchor_sequence current + 1.
Proof.
  unfold native_parent. intros E. inv_io.
  match goal with X : ok_or (Sequence_checked_next _) _ = Ok _ |- _ => by apply checked_next_Ok in X end.
Qed.

Lemma child_advances before write :
  advances false before (write_child_commit options keyring write) stored_anchor_state.
Proof.
  unfold write_child_commit. apply advances_bind; [apply native_parent_keeps|]. intros w [current n] w' E. step.
  apply builder_advances; [done|]. intros parent [= <-]. by eapply native_parent_next.
Qed.

Lemma child_with_advances before build :
  advances false before (write_child_commit_with options keyring build) stored_anchor_state.
Proof.
  unfold write_child_commit_with. apply advances_bind; [apply native_parent_keeps|]. intros w [current n] w' E.
  apply builder_advances; [done|]. intros parent [= <-]. by eapply native_parent_next.
Qed.

Lemma prepared_advances before plan build :
  advances false before (write_prepared_child_commit_with options keyring plan build) stored_anchor_state.
Proof.
  unfold write_prepared_child_commit_with. repeat step. apply builder_advances; [done|]. intros parent [= <-].
  match goal with X : ok_or (Sequence_checked_next _) _ = Ok _ |- _ => by apply checked_next_Ok in X end.
Qed.

Lemma read_facts_parent id v (w : W) c w' p :
  read_replay_commit_at options keyring id v w = (Ok c, w') -> parent (header_of c) = Some p ->
  self_sequence (self_ref (header_of c)) = parent_sequence p + 1.
Proof.
  intros E P. unfold read_replay_commit_at, read_commit_facts_at in E. inv_io. cbn [header_of replay_header] in *.
  by eapply object_len_parent.
Qed.

Lemma adopt_advances before id v :
  advances false before (adopt_unanchored_child options keyring id v) stored_anchor_state.
Proof.
  unfold adopt_unanchored_child. repeat step. apply advances_cas; [done| |done]. intros parent_ [= <-].
  cbn [anchor_sequence]. inv_bind. b2p.
  match goal with R : read_replay_commit_at _ _ _ _ _ = _, P : parent _ = Some _ |- _ =>
    pose proof (read_facts_parent _ _ _ _ _ _ R P) end. unfold header_of in *. lia.
Qed.

Lemma settle_accepts parent next (w : W) :
  anchor_sequence next = anchor_sequence parent + 1 -> accepted w = Some parent ->
  exists w', settle_advance parent next w = (Ok tt, w') /\ accepted w' = Some next.
Proof.
  intros S A. unfold settle_advance, io_bind, io_try, on_anchor, io_on.
  cbn [compare_and_advance_v3 memory_commit_anchor]. unfold memory_compare_and_advance_v3.
  unfold accepted in A. rewrite A, bool_decide_eq_true_2 by done. cbn [negb].
  destruct (Z.leb_spec (anchor_sequence next) (anchor_sequence parent)); [lia|].
  rewrite bool_decide_eq_true_2 by done. by eexists.
Qed.

Lemma adopt_verified_advances before parent uploaded uncertainty :
  advances false before (adopt_verified_unanchored_child options keyring parent uploaded uncertainty) stored_anchor_state.
Proof.
  unfold adopt_verified_unanchored_child. repeat step.
  apply advances_bind; [destruct uncertainty; keeps|]. intros _ ? _ _. inv_bind. b2p.
  match goal with X : Sequence_checked_next _ = Some _ |- _ =>
    unfold Sequence_checked_next in X; apply checked_add_Some in X as [Sq _] end.
  intros w9 Ew. destruct (settle_accepts parent (stored_anchor_state uploaded) w9) as (w8 & E & A); [done|congruence|].
  unfold io_bind at 1. rewrite E. split; [done|]. subst before. done.
Qed.

Lemma recreate_advances before bundle floor :
  advances true before (recreate_anchor_from_recovery_bundle options keyring bundle floor) (fun _ => bundle_anchor bundle).
Proof.
  unfold recreate_anchor_from_recovery_bundle, load_replay_chain_from_state, load_replay_chain_from_state_with_limits.
  repeat step. by apply advances_cas.
Qed.
End Publications.

(** ** Histories of publications *)

(** The operations of the store that may publish, with their arguments. *)
Inductive Publication : Type :=
| ChildCommit (write : V3CommitWrite)
| ChildCommitWith (build : V3CommitKey -> V3Result V3CommitWrite)
| PreparedChild (plan : V3PublicationPlan) (build : V3CommitKey -> V3Result V3CommitWrite)
| AdoptUnanchored (object_id : text) (version_id : option text)
| AdoptVerified (expected_parent : V3AnchorState) (uploaded : V3StoredCommit) (uncertainty_ms : option Z).

(** What may happen to a repository: a publication, the recreation of a lost
    anchor, a replay, and any change that the provider makes to its objects. *)
Inductive Event (St : Type) : Type :=
| Publish (p : Publication)
| Recreate (bundle : V3RecoveryBundle) (min_sequence : Z)
| Replay
| ProviderChange (f : St -> St).
Arguments Publish {St}.
Arguments Recreate {St}.
Arguments Replay {St}.
Arguments ProviderChange {St}.

Section Histories.
Context {St : Type} `{BlobStore St} `{Primitives}.
Context (options : V3CommitStoreOptions) (keyring : KeyRing).
Abbreviation W := (World St V3MemoryAnchor).

Definition publish (p : Publication) : IO W V3FormatError V3StoredCommit :=
  match p with
  | ChildCommit write => write_child_commit options keyring write
  | ChildCommitWith build => write_child_commit_with options keyring build
  | PreparedChild plan build => write_prepared_child_commit_with options keyring plan build
  | AdoptUnanchored id v => adopt_unanchored_child options keyring id v
  | AdoptVerified parent uploaded uncertainty =>
      adopt_verified_unanchored_child options keyring parent uploaded uncertainty
  end.

(** The anchor states that the events report as accepted, and the world they
    lead to. *)
Fixpoint accepted_states (events : list (Event St)) (w : W) : list V3AnchorState * W :=
  match events with
  | [] => ([], w)
  | Publish p :: events' =>
      match publish p w with
      | (Ok stored, w') => let '(later, w2) := accepted_states events' w' in (stored_anchor_state stored :: later, w2)
      | (Err _, w') => accepted_states events' w'
      end
  | Recreate bundle floor :: events' =>
      match recreate_anchor_from_recovery_bundle options keyring bundle floor w with
      | (Ok _, w') => let '(later, w2) := accepted_states events' w' in (bundle_anchor bundle :: later, w2)
      | (Err _, w') => accepted_states events' w'
      end
  | Replay :: events' => accepted_states events' (load_replay_chain_from_anchor options keyring w).2
  | ProviderChange f :: events' => accepted_states events' (set_store (f (w_store w)) w)
  end.

Lemma publish_advances before p : advances false before (publish p) stored_anchor_state.
Proof.
  destruct p; [apply child_advances|apply child_with_advances|apply prepared_advances|apply adopt_advances|
    apply adopt_verified_advances].
Qed.

Lemma recreate_needs_loss bundle floor w parent :
  accepted w = Some parent ->
  exists e w', recreate_anchor_from_recovery_bundle options keyring bundle floor w = (Err e, w') /\ accepted w' = Some parent.
Proof.
  intros A. unfold recreate_anchor_from_recovery_bundle, io_bind at 1, io_of, reject_if.
  destruct (_ || _); [by eauto|]. unfold io_bind at 1, on_anchor at 1, io_on. cbn [read_v3 memory_commit_anchor].
  unfold memory_read_v3, accepted in *. rewrite A. unfold io_bind at 1.
  rewrite bool_decide_eq_true_2 by eauto. cbn. eauto.
Qed.

Lemma load_from_anchor_keeps w : accepted (load_replay_chain_from_anchor options keyring w).2 = accepted w.
Proof.
  apply accepted_keeps. unfold load_replay_chain_from_anchor, load_replay_chain_from_state,
    load_replay_chain_from_state_with_limits. keeps.
Qed.

Lemma last_default {A} (l : list A) a d d' : List.last (a :: l) d = List.last (a :: l) d'.
Proof. revert a. induction l as [|b l IH]; intros a; [done|]. apply (IH b). Qed.


End Histories.
