(* ===== verification/CommitLog.v ===== *)
(** * The commit store implements a log

    Over a faithful object store the anchored commits form a log: publishing a
    child appends to it and replaying reads it back.  The relation [represents]
    ties the state of a commit store to the log; the operations are shown to
    implement the operations of the log. *)

From S2P Require Import Prelude Effects Ord Text Types Storage External Keyring V3Wire ObjectKeys Commit CommitCodec.
From S2P Require Import CommitObject Format Anchor RecoveryPolicy RecoveryHistory StoreTypes CommitRead CommitWrite.
From S2P Require Import ChainFacts AnchorFacts.
Open Scope Z_scope.
Import V3 Keys.



(** ** Log entries *)

Record Entry : Type := {
  e_header : V3CommitHeader;
  e_region : list byte;
  e_version : option text
}.

Definition e_key (e : Entry) : text := self_commit_key (self_ref (e_header e)).
Definition e_sequence (e : Entry) : Z := self_sequence (self_ref (e_header e)).
Definition e_time (e : Entry) : Z := publish_time_ms (e_header e).

Definition kept (region : list byte) (d : V3SectionDescriptor) : option (list byte) :=
  if is_retained_type (section_type d) then Some (slice (section_offset d) (section_length d) region) else None.

(** How many bytes replay keeps of these sections. *)
Definition kept_sum (region : list byte) (sections : list V3SectionDescriptor) : Z :=
  sum (map kept_len (map (kept region) sections)).

Lemma kept_sum_cons region d sections :
  kept_sum region (d :: sections) = kept_len (kept region d) + kept_sum region sections.
Proof. done. Qed.

Lemma kept_sum_nonneg region sections : 0 <= kept_sum region sections.
Proof.
  induction sections as [|d sections IH]; [done|]. rewrite kept_sum_cons. unfold kept at 1, kept_len.
  destruct (is_retained_type _); [|lia]. pose proof (len_nonneg (slice (section_offset d) (section_length d) region)). lia.
Qed.

Section Entries.
Context `{Primitives} (options : V3CommitStoreOptions) (keyring : KeyRing).

Definition e_bytes (e : Entry) : list byte :=
  match encode_object (e_header e) (e_region e) with
  | Ok bytes => bytes
  | Err _ => []
  end.

(** The anchor state that accepts the entry. *)
Definition e_anchor (e : Entry) : V3AnchorState :=
  {| anchor_sequence := e_sequence e; anchor_commit_key := e_key e; anchor_body_digest := body_digest (e_header e);
     anchor_version_id := e_version e; anchor_signing_key_id := signing_key_id (e_header e);
     anchor_format_ref := opt_format_ref options |}.

(** What replay returns for the entry. *)
Definition e_commit (e : Entry) : V3ReplayCommit :=
  {| replay_header := parsed_of (e_header e); replay_version_id := e_version e; replay_object_len := len (e_bytes e);
     retained_sections := map (kept (e_region e)) (section_index (e_header e)) |}.

Definition entry_ok (e : Entry) : Prop :=
  encode_object (e_header e) (e_region e) = Ok (e_bytes e) /\ len (e_bytes e) <= u64_max
  /\ authentic keyring (e_key e) (e_header e) /\ 0 <= e_time e /\ unversioned options (e_version e) = false
  /\ match e_version e with Some v => wf_id v | None => True end.

(** Newest first, each entry naming the one before it; the oldest is a root. *)
Fixpoint log_ok (log : list Entry) : Prop :=
  match log with
  | [] => False
  | e :: older =>
      entry_ok e
      /\ match older with
         | [] => kind (e_header e) = Root
         | e' :: _ => parent (e_header e) = Some (parent_ref_of (e_anchor e')) /\ e_time e' < e_time e /\ log_ok older
         end
  end.

(** The part of a log that replay reads: up to the newest root. *)
Fixpoint replayed (log : list Entry) : list Entry :=
  match log with
  | [] => []
  | e :: older => e :: match kind (e_header e) with Root => [] | Delta => replayed older end
  end.

(** The replayed part is within the limits. *)
Definition fits (limits : V3ReplayLimits) (log : list Entry) : Prop :=
  len log <= max_commits limits
  /\ sum (map (fun e => len (e_bytes e)) log) <= max_total_commit_bytes limits
  /\ sum (map (fun e => retained_len (e_commit e)) log) <= max_retained_bytes limits
  /\ Forall (fun e => Forall (fun d => is_section Recovery d = true -> section_length d <= MAX_RECOVERY_SECTION_BYTES)
               (section_index (e_header e))) log.

(** ** Layout of an entry *)

Lemma entry_layout e :
  entry_ok e ->
  exists span, header_span (e_header e) Actual = Ok span /\ e_bytes e = span ++ e_region e
    /\ sections_start (parsed_of (e_header e)) = len span
    /\ tiles 0 (section_index (e_header e)) (len (e_region e))
    /\ Forall (fun d => sha256 (slice (section_offset d) (section_length d) (e_region e)) = section_digest d)
         (section_index (e_header e))
    /\ validate_section_layout (section_index (e_header e)) (len (e_region e)) = Ok tt
    /\ validate_commit_section_semantics (e_header e) = Ok tt.
Proof.
  intros (E & L & A & _). apply encode_object_Ok in E as (V & D & span & S & Eb). exists span.
  destruct A as ((_ & _ & _ & _ & _ & Ws & _) & _).
  assert (len (e_region e) <= u64_max) as Lr by (rewrite Eb, len_app in L; pose proof (len_nonneg span); lia).
  unfold body_digest_for_v3_sections in D. inv_bind.
  match goal with X : validate_section_layout _ _ = Ok ?u |- _ => destruct u; pose proof X as Lay;
    apply validate_section_layout_iff in X as (_ & _ & T); [|done..] end.
  apply (body_digest_loop_Ok (e_region e) 0) in D as [_ F]; [|done..].
  split_and!; try done. by apply parsed_of_start.
Qed.

Lemma entry_object_len e :
  entry_ok e -> validate_v3_commit_object_len (parsed_of (e_header e)) (len (e_bytes e)) = Ok tt.
Proof.
  intros O. destruct (entry_layout e O) as (span & S & Eb & Es & _ & _ & Lay & V).
  unfold validate_v3_commit_object_len. rewrite Es, Eb, len_app. unfold checked_sub.
  pose proof (len_nonneg (e_region e)). destruct (_ <=? _) eqn:B; b2p; [|lia].
  cbn [ok_or rbind parsed_of parsed_header_]. replace (len span + len (e_region e) - len span) with (len (e_region e)) by lia.
  by rewrite Lay.
Qed.

(** Where a section lies inside the region. *)
Lemma tiles_bounds sections start n :
  Forall wf_section sections -> 0 <= start -> tiles start sections n ->
  Forall (fun d => 0 <= section_offset d /\ 0 <= section_length d /\ section_offset d + section_length d <= n) sections
  /\ start <= n.
Proof.
  intros W. revert start. induction W as [|d sections Wd W IH]; intros start S T; cbn [tiles] in T.
  { split; [constructor|lia]. }
  destruct T as [E T]. destruct Wd as (_ & _ & Ul & _). unfold is_u64 in Ul.
  destruct (IH (start + section_length d)) as [F L]; [lia|done|]. split; [|lia]. constructor; [lia|done].
Qed.

Lemma log_head e older : log_ok (e :: older) -> entry_ok e.
Proof. by intros [O _]. Qed.

Lemma log_sequences log e e' older :
  log = e :: older -> log_ok log -> In e' older -> e_sequence e' < e_sequence e.
Proof.
  revert e older. induction log as [|x log IH]; intros e older [= -> ->] L I.
  destruct older as [|e2 older]; [done|]. destruct L as (O & P & _ & L).
  destruct (entry_layout e O) as (_ & _ & _ & _ & _ & _ & _ & V). unfold validate_commit_section_semantics in V.
  rewrite P in V. inv_bind. b2p.
  match goal with X : Sequence_checked_next _ = Some _ |- _ =>
    unfold Sequence_checked_next in X; apply checked_add_Some in X as [Es _] end.
  cbn [parent_ref_of parent_sequence e_anchor anchor_sequence] in Es. unfold e_sequence in *.
  destruct I as [->|I]; [lia|]. specialize (IH e2 older eq_refl L I). lia.
Qed.

Lemma key_sequence e e' : entry_ok e -> entry_ok e' -> e_key e = e_key e' -> e_sequence e = e_sequence e'.
Proof.
  intros (_ & _ & (_ & _ & _ & (k & P & S) & _) & _) (_ & _ & (_ & _ & _ & (k' & P' & S') & _) & _) E.
  unfold e_sequence. congruence.
Qed.

Lemma log_entries log e : log_ok log -> In e log -> entry_ok e.
Proof.
  induction log as [|x log IH]; [done|]. intros [O L] [->|I]; [done|]. destruct log as [|y log]; [done|].
  apply IH; [apply L|done].
Qed.

Lemma log_keys_distinct e older e' : log_ok (e :: older) -> In e' older -> e_key e' <> e_key e.
Proof.
  intros L I E. pose proof (log_sequences _ _ e' _ eq_refl L I).
  assert (e_sequence e' = e_sequence e); [|lia].
  apply key_sequence; [eapply log_entries; [exact L|by right]|by apply log_head in L|done].
Qed.

Lemma log_sequence_inj log e e' :
  log_ok log -> In e log -> In e' log -> e_sequence e = e_sequence e' -> e = e'.
Proof.
  induction log as [|x log IH]; intros L I I' E; [done|].
  destruct I as [->|I], I' as [->|I']; [done| | |].
  - pose proof (log_sequences _ _ e' _ eq_refl L I'). lia.
  - pose proof (log_sequences _ _ e _ eq_refl L I). lia.
  - destruct L as [_ L]. destruct log; [done|]. by apply IH; [apply L|..].
Qed.
End Entries.

(** ** The cache of publication times *)

Lemma remove_entry_In a cache x : In x (remove_entry a cache) -> In x cache.
Proof.
  induction cache as [|y cache IH]; simpl; [done|]. destruct (is_entry a y); [by right|].
  intros [->|I]; [by left|right; auto].
Qed.

Lemma remove_entry_NoDup a cache :
  NoDup (map (fun entry : V3AnchorState * Z * bool => entry.1.1) cache) ->
  NoDup (map (fun entry => entry.1.1) (remove_entry a cache)) /\ forall x, In x (remove_entry a cache) -> x.1.1 <> a.
Proof.
  induction cache as [|y cache IH]; simpl; intros N; [split; [constructor|done]|].
  apply list.NoDup_cons in N as [Ny N]. rewrite list_elem_of_In, in_map_iff in Ny. unfold is_entry.
  destruct (bool_decide _) eqn:B; b2p.
  - split; [done|]. intros x I E. apply Ny. exists x. split; [congruence|done].
  - destruct (IH N) as [N' D]. simpl. split.
    + apply list.NoDup_cons. split; [|done]. rewrite list_elem_of_In, in_map_iff. intros (x & E & I). apply Ny.
      exists x. eauto using remove_entry_In.
    + intros x [->|I]; [done|auto].
Qed.

Lemma skipn_In {A} n (l : list A) x : In x (skipn n l) -> In x l.
Proof. intros I. rewrite <- (take_drop n l). apply in_app_iff. by right. Qed.

Lemma NoDup_skipn {A} n (l : list A) : NoDup l -> NoDup (skipn n l).
Proof. intros N. rewrite <- (take_drop n l) in N. by apply list.NoDup_app in N as (_ & _ & N). Qed.

(** ** Reading the log back *)

(** From any state in [P] the operation succeeds with a result in [Q] and ends
    in [P]. *)
Definition gives {S E A} (P : S -> Prop) (m : IO S E A) (Q : A -> Prop) : Prop :=
  forall s, P s -> exists a s', m s = (Ok a, s') /\ P s' /\ Q a.

Lemma gives_bind {S E A B} (P : S -> Prop) (m : IO S E A) (k : A -> IO S E B) Q R :
  gives P m Q -> (forall a, Q a -> gives P (k a) R) -> gives P (io_bind m k) R.
Proof.
  intros M K s Ps. destruct (M s Ps) as (a & s1 & Em & P1 & Qa). destruct (K a Qa s1 P1) as (b & s2 & Ek & P2 & Rb).
  exists b, s2. unfold io_bind. by rewrite Em.
Qed.

Lemma gives_of {S E A B} (P : S -> Prop) (r : result E A) a (k : A -> IO S E B) R :
  r = Ok a -> gives P (k a) R -> gives P (io_bind (io_of r) k) R.
Proof. intros -> K s Ps. apply (K s Ps). Qed.

Lemma gives_ret {S E A} (P : S -> Prop) (a : A) (Q : A -> Prop) : Q a -> gives P (io_ret a : IO S E A) Q.
Proof. intros Qa s Ps. by exists a, s. Qed.

Section Reading.
Context {St : Type} `{BlobStore St} `{!BlobStoreLaws St} `{Primitives}.
Context (options : V3CommitStoreOptions) (keyring : KeyRing).
Abbreviation W := (World St V3MemoryAnchor).

(** What the cache knows about logged commits is true. *)
Definition cache_ok (log : list Entry) (cache : list (V3AnchorState * Z * bool)) : Prop :=
  NoDup (map (fun entry => entry.1.1) cache)
  /\ forall e t r, In e log -> In (e_anchor options e, t, r) cache -> t = e_time e /\ r = has_recovery (e_header e).

Lemma cache_remember log cache n e :
  cache_ok log cache ->
  (forall e', In e' log -> e_anchor options e' = e_anchor options e ->
     e_time e' = e_time e /\ has_recovery (e_header e') = has_recovery (e_header e)) ->
  cache_ok (e :: log)
    (keep_last n (remove_entry (e_anchor options e) cache ++ [(e_anchor options e, e_time e, has_recovery (e_header e))])).
Proof.
  intros [N C] Inj. destruct (remove_entry_NoDup (e_anchor options e) cache N) as [N' D]. split.
  - unfold keep_last. rewrite <- skipn_map, map_app. apply NoDup_skipn, list.NoDup_app. split_and!; [done| |apply list.NoDup_singleton].
    intros a I. rewrite list_elem_of_In in I. apply in_map_iff in I as (x & <- & I). cbn. intros E.
    apply list_elem_of_singleton in E. by apply (D x I).
  - intros e' t r I X. unfold keep_last in X. apply skipn_In in X.
    apply in_app_iff in X as [X|[X|[]]].
    + destruct I as [->|I]; [by destruct (D _ X)|]. apply remove_entry_In in X. by apply C.
    + assert (e_anchor options e' = e_anchor options e /\ t = e_time e /\ r = has_recovery (e_header e)) as (Ea & -> & ->)
        by (split_and!; congruence).
      destruct I as [->|I]; [done|]. destruct (Inj e' I Ea) as [-> ->]. done.
Qed.

(** The store holds every entry, the anchor names the newest, the cache is
    true. *)
Definition represents (log : list Entry) (w : W) : Prop :=
  store_ok (w_store w)
  /\ (forall e, In e log -> exists meta, stored (w_store w) (e_key e) (e_version e) = Some (e_bytes e, meta))
  /\ accepted w = e_anchor options <$> hd_error log
  /\ cache_ok log (verified_publication_times w).

Context (log : list Entry) (log_ok_ : log_ok options keyring log).
Abbreviation P := (represents log).

Lemma get_gives e range bytes err :
  In e log -> read_range (e_bytes e) range = Ok bytes ->
  gives P (store_call err (get_range_at (e_key e) (e_version e) range)) (eq bytes).
Proof.
  intros I R w (K & Sd & A & C). destruct (Sd e I) as (meta & M).
  pose proof (get_stored _ _ _ range _ _ K M) as G. unfold store_call, io_map_err, on_store, io_on.
  pose proof (fun id v => get_keeps _ (e_key e) (e_version e) range id v K) as Ke.
  destruct (get_range_at (e_key e) (e_version e) range (w_store w)) as [r s']. cbn [fst snd] in *. rewrite G, R.
  exists bytes, (set_store s' w). unfold represents. split_and!; try done; [apply (Ke [] None)|].
  intros e' I'. cbn [set_store w_store]. rewrite (proj1 (Ke _ _)). by apply Sd.
Qed.

Lemma head_gives e err :
  In e log ->
  gives P (store_call err (head_at (e_key e) (e_version e)))
    (fun meta => content_len meta = len (e_bytes e) /\ meta_object_id meta = e_key e
       /\ (e_version e <> None -> meta_version_id meta = e_version e)).
Proof.
  intros I w (K & Sd & A & C). destruct (Sd e I) as (meta & M).
  pose proof (head_at_stored _ _ _ _ _ K M) as G. destruct (stored_meta _ _ _ _ _ K M) as (Mi & Ml & Mv & _).
  unfold store_call, io_map_err, on_store, io_on.
  pose proof (fun id v => head_at_keeps _ (e_key e) (e_version e) id v K) as Ke.
  destruct (head_at (e_key e) (e_version e) (w_store w)) as [r s']. cbn [fst snd] in *. rewrite G.
  exists meta, (set_store s' w). unfold represents. split_and!; try done; [apply (Ke [] None)| |].
  - intros e' I'. cbn [set_store w_store]. rewrite (proj1 (Ke _ _)). by apply Sd.
  - destruct (e_version e) as [v|]; [|done]. intros _. by apply Mv.
Qed.

Lemma read_slice body a n :
  0 <= a -> 0 <= n -> a + n <= len body -> len body <= u64_max -> read_range body (Slice a n) = Ok (slice a n body).
Proof.
  intros A N L U. unfold read_range, checked_add, reject_if.
  destruct (_ <=? _) eqn:B; b2p; [|lia]. cbn [ok_or rbind].
  destruct ((a >? len body) || (a + n >? len body)) eqn:C; [|done].
  apply orb_true_iff in C as [C|C]; b2p; lia.
Qed.

Lemma slice_app_l (a b : list byte) : slice 0 (len a) (a ++ b) = a.
Proof. unfold slice, len. rewrite Nat2Z.id. cbn [Z.to_nat skipn]. apply take_app_length. Qed.

Lemma slice_app_r (a b : list byte) i n : 0 <= i -> 0 <= n -> slice (len a + i) n (a ++ b) = slice i n b.
Proof.
  intros I N. unfold slice. f_equal. pose proof (len_nonneg a).
  rewrite Z2Nat.inj_add by lia. unfold len. rewrite Nat2Z.id, <- drop_drop, drop_app_length. done.
Qed.

Lemma range_gives e a n :
  In e log -> 0 <= a -> 0 <= n -> a + n <= len (e_bytes e) ->
  gives P (read_commit_range_at options (e_key e) (e_version e) (Slice a n)) (eq (slice a n (e_bytes e))).
Proof.
  intros I A N L. destruct (log_entries _ _ _ _ log_ok_ I) as (_ & U & _ & _ & V & _).
  unfold read_commit_range_at. eapply gives_of; [by rewrite V|]. apply get_gives; [done|]. by apply read_slice.
Qed.

Lemma header_gives e :
  In e log -> gives P (read_commit_header_at options keyring (e_key e) (e_version e)) (eq (parsed_of (e_header e))).
Proof.
  intros I. pose proof (log_entries _ _ _ _ log_ok_ I) as O.
  destruct (entry_layout _ _ _ O) as (span & S & Eb & _). destruct O as (E & U & A & T & V & _).
  pose proof S as S'. apply header_span_Ok in S' as [Lc Es]. set (c := encode_header_cbor (e_header e) Actual) in *.
  clearbody c. pose proof (len_nonneg c). pose proof (len_nonneg (e_region e)).
  assert (len span = 40 + len c) as Ls by (rewrite Es, len_app; done).
  assert (len (e_bytes e) = 40 + len c + len (e_region e)) as Lb by (rewrite Eb, len_app; lia).
  unfold read_commit_header_at. eapply gives_of; [by rewrite V|].
  eapply gives_bind; [apply get_gives; [done|]; apply (read_slice (e_bytes e) 0 40); lia|]. intros ? <-.
  assert (slice 0 40 (e_bytes e) = fixed_prefix (len c)) as Ep.
  { rewrite Eb, Es, <- app_assoc. apply (slice_app_l (fixed_prefix (len c))). }
  assert (v3_commit_header_span_len (fixed_prefix (len c)) = Ok (V3_HEADER_META_LEN + len c)) as Sp.
  { unfold v3_commit_header_span_len.
    rewrite (proj2 (parse_fixed_header_iff _ (Build_FixedHeader (len c) (V3_HEADER_META_LEN + len c)))); [done|].
    exists (len c), []. by rewrite app_nil_r. }
  rewrite Ep. eapply gives_of; [exact Sp|]. eapply (gives_bind _ _ _ (eq span)).
  - destruct (Z.eqb_spec (V3_HEADER_META_LEN + len c) V3_HEADER_META_LEN) as [Z|Z].
    { apply gives_ret. rewrite Es. assert (c = []) as -> by (apply nil_length_inv; unfold len in *; lia). by rewrite app_nil_r. }
    eapply gives_of.
    { unfold checked_sub. destruct (_ <=? _) eqn:B; [done|]. b2p. lia. }
    eapply gives_bind; [apply get_gives; [done|]; apply (read_slice (e_bytes e) 40); unfold V3_HEADER_META_LEN; lia|].
    intros ? <-. apply gives_ret. rewrite Eb, Es at 1. rewrite Es, <- app_assoc. f_equal.
    change 40 with (len (fixed_prefix (len c)) + 0). rewrite slice_app_r by (unfold V3_HEADER_META_LEN; lia).
    replace (V3_HEADER_META_LEN + len c - V3_HEADER_META_LEN) with (len c) by lia. symmetry. apply slice_app_l.
  - intros ? <-. eapply gives_of.
    { apply parse_header_iff. exists (e_header e), []. apply encode_object_Ok in E as (_ & D & _).
      split_and!; [done|by eapply section_count_bounded| |done]. exists span. by rewrite app_nil_r. }
    eapply gives_of; [|by apply gives_ret]. unfold validate_parent_time, reject_if, e_time in *.
    cbn [parsed_of parsed_header_]. destruct (_ <? 0) eqn:B; b2p; [lia|done].
Qed.

Lemma slice_split_at (a n m : Z) (l : list byte) :
  0 <= a -> 0 <= n <= m -> slice a m l = slice a n l ++ slice (a + n) (m - n) l.
Proof.
  intros A N. unfold slice. rewrite Z2Nat.inj_add, <- drop_drop by lia.
  replace (Z.to_nat m) with (Z.to_nat n + Z.to_nat (m - n))%nat by lia. by rewrite take_take_drop.
Qed.

Lemma chunks_give e chunk fuel a n :
  In e log -> 0 < chunk -> 0 <= a -> 0 <= n -> a + n <= len (e_bytes e) -> (chunk_count n chunk <= fuel)%nat ->
  gives P (read_chunks options fuel (e_key e) (e_version e) a n chunk) (eq (slice a n (e_bytes e))).
Proof.
  intros I C. pose proof (log_entries _ _ _ _ log_ok_ I) as (_ & U & _).
  revert a n. induction fuel as [|fuel IH]; intros a n A N L F; cbn [read_chunks].
  all: destruct (Z.leb_spec n 0) as [Le|G]; [apply gives_ret; by replace n with 0 by lia|].
  { rewrite (chunk_count_step n chunk) in F by lia. lia. }
  rewrite (chunk_count_step n chunk) in F by lia.
  eapply gives_bind; [apply range_gives; [done|lia..]|]. intros ? <-.
  assert (len (slice a (Z.min n chunk) (e_bytes e)) = Z.min n chunk) as Ls
    by (unfold len at 1; rewrite slice_length by lia; lia).
  eapply gives_of; [by rewrite Ls, Z.eqb_refl|].
  eapply (gives_of _ _ (a + Z.min n chunk)); [unfold checked_add; destruct (_ <=? _) eqn:B; [done|b2p; lia]|].
  eapply gives_bind; [apply (IH (a + Z.min n chunk) (n - Z.min n chunk)); lia|]. intros ? <-.
  apply gives_ret. apply slice_split_at; lia.
Qed.

Lemma section_gives e chunk d :
  In e log -> 0 < chunk -> In d (section_index (e_header e)) ->
  gives P (read_section options (e_key e) (e_version e) (sections_start (parsed_of (e_header e))) chunk d)
    (eq (slice (section_offset d) (section_length d) (e_region e))).
Proof.
  intros I C D. pose proof (log_entries _ _ _ _ log_ok_ I) as O.
  destruct (entry_layout _ _ _ O) as (span & _ & Eb & Es & T & F & _). pose proof O as (_ & U & (Wh & _) & _).
  destruct Wh as (_ & _ & _ & _ & _ & Ws & _).
  destruct (tiles_bounds _ 0 _ Ws ltac:(lia) T) as [B _]. rewrite List.Forall_forall in B, F.
  destruct (B d D) as (B1 & B2 & B3). pose proof (len_nonneg span).
  assert (len (e_bytes e) = len span + len (e_region e)) as Lb by (by rewrite Eb, len_app).
  unfold read_section. rewrite Es.
  eapply (gives_of _ _ (len span + section_offset d)); [unfold checked_add; destruct (_ <=? _) eqn:X; [done|b2p; lia]|].
  eapply gives_bind; [apply chunks_give; [done..|lia|lia|lia|done]|]. intros ? <-.
  rewrite Eb, slice_app_r by lia. eapply gives_of; [by rewrite (F d D), bool_decide_eq_true_2|]. by apply gives_ret.
Qed.

Lemma sections_give e limits pending before sections :
  In e log -> 0 < read_chunk_bytes limits -> 0 <= before ->
  max_retained_bytes limits + read_chunk_bytes limits <= pending -> pending <= u64_max ->
  (forall d, In d sections -> In d (section_index (e_header e))) ->
  before + kept_sum (e_region e) sections <= max_retained_bytes limits ->
  Forall (fun d => is_section Recovery d = true -> section_length d <= MAX_RECOVERY_SECTION_BYTES) sections ->
  gives P (verify_replay_sections_loop options (e_key e) (e_version e) (sections_start (parsed_of (e_header e))) limits
             pending sections before)
    (eq (map (kept (e_region e)) sections, before + kept_sum (e_region e) sections)).
Proof.
  intros I C B Lp Up. pose proof (log_entries _ _ _ _ log_ok_ I) as O.
  destruct (entry_layout _ _ _ O) as (span & _ & _ & _ & T & _). pose proof O as (_ & _ & (Wh & _) & _).
  destruct Wh as (_ & _ & _ & _ & _ & Ws & _). destruct (tiles_bounds _ 0 _ Ws ltac:(lia) T) as [Bd _].
  rewrite List.Forall_forall in Bd. revert before B.
  induction sections as [|d sections IH]; intros before B D L R; cbn [verify_replay_sections_loop].
  { apply gives_ret. cbn. f_equal. lia. }
  apply Forall_cons_iff in R as [Rd R]. rewrite kept_sum_cons in L |- *. cbn [map].
  pose proof (kept_sum_nonneg (e_region e) sections) as Ns.
  destruct (Bd d ltac:(apply D; by left)) as (B1 & B2 & B3). unfold kept at 1 in L. unfold kept at 1 3.
  destruct (is_retained_type (section_type d)) eqn:Ty; cbn [negb kept_len] in *.
  - assert (len (slice (section_offset d) (section_length d) (e_region e)) = section_length d) as Ls
      by (unfold len at 1; rewrite slice_length by lia; lia).
    rewrite Ls in L. eapply gives_of.
    { unfold reject_if. destruct (is_section Recovery d) eqn:Sr; [|done]. cbn [andb].
      destruct (_ >? _) eqn:X; [|done]. b2p. specialize (Rd eq_refl). lia. }
    eapply (gives_of _ _ (before + section_length d)).
    { unfold checked_add. destruct (_ <=? _) eqn:X; b2p; [|lia]. destruct (_ <=? max_retained_bytes limits) eqn:Y; [done|].
      b2p. lia. }
    eapply gives_of.
    { unfold checked_add. destruct (_ <=? u64_max) eqn:X; b2p; [|lia]. destruct (_ >? pending) eqn:Y; [|done]. b2p. lia. }
    eapply gives_bind; [apply section_gives; [done..|apply D; by left]|]. intros ? <-.
    eapply gives_bind; [apply IH; [lia|intros; apply D; by right|lia|done]|]. intros ? <-.
    apply gives_ret. rewrite Ls. f_equal. lia.
  - eapply gives_bind; [apply IH; [lia|intros; apply D; by right|lia|done]|]. intros ? <-.
    apply gives_ret. f_equal.
Qed.

Lemma remember_gives e :
  In e log ->
  gives P (remember_verified_publication_time (e_anchor options e) (e_time e) (has_recovery (e_header e))) (fun _ => True).
Proof.
  intros I. pose proof (log_entries _ _ _ _ log_ok_ I) as (_ & _ & _ & T & _).
  unfold remember_verified_publication_time. eapply (gives_of _ _ tt).
  { unfold validate_parent_time, reject_if. destruct (_ <? 0) eqn:B; b2p; [lia|done]. }
  intros w (K & Sd & A & C). eexists _, _. split; [done|]. split; [|done].
  unfold represents. split_and!; try done. cbn [set_times verified_publication_times].
  destruct (cache_remember log (verified_publication_times w) VERIFIED_PUBLICATION_TIME_CACHE_ENTRIES e C) as [N D].
  { intros e' I' E. assert (e' = e) as ->; [|done]. apply (log_sequence_inj options keyring log); try done.
    by injection E. }
  split; [exact N|]. intros e' t r I' X. apply (D e' t r); [by right|exact X].
Qed.

Lemma loop_gives limits pending sub e n c :
  0 < read_chunk_bytes limits -> max_retained_bytes limits + read_chunk_bytes limits <= pending -> pending <= u64_max ->
  max_total_commit_bytes limits <= u64_max ->
  log_ok options keyring sub -> (forall e, In e sub -> In e log) -> hd_error sub = Some e ->
  (next_key c, next_version_id c, next_digest c, next_sequence c)
    = (e_key e, e_version e, body_digest (e_header e), e_sequence e) ->
  (forall t, child_publish_time c = Some t -> e_time e < t) ->
  (forall e, In e sub -> bs_mem (e_key e) (seen_keys c) = false) ->
  0 <= total_commit_bytes c -> 0 <= total_retained c ->
  (length (replayed sub) <= n)%nat ->
  total_commit_bytes c + sum (map (fun e => len (e_bytes e)) (replayed sub)) <= max_total_commit_bytes limits ->
  total_retained c + sum (map (fun e => retained_len (e_commit e)) (replayed sub)) <= max_retained_bytes limits ->
  Forall (fun e => Forall (fun d => is_section Recovery d = true -> section_length d <= MAX_RECOVERY_SECTION_BYTES)
            (section_index (e_header e))) (replayed sub) ->
  gives P (load_chain_loop options keyring n limits pending c) (eq (map e_commit (replayed sub))).
Proof.
  intros Pc Lp Up Ut. revert e n c. induction sub as [|e0 sub IH]; intros e n c L In_ Hd Ec Tc Seen Pt Pr Ln Lt Lr Rs; [done|].
  injection Hd as ->. injection Ec as Ek Ev Ed Es. cbn [replayed] in *. destruct n as [|n]; [cbn in Ln; lia|].
  cbn [load_chain_loop]. rewrite !sum_cons in *. apply Forall_cons_iff in Rs as [Rd Rs].
  assert (In e log) as Ie by (apply In_; by left). pose proof (log_head _ _ _ _ L) as O.
  set (rest := match kind (e_header e) with Root => [] | Delta => replayed sub end) in *.
  pose proof (sum_nonneg (fun e => len (e_bytes e)) rest (fun a => len_nonneg (e_bytes a))) as S1.
  pose proof (sum_nonneg (fun e => retained_len (e_commit e)) rest (fun a => kept_sum_nonneg (e_region a) _)) as S2.
  pose proof (len_nonneg (e_bytes e)) as Lb. unfold bs_insert. rewrite Ek, Ev, Ed, Es, (Seen e) by (by left).
  eapply gives_of; [done|]. eapply gives_bind; [by apply head_gives|]. intros meta (-> & _).
  eapply (gives_of _ _ (total_commit_bytes c + len (e_bytes e))).
  { unfold checked_add. destruct (_ <=? u64_max) eqn:X; b2p; [|lia]. destruct (_ <=? max_total_commit_bytes limits) eqn:Y; [done|b2p; lia]. }
  eapply gives_bind; [by apply header_gives|]. intros ? <-. cbn [parsed_of parsed_header_].
  eapply gives_of; [by unfold e_sequence; rewrite Z.eqb_refl|]. eapply gives_of; [by rewrite bool_decide_eq_true_2|].
  eapply gives_of; [by apply (entry_object_len options keyring)|].
  eapply (gives_of _ _ tt).
  { destruct (child_publish_time c) as [t|] eqn:Ct; [|done]. apply validate_parent_time_Ok. specialize (Tc t eq_refl).
    destruct O as (_ & _ & _ & T & _). unfold e_time in *. lia. }
  eapply gives_bind.
  { apply sections_give; try done. change (kept_sum _ _) with (retained_len (e_commit e)). lia. }
  intros ? <-. change (kept_sum _ _) with (retained_len (e_commit e)).
  destruct (kind (e_header e)) eqn:K; subst rest; cycle 1.
  { rewrite bool_decide_eq_true_2 by done. by apply gives_ret. }
  rewrite bool_decide_eq_false_2 by done. destruct L as [_ L]. destruct sub as [|e' sub]; [by rewrite K in L|].
  destruct L as (Pp & Tt & L). rewrite Pp. cbn [parent_ref_of parent_commit_key].
  apply (gives_bind _ _ _ (eq (map e_commit (replayed (e' :: sub))))); [|intros ? <-; by apply gives_ret].
  apply (IH e'); try done; cbn [total_commit_bytes total_retained child_publish_time seen_keys length] in *; try lia.
  - intros; apply In_; by right.
  - by intros t [= <-].
  - intros x Ix. apply not_true_is_false. intros M. apply bs_mem_add in M as [M|M].
    + revert M. apply (log_keys_distinct options keyring e (e' :: sub)); [|done]. done.
    + rewrite (Seen x) in M by (by right). done.
  - pose proof (kept_sum_nonneg (e_region e) (section_index (e_header e))). change (kept_sum _ _) with (retained_len (e_commit e)) in *. lia.
Qed.
End Reading.

(** ** Loading *)

Section LogProperties.
Context {St : Type} `{BlobStore St} `{!BlobStoreLaws St} `{Primitives}.

Lemma load_log (options : V3CommitStoreOptions) (keyring : KeyRing) (log : list Entry)
    (w : World St V3MemoryAnchor) :
  let limits := opt_replay_limits options in
  wf_limits limits -> no_limit limits = false ->
  max_retained_bytes limits + read_chunk_bytes limits <= u64_max ->
  log_ok options keyring log -> fits limits (replayed log) -> represents options log w ->
  exists w', load_replay_chain_from_anchor options keyring w
      = (Ok (Some {| commits_newest_first := map e_commit (replayed log) |}), w')
    /\ represents options log w'.
Proof.
  intros limits Wl Nl Lp L (F1 & F2 & F3 & F4) R. destruct (no_limit_false _ Wl Nl) as (P1 & _ & _ & P4).
  destruct log as [|e older]; [done|]. set (log := e :: older) in *.
  assert (gives (represents options log)
    (load_replay_chain_from_state options keyring (e_anchor options e))
    (eq {| commits_newest_first := map e_commit (replayed log) |})) as G.
  { unfold load_replay_chain_from_state, load_replay_chain_from_state_with_limits, load_replay_chain_with_pending_limit.
    fold limits. eapply gives_of; [by rewrite Nl|].
    apply (gives_bind _ _ _ (eq (map e_commit (replayed log)))).
    { apply (loop_gives options keyring log L limits u64_max log e); try done; [apply Wl|unfold len in F1; lia]. }
    intros ? <-. eapply (gives_of _ _ (e_commit e)); [done|]. eapply gives_of; [by rewrite bool_decide_eq_true_2|].
    eapply gives_bind; [apply (remember_gives options keyring log L e); by left|]. intros _ _. by apply gives_ret. }
  unfold load_replay_chain_from_anchor, io_bind at 1, on_anchor, io_on. cbn [read_v3 memory_commit_anchor].
  pose proof R as (_ & _ & A & _). unfold memory_read_v3. unfold accepted in A. rewrite A. cbn [fmap option_fmap option_map hd_error log].
  destruct (G (set_anchor (w_anchor w) w)) as (chain & w' & E & R' & <-); [done|].
  exists w'. unfold io_bind. by rewrite E.
Qed.

(** C11: Replay reads the log: over a faithful object store, loading from the
    anchor always succeeds when the part of the log down to its newest root fits
    the replay limits; it returns exactly that part, newest first, each commit
    with its header and its index and recovery sections, and changes nothing. *)
Theorem log_replays (options : V3CommitStoreOptions) (keyring : KeyRing) (log : list Entry)
    (w : World St V3MemoryAnchor) :
  let limits := opt_replay_limits options in
  wf_limits limits -> no_limit limits = false ->
  max_retained_bytes limits + read_chunk_bytes limits <= u64_max ->
  log_ok options keyring log -> fits limits (replayed log) -> represents options log w ->
  exists w', load_replay_chain_from_anchor options keyring w
      = (Ok (Some {| commits_newest_first := map e_commit (replayed log) |}), w')
    /\ represents options log w'.
Proof. apply load_log. Qed.
End LogProperties.
