(* ===== verification/CommitAppend.v ===== *)
(** * Publishing appends to the log

    Over a faithful object store a successful publication appends one entry,
    with exactly the sections it was given, to the log that the commit store
    represents.  What the builder encodes is well formed, so replay accepts it. *)

From Stdlib Require Import Strings.String.
From S2P Require Import Prelude Effects Ord Text Types Storage External Keyring V3Wire ObjectKeys Commit CommitCodec.
From S2P Require Import CommitObject Format Anchor RecoveryPolicy RecoveryHistory StoreTypes CommitRead CommitWrite.
From S2P Require Import ChainFacts AnchorFacts CommitLog.
Open Scope Z_scope.
Import V3 Keys.

(** ** The section region *)

Definition sections_bytes (sections : list V3CommitSection) : list byte := flat_map cs_bytes sections.

Section Build.
Context `{Primitives} `{!PrimitivesLaws}.

Lemma section_region_loop region sections :
  (build_section_region_loop region sections).2 = region ++ sections_bytes sections
  /\ Forall (fun d => 0 <= section_offset d /\ 0 <= section_length d
       /\ section_offset d + section_length d <= len (region ++ sections_bytes sections)
       /\ length (section_digest d) = 32%nat) (build_section_region_loop region sections).1.
Proof.
  revert region. induction sections as [|s sections IH]; intros region; cbn [build_section_region_loop sections_bytes flat_map].
  { rewrite app_nil_r. split; [done|constructor]. }
  destruct (IH (region ++ cs_bytes s)) as [E F].
  destruct (build_section_region_loop (region ++ cs_bytes s) sections) as [index whole]. cbn [fst snd] in *.
  rewrite <- app_assoc in E, F. split; [done|]. constructor; [|done].
  cbn [section_offset section_length section_digest]. rewrite !len_app.
  pose proof (len_nonneg region). pose proof (len_nonneg (cs_bytes s)). pose proof (len_nonneg (sections_bytes sections)).
  split_and!; try lia; [fold (sections_bytes sections); lia|apply sha256_length].
Qed.

Lemma body_digest_length index region d : body_digest_for_v3_sections index region = Ok d -> length d = 32%nat.
Proof.
  unfold body_digest_for_v3_sections. destruct (validate_section_layout _ _); [|done]. cbn [rbind].
  generalize (@nil byte). induction index as [|s index IH]; intros hashed D; cbn [body_digest_loop] in D.
  - injection D as <-. apply sha256_length.
  - inv_bind. by eapply IH.
Qed.

(** Sections that pass the semantic checks have known types and one flag. *)
Lemma semantics_sections h :
  validate_commit_section_semantics h = Ok tt ->
  Forall (fun d => wf_section_type (section_type d) /\ section_flags d = 1) (section_index h).
Proof.
  unfold validate_commit_section_semantics. intros V. inv_bind. b2p.
  apply List.Forall_forall. intros d I. split.
  - match goal with X : valid_section_types h = true |- _ => unfold valid_section_types in X; rename X into T end.
    destruct (section_type d) eqn:Ty; try done. exfalso. apply (in_map section_type) in I. rewrite Ty in I.
    destruct (kind h); repeat case_match; try done; destruct_or?; simpl in I; naive_solver.
  - match goal with X : existsb _ _ = false |- _ => rename X into T end.
    assert (existsb (fun s => negb (section_flags s =? V3_SECTION_FLAG_MUST_UNDERSTAND)) [d] = false) as Td.
    { apply not_true_is_false. intros X. apply not_true_iff_false in T. apply T. apply existsb_exists in X as (x & [<-|[]] & X).
      apply existsb_exists. eauto. }
    cbn [existsb] in Td. rewrite orb_false_r in Td. by b2p.
Qed.

Lemma commit_key_wf s r k :
  is_u64 s -> length r = 32%nat -> V3CommitKey_from_parts s r = Ok k ->
  wf_id (object_id k) /\ V3CommitKey_parse (object_id k) = Ok k /\ sequence k = s.
Proof.
  intros U R E. rewrite from_parts_eq in E. apply ok_inj in E as <-. cbn [object_id sequence]. split_and!; [|by apply parse_from_parts|done].
  assert (len (b64_encode r) = 43) as Lb by (by apply b64_len_32).
  split; [|rewrite !len_app, len_cons, Lb; change (len COMMIT_PREFIX) with 12; unfold len; rewrite format_020_length; lia].
  change COMMIT_PREFIX with (x63 :: bytes_of_string "ommits/v03/"). rewrite <- app_comm_cons. apply ascii_name; [by vm_compute|].
  apply Forall_app. split; [by repeat constructor|]. apply Forall_app. split.
  - eapply List.Forall_impl; [|apply format_020_digits]. cbv beta. lia.
  - constructor; [by vm_compute|]. eapply List.Forall_impl; [|apply b64_encode_alphabet]. cbv beta. intros b I.
    assert (forallb (fun b => u8 b <? 128) B64_ALPHABET = true) as A by (vm_compute; reflexivity).
    rewrite forallb_forall in A. specialize (A b I). b2p. done.
Qed.
End Build.

(** ** The writer *)

Section Append.
Context {St : Type} `{BlobStore St} `{!BlobStoreLaws St} `{Primitives} `{!PrimitivesLaws}.
Context (options : V3CommitStoreOptions) (keyring : KeyRing).
Abbreviation W := (World St V3MemoryAnchor).

(** The keyring is valid, and the identifiers that the writer copies into
    headers are well formed. *)
Definition writer_ok : Prop :=
  KeyRing_new (keys keyring) = Ok keyring
  /\ (forall key, primary_key keyring CheckpointSigning = Ok key -> wf_id (key_id (descriptor key)))
  /\ wf_keyring_ref (opt_keyring_envelope_ref options).

(** The random source gives 32 bytes and the clock counts from the epoch. *)
Definition sources_ok (w : W) : Prop :=
  (forall n r, random w n = Some r -> length r = 32%nat) /\ (forall n t, clock w n = Some t -> 0 <= t).

(** Objects of a practical size. *)
Definition write_fits (write : V3CommitWrite) : Prop :=
  len (sections_bytes (write_sections write)) + V3_MAX_HEADER_SIZE <= u64_max.

(** The entry carries the sections and kind of the write. *)
Definition carries_write (write : V3CommitWrite) (e : Entry) : Prop :=
  (section_index (e_header e), e_region e) = build_section_region (write_sections write)
  /\ kind (e_header e) = write_kind write.

Context (Wr : writer_ok).

(** What the builder signs is authentic. *)
Lemma built_entry key r seq parent_ write index region digest time header bytes version :
  is_u64 seq -> length r = 32%nat -> V3CommitKey_from_parts seq r = Ok key ->
  match parent_ with Some p => wf_parent_ref p | None => True end -> is_i64 time -> 0 <= time ->
  write_fits write -> build_section_region (write_sections write) = (index, region) ->
  body_digest_for_v3_sections index region = Ok digest ->
  build_header options keyring key parent_ write index digest time = Ok header ->
  encode_object header region = Ok bytes ->
  unversioned options version = false -> match version with Some v => wf_id v | None => True end ->
  let e := {| e_header := header; e_region := region; e_version := version |} in
  entry_ok options keyring e /\ e_bytes e = bytes /\ e_key e = object_id key /\ e_sequence e = seq
  /\ parent (e_header e) = parent_ /\ e_time e = time /\ body_digest (e_header e) = digest
  /\ section_index header = index /\ kind header = write_kind write.
Proof.
  intros Us Lr Ek Wp It Pt Fw Er Ed Eh Eo Uv Wv e. destruct Wr as (Rn & Wk & We).
  destruct (commit_key_wf _ _ _ Us Lr Ek) as (Wi & Pk & Sk). unfold build_header in Eh.
  apply KeyRing_new_Ok in Rn as [Ering Rv]. inv_bind.
  match goal with V : validate_commit_section_semantics _ = Ok ?u |- _ => destruct u; pose proof (semantics_sections _ V) as Sem end.
  cbn [section_index] in Sem. apply sign_with_keyring_Ok in Eh as (mat & k & span & Pm & Ks & Sp & Ls & ->).
  cbn [self_ref parent publish_time_ms kind algorithms keyring_envelope_ref section_index body_digest] in *.
  assert (e_bytes e = bytes) as Eb by (unfold e_bytes; cbn [e e_header e_region]; by rewrite Eo).
  unfold build_section_region in Er. destruct (section_region_loop [] (write_sections write)) as [E2 F].
  rewrite Er in E2, F. cbn [fst snd app] in E2, F.
  assert (Forall wf_section index) as Ws.
  { rewrite List.Forall_forall in Sem, F. apply List.Forall_forall. intros d I. destruct (Sem d I) as [T Fl].
    destruct (F d I) as (F1 & F2 & F3 & F4). unfold wf_section, is_u64. unfold write_fits, V3_MAX_HEADER_SIZE in Fw.
    split_and!; try done; lia. }
  assert (len bytes <= u64_max) as Lb.
  { apply encode_object_Ok in Eo as (_ & _ & sp & Hs & ->). apply header_span_Ok in Hs as [Lc ->].
    rewrite !len_app. change (len (fixed_prefix _)) with 40. unfold write_fits, MAX_HEADER_CBOR_LEN, V3_MAX_HEADER_SIZE, V3_HEADER_META_LEN in *.
    subst region. lia. }
  unfold entry_ok, authentic, e_key, e_sequence, e_time, wf_header. cbn [e e_header e_region e_version self_ref parent publish_time_ms kind algorithms keyring_envelope_ref
    section_index body_digest header_signature signing_key_id self_commit_key self_sequence].
  apply primary_key_Ok in Pm as Pm'. destruct Pm' as (Im & Pp & _). apply is_primary_for_true in Pp as [Pp En].
  split_and!; try done; try congruence.
  - by eapply body_digest_length.
  - unfold len, V3_SIGNATURE_LEN in Ls. lia.
  - by apply Wk.
  - by exists key.
  - exists span. split; [done|]. rewrite Ering. by apply verify_own.
Qed.

(** ** Operations that only read *)

Definition reads_only {E A} (m : IO W E A) : Prop :=
  forall w, store_ok (w_store w) ->
  store_ok (w_store (m w).2) /\ (room (w_store w) -> room (w_store (m w).2))
  /\ (forall id v, stored (w_store (m w).2) id v = stored (w_store w) id v)
  /\ random (m w).2 = random w /\ clock (m w).2 = clock w.

Lemma reads_only_bind {E A B} (m : IO W E A) (k : A -> IO W E B) :
  reads_only m -> (forall a, reads_only (k a)) -> reads_only (io_bind m k).
Proof.
  intros M K w O. unfold io_bind. specialize (M w O). destruct (m w) as [[a|e] w1]; [|done].
  cbn [snd] in M. destruct M as (O1 & R1 & S1 & Er & Ec). destruct (K a w1 O1) as (O2 & R2 & S2 & Er2 & Ec2).
  split_and!; [done|auto|intros; by rewrite S2|congruence..].
Qed.

Lemma reads_of {E A} (r : result E A) : reads_only (io_of r : IO W E A).
Proof. by intros w O. Qed.

Lemma reads_same {E A} (m : IO W E A) :
  (forall w, w_store (m w).2 = w_store w /\ random (m w).2 = random w /\ clock (m w).2 = clock w) -> reads_only m.
Proof. intros M w O. destruct (M w) as (-> & Er & Ec). done. Qed.

Lemma reads_get e id v range : reads_only (store_call e (get_range_at id v range) : IO W _ _).
Proof.
  intros w O. unfold store_call, io_map_err, on_store, io_on.
  pose proof (fun id' v' => get_keeps _ id v range id' v' O) as K.
  destruct (get_range_at id v range (w_store w)) as [r s']. cbn [snd] in *.
  split_and!; try done; [apply (K [] None)..|intros; apply K].
Qed.

Lemma reads_head_at e id v : reads_only (store_call e (head_at id v) : IO W _ _).
Proof.
  intros w O. unfold store_call, io_map_err, on_store, io_on.
  pose proof (fun id' v' => head_at_keeps _ id v id' v' O) as K.
  destruct (head_at id v (w_store w)) as [r s']. cbn [snd] in *.
  split_and!; try done; [apply (K [] None)..|intros; apply K].
Qed.

Lemma reads_remember a t r : reads_only (remember_verified_publication_time a t r : IO W _ _).
Proof. unfold remember_verified_publication_time. apply reads_only_bind; [apply reads_of|]. intros _. by apply reads_same. Qed.

Lemma reads_only_header id v : reads_only (read_commit_header_at options keyring id v : IO W _ _).
Proof.
  unfold read_commit_header_at.
  repeat first [apply reads_only_bind; [|intros]|apply reads_of|apply reads_get|case_match].
Qed.

Lemma reads_facts a : reads_only (verified_parent_header_facts options keyring a : IO W _ _).
Proof.
  unfold verified_parent_header_facts. apply reads_only_bind.
  { apply reads_same. intros w. unfold cached_facts. by destruct (List.find _ _). }
  intros [facts|]; [apply reads_of|].
  repeat first [apply reads_of|apply reads_only_header|apply reads_remember|apply reads_only_bind; [|intros]].
Qed.

Lemma reads_verify id m p : reads_only (verify_commit_postconditions options id m p : IO W _ _).
Proof.
  unfold verify_commit_postconditions, verify_commit_protection_postconditions.
  repeat first [apply reads_only_bind; [|intros]|apply reads_of|apply reads_get|apply reads_head_at|case_match].
Qed.

(** ** The parent's time *)

Lemma facts_give log e :
  log_ok options keyring log -> In e log ->
  gives (represents options log) (verified_parent_header_facts options keyring (e_anchor options e))
    (eq (e_time e, has_recovery (e_header e))).
Proof.
  intros L I. unfold verified_parent_header_facts.
  apply (gives_bind _ _ _ (fun o => o = None \/ o = Some (e_time e, has_recovery (e_header e)))).
  - intros w R. pose proof R as (K & Sd & A & C). unfold cached_facts.
    destruct (List.find _ _) as [[[a t] r]|] eqn:F; [|by eexists _, _; eauto].
    apply find_some in F as [X E]. unfold is_entry in E. b2p. cbn in E. subst a.
    destruct (proj2 C e t r I X) as [-> ->]. eexists _, _. split; [done|]. split; [|by right].
    unfold represents. split_and!; try done. cbn [set_times verified_publication_times].
    set (cache := remove_entry _ _ ++ _).
    destruct (cache_remember options log (verified_publication_times w) (len cache) e C) as [N D].
    { intros e' I' E. assert (e' = e) as ->; [|done]. apply (log_sequence_inj options keyring log); try done. by injection E. }
    fold cache in N, D. unfold keep_last in N, D. rewrite Z.sub_diag in N, D. cbn [Z.to_nat skipn] in N, D.
    split; [exact N|]. intros e' t r I' X'. apply (D e' t r); [by right|exact X'].
  - intros o [->| ->]; [|by apply gives_ret].
    eapply gives_bind; [by apply header_gives|]. intros ? <-. cbn [parsed_of parsed_header_].
    eapply gives_of.
    { unfold e_anchor, e_sequence. cbn [anchor_sequence anchor_body_digest anchor_signing_key_id].
      by rewrite Z.eqb_refl, !bool_decide_eq_true_2. }
    eapply gives_bind; [by apply (remember_gives options keyring log L e)|]. intros _ _. by apply gives_ret.
Qed.
(** ** The upload *)

(** The parts of the state that the object store does not hold. *)
Definition same_but_store (w w' : W) : Prop :=
  random w' = random w /\ clock w' = clock w /\ w_anchor w' = w_anchor w
  /\ verified_publication_times w' = verified_publication_times w.

Definition holds (log : list Entry) (w : W) : Prop :=
  store_ok (w_store w)
  /\ forall e, In e log -> exists meta, stored (w_store w) (e_key e) (e_version e) = Some (e_bytes e, meta).

Lemma head_outcome log w id found w' :
  holds log w -> io_try (on_store (head id)) w = (Ok found : result StorageError _, w') ->
  holds log w' /\ same_but_store w w' /\ (room (w_store w) -> room (w_store w'))
  /\ forall v, stored (w_store w') id v = stored (w_store w) id v.
Proof.
  intros [O Sd] E. unfold io_try, on_store, io_on in E. pose proof (fun id' v' => head_keeps _ id id' v' O) as K.
  destruct (head id (w_store w)) as [r s']. cbn [snd] in K. injection E as _ <-. unfold holds. cbn [set_store w_store].
  split_and!; try done; [apply (K [] None)| |apply (K [] None)|intros; apply K].
  intros e I. rewrite (proj1 (K _ _)). by apply Sd.
Qed.

Lemma put_outcome log w id body options_ res w' :
  (forall e, In e log -> e_version e = None -> do_not_recreate options_ = true) ->
  holds log w -> room (w_store w) -> on_store (put id body options_) w = (res, w') ->
  same_but_store w w'
  /\ match res with
     | Err (AlreadyExists _) => holds log w' /\ room (w_store w')
     | Ok meta => holds log w' /\ stored (w_store w') id (meta_version_id meta) = Some (body, meta)
     | Err _ => True
     end.
Proof.
  intros D [O Sd] R E. unfold on_store, io_on in E. destruct (put id body options_ (w_store w)) as [r s'] eqn:Ep.
  injection E as <- <-. split; [done|]. unfold holds. cbn [set_store w_store].
  destruct r as [meta|[]]; try done.
  - destruct (put_Ok _ _ _ _ _ _ O R Ep) as (O' & S' & _ & _ & N & Keep). split_and!; try done.
    intros e I. destruct (Sd e I) as (m & M). exists m. apply Keep; [|done].
    destruct (e_version e) as [v|] eqn:Ev; [by left|right]. intros Ek. rewrite Ek, N in M; [done|]. by eapply D.
  - destruct (put_exists _ _ _ _ _ _ O Ep) as (O' & R' & S'). split_and!; try done; [|by apply R'].
    intros e I. rewrite S'. by apply Sd.
Qed.

Lemma upload_outcome log (w : W) id body r l res w' :
  log_ok options keyring log -> holds log w -> room (w_store w) ->
  put_commit_object options id body r l w = (res, w') ->
  same_but_store w w'
  /\ match res with
     | Err (AlreadyExists _) => holds log w' /\ room (w_store w')
     | Ok meta => holds log w' /\ stored (w_store w') id (meta_version_id meta) = Some (body, meta)
     | Err _ => True
     end.
Proof.
  intros L Ho R E. unfold put_commit_object in E.
  assert (forall o, do_not_recreate o = negb (bool_decide (opt_provider_profile options = RetainedVersionObjectLock)) ->
    forall e, In e log -> e_version e = None -> do_not_recreate o = true) as Dn.
  { intros o -> e I Ev. destruct (log_entries _ _ _ _ L I) as (_ & _ & _ & _ & U & _).
    unfold unversioned in U. rewrite Ev in U. by destruct (bool_decide (opt_provider_profile options = _)). }
  unfold io_bind at 1 in E. destruct (bool_decide (opt_provider_profile options = _)) eqn:B.
  2:{ by eapply put_outcome; [apply Dn| | |exact E]. }
  unfold io_bind at 1 in E. destruct (io_try (on_store (head id)) w) as [[found|[]] w1] eqn:T.
  2-16: by unfold io_try, on_store, io_on in T; destruct (head id (w_store w)).
  destruct (head_outcome _ _ _ _ _ Ho T) as (Ho1 & S1 & R1 & _).
  destruct found as [m|[]]; try (injection E as <- <-; by auto).
  assert (forall res w', same_but_store w1 w' /\ res -> same_but_store w w' /\ res) as Tr.
  { intros P w2 [S2 Rs]. split; [|done]. unfold same_but_store in *. destruct_and!. split_and!; congruence. }
  apply Tr. eapply put_outcome; [apply Dn| | |exact E]; auto.
Qed.

(** ** The attempts *)

Lemma store_call_cache {A} e (m : IO St StorageError A) (w : W) a w' :
  store_call e m w = (Ok a, w') -> verified_publication_times w' = verified_publication_times w.
Proof. unfold store_call, on_store. intros E. inv_io. apply io_on_Ok in E as (s & _ & ->). done. Qed.

Lemma verify_Ok id m p (w : W) exact w' :
  verify_commit_postconditions options id m p w = (Ok exact, w') ->
  meta_version_id exact = meta_version_id m /\ unversioned options (meta_version_id exact) = false
  /\ verified_publication_times w' = verified_publication_times w
  /\ (store_ok (w_store w) -> store_ok (w_store w') /\ forall i v, stored (w_store w') i v = stored (w_store w) i v).
Proof.
  intros E. pose proof (reads_verify id m p w) as Rv. rewrite E in Rv. cbn [snd] in Rv. revert E.
  assert (store_ok (w_store w) -> store_ok (w_store w') /\ forall i v, stored (w_store w') i v = stored (w_store w) i v) as St'
    by (intros O; by destruct (Rv O) as (? & _ & ? & _)). clear Rv.
  unfold verify_commit_postconditions, verify_commit_protection_postconditions, unversioned. intros E. inv_io.
  repeat match goal with X : store_call _ _ _ = (Ok _, _) |- _ => apply store_call_cache in X end.
  destruct (opt_provider_profile options); inv_io; inv_bind; b2p; (split_and!; [done| |congruence|done]); try done.
Qed.

Lemma represents_holds log w : represents options log w -> holds log w.
Proof. by intros (O & Sd & _). Qed.

(** The cache and the anchor after the upload of an entry. *)
Lemma accept_append e log expected {A} (b b' : A) (w w' : W) :
  log_ok options keyring (e :: log) -> holds (e :: log) w -> cache_ok options log (verified_publication_times w) ->
  io_bind (remember_verified_publication_time (e_anchor options e) (e_time e) (has_recovery (e_header e)))
    (fun _ => io_bind (on_anchor (compare_and_advance_v3 expected (e_anchor options e))) (fun _ => io_ret b)) w
    = (Ok b', w') ->
  b' = b /\ represents options (e :: log) w'.
Proof.
  intros L [O Sd] C E. inv_io. unfold remember_verified_publication_time in *. inv_io.
  match goal with X : (Ok tt, ?v) = (Ok tt, ?x) |- _ => assert (x = v) as -> by congruence; clear X end.
  match goal with X : on_anchor _ _ = _ |- _ => apply io_on_Ok in X as (a & X & ->); rename X into Cas end.
  split; [done|]. unfold represents. split_and!; try done.
  - cbn [compare_and_advance_v3 memory_commit_anchor] in Cas. unfold memory_compare_and_advance_v3 in Cas.
    destruct (negb _); [done|]. destruct (match memory_anchor _ with Some _ => _ | None => _ end); [done|].
    apply (f_equal snd) in Cas. cbn [snd] in Cas. by rewrite <- Cas.
  - cbn [set_anchor set_times verified_publication_times]. apply cache_remember; [done|].
    intros e' I X. exfalso. pose proof (log_sequences options keyring _ _ e' _ eq_refl L I).
    assert (e_sequence e' = e_sequence e) by (by injection X). lia.
Qed.

Lemma holds_sources (w w' : W) : same_but_store w w' -> sources_ok w -> sources_ok w'.
Proof. unfold same_but_store, sources_ok. intros (-> & -> & _) S. done. Qed.

Lemma generate_key_Ok r s k :
  generate_v3_commit_key r s = Ok k -> exists rid, r = Some rid /\ V3CommitKey_from_parts s rid = Ok k.
Proof.
  unfold generate_v3_commit_key. intros E. apply rbind_Ok in E as (rid & O & E). exists rid. split; [|exact E].
  destruct r as [x|]; [|done]. apply ok_inj in O. by rewrite O.
Qed.

Lemma draw_Ok (w : W) r w' :
  draw w = (Ok r, w') -> r = random w (draws w) /\ w_store w' = w_store w /\ same_but_store w w'.
Proof. unfold draw. by intros [= <- <-]. Qed.

Lemma now_Ok (w : W) t w' : publication_now_ms w = (Ok t, w') -> w_store w' = w_store w /\ same_but_store w w'.
Proof. intros E. by replace w' with (publication_now_ms w).2 by (by rewrite E). Qed.

(** The steps of one attempt up to and after the upload. *)
Lemma attempt_Ok n collided expected seq time build (w : W) st w' :
  write_attempts options keyring (S n) collided expected seq time build w = (Ok st, w') ->
  exists rid key write index region digest header body start retention hold post w2 res w3,
    random w (draws w) = Some rid /\ V3CommitKey_from_parts seq rid = Ok key /\ build key = Ok write
    /\ build_section_region (write_sections write) = (index, region)
    /\ body_digest_for_v3_sections index region = Ok digest
    /\ build_header options keyring key (parent_ref_of <$> expected) write index digest time = Ok header
    /\ encode_object header region = Ok body
    /\ w_store w2 = w_store w /\ same_but_store w w2
    /\ put_commit_object options (object_id key) body retention hold w2 = (res, w3)
    /\ match res with
       | Err (AlreadyExists _) => write_attempts options keyring n true expected seq time build w3 = (Ok st, w')
       | Ok meta => anchor_upload options expected seq time key index digest (signing_key_id header) start meta post w3
           = (Ok st, w')
       | Err _ => False
       end.
Proof.
  cbn [write_attempts]. intros E. apply io_bind_Ok in E as (r & w1 & Dr & E). apply draw_Ok in Dr as (Er & Ws1 & Sb1).
  apply io_bind_Ok in E as (key & w1' & X & E). apply io_of_Ok in X as [Ek ->].
  apply io_bind_Ok in E as (write & w1' & X & E). apply io_of_Ok in X as [Ew ->].
  apply io_bind_Ok in E as (now & w2 & X & E). apply now_Ok in X as [Ws2 Sb2].
  apply io_bind_Ok in E as (retention & w2' & X & E). apply io_of_Ok in X as [_ ->].
  apply io_bind_Ok in E as ([] & w2' & X & E). apply io_of_Ok in X as [_ ->].
  destruct (build_section_region (write_sections write)) as [index region] eqn:Ereg.
  apply io_bind_Ok in E as (digest & w2' & X & E). apply io_of_Ok in X as [Ed ->].
  apply io_bind_Ok in E as (header & w2' & X & E). apply io_of_Ok in X as [Eh ->].
  apply io_bind_Ok in E as (body & w2' & X & E). apply io_of_Ok in X as [Eb ->].
  apply io_bind_Ok in E as (start & w2' & X & E). apply io_of_Ok in X as [_ ->].
  apply io_bind_Ok in E as (res & w3 & X & E). apply (proj1 (@io_try_Ok _ _ V3FormatError _ _ _ _ _)) in X.
  apply generate_key_Ok in Ek as (rid & -> & Ek).
  assert (same_but_store w w2) as Sb by (unfold same_but_store in *; destruct_and!; split_and!; congruence).
  set (hold := strongest_legal_hold _ _) in *. set (post := {| expected_object_len := len body |}) in *.
  exists rid, key, write, index, region, digest, header, body, start, retention, hold, post, w2, res, w3.
  do 7 (split; [solve [assumption|symmetry; assumption]|]). split; [congruence|]. do 2 (split; [assumption|]).
  destruct res as [meta|[]]; try discriminate E; exact E.
Qed.

Lemma attempts_append head older n collided seq time build w st w' :
  let log := head :: older in
  log_ok options keyring log -> is_u64 seq -> seq = e_sequence head + 1 -> e_time head < time -> is_i64 time ->
  (forall key write, build key = Ok write -> write_fits write) ->
  represents options log w -> room (w_store w) -> sources_ok w ->
  write_attempts options keyring n collided (Some (e_anchor options head)) seq time build w = (Ok st, w') ->
  exists e write, log_ok options keyring (e :: log) /\ represents options (e :: log) w'
    /\ stored_anchor_state st = e_anchor options e /\ e_time e = time
    /\ build (stored_commit_key st) = Ok write /\ carries_write write e.
Proof.
  intros log L Us Es Lt It Bf. revert collided w. induction n as [|n IH]; intros collided w R Rm Sc E; [done|].
  apply attempt_Ok in E as (rid & key & write & index & region & digest & header & body & start & retention & hold & post
    & w2 & res & w3 & Er & Ek & Ew & Ereg & Ed & Eh & Eb & Ws2 & Sb2 & Put & E).
  destruct R as (O & Sd & A & C). assert (holds log w2) as Ho2 by (unfold holds; by rewrite Ws2).
  destruct (upload_outcome log w2 _ _ _ _ _ _ L Ho2 ltac:(by rewrite Ws2) Put) as [Sb3 Up].
  assert (same_but_store w w3) as Sb by (unfold same_but_store in *; destruct_and!; split_and!; congruence).
  pose proof Sb as (_ & _ & Sa & Sc3). destruct res as [meta|[]]; try done; cycle 1.
  { destruct Up as [[O3 S3] Rm3]. eapply IH; [|done|by eapply holds_sources|exact E]. unfold represents, accepted.
    rewrite Sa, Sc3. done. }
  destruct Up as [[O3 Sd3] M3]. unfold anchor_upload in E. apply io_bind_Ok in E as (exact_ & w4 & V & E). destruct (verify_Ok _ _ _ _ _ _ V) as (Ev & Uv & Ec & Vs).
  destruct (Vs O3) as [O4 S4], (stored_meta _ _ _ _ _ O3 M3) as (_ & _ & _ & Mv).
  destruct (log_head _ _ _ _ L) as (_ & _ & ((Wsf & _ & _ & _ & _ & _ & Wd & _) & _) & T0 & _ & Wv).
  set (e := {| e_header := header; e_region := region; e_version := meta_version_id exact_ |}).
  destruct (built_entry key rid seq (Some (parent_ref_of (e_anchor options head))) write index region digest time header body
    (meta_version_id exact_)) as (Oe & Be & Ke & Se & Pe & Te & De & Ie & Kie); try done;
    [by apply (proj1 Sc (draws w))|by destruct Wsf|lia|by eapply Bf|rewrite Ev; destruct (meta_version_id meta); [by apply Mv|done]|].
  fold e in Oe, Be, Ke, Se, Pe, Te, De.
  assert (log_ok options keyring (e :: log)) as Le by (split; [done|]; split_and!; [done|lia|done]).
  assert (holds (e :: log) w4) as He.
  { split; [done|]. intros x [<-|I]; rewrite S4; [|by apply Sd3]. exists meta. rewrite Ke, Be. cbn [e e_version]. by rewrite Ev. }
  assert ({| anchor_sequence := seq; anchor_commit_key := object_id key; anchor_body_digest := digest;
             anchor_version_id := meta_version_id exact_; anchor_signing_key_id := signing_key_id header;
             anchor_format_ref := opt_format_ref options |} = e_anchor options e) as Ea
    by (unfold e_anchor; by rewrite Se, Ke, De).
  cbv zeta in E. rewrite Ea, <- Te, <- Ie in E.
  change (existsb _ _) with (has_recovery (e_header e)) in E.
  apply (accept_append e log) in E as [-> Re]; [|done|done|by rewrite Ec, Sc3].
  exists e, write. split_and!; try done. split; [|done]. rewrite Ereg. cbn [e e_header e_region]. by rewrite Ie.
Qed.

(** ** Publications *)

Lemma now_range (w : W) t w' : sources_ok w -> publication_now_ms w = (Ok t, w') -> is_i64 t.
Proof.
  intros [_ C] E. unfold publication_now_ms in E. apply (f_equal fst) in E. cbn [fst] in E. apply ok_inj in E.
  unfold is_i64. destruct (clock w (ticks w)) as [x|] eqn:X; [|lia]. apply C in X. case_if_in E; b2p; lia.
Qed.

Lemma select_time parent selected (w : W) t w' :
  sources_ok w -> 0 <= parent -> is_i64 parent -> select_publish_time (Some parent) selected w = (Ok t, w') ->
  parent < t /\ is_i64 t /\ w_store w' = w_store w /\ same_but_store w w'.
Proof.
  intros Sc P0 Pi E. unfold select_publish_time in E. destruct selected as [chosen|].
  - apply io_bind_Ok in E as ([] & w1 & X & E). apply io_of_Ok in X as [Vp ->]. apply validate_parent_time_Ok in Vp.
    apply io_bind_Ok in E as (now & w1 & X & E). pose proof (now_range _ _ _ Sc X) as Ni. apply now_Ok in X as [Ws Sb].
    apply io_bind_Ok in E as ([] & w2 & X & E). apply io_of_Ok in X as [Vt ->].
    apply validate_publication_time_Ok in Vt; [|done]. inv_io. split_and!; try done; [lia|unfold is_i64; lia].
  - apply io_bind_Ok in E as (now & w1 & X & E). pose proof (now_range _ _ _ Sc X) as Ni. apply now_Ok in X as [Ws Sb].
    apply io_of_Ok in E as [Ct ->]. apply choose_publish_time_Ok in Ct as (Et & _ & _ & _ & _ & Vp & Vt); [|done..].
    apply validate_parent_time_Ok in Vp. apply validate_publication_time_Ok in Vt; [|done].
    split_and!; try done; [lia|unfold is_i64; lia].
Qed.

(** A state in which the log can be extended. *)
Definition ready (log : list Entry) (w : W) : Prop :=
  represents options log w /\ room (w_store w) /\ sources_ok w.

Lemma facts_ready head older (w : W) facts w' :
  let log := head :: older in
  log_ok options keyring log -> ready log w ->
  verified_parent_header_facts options keyring (e_anchor options head) w = (Ok facts, w') ->
  facts = (e_time head, has_recovery (e_header head)) /\ ready log w'.
Proof.
  intros log L (R & Rm & Sc) E. destruct (facts_give log head L ltac:(by left) w R) as (f & w1 & X & R' & <-).
  rewrite X in E. injection E as <- <-. pose proof (reads_facts (e_anchor options head) w (proj1 R)) as (_ & Rm' & _ & Er & Ec).
  rewrite X in Rm', Er, Ec. cbn [snd] in *. split; [done|]. split_and!; [done|auto|unfold sources_ok; by rewrite Er, Ec].
Qed.

(** What [publication_appends] states of a publication over a ready state. *)
Definition appends (log : list Entry) (build : V3CommitKey -> V3Result V3CommitWrite) (st : V3StoredCommit) (w' : W) : Prop :=
  exists e write, log_ok options keyring (e :: log) /\ represents options (e :: log) w'
    /\ stored_anchor_state st = e_anchor options e /\ build (stored_commit_key st) = Ok write /\ carries_write write e.

Lemma builder_append head older selected build (w : W) st w' seq :
  let log := head :: older in
  log_ok options keyring log -> ready log w -> (forall key write, build key = Ok write -> write_fits write) ->
  ok_or (Sequence_checked_next (e_sequence head)) InvalidHeaderField = Ok seq ->
  write_commit_with_expected_anchor_builder options keyring (Some (e_anchor options head)) seq selected build w = (Ok st, w') ->
  appends log build st w'.
Proof.
  intros log L Rd Bf Sq E. unfold write_commit_with_expected_anchor_builder, verified_parent_publish_time in E.
  apply io_bind_Ok in E as (pt & w1 & X & E). apply io_bind_Ok in X as (time & w1' & X & Y).
  apply io_bind_Ok in X as ([time' rec] & w0 & X & Z). injection Z as <- <-. injection Y as <- <-.
  destruct (facts_ready head older _ _ _ L Rd X) as [F (R1 & Rm1 & Sc1)]. injection F as -> _.
  apply io_bind_Ok in E as (t & w2 & X2 & E). pose proof (log_head _ _ _ _ L) as (_ & _ & (Wh & _) & T0 & _).
  destruct (select_time _ _ _ _ _ Sc1 T0 ltac:(apply Wh) X2) as (Lt & It & Ws & Sb).
  unfold Sequence_checked_next in Sq. destruct (checked_add (e_sequence head) 1) as [s|] eqn:Cs; [|done]. apply ok_inj in Sq as <-.
  apply checked_add_Some in Cs as [-> Us]. destruct Wh as ((Uh & _) & _). unfold is_u64 in Uh.
  destruct (attempts_append head older MAX_RANDOM_KEY_ATTEMPTS false (e_sequence head + 1) t build w2 st w') as
    (e & write & Le & Re & Ea & _ & Bw & Cw); try done.
  - unfold is_u64, e_sequence in *. lia.
  - destruct Sb as (_ & _ & Sa & Sc'). destruct R1 as (O1 & S1 & A1 & C1). unfold represents, accepted. by rewrite Ws, Sa, Sc'.
  - by rewrite Ws.
  - by eapply holds_sources.
  - by exists e, write.
Qed.

(** The writes that a publication builds; adoptions build none. *)
Definition builder_of (p : Publication) : option (V3CommitKey -> V3Result V3CommitWrite) :=
  match p with
  | ChildCommit write => Some (fun _ => Ok write)
  | ChildCommitWith build => Some build
  | PreparedChild _ build => Some build
  | AdoptUnanchored _ _ | AdoptVerified _ _ _ => None
  end.

Lemma ready_anchor head older (w : W) :
  ready (head :: older) w -> on_anchor read_v3 w = (Ok (Some (e_anchor options head)), set_anchor (w_anchor w) w)
  /\ ready (head :: older) (set_anchor (w_anchor w) w).
Proof.
  intros ((O & Sd & A & C) & Rm & Sc). split; [|done]. unfold on_anchor, io_on. cbn [read_v3 memory_commit_anchor].
  unfold memory_read_v3. unfold accepted in A. by rewrite A.
Qed.

Lemma native_ready head older (w : W) current seq w' :
  let log := head :: older in
  log_ok options keyring log -> ready log w -> native_parent options keyring w = (Ok (current, seq), w') ->
  current = e_anchor options head /\ ready log w'
  /\ ok_or (Sequence_checked_next (e_sequence head)) InvalidHeaderField = Ok seq.
Proof.
  intros log L Rd E. destruct (ready_anchor _ _ _ Rd) as [Ra Rd']. unfold native_parent in E.
  apply io_bind_Ok in E as ([] & w1 & X & E). apply io_of_Ok in X as [_ ->].
  apply io_bind_Ok in E as (c & w1 & X & E). rewrite Ra in X. injection X as <- <-.
  apply io_bind_Ok in E as (c & w1 & X & E). apply io_of_Ok in X as [X ->]. apply ok_inj in X as <-.
  apply io_bind_Ok in E as ([time rec] & w1 & X & E). destruct (facts_ready head older _ _ _ L Rd' X) as [_ Rd1].
  apply io_bind_Ok in E as ([] & w2 & Y & E). apply io_of_Ok in Y as [_ ->].
  apply io_bind_Ok in E as (s & w2 & Y & E). apply io_of_Ok in Y as [Sq ->]. by injection E as <- <- <-.
Qed.

Lemma publish_append head older p build (w : W) st w' :
  let log := head :: older in
  log_ok options keyring log -> ready log w -> builder_of p = Some build ->
  (forall key write, build key = Ok write -> write_fits write) ->
  publish options keyring p w = (Ok st, w') -> appends log build st w'.
Proof.
  intros log L Rd Bp Bf E. destruct p as [write|b|plan b| |]; try done; injection Bp as <-; cbn [publish] in E.
  - unfold write_child_commit in E. apply io_bind_Ok in E as ([c s] & w1 & X & E).
    destruct (native_ready head older _ _ _ _ L Rd X) as (-> & Rd1 & Sq).
    apply io_bind_Ok in E as ([] & w2 & Y & E). apply io_of_Ok in Y as [_ ->]. by eapply builder_append.
  - unfold write_child_commit_with in E. apply io_bind_Ok in E as ([c s] & w1 & X & E).
    destruct (native_ready head older _ _ _ _ L Rd X) as (-> & Rd1 & Sq).
    assert (forall key write, (write <-? b key ;; reject_if (carries_recovery write) InvalidRecoveryHistory ;;? Ok write)%rs
      = Ok write -> b key = Ok write) as Bb.
    { intros key write B. apply rbind_Ok in B as (x & B & Y). unfold reject_if in Y. destruct (carries_recovery x); [done|].
      by injection Y as <-. }
    apply (builder_append head older) in E as (e & write & Le & Re & Ea & Bw & Cw); [|done|done|by eauto|done].
    exists e, write. eauto 10.
  - unfold write_prepared_child_commit_with in E. destruct (ready_anchor _ _ _ Rd) as [Ra Rd'].
    apply io_bind_Ok in E as (c & w1 & X & E). rewrite Ra in X. injection X as <- <-.
    apply io_bind_Ok in E as ([] & w2 & Y & E). apply io_of_Ok in Y as [Y ->]. unfold reject_if in Y.
    destruct (bool_decide _) eqn:B; [|done]. b2p. injection B as B. rewrite <- B in E. clear Y B.
    unfold verified_parent_publish_time in E at 1. apply io_bind_Ok in E as (t & w2 & X & E).
    apply io_bind_Ok in X as ([t' rec] & w3 & X & Z). injection Z as <- <-.
    destruct (facts_ready head older _ _ _ L Rd' X) as [_ Rd1].
    apply io_bind_Ok in E as ([] & w4 & Y & E). apply io_of_Ok in Y as [_ ->].
    apply io_bind_Ok in E as (s & w4 & Y & E). apply io_of_Ok in Y as [Sq ->]. by eapply builder_append.
Qed.
End Append.

(** ** Properties *)

Section AppendProperties.
Context {St : Type} `{BlobStore St} `{!BlobStoreLaws St} `{Primitives} `{!PrimitivesLaws}.

(** C1: Publishing appends to the log and nothing else: over a faithful object
    store, when a child commit or a prepared child is accepted, the commit store
    represents the old log with one entry in front, which carries exactly the
    sections and kind of the write that was built for its key and is named by
    the accepted anchor; and from that state replay returns that commit followed
    by what it returned before, or that commit alone when it is a root. *)
Theorem publication_appends (options : V3CommitStoreOptions) (keyring : KeyRing) (head : Entry) (older : list Entry)
    (p : Publication) (build : V3CommitKey -> V3Result V3CommitWrite) (w w' : World St V3MemoryAnchor) (st : V3StoredCommit) :
  let log := head :: older in
  let limits := opt_replay_limits options in
  writer_ok options keyring -> log_ok options keyring log -> ready options log w ->
  builder_of p = Some build -> (forall key write, build key = Ok write -> write_fits write) ->
  wf_limits limits -> no_limit limits = false -> max_retained_bytes limits + read_chunk_bytes limits <= u64_max ->
  publish options keyring p w = (Ok st, w') ->
  exists e write, log_ok options keyring (e :: log) /\ represents options (e :: log) w'
    /\ stored_anchor_state st = e_anchor options e /\ build (stored_commit_key st) = Ok write /\ carries_write write e
    /\ (fits limits (replayed (e :: log)) ->
        exists w2, load_replay_chain_from_anchor options keyring w'
          = (Ok (Some {| commits_newest_first :=
               e_commit e :: match write_kind write with Root => [] | Delta => map e_commit (replayed log) end |}), w2)).
Proof.
  intros log limits Wr L Rd Bp Bf Wl Nl Lp E.
  destruct (publish_append options keyring Wr head older p build w st w' L Rd Bp Bf E) as (e & write & Le & Re & Ea & Bw & Cw).
  exists e, write. split_and!; try done. intros F.
  destruct (load_log options keyring (e :: log) w' Wl Nl Lp Le F Re) as (w2 & Ld & _). exists w2. rewrite Ld.
  destruct Cw as [_ Kd]. cbn [replayed]. rewrite Kd. by destruct (write_kind write).
Qed.
End AppendProperties.
