(* ===== verification/StoreSamples.v ===== *)
(** * A sample repository

    A commit store over the in-memory object store and anchor: a root and two
    children are published, and the theorems about chains and anchors are
    applied to it. *)

From Stdlib Require Import Strings.String.
From S2P Require Import Prelude Effects Ord Text Types Storage MemoryStore MemoryFacts External Keyring V3Wire ObjectKeys.
From S2P Require Import Commit CommitCodec CommitObject Format Anchor RecoveryPolicy RecoveryHistory StoreTypes CommitRead.
From S2P Require Import CommitWrite ChainFacts AnchorFacts CommitLog CommitAppend.
Open Scope Z_scope.
Import V3 Keys Reference.

Module StoreSample.
Definition format_ref : V3FormatRef :=
  {| fr_generation := 1; fr_digest := bytes_of_string "digest"; fr_object_id := bytes_of_string "format/root";
     fr_version_id := None |}.

Definition options : V3CommitStoreOptions :=
  for_profile Dev (bytes_of_string "repository")
    {| ke_object_id := bytes_of_string "envelope"; ke_digest := List.repeat x22 32 |} format_ref.

Definition ring : KeyRing := {| keys := sample_keys |}.

(** A clock that advances by a millisecond, and a fresh key for each draw. *)
Definition start : World MemoryState V3MemoryAnchor :=
  {| w_store := MemoryBlobStore_new (Some 1700000000000); w_anchor := {| memory_anchor := None |};
     verified_publication_times := []; inflight_standalone_objects := [];
     clock := fun n => Some (1700000000000 + Z.of_nat n); ticks := 0;
     random := fun n => Some (to_be_bytes 32 (Z.of_nat n)); draws := 0 |}.

Definition section (t : V3SectionType) (bytes : string) : V3CommitSection :=
  {| cs_section_type := t; cs_flags := 1; cs_bytes := bytes_of_string bytes |}.

Definition root_write : V3CommitWrite := V3CommitWrite_snapshot [section IndexRoot "index root"].
Definition delta_write : V3CommitWrite :=
  V3CommitWrite_delta [section PayloadPack "payload"; section IndexRun "index run"].

Definition with_root : World MemoryState V3MemoryAnchor :=
  (write_commit_with_expected_anchor options ring None 1 root_write start).2.
Definition with_child : World MemoryState V3MemoryAnchor := (write_child_commit options ring delta_write with_root).2.

Definition no_anchor : V3AnchorState :=
  {| anchor_sequence := 0; anchor_commit_key := []; anchor_body_digest := []; anchor_version_id := None;
     anchor_signing_key_id := []; anchor_format_ref := format_ref |}.
Definition head_of (w : World MemoryState V3MemoryAnchor) : V3AnchorState :=
  match accepted w with Some a => a | None => no_anchor end.
End StoreSample.

Import StoreSample.

Lemma replay_chain_authentic_witness :
  let load := load_replay_chain_with_pending_limit options ring (head_of with_child) V3ReplayLimits_default u64_max in
  succeeded load with_child = true
  /\ len (commits_newest_first (outcome {| commits_newest_first := [] |} load with_child)) <= 4096
  /\ length (commits_newest_first (outcome {| commits_newest_first := [] |} load with_child)) = 2%nat.
Proof.
  intros load. assert (succeeded load with_child = true) as S by (vm_compute; reflexivity).
  split; [exact S|]. split; [|vm_compute; reflexivity].
  refine (proj1 (proj2 (proj2 (proj2 (replay_chain_authentic options ring (head_of with_child) V3ReplayLimits_default
    u64_max with_child (load with_child).2 (outcome {| commits_newest_first := [] |} load with_child) _
    (succeeded_Ok _ load with_child S)))))).
  unfold wf_limits, is_u64, V3ReplayLimits_default. vm_compute. split_and!; discriminate.
Defined.

Lemma section_reads_complete_witness :
  read_chunks options 9 (anchor_commit_key (head_of with_child)) (anchor_version_id (head_of with_child)) 0 100 40 with_child
  = read_chunks options 3 (anchor_commit_key (head_of with_child)) (anchor_version_id (head_of with_child)) 0 100 40 with_child.
Proof.
  refine (proj1 (section_reads_complete options 9 _ _ 0 100 40 with_child _ _ _)); vm_compute; [discriminate|reflexivity|].
  repeat constructor.
Defined.


(** ** A log of one root *)

Module LogSample.
(** The root that [with_root] published. *)
Definition root_commit : V3ReplayCommit :=
  outcome {| replay_header := {| parsed_header_ := Sample.signed; header_len := 0; sections_start := 0 |};
             replay_version_id := None; replay_object_len := 0; retained_sections := [] |}
    (read_commit_from_anchor_state options ring (head_of with_root)) with_root.

Definition root_header : V3CommitHeader := Eval vm_compute in header_of root_commit.
Definition root_region : list byte := bytes_of_string "index root".
Definition root_body : list byte := Eval vm_compute in
  match encode_object root_header root_region with Ok bytes => bytes | Err _ => [] end.

Definition put_options : PutOptions :=
  {| put_retention := None; put_legal_hold := None; put_content_type := None; do_not_recreate := true |}.
Definition root_key : text := Eval vm_compute in self_commit_key (self_ref root_header).
Definition version : text := version_name 1.
Definition root_entry : Entry := {| e_header := root_header; e_region := root_region; e_version := Some version |}.

Definition no_meta : BlobMetadata :=
  {| meta_object_id := []; content_len := 0; modified_at_ms := None; etag := None; meta_version_id := None;
     meta_retention := None; retain_until_ms := None; meta_legal_hold := None |}.
Definition root_put : IO MemoryState StorageError BlobMetadata := memory_put root_key root_body put_options.

Definition root_world : World MemoryState V3MemoryAnchor :=
  {| w_store := (root_put (MemoryBlobStore_new None)).2;
     w_anchor := {| memory_anchor := Some (e_anchor options root_entry) |};
     verified_publication_times := []; inflight_standalone_objects := [];
     clock := fun n => Some (1700000000000 + Z.of_nat n); ticks := 9;
     random := fun n => Some (to_be_bytes 32 (Z.of_nat n)); draws := 9 |}.

Lemma root_stored :
  memory_ok (w_store root_world)
  /\ memory_stored (w_store root_world) root_key (Some version) = Some (root_body, outcome no_meta root_put (MemoryBlobStore_new None)).
Proof.
  assert (succeeded root_put (MemoryBlobStore_new None) = true) as S by (vm_compute; reflexivity).
  destruct (memory_put_Ok (MemoryBlobStore_new None) root_key root_body put_options _ _ (memory_new_ok None) ltac:(done)
    (succeeded_Ok no_meta root_put _ S)) as (O & M & _).
  split; [exact O|]. rewrite <- M. f_equal.
Qed.

Lemma root_log_ok : log_ok options ring [root_entry].
Proof.
  assert (parse_v3_commit_object root_key root_body ring
    = Ok {| parsed_header := parsed_of root_header; Commit.version_id := None; body := root_body |}) as P by (vm_compute; reflexivity).
  assert (encode_object root_header root_region = Ok root_body) as E by (vm_compute; reflexivity).
  apply parse_object_iff in P as (h & region & A & _ & Eh).
  assert (h = root_header) as -> by (by apply (f_equal (fun p => parsed_header_ (parsed_header p))) in Eh).
  assert (e_bytes root_entry = root_body) as Eb by (unfold e_bytes; cbn [root_entry e_header e_region]; by rewrite E).
  split; [|by vm_compute]. unfold entry_ok. rewrite Eb. split_and!; [exact E|by vm_compute|exact A|by vm_compute|by vm_compute|].
  split; by vm_compute.
Qed.

Lemma root_ready : ready options [root_entry] root_world.
Proof.
  destruct root_stored as [O M]. split_and!; [|by vm_compute|].
  - split; [exact O|]. split; [|split; [reflexivity|split; [constructor|done]]].
    intros e [<-|[]]. eexists. rewrite (eq_refl : e_key root_entry = root_key). cbn [stored memory_store_laws root_entry e_version].
    assert (e_bytes root_entry = root_body) as Eb by (vm_compute; reflexivity).
    fold root_entry. rewrite Eb. exact M.
  - split; [|intros n t E; injection E as <-; lia]. intros n r E. cbn [root_world random] in E. assert (r = to_be_bytes 32 (Z.of_nat n)) as -> by congruence.
    apply length_to_be_bytes.
Qed.

Lemma sample_writer_ok : writer_ok options ring.
Proof.
  split; [vm_compute; reflexivity|]. split; [|by vm_compute].
  intros key P. assert (key = Sample.signing_key) as -> by (apply (@ok_inj CryptoError); rewrite <- P; vm_compute; reflexivity).
  by vm_compute.
Qed.

Lemma sample_limits :
  wf_limits (opt_replay_limits options) /\ no_limit (opt_replay_limits options) = false
  /\ max_retained_bytes (opt_replay_limits options) + read_chunk_bytes (opt_replay_limits options) <= u64_max.
Proof. unfold wf_limits, is_u64. by vm_compute; split_and!. Qed.

(** The root alone is within the limits. *)
Lemma root_fits : fits (opt_replay_limits options) (replayed [root_entry]).
Proof. unfold fits. split_and!; [by vm_compute..|]. repeat constructor; by vm_compute. Qed.
End LogSample.
Import LogSample.

Lemma log_replays_witness :
  exists w', load_replay_chain_from_anchor options ring root_world
    = (Ok (Some {| commits_newest_first := [e_commit root_entry] |}), w').
Proof.
  destruct sample_limits as (L1 & L2 & L3).
  destruct (log_replays options ring [root_entry] root_world L1 L2 L3 root_log_ok root_fits (proj1 root_ready)) as (w' & E & _).
  exists w'. exact E.
Defined.

Lemma publication_appends_witness :
  let m := publish options ring (ChildCommit delta_write) in
  succeeded m root_world = true
  /\ exists e, log_ok options ring [e; root_entry] /\ represents options [e; root_entry] (m root_world).2
       /\ carries_write delta_write e.
Proof.
  intros m. assert (succeeded m root_world = true) as S by (vm_compute; reflexivity). split; [exact S|].
  destruct sample_limits as (L1 & L2 & L3).
  destruct (publication_appends options ring root_entry [] (ChildCommit delta_write) (fun _ => Ok delta_write) root_world _ _
    sample_writer_ok root_log_ok root_ready eq_refl ltac:(intros key write B; injection B as <-; vm_compute; discriminate) L1 L2 L3
    (succeeded_Ok {| verified_retain_until_ms := None; stored_publish_time_ms := 0; stored_anchor_state := no_anchor;
       stored_commit_key := {| sequence := 0; random_id := []; object_id := [] |}; stored_version_id := None;
       stored_object_len := 0; stored_sections_start := 0 |} m root_world S)) as (e & write & Le & Re & _ & Bw & Cw & _).
  exists e. apply ok_inj in Bw as <-. split; [exact Le|]. split; [exact Re|exact Cw].
Defined.
