(* ===== verification/RecoveryFacts.v ===== *)
(** * What recovery validation decides

    Each validation function of [RecoveryHistory] as the condition it checks:
    points ordered by sequence and time, pages ordered by the sequences they
    cover, claims that summarise their page. *)

From Stdlib Require Import Sorting.Sorted.
From S2P Require Import Prelude Ord Text Types External V3Wire ObjectKeys Commit Format Anchor.
From S2P Require Import RecoveryPolicy RecoveryHistory.
Open Scope Z_scope.
Import V3.

(** ** Lists *)

Lemma StronglySorted_filter {A} (R : A -> A -> Prop) f l :
  StronglySorted R l -> StronglySorted R (List.filter f l).
Proof.
  induction 1 as [|a l S IH F]; cbn [List.filter]; [constructor|]. destruct (f a); [|done].
  constructor; [done|]. apply List.Forall_forall. intros x I. apply filter_In in I as [I _].
  by apply (proj1 (List.Forall_forall _ _) F).
Qed.

Lemma StronglySorted_snoc {A} (R : A -> A -> Prop) l a :
  StronglySorted R (l ++ [a]) <-> StronglySorted R l /\ Forall (fun x => R x a) l.
Proof.
  induction l as [|b l IH]; simpl.
  { split; [by repeat constructor|intros _; by repeat constructor]. }
  rewrite Forall_cons_iff. split.
  - intros S. apply StronglySorted_inv in S as [S F]. apply IH in S as [S1 S2].
    apply Forall_app in F as [F1 F2]. apply Forall_cons_iff in F2 as [Rba _]. split; [by constructor|done].
  - intros [S [Rba F]]. apply StronglySorted_inv in S as [S Fb]. constructor; [by apply IH|].
    apply Forall_app. split; [done|by repeat constructor].
Qed.

Lemma Forall_filter {A} (P : A -> Prop) f l : Forall P l -> Forall P (List.filter f l).
Proof.
  rewrite !List.Forall_forall. intros F x I. apply filter_In in I as [I _]. auto.
Qed.

Lemma Forall_filter_true {A} (f : A -> bool) l : Forall (fun x => f x = true) (List.filter f l).
Proof. apply List.Forall_forall. intros x I. by apply filter_In in I as [_ ?]. Qed.

Lemma len_filter {A} (f : A -> bool) l : len (List.filter f l) <= len l.
Proof. induction l as [|a l IH]; cbn [List.filter]; [done|]. destruct (f a); rewrite ?len_cons; lia. Qed.

Lemma existsb_false {A} (f : A -> bool) l : existsb f l = false <-> Forall (fun x => f x = false) l.
Proof.
  induction l as [|a l IH]; simpl; [by split|]. rewrite orb_false_iff, Forall_cons_iff, IH. done.
Qed.

(** ** Points *)

Abbreviation point_sequence p := (anchor_sequence (point_anchor p)).

(** Strictly earlier, by sequence and by publication time. *)
Definition before (p q : RecoveryPoint) : Prop :=
  point_sequence p < point_sequence q /\ point_publish_time_ms p < point_publish_time_ms q.

#[export] Instance before_trans : Transitive before.
Proof. unfold before. intros p q r ? ?. lia. Qed.

Definition follows (previous : option (Z * Z)) (p : RecoveryPoint) : Prop :=
  match previous with
  | Some (sequence, time) => sequence < point_sequence p /\ time < point_publish_time_ms p
  | None => True
  end.

Definition times_of (p : RecoveryPoint) : Z * Z := (point_sequence p, point_publish_time_ms p).

Section Facts.
Context `{Primitives}.

Definition point_ok (p : RecoveryPoint) : Prop :=
  validate_anchor (point_anchor p) = Ok tt /\ 0 <= point_publish_time_ms p < protected_until_ms p.

Lemma validate_point_Ok p : validate_point p = Ok tt <-> point_ok p.
Proof.
  unfold validate_point, point_ok, reject_if. destruct (validate_anchor _) as [[]|]; cbn [rbind]; [|naive_solver].
  case_if; [b2p; apply orb_true_iff in Heqb as [?|?]; b2p; (split; [done|lia])|].
  b2p. split; [intros _; split; [done|lia]|done].
Qed.

Lemma validate_points_loop_Ok previous l :
  validate_points_loop previous l = Ok tt <->
  Forall point_ok l /\ StronglySorted before l /\ Forall (follows previous) l.
Proof.
  revert previous. induction l as [|p l IH]; intros previous; cbn [validate_points_loop].
  { split; [by repeat constructor|done]. }
  rewrite !Forall_cons_iff, <- validate_point_Ok. destruct (validate_point p) as [[]|]; cbn [rbind]; [|naive_solver].
  assert (is_some_and (fun '(sequence, time) => (sequence >=? point_sequence p)
    || (time >=? point_publish_time_ms p)) previous = false <-> follows previous p) as E.
  { destruct previous as [[s t]|]; simpl; [|done]. rewrite orb_false_iff, !Z.geb_leb. lia. }
  unfold reject_if. destruct (is_some_and _ previous) eqn:B; cbn [rbind].
  { split; [done|]. intros (_ & _ & F & _). apply E in F. done. }
  apply proj1 in E. specialize (E eq_refl). rewrite IH. split.
  - intros (O & S & F). split_and!; try done.
    + by constructor.
    + eapply List.Forall_impl; [|exact F]. intros q. simpl. destruct previous as [[s t]|]; simpl in *; lia.
  - intros ((_ & O) & S & _ & _). apply StronglySorted_inv in S as [S F]. split_and!; done.
Qed.

Definition points_ok (maximum : Z) (l : list RecoveryPoint) : Prop :=
  len l <= maximum /\ Forall point_ok l /\ StronglySorted before l.

Lemma capacity_Ok n m : capacity n m = Ok tt <-> n <= m.
Proof. unfold capacity, reject_if. case_if; b2p; split; intros; try done; lia. Qed.

Lemma capacity_inv n m : capacity n m = Ok tt -> n <= m.
Proof. apply capacity_Ok. Qed.

Lemma validate_points_Ok l maximum : validate_points l maximum = Ok tt <-> points_ok maximum l.
Proof.
  unfold validate_points, points_ok. rewrite <- capacity_Ok.
  destruct (capacity _ _) as [[]|]; cbn [rbind]; [|naive_solver]. rewrite validate_points_loop_Ok.
  split; [naive_solver|]. intros (_ & O & S). split_and!; try done. by apply List.Forall_forall.
Qed.

Lemma points_ok_filter maximum f l : points_ok maximum l -> points_ok maximum (List.filter f l).
Proof.
  intros (L & O & S). pose proof (len_filter f l).
  split_and!; [lia|by apply Forall_filter|by apply StronglySorted_filter].
Qed.

(** ** Claims *)

(** The claims of a page are the extremes of its points. *)
Definition summarises (c : RecoveryPageClaims) (l : list RecoveryPoint) : Prop :=
  record_count c = len l
  /\ (exists first last, hd_error l = Some first /\ list.last l = Some last
      /\ first_sequence c = point_sequence first /\ last_sequence c = point_sequence last)
  /\ Forall (fun p => minimum_deadline_ms c <= protected_until_ms p <= maximum_deadline_ms c) l
  /\ Exists (fun p => minimum_deadline_ms c = protected_until_ms p) l
  /\ Exists (fun p => maximum_deadline_ms c = protected_until_ms p) l.

Lemma fold_min_spec l m :
  let r := fold_left (fun m p => Z.min m (protected_until_ms p)) l m in
  r <= m /\ Forall (fun p => r <= protected_until_ms p) l
  /\ (r = m \/ Exists (fun p => r = protected_until_ms p) l).
Proof.
  revert m. induction l as [|p l IH]; intros m; cbn [fold_left]; [by repeat constructor|].
  destruct (IH (Z.min m (protected_until_ms p))) as (L & F & E). split_and!; [lia| |].
  - constructor; [lia|done].
  - destruct E as [E|E]; [|by right; right]. destruct (Z.min_spec m (protected_until_ms p)) as [[? M]|[? M]].
    + left. lia.
    + right; left. lia.
Qed.

Lemma fold_max_spec l m :
  let r := fold_left (fun m p => Z.max m (protected_until_ms p)) l m in
  m <= r /\ Forall (fun p => protected_until_ms p <= r) l
  /\ (r = m \/ Exists (fun p => r = protected_until_ms p) l).
Proof.
  revert m. induction l as [|p l IH]; intros m; cbn [fold_left]; [by repeat constructor|].
  destruct (IH (Z.max m (protected_until_ms p))) as (L & F & E). split_and!; [lia| |].
  - constructor; [lia|done].
  - destruct E as [E|E]; [|by right; right]. destruct (Z.max_spec m (protected_until_ms p)) as [[? M]|[? M]].
    + right; left. lia.
    + left. lia.
Qed.

Lemma page_claims_summarises pg c :
  page_claims pg = Ok c -> points_ok MAX_RECOVERY_PAGE_RECORDS (points pg) /\ summarises c (points pg).
Proof.
  unfold page_claims. intros E. inv_bind. apply validate_points_Ok in Heqr. split; [done|].
  unfold try_u32 in *. match goal with X : (if _ then _ else _) = Some _ |- _ => case_if_in X; inv_bind end.
  unfold summarises. simpl.
  destruct (points pg) as [|p l] eqn:L; [done|]. match goal with X : list.head _ = Some _ |- _ => injection X as <- end.
  destruct (fold_min_spec (p :: l) (protected_until_ms p)) as (? & Fm & Em).
  destruct (fold_max_spec (p :: l) (protected_until_ms p)) as (? & FM & EM).
  split_and!; [done|by eexists _, _| | |].
  - apply List.Forall_forall. intros q I. rewrite List.Forall_forall in Fm, FM. split; auto.
  - destruct Em as [Em|]; [by left|done].
  - destruct EM as [EM|]; [by left|done].
Qed.

Lemma page_claims_ok pg :
  points_ok MAX_RECOVERY_PAGE_RECORDS (points pg) -> points pg <> [] -> exists c, page_claims pg = Ok c.
Proof.
  intros O N. unfold page_claims. rewrite (proj2 (validate_points_Ok _ _) O). cbn [rbind].
  destruct (hd_error (points pg)) as [f|] eqn:F; [|by destruct (points pg)].
  destruct (list.last (points pg)) as [z|] eqn:Z; [|by rewrite last_None in Z].
  cbn [ok_or rbind]. destruct O as (B & _). unfold MAX_RECOVERY_PAGE_RECORDS in B.
  unfold try_u32. case_if; [|b2p; lia]. cbn [ok_or rbind]. eauto.
Qed.

Lemma verify_page_Ok r pg : verify_page r pg = Ok tt <-> page_claims pg = Ok (claims r).
Proof.
  unfold verify_page, reject_if. destruct (page_claims pg) as [c|]; cbn [rbind]; [|naive_solver].
  destruct (bool_decide _) eqn:B; b2p; simpl; split; intros; try done; congruence.
Qed.

(** Sequences of sorted points are at least as far apart as their positions. *)
Lemma sorted_spread l p : StronglySorted before (p :: l) ->
  forall q, list.last (p :: l) = Some q -> point_sequence p + len l <= point_sequence q.
Proof.
  revert p. induction l as [|a l IH]; intros p S q L.
  { injection L as <-. unfold len. simpl. lia. }
  apply StronglySorted_inv in S as [S F]. apply Forall_cons_iff in F as [[Q _] _].
  rewrite len_cons. specialize (IH a S q L). lia.
Qed.

Lemma validate_anchor_sequence a : validate_anchor a = Ok tt -> 0 < anchor_sequence a <= u64_max.
Proof.
  unfold validate_anchor. intros E. inv_bind. b2p. fwd parse_Ok.
  unfold Sequence_ZERO, is_u64 in *. destruct_and?. lia.
Qed.

Definition claims_ok (c : RecoveryPageClaims) : Prop := validate_claims c = Ok tt.

Lemma claims_ok_inv c : claims_ok c -> first_sequence c <= last_sequence c.
Proof. unfold claims_ok, validate_claims. intros E. inv_bind. b2p. lia. Qed.

(** The claims of a well-formed page pass their own validation. *)
Lemma page_claims_valid pg c : page_claims pg = Ok c -> claims_ok c.
Proof.
  intros E. apply page_claims_summarises in E as [(L & O & S) (Ec & (f & z & Hf & Hz & Ef & Ez) & B & Em & _)].
  unfold claims_ok, validate_claims. destruct (points pg) as [|p l]; [done|]. injection Hf as ->.
  pose proof (sorted_spread l f S z Hz) as Sp. rewrite len_cons in *. pose proof (len_nonneg l).
  assert (0 < minimum_deadline_ms c <= maximum_deadline_ms c) as D.
  { split; [|apply Forall_cons_iff in B as [B _]; lia]. apply Exists_exists in Em as (q & I & ->).
    rewrite List.Forall_forall in O. destruct (O q I) as [_ ?]. lia. }
  apply Forall_cons_iff in O as [[Ra _] _].
  apply validate_anchor_sequence in Ra. unfold MAX_RECOVERY_PAGE_RECORDS, Sequence_ZERO in *.
  assert (len l = 0 -> point_sequence z = point_sequence f) as One.
  { intros E. apply len_0_nil in E. subst. by injection Hz as ->. }
  rewrite (proj2 (capacity_Ok _ _)) by lia. cbn [rbind].
  unfold reject_if. case_if; [|done]. exfalso.
  repeat (apply orb_true_iff in Heqb as [Heqb|Heqb]); b2p; lia.
Qed.

(** ** Snapshots *)

Definition page_before (r1 r2 : RecoveryPageRef) : Prop := last_sequence (claims r1) < first_sequence (claims r2).

Definition ref_ok (expire : Z) (r : RecoveryPageRef) : Prop :=
  claims_ok (claims r) /\ validate_location r = Ok tt /\ expire < maximum_deadline_ms (claims r).

(** The last sequence of the last page, or of what came before. *)
Definition last_page (previous : option Z) (l : list RecoveryPageRef) : option Z :=
  match list.last l with
  | Some r => Some (last_sequence (claims r))
  | None => previous
  end.

Definition above (previous : option Z) (n : Z) : Prop :=
  match previous with
  | Some m => m < n
  | None => True
  end.

Lemma validate_pages_loop_Ok expire previous l z :
  validate_pages_loop expire previous l = Ok z <->
  Forall (ref_ok expire) l /\ StronglySorted page_before l
  /\ Forall (fun r => above previous (first_sequence (claims r))) l /\ z = last_page previous l.
Proof.
  revert previous. induction l as [|r l IH]; intros previous; cbn [validate_pages_loop].
  { split; [intros E; inv_bind; by repeat constructor|intros (_ & _ & _ & ->); done]. }
  rewrite !Forall_cons_iff. unfold ref_ok at 1. unfold claims_ok at 1.
  destruct (validate_claims (claims r)) as [[]|] eqn:C; cbn [rbind]; [|naive_solver].
  destruct (validate_location r) as [[]|]; cbn [rbind]; [|naive_solver].
  apply claims_ok_inv in C.
  assert ((maximum_deadline_ms (claims r) <=? expire) || is_some_and (fun sequence => sequence >=? first_sequence (claims r)) previous = false
    <-> expire < maximum_deadline_ms (claims r) /\ above previous (first_sequence (claims r))) as E.
  { rewrite orb_false_iff. destruct previous as [m|]; simpl; rewrite ?Z.geb_leb; lia || naive_solver lia. }
  unfold reject_if. destruct (_ || _); cbn [rbind]; [naive_solver|].
  apply proj1 in E. specialize (E eq_refl) as [E1 E2]. rewrite IH. simpl.
  assert (last_page previous (r :: l) = last_page (Some (last_sequence (claims r))) l) as ->.
  { unfold last_page. rewrite last_cons. by destruct (list.last l). }
  split.
  - intros (O & S & F & ->). split_and!; try done; [by constructor|].
    eapply List.Forall_impl; [|exact F]. intros q. simpl. destruct previous as [m|]; simpl in *; [lia|done].
  - intros ((_ & O) & S & _ & Ez). apply StronglySorted_inv in S as [S F]. split_and!; done.
Qed.

Definition snapshot_ok (s : RecoverySnapshot) : Prop :=
  len (pages s) <= MAX_RECOVERY_PAGES /\ points_ok MAX_RECOVERY_TAIL_RECORDS (tail s)
  /\ 0 <= expire_before_ms s
  /\ Forall (fun p => expire_before_ms s < protected_until_ms p) (tail s)
  /\ Forall (ref_ok (expire_before_ms s)) (pages s) /\ StronglySorted page_before (pages s)
  /\ Forall (fun r => Forall (fun p => last_sequence (claims r) < point_sequence p) (tail s)) (pages s).

Lemma last_page_below expire l n :
  Forall (ref_ok expire) l -> StronglySorted page_before l ->
  (above (last_page None l) n <-> Forall (fun r => last_sequence (claims r) < n) l).
Proof.
  intros O S. destruct l as [|r l _] using rev_ind; [done|]. unfold last_page. rewrite last_snoc. simpl.
  apply StronglySorted_snoc in S as [_ F]. rewrite Forall_app. split.
  - intros B. split; [|by repeat constructor]. apply Forall_app in O as [_ O].
    apply Forall_cons_iff in O as [(C & _) _]. apply claims_ok_inv in C.
    eapply List.Forall_impl; [|exact F]. unfold page_before. intros q Q. lia.
  - intros [_ B]. by apply Forall_cons_iff in B as [B _].
Qed.

Lemma validate_snapshot_Ok s : validate_snapshot s = Ok tt <-> snapshot_ok s.
Proof.
  unfold validate_snapshot, snapshot_ok. rewrite <- capacity_Ok, <- validate_points_Ok.
  destruct (capacity _ _) as [[]|]; cbn [rbind]; [|naive_solver].
  destruct (validate_points _ _) as [[]|] eqn:P; cbn [rbind]; [|naive_solver].
  apply validate_points_Ok in P as (_ & _ & Ss).
  assert ((expire_before_ms s <? 0) || existsb (fun p => protected_until_ms p <=? expire_before_ms s) (tail s) = false
    <-> 0 <= expire_before_ms s /\ Forall (fun p => expire_before_ms s < protected_until_ms p) (tail s)) as E.
  { rewrite orb_false_iff, existsb_false, Z.ltb_ge. apply and_iff_compat_l. apply Forall_iff.
    intros p. apply Z.leb_gt. }
  unfold reject_if at 1. destruct (_ || _); cbn [rbind]; [naive_solver|].
  apply proj1 in E. specialize (E eq_refl) as [E1 E2].
  destruct (validate_pages_loop _ None (pages s)) as [z|e] eqn:V; cbn [rbind].
  2:{ split; [done|]. intros (_ & _ & _ & _ & O & S & _).
      enough (validate_pages_loop (expire_before_ms s) None (pages s) = Ok (last_page None (pages s))) by congruence.
      apply validate_pages_loop_Ok. split_and!; try done. by apply List.Forall_forall. }
  apply validate_pages_loop_Ok in V as (O & S & _ & ->).
  destruct (tail s) as [|p l] eqn:T; cbn [hd_error].
  { destruct (last_page None (pages s)); simpl; split; intros; try done; split_and!; try done; by apply List.Forall_forall. }
  trans (above (last_page None (pages s)) (point_sequence p)).
  { unfold reject_if. destruct (last_page None (pages s)) as [n|]; simpl; [|done].
    rewrite Z.geb_leb. case_if; b2p; split; intros; try done; lia. }
  rewrite (last_page_below (expire_before_ms s)) by done. split.
  - intros F. split_and!; try done. eapply List.Forall_impl; [|exact F]. intros r L. constructor; [done|].
    apply StronglySorted_inv in Ss as [_ Fp]. eapply List.Forall_impl; [|exact Fp]. intros q [Q _]. cbv beta in L. lia.
  - intros (_ & _ & _ & _ & _ & _ & F). eapply List.Forall_impl; [|exact F].
    intros r Fr. by apply Forall_cons_iff in Fr as [? _].
Qed.

Definition normalized_ok (s : RecoverySnapshot) : Prop :=
  snapshot_ok s /\ Forall (fun r => is_this_section r = false) (pages s).

Lemma validate_normalized_Ok s : validate_normalized s = Ok tt <-> normalized_ok s.
Proof.
  unfold validate_normalized, normalized_ok. rewrite <- validate_snapshot_Ok, <- existsb_false.
  destruct (validate_snapshot s) as [[]|]; cbn [rbind]; [|naive_solver].
  unfold reject_if. destruct (existsb _ _); naive_solver.
Qed.
End Facts.
