(* ===== verification/RecoveryCodec.v ===== *)
(** * Wire format of the recovery history

    The encoder and decoder of crates/rs3-repository/src/v3/recovery/history.rs.
    The writer checks the room for every item before it writes it; together the
    checks amount to one bound on the whole section.  A section is decoded from
    exactly the bytes its encoder writes. *)

From S2P Require Import Prelude Ord Text Types Cbor External V3Wire ObjectKeys Commit CommitCodec Format Anchor.
From S2P Require Import RecoveryPolicy RecoveryHistory RecoveryFacts.
Open Scope Z_scope.
Import V3.

(** ** Writer *)

Definition cbor_head_len (value : Z) : Z :=
  if value <=? 23 then 1
  else if value <=? 0xff then 2
  else if value <=? 0xffff then 3
  else if value <=? 0xffffffff then 5
  else 9.

(** The bytes written so far. *)
Abbreviation W := (M (list byte) V3FormatError unit).

Module Writer.
Definition room (additional : Z) : W := fun bytes =>
  end_ <-? ok_or (checked_add (len bytes) additional) RecoveryHistoryCapacity ;;
  capacity end_ MAX_RECOVERY_SECTION_BYTES ;;?
  Ok (tt, bytes).

(** Appends with one of the writers of [Cbor]. *)
Definition push (write : list byte -> list byte) : W := fun bytes => Ok (tt, write bytes).

(** [usize::saturating_add]. *)
Definition saturating_add (a b : Z) : Z := Z.min usize_max (a + b).

Definition u64 (value : Z) : W :=
  room (cbor_head_len value) ;; push (fun bytes => write_u64 bytes value).

Definition i64 (value : Z) : W :=
  let magnitude := if value >=? 0 then value else (-1 - value) mod 2 ^ 64 in
  room (cbor_head_len magnitude) ;; push (fun bytes => write_i64 bytes value).

Definition array (n : Z) : W :=
  room (cbor_head_len n) ;; push (fun bytes => write_array_len bytes n).

Definition data (value : list byte) : W :=
  room (saturating_add (len value) (cbor_head_len (len value))) ;; push (fun bytes => write_bytes bytes value).

Definition text (value : list byte) : W :=
  room (saturating_add (len value) (cbor_head_len (len value))) ;;
  push (fun bytes => Cbor.write_text bytes value).

Definition null : W := room 1 ;; push write_null.
End Writer.

(** A loop that encodes each item. *)
Fixpoint encode_each {A} (f : A -> W) (l : list A) : W :=
  match l with
  | [] => mret tt
  | a :: l' => f a ;; encode_each f l'
  end.

(** [for _ in 0..n] pushing what is read. *)
Fixpoint read_many {S E A} (n : nat) (p : M S E A) : M S E (list A) :=
  match n with
  | O => mret []
  | S n' => a <- p ;; l <- read_many n' p ;; mret (a :: l)
  end.

(** [read]: any CBOR error is an invalid history. *)
Definition history_read {A} (m : M Reader CborError A) : R A := mmap_err (fun _ => InvalidRecoveryHistory) m.

Definition fixed_array (expected : Z) : R unit :=
  n <- history_read read_array_len ;; lift (reject_if (negb (n =? expected)) InvalidRecoveryHistory).

Definition bounded_array (maximum : Z) : R Z :=
  count <- history_read read_array_len ;; lift (capacity count maximum) ;; mret count.

Definition read_u32 : R Z :=
  v <- history_read read_u64 ;; lift (ok_or (try_u32 v) InvalidRecoveryHistory).

Definition read_digest32 : R (list byte) :=
  bs <- history_read (read_bytes_bounded 32) ;;
  lift (reject_if (negb (len bs =? 32)) InvalidRecoveryHistory) ;; mret bs.

Definition history_name (new : text -> result TypeError text) (t : text) : V3Result text :=
  map_err (fun _ => InvalidRecoveryHistory) (new t).

Section RecoveryCodec.
Context `{Primitives}.

(** ** Records *)

Definition encode_anchor (anchor : V3AnchorState) : W :=
  let format := anchor_format_ref anchor in
  Writer.array 6 ;;
  Writer.u64 (anchor_sequence anchor) ;;
  Writer.text (anchor_commit_key anchor) ;;
  Writer.data (anchor_body_digest anchor) ;;
  version <- lift (ok_or (anchor_version_id anchor) InvalidRecoveryHistory) ;;
  Writer.text version ;;
  Writer.text (anchor_signing_key_id anchor) ;;
  Writer.array 4 ;;
  Writer.u64 (fr_generation format) ;;
  digest <- lift (ok_or (hex_decode (fr_digest format)) InvalidRecoveryHistory) ;;
  Writer.data digest ;;
  Writer.text (fr_object_id format) ;;
  version <- lift (ok_or (fr_version_id format) InvalidRecoveryHistory) ;;
  Writer.text version.

Definition decode_anchor : R V3AnchorState :=
  fixed_array 6 ;;
  sequence <- history_read read_u64 ;;
  raw <- history_read (read_text_bounded MAX_OBJECT_ID_BYTES) ;;
  commit_key <- lift (history_name BackendObjectId_new raw) ;;
  body_digest <- read_digest32 ;;
  raw <- history_read (read_text_bounded MAX_VERSION_ID_BYTES) ;;
  version_id <- lift (history_name BackendVersionId_new raw) ;;
  raw <- history_read (read_text_bounded MAX_KEY_ID_BYTES) ;;
  signing_key_id <- lift (history_name KeyId_new raw) ;;
  fixed_array 4 ;;
  generation <- history_read read_u64 ;;
  digest <- read_digest32 ;;
  raw <- history_read (read_text_bounded MAX_OBJECT_ID_BYTES) ;;
  object_id <- lift (history_name BackendObjectId_new raw) ;;
  raw <- history_read (read_text_bounded MAX_VERSION_ID_BYTES) ;;
  format_version <- lift (history_name BackendVersionId_new raw) ;;
  let anchor :=
    {| anchor_sequence := sequence; anchor_commit_key := commit_key; anchor_body_digest := body_digest;
       anchor_version_id := Some version_id; anchor_signing_key_id := signing_key_id;
       anchor_format_ref := {| fr_generation := generation; fr_digest := hex_encode digest;
                               fr_object_id := object_id; fr_version_id := Some format_version |} |} in
  lift (validate_anchor anchor) ;;
  mret anchor.

Definition encode_point (point : RecoveryPoint) : W :=
  Writer.array 4 ;;
  encode_anchor (point_anchor point) ;;
  Writer.i64 (point_publish_time_ms point) ;;
  Writer.i64 (protected_until_ms point) ;;
  Writer.data (policy_id point).

Definition decode_point : R RecoveryPoint :=
  fixed_array 4 ;;
  anchor <- decode_anchor ;;
  publish_time_ms <- history_read read_i64 ;;
  protected_until_ms <- history_read read_i64 ;;
  policy_id <- read_digest32 ;;
  let point := {| point_anchor := anchor; point_publish_time_ms := publish_time_ms;
                  protected_until_ms := protected_until_ms; policy_id := policy_id |} in
  lift (validate_point point) ;;
  mret point.

Definition encode_points (l : list RecoveryPoint) : W :=
  Writer.array (len l) ;; encode_each encode_point l.

Definition decode_points (maximum : Z) : R (list RecoveryPoint) :=
  count <- bounded_array maximum ;;
  l <- read_many (Z.to_nat count) decode_point ;;
  lift (validate_points l maximum) ;;
  mret l.

Definition encode_or_null {A} (f : A -> W) (o : option A) : W :=
  match o with
  | Some a => f a
  | None => Writer.null
  end.

Definition null_or_read {A} (p : R A) : R (option A) := null_or (fun _ => InvalidRecoveryHistory) p.

Definition encode_delta (d : RecoveryDelta) : W :=
  Writer.array 3 ;;
  encode_or_null encode_point (register d) ;;
  encode_or_null Writer.i64 (delta_expire_before_ms d) ;;
  encode_or_null Writer.u64 (roll_tail d).

Definition decode_delta : R RecoveryDelta :=
  fixed_array 3 ;;
  register <- null_or_read decode_point ;;
  expire_before_ms <- null_or_read (history_read read_i64) ;;
  roll_tail <- null_or_read read_u32 ;;
  mret {| register := register; delta_expire_before_ms := expire_before_ms; roll_tail := roll_tail |}.

Definition encode_claims (c : RecoveryPageClaims) : W :=
  Writer.array 5 ;;
  Writer.u64 (record_count c) ;;
  Writer.u64 (first_sequence c) ;;
  Writer.u64 (last_sequence c) ;;
  Writer.i64 (minimum_deadline_ms c) ;;
  Writer.i64 (maximum_deadline_ms c).

Definition decode_claims : R RecoveryPageClaims :=
  fixed_array 5 ;;
  record_count <- read_u32 ;;
  first_sequence <- history_read read_u64 ;;
  last_sequence <- history_read read_u64 ;;
  minimum_deadline_ms <- history_read read_i64 ;;
  maximum_deadline_ms <- history_read read_i64 ;;
  let c := {| record_count := record_count; first_sequence := first_sequence; last_sequence := last_sequence;
              minimum_deadline_ms := minimum_deadline_ms; maximum_deadline_ms := maximum_deadline_ms |} in
  lift (validate_claims c) ;;
  mret c.

Definition encode_location (l : RecoveryPageLocation) : W :=
  match l with
  | ThisSection page_index => Writer.array 2 ;; Writer.u64 0 ;; Writer.u64 page_index
  | Exact anchor section_ordinal page_index =>
      Writer.array 4 ;; Writer.u64 1 ;; encode_anchor anchor ;; Writer.u64 section_ordinal ;; Writer.u64 page_index
  end.

Definition decode_location : R RecoveryPageLocation :=
  width <- history_read read_array_len ;;
  tag <- history_read read_u64 ;;
  if (tag =? 0) && (width =? 2) then
    page_index <- read_u32 ;; mret (ThisSection page_index)
  else if (tag =? 1) && (width =? 4) then
    anchor <- decode_anchor ;;
    section_ordinal <- read_u32 ;;
    page_index <- read_u32 ;;
    mret (Exact anchor section_ordinal page_index)
  else lift (Err InvalidRecoveryHistory).

Definition encode_page_ref (r : RecoveryPageRef) : W :=
  Writer.array 2 ;; encode_location (location r) ;; encode_claims (claims r).

Definition decode_page_ref : R RecoveryPageRef :=
  fixed_array 2 ;;
  location <- decode_location ;;
  claims <- decode_claims ;;
  mret {| location := location; claims := claims |}.

Definition encode_snapshot (s : RecoverySnapshot) : W :=
  Writer.array 3 ;;
  Writer.array (len (pages s)) ;;
  encode_each encode_page_ref (pages s) ;;
  encode_points (tail s) ;;
  Writer.i64 (expire_before_ms s).

Definition decode_snapshot : R RecoverySnapshot :=
  fixed_array 3 ;;
  count <- bounded_array MAX_RECOVERY_PAGES ;;
  pages <- read_many (Z.to_nat count) decode_page_ref ;;
  tail <- decode_points MAX_RECOVERY_TAIL_RECORDS ;;
  expire_before_ms <- history_read read_i64 ;;
  let s := {| pages := pages; tail := tail; expire_before_ms := expire_before_ms |} in
  lift (validate_snapshot s) ;;
  mret s.

(** ** Sections *)

Definition encode_section_body (s : RecoverySection) : W :=
  Writer.array 5 ;;
  Writer.u64 WIRE_VERSION ;;
  Writer.array 3 ;;
  Writer.u64 (window_days (current_policy s)) ;;
  Writer.u64 (renewal_margin_seconds (current_policy s)) ;;
  Writer.u64 (clock_uncertainty_ms (current_policy s)) ;;
  encode_delta (delta s) ;;
  encode_or_null encode_snapshot (snapshot s) ;;
  Writer.array (len (local_pages s)) ;;
  encode_each (fun page => encode_points (points page)) (local_pages s).

Definition RecoverySection_encode (s : RecoverySection) : V3Result (list byte) :=
  section_validate s ;;?
  '(_, bytes) <-? encode_section_body s [] ;;
  Ok bytes.

Definition decode_section_body : R RecoverySection :=
  fixed_array 5 ;;
  version <- history_read read_u64 ;;
  lift (reject_if (negb (version =? WIRE_VERSION)) InvalidRecoveryHistory) ;;
  fixed_array 3 ;;
  window_days <- read_u32 ;;
  renewal_margin_seconds <- read_u32 ;;
  clock_uncertainty_ms <- read_u32 ;;
  current_policy <- lift (RecoveryPolicy_new window_days renewal_margin_seconds clock_uncertainty_ms) ;;
  delta <- decode_delta ;;
  snapshot <- null_or_read decode_snapshot ;;
  count <- bounded_array MAX_RECOVERY_PAGES ;;
  local_pages <- read_many (Z.to_nat count) (l <- decode_points MAX_RECOVERY_PAGE_RECORDS ;; mret {| points := l |}) ;;
  mret {| current_policy := current_policy; delta := delta; snapshot := snapshot; local_pages := local_pages |}.

Definition RecoverySection_decode (bytes : list byte) : V3Result RecoverySection :=
  capacity (len bytes) MAX_RECOVERY_SECTION_BYTES ;;?
  '(section, reader) <-? decode_section_body (Reader_new bytes) ;;
  reject_if (negb (is_finished reader)) InvalidRecoveryHistory ;;?
  section_validate section ;;?
  Ok section.
End RecoveryCodec.
