(* ===== verification/RecoveryRoundTrip.v ===== *)
(** * The recovery section codec is exact *)

From Stdlib Require Import Sorting.Sorted.
From S2P Require Import Prelude Ord Text Types Cbor External V3Wire ObjectKeys Commit CommitCodec Format Anchor.
From S2P Require Import RecoveryPolicy RecoveryHistory RecoveryFacts RecoveryCodec.
Open Scope Z_scope.
Import V3.

(** ** Writing *)

(** [m] appends [enc] if the result stays within the limit of a section, and
    reports the limit otherwise. *)
Definition writes (m : W) (enc : list byte) : Prop := forall out,
  len out <= MAX_RECOVERY_SECTION_BYTES ->
  m out = if len (out ++ enc) <=? MAX_RECOVERY_SECTION_BYTES then Ok (tt, out ++ enc)
          else Err RecoveryHistoryCapacity.

Lemma recovery_writes_bind m (k : unit -> W) e1 e2 : writes m e1 -> writes (k tt) e2 -> writes (mbind m k) (e1 ++ e2).
Proof.
  intros M K out L. unfold mbind. rewrite M by done. rewrite app_assoc. pose proof (len_nonneg e2).
  destruct (Z.leb_spec (len (out ++ e1)) MAX_RECOVERY_SECTION_BYTES) as [B|B]; [by rewrite K|].
  case_if; [|done]. b2p. rewrite len_app in Heqb. lia.
Qed.

Lemma recovery_writes_lift {A} (r : V3Result A) (k : A -> W) a e : r = Ok a -> writes (k a) e -> writes (mbind (lift r) k) e.
Proof. intros -> K out L. unfold mbind, lift. by apply K. Qed.

Lemma recovery_writes_ret : writes (mret tt) [].
Proof. intros out L. rewrite app_nil_r. case_if; [done|b2p; lia]. Qed.

Lemma writes_room n write enc :
  Z.min usize_max (len enc) = n -> (forall out, write out = out ++ enc) ->
  writes (mbind (Writer.room n) (fun _ => Writer.push write)) enc.
Proof.
  intros N A out L. unfold mbind, Writer.room, Writer.push, capacity, reject_if, checked_add, MAX_RECOVERY_SECTION_BYTES in *.
  rewrite len_app. pose proof (len_nonneg out). pose proof (len_nonneg enc).
  repeat (case_if; b2p; cbn [ok_or rbind]; try lia); rewrite ?A; done.
Qed.

Lemma cbor_head_len_eq m v : len (head m v) = cbor_head_len v.
Proof. apply len_head_eq. Qed.

Lemma cbor_head_len_range v : 1 <= cbor_head_len v <= 9.
Proof. unfold cbor_head_len. repeat case_if; lia. Qed.

Lemma recovery_writes_u64 v : writes (Writer.u64 v) (enc_u64 v).
Proof.
  apply writes_room; [|intros; apply write_u64_app]. rewrite enc_u64_head, (cbor_head_len_eq 0).
  pose proof (cbor_head_len_range v). lia.
Qed.

Lemma writes_array n : writes (Writer.array n) (enc_array_len n).
Proof.
  apply writes_room; [|intros; apply write_array_len_app]. unfold enc_array_len, write_array_len.
  change (write_type_len [] 4 n) with (head 4 n). rewrite cbor_head_len_eq. pose proof (cbor_head_len_range n). lia.
Qed.

Lemma recovery_writes_i64 v : is_i64 v -> writes (Writer.i64 v) (enc_i64 v).
Proof.
  intros I. apply writes_room; [|intros; apply write_i64_app]. unfold enc_i64, write_i64. rewrite Z.geb_leb.
  case_if; match goal with |- context [write_type_len [] ?m ?x] => change (write_type_len [] m x) with (head m x) end;
    rewrite cbor_head_len_eq; pose proof (cbor_head_len_range v); pose proof (cbor_head_len_range ((-1 - v) mod 2 ^ 64)); lia.
Qed.

Lemma writes_data bs : writes (Writer.data bs) (enc_bytes bs).
Proof.
  apply writes_room; [|intros; apply write_bytes_app]. rewrite len_enc_bytes, cbor_head_len_eq.
  unfold Writer.saturating_add. f_equal. lia.
Qed.

Lemma writes_text t : writes (Writer.text t) (enc_text t).
Proof.
  apply writes_room; [|intros; apply write_text_app]. rewrite len_enc_text, cbor_head_len_eq.
  unfold Writer.saturating_add. f_equal. lia.
Qed.

Lemma writes_null : writes Writer.null enc_null.
Proof. apply writes_room; [done|intros; apply write_null_app]. Qed.

Lemma writes_each {A} (f : A -> W) enc l : Forall (fun a => writes (f a) (enc a)) l -> writes (encode_each f l) (flat_map enc l).
Proof. induction 1; cbn [encode_each flat_map]; [apply recovery_writes_ret|by apply recovery_writes_bind]. Qed.

Lemma writes_or_null {A} (f : A -> W) enc o :
  (forall a, o = Some a -> writes (f a) (enc a)) -> writes (encode_or_null f o) (enc_or_null enc o).
Proof. destruct o as [a|]; intros F; simpl; [by apply F|apply writes_null]. Qed.

Create HintDb history.
#[export] Hint Resolve recovery_writes_ret recovery_writes_u64 writes_array writes_data writes_text writes_null : history.
#[export] Hint Extern 2 (writes (Writer.i64 _) _) => apply recovery_writes_i64; assumption : history.

(** Splits the writing of a record into its fields. *)
Ltac write_fields :=
  repeat first
    [ apply recovery_writes_bind; [solve [auto with history nocore]|]
    | eapply recovery_writes_lift; [reflexivity|] ];
  auto with history nocore.

(** ** Encodings *)

Section RoundTrip.
Context `{Primitives}.

Definition enc_anchor (a : V3AnchorState) : list byte :=
  let format := anchor_format_ref a in
  enc_array_len 6 ++ enc_u64 (anchor_sequence a) ++ enc_text (anchor_commit_key a)
  ++ enc_bytes (anchor_body_digest a) ++ enc_text (default [] (anchor_version_id a))
  ++ enc_text (anchor_signing_key_id a) ++ enc_array_len 4 ++ enc_u64 (fr_generation format)
  ++ enc_bytes (default [] (hex_decode (fr_digest format))) ++ enc_text (fr_object_id format)
  ++ enc_text (default [] (fr_version_id format)).

Definition enc_point (p : RecoveryPoint) : list byte :=
  enc_array_len 4 ++ enc_anchor (point_anchor p) ++ enc_i64 (point_publish_time_ms p)
  ++ enc_i64 (protected_until_ms p) ++ enc_bytes (policy_id p).

Definition enc_points (l : list RecoveryPoint) : list byte := enc_array_len (len l) ++ flat_map enc_point l.

Definition enc_delta (d : RecoveryDelta) : list byte :=
  enc_array_len 3 ++ enc_or_null enc_point (register d) ++ enc_or_null enc_i64 (delta_expire_before_ms d)
  ++ enc_or_null enc_u64 (roll_tail d).

Definition enc_claims (c : RecoveryPageClaims) : list byte :=
  enc_array_len 5 ++ enc_u64 (record_count c) ++ enc_u64 (first_sequence c) ++ enc_u64 (last_sequence c)
  ++ enc_i64 (minimum_deadline_ms c) ++ enc_i64 (maximum_deadline_ms c).

Definition enc_location (l : RecoveryPageLocation) : list byte :=
  match l with
  | ThisSection page_index => enc_array_len 2 ++ enc_u64 0 ++ enc_u64 page_index
  | Exact anchor section_ordinal page_index =>
      enc_array_len 4 ++ enc_u64 1 ++ enc_anchor anchor ++ enc_u64 section_ordinal ++ enc_u64 page_index
  end.

Definition enc_page_ref (r : RecoveryPageRef) : list byte :=
  enc_array_len 2 ++ enc_location (location r) ++ enc_claims (claims r).

Definition enc_snapshot (s : RecoverySnapshot) : list byte :=
  enc_array_len 3 ++ enc_array_len (len (pages s)) ++ flat_map enc_page_ref (pages s)
  ++ enc_points (tail s) ++ enc_i64 (expire_before_ms s).

Definition enc_recovery (s : RecoverySection) : list byte :=
  enc_array_len 5 ++ enc_u64 WIRE_VERSION ++ enc_array_len 3 ++ enc_u64 (window_days (current_policy s))
  ++ enc_u64 (renewal_margin_seconds (current_policy s)) ++ enc_u64 (clock_uncertainty_ms (current_policy s))
  ++ enc_delta (delta s) ++ enc_or_null enc_snapshot (snapshot s) ++ enc_array_len (len (local_pages s))
  ++ flat_map (fun page => enc_points (points page)) (local_pages s).

(** ** What the Rust types guarantee *)

Definition wf_anchor_text (a : V3AnchorState) : Prop :=
  wf_name (anchor_commit_key a) /\ length (anchor_body_digest a) = 32%nat
  /\ (forall v, anchor_version_id a = Some v -> wf_name v) /\ wf_name (anchor_signing_key_id a)
  /\ is_u64 (fr_generation (anchor_format_ref a)) /\ wf_name (fr_object_id (anchor_format_ref a))
  /\ (forall v, fr_version_id (anchor_format_ref a) = Some v -> wf_name v).

Definition wf_point (p : RecoveryPoint) : Prop :=
  wf_anchor_text (point_anchor p) /\ is_i64 (point_publish_time_ms p) /\ is_i64 (protected_until_ms p)
  /\ length (policy_id p) = 32%nat.

Definition wf_delta (d : RecoveryDelta) : Prop :=
  (forall p, register d = Some p -> wf_point p) /\ (forall c, delta_expire_before_ms d = Some c -> is_i64 c)
  /\ (forall i, roll_tail d = Some i -> is_u32 i).

Definition wf_claims (c : RecoveryPageClaims) : Prop :=
  is_u32 (record_count c) /\ is_u64 (first_sequence c) /\ is_u64 (last_sequence c)
  /\ is_i64 (minimum_deadline_ms c) /\ is_i64 (maximum_deadline_ms c).

Definition wf_location (l : RecoveryPageLocation) : Prop :=
  match l with
  | ThisSection page_index => is_u32 page_index
  | Exact anchor section_ordinal page_index => wf_anchor_text anchor /\ is_u32 section_ordinal /\ is_u32 page_index
  end.

Definition wf_page_ref (r : RecoveryPageRef) : Prop := wf_location (location r) /\ wf_claims (claims r).

Definition wf_snapshot (s : RecoverySnapshot) : Prop :=
  Forall wf_page_ref (pages s) /\ Forall wf_point (tail s) /\ is_i64 (expire_before_ms s).

(** Policies are built by [RecoveryPolicy::new] only. *)
Definition wf_policy (p : RecoveryPolicy) : Prop :=
  RecoveryPolicy_new (window_days p) (renewal_margin_seconds p) (clock_uncertainty_ms p) = Ok p.

Definition wf_recovery (s : RecoverySection) : Prop :=
  wf_policy (current_policy s) /\ wf_delta (delta s) /\ (forall x, snapshot s = Some x -> wf_snapshot x)
  /\ Forall (fun page => Forall wf_point (points page)) (local_pages s).

(** ** The encoder *)

Lemma validate_anchor_inv a :
  validate_anchor a = Ok tt ->
  0 < anchor_sequence a <= u64_max /\ len (anchor_commit_key a) <= MAX_OBJECT_ID_BYTES
  /\ len (anchor_signing_key_id a) <= MAX_KEY_ID_BYTES
  /\ len (fr_object_id (anchor_format_ref a)) <= MAX_OBJECT_ID_BYTES
  /\ (exists v, anchor_version_id a = Some v /\ len v <= MAX_VERSION_ID_BYTES)
  /\ (exists v, fr_version_id (anchor_format_ref a) = Some v /\ len v <= MAX_VERSION_ID_BYTES)
  /\ exists d, hex_decode (fr_digest (anchor_format_ref a)) = Some d /\ length d = 32%nat
     /\ hex_encode d = fr_digest (anchor_format_ref a).
Proof.
  intros V. pose proof (validate_anchor_sequence a V). unfold validate_anchor, bounded_text in V. inv_bind. b2p.
  repeat fwd capacity_inv. split_and!; try lia; eauto. eexists. split_and!; [done| |done]. unfold len in *. lia.
Qed.

Lemma writes_anchor a : validate_anchor a = Ok tt -> writes (encode_anchor a) (enc_anchor a).
Proof.
  intros V. apply validate_anchor_inv in V as (_ & _ & _ & _ & (v & Ev & _) & (f & Ef & _) & d & Ed & _).
  unfold encode_anchor, enc_anchor. rewrite Ev, Ef, Ed. cbn [default from_option id ok_or].
  write_fields.
Qed.

Lemma writes_point p : point_ok p -> wf_point p -> writes (encode_point p) (enc_point p).
Proof.
  intros [V _] (_ & T & D & _). pose proof (writes_anchor _ V). unfold encode_point, enc_point. write_fields.
Qed.

Lemma writes_points l : Forall point_ok l -> Forall wf_point l -> writes (encode_points l) (enc_points l).
Proof.
  intros O F. unfold encode_points, enc_points. apply recovery_writes_bind; [apply writes_array|]. apply writes_each.
  apply List.Forall_forall. rewrite List.Forall_forall in O, F. intros p I. apply writes_point; auto.
Qed.

Lemma writes_delta d :
  (forall p, register d = Some p -> point_ok p) -> wf_delta d -> writes (encode_delta d) (enc_delta d).
Proof.
  intros O (Wp & We & _). unfold encode_delta, enc_delta. apply recovery_writes_bind; [apply writes_array|].
  apply recovery_writes_bind; [apply writes_or_null; intros p E; apply writes_point; auto|].
  apply recovery_writes_bind; [apply writes_or_null; intros c E; apply recovery_writes_i64; auto|].
  apply writes_or_null. intros; apply recovery_writes_u64.
Qed.

Lemma writes_claims c : wf_claims c -> writes (encode_claims c) (enc_claims c).
Proof. intros (_ & _ & _ & I1 & I2). unfold encode_claims, enc_claims. write_fields. Qed.

Lemma writes_page_ref expire r : ref_ok expire r -> wf_page_ref r -> writes (encode_page_ref r) (enc_page_ref r).
Proof.
  intros (_ & V & _) [_ Wc]. unfold encode_page_ref, enc_page_ref. apply recovery_writes_bind; [apply writes_array|].
  apply recovery_writes_bind; [|by apply writes_claims]. unfold validate_location in V. unfold encode_location, enc_location.
  destruct (location r) as [i|a o i]; [write_fields|]. inv_bind. pose proof (writes_anchor a Heqr0). write_fields.
Qed.

Lemma writes_snapshot s : snapshot_ok s -> wf_snapshot s -> writes (encode_snapshot s) (enc_snapshot s).
Proof.
  intros (_ & (_ & Op & _) & _ & _ & Or & _) (Wr & Wp & I). unfold encode_snapshot, enc_snapshot.
  do 2 (apply recovery_writes_bind; [apply writes_array|]). apply recovery_writes_bind; [|apply recovery_writes_bind; [by apply writes_points|by apply recovery_writes_i64]].
  apply writes_each. apply List.Forall_forall. rewrite List.Forall_forall in Or, Wr. intros r In.
  eapply writes_page_ref; auto.
Qed.

(** What a validated section guarantees of its parts. *)
Definition parts_ok (s : RecoverySection) : Prop :=
  len (local_pages s) <= MAX_RECOVERY_PAGES
  /\ (forall p, register (delta s) = Some p -> point_ok p)
  /\ Forall (fun page => points_ok MAX_RECOVERY_PAGE_RECORDS (points page)) (local_pages s)
  /\ (forall x, snapshot s = Some x -> snapshot_ok x).

Lemma validate_local_pages_ok previous l :
  validate_local_pages previous l = Ok tt -> Forall (fun page => points_ok MAX_RECOVERY_PAGE_RECORDS (points page)) l.
Proof.
  revert previous. induction l as [|p l IH]; intros previous V; cbn [validate_local_pages] in V; [done|].
  inv_bind. constructor; [|by eapply IH]. by apply page_claims_summarises in Heqr as [? _].
Qed.

Lemma section_validate_parts s : section_validate s = Ok tt -> parts_ok s.
Proof.
  unfold section_validate. intros V. inv_bind. fwd capacity_inv. fwd validate_local_pages_ok.
  split_and!; try done.
  - intros p E. rewrite E in *. by apply validate_point_Ok.
  - intros x E. rewrite E in *. inv_bind. by apply validate_snapshot_Ok.
Qed.

Lemma writes_section s : parts_ok s -> wf_recovery s -> writes (encode_section_body s) (enc_recovery s).
Proof.
  intros (_ & Op & Ol & Os) (_ & Wd & Ws & Wl). unfold encode_section_body, enc_recovery.
  do 6 (apply recovery_writes_bind; [auto with history nocore|]). apply recovery_writes_bind; [by apply writes_delta|].
  apply recovery_writes_bind; [apply writes_or_null; intros x E; apply writes_snapshot; auto|].
  apply recovery_writes_bind; [apply writes_array|]. apply writes_each. apply List.Forall_forall.
  rewrite List.Forall_forall in Ol, Wl. intros pg I. destruct (Ol pg I) as (_ & O & _). apply writes_points; auto.
Qed.

(** The encoder writes the section whenever it fits. *)
Lemma encode_eq s :
  section_validate s = Ok tt -> wf_recovery s ->
  RecoverySection_encode s = if len (enc_recovery s) <=? MAX_RECOVERY_SECTION_BYTES then Ok (enc_recovery s)
                             else Err RecoveryHistoryCapacity.
Proof.
  intros V F. unfold RecoverySection_encode. rewrite V. cbn [rbind].
  rewrite (writes_section s (section_validate_parts s V) F []) by done. cbn [app]. by case_if.
Qed.

(** ** Reading what was written *)

Lemma reads_many {A} (p : R A) enc l :
  Forall (fun a => reads p (enc a) a) l -> reads (read_many (length l) p) (flat_map enc l) l.
Proof.
  induction 1 as [|a l Ra F IH]; cbn [length read_many flat_map]; [apply reads_ret|].
  eapply reads_bind; [exact Ra|]. eapply reads_bind_end; [exact IH|]. apply reads_ret.
Qed.

Lemma reads_fixed_array n : is_u64 n -> reads (fixed_array n) (enc_array_len n) tt.
Proof.
  intros U. unfold fixed_array. eapply reads_bind_end; [by apply reads_mmap_err, reads_array_len|].
  apply reads_lift. by rewrite Z.eqb_refl.
Qed.

Lemma reads_bounded_array n m : is_u64 n -> n <= m -> reads (bounded_array m) (enc_array_len n) n.
Proof.
  intros U L. unfold bounded_array. eapply reads_bind_end; [by apply reads_mmap_err, reads_array_len|].
  eapply reads_bind_nil; [by apply reads_lift, capacity_Ok|]. apply reads_ret.
Qed.

Lemma reads_u32 v : is_u32 v -> reads read_u32 (enc_u64 v) v.
Proof.
  unfold is_u32. intros U. eapply reads_bind_end; [apply reads_mmap_err, reads_u64; unfold is_u64; lia|].
  apply reads_lift. unfold try_u32. case_if; [done|b2p; lia].
Qed.

Lemma reads_digest32 d : length d = 32%nat -> reads read_digest32 (enc_bytes d) d.
Proof.
  intros L. assert (len d = 32) as E by (unfold len; lia).
  eapply reads_bind_end; [apply reads_mmap_err, reads_bytes_bounded; lia|]. rewrite E.
  eapply reads_bind_nil; [by apply reads_lift|]. apply reads_ret.
Qed.

Lemma reads_history_u64 v : is_u64 v -> reads (history_read read_u64) (enc_u64 v) v.
Proof. intros U. by apply reads_mmap_err, reads_u64. Qed.

Lemma reads_history_i64 v : is_i64 v -> reads (history_read read_i64) (enc_i64 v) v.
Proof. intros U. by apply reads_mmap_err, reads_i64. Qed.

(** A bounded identifier. *)
Lemma reads_name {A} kind t m (k : text -> R A) e a :
  wf_name t -> len t <= m -> m <= usize_max -> reads (k t) e a ->
  reads (raw <- history_read (read_text_bounded m) ;; id <- lift (history_name (validate_non_empty kind) raw) ;; k id)
    (enc_text t ++ e) a.
Proof.
  intros N L M K. eapply reads_bind.
  { apply reads_mmap_err, reads_text_bounded; [lia..|by apply is_name_utf8]. }
  eapply reads_bind_nil; [|exact K]. apply reads_lift. unfold history_name. by rewrite validate_non_empty_ok.
Qed.

Lemma reads_anchor a : validate_anchor a = Ok tt -> wf_anchor_text a -> reads decode_anchor (enc_anchor a) a.
Proof.
  intros V (N1 & Ld & N2 & N3 & Ug & N4 & N5).
  pose proof (validate_anchor_inv a V) as (Us & L1 & L2 & L3 & (v & Ev & L4) & (f & Ef & L5) & d & Ed & Ld' & Eh).
  destruct a as [seq key body ver sig [gen dig oid fver]]; simpl in *. subst ver fver.
  unfold decode_anchor, enc_anchor, MAX_OBJECT_ID_BYTES, MAX_VERSION_ID_BYTES, MAX_KEY_ID_BYTES in *.
  cbn [anchor_format_ref anchor_sequence anchor_commit_key anchor_body_digest anchor_version_id anchor_signing_key_id
       fr_generation fr_digest fr_object_id fr_version_id]. rewrite Ed. cbn [default from_option id].
  eapply reads_bind; [apply reads_fixed_array; unfold is_u64; lia|].
  eapply reads_bind; [apply reads_history_u64; unfold is_u64; lia|].
  eapply reads_name; [done|lia..|].
  eapply reads_bind; [by apply reads_digest32|].
  eapply reads_name; [by auto|lia..|]. eapply reads_name; [by auto|lia..|].
  eapply reads_bind; [apply reads_fixed_array; unfold is_u64; lia|].
  eapply reads_bind; [by apply reads_history_u64|].
  eapply reads_bind; [by apply reads_digest32|].
  eapply reads_name; [by auto|lia..|].
  rewrite <- (app_nil_r (enc_text f)). eapply reads_name; [by auto|lia..|].
  rewrite Eh. eapply reads_bind_nil; [by apply reads_lift|]. apply reads_ret.
Qed.

Lemma reads_point p : point_ok p -> wf_point p -> reads decode_point (enc_point p) p.
Proof.
  intros O (Wa & I1 & I2 & L). pose proof (proj2 (validate_point_Ok p) O) as V. destruct O as [Va _].
  destruct p as [a t u i]. simpl in *.
  unfold decode_point, enc_point. cbn [point_anchor point_publish_time_ms protected_until_ms policy_id].
  eapply reads_bind; [apply reads_fixed_array; unfold is_u64; lia|].
  eapply reads_bind; [by apply reads_anchor|]. eapply reads_bind; [by apply reads_history_i64|].
  eapply reads_bind; [by apply reads_history_i64|]. eapply reads_bind_end; [by apply reads_digest32|].
  eapply reads_bind_nil; [by apply reads_lift|]. apply reads_ret.
Qed.

Lemma len_bound {A} (l : list A) m : len l <= m -> m <= u64_max -> is_u64 (len l).
Proof. intros. pose proof (len_nonneg l). unfold is_u64. lia. Qed.

Lemma reads_points m l : points_ok m l -> m <= u64_max -> Forall wf_point l -> reads (decode_points m) (enc_points l) l.
Proof.
  intros O M F. pose proof (proj2 (validate_points_Ok l m) O) as V. destruct O as (L & O & _).
  unfold decode_points, enc_points. eapply reads_bind; [apply reads_bounded_array; [by eapply len_bound|done]|].
  unfold len at 1. rewrite Nat2Z.id. eapply reads_bind_end.
  { apply reads_many. apply List.Forall_forall. rewrite List.Forall_forall in O, F. intros p I. apply reads_point; auto. }
  eapply reads_bind_nil; [by apply reads_lift|]. apply reads_ret.
Qed.

Lemma starts_i64 v : is_i64 v -> starts_item (enc_i64 v).
Proof.
  unfold is_i64, enc_i64, write_i64, starts_item, is_u64. intros I. case_if; b2p.
  - exists 0, v, []. rewrite app_nil_r. split_and!; [done|lia..].
  - exists 1, ((-1 - v) mod 2 ^ 64), []. rewrite app_nil_r. pose proof (Z.mod_pos_bound (-1 - v) (2 ^ 64)).
    split_and!; [done|lia..].
Qed.

Lemma starts_u64 v : is_u64 v -> starts_item (enc_u64 v).
Proof. intros U. exists 0, v, []. rewrite app_nil_r. split_and!; [done|lia..|done]. Qed.

Lemma reads_delta d : (forall p, register d = Some p -> point_ok p) -> wf_delta d -> reads decode_delta (enc_delta d) d.
Proof.
  intros O (Wp & We & Wr). destruct d as [reg ex roll]. simpl in *. unfold decode_delta, enc_delta.
  cbn [register delta_expire_before_ms roll_tail].
  eapply reads_bind; [apply reads_fixed_array; unfold is_u64; lia|].
  eapply reads_bind; [apply reads_null_or; intros p E; split; [apply starts_array_len; unfold is_u64; lia|]; apply reads_point; auto|].
  eapply reads_bind; [apply reads_null_or; intros c E; split; [apply starts_i64|apply reads_history_i64]; auto|].
  eapply reads_bind_end; [apply reads_null_or; intros i E; split; [apply starts_u64|apply reads_u32]; auto|].
  2: apply reads_ret. specialize (Wr i E). unfold is_u32, is_u64 in *. lia.
Qed.

Lemma reads_claims c : claims_ok c -> wf_claims c -> reads decode_claims (enc_claims c) c.
Proof.
  intros V (U & U1 & U2 & I1 & I2). destruct c as [n f l mi ma]. simpl in *. unfold decode_claims, enc_claims.
  cbn [record_count first_sequence last_sequence minimum_deadline_ms maximum_deadline_ms].
  eapply reads_bind; [apply reads_fixed_array; unfold is_u64; lia|].
  eapply reads_bind; [by apply reads_u32|]. eapply reads_bind; [by apply reads_history_u64|].
  eapply reads_bind; [by apply reads_history_u64|]. eapply reads_bind; [by apply reads_history_i64|].
  eapply reads_bind_end; [by apply reads_history_i64|]. eapply reads_bind_nil; [by apply reads_lift|]. apply reads_ret.
Qed.

Lemma reads_location r :
  validate_location r = Ok tt -> wf_location (location r) -> reads decode_location (enc_location (location r)) (location r).
Proof.
  unfold validate_location, decode_location, enc_location. intros V F. destruct (location r) as [i|a o i]; simpl in F.
  - eapply reads_bind; [apply reads_mmap_err, reads_array_len; unfold is_u64; lia|].
    eapply reads_bind; [apply reads_history_u64; unfold is_u64; lia|]. cbn [Z.eqb Pos.eqb andb].
    eapply reads_bind_end; [by apply reads_u32|]. apply reads_ret.
  - inv_bind. destruct F as (Wa & Uo & Ui).
    eapply reads_bind; [apply reads_mmap_err, reads_array_len; unfold is_u64; lia|].
    eapply reads_bind; [apply reads_history_u64; unfold is_u64; lia|]. cbn [Z.eqb Pos.eqb andb].
    eapply reads_bind; [by apply reads_anchor|]. eapply reads_bind; [by apply reads_u32|].
    eapply reads_bind_end; [by apply reads_u32|]. apply reads_ret.
Qed.

Lemma reads_page_ref expire r : ref_ok expire r -> wf_page_ref r -> reads decode_page_ref (enc_page_ref r) r.
Proof.
  intros (C & V & _) [Wl Wc]. pose proof (reads_location r V Wl) as Rl. destruct r as [loc c]. simpl in *.
  unfold decode_page_ref, enc_page_ref. cbn [location claims].
  eapply reads_bind; [apply reads_fixed_array; unfold is_u64; lia|]. eapply reads_bind; [exact Rl|].
  eapply reads_bind_end; [by apply reads_claims|]. apply reads_ret.
Qed.

Lemma reads_snapshot s : snapshot_ok s -> wf_snapshot s -> reads decode_snapshot (enc_snapshot s) s.
Proof.
  intros O (Wr & Wp & I). pose proof (proj2 (validate_snapshot_Ok s) O) as V.
  destruct O as (Lp & Ot & _ & _ & Or & _). destruct s as [ps ts ex]. simpl in *.
  unfold decode_snapshot, enc_snapshot, MAX_RECOVERY_PAGES, MAX_RECOVERY_TAIL_RECORDS in *.
  cbn [pages tail expire_before_ms].
  eapply reads_bind; [apply reads_fixed_array; unfold is_u64; lia|].
  eapply reads_bind; [apply reads_bounded_array; [by eapply len_bound|done]|].
  unfold len at 1. rewrite Nat2Z.id. eapply reads_bind.
  { apply reads_many. apply List.Forall_forall. rewrite List.Forall_forall in Or, Wr.
    intros r In. eapply reads_page_ref; auto. }
  eapply reads_bind; [by apply reads_points|]. eapply reads_bind_end; [by apply reads_history_i64|].
  eapply reads_bind_nil; [by apply reads_lift|]. apply reads_ret.
Qed.

Lemma wf_policy_range p : wf_policy p ->
  is_u32 (window_days p) /\ is_u32 (renewal_margin_seconds p) /\ is_u32 (clock_uncertainty_ms p).
Proof.
  unfold wf_policy, RecoveryPolicy_new, in_1_to, is_u32, MAX_WINDOW_DAYS, MAX_MARGIN_SECONDS, MAX_CLOCK_UNCERTAINTY_MS.
  intros E. inv_bind. b2p. lia.
Qed.

Lemma reads_recovery_section s : parts_ok s -> wf_recovery s -> reads decode_section_body (enc_recovery s) s.
Proof.
  intros (Ll & Op & Ol & Os) (Wp & Wd & Ws & Wl). pose proof (wf_policy_range _ Wp) as (U1 & U2 & U3).
  unfold wf_policy in Wp. destruct s as [pol d sn loc]. simpl in *.
  unfold decode_section_body, enc_recovery, MAX_RECOVERY_PAGES, MAX_RECOVERY_PAGE_RECORDS, WIRE_VERSION in *.
  cbn [current_policy delta snapshot local_pages].
  eapply reads_bind; [apply reads_fixed_array; unfold is_u64; lia|].
  eapply reads_bind; [apply reads_history_u64; unfold is_u64; lia|]. eapply reads_bind_nil; [by apply reads_lift|].
  eapply reads_bind; [apply reads_fixed_array; unfold is_u64; lia|].
  do 3 (eapply reads_bind; [by apply reads_u32|]). eapply reads_bind_nil; [by apply reads_lift|].
  eapply reads_bind; [by apply reads_delta|].
  eapply reads_bind; [apply reads_null_or; intros x E; split; [apply starts_array_len; unfold is_u64; lia|apply reads_snapshot; auto]|].
  eapply reads_bind; [apply reads_bounded_array; [by eapply len_bound|done]|].
  unfold len at 1. rewrite Nat2Z.id. eapply reads_bind_end; [|apply reads_ret].
  apply reads_many. apply List.Forall_forall. rewrite List.Forall_forall in Ol, Wl. intros [l] I.
  eapply reads_bind_end; [by apply (reads_points 4096 l); [apply (Ol _ I)|lia|apply (Wl _ I)]|]. apply reads_ret.
Qed.

(** ** Accepting only what was written *)

Lemma accepts_many {A} (p : R A) (P : A -> Prop) enc n :
  accepts p (fun a c => P a /\ c = enc a) ->
  accepts (read_many n p) (fun l c => length l = n /\ Forall P l /\ c = flat_map enc l).
Proof.
  intros Pa. induction n as [|n IH]; cbn [read_many]; intros s l a s' V Eq.
  - inv_bind. exists [], l. done.
  - inv_bind. destruct (Pa _ _ _ _ V Heqr) as (c1 & r1 & -> & V1 & Q1 & ->).
    destruct (IH _ _ _ _ V1 Heqr0) as (c2 & r2 & -> & V2 & L & F & ->).
    eexists _, _. split; [by rewrite app_assoc|]. split; [done|]. split_and!; [by simpl; rewrite L|by constructor|done].
Qed.

Lemma accepts_fixed_array n : accepts (fixed_array n) (fun _ c => c = enc_array_len n).
Proof. intros s l a s' V Eq. unfold fixed_array, history_read in Eq. inv_bind. b2p. subst. all_accepts. by chunk. Qed.

Lemma accepts_bounded_array m : accepts (bounded_array m) (fun n c => is_u64 n /\ n <= m /\ c = enc_array_len n).
Proof.
  intros s l a s' V Eq. unfold bounded_array, history_read in Eq. inv_bind. fwd capacity_inv. all_accepts. by chunk.
Qed.

Lemma accepts_u32 : accepts read_u32 (fun v c => is_u32 v /\ c = enc_u64 v).
Proof.
  intros s l a s' V Eq. unfold read_u32, history_read, try_u32 in Eq. inv_bind. case_match; inv_bind. b2p.
  all_accepts. chunk. unfold is_u64, is_u32 in *. split; [lia|done].
Qed.

Lemma accepts_digest32 : accepts read_digest32 (fun d c => length d = 32%nat /\ c = enc_bytes d).
Proof.
  intros s l a s' V Eq. unfold read_digest32, history_read in Eq. inv_bind. b2p. all_accepts. chunk.
  split; [unfold len in *; lia|done].
Qed.
#[local] Hint Resolve accepts_fixed_array accepts_bounded_array accepts_u32 accepts_digest32 : codec.

Lemma history_name_inv kind t t' :
  history_name (validate_non_empty kind) t = Ok t' -> t' = t /\ trim_is_empty t = false.
Proof. unfold history_name. intros E. inv_bind. by eapply validate_non_empty_inv. Qed.

Context `{!PrimitivesLaws}.

Lemma accepts_anchor :
  accepts decode_anchor (fun a c => validate_anchor a = Ok tt /\ wf_anchor_text a /\ c = enc_anchor a).
Proof.
  intros s l a s' V Eq. unfold decode_anchor, history_read in Eq. inv_bind.
  repeat match goal with X : history_name _ _ = Ok _ |- _ => apply history_name_inv in X as [-> ?] end.
  match goal with X : validate_anchor _ = _ |- _ => rename X into Va end.
  all_accepts. chunk. split; [done|].
  unfold enc_anchor. cbn [anchor_format_ref anchor_sequence anchor_commit_key anchor_body_digest anchor_version_id
    anchor_signing_key_id fr_generation fr_digest fr_object_id fr_version_id default from_option id].
  rewrite hex_decode_encode. cbn [default from_option id]. split; [|done].
  unfold wf_anchor_text. simpl. split_and!; try done; try (by apply wf_name_intro).
  - intros v [= <-]. by apply wf_name_intro.
  - intros v [= <-]. by apply wf_name_intro.
Qed.
#[local] Hint Resolve accepts_anchor : codec.

Lemma accepts_point : accepts decode_point (fun p c => (point_ok p /\ wf_point p) /\ c = enc_point p).
Proof.
  intros s l a s' V Eq. unfold decode_point, history_read in Eq. inv_bind. fwd validate_point_Ok.
  all_accepts. chunk. by split_and!.
Qed.
#[local] Hint Resolve accepts_point : codec.

Lemma Forall_and_inv {A} (P Q : A -> Prop) l : Forall (fun a => P a /\ Q a) l -> Forall P l /\ Forall Q l.
Proof. intros F. split; (eapply List.Forall_impl; [|exact F]); simpl; tauto. Qed.

Lemma accepts_points m :
  accepts (decode_points m) (fun l c => points_ok m l /\ Forall wf_point l /\ c = enc_points l).
Proof.
  intros s l a s' V Eq. unfold decode_points in Eq. inv_bind. fwd validate_points_Ok.
  step_accepts. match goal with X : read_many _ _ _ = Ok _ |- _ =>
    eapply (accepts_many _ _ enc_point _ accepts_point) in X; [|eassumption] end.
  match goal with X : exists c, _ |- _ => destruct X as (c' & r' & -> & V' & L & F & ->) end. destruct_and?. subst.
  apply Forall_and_inv in F as [_ F]. chunk. split_and!; [done..|]. unfold enc_points.
  match goal with |- context [enc_array_len ?n] => replace n with (len a) by (unfold len, is_u64 in *; lia) end. done.
Qed.
#[local] Hint Resolve accepts_points : codec.

Lemma accepts_opt_ok {A} (p : R A) (P : A -> Prop) enc :
  accepts p (fun a c => P a /\ c = enc a) ->
  accepts (null_or_read p) (fun o c => (forall a, o = Some a -> P a) /\ c = enc_or_null enc o).
Proof.
  intros Pa. eapply accepts_weaken; [apply accepts_null_or, Pa|]. intros [a|] c; simpl; [|by intros ->].
  intros [? ->]. split; [|done]. by intros ? [= <-].
Qed.

Lemma accepts_delta : accepts decode_delta (fun d c =>
  ((forall p, register d = Some p -> point_ok p) /\ wf_delta d) /\ c = enc_delta d).
Proof.
  intros s l a s' V Eq. unfold decode_delta in Eq. inv_bind.
  pose proof (accepts_opt_ok _ _ _ accepts_point). pose proof (accepts_opt_ok _ _ _ accepts_u32).
  assert (accepts (null_or_read (history_read read_i64)) (fun o c => (forall a, o = Some a -> is_i64 a) /\ c = enc_or_null enc_i64 o))
    by (apply accepts_opt_ok, accepts_mmap_err, accepts_i64).
  all_accepts. chunk. split; [|reflexivity]. unfold wf_delta. cbn [register delta_expire_before_ms roll_tail].
  split_and!; try done; intros p E;
    match goal with X : forall a, o = Some a -> _ |- _ => by destruct (X p E) end.
Qed.

Lemma accepts_claims : accepts decode_claims (fun x c => claims_ok x /\ wf_claims x /\ c = enc_claims x).
Proof.
  intros s l a s' V Eq. unfold decode_claims, history_read in Eq. inv_bind.
  match goal with X : validate_claims _ = _ |- _ => rename X into Vc end.
  all_accepts. chunk. split_and!; [exact Vc|by split_and!|reflexivity].
Qed.

Lemma accepts_location : accepts decode_location (fun x c => wf_location x /\ c = enc_location x).
Proof.
  intros s l a s' V Eq. unfold decode_location, history_read in Eq. inv_bind.
  case_if_in Eq; [|case_if_in Eq]; inv_bind; b2p; subst; all_accepts; chunk; by split_and!.
Qed.
#[local] Hint Resolve accepts_delta accepts_claims accepts_location : codec.

Lemma accepts_page_ref : accepts decode_page_ref (fun r c => wf_page_ref r /\ c = enc_page_ref r).
Proof.
  intros s l a s' V Eq. unfold decode_page_ref in Eq. inv_bind. all_accepts. chunk. by split_and!.
Qed.

#[local] Hint Extern 1 (accepts (read_many _ decode_page_ref) _) =>
  apply (accepts_many _ _ _ _ accepts_page_ref) : codec.

(** The count in front of a list is its length. *)
Lemma count_length {A} (l : list A) n : is_u64 n -> length l = Z.to_nat n -> n = len l.
Proof. unfold is_u64, len. lia. Qed.

Ltac counted :=
  repeat match goal with
  | L : length ?l = Z.to_nat ?n, U : is_u64 ?n |- _ => apply (count_length l n U) in L; subst n
  end.

Lemma accepts_snapshot : accepts decode_snapshot (fun x c => (snapshot_ok x /\ wf_snapshot x) /\ c = enc_snapshot x).
Proof.
  intros s l a s' V Eq. unfold decode_snapshot, history_read in Eq. inv_bind. fwd validate_snapshot_Ok.
  all_accepts. counted. chunk. split; [|reflexivity]. split; [done|]. by split_and!.
Qed.

Lemma accepts_local_page :
  accepts (l <- decode_points MAX_RECOVERY_PAGE_RECORDS ;; mret {| points := l |})
    (fun page c => Forall wf_point (points page) /\ c = enc_points (points page)).
Proof. intros s l a s' V Eq. inv_bind. all_accepts. by chunk. Qed.

#[local] Hint Extern 1 (accepts (read_many _ (mbind (decode_points _) _)) _) =>
  apply (accepts_many _ _ (fun page => enc_points (points page)) _ accepts_local_page) : codec.
#[local] Hint Extern 1 (accepts (null_or_read decode_snapshot) _) =>
  apply (accepts_opt_ok _ _ _ accepts_snapshot) : codec.

Lemma RecoveryPolicy_new_inv a b c p :
  RecoveryPolicy_new a b c = Ok p ->
  wf_policy p /\ window_days p = a /\ renewal_margin_seconds p = b /\ clock_uncertainty_ms p = c.
Proof.
  intros E. pose proof E as E'. unfold RecoveryPolicy_new in E'. inv_bind. done.
Qed.

Lemma accepts_recovery_section : accepts decode_section_body (fun x c => wf_recovery x /\ c = enc_recovery x).
Proof.
  intros s l a s' V Eq. unfold decode_section_body, history_read in Eq. inv_bind. b2p. subst.
  match goal with X : RecoveryPolicy_new _ _ _ = Ok _ |- _ => apply RecoveryPolicy_new_inv in X as (Wp & Ew & Er & Ec) end.
  all_accepts. counted. chunk. split.
  - split_and!; [exact Wp|done| |done]. cbn [snapshot]. intros x E.
    match goal with X : forall a, _ = Some a -> snapshot_ok a /\ _ |- _ => by destruct (X x E) end.
  - unfold enc_recovery. cbn [current_policy delta snapshot local_pages]. reflexivity.
Qed.

Lemma decode_section_iff bs s :
  RecoverySection_decode bs = Ok s <-> wf_recovery s /\ RecoverySection_encode s = Ok bs.
Proof.
  unfold RecoverySection_decode. split.
  - intros D. inv_bind. fwd capacity_inv. b2p. unfold MAX_RECOVERY_SECTION_BYTES in *.
    match goal with X : decode_section_body _ = _ |- _ => rename X into B end.
    eapply accepts_all in B; [|apply accepts_recovery_section|lia|done]. cbv beta in B. destruct B as [F ->].
    split; [done|]. rewrite encode_eq by done. unfold MAX_RECOVERY_SECTION_BYTES. case_if; [done|b2p; lia].
  - intros [F En]. assert (section_validate s = Ok tt) as V.
    { unfold RecoverySection_encode in En. inv_bind. done. }
    rewrite encode_eq in En by done. case_if_in En; [|done]. b2p. inv_bind.
    rewrite (proj2 (capacity_Ok _ _)) by done. cbn [rbind]. unfold MAX_RECOVERY_SECTION_BYTES in *.
    destruct (reads_all _ _ _ (reads_recovery_section s (section_validate_parts s V) F)) as (r & -> & Fin); [lia|].
    cbn [rbind]. rewrite Fin. cbn [negb reject_if rbind]. by rewrite V.
Qed.

(** ** Properties *)

(** C16: The recovery section codec is exact: bytes decode to a section precisely
    when they are what the encoder writes for it, so a stored history has one
    reading and a reading one stored form; every validation that the decoder
    repeats on the way is implied by that of the section. *)
Theorem recovery_section_exact bs s :
  RecoverySection_decode bs = Ok s <-> wf_recovery s /\ RecoverySection_encode s = Ok bs.
Proof. apply decode_section_iff. Qed.
End RoundTrip.
