(* ===== verification/RecoverySeal.v ===== *)
(** * Encrypted recovery sections

    crates/rs3-repository/src/v3/recovery/section.rs frames and seals the
    plaintext history, bound to the repository, the commit object and the
    position of the section; [repository_context_from_refs] of
    service/packed.rs is the repository part of that binding. *)

From Stdlib Require Import Strings.String.
From S2P Require Import Prelude Effects Ord Text Types External V3Wire Keyring Aead Commit.
Open Scope Z_scope.
Import V3 Keys.

Definition MAX_RECOVERY_SECTION_BYTES : Z := 8 * 1024 * 1024.
Definition MAGIC : list byte := bytes_of_string "rs3:rcv" ++ [x0a].
Definition VERSION : Z := 1.
Definition HEADER_BYTES : Z := 56.
Definition NONCE_BYTES : Z := 12.
Definition TAG_BYTES : Z := 16.
Definition AAD_DOMAIN : list byte := bytes_of_string "rs3:recovery-section-aad:v03" ++ [x0a].

(** [repository_context_from_refs] (service/packed.rs). *)
Definition REPOSITORY_CONTEXT_DOMAIN : list byte :=
  bytes_of_string "rs3:v02-repository-context:repository-and-keyring:v1" ++ [x0a].

Definition repository_context_from_refs (repository_id : text) (keyring_reference : V3KeyringEnvelopeRef) :
    V3Result (list byte) :=
  repository_len <-? ok_or (try_u32 (len repository_id)) InvalidHeaderField ;;
  keyring_len <-? ok_or (try_u32 (len (ke_object_id keyring_reference))) InvalidHeaderField ;;
  Ok (REPOSITORY_CONTEXT_DOMAIN ++ to_be_bytes 4 repository_len ++ repository_id
      ++ to_be_bytes 4 keyring_len ++ ke_object_id keyring_reference ++ ke_digest keyring_reference).

Definition section_associated_data (context : list byte) (object : text) (header : list byte) : V3Result (list byte) :=
  reject_if ((len context =? 0) || (len context >? 4096) || (len object >? 1024)) InvalidRecoveryHistory ;;?
  Ok (AAD_DOMAIN ++ to_be_bytes 4 (len context) ++ context ++ to_be_bytes 4 (len object) ++ object ++ header).

(** [take::<N>] on the stored bytes, with the offset as cursor. *)
Definition take_at (stored : list byte) (n : Z) : M Z V3FormatError (list byte) := fun offset =>
  end_ <-? ok_or (checked_add offset n) InvalidRecoveryHistory ;;
  reject_if (end_ >? len stored) InvalidRecoveryHistory ;;?
  Ok (firstn (Z.to_nat n) (skipn (Z.to_nat offset) stored), end_).

(** [From<CryptoError>] of the format errors. *)
Definition from_crypto {A} (r : CR A) : V3Result A := map_err (fun _ => CryptoOperation) r.

(** The fixed part of the header and the key id. *)
Definition section_header (key_id : text) (ordinal : Z) (plaintext identity : list byte) : list byte :=
  MAGIC ++ to_be_bytes 2 VERSION ++ to_be_bytes 2 (len key_id) ++ to_be_bytes 4 ordinal
  ++ to_be_bytes 8 (len plaintext) ++ identity ++ key_id.

(** ** The associated data determine what they bind *)

Lemma field4_app_inj a b x y :
  len a <= u32_max -> len b <= u32_max ->
  to_be_bytes 4 (len a) ++ a ++ x = to_be_bytes 4 (len b) ++ b ++ y -> a = b /\ x = y.
Proof.
  intros A B E. pose proof (len_nonneg a). pose proof (len_nonneg b).
  apply to_be_bytes_app_inj in E as [L E]; [|simpl; lia..]. apply app_inj_1 in E; [done|]. unfold len in L. lia.
Qed.

Lemma repository_context_inj id1 id2 k1 k2 c :
  length (ke_digest k1) = 32%nat -> length (ke_digest k2) = 32%nat ->
  repository_context_from_refs id1 k1 = Ok c -> repository_context_from_refs id2 k2 = Ok c ->
  id1 = id2 /\ ke_object_id k1 = ke_object_id k2 /\ ke_digest k1 = ke_digest k2.
Proof.
  unfold repository_context_from_refs, try_u32. intros D1 D2 E1 E2.
  do 2 (case_if_in E1; [|done]; case_if_in E2; [|done]; cbn [ok_or rbind] in E1, E2). b2p. rewrite <- E2 in E1.
  apply ok_inj, app_inv_head in E1. apply field4_app_inj in E1 as [-> E1]; [|done..].
  by apply field4_app_inj in E1 as [-> ->].
Qed.

Lemma section_associated_data_inj c1 c2 o1 o2 h1 h2 a :
  section_associated_data c1 o1 h1 = Ok a -> section_associated_data c2 o2 h2 = Ok a ->
  c1 = c2 /\ o1 = o2 /\ h1 = h2.
Proof.
  unfold section_associated_data, reject_if. intros E1 E2. case_if_in E1; [done|]. case_if_in E2; [done|].
  cbn [rbind] in E1, E2. b2p.
  rewrite <- E2 in E1. apply ok_inj, app_inv_head in E1. pose proof (len_nonneg c1). pose proof (len_nonneg c2).
  pose proof (len_nonneg o1). pose proof (len_nonneg o2).
  apply field4_app_inj in E1 as [-> E1]; [|lia..]. by apply field4_app_inj in E1 as [-> ->]; [|lia..].
Qed.

Section RecoverySeal.
Context `{Primitives}.

(** [seal]; [identity] and [filled] are the draws of the carrier identity and
    of the nonce. *)
Definition seal (ring : KeyRing) (identity filled : option (list byte)) (repository_context : list byte)
    (object : text) (ordinal : Z) (plaintext : list byte) : V3Result (list byte) :=
  key_id <-? from_crypto (primary_key_id ring Metadata) ;;
  reject_if ((len key_id =? 0) || (len key_id >? 255)) InvalidRecoveryHistory ;;?
  stored_len <-? ok_or (match checked_add HEADER_BYTES (len key_id) with
                        | Some size =>
                            match checked_add size (NONCE_BYTES + TAG_BYTES) with
                            | Some size =>
                                match checked_add size (len plaintext) with
                                | Some size => if size <=? MAX_RECOVERY_SECTION_BYTES then Some size else None
                                | None => None
                                end
                            | None => None
                            end
                        | None => None
                        end) RecoveryHistoryCapacity ;;
  identity <-? ok_or identity CryptoOperation ;;
  let header := section_header key_id ordinal plaintext identity in
  aad <-? section_associated_data repository_context object header ;;
  sealed <-? from_crypto (seal_metadata_payload ring filled aad plaintext) ;;
  reject_if
    (negb (bool_decide (seal_key_id sealed = key_id))
     || negb (len (seal_nonce sealed) =? NONCE_BYTES)
     || negb (len (seal_tag sealed) =? TAG_BYTES)
     || negb (len (seal_ciphertext sealed) =? len plaintext)) InvalidRecoveryHistory ;;?
  Ok (header ++ seal_nonce sealed ++ seal_tag sealed ++ seal_ciphertext sealed).

(** The fields of the fixed header, read in order; the second result is the
    length of the ciphertext. *)
Definition open_header (ordinal : Z) (stored : list byte) : M Z V3FormatError (Z * Z) :=
  magic <- take_at stored 8 ;;
  lift (reject_if (negb (bool_decide (magic = MAGIC))) InvalidRecoveryHistory) ;;
  version <- take_at stored 2 ;;
  lift (reject_if (negb (from_be_bytes version =? VERSION)) InvalidRecoveryHistory) ;;
  key_len <- take_at stored 2 ;;
  actual_ordinal <- take_at stored 4 ;;
  ciphertext_len <- take_at stored 8 ;;
  _identity <- take_at stored 32 ;;
  lift (reject_if ((from_be_bytes key_len =? 0) || (from_be_bytes key_len >? 255)
                   || negb (from_be_bytes actual_ordinal =? ordinal)) InvalidRecoveryHistory) ;;
  mret (from_be_bytes key_len, from_be_bytes ciphertext_len).

Definition open (ring : KeyRing) (repository_context : list byte) (object : text) (ordinal : Z)
    (stored : list byte) : V3Result (list byte) :=
  reject_if (len stored >? MAX_RECOVERY_SECTION_BYTES) RecoveryHistoryCapacity ;;?
  '((key_len, ciphertext_len), offset) <-? open_header ordinal stored 0 ;;
  header_end <-? ok_or (checked_add offset key_len) RecoveryHistoryCapacity ;;
  expected_len <-? ok_or (match checked_add header_end (NONCE_BYTES + TAG_BYTES) with
                          | Some size => checked_add size ciphertext_len
                          | None => None
                          end) RecoveryHistoryCapacity ;;
  reject_if (negb (expected_len =? len stored)) InvalidRecoveryHistory ;;?
  let key := firstn (Z.to_nat key_len) (skipn (Z.to_nat offset) stored) in
  reject_if (negb (utf8_valid key)) InvalidRecoveryHistory ;;?
  key_id <-? map_err (fun _ => InvalidRecoveryHistory) (KeyId_new key) ;;
  aad <-? section_associated_data repository_context object (firstn (Z.to_nat header_end) stored) ;;
  '(nonce, offset) <-? take_at stored NONCE_BYTES header_end ;;
  '(tag, offset) <-? take_at stored TAG_BYTES offset ;;
  map_err (fun _ => InvalidRecoveryHistory)
    (open_metadata_payload ring key_id aad nonce (skipn (Z.to_nat offset) stored) tag).

(** ** Opening what was sealed *)

Lemma take_at_app stored pre x post offset n next :
  stored = pre ++ x ++ post -> len stored <= u64_max -> offset = len pre -> n = len x -> next = len pre + len x ->
  take_at stored n offset = Ok (x, next).
Proof.
  intros -> B -> -> ->. pose proof (len_nonneg post). rewrite !len_app in B.
  unfold take_at. rewrite checked_add_ok by lia. cbn [ok_or rbind]. unfold reject_if. rewrite !len_app.
  case_if; [b2p; lia|]. cbn [rbind]. unfold len. rewrite !Nat2Z.id, drop_app_length, take_app_length. done.
Qed.

Ltac fields := rewrite ?len_app, ?len_nil; first [lia | by rewrite <- ?app_assoc].

Lemma open_header_of key_id ordinal plaintext identity rest :
  length identity = 32%nat -> is_u32 ordinal -> 0 < len key_id <= 255 ->
  let stored := section_header key_id ordinal plaintext identity ++ rest in
  len stored <= MAX_RECOVERY_SECTION_BYTES -> len plaintext <= len rest ->
  open_header ordinal stored 0 = Ok ((len key_id, len plaintext), HEADER_BYTES).
Proof.
  intros Li Uo Lk stored B Lp. pose proof (len_nonneg plaintext) as Np. unfold MAX_RECOVERY_SECTION_BYTES, is_u32 in *.
  assert (len plaintext <= u64_max /\ len stored <= u64_max) as [Lu Bu].
  { unfold stored in *. rewrite len_app in *. pose proof (len_nonneg (section_header key_id ordinal plaintext identity)). lia. }
  clear B. unfold section_header in stored. set (f2 := to_be_bytes 2 VERSION) in stored.
  set (f3 := to_be_bytes 2 (len key_id)) in stored. set (f4 := to_be_bytes 4 ordinal) in stored.
  set (f5 := to_be_bytes 8 (len plaintext)) in stored.
  assert (len MAGIC = 8 /\ len f2 = 2 /\ len f3 = 2 /\ len f4 = 4 /\ len f5 = 8 /\ len identity = 32) as (L1 & L2 & L3 & L4 & L5 & L6).
  { unfold f2, f3, f4, f5. rewrite !len_to_be_bytes. unfold len. by rewrite Li. }
  assert (stored = MAGIC ++ f2 ++ f3 ++ f4 ++ f5 ++ identity ++ key_id ++ rest) as Es.
  { unfold stored. by rewrite <- !app_assoc. }
  clearbody stored.
  assert (forall pre x post o n o', MAGIC ++ f2 ++ f3 ++ f4 ++ f5 ++ identity ++ key_id ++ rest = pre ++ x ++ post -> o = len pre -> n = len x -> o' = len pre + len x ->
    take_at stored n o = Ok (x, o')) as T by (intros; eapply take_at_app; [by etrans|done..]).
  unfold open_header, mbind, lift.
  rewrite (T ([]) MAGIC (f2 ++ f3 ++ f4 ++ f5 ++ identity ++ key_id ++ rest) 0 8 8) by fields. cbn [rbind].
  rewrite bool_decide_eq_true_2 by done. cbn [negb reject_if rbind].
  rewrite (T (MAGIC) f2 (f3 ++ f4 ++ f5 ++ identity ++ key_id ++ rest) 8 2 10) by fields. cbn [rbind].
  unfold f2 at 1. rewrite from_to_be_bytes by done. cbn [negb reject_if rbind Z.eqb VERSION Pos.eqb].
  rewrite (T (MAGIC ++ f2) f3 (f4 ++ f5 ++ identity ++ key_id ++ rest) 10 2 12) by fields. cbn [rbind].
  rewrite (T (MAGIC ++ f2 ++ f3) f4 (f5 ++ identity ++ key_id ++ rest) 12 4 16) by fields. cbn [rbind].
  rewrite (T (MAGIC ++ f2 ++ f3 ++ f4) f5 (identity ++ key_id ++ rest) 16 8 24) by fields. cbn [rbind].
  rewrite (T (MAGIC ++ f2 ++ f3 ++ f4 ++ f5) identity (key_id ++ rest) 24 32 56) by fields. cbn [rbind].
  unfold f3, f4, f5. rewrite !from_to_be_bytes by (simpl; lia). rewrite Z.eqb_refl. unfold reject_if.
  case_if; [apply orb_true_iff in Heqb as [Heqb|Heqb]; [|done]; apply orb_true_iff in Heqb as [?|?]; b2p; lia|]. done.
Qed.

Lemma section_header_split key_id ordinal plaintext identity :
  length identity = 32%nat ->
  exists fixed, section_header key_id ordinal plaintext identity = fixed ++ key_id /\ len fixed = HEADER_BYTES.
Proof.
  intros Li. exists (MAGIC ++ to_be_bytes 2 VERSION ++ to_be_bytes 2 (len key_id) ++ to_be_bytes 4 ordinal
    ++ to_be_bytes 8 (len plaintext) ++ identity). unfold section_header. rewrite <- !app_assoc. split; [done|].
  rewrite !len_app, !len_to_be_bytes. unfold len at 2. by rewrite Li.
Qed.

(** The length that [seal] checks. *)
Lemma stored_len_Some k p n :
  0 <= k -> 0 <= p ->
  match checked_add HEADER_BYTES k with
  | Some size =>
      match checked_add size (NONCE_BYTES + TAG_BYTES) with
      | Some size =>
          match checked_add size p with
          | Some size => if size <=? MAX_RECOVERY_SECTION_BYTES then Some size else None
          | None => None
          end
      | None => None
      end
  | None => None
  end = Some n -> 84 + k + p <= MAX_RECOVERY_SECTION_BYTES.
Proof.
  unfold checked_add, HEADER_BYTES, NONCE_BYTES, TAG_BYTES, MAX_RECOVERY_SECTION_BYTES. intros K P E.
  repeat (case_if_in E; [|done]). b2p. lia.
Qed.

#[local] Opaque section_header.

(** A framed section opens with the key and the associated data it names. *)
Lemma open_framed ring context object ordinal k plaintext ident nonce tag ciphertext aad :
  length ident = 32%nat -> is_u32 ordinal -> wf_name k -> 0 < len k <= 255 ->
  let h := section_header k ordinal plaintext ident in
  len nonce = NONCE_BYTES -> len tag = TAG_BYTES -> len ciphertext = len plaintext ->
  84 + len k + len plaintext <= MAX_RECOVERY_SECTION_BYTES -> section_associated_data context object h = Ok aad ->
  open ring context object ordinal (h ++ nonce ++ tag ++ ciphertext)
  = map_err (fun _ => InvalidRecoveryHistory) (open_metadata_payload ring k aad nonce ciphertext tag).
Proof.
  intros Li Uo W Lk h Ln Lt Lc B A. destruct (section_header_split k ordinal plaintext ident Li) as (fixed & Eh & Lf).
  fold h in Eh. set (stored := h ++ nonce ++ tag ++ ciphertext).
  unfold HEADER_BYTES, NONCE_BYTES, TAG_BYTES, MAX_RECOVERY_SECTION_BYTES in *. pose proof (len_nonneg plaintext).
  assert (len h = 56 + len k) as Lh by (rewrite Eh, len_app; lia).
  assert (len stored = 84 + len k + len plaintext) as Ls by (unfold stored; rewrite !len_app; lia).
  assert (firstn (Z.to_nat (len k)) (skipn (Z.to_nat 56) stored) = k) as Ek.
  { unfold stored. rewrite Eh, <- app_assoc, <- Lf. unfold len. by rewrite !Nat2Z.id, drop_app_length, take_app_length. }
  assert (firstn (Z.to_nat (56 + len k)) stored = h) as Eh'.
  { rewrite <- Lh. unfold len, stored. by rewrite Nat2Z.id, take_app_length. }
  assert (skipn (Z.to_nat (84 + len k)) stored = ciphertext) as Ec.
  { unfold stored. replace (84 + len k) with (len (h ++ nonce ++ tag)) by (rewrite !len_app; lia).
    unfold len. replace (h ++ nonce ++ tag ++ ciphertext) with ((h ++ nonce ++ tag) ++ ciphertext) by fields.
    by rewrite Nat2Z.id, drop_app_length. }
  unfold open, reject_if, HEADER_BYTES. rewrite Ls. case_if; [b2p; unfold MAX_RECOVERY_SECTION_BYTES in *; lia|]. cbn [rbind].
  unfold stored at 1, h at 1. rewrite open_header_of; [|done..| |].
  2:{ fold h stored. unfold MAX_RECOVERY_SECTION_BYTES. lia. }
  2:{ rewrite !len_app. lia. }
  cbn [rbind]. unfold HEADER_BYTES. rewrite checked_add_ok by lia. cbn [ok_or rbind].
  rewrite checked_add_ok by (unfold NONCE_BYTES, TAG_BYTES; lia).
  rewrite checked_add_ok by (unfold NONCE_BYTES, TAG_BYTES; lia). cbn [ok_or rbind].
  match goal with |- context [negb (?a =? ?b)] => replace (a =? b) with true by (unfold NONCE_BYTES, TAG_BYTES; lia) end.
  cbn [negb rbind]. rewrite Ek, is_name_utf8 by done. unfold KeyId_new.
  rewrite validate_non_empty_ok by done. cbn [negb rbind map_err]. rewrite Eh', A. cbn [rbind].
  rewrite (take_at_app stored h nonce (tag ++ ciphertext) _ _ (68 + len k)) by (done || unfold NONCE_BYTES; lia).
  cbn [rbind]. rewrite (take_at_app stored (h ++ nonce) tag ciphertext _ _ (84 + len k))
    by (unfold stored, TAG_BYTES; fields). cbn [rbind]. by rewrite Ec.
Qed.

Context `{!PrimitivesLaws}.

Lemma open_sealed_section ring ks key identity filled context object ordinal plaintext stored :
  primary_key ring Metadata = Ok key -> wf_name (key_id (descriptor key)) -> still_enabled ks key Metadata ->
  (forall bs, identity = Some bs -> length bs = 32%nat) -> is_u32 ordinal ->
  seal ring identity filled context object ordinal plaintext = Ok stored ->
  open {| keys := ks |} context object ordinal stored = Ok plaintext.
Proof.
  intros P W En Li Uo S. unfold seal, primary_key_id in S. rewrite P in S. cbn [rbind from_crypto map_err] in S.
  inv_bind. rename a1 into ident, a2 into aad, a3 into sealed. specialize (Li ident eq_refl).
  destruct (seal_metadata_payload ring filled aad plaintext) as [sealed'|] eqn:Sm; [|done]. injection Heqr2 as <-.
  destruct (open_sealed_metadata _ _ _ _ _ _ _ P Sm En) as (Op & Ek & Ln & Lc & Lt). rewrite Ek in Op.
  pose proof (len_nonneg (key_id (descriptor key))). pose proof (len_nonneg plaintext).
  apply stored_len_Some in Heqo; [|done..]. b2p. erewrite open_framed; [by rewrite Op|try done..]; lia.
Qed.
End RecoverySeal.
