(* ===== verification/RecoveryPublication.v ===== *)
(** * Recording a supersession

    crates/rs3-repository/src/v3/recovery/publication.rs: from the accepted
    registry and a publication plan, the section that the next commit carries.
    What the writer captures is what every reader computes when it applies the
    section to the same registry. *)

From Stdlib Require Import Sorting.Sorted.
From S2P Require Import Prelude Ord Text Types External V3Wire ObjectKeys Commit Format Anchor.
From S2P Require Import RecoveryPolicy StoreTypes RecoveryHistory RecoveryFacts.
Open Scope Z_scope.
Import V3.

Record AcceptedRecoveryState : Type := {
  accepted_policy : RecoveryPolicy;
  accepted_snapshot : RecoverySnapshot
}.

Record CapturedRecoveryPublication : Type := {
  publication : V3PublicationPlan;
  previous : AcceptedRecoveryState;
  captured_policy : RecoveryPolicy;
  required_coverage_until_ms : Z;    (* i64 *)
  section : RecoverySection
}.

(** [Iterator::min]. *)
Definition min_of (l : list Z) : option Z :=
  match l with
  | [] => None
  | z :: l' => Some (fold_left Z.min l' z)
  end.

Definition next_expiry_cutoff_ms (state : AcceptedRecoveryState) : option Z :=
  let snapshot := accepted_snapshot state in
  let old := expire_before_ms snapshot in
  min_of (List.filter (fun deadline => deadline >? old)
    (map protected_until_ms (tail snapshot)
     ++ map (fun r => if minimum_deadline_ms (claims r) >? old then minimum_deadline_ms (claims r)
                      else maximum_deadline_ms (claims r)) (pages snapshot))).

Definition expiry_checkpoint_due (state : AcceptedRecoveryState) (sampled_now_ms : Z) (policy : RecoveryPolicy) :
    V3Result bool :=
  cutoff <-? expiry_cutoff_ms policy sampled_now_ms ;;
  let cutoff := Z.max cutoff (expire_before_ms (accepted_snapshot state)) in
  Ok (is_some_and (fun deadline => deadline <=? cutoff) (next_expiry_cutoff_ms state)).

(** [retain] of the points and pages that outlive [cutoff]. *)
Definition live_tail (cutoff : Z) (s : RecoverySnapshot) : list RecoveryPoint :=
  List.filter (fun p => protected_until_ms p >? cutoff) (tail s).
Definition live_pages (cutoff : Z) (s : RecoverySnapshot) : list RecoveryPageRef :=
  List.filter (fun r => maximum_deadline_ms (claims r) >? cutoff) (pages s).

Section Publication.
Context `{Primitives}.

(** The snapshot of a root: the captured registry after the transition. *)
Definition root_snapshot (s : RecoverySnapshot) (cutoff : Z) (roll : bool) (point : RecoveryPoint) :
    V3Result RecoverySnapshot :=
  if roll then
    c <-? page_claims {| points := live_tail cutoff s |} ;;
    Ok {| pages := live_pages cutoff s ++ [{| location := ThisSection 0; claims := c |}];
          tail := [point]; expire_before_ms := cutoff |}
  else Ok {| pages := live_pages cutoff s; tail := live_tail cutoff s ++ [point]; expire_before_ms := cutoff |}.

(** The section of the next commit, with the registry it replaces. *)
Definition captured_section (policy : RecoveryPolicy) (registry : RecoverySnapshot) (cutoff : Z) (roll : bool)
    (point : RecoveryPoint) (snapshot : option RecoverySnapshot) : RecoverySection :=
  {| current_policy := policy;
     delta := {| register := Some point;
                 delta_expire_before_ms := if cutoff >? expire_before_ms registry then Some cutoff else None;
                 roll_tail := if roll then Some 0 else None |};
     snapshot := snapshot;
     local_pages := if roll then [{| points := live_tail cutoff registry |}] else [] |}.

Definition CapturedRecoveryPublication_new (publication : V3PublicationPlan) (previous : AcceptedRecoveryState)
    (current_policy : RecoveryPolicy) (is_root : bool) : V3Result CapturedRecoveryPublication :=
  let chosen := plan_publish_time_ms publication in
  let registry := accepted_snapshot previous in
  cutoff <-? expiry_cutoff_ms current_policy (sampled_now_ms publication) ;;
  let cutoff := Z.max cutoff (expire_before_ms registry) in
  coverage_old <-? coverage_until_ms (accepted_policy previous) chosen ;;
  coverage_new <-? coverage_until_ms current_policy chosen ;;
  promised <-? promised_until_ms (accepted_policy previous) chosen ;;
  let point := {| point_anchor := plan_parent publication;
                  point_publish_time_ms := parent_publish_time_ms publication;
                  protected_until_ms := promised;
                  policy_id := identity (accepted_policy previous) |} in
  let roll := len (live_tail cutoff registry) =? MAX_RECOVERY_TAIL_RECORDS in
  reject_if (roll && (len (live_pages cutoff registry) >=? MAX_RECOVERY_PAGES)) RecoveryHistoryCapacity ;;?
  snapshot <-? (if is_root then snapshot <-? root_snapshot registry cutoff roll point ;; Ok (Some snapshot)
                else Ok None) ;;
  let section := captured_section current_policy registry cutoff roll point snapshot in
  validate_for_commit section
    (Some (plan_parent publication, parent_publish_time_ms publication, accepted_policy previous))
    chosen is_root cutoff ;;?
  Ok {| publication := publication; previous := previous; captured_policy := current_policy;
        required_coverage_until_ms := Z.max coverage_old coverage_new; section := section |}.

(** ** What the writer captures is what readers compute *)

(** Everything in the registry precedes the current head. *)
Definition registry_before (s : RecoverySnapshot) (head : V3AnchorState) (time : Z) : Prop :=
  Forall (fun p => point_sequence p < anchor_sequence head /\ point_publish_time_ms p < time) (tail s)
  /\ Forall (fun r => last_sequence (claims r) < anchor_sequence head) (pages s)
  /\ expire_before_ms s <= time.

Definition rolls (cutoff : Z) (s : RecoverySnapshot) : bool := len (live_tail cutoff s) =? MAX_RECOVERY_TAIL_RECORDS.

(** The registry after a supersession: what expired at [cutoff] is gone, a
    full tail has become a page of the enclosing commit, the point is last. *)
Definition superseded (s : RecoverySnapshot) (cutoff : Z) (enclosing : V3AnchorState) (ordinal : Z)
    (point : RecoveryPoint) (c : RecoveryPageClaims) : RecoverySnapshot :=
  if rolls cutoff s then
    {| pages := live_pages cutoff s ++ [{| location := Exact enclosing ordinal 0; claims := c |}];
       tail := [point]; expire_before_ms := cutoff |}
  else {| pages := live_pages cutoff s; tail := live_tail cutoff s ++ [point]; expire_before_ms := cutoff |}.

Lemma live_filter_true cutoff l :
  Forall (fun p => cutoff < protected_until_ms p) (List.filter (fun p => protected_until_ms p >? cutoff) l).
Proof. eapply List.Forall_impl; [|apply Forall_filter_true]. intros p B. cbv beta in B. b2p. lia. Qed.

Lemma live_tail_same s : snapshot_ok s -> live_tail (expire_before_ms s) s = tail s.
Proof.
  intros (_ & _ & _ & F & _). unfold live_tail. induction F as [|p l L F IH]; cbn [List.filter]; [done|].
  rewrite IH. case_if; b2p; [done|lia].
Qed.

Lemma live_pages_same s : snapshot_ok s -> live_pages (expire_before_ms s) s = pages s.
Proof.
  intros (_ & _ & _ & _ & F & _). unfold live_pages. induction F as [|r l (_ & _ & L) F IH]; cbn [List.filter]; [done|].
  rewrite IH. case_if; b2p; [done|lia].
Qed.

(** Dropping what expired keeps a snapshot valid. *)
Lemma expired_ok s cutoff :
  normalized_ok s -> expire_before_ms s <= cutoff ->
  normalized_ok {| pages := live_pages cutoff s; tail := live_tail cutoff s; expire_before_ms := cutoff |}.
Proof.
  intros [(Lp & P & E & F & O & S & B) N] C. unfold live_pages, live_tail. split; [|by apply Forall_filter].
  unfold snapshot_ok. simpl. pose proof (len_filter (fun r => maximum_deadline_ms (claims r) >? cutoff) (pages s)).
  split_and!; [lia|by apply points_ok_filter|lia|apply live_filter_true| |by apply StronglySorted_filter|].
  - apply List.Forall_forall. intros r I. apply filter_In in I as [I M]. rewrite List.Forall_forall in O.
    destruct (O r I) as (C1 & C2 & _). b2p. split_and!; [done..|lia].
  - apply Forall_filter. eapply List.Forall_impl; [|exact B]. intros r. apply Forall_filter.
Qed.

Lemma ref_ok_local expire enclosing ordinal pg c :
  validate_anchor enclosing = Ok tt -> validate_ordinal ordinal = Ok tt -> page_claims pg = Ok c ->
  last_sequence c < anchor_sequence enclosing -> expire < maximum_deadline_ms c ->
  ref_ok expire {| location := Exact enclosing ordinal 0; claims := c |}.
Proof.
  intros A Or C L E. split_and!; [by eapply page_claims_valid| |done]. unfold validate_location.
  cbn [location claims]. rewrite A, Or. cbn [rbind]. rewrite (proj2 (capacity_Ok _ _)) by done. cbn [rbind]. unfold reject_if.
  case_if; [|done]. rewrite Z.geb_leb in *. b2p. lia.
Qed.

Lemma Forall_live {P : RecoveryPoint -> Prop} cutoff s : Forall P (tail s) -> Forall P (live_tail cutoff s).
Proof. apply Forall_filter. Qed.

Lemma Forall_live_pages {P : RecoveryPageRef -> Prop} cutoff s : Forall P (pages s) -> Forall P (live_pages cutoff s).
Proof. apply Forall_filter. Qed.

(** The bounds that the claims of a rolled tail inherit from its points. *)
Lemma rolled_claims pg c n cutoff :
  page_claims pg = Ok c -> Forall (fun p => point_sequence p < n) (points pg) ->
  Forall (fun p => cutoff < protected_until_ms p) (points pg) ->
  last_sequence c < n /\ cutoff < maximum_deadline_ms c
  /\ forall m, Forall (fun p => m < point_sequence p) (points pg) -> m < first_sequence c.
Proof.
  intros C B D. apply page_claims_summarises in C as [_ (_ & (f & z & Hf & Hz & Ef & Ez) & _ & _ & Ex)].
  destruct (points pg) as [|p l] eqn:P; [done|]. injection Hf as ->.
  rewrite List.Forall_forall in B, D. split_and!.
  - rewrite Ez. apply B. apply list_elem_of_In. by apply last_Some_elem_of.
  - apply Exists_exists in Ex as (q & I & ->). auto.
  - intros m M. apply Forall_cons_iff in M as [M _]. lia.
Qed.

Section Superseded.
Context (s : RecoverySnapshot) (cutoff ptime time o : Z) (head e : V3AnchorState) (point : RecoveryPoint).
Hypotheses (N : normalized_ok s) (E : expire_before_ms s <= cutoff) (B : registry_before s head ptime)
  (Op : point_ok point) (Pa : point_anchor point = head) (Pt : point_publish_time_ms point = ptime)
  (D : cutoff < protected_until_ms point) (T : ptime < time) (Ct : cutoff <= time)
  (Es : anchor_sequence e = anchor_sequence head + 1).

Lemma live_tail_before :
  Forall (fun p => point_sequence p < anchor_sequence head /\ point_publish_time_ms p < ptime) (live_tail cutoff s).
Proof. apply Forall_live, B. Qed.

Lemma live_pages_before : Forall (fun r => last_sequence (claims r) < anchor_sequence head) (live_pages cutoff s).
Proof. apply Forall_live_pages, B. Qed.

Lemma pages_before_next : Forall (fun r => last_sequence (claims r) < anchor_sequence e) (live_pages cutoff s).
Proof. eapply List.Forall_impl; [|apply live_pages_before]. simpl. lia. Qed.

(** The tail rolls into a page. *)
Lemma rolled_ok c :
  validate_anchor e = Ok tt -> validate_ordinal o = Ok tt -> len (live_pages cutoff s) < MAX_RECOVERY_PAGES ->
  page_claims {| points := live_tail cutoff s |} = Ok c ->
  let next := {| pages := live_pages cutoff s ++ [{| location := Exact e o 0; claims := c |}];
                 tail := [point]; expire_before_ms := cutoff |} in
  normalized_ok next /\ registry_before next e time.
Proof.
  intros Va Vo Cp C next. destruct (expired_ok s cutoff N E) as [(X1 & (X2 & _) & X3 & X4 & X5 & X6 & X7) Nx].
  simpl in *. pose proof live_pages_before as Lp. pose proof pages_before_next as Ln.
  destruct (rolled_claims _ _ (anchor_sequence head) cutoff C) as (Z1 & Z2 & Z3); simpl; [|done|].
  { eapply List.Forall_impl; [|apply live_tail_before]. simpl. lia. }
  split; [split|split; [|split]]; subst next; simpl; [..|done].
  - unfold snapshot_ok, points_ok. simpl. rewrite len_app. unfold MAX_RECOVERY_TAIL_RECORDS.
    change (len [point]) with 1. change (len [_]) with 1. split_and!; try lia; try (by apply list.Forall_singleton).
    + by repeat constructor.
    + apply Forall_app. split; [done|]. apply list.Forall_singleton.
      by apply (ref_ok_local cutoff e o _ c Va Vo C); [lia|].
    + apply StronglySorted_snoc. split; [done|]. eapply List.Forall_impl; [|exact X7]. intros r Fr. by apply Z3.
    + apply Forall_app. split; [|apply list.Forall_singleton, list.Forall_singleton; simpl; rewrite Pa; lia].
      eapply List.Forall_impl; [|exact Lp]. intros r Lr. apply list.Forall_singleton. cbv beta in Lr. rewrite Pa. lia.
  - apply Forall_app. split; [done|by apply list.Forall_singleton].
  - apply list.Forall_singleton. rewrite Pa. lia.
  - apply Forall_app. split; [done|apply list.Forall_singleton; simpl; lia].
Qed.

(** The point joins the tail. *)
Lemma kept_ok :
  rolls cutoff s = false ->
  let next := {| pages := live_pages cutoff s; tail := live_tail cutoff s ++ [point]; expire_before_ms := cutoff |} in
  normalized_ok next /\ registry_before next e time.
Proof.
  intros R next. destruct (expired_ok s cutoff N E) as [(X1 & (X2a & X2b & X2c) & X3 & X4 & X5 & X6 & X7) Nx].
  simpl in *. pose proof live_tail_before as Lt. pose proof live_pages_before as Lp.
  unfold rolls, MAX_RECOVERY_TAIL_RECORDS in *. b2p. split; [split; [|done]|split; [|split]]; subst next; simpl; [..|done].
  - unfold snapshot_ok, points_ok. simpl. rewrite len_app. change (len [point]) with 1. unfold MAX_RECOVERY_TAIL_RECORDS.
    split_and!; try done; try lia.
    + apply Forall_app. split; [done|by apply list.Forall_singleton].
    + apply StronglySorted_snoc. split; [done|]. eapply List.Forall_impl; [|exact Lt].
      intros p [? ?]. unfold before. rewrite Pa. lia.
    + apply Forall_app. split; [done|by apply list.Forall_singleton].
    + apply List.Forall_forall. intros r I. apply Forall_app. rewrite List.Forall_forall in X7, Lp.
      split; [by apply X7|]. apply list.Forall_singleton. rewrite Pa. by apply Lp.
  - apply Forall_app. split; [|apply list.Forall_singleton; rewrite Pa; lia].
    eapply List.Forall_impl; [|exact Lt]. simpl. lia.
  - apply pages_before_next.
Qed.
End Superseded.

(** A captured publication, taken apart. *)
Lemma captured_inv plan prev policy root cap :
  CapturedRecoveryPublication_new plan prev policy root = Ok cap ->
  let registry := accepted_snapshot prev in
  exists cutoff0 promised snap,
    let cutoff := Z.max cutoff0 (expire_before_ms registry) in
    let point := {| point_anchor := plan_parent plan; point_publish_time_ms := parent_publish_time_ms plan;
                    protected_until_ms := promised; policy_id := identity (accepted_policy prev) |} in
    expiry_cutoff_ms policy (sampled_now_ms plan) = Ok cutoff0
    /\ promised_until_ms (accepted_policy prev) (plan_publish_time_ms plan) = Ok promised
    /\ (rolls cutoff registry = true -> len (live_pages cutoff registry) < MAX_RECOVERY_PAGES)
    /\ (if root then exists x, root_snapshot registry cutoff (rolls cutoff registry) point = Ok x /\ snap = Some x
        else snap = None)
    /\ section cap = captured_section policy registry cutoff (rolls cutoff registry) point snap
    /\ validate_for_commit (section cap)
         (Some (plan_parent plan, parent_publish_time_ms plan, accepted_policy prev))
         (plan_publish_time_ms plan) root cutoff = Ok tt.
Proof.
  unfold CapturedRecoveryPublication_new. intros N. inv_bind. simpl.
  match goal with X : _ && _ = false |- _ => rename X into R end.
  eexists _, _, _. split_and!; [done..| |destruct root; inv_bind; eauto|done|done].
  intros Ro. unfold rolls in Ro. rewrite Ro in R. simpl in R. rewrite Z.geb_leb in R. b2p. lia.
Qed.

(** What [validate_for_commit] leaves of a captured section. *)
Lemma validate_for_commit_inv sec a t p time root safe :
  validate_for_commit sec (Some (a, t, p)) time root safe = Ok tt ->
  section_validate sec = Ok tt /\ bool_decide (is_Some (snapshot sec)) = root
  /\ is_some_and (fun cutoff => cutoff >? time) (delta_expire_before_ms (delta sec)) = false
  /\ exists point promised, register (delta sec) = Some point /\ promised_until_ms p time = Ok promised
     /\ point_anchor point = a /\ point_publish_time_ms point = t /\ promised <= protected_until_ms point
     /\ policy_id point = identity p /\ t < time < protected_until_ms point.
Proof.
  unfold validate_for_commit, validate_for_header. intros V. inv_bind. cbn [fmap option_fmap option_map] in *.
  destruct (register (delta sec)) as [point|]; [|done]. unfold bound_to_parent in *. inv_bind. b2p.
  rewrite !Z.geb_leb in *. b2p. split_and!; try done.
  - by apply eqb_prop.
  - eexists _, _. split_and!; try done; lia.
Qed.

Lemma normalize_refs_exact sec e o l :
  Forall (fun r => is_this_section r = false) l -> normalize_refs sec e o l = Ok l.
Proof.
  induction 1 as [|r l X F IH]; cbn [normalize_refs]; [done|]. unfold is_this_section in X.
  destruct (location r); [done|]. cbn [rbind]. rewrite IH. done.
Qed.

Lemma normalize_refs_app sec e o l1 l2 l1' l2' :
  normalize_refs sec e o l1 = Ok l1' -> normalize_refs sec e o l2 = Ok l2' ->
  normalize_refs sec e o (l1 ++ l2) = Ok (l1' ++ l2').
Proof.
  revert l1'. induction l1 as [|r l1 IH]; intros l1' E1 E2; cbn [normalize_refs app] in *; inv_bind; [done|].
  cbn [rbind]. by erewrite IH.
Qed.

Section Capture.
Context (policy : RecoveryPolicy) (s : RecoverySnapshot) (cutoff ptime time o : Z) (head e : V3AnchorState)
  (point : RecoveryPoint) (snap : option RecoverySnapshot).
Let sec := captured_section policy s cutoff (rolls cutoff s) point snap.
Hypotheses (N : normalized_ok s) (E : expire_before_ms s <= cutoff) (B : registry_before s head ptime)
  (Op : point_ok point) (Pa : point_anchor point = head) (Pt : point_publish_time_ms point = ptime)
  (D : cutoff < protected_until_ms point) (T : ptime < time) (Ct : cutoff <= time)
  (Es : anchor_sequence e = anchor_sequence head + 1)
  (Va : validate_anchor e = Ok tt) (Vo : validate_ordinal o = Ok tt) (Vs : section_validate sec = Ok tt)
  (Cp : rolls cutoff s = true -> len (live_pages cutoff s) < MAX_RECOVERY_PAGES)
  (Sn : forall x, snap = Some x -> root_snapshot s cutoff (rolls cutoff s) point = Ok x).

Lemma captured_expiry :
  apply_expiry sec s = Ok {| pages := live_pages cutoff s; tail := live_tail cutoff s; expire_before_ms := cutoff |}.
Proof.
  unfold apply_expiry, sec, captured_section. cbn [delta delta_expire_before_ms]. unfold reject_if.
  destruct (Z.gtb_spec cutoff (expire_before_ms s)).
  - case_if; [b2p; lia|]. done.
  - replace cutoff with (expire_before_ms s) by lia. destruct N as [Ns _].
    rewrite live_pages_same, live_tail_same by done. by destruct s.
Qed.

Lemma live_tail_claims : rolls cutoff s = true -> exists c, page_claims {| points := live_tail cutoff s |} = Ok c.
Proof.
  intros R. destruct (expired_ok s cutoff N E) as [(_ & O & _) _]. unfold rolls in R. b2p.
  apply page_claims_ok; simpl; [exact O|]. intros X. rewrite X in R. done.
Qed.

Lemma captured_roll c :
  (rolls cutoff s = true -> page_claims {| points := live_tail cutoff s |} = Ok c) ->
  (next <-? apply_roll sec e o {| pages := live_pages cutoff s; tail := live_tail cutoff s; expire_before_ms := cutoff |} ;;
   apply_register sec next) = Ok (superseded s cutoff e o point c).
Proof.
  intros C. unfold apply_roll, apply_register, superseded, sec, captured_section, page.
  destruct (rolls cutoff s) eqn:R; cbn [delta register roll_tail local_pages].
  - change (Z.to_nat 0) with 0%nat. cbn [lookup list_lookup ok_or rbind points tail pages expire_before_ms].
    rewrite bool_decide_eq_true_2 by done. unfold rolls in R. b2p. rewrite R. cbn [negb orb Z.eqb].
    unfold saturating_succ. rewrite (proj2 (capacity_Ok _ _)).
    2:{ specialize (Cp eq_refl). unfold MAX_RECOVERY_PAGES in *. lia. }
    rewrite C by done. done.
  - cbn [rbind tail pages expire_before_ms]. destruct (expired_ok s cutoff N E) as [(_ & (L & _) & _) _].
    simpl in L. unfold rolls, saturating_succ, MAX_RECOVERY_TAIL_RECORDS in *. b2p.
    rewrite (proj2 (capacity_Ok _ _)) by lia. done.
Qed.

Lemma captured_next_ok c :
  (rolls cutoff s = true -> page_claims {| points := live_tail cutoff s |} = Ok c) ->
  normalized_ok (superseded s cutoff e o point c) /\ registry_before (superseded s cutoff e o point c) e time.
Proof.
  intros C. unfold superseded. destruct (rolls cutoff s) eqn:R.
  - by eapply rolled_ok; eauto.
  - by eapply kept_ok; eauto.
Qed.

Lemma captured_normalizes c x :
  (rolls cutoff s = true -> page_claims {| points := live_tail cutoff s |} = Ok c) -> snap = Some x ->
  normalize_snapshot sec x e o = Ok (superseded s cutoff e o point c).
Proof.
  intros C X. pose proof (captured_next_ok c C) as [Ok' _]. apply validate_normalized_Ok in Ok'.
  destruct (expired_ok s cutoff N E) as [_ Nx]. simpl in Nx. pose proof (Sn x X) as Rs.
  unfold normalize_snapshot. rewrite Va, Vo. cbn [rbind]. unfold root_snapshot, superseded in *.
  destruct (rolls cutoff s) eqn:R.
  - rewrite C in Rs by done. cbn [rbind] in Rs. injection Rs as <-. cbn [pages tail expire_before_ms].
    erewrite normalize_refs_app; [|by apply normalize_refs_exact|].
    2:{ cbn [normalize_refs location]. unfold page, sec, captured_section. cbn [local_pages].
        change (Z.to_nat 0) with 0%nat. cbn [lookup list_lookup ok_or rbind].
        rewrite (proj2 (verify_page_Ok _ _)) by (by apply C). done. }
    cbn [rbind claims]. by rewrite Ok'.
  - injection Rs as <-. cbn [pages tail expire_before_ms].
    rewrite normalize_refs_exact by done. cbn [rbind]. by rewrite Ok'.
Qed.

Lemma captured_applies :
  exists next, apply_delta sec s e o = Ok next /\ registry_before next e time /\ normalized_ok next
    /\ exists c, (rolls cutoff s = true -> page_claims {| points := live_tail cutoff s |} = Ok c)
       /\ next = superseded s cutoff e o point c.
Proof.
  assert (exists c, rolls cutoff s = true -> page_claims {| points := live_tail cutoff s |} = Ok c) as [c C].
  { destruct (rolls cutoff s) eqn:R; [destruct (live_tail_claims R) as [c C]; eauto|].
    by exists (Build_RecoveryPageClaims 0 0 0 0 0). }
  exists (superseded s cutoff e o point c). pose proof (captured_next_ok c C) as [No Rb].
  split_and!; [|done|done|by eauto]. unfold apply_delta. rewrite Vs, Va, Vo, (proj2 (validate_normalized_Ok _) N).
  cbn [rbind]. change (register (delta sec)) with (Some point). cbn [is_some_and].
  rewrite Pa, bool_decide_eq_true_2.
  2:{ apply checked_add_Some. apply validate_anchor_sequence in Va. lia. }
  cbn [negb reject_if rbind]. rewrite captured_expiry. cbn [rbind].
  pose proof (captured_roll c C) as Ro.
  destruct (apply_roll _ _ _ _) as [n|]; cbn [rbind] in Ro |- *; [|done]. rewrite Ro. cbn [rbind].
  rewrite (proj2 (validate_normalized_Ok _) No). cbn [rbind]. change (snapshot sec) with snap.
  pose proof (fun x => captured_normalizes c x C) as Nm. destruct snap as [x|]; [|done].
  rewrite (Nm x eq_refl). cbn [rbind]. by rewrite bool_decide_eq_true_2.
Qed.
End Capture.
End Publication.
