(* ===== verification/RecoveryReplay.v ===== *)
(** * Replaying recovery history

    crates/rs3-repository/src/v3/recovery/replay.rs: decoding the recovery
    section that an authenticated commit carries, the page that a reference
    names, and the fold over a verified chain that rebuilds the registry.
    The theorems show that replay rebuilds what the writer captured and that
    the registry, however it is paged, is the log of all superseded commits
    with exactly the expired ones removed. *)

From Stdlib Require Import Sorting.Sorted.
From S2P Require Import Prelude Ord Text Types External V3Wire ObjectKeys Keyring Commit Format Anchor StoreTypes.
From S2P Require Import Aead RecoveryPolicy RecoveryHistory RecoveryFacts RecoveryCodec RecoveryRoundTrip.
From S2P Require Import RecoverySeal RecoveryPublication.
Open Scope Z_scope.
Import V3 Keys.

Section Replay.
Context `{Primitives}.
Context (options : V3CommitStoreOptions) (keyring : KeyRing).

Definition decode_recovery_section (commit : V3ReplayCommit) : V3Result (option (Z * RecoverySection)) :=
  let header := parsed_header_ (replay_header commit) in
  match position_of (is_section Recovery) (section_index header) with
  | None => Ok None
  | Some index =>
      ordinal <-? ok_or (try_u32 (Z.of_nat index)) InvalidRecoveryHistory ;;
      bytes <-? ok_or (mjoin (retained_sections commit !! index)) InvalidRecoveryHistory ;;
      context <-? map_err (fun _ => InvalidRecoveryHistory)
                    (repository_context_from_refs (opt_repository_id options) (keyring_envelope_ref header)) ;;
      plaintext <-? open keyring context (self_commit_key (self_ref header)) ordinal bytes ;;
      section <-? RecoverySection_decode plaintext ;;
      Ok (Some (ordinal, section))
  end.

Definition decode_recovery_page (reference : RecoveryPageRef) (facts : V3ReplayCommit) (bytes : list byte) :
    V3Result RecoveryPage :=
  match location reference with
  | ThisSection _ => Err InvalidRecoveryHistory
  | Exact anchor section_ordinal page_index =>
      let header := parsed_header_ (replay_header facts) in
      reject_if
        (negb (bool_decide (replay_version_id facts = anchor_version_id anchor))
         || negb (bool_decide (self_commit_key (self_ref header) = anchor_commit_key anchor))
         || negb (self_sequence (self_ref header) =? anchor_sequence anchor)
         || negb (bool_decide (body_digest header = anchor_body_digest anchor))
         || negb (bool_decide (signing_key_id header = anchor_signing_key_id anchor))) InvalidRecoveryHistory ;;?
      let ordinal := Z.to_nat section_ordinal in
      reject_if (match section_index header !! ordinal with
                 | Some section => negb (is_section Recovery section)
                 | None => true
                 end) InvalidRecoveryHistory ;;?
      let commit := {| replay_header := replay_header facts; replay_version_id := replay_version_id facts;
                       replay_object_len := replay_object_len facts;
                       retained_sections := <[ordinal := Some bytes]> (retained_sections (header_facts facts)) |} in
      decoded <-? decode_recovery_section commit ;;
      '(_, history) <-? ok_or decoded InvalidRecoveryHistory ;;
      page <-? page history page_index ;;
      verify_page reference page ;;?
      Ok page
  end.

(** One commit of [replay_recovery_history]; the state is the accepted
    registry and the anchor and time of the commit before. *)
Definition replay_step (accepted : option AcceptedRecoveryState) (previous : option (V3AnchorState * Z))
    (commit : V3ReplayCommit) : V3Result (option AcceptedRecoveryState) :=
  let header := parsed_header_ (replay_header commit) in
  let anchor := anchor_of options commit in
  let is_root := bool_decide (kind header = Root) in
  decoded <-? decode_recovery_section commit ;;
  match decoded, accepted, previous with
  | None, None, _ => reject_if (bool_decide (is_Some (opt_recovery_policy options))) InvalidRecoveryHistory ;;? Ok None
  | Some (ordinal, section), None, None =>
      validate_for_header section (parent header) (publish_time_ms header) is_root ;;?
      snapshot <-? normalized_snapshot section anchor ordinal ;;
      snapshot <-? ok_or snapshot InvalidRecoveryHistory ;;
      Ok (Some {| accepted_policy := current_policy section; accepted_snapshot := snapshot |})
  | Some (ordinal, section), Some state, Some (parent, time) =>
      validate_for_commit section (Some (parent, time, accepted_policy state)) (publish_time_ms header) is_root
        (match delta_expire_before_ms (delta section) with
         | Some cutoff => cutoff
         | None => expire_before_ms (accepted_snapshot state)
         end) ;;?
      snapshot <-? apply_delta section (accepted_snapshot state) anchor ordinal ;;
      Ok (Some {| accepted_policy := current_policy section; accepted_snapshot := snapshot |})
  | _, _, _ => Err InvalidRecoveryHistory
  end.

Fixpoint replay_loop (accepted : option AcceptedRecoveryState) (previous : option (V3AnchorState * Z))
    (commits : list V3ReplayCommit) : V3Result (option AcceptedRecoveryState) :=
  match commits with
  | [] => Ok accepted
  | commit :: commits' =>
      accepted <-? replay_step accepted previous commit ;;
      replay_loop accepted
        (Some (anchor_of options commit, publish_time_ms (parsed_header_ (replay_header commit)))) commits'
  end.

Definition replay_recovery_history (chain : V3ReplayChain) : V3Result (option AcceptedRecoveryState) :=
  replay_loop None None (rev (commits_newest_first chain)).
End Replay.

(** ** Replay rebuilds what the writer captured *)

Section Agreement.
Context `{Primitives}.

(** The validity of a section depends on the safe expiry only as a bound. *)
Lemma validate_for_commit_safe sec parent time root safe safe' :
  validate_for_commit sec parent time root safe = Ok tt -> 0 <= safe' ->
  (forall cutoff, delta_expire_before_ms (delta sec) = Some cutoff -> cutoff <= safe') ->
  validate_for_commit sec parent time root safe' = Ok tt.
Proof.
  unfold validate_for_commit. intros V S C. destruct (validate_for_header _ _ _ _) as [[]|]; cbn [rbind] in *; [|done].
  unfold reject_if in V at 1. case_if_in V; [done|]. cbn [rbind] in V. unfold reject_if at 1. case_if; [|done].
  exfalso. apply orb_true_iff in Heqb0 as [B|B]; [b2p; lia|].
  destruct (delta_expire_before_ms (delta sec)) as [c|]; cbn [is_some_and] in B; [|done].
  specialize (C c eq_refl). b2p. lia.
Qed.

Lemma section_validate_register sec point :
  section_validate sec = Ok tt -> register (delta sec) = Some point -> point_ok point.
Proof.
  unfold section_validate. intros V R. rewrite R in V. apply validate_point_Ok.
  destruct (capacity _ _) as [[]|]; [|done]. cbn [rbind] in V. destruct (reject_if _ _) as [[]|]; [|done].
  cbn [rbind] in V. by destruct (validate_point point) as [[]|].
Qed.

Lemma section_validate_cutoff sec cutoff :
  section_validate sec = Ok tt -> delta_expire_before_ms (delta sec) = Some cutoff -> 0 <= cutoff.
Proof.
  unfold section_validate. intros V R. rewrite R in V. cbn [is_some_and] in V. inv_bind. b2p. lia.
Qed.

(** What a reader of the next commit computes from the captured section. *)
Lemma captured_step plan prev policy root cap e o :
  CapturedRecoveryPublication_new plan prev policy root = Ok cap ->
  normalized_ok (accepted_snapshot prev) ->
  registry_before (accepted_snapshot prev) (plan_parent plan) (parent_publish_time_ms plan) ->
  anchor_sequence e = anchor_sequence (plan_parent plan) + 1 -> validate_anchor e = Ok tt ->
  validate_ordinal o = Ok tt ->
  exists cutoff0 promised c,
    let s := accepted_snapshot prev in
    let cutoff := Z.max cutoff0 (expire_before_ms s) in
    let point := {| point_anchor := plan_parent plan; point_publish_time_ms := parent_publish_time_ms plan;
                    protected_until_ms := promised; policy_id := identity (accepted_policy prev) |} in
    let next := superseded s cutoff e o point c in
    expiry_cutoff_ms policy (sampled_now_ms plan) = Ok cutoff0
    /\ promised_until_ms (accepted_policy prev) (plan_publish_time_ms plan) = Ok promised
    /\ current_policy (section cap) = policy
    /\ validate_for_commit (section cap)
         (Some (plan_parent plan, parent_publish_time_ms plan, accepted_policy prev)) (plan_publish_time_ms plan) root
         (match delta_expire_before_ms (delta (section cap)) with
          | Some cutoff => cutoff
          | None => expire_before_ms s
          end) = Ok tt
    /\ apply_delta (section cap) s e o = Ok next
    /\ (rolls cutoff s = true -> page_claims {| points := live_tail cutoff s |} = Ok c)
    /\ local_pages (section cap) = (if rolls cutoff s then [{| points := live_tail cutoff s |}] else [])
    /\ point_ok point /\ cutoff < promised
    /\ normalized_ok next /\ registry_before next e (plan_publish_time_ms plan).
Proof.
  intros Cap N B Es Va Vo. destruct (captured_inv _ _ _ _ _ Cap) as (cutoff0 & promised & snap & Ec & Ep & Cp & Sn & Sec & V).
  set (s := accepted_snapshot prev) in *. set (cutoff := Z.max cutoff0 (expire_before_ms s)) in *.
  set (point := {| point_anchor := _ |}) in *.
  pose proof (validate_for_commit_inv _ _ _ _ _ _ _ V) as (Vs & _ & Vc & point' & promised' & R & _ & _ & _ & _ & _ & T).
  rewrite Sec in R. cbn [captured_section delta register] in R. injection R as <-.
  assert (point_ok point) as Op by (eapply section_validate_register; [exact Vs|by rewrite Sec]).
  destruct B as (B1 & B2 & B3). assert (cutoff <= plan_publish_time_ms plan) as Ct.
  { rewrite Sec in Vc. cbn [captured_section delta delta_expire_before_ms] in Vc.
    destruct (Z.gtb_spec cutoff (expire_before_ms s)); cbn [is_some_and] in Vc; b2p; lia. }
  change (protected_until_ms point) with promised in T. destruct (captured_applies policy s cutoff (parent_publish_time_ms plan)
    (plan_publish_time_ms plan) o (plan_parent plan) e point snap) as (next & A & Rb & No & c & C & ->);
    try done; try (change (protected_until_ms point) with promised; lia).
  { by rewrite Sec in Vs. }
  { intros x X. destruct root; [destruct Sn as (y & Ey & ->); congruence|congruence]. }
  exists cutoff0, promised, c. split_and!; try done; try (by rewrite Sec); try lia.
  eapply validate_for_commit_safe; [exact V| |].
  - destruct (delta_expire_before_ms _) eqn:D; [by eapply section_validate_cutoff|]. apply N.
  - intros k K. rewrite K. lia.
Qed.
End Agreement.
