(* ===== verification/RecoveryRegistry.v ===== *)
(** * The recovery registry is the log of superseded commits

    Theorems about recovery history as a whole.  A writer that captures
    publication after publication and readers that replay the resulting chain
    hold the same registry; a root commit lets replay forget everything before
    it; and the registry, however it is paged, holds every superseded commit
    until its promise has passed. *)

From Stdlib Require Import Sorting.Sorted Strings.String.
From S2P Require Import Prelude Ord Text Types External V3Wire ObjectKeys Keyring Commit Format Anchor StoreTypes.
From S2P Require Import Aead RecoveryPolicy RecoveryHistory RecoveryFacts RecoveryCodec RecoveryRoundTrip.
From S2P Require Import RecoverySeal RecoveryPublication RecoveryReplay.
Open Scope Z_scope.
Import V3 Keys.

(** ** Replaying what was written *)

Section Written.
Context `{Primitives} (options : V3CommitStoreOptions).

Abbreviation header_of c := (parsed_header_ (replay_header c)).

(** The commit carries [sec] as its recovery section, sealed by [ring]. *)
Definition carries (ring : KeyRing) (commit : V3ReplayCommit) (index : nat) (sec : RecoverySection) : Prop :=
  let h := header_of commit in
  position_of (is_section Recovery) (section_index h) = Some index
  /\ len (section_index h) <= V3_MAX_COMMIT_SECTIONS
  /\ exists identity nonce context plaintext bytes,
       length identity = 32%nat
       /\ repository_context_from_refs (opt_repository_id options) (keyring_envelope_ref h) = Ok context
       /\ RecoverySection_encode sec = Ok plaintext
       /\ seal ring (Some identity) nonce context (self_commit_key (self_ref h)) (Z.of_nat index) plaintext = Ok bytes
       /\ retained_sections commit !! index = Some (Some bytes).

Lemma carries_ordinal ring commit index sec : carries ring commit index sec -> (index < 3)%nat.
Proof.
  intros (P & L & _). apply position_of_Some in P as (d & D & _). apply lookup_lt_Some in D.
  unfold len, V3_MAX_COMMIT_SECTIONS in L. lia.
Qed.

Lemma decode_carried `{!PrimitivesLaws} ring ks key commit index sec :
  carries ring commit index sec -> wf_recovery sec -> primary_key ring Metadata = Ok key ->
  wf_name (key_id (descriptor key)) -> still_enabled ks key Metadata ->
  decode_recovery_section options {| keys := ks |} commit = Ok (Some (Z.of_nat index, sec)).
Proof.
  intros C W P Wn En. pose proof (carries_ordinal _ _ _ _ C) as I.
  destruct C as (Po & _ & identity & nonce & context & plaintext & bytes & Li & Ec & Ee & Es & Er).
  unfold decode_recovery_section. rewrite Po. unfold try_u32. case_if; [|b2p; lia]. cbn [ok_or rbind].
  rewrite Er. cbn [mjoin option_join ok_or rbind]. rewrite Ec. cbn [map_err rbind].
  erewrite open_sealed_section; try done; [|by intros ? [= <-]|unfold is_u32; lia]. cbn [rbind].
  by rewrite (proj2 (decode_section_iff plaintext sec)).
Qed.

(** ** Root cuts *)

Context (keyring : KeyRing).
Abbreviation step := (replay_step options keyring).
Abbreviation loop := (replay_loop options keyring).

(** The parent that a replay has just accepted. *)
Definition accepted_parent (commit : V3ReplayCommit) : V3AnchorState * Z :=
  (anchor_of options commit, publish_time_ms (header_of commit)).

Definition last_parent (previous : option (V3AnchorState * Z)) (l : list V3ReplayCommit) :
    option (V3AnchorState * Z) :=
  match list.last l with
  | Some commit => Some (accepted_parent commit)
  | None => previous
  end.

Lemma replay_loop_app a p l1 l2 :
  loop a p (l1 ++ l2) = (a' <-? loop a p l1 ;; loop a' (last_parent p l1) l2).
Proof.
  revert a p. induction l1 as [|c l1 IH]; intros a p; [done|]. cbn [app replay_loop].
  destruct (step a p c) as [a'|]; cbn [rbind]; [|done]. rewrite IH.
  replace (last_parent p (c :: l1)) with (last_parent (Some (accepted_parent c)) l1); [done|].
  unfold last_parent. rewrite last_cons. by destruct (list.last l1).
Qed.

Lemma apply_delta_snapshot sec s e o next x :
  apply_delta sec s e o = Ok next -> snapshot sec = Some x ->
  section_validate sec = Ok tt /\ normalize_snapshot sec x e o = Ok next.
Proof.
  unfold apply_delta. intros A X. rewrite X in A. inv_bind. b2p. by subst.
Qed.

(** A root gives the same registry with and without its past. *)
Lemma root_step_cut st parent time commit st' :
  step (Some st) (Some (parent, time)) commit = Ok (Some st') -> kind (header_of commit) = Root ->
  Commit.parent (header_of commit) = Some (parent_ref_of parent) ->
  step None None commit = Ok (Some st').
Proof.
  unfold replay_step. intros S K P. destruct (decode_recovery_section _ _ _) as [[[o sec]|]|]; cbn [rbind] in *; try done.
  rewrite K, P in *. rewrite bool_decide_eq_true_2 in * by done. inv_bind.
  match goal with X : validate_for_commit _ _ _ _ _ = Ok tt |- _ => rename X into V end.
  match goal with X : apply_delta _ _ _ _ = Ok _ |- _ => rename X into A end.
  pose proof (validate_for_commit_inv _ _ _ _ _ _ _ V) as (_ & Sn & _).
  apply bool_decide_eq_true in Sn as [x Sn]. destruct (apply_delta_snapshot _ _ _ _ _ _ A Sn) as [Vs Nm].
  unfold validate_for_commit in V. cbn [fmap option_fmap option_map] in V.
  destruct (validate_for_header _ _ _ _) as [[]|]; [|done]. cbn [rbind]. unfold normalized_snapshot.
  rewrite Vs, Sn. cbn [rbind transpose]. rewrite Nm. done.
Qed.

(** Without a registry, a chain whose past is known never gains one. *)
Lemma replay_loop_None p l st : loop None (Some p) l <> Ok (Some st).
Proof.
  revert p. induction l as [|c l IH]; intros p; cbn [replay_loop]; [done|].
  assert (forall a, step None (Some p) c = Ok a -> a = None) as N.
  { unfold replay_step. intros a. destruct (decode_recovery_section _ _ _) as [[[o sec]|]|]; cbn [rbind]; try done.
    unfold reject_if. case_if; cbn [rbind]; [done|]. by intros [= <-]. }
  destruct (step None (Some p) c) as [a|]; cbn [rbind]; [|done]. rewrite (N a eq_refl). apply IH.
Qed.
End Written.

(** ** Histories *)

(** One publication: what it superseded, when and by which clock reading. *)
Record Supersession : Type := {
  sup_plan : V3PublicationPlan;
  sup_promise : RecoveryPolicy;      (* in force when the commit was superseded *)
  sup_policy : RecoveryPolicy;       (* of the publication *)
  sup_point : RecoveryPoint
}.

(** The pages that commits carry, by location. *)
Definition Carriers : Type := RecoveryPageLocation -> option RecoveryPage.

Definition add_carrier (c : Carriers) (e : V3AnchorState) (o : Z) (l : list RecoveryPage) : Carriers :=
  fun at_ =>
    match at_ with
    | Exact anchor ordinal index =>
        if bool_decide (anchor = e /\ ordinal = o) then l !! Z.to_nat index else c at_
    | ThisSection _ => c at_
    end.

Section Histories.
Context `{Primitives}.

Definition genesis_state (policy : RecoveryPolicy) : AcceptedRecoveryState :=
  {| accepted_policy := policy;
     accepted_snapshot := {| pages := []; tail := []; expire_before_ms := 0 |} |}.

(** The registries a writer goes through, with the publications so far, the
    accepted head, its publication time and the pages written. *)
Inductive history : list Supersession -> AcceptedRecoveryState -> V3AnchorState -> Z -> Carriers -> Prop :=
| history_genesis policy head time :
    0 <= time -> history [] (genesis_state policy) head time (fun _ => None)
| history_publish evs prev head time carriers plan policy root cap e o next point :
    history evs prev head time carriers ->
    plan_parent plan = head -> parent_publish_time_ms plan = time ->
    CapturedRecoveryPublication_new plan prev policy root = Ok cap ->
    anchor_sequence e = anchor_sequence head + 1 -> validate_anchor e = Ok tt -> validate_ordinal o = Ok tt ->
    register (delta (section cap)) = Some point ->
    apply_delta (section cap) (accepted_snapshot prev) e o = Ok next ->
    history
      (evs ++ [{| sup_plan := plan; sup_promise := accepted_policy prev; sup_policy := policy; sup_point := point |}])
      {| accepted_policy := policy; accepted_snapshot := next |} e (plan_publish_time_ms plan)
      (add_carrier carriers e o (local_pages (section cap))).

Definition log_of (evs : list Supersession) : list RecoveryPoint := map sup_point evs.

Definition live (cutoff : Z) (p : RecoveryPoint) : bool := protected_until_ms p >? cutoff.

(** The points of a registry, read through its pages. *)
Definition resolves (carriers : Carriers) (s : RecoverySnapshot) (pgs : list RecoveryPage) : Prop :=
  Forall2 (fun r pg => carriers (location r) = Some pg /\ page_claims pg = Ok (claims r)) (pages s) pgs.

Definition registry_points (pgs : list RecoveryPage) (s : RecoverySnapshot) : list RecoveryPoint :=
  flat_map points pgs ++ tail s.

(** The registry holds exactly the live part of the log. *)
Definition represents (carriers : Carriers) (s : RecoverySnapshot) (log : list RecoveryPoint) : Prop :=
  exists pgs, resolves carriers s pgs
    /\ List.filter (live (expire_before_ms s)) (registry_points pgs s) = List.filter (live (expire_before_ms s)) log.

(** Pages were written by commits up to [head]. *)
Definition pages_upto (s : RecoverySnapshot) (head : V3AnchorState) : Prop :=
  Forall (fun r => match location r with
                   | Exact anchor _ _ => anchor_sequence anchor <= anchor_sequence head
                   | ThisSection _ => False
                   end) (pages s).

Lemma filter_filter_le c c' l : c <= c' -> List.filter (live c') (List.filter (live c) l) = List.filter (live c') l.
Proof.
  intros L. induction l as [|p l IH]; cbn [List.filter]; [done|]. destruct (live c p) eqn:A; cbn [List.filter].
  - by rewrite IH.
  - rewrite IH. destruct (live c' p) eqn:B; [|done]. unfold live in *. b2p. lia.
Qed.

(** A page whose claims say that it expired holds no live point. *)
Lemma expired_page_empty pg c cutoff :
  page_claims pg = Ok c -> maximum_deadline_ms c <= cutoff -> List.filter (live cutoff) (points pg) = [].
Proof.
  intros C M. apply page_claims_summarises in C as [_ (_ & _ & B & _)].
  induction B as [|p l [_ Bp] B IH]; cbn [List.filter]; [done|]. rewrite IH. unfold live. case_if; [b2p; lia|done].
Qed.

(** Dropping expired pages drops no live point. *)
Lemma resolves_live carriers s pgs cutoff :
  resolves carriers s pgs ->
  exists pgs', resolves carriers {| pages := live_pages cutoff s; tail := live_tail cutoff s; expire_before_ms := cutoff |} pgs'
    /\ List.filter (live cutoff) (flat_map points pgs') = List.filter (live cutoff) (flat_map points pgs).
Proof.
  unfold resolves, live_pages. cbn [pages]. induction 1 as [|r pg rs pgs [L C] F IH]; [by exists []|].
  destruct IH as (pgs' & R & E). cbn [List.filter]. destruct (maximum_deadline_ms (claims r) >? cutoff) eqn:M.
  - exists (pg :: pgs'). split; [by constructor|]. cbn [flat_map]. by rewrite !filter_app, E.
  - exists pgs'. split; [done|]. cbn [flat_map]. rewrite filter_app, E.
    b2p. by rewrite (expired_page_empty pg (claims r)) by (done || lia).
Qed.

Lemma add_carrier_old c e o l s head pgs :
  pages_upto s head -> anchor_sequence head < anchor_sequence e -> resolves c s pgs -> resolves (add_carrier c e o l) s pgs.
Proof.
  unfold pages_upto, resolves. intros U Lt R. induction R as [|r pg rs pgs [L C] R IH]; [done|].
  apply Forall_cons_iff in U as [U1 U2]. constructor; [|by apply IH]. split; [|done].
  unfold add_carrier. destruct (location r) as [|a o' i]; [done|]. rewrite bool_decide_eq_false_2; [done|].
  intros [-> _]. lia.
Qed.

Lemma live_points carriers s pgs log cutoff :
  resolves carriers s pgs -> expire_before_ms s <= cutoff ->
  List.filter (live (expire_before_ms s)) (registry_points pgs s) = List.filter (live (expire_before_ms s)) log ->
  exists pgs', resolves carriers {| pages := live_pages cutoff s; tail := live_tail cutoff s; expire_before_ms := cutoff |} pgs'
    /\ List.filter (live cutoff) (flat_map points pgs' ++ live_tail cutoff s) = List.filter (live cutoff) log.
Proof.
  intros R L E. destruct (resolves_live _ _ _ cutoff R) as (pgs' & R' & E'). exists pgs'. split; [done|].
  rewrite filter_app, E'. change (live_tail cutoff s) with (List.filter (live cutoff) (tail s)).
  rewrite filter_filter_le by done. rewrite <- filter_app. fold (registry_points pgs s).
  rewrite <- (filter_filter_le (expire_before_ms s) cutoff (registry_points pgs s)), E by done.
  by apply filter_filter_le.
Qed.

(** A supersession appends its point to what the registry represents. *)
Lemma superseded_represents carriers s log cutoff head e o point c l :
  represents carriers s log -> pages_upto s head -> expire_before_ms s <= cutoff ->
  anchor_sequence e = anchor_sequence head + 1 ->
  (rolls cutoff s = true -> page_claims {| points := live_tail cutoff s |} = Ok c) ->
  l = (if rolls cutoff s then [{| points := live_tail cutoff s |}] else []) ->
  represents (add_carrier carriers e o l) (superseded s cutoff e o point c) (log ++ [point])
  /\ pages_upto (superseded s cutoff e o point c) e.
Proof.
  intros (pgs & R & E) U L Es C ->. destruct (live_points _ _ _ _ _ R L E) as (pgs' & R' & E').
  assert (pages_upto {| pages := live_pages cutoff s; tail := live_tail cutoff s; expire_before_ms := cutoff |} head) as U'
    by (apply Forall_live_pages, U).
  assert (Forall (fun r => match location r with
    | Exact anchor _ _ => anchor_sequence anchor <= anchor_sequence e | ThisSection _ => False end) (live_pages cutoff s)) as Ue.
  { eapply List.Forall_impl; [|exact U']. intros r. simpl. destruct (location r); [done|lia]. }
  apply (add_carrier_old _ e o (if rolls cutoff s then [{| points := live_tail cutoff s |}] else []) _ head) in R'; [|done|lia].
  unfold superseded, represents, pages_upto, resolves in *. destruct (rolls cutoff s); cbn [pages expire_before_ms] in *.
  - split; [|apply Forall_app; split; [done|by apply list.Forall_singleton; simpl]].
    exists (pgs' ++ [{| points := live_tail cutoff s |}]). split.
    + apply Forall2_app; [done|]. constructor; [|done]. split; [|by apply C]. cbn [location add_carrier].
      by rewrite bool_decide_eq_true_2.
    + unfold registry_points. rewrite flat_map_app. cbn [flat_map points tail]. rewrite app_nil_r.
      by rewrite !(filter_app (live cutoff) _ [point]), E'.
  - split; [|done]. exists pgs'. split; [done|]. unfold registry_points. cbn [tail].
    by rewrite app_assoc, !(filter_app (live cutoff) _ [point]), E'.
Qed.

Lemma genesis_ok : normalized_ok {| pages := []; tail := []; expire_before_ms := 0 |}.
Proof.
  unfold normalized_ok, snapshot_ok, points_ok, MAX_RECOVERY_PAGES, MAX_RECOVERY_TAIL_RECORDS.
  cbn [pages tail expire_before_ms]. rewrite !len_nil. split_and!; try lia; try apply Forall_nil; try done; constructor.
Qed.

(** The promise behind a point, and the clock reading behind a cutoff. *)
Definition promised (ev : Supersession) : Prop :=
  promised_until_ms (sup_promise ev) (plan_publish_time_ms (sup_plan ev)) = Ok (protected_until_ms (sup_point ev))
  /\ point_anchor (sup_point ev) = plan_parent (sup_plan ev) /\ 0 < protected_until_ms (sup_point ev).

Definition read_as_cutoff (cutoff : Z) (ev : Supersession) : Prop :=
  expiry_cutoff_ms (sup_policy ev) (sampled_now_ms (sup_plan ev)) = Ok cutoff.

Lemma history_invariant evs st head time carriers :
  history evs st head time carriers ->
  let s := accepted_snapshot st in
  normalized_ok s /\ registry_before s head time /\ pages_upto s head /\ represents carriers s (log_of evs)
  /\ Forall promised evs /\ (expire_before_ms s = 0 \/ Exists (read_as_cutoff (expire_before_ms s)) evs).
Proof.
  induction 1 as [policy head time T|evs prev head time carriers plan policy root cap e o next point Hi IH Ep Et Cap Es Va Vo Reg A].
  - cbn [genesis_state accepted_snapshot]. split; [apply genesis_ok|]. split; [by split_and!; try apply Forall_nil|].
    split; [apply Forall_nil; done|]. split; [exists []; split; [apply Forall2_nil|]; done|].
    split; [by apply Forall_nil|by left].
  - destruct IH as (N & B & U & R & P & X). subst head time.
    destruct (captured_step _ _ _ _ _ e o Cap N B Es Va Vo)
      as (cutoff0 & prom & c & Ec & Epr & _ & _ & A' & C & Lp & Op & Cl & No & Rb).
    rewrite A in A'. injection A' as ->. cbn [accepted_snapshot].
    destruct (captured_inv _ _ _ _ _ Cap) as (cutoff1 & prom' & snap & Ec' & Epr' & _ & _ & Sec & _).
    rewrite Sec in Reg. injection Reg as <-. rewrite Epr in Epr'. injection Epr' as <-.
    set (point := {| point_anchor := _ |}) in *. set (s := accepted_snapshot prev) in *.
    destruct (superseded_represents carriers s (log_of evs) (Z.max cutoff0 (expire_before_ms s)) (plan_parent plan) e o
      point c (local_pages (section cap))) as [Re Ue]; try done; [lia|].
    split_and!; try done.
    + unfold log_of. by rewrite map_app.
    + apply Forall_app. split; [done|]. apply list.Forall_singleton. split_and!; try done. cbn [sup_point].
      destruct Op as [_ Op]. lia.
    + assert (expire_before_ms (superseded s (Z.max cutoff0 (expire_before_ms s)) e o point c)
        = Z.max cutoff0 (expire_before_ms s)) as -> by (unfold superseded; by case_if).
      destruct (Z.max_spec cutoff0 (expire_before_ms s)) as [[? ->]|[? ->]].
      * destruct X as [X|X]; [by left|right]. apply Exists_app. by left.
      * right. apply Exists_app. right. by constructor.
Qed.
End Histories.

(** ** Properties *)

Section Properties.
Context `{Primitives}.

(** C15: A root commit lets replay forget its past: when a chain of commits
    replays to a registry and one of them is a root that names its predecessor
    as parent, replaying from that root alone gives the same registry. *)
Theorem root_cut_replays_same options keyring older last root newer st :
  replay_recovery_history options keyring {| commits_newest_first := rev (older ++ last :: root :: newer) |} = Ok (Some st) ->
  kind (parsed_header_ (replay_header root)) = Root ->
  parent (parsed_header_ (replay_header root)) = Some (parent_ref_of (anchor_of options last)) ->
  replay_recovery_history options keyring {| commits_newest_first := rev (root :: newer) |} = Ok (Some st).
Proof.
  unfold replay_recovery_history. cbn [commits_newest_first]. rewrite !rev_involutive. intros R K P.
  replace (older ++ last :: root :: newer) with ((older ++ [last]) ++ root :: newer) in R by by rewrite <- app_assoc.
  rewrite replay_loop_app in R. destruct (replay_loop _ _ None None _) as [a|]; [|done]. cbn [rbind] in R.
  unfold last_parent in R. rewrite last_snoc in R. destruct a as [st0|]; [|by apply replay_loop_None in R].
  cbn [replay_loop] in *. destruct (replay_step _ _ (Some st0) _ root) as [[st1|]|] eqn:S; cbn [rbind] in R; [| |done].
  - unfold accepted_parent in S. by rewrite (root_step_cut _ _ _ _ _ _ _ S K P).
  - by apply replay_loop_None in R.
Qed.

(** C14: What the writer captures is what every reader computes.  Whenever a
    publication is captured on top of an accepted registry and its section is
    encoded, sealed and carried by the next commit, replaying that commit with
    any keyring that still holds the key succeeds; it records the new policy,
    drops what had expired at the sampled time, rolls a full tail into a page
    of the commit and appends the superseded parent with its promise. *)
Theorem captured_publication_replays `{!PrimitivesLaws} options ring ks key plan prev policy is_root cap commit index :
  let header := parsed_header_ (replay_header commit) in
  let s := accepted_snapshot prev in
  CapturedRecoveryPublication_new plan prev policy is_root = Ok cap ->
  normalized_ok s -> registry_before s (plan_parent plan) (parent_publish_time_ms plan) ->
  wf_recovery (section cap) -> carries options ring commit index (section cap) ->
  primary_key ring Metadata = Ok key -> wf_name (key_id (descriptor key)) -> still_enabled ks key Metadata ->
  self_sequence (self_ref header) = anchor_sequence (plan_parent plan) + 1 ->
  publish_time_ms header = plan_publish_time_ms plan -> kind header = (if is_root then Root else Delta) ->
  validate_anchor (anchor_of options commit) = Ok tt ->
  exists cutoff promised c,
    let point := {| point_anchor := plan_parent plan; point_publish_time_ms := parent_publish_time_ms plan;
                    protected_until_ms := promised; policy_id := identity (accepted_policy prev) |} in
    let next := superseded s (Z.max cutoff (expire_before_ms s)) (anchor_of options commit) (Z.of_nat index) point c in
    expiry_cutoff_ms policy (sampled_now_ms plan) = Ok cutoff
    /\ promised_until_ms (accepted_policy prev) (plan_publish_time_ms plan) = Ok promised
    /\ replay_step options {| keys := ks |} (Some prev) (Some (plan_parent plan, parent_publish_time_ms plan)) commit
       = Ok (Some {| accepted_policy := policy; accepted_snapshot := next |})
    /\ normalized_ok next /\ registry_before next (anchor_of options commit) (publish_time_ms header).
Proof.
  intros header s Cap N B W Ca Pk Wn En Sq Tm K Va. pose proof (carries_ordinal _ _ _ _ _ Ca) as I.
  assert (validate_ordinal (Z.of_nat index) = Ok tt) as Vo.
  { unfold validate_ordinal, reject_if, V3_MAX_COMMIT_SECTIONS. rewrite Z.geb_leb. case_if; [b2p; lia|done]. }
  destruct (captured_step _ _ _ _ _ (anchor_of options commit) (Z.of_nat index) Cap N B Sq Va Vo)
    as (cutoff & promised & c & Ec & Ep & Pol & V & A & _ & _ & _ & _ & No & Rb).
  exists cutoff, promised, c. rewrite Tm. split_and!; try done. unfold replay_step. fold header.
  rewrite (decode_carried options ring ks key commit index (section cap)) by done. cbn [rbind].
  replace (bool_decide (kind header = Root)) with is_root.
  2:{ rewrite K. by destruct is_root. }
  rewrite Tm, V. cbn [rbind]. rewrite A. cbn [rbind]. by rewrite Pol.
Qed.

(** C5: The paged registry is the log of all superseded commits without the
    expired ones: in every registry that publications lead to, each page named
    by reference is the one its claims describe, and the points of pages and
    tail, in order, that outlive the cutoff are those of the whole log.  The
    registry stays valid and within its bounds. *)
Theorem registry_refines_log evs st head time carriers :
  history evs st head time carriers ->
  represents carriers (accepted_snapshot st) (log_of evs)
  /\ validate_normalized (accepted_snapshot st) = Ok tt
  /\ len (pages (accepted_snapshot st)) <= MAX_RECOVERY_PAGES
  /\ len (tail (accepted_snapshot st)) <= MAX_RECOVERY_TAIL_RECORDS.
Proof.
  intros Hi. apply history_invariant in Hi as (N & _ & _ & R & _). split; [done|].
  split; [by apply validate_normalized_Ok|]. destruct N as [(L & (T & _) & _) _]. done.
Qed.

(** C7: The recovery window is honoured: a superseded commit leaves the
    registry only after some publication sampled a time at which the whole
    window had passed since the supersession, with the clock uncertainties of
    both the promise and the expiring policy on top. *)
Theorem recovery_window_honoured evs st head time carriers ev :
  history evs st head time carriers -> In ev evs ->
  (exists pgs, resolves carriers (accepted_snapshot st) pgs
    /\ In (sup_point ev) (registry_points pgs (accepted_snapshot st)))
  \/ exists later, In later evs
       /\ plan_publish_time_ms (sup_plan ev) + window_days (sup_promise ev) * DAY_MS
          + clock_uncertainty_ms (sup_promise ev) + clock_uncertainty_ms (sup_policy later)
          <= sampled_now_ms (sup_plan later).
Proof.
  intros Hi I. apply history_invariant in Hi as (_ & _ & _ & (pgs & R & E) & P & X). set (s := accepted_snapshot st) in *.
  rewrite List.Forall_forall in P. destruct (P ev I) as (Pr & _ & Pos). apply promised_until_Ok in Pr as [Pr _].
  destruct (live (expire_before_ms s) (sup_point ev)) eqn:L.
  - left. exists pgs. split; [done|]. eapply (proj1 (filter_In _ _ _)). rewrite E. apply filter_In. split; [|exact L].
    by apply in_map.
  - right. unfold live in L. b2p. destruct X as [X|X]; [lia|]. apply Exists_exists in X as (q & Iq & Q).
    exists q. split; [done|]. apply expiry_cutoff_Ok in Q. lia.
Qed.
End Properties.

(** ** Witnesses *)

Module RegistrySample.
Import Reference.

Definition anchor_at (s : Z) : V3AnchorState := {|
  anchor_sequence := s;
  anchor_commit_key := COMMIT_PREFIX ++ format_020 s ++ x2f :: b64_encode (List.repeat x2a 32);
  anchor_body_digest := List.repeat x11 32;
  anchor_version_id := Some (bytes_of_string "v1");
  anchor_signing_key_id := bytes_of_string "signing";
  anchor_format_ref := {| fr_generation := 1; fr_digest := hex_encode (List.repeat x07 32);
                          fr_object_id := bytes_of_string "format"; fr_version_id := Some (bytes_of_string "v1") |}
|}.

Definition keyring_ref : V3KeyringEnvelopeRef :=
  {| ke_object_id := bytes_of_string "keyring"; ke_digest := List.repeat x05 32 |}.

Definition options : V3CommitStoreOptions :=
  for_profile Dev (bytes_of_string "repo") keyring_ref (anchor_format_ref (anchor_at 1)).

Definition metadata_key : KeyMaterial := sample_key "metadata" Metadata Primary x06.
Definition ring : KeyRing := {| keys := metadata_key :: sample_keys |}.
Definition rotated : list KeyMaterial :=
  sample_key "metadata" Metadata Enabled x06 :: sample_key "metadata-2" Metadata Primary x08 :: sample_keys.

Definition policy : RecoveryPolicy := RecoveryPolicy_PRESET.

Definition get {A} (d : A) (r : V3Result A) : A := match r with Ok a => a | Err _ => d end.

Definition commit_key (s : Z) : text := anchor_commit_key (anchor_at s).
Definition context : list byte :=
  Eval vm_compute in get [] (repository_context_from_refs (opt_repository_id options) keyring_ref).

Definition encoded (sec : RecoverySection) : list byte := get [] (RecoverySection_encode sec).
Definition sealed (s : Z) (plaintext : list byte) : list byte :=
  get [] (seal ring (Some (List.repeat x21 32)) (Some (List.repeat x22 12)) context (commit_key s) 1 plaintext).

(** The commit [s] with a sealed recovery section after an index root. *)
Definition commit_with (s time : Z) (parent : option V3CommitParentRef) (bytes : list byte) : V3ReplayCommit :=
  let descriptor t := {| section_type := t; section_offset := 0; section_length := 0; section_flags := 1;
                         section_digest := [] |} in
  {| replay_header :=
       {| parsed_header_ :=
            {| self_ref := {| self_sequence := s; self_commit_key := commit_key s |}; parent := parent;
               publish_time_ms := time; kind := Root; algorithms := V3Algorithms_v03;
               keyring_envelope_ref := keyring_ref; section_index := [descriptor IndexRoot; descriptor Recovery];
               body_digest := List.repeat x11 32; header_signature := []; signing_key_id := bytes_of_string "signing" |};
          header_len := 0; sections_start := 0 |};
     replay_version_id := Some (bytes_of_string "v1"); replay_object_len := 0;
     retained_sections := [Some []; Some bytes] |}.

Definition genesis_section : RecoverySection :=
  {| current_policy := policy;
     delta := {| register := None; delta_expire_before_ms := None; roll_tail := None |};
     snapshot := Some {| pages := []; tail := []; expire_before_ms := 0 |}; local_pages := [] |}.

Definition plan (s now : Z) (parent_time : Z) : V3PublicationPlan :=
  {| sampled_now_ms := now; plan_parent := anchor_at s; parent_publish_time_ms := parent_time;
     plan_publish_time_ms := now |}.

Definition genesis_bytes : list byte := Eval vm_compute in sealed 1 (encoded genesis_section).
Definition genesis_commit : V3ReplayCommit := commit_with 1 500 None genesis_bytes.

Definition captured (plan : V3PublicationPlan) (prev : AcceptedRecoveryState) (root : bool) : option RecoverySection :=
  match CapturedRecoveryPublication_new plan prev policy root with
  | Ok cap => Some (section cap)
  | Err _ => None
  end.

Lemma captured_Some plan prev root sec :
  captured plan prev root = Some sec ->
  exists cap, CapturedRecoveryPublication_new plan prev policy root = Ok cap /\ section cap = sec.
Proof.
  unfold captured. destruct (CapturedRecoveryPublication_new _ _ _ _) as [cap|]; [|done]. intros [= <-]. by exists cap.
Qed.

Definition or_genesis (o : option RecoverySection) : RecoverySection :=
  match o with Some sec => sec | None => genesis_section end.

Definition first_section : RecoverySection :=
  Eval vm_compute in or_genesis (captured (plan 1 1000 500) (genesis_state policy) true).
Definition first_plaintext : list byte := Eval vm_compute in encoded first_section.
Definition first_bytes : list byte := Eval vm_compute in sealed 2 first_plaintext.
Definition second_commit : V3ReplayCommit := commit_with 2 1000 (Some (parent_ref_of (anchor_at 1))) first_bytes.
Definition empty : RecoverySnapshot := {| pages := []; tail := []; expire_before_ms := 0 |}.
Definition first_registry : RecoverySnapshot := get empty (apply_delta first_section empty (anchor_at 2) 1).
Definition accepted_after : AcceptedRecoveryState :=
  {| accepted_policy := policy; accepted_snapshot := first_registry |}.

(** Forty days later the first point has expired. *)
Definition later : V3PublicationPlan := plan 2 (1000 + 40 * DAY_MS) 1000.
Definition second_section : RecoverySection := Eval vm_compute in or_genesis (captured later accepted_after false).
Definition point_of (sec : RecoverySection) : RecoveryPoint :=
  match register (delta sec) with
  | Some p => p
  | None => {| point_anchor := anchor_at 1; point_publish_time_ms := 0; protected_until_ms := 0; policy_id := [] |}
  end.

Definition supersession (plan : V3PublicationPlan) (sec : RecoverySection) : Supersession :=
  {| sup_plan := plan; sup_promise := policy; sup_policy := policy; sup_point := point_of sec |}.

Definition second_registry : RecoverySnapshot := get empty (apply_delta second_section first_registry (anchor_at 3) 1).
Definition final_state : AcceptedRecoveryState :=
  {| accepted_policy := policy; accepted_snapshot := second_registry |}.

Definition carriers : Carriers := 
  add_carrier (add_carrier (fun _ => None) (anchor_at 2) 1 (local_pages first_section)) (anchor_at 3) 1
    (local_pages second_section).
Definition events : list Supersession :=
  [supersession (plan 1 1000 500) first_section; supersession later second_section].

Lemma first_decodes : RecoverySection_decode first_plaintext = Ok first_section.
Proof. vm_compute. reflexivity. Qed.

Lemma first_wf : wf_recovery first_section.
Proof. exact (proj1 (proj1 (decode_section_iff _ _) first_decodes)). Qed.

Lemma second_carries : carries options ring second_commit 1 first_section.
Proof.
  split; [reflexivity|]. split; [vm_compute; discriminate|].
  exists (List.repeat x21 32), (Some (List.repeat x22 12)), context, first_plaintext, first_bytes.
  split; [reflexivity|]. split; [vm_compute; reflexivity|]. split; [vm_compute; reflexivity|].
  split; [vm_compute; reflexivity|reflexivity].
Qed.

Lemma rotated_enabled : still_enabled rotated metadata_key Metadata.
Proof.
  split; [vm_compute; reflexivity|]. exists (sample_key "metadata" Metadata Enabled x06). split; [by left|done].
Qed.

Lemma sample_history : history events final_state (anchor_at 3) (1000 + 40 * DAY_MS) carriers.
Proof.
  destruct (captured_Some (plan 1 1000 500) (genesis_state policy) true first_section) as (cap1 & C1 & S1);
    [vm_compute; reflexivity|].
  destruct (captured_Some later accepted_after false second_section) as (cap2 & C2 & S2); [vm_compute; reflexivity|].
  assert (history [supersession (plan 1 1000 500) first_section] accepted_after (anchor_at 2) 1000
    (add_carrier (fun _ => None) (anchor_at 2) 1 (local_pages (section cap1)))) as H1.
  { refine (history_publish [] (genesis_state policy) (anchor_at 1) 500 _ (plan 1 1000 500) policy true cap1 (anchor_at 2) 1
      first_registry (point_of first_section) _ eq_refl eq_refl C1 eq_refl _ eq_refl _ _); [by constructor|..];
      try (rewrite S1); vm_compute; reflexivity. }
  unfold carriers. rewrite <- S1, <- S2.
  refine (history_publish [_] accepted_after (anchor_at 2) 1000 _ later policy false cap2 (anchor_at 3) 1
    second_registry (point_of second_section) H1 eq_refl eq_refl C2 eq_refl _ eq_refl _ _);
    try (rewrite S2); vm_compute; reflexivity.
Qed.
End RegistrySample.

Import Reference.

Lemma registry_refines_log_witness :
  represents RegistrySample.carriers (accepted_snapshot RegistrySample.final_state) (log_of RegistrySample.events).
Proof. exact (proj1 (registry_refines_log _ _ _ _ _ RegistrySample.sample_history)). Defined.

Lemma recovery_window_honoured_witness :
  In (RegistrySample.supersession (RegistrySample.plan 1 1000 500) RegistrySample.first_section) RegistrySample.events
  /\ ((exists pgs, resolves RegistrySample.carriers (accepted_snapshot RegistrySample.final_state) pgs
      /\ In (RegistrySample.point_of RegistrySample.first_section)
           (registry_points pgs (accepted_snapshot RegistrySample.final_state)))
     \/ exists later, In later RegistrySample.events
          /\ 1000 + 30 * DAY_MS + 60000 + clock_uncertainty_ms (sup_policy later) <= sampled_now_ms (sup_plan later)).
Proof.
  split; [by left|].
  exact (recovery_window_honoured _ _ _ _ _ (RegistrySample.supersession (RegistrySample.plan 1 1000 500)
    RegistrySample.first_section) RegistrySample.sample_history (or_introl eq_refl)).
Defined.

Lemma root_cut_replays_same_witness :
  replay_recovery_history RegistrySample.options RegistrySample.ring
    {| commits_newest_first := rev [RegistrySample.second_commit] |} = Ok (Some RegistrySample.accepted_after).
Proof.
  apply (root_cut_replays_same RegistrySample.options RegistrySample.ring [] RegistrySample.genesis_commit
    RegistrySample.second_commit [] RegistrySample.accepted_after); vm_compute; reflexivity.
Defined.

Lemma captured_publication_replays_witness :
  exists next,
    replay_step RegistrySample.options {| keys := RegistrySample.rotated |}
      (Some (genesis_state RegistrySample.policy)) (Some (RegistrySample.anchor_at 1, 500)) RegistrySample.second_commit
    = Ok (Some {| accepted_policy := RegistrySample.policy; accepted_snapshot := next |}).
Proof.
  destruct (RegistrySample.captured_Some (RegistrySample.plan 1 1000 500) (genesis_state RegistrySample.policy) true
    RegistrySample.first_section) as (cap & C & S); [vm_compute; reflexivity|].
  destruct (captured_publication_replays RegistrySample.options RegistrySample.ring RegistrySample.rotated
    RegistrySample.metadata_key (RegistrySample.plan 1 1000 500) (genesis_state RegistrySample.policy)
    RegistrySample.policy true cap RegistrySample.second_commit 1 C) as (cutoff & promised & c & _ & _ & R & _).
  - apply genesis_ok.
  - by split_and!; try apply Forall_nil.
  - rewrite S. apply (RegistrySample.first_wf).
  - rewrite S. apply RegistrySample.second_carries.
  - vm_compute. reflexivity.
  - vm_compute. reflexivity.
  - apply RegistrySample.rotated_enabled.
  - vm_compute. reflexivity.
  - vm_compute. reflexivity.
  - vm_compute. reflexivity.
  - vm_compute. reflexivity.
  - eexists. exact R.
Defined.

Lemma recovery_section_exact_witness :
  RecoverySection_decode RegistrySample.first_plaintext = Ok RegistrySample.first_section
  /\ RecoverySection_encode RegistrySample.first_section = Ok RegistrySample.first_plaintext.
Proof.
  split; [exact RegistrySample.first_decodes|].
  exact (proj2 (proj1 (recovery_section_exact _ _) RegistrySample.first_decodes)).
Defined.
