(* ===== verification/LeaseApi.v ===== *)
(** * Lease objects and the programs that use them

    The Kubernetes Lease as crates/rs3-k8s reads and writes it, and the
    interface [LeaseGuardApi] of crates/rs3-k8s/src/lease_guard.rs.  An [async]
    function of the crate is a program [prog]: a tree of the calls it awaits,
    the critical sections it runs under the mutexes of its guard and the clock
    readings it takes, so that the steps of several processes can be
    interleaved between any two of them.  The API server is a parameter; what
    the crate relies on is [LeaseApiLaws], the compare-and-swap on resource
    versions that the interface documents. *)

From S2P Require Import Prelude Ord Text.
Open Scope Z_scope.

(** ** Leases *)

(** The fields of [k8s_openapi]'s types that the crate reads or writes.  A
    [Timestamp] is a number of nanoseconds. *)
Record ObjectMeta : Type := {
  meta_name : option text;
  annotations : option (BTreeMap text text);
  resource_version : option text
}.

Record LeaseSpec : Type := {
  spec_holder_identity : option text;
  spec_lease_duration_seconds : option Z;      (* i32 *)
  acquire_time : option Z;
  spec_renew_time : option Z;
  lease_transitions : option Z                 (* i32 *)
}.

Record Lease : Type := {
  metadata : ObjectMeta;
  spec : option LeaseSpec
}.

Definition ObjectMeta_default : ObjectMeta :=
  {| meta_name := None; annotations := None; resource_version := None |}.

Definition LeaseSpec_default : LeaseSpec :=
  {| spec_holder_identity := None; spec_lease_duration_seconds := None; acquire_time := None;
     spec_renew_time := None; lease_transitions := None |}.

Definition with_annotations (lease : Lease) (a : BTreeMap text text) : Lease :=
  {| metadata := {| meta_name := meta_name (metadata lease); annotations := Some a;
                    resource_version := resource_version (metadata lease) |};
     spec := spec lease |}.

Definition with_version (lease : Lease) (v : text) : Lease :=
  {| metadata := {| meta_name := meta_name (metadata lease); annotations := annotations (metadata lease);
                    resource_version := Some v |};
     spec := spec lease |}.

(** [metadata.annotations.get_or_insert_with(BTreeMap::new)]. *)
Definition annotations_or_new (lease : Lease) : BTreeMap text text :=
  match annotations (metadata lease) with Some a => a | None => [] end.

(** [metadata.annotations.as_ref().and_then(|a| a.get(key))]. *)
Definition annotation (lease : Lease) (key : text) : option text :=
  match annotations (metadata lease) with Some a => bt_get key a | None => None end.

Inductive LeaseGuardError : Type :=
| HeldByOther
| HeldByLiveWriter
| LostLease
| UpdateConflictLimit
| Conflict
| ApiUnavailable
| InvalidConfig
| InvalidLease.

#[export] Instance LeaseGuardError_eq_dec : EqDecision LeaseGuardError.
Proof. solve_decision. Defined.

(** ** Programs *)

(** A program over the state [S] behind the mutexes of a guard. *)
Inductive prog (S A : Type) : Type :=
| Ret (a : A)
| GetLease (k : result LeaseGuardError (option Lease) -> prog S A)
| CreateLease (lease : Lease) (k : result LeaseGuardError Lease -> prog S A)
| ReplaceLease (lease : Lease) (k : result LeaseGuardError Lease -> prog S A)
| Locked (f : S -> S) (k : S -> prog S A)   (* a critical section: [k] gets the state it found *)
| Elapsed (k : Z -> prog S A)               (* [MonotonicClock::elapsed], in nanoseconds *)
| Sleep (d : Z) (k : prog S A).             (* [tokio::time::sleep] *)

Arguments Ret {S A} a.
Arguments GetLease {S A} k.
Arguments CreateLease {S A} lease k.
Arguments ReplaceLease {S A} lease k.
Arguments Locked {S A} f k.
Arguments Elapsed {S A} k.
Arguments Sleep {S A} d k.

Fixpoint pbind {S A B} (p : prog S A) (g : A -> prog S B) : prog S B :=
  match p with
  | Ret a => g a
  | GetLease k => GetLease (fun r => pbind (k r) g)
  | CreateLease l k => CreateLease l (fun r => pbind (k r) g)
  | ReplaceLease l k => ReplaceLease l (fun r => pbind (k r) g)
  | Locked f k => Locked f (fun s => pbind (k s) g)
  | Elapsed k => Elapsed (fun t => pbind (k t) g)
  | Sleep d k => Sleep d (pbind k g)
  end.

(** [p.await?]. *)
Definition ptry {S E A B} (p : prog S (result E A)) (g : A -> prog S (result E B)) : prog S (result E B) :=
  pbind p (fun r => match r with Ok a => g a | Err e => Ret (Err e) end).

Declare Scope prog_scope.
Delimit Scope prog_scope with prog.
Notation "x <-! p ;; k" := (ptry p (fun x => k)) (at level 100, p at next level, right associativity) : prog_scope.
Notation "p ;;! k" := (ptry p (fun _ => k)) (at level 100, right associativity) : prog_scope.

(** ** The API server *)

(** What the server may do with a request, given the versions of the object
    from the newest to the oldest. *)
Class LeaseApi : Type := {
  get_step : list Lease -> result LeaseGuardError (option Lease) -> Prop;
  create_step : list Lease -> Lease -> list Lease -> result LeaseGuardError Lease -> Prop;
  replace_step : list Lease -> Lease -> list Lease -> result LeaseGuardError Lease -> Prop
}.

(** A write stores the object under a resource version it never had. *)
Definition stored_as (versions : list Lease) (lease stored : Lease) : Prop :=
  exists v, ~ In (Some v) (map (fun l => resource_version (metadata l)) versions)
    /\ stored = with_version lease v.

(** A request is refused, or applied.  A request that was applied may still
    report an error, because the reply was lost, but not a conflict. *)
Definition applied (versions : list Lease) (lease : Lease) (versions' : list Lease)
    (r : result LeaseGuardError Lease) : Prop :=
  exists stored, stored_as versions lease stored /\ versions' = stored :: versions
    /\ (r = Ok stored \/ exists e, r = Err e /\ e <> Conflict).

Definition refused (versions versions' : list Lease) (r : result LeaseGuardError Lease) : Prop :=
  versions' = versions /\ exists e, r = Err e.

Class LeaseApiLaws `{LeaseApi} : Prop := {
  get_law versions r :
    get_step versions r -> r = Ok (hd_error versions) \/ exists e, r = Err e;
  create_law versions lease versions' r :
    create_step versions lease versions' r ->
    refused versions versions' r \/ (versions = [] /\ applied versions lease versions' r);
  replace_law versions lease versions' r :
    replace_step versions lease versions' r ->
    refused versions versions' r
    \/ (exists current, hd_error versions = Some current
        /\ (resource_version (metadata lease) = None
            \/ resource_version (metadata lease) = resource_version (metadata current)))
       /\ applied versions lease versions' r
}.
