(* ===== verification/LeaseGuard.v ===== *)
(** * The writer lease

    crates/rs3-k8s/src/lease_guard.rs: how a process acquires, renews and
    releases the writer epoch recorded on a Lease, when it may take over a
    lease that another process holds, and the fence by which its writes prove
    that they belong to the epoch.  The mutexes of the source are never
    poisoned here: no critical section panics. *)

From Stdlib Require Import Strings.String.
From S2P Require Import Prelude Ord Text LeaseApi.
Open Scope Z_scope.

Definition WRITER_FENCE_ANNOTATION : text := bytes_of_string "rs3.rs/writer-fence".
Definition WRITER_RENEWAL_ANNOTATION : text := bytes_of_string "rs3.rs/writer-renewal".
Definition MAX_UPDATE_ATTEMPTS : nat := 16.

(** ** Data *)

Record WriterFenceClaim : Type := {
  claim_holder_identity : text;
  token : Z                          (* u64 *)
}.

Record LocalFenceState : Type := {
  claim : option WriterFenceClaim;
  last_success : option Z;           (* Duration, in nanoseconds *)
  active : bool
}.

Definition LocalFenceState_inactive : LocalFenceState :=
  {| claim := None; last_success := None; active := false |}.

Record LeaseObservation : Type := {
  obs_holder_identity : text;
  obs_fence_token : Z;
  obs_renewal : Z;
  obs_lease_duration_seconds : Z
}.

Record ObservedCompetitor : Type := {
  record : LeaseObservation;
  observed_at : Z
}.

Inductive TakeoverDecision : Type := Allowed | Observing | CompetitorRenewed.

Record LeaseCoordinationState : Type := {
  holder_identity : option text;
  fence_token : Z;
  renewal : Z;
  lease_duration : Z;                (* nanoseconds *)
  lease_duration_seconds : Z
}.

Record LeaseSettings : Type := {
  namespace : text;
  settings_name : text;
  field_manager : text
}.

(** The immutable part of a [LeaseGuard], and what its mutexes protect. *)
Record LeaseGuard : Type := {
  settings : LeaseSettings;
  guard_holder_identity : text;
  guard_lease_duration : Z
}.

Record GuardState : Type := {
  observation : option ObservedCompetitor;
  local_state : LocalFenceState
}.

Definition GuardState_new : GuardState :=
  {| observation := None; local_state := LocalFenceState_inactive |}.

Record WriterFence : Type := {
  fence_claim : WriterFenceClaim;
  fence_lease_duration : Z
}.

Record LeaseGuardState : Type := {
  state_holder_identity : text;
  state_fence_token : Z;
  state_renewal : Z;
  state_lease_duration_seconds : Z;
  state_renew_time : Z
}.

#[export] Instance WriterFenceClaim_eq_dec : EqDecision WriterFenceClaim.
Proof. solve_decision. Defined.
#[export] Instance LeaseObservation_eq_dec : EqDecision LeaseObservation.
Proof. solve_decision. Defined.

Abbreviation LR := (result LeaseGuardError).
Abbreviation LProg A := (prog GuardState (result LeaseGuardError A)).

(** ** Durations *)

Definition NANOS_PER_SEC : Z := 1000000000.
Definition from_secs (s : Z) : Z := s * NANOS_PER_SEC.
Definition saturating_sub (a b : Z) : Z := Z.max 0 (a - b).
Definition i32_max : Z := 2147483647.

Definition duration_seconds_i32 (duration : Z) : LR Z :=
  reject_if ((duration =? 0) || negb (duration mod NANOS_PER_SEC =? 0)) InvalidConfig ;;?
  let seconds := duration / NANOS_PER_SEC in
  reject_if (seconds >? i32_max) InvalidConfig ;;? Ok seconds.

Definition ACQUIRE_POLL_INTERVAL : Z := from_secs 1.

(** ** Lease contents *)

Definition parse_counter_annotation (lease : Lease) (key : text) : LR Z :=
  match annotation lease key with
  | Some value => ok_or (u64_from_str value) InvalidLease
  | None => Ok 0
  end.

Definition lease_coordination_state (lease : Lease) (default_lease_duration : Z) :
    LR LeaseCoordinationState :=
  fence_token <-? parse_counter_annotation lease WRITER_FENCE_ANNOTATION ;;
  renewal <-? parse_counter_annotation lease WRITER_RENEWAL_ANNOTATION ;;
  let holder_identity := match spec lease with Some spec => spec_holder_identity spec | None => None end in
  lease_duration_seconds <-?
    match match spec lease with Some spec => spec_lease_duration_seconds spec | None => None end with
    | Some seconds => if seconds >? 0 then Ok seconds else Err InvalidLease
    | None => duration_seconds_i32 default_lease_duration
    end ;;
  Ok {| holder_identity := holder_identity; fence_token := fence_token; renewal := renewal;
        lease_duration := from_secs lease_duration_seconds;
        lease_duration_seconds := lease_duration_seconds |}.

Definition coordination_observation (current : LeaseCoordinationState) : option LeaseObservation :=
  match holder_identity current with
  | Some holder =>
      Some {| obs_holder_identity := holder; obs_fence_token := fence_token current;
              obs_renewal := renewal current;
              obs_lease_duration_seconds := lease_duration_seconds current |}
  | None => None
  end.

Definition lease_holds_claim (lease : Lease) (c : WriterFenceClaim) : LR bool :=
  current <-? lease_coordination_state lease (from_secs 1) ;;
  Ok (bool_decide (holder_identity current = Some (claim_holder_identity c))
      && (fence_token current =? token c)).

Definition lease_has_writer_coordination (lease : Lease) : bool :=
  let has_annotations :=
    match annotations (metadata lease) with
    | Some a => match bt_get WRITER_FENCE_ANNOTATION a, bt_get WRITER_RENEWAL_ANNOTATION a with
                | None, None => false
                | _, _ => true
                end
    | None => false
    end in
  has_annotations
  && match spec lease with
     | Some spec => match spec_holder_identity spec with Some _ => true | None => false end
     | None => false
     end.

Definition lease_with_guard_state (lease : Lease) (c : WriterFenceClaim) (renewal lease_duration wall_time : Z)
    (ownership_transition : bool) : LR Lease :=
  let annotations := bt_insert WRITER_FENCE_ANNOTATION (u64_to_string (token c)) (annotations_or_new lease) in
  let annotations := bt_insert WRITER_RENEWAL_ANNOTATION (u64_to_string renewal) annotations in
  let old := match spec lease with Some spec => spec | None => LeaseSpec_default end in
  '(transitions, acquired) <-?
    (if ownership_transition
        && negb (bool_decide (spec_holder_identity old = Some (claim_holder_identity c)))
     then
       let transitions := match lease_transitions old with Some t => t | None => 0 end in
       transitions <-?
         match spec_holder_identity old with
         | Some _ => reject_if (transitions + 1 >? i32_max) InvalidLease ;;? Ok (transitions + 1)
         | None => Ok transitions
         end ;;
       Ok (Some transitions, Some wall_time)
     else Ok (lease_transitions old, acquire_time old)) ;;
  seconds <-? duration_seconds_i32 lease_duration ;;
  Ok {| metadata := metadata (with_annotations lease annotations);
        spec := Some {| spec_holder_identity := Some (claim_holder_identity c);
                        spec_lease_duration_seconds := Some seconds;
                        acquire_time := acquired;
                        spec_renew_time := Some wall_time;
                        lease_transitions := transitions |} |}.

Definition new_guard_lease (name : text) (c : WriterFenceClaim) (lease_duration wall_time : Z) : LR Lease :=
  lease_with_guard_state
    {| metadata := {| meta_name := Some name; annotations := None; resource_version := None |}; spec := None |}
    c 1 lease_duration wall_time true.

Definition lease_with_released_state (lease : Lease) (renewal wall_time : Z) : LR Lease :=
  annotations <-? ok_or (annotations (metadata lease)) InvalidLease ;;
  reject_if (match bt_get WRITER_FENCE_ANNOTATION annotations with Some _ => false | None => true end)
    InvalidLease ;;?
  let annotations := bt_insert WRITER_RENEWAL_ANNOTATION (u64_to_string renewal) annotations in
  old <-? ok_or (spec lease) InvalidLease ;;
  Ok {| metadata := metadata (with_annotations lease annotations);
        spec := Some {| spec_holder_identity := None;
                        spec_lease_duration_seconds := spec_lease_duration_seconds old;
                        acquire_time := acquire_time old;
                        spec_renew_time := Some wall_time;
                        lease_transitions := lease_transitions old |} |}.

Definition lease_state_from_spec (lease : Lease) : LR LeaseGuardState :=
  coordination <-? lease_coordination_state lease (from_secs 1) ;;
  spec <-? ok_or (spec lease) InvalidLease ;;
  holder <-? ok_or (holder_identity coordination) InvalidLease ;;
  renew_time <-? ok_or (spec_renew_time spec) InvalidLease ;;
  Ok {| state_holder_identity := holder; state_fence_token := fence_token coordination;
        state_renewal := renewal coordination;
        state_lease_duration_seconds := lease_duration_seconds coordination;
        state_renew_time := renew_time |}.

(** ** The guard *)

Open Scope prog_scope.

Definition LeaseGuard_new (settings : LeaseSettings) (holder_identity : text) (lease_duration : Z) : LR LeaseGuard :=
  reject_if (bool_decide (settings_name settings = []) || bool_decide (namespace settings = [])
             || bool_decide (holder_identity = [])) InvalidConfig ;;?
  duration_seconds_i32 lease_duration ;;?
  Ok {| settings := settings; guard_holder_identity := holder_identity; guard_lease_duration := lease_duration |}.

Definition set_observation (o : option ObservedCompetitor) (s : GuardState) : GuardState :=
  {| observation := o; local_state := local_state s |}.

Definition set_local_state (l : LocalFenceState) (s : GuardState) : GuardState :=
  {| observation := observation s; local_state := l |}.

(** The claim of the local state while it is active. *)
Definition active_claim (s : GuardState) : option WriterFenceClaim :=
  if active (local_state s) then claim (local_state s) else None.

Definition writer_fence (g : LeaseGuard) : LProg WriterFence :=
  Locked id (fun s => Ret (
    claim <-? ok_or (active_claim s) LostLease ;;
    Ok {| fence_claim := claim; fence_lease_duration := guard_lease_duration g |})).

Definition current_claim : LProg WriterFenceClaim :=
  Locked id (fun s => Ret (ok_or (active_claim s) LostLease)).

Definition deactivate_state (s : GuardState) : GuardState :=
  set_local_state {| claim := claim (local_state s); last_success := last_success (local_state s);
                     active := false |} s.

Definition deactivate {A} (p : prog GuardState A) : prog GuardState A :=
  Locked deactivate_state (fun _ => p).

Definition live_claim_at (fence : WriterFence) (s : GuardState) (now : Z) : option WriterFenceClaim :=
  if negb (active (local_state s)) || negb (bool_decide (claim (local_state s) = Some (fence_claim fence)))
  then None
  else match last_success (local_state s) with
       | Some last_success =>
           if saturating_sub now last_success >=? fence_lease_duration fence then None
           else Some (fence_claim fence)
       | None => None
       end.

Definition live_claim (fence : WriterFence) : prog GuardState (option WriterFenceClaim) :=
  Elapsed (fun now => Locked id (fun s => Ret (live_claim_at fence s now))).

(** The critical section of [may_take_ownership]: the decision and the state
    it leaves. *)
Definition observe (current : LeaseCoordinationState) (record : LeaseObservation) (now : Z) (s : GuardState) :
    TakeoverDecision * GuardState :=
  let seen := set_observation (Some {| record := record; observed_at := now |}) s in
  match observation s with
  | None => (Observing, seen)
  | Some previous =>
      if negb (bool_decide (LeaseGuard.record previous = record)) then (CompetitorRenewed, seen)
      else if saturating_sub now (observed_at previous) >=? lease_duration current then (Allowed, s)
      else (Observing, s)
  end.

Definition may_take_ownership (current : LeaseCoordinationState) (now : Z) : LProg TakeoverDecision :=
  match coordination_observation current with
  | None => Ret (Ok Allowed)
  | Some record =>
      Locked (fun s => (observe current record now s).2) (fun s => Ret (Ok (observe current record now s).1))
  end.

Definition record_success (lease : Lease) (expected_claim : WriterFenceClaim) (monotonic_time : Z) :
    LProg LeaseGuardState :=
  state <-! Ret (lease_state_from_spec lease) ;;
  if negb (bool_decide (state_holder_identity state = claim_holder_identity expected_claim))
     || negb (state_fence_token state =? token expected_claim)
  then deactivate (Ret (Err LostLease))
  else
    Locked (set_local_state {| claim := Some expected_claim; last_success := Some monotonic_time;
                               active := true |}) (fun _ =>
    Locked (set_observation None) (fun _ => Ret (Ok state))).

(** ** Acquiring, renewing, releasing *)

Fixpoint acquire_attempts (attempts : nat) (g : LeaseGuard) (wall_time monotonic_time : Z) :
    LProg LeaseGuardState :=
  match attempts with
  | O => Ret (Err UpdateConflictLimit)
  | S attempts' =>
      found <-! GetLease Ret ;;
      match found with
      | Some lease =>
          current <-! Ret (lease_coordination_state lease (guard_lease_duration g)) ;;
          decision <-! may_take_ownership current monotonic_time ;;
          match decision with
          | Observing => Ret (Err HeldByOther)
          | CompetitorRenewed => Ret (Err HeldByLiveWriter)
          | Allowed =>
              token <-! Ret (ok_or (checked_add (fence_token current) 1) InvalidLease) ;;
              let claim := {| claim_holder_identity := guard_holder_identity g; token := token |} in
              renewal <-! Ret (ok_or (checked_add (renewal current) 1) InvalidLease) ;;
              updated <-! Ret (lease_with_guard_state lease claim renewal (guard_lease_duration g) wall_time true) ;;
              ReplaceLease updated (fun r =>
                match r with
                | Ok lease => record_success lease claim monotonic_time
                | Err Conflict => acquire_attempts attempts' g wall_time monotonic_time
                | Err error => Ret (Err error)
                end)
          end
      | None =>
          let claim := {| claim_holder_identity := guard_holder_identity g; token := 1 |} in
          lease <-! Ret (new_guard_lease (settings_name (settings g)) claim (guard_lease_duration g) wall_time) ;;
          CreateLease lease (fun r =>
            match r with
            | Ok lease => record_success lease claim monotonic_time
            | Err Conflict => acquire_attempts attempts' g wall_time monotonic_time
            | Err error => Ret (Err error)
            end)
      end
  end.

Definition acquire_at (g : LeaseGuard) (wall_time monotonic_time : Z) : LProg LeaseGuardState :=
  acquire_attempts MAX_UPDATE_ATTEMPTS g wall_time monotonic_time.

Fixpoint renew_attempts (attempts : nat) (g : LeaseGuard) (claim : WriterFenceClaim)
    (wall_time monotonic_time : Z) : LProg LeaseGuardState :=
  match attempts with
  | O => Ret (Err UpdateConflictLimit)
  | S attempts' =>
      found <-! GetLease Ret ;;
      match found with
      | None => deactivate (Ret (Err LostLease))
      | Some lease =>
          current <-! Ret (lease_coordination_state lease (guard_lease_duration g)) ;;
          if negb (bool_decide (holder_identity current = Some (claim_holder_identity claim)))
             || negb (fence_token current =? token claim)
          then deactivate (Ret (Err HeldByOther))
          else
            renewal <-! Ret (ok_or (checked_add (renewal current) 1) InvalidLease) ;;
            updated <-! Ret (lease_with_guard_state lease claim renewal (guard_lease_duration g) wall_time false) ;;
            ReplaceLease updated (fun r =>
              match r with
              | Ok lease => record_success lease claim monotonic_time
              | Err Conflict => renew_attempts attempts' g claim wall_time monotonic_time
              | Err error => Ret (Err error)
              end)
      end
  end.

Definition renew_at (g : LeaseGuard) (wall_time monotonic_time : Z) : LProg LeaseGuardState :=
  claim <-! current_claim ;;
  renew_attempts MAX_UPDATE_ATTEMPTS g claim wall_time monotonic_time.

Fixpoint release_attempts (attempts : nat) (g : LeaseGuard) (claim : WriterFenceClaim) (wall_time : Z) :
    LProg unit :=
  match attempts with
  | O => Ret (Err UpdateConflictLimit)
  | S attempts' =>
      found <-! GetLease Ret ;;
      match found with
      | None => deactivate (Ret (Err LostLease))
      | Some lease =>
          holds <-! Ret (lease_holds_claim lease claim) ;;
          if negb holds then deactivate (Ret (Err HeldByOther))
          else
            current <-! Ret (lease_coordination_state lease (guard_lease_duration g)) ;;
            renewal <-! Ret (ok_or (checked_add (renewal current) 1) InvalidLease) ;;
            updated <-! Ret (lease_with_released_state lease renewal wall_time) ;;
            ReplaceLease updated (fun r =>
              match r with
              | Ok _ => deactivate (Ret (Ok tt))
              | Err Conflict => release_attempts attempts' g claim wall_time
              | Err error => Ret (Err error)
              end)
      end
  end.

Definition release_at (g : LeaseGuard) (wall_time : Z) : LProg unit :=
  claim <-! current_claim ;;
  release_attempts MAX_UPDATE_ATTEMPTS g claim wall_time.

(** [try_acquire] and [renew] of [KubernetesLeaseGuard]: the clock is read
    before the first call. *)
Definition try_acquire (g : LeaseGuard) (wall_time : Z) : LProg LeaseGuardState :=
  Elapsed (acquire_at g wall_time).

Definition renew (g : LeaseGuard) (wall_time : Z) : LProg LeaseGuardState :=
  Elapsed (renew_at g wall_time).

(** [acquire_unless_live_writer], for at most [turns] turns of its loop. *)
Fixpoint acquire_unless_live_writer (turns : nat) (g : LeaseGuard) (wall_time : Z) :
    prog GuardState (option (LR LeaseGuardState)) :=
  match turns with
  | O => Ret None
  | S turns' =>
      pbind (try_acquire g wall_time) (fun r =>
        match r with
        | Err HeldByOther => Sleep ACQUIRE_POLL_INTERVAL (acquire_unless_live_writer turns' g wall_time)
        | result => Ret (Some result)
        end)
  end.

(** [KubernetesLeaseGuard::acquire], for at most [turns] turns of its loop. *)
Fixpoint acquire (turns : nat) (g : LeaseGuard) (wall_time : Z) :
    prog GuardState (option (LR LeaseGuardState)) :=
  match turns with
  | O => Ret None
  | S turns' =>
      pbind (try_acquire g wall_time) (fun r =>
        match r with
        | Err HeldByOther | Err HeldByLiveWriter => Sleep ACQUIRE_POLL_INTERVAL (acquire turns' g wall_time)
        | result => Ret (Some result)
        end)
  end.
