(* ===== verification/LeaseAnchor.v ===== *)
(** * The anchor

    The anchor names the last accepted commit.  crates/rs3-k8s/src/lib.rs keeps
    it in the annotations of the Lease that also records the writer epoch, and
    changes it only by a compare-and-swap of the whole object under the fence
    of the epoch. *)

From Stdlib Require Import Strings.String.
From S2P Require Import Prelude Ord Text Types External V3Wire Commit Format Anchor LeaseApi LeaseGuard.
Open Scope Z_scope.
Open Scope prog_scope.
Import V3.

Definition REPOSITORY_FORMAT_ANNOTATION : text := bytes_of_string "rs3.rs/repository-format-generation".
Definition ANCHOR_FENCE_ANNOTATION : text := bytes_of_string "rs3.rs/anchor-fence".
Definition V3_SEQUENCE_ANNOTATION : text := bytes_of_string "rs3.rs/v3-sequence".
Definition V3_COMMIT_KEY_ANNOTATION : text := bytes_of_string "rs3.rs/v3-commit-key".
Definition V3_BODY_DIGEST_ANNOTATION : text := bytes_of_string "rs3.rs/v3-body-digest".
Definition V3_VERSION_ID_ANNOTATION : text := bytes_of_string "rs3.rs/v3-version-id".
Definition V3_SIGNING_KEY_ID_ANNOTATION : text := bytes_of_string "rs3.rs/v3-signing-key-id".
Definition V3_FORMAT_GENERATION_ANNOTATION : text := bytes_of_string "rs3.rs/v3-format-generation".
Definition V3_FORMAT_DIGEST_ANNOTATION : text := bytes_of_string "rs3.rs/v3-format-digest".
Definition V3_FORMAT_OBJECT_ID_ANNOTATION : text := bytes_of_string "rs3.rs/v3-format-object-id".
Definition V3_FORMAT_VERSION_ID_ANNOTATION : text := bytes_of_string "rs3.rs/v3-format-version-id".
Definition V2_PREFIX : text := bytes_of_string "rs3.rs/v2-".
Definition MAX_ADVANCE_ATTEMPTS : nat := 16.

Definition ANCHOR_ANNOTATIONS : list text := [
  REPOSITORY_FORMAT_ANNOTATION; V3_SEQUENCE_ANNOTATION; V3_COMMIT_KEY_ANNOTATION;
  V3_BODY_DIGEST_ANNOTATION; V3_VERSION_ID_ANNOTATION; V3_SIGNING_KEY_ID_ANNOTATION;
  V3_FORMAT_GENERATION_ANNOTATION; V3_FORMAT_DIGEST_ANNOTATION; V3_FORMAT_OBJECT_ID_ANNOTATION;
  V3_FORMAT_VERSION_ID_ANNOTATION].

Section LeaseAnchor.
Context `{Primitives}.

(** ** Annotations *)

Definition hex_digest (value : text) : V3Result (list byte) :=
  bytes <-? ok_or (hex_decode value) AnchorReadFailed ;;
  reject_if (negb (len bytes =? 32)) AnchorReadFailed ;;? Ok bytes.

Definition v3_annotation (annotations : BTreeMap text text) (key : text) : V3Result text :=
  ok_or (bt_get key annotations) AnchorReadFailed.

(** [insert] of a present value, [remove] for an absent one. *)
Definition set_optional (key : text) (value : option text) (annotations : BTreeMap text text) :
    BTreeMap text text :=
  match value with
  | Some value => bt_insert key value annotations
  | None => bt_remove key annotations
  end.

Definition v3_lease_with_state (lease : Lease) (state : V3AnchorState) : Lease :=
  let annotations := annotations_or_new lease in
  let annotations := bt_insert REPOSITORY_FORMAT_ANNOTATION (u64_to_string V3_FORMAT_VERSION) annotations in
  let annotations := bt_insert V3_SEQUENCE_ANNOTATION (u64_to_string (anchor_sequence state)) annotations in
  let annotations := bt_insert V3_COMMIT_KEY_ANNOTATION (anchor_commit_key state) annotations in
  let annotations := bt_insert V3_BODY_DIGEST_ANNOTATION (hex_encode (anchor_body_digest state)) annotations in
  let annotations := set_optional V3_VERSION_ID_ANNOTATION (anchor_version_id state) annotations in
  let annotations := bt_insert V3_SIGNING_KEY_ID_ANNOTATION (anchor_signing_key_id state) annotations in
  let format := anchor_format_ref state in
  let annotations := bt_insert V3_FORMAT_GENERATION_ANNOTATION (u64_to_string (fr_generation format)) annotations in
  let annotations := bt_insert V3_FORMAT_DIGEST_ANNOTATION (fr_digest format) annotations in
  let annotations := bt_insert V3_FORMAT_OBJECT_ID_ANNOTATION (fr_object_id format) annotations in
  let annotations := set_optional V3_FORMAT_VERSION_ID_ANNOTATION (fr_version_id format) annotations in
  with_annotations lease annotations.

Definition has_v2_annotation (annotations : BTreeMap text text) : bool :=
  existsb (fun '(key, _) => match strip_prefix V2_PREFIX key with Some _ => true | None => false end) annotations.

Definition v3_anchor_state_from_lease (lease : Lease) : V3Result V3AnchorState :=
  annotations <-? ok_or (annotations (metadata lease)) AnchorReadFailed ;;
  generation <-? v3_annotation annotations REPOSITORY_FORMAT_ANNOTATION ;;
  reject_if (negb (bool_decide (generation = bytes_of_string "3")) || has_v2_annotation annotations)
    AnchorReadFailed ;;?
  sequence <-? v3_annotation annotations V3_SEQUENCE_ANNOTATION ;;
  sequence <-? ok_or (u64_from_str sequence) AnchorReadFailed ;;
  commit_key <-? v3_annotation annotations V3_COMMIT_KEY_ANNOTATION ;;
  commit_key <-? from_type (BackendObjectId_new commit_key) ;;
  body_digest <-? v3_annotation annotations V3_BODY_DIGEST_ANNOTATION ;;
  body_digest <-? hex_digest body_digest ;;
  version_id <-? transpose (fun v => from_type (BackendVersionId_new v)) (bt_get V3_VERSION_ID_ANNOTATION annotations) ;;
  signing_key_id <-? v3_annotation annotations V3_SIGNING_KEY_ID_ANNOTATION ;;
  signing_key_id <-? from_type (KeyId_new signing_key_id) ;;
  format_generation <-? v3_annotation annotations V3_FORMAT_GENERATION_ANNOTATION ;;
  format_generation <-? ok_or (u64_from_str format_generation) AnchorReadFailed ;;
  format_digest <-? v3_annotation annotations V3_FORMAT_DIGEST_ANNOTATION ;;
  format_object_id <-? v3_annotation annotations V3_FORMAT_OBJECT_ID_ANNOTATION ;;
  format_object_id <-? from_type (BackendObjectId_new format_object_id) ;;
  format_version_id <-? transpose (fun v => from_type (BackendVersionId_new v))
                          (bt_get V3_FORMAT_VERSION_ID_ANNOTATION annotations) ;;
  reject_if (bool_decide (format_digest = [])) AnchorReadFailed ;;?
  Ok {| anchor_sequence := sequence; anchor_commit_key := commit_key; anchor_body_digest := body_digest;
        anchor_version_id := version_id; anchor_signing_key_id := signing_key_id;
        anchor_format_ref := {| fr_generation := format_generation; fr_digest := format_digest;
                                fr_object_id := format_object_id; fr_version_id := format_version_id |} |}.

Definition v3_anchor_state_from_lease_optional (lease : Lease) : V3Result (option V3AnchorState) :=
  match annotations (metadata lease) with
  | None => Ok None
  | Some annotations =>
      reject_if (has_v2_annotation annotations) AnchorReadFailed ;;?
      if negb (existsb (fun key => match bt_get key annotations with Some _ => true | None => false end)
                 ANCHOR_ANNOTATIONS)
      then Ok None
      else state <-? v3_anchor_state_from_lease lease ;; Ok (Some state)
  end.

Definition new_v3_lease (name : text) (state : V3AnchorState) : Lease :=
  v3_lease_with_state
    {| metadata := {| meta_name := Some name; annotations := None; resource_version := None |}; spec := None |}
    state.

(** ** Fenced updates *)

Definition validate_writer_fence (lease : Lease) (writer_fence : option WriterFence) :
    prog GuardState (V3Result unit) :=
  match writer_fence with
  | Some fence =>
      pbind (live_claim fence) (fun live =>
        claim <-! Ret (ok_or live AnchorAdvanceFailed) ;;
        holds <-! Ret (map_err (fun _ => AnchorAdvanceFailed) (lease_holds_claim lease claim)) ;;
        Ret (reject_if (negb holds) AnchorAdvanceFailed))
  | None => Ret (reject_if (lease_has_writer_coordination lease) AnchorAdvanceFailed)
  end.

Definition v3_lease_with_claim (lease : Lease) (state : V3AnchorState) (claim : WriterFenceClaim) :
    V3Result Lease :=
  holds <-? map_err (fun _ => AnchorAdvanceFailed) (lease_holds_claim lease claim) ;;
  reject_if (negb holds) AnchorAdvanceFailed ;;?
  Ok (v3_lease_with_state lease state).

Definition v3_lease_with_fenced_state (lease : Lease) (state : V3AnchorState) (fence : WriterFence) :
    prog GuardState (V3Result Lease) :=
  pbind (live_claim fence) (fun live =>
    claim <-! Ret (ok_or live AnchorAdvanceFailed) ;;
    Ret (v3_lease_with_claim lease state claim)).

Definition v3_lease_for_anchor_advance (lease : Lease) (state : V3AnchorState)
    (writer_fence : option WriterFence) : prog GuardState (V3Result Lease) :=
  validate_writer_fence lease writer_fence ;;!
  match writer_fence with
  | Some fence => v3_lease_with_fenced_state lease state fence
  | None => Ret (Ok (v3_lease_with_state lease state))
  end.

Fixpoint compare_and_advance_attempts (attempts : nat) (name : text) (writer_fence : option WriterFence)
    (expected : option V3AnchorState) (next : V3AnchorState) : prog GuardState (V3Result V3AnchorState) :=
  match attempts with
  | O => Ret (Err AnchorAdvanceFailed)
  | S attempts' =>
      GetLease (fun r =>
        match r with
        | Ok (Some lease) =>
            current <-! Ret (v3_anchor_state_from_lease_optional lease) ;;
            if negb (bool_decide (expected = current)) then Ret (Err StaleAnchor)
            else if match current with
                    | Some current =>
                        negb (bool_decide (next = current)) && (anchor_sequence next <=? anchor_sequence current)
                    | None => false
                    end
            then Ret (Err StaleAnchor)
            else
              updated <-! v3_lease_for_anchor_advance lease next writer_fence ;;
              ReplaceLease updated (fun r =>
                match r with
                | Ok lease => Ret (v3_anchor_state_from_lease lease)
                | Err Conflict => compare_and_advance_attempts attempts' name writer_fence expected next
                | Err _ => Ret (Err AnchorAdvanceFailed)
                end)
        | Ok None =>
            match expected, writer_fence with
            | Some _, _ => Ret (Err StaleAnchor)
            | None, Some _ => Ret (Err AnchorAdvanceFailed)
            | None, None =>
                CreateLease (new_v3_lease name next) (fun r =>
                  match r with
                  | Ok lease => Ret (v3_anchor_state_from_lease lease)
                  | Err Conflict => compare_and_advance_attempts attempts' name writer_fence expected next
                  | Err _ => Ret (Err AnchorAdvanceFailed)
                  end)
            end
        | Err _ => Ret (Err AnchorReadFailed)
        end)
  end.

Definition compare_and_advance_lease (settings : LeaseSettings) (writer_fence : option WriterFence)
    (expected : option V3AnchorState) (next : V3AnchorState) : prog GuardState (V3Result V3AnchorState) :=
  compare_and_advance_attempts MAX_ADVANCE_ATTEMPTS (settings_name settings) writer_fence expected next.

(** The fencing annotation is a wrapping counter. *)
Definition lease_with_anchor_fence (lease : Lease) : Lease :=
  let annotations := annotations_or_new lease in
  let next :=
    (match bt_get ANCHOR_FENCE_ANNOTATION annotations with
     | Some value => match u64_from_str value with Some n => n | None => 0 end
     | None => 0
     end + 1) mod 2 ^ 64 in
  with_annotations lease (bt_insert ANCHOR_FENCE_ANNOTATION (u64_to_string next) annotations).

Fixpoint fence_and_read_attempts (attempts : nat) (writer_fence : option WriterFence) :
    prog GuardState (V3Result (option V3AnchorState)) :=
  match attempts with
  | O => Ret (Err AnchorAdvanceFailed)
  | S attempts' =>
      GetLease (fun r =>
        match r with
        | Ok (Some lease) =>
            validate_writer_fence lease writer_fence ;;!
            ReplaceLease (lease_with_anchor_fence lease) (fun r =>
              match r with
              | Ok lease => Ret (v3_anchor_state_from_lease_optional lease)
              | Err Conflict => fence_and_read_attempts attempts' writer_fence
              | Err _ => Ret (Err AnchorAdvanceFailed)
              end)
        | Ok None => Ret (Ok None)
        | Err _ => Ret (Err AnchorReadFailed)
        end)
  end.

Definition fence_and_read_lease (writer_fence : option WriterFence) :
    prog GuardState (V3Result (option V3AnchorState)) :=
  fence_and_read_attempts MAX_ADVANCE_ATTEMPTS writer_fence.

(** [read_v3] of [KubernetesLeaseAnchor]. *)
Definition read_v3 : prog GuardState (V3Result (option V3AnchorState)) :=
  GetLease (fun r =>
    match r with
    | Ok (Some lease) => Ret (v3_anchor_state_from_lease_optional lease)
    | Ok None => Ret (Ok None)
    | Err _ => Ret (Err AnchorReadFailed)
    end).

(** [V3MaintenanceGuard] for [WriterFence]. *)
Definition verify_v3_maintenance (fence : WriterFence) : prog GuardState (V3Result unit) :=
  pbind (live_claim fence) (fun live =>
    Ret (match live with Some _ => Ok tt | None => Err MaintenanceAccessRequired end)).
End LeaseAnchor.
