(* ===== verification/LeaseFacts.v ===== *)
(** * What each update does to a Lease

    Every update of a Lease by the crate either moves the writer epoch (holder,
    fence token, renewal counter) and leaves the anchor alone, or changes the
    anchor and leaves the epoch alone. *)

From Stdlib Require Import Strings.String.
From S2P Require Import Prelude Ord Text Types External V3Wire Commit Format Anchor LeaseApi LeaseGuard LeaseAnchor.
Open Scope Z_scope.
Import V3.

(** ** Views of a Lease *)

Definition lease_holder (l : Lease) : option text :=
  match spec l with Some spec => spec_holder_identity spec | None => None end.
Definition lease_token (l : Lease) : LR Z := parse_counter_annotation l WRITER_FENCE_ANNOTATION.
Definition lease_renewal (l : Lease) : LR Z := parse_counter_annotation l WRITER_RENEWAL_ANNOTATION.

(** What the type [BTreeMap] guarantees. *)
Definition wf_lease (l : Lease) : Prop :=
  match annotations (metadata l) with Some a => bt_wf a | None => True end.

(** What the types of [V3AnchorState] guarantee, and a format digest. *)
Definition wf_anchor (st : V3AnchorState) : Prop :=
  is_u64 (anchor_sequence st) /\ wf_name (anchor_commit_key st) /\ length (anchor_body_digest st) = 32%nat
  /\ wf_opt_name (anchor_version_id st) /\ wf_name (anchor_signing_key_id st)
  /\ is_u64 (fr_generation (anchor_format_ref st)) /\ fr_digest (anchor_format_ref st) <> []
  /\ wf_name (fr_object_id (anchor_format_ref st)) /\ wf_opt_name (fr_version_id (anchor_format_ref st)).

(** ** Annotations *)

(** Decides that two annotation keys differ. *)
Ltac key_ne := let E := fresh in intros E; vm_compute in E; discriminate E.

Lemma annotation_with l a key : annotation (with_annotations l a) key = bt_get key a.
Proof. done. Qed.

Lemma annotation_or_new l key : bt_get key (annotations_or_new l) = annotation l key.
Proof. unfold annotations_or_new, annotation. by destruct (annotations (metadata l)). Qed.

Lemma wf_or_new l : wf_lease l -> bt_wf (annotations_or_new l).
Proof. unfold wf_lease, annotations_or_new. destruct (annotations (metadata l)); [done|]. intros _. apply bt_wf_nil. Qed.

Lemma set_optional_eq key v a : bt_wf a -> bt_get key (set_optional key v a) = v.
Proof. intros W. destruct v; simpl; [apply bt_get_insert_eq|by apply bt_get_remove_eq]. Qed.

Lemma set_optional_ne key key' v a : bt_wf a -> key <> key' -> bt_get key (set_optional key' v a) = bt_get key a.
Proof. intros W N. destruct v; simpl; [by apply bt_get_insert_ne|by apply bt_get_remove_ne]. Qed.

Lemma set_optional_wf key v a : bt_wf a -> bt_wf (set_optional key v a).
Proof. intros W. destruct v; simpl; [by apply bt_wf_insert|by apply bt_wf_remove]. Qed.

(** ** The version 2 prefix *)

Definition is_v2 (key : text) : bool := match strip_prefix V2_PREFIX key with Some _ => true | None => false end.

Lemma has_v2_annotation_eq a : has_v2_annotation a = existsb is_v2 (map fst a).
Proof. induction a as [|[k v] a IH]; simpl; [done|]. by rewrite <- IH. Qed.

Lemma has_v2_insert key v a : is_v2 key = false -> has_v2_annotation (bt_insert key v a) = has_v2_annotation a.
Proof.
  intros N. rewrite !has_v2_annotation_eq. induction a as [|[k w] a IH]; simpl; [by rewrite N|].
  destruct (cmp key k) eqn:C; simpl; [|by rewrite N|by rewrite IH].
  apply cmp_eq in C as ->. by rewrite N.
Qed.

Lemma has_v2_remove key a : is_v2 key = false -> has_v2_annotation (bt_remove key a) = has_v2_annotation a.
Proof.
  intros N. rewrite !has_v2_annotation_eq. induction a as [|[k w] a IH]; simpl; [done|].
  destruct (cmp key k) eqn:C; simpl; [|done|by rewrite IH].
  apply cmp_eq in C as ->. by rewrite N.
Qed.

Lemma has_v2_optional key v a : is_v2 key = false -> has_v2_annotation (set_optional key v a) = has_v2_annotation a.
Proof. intros N. destruct v; simpl; [by apply has_v2_insert|by apply has_v2_remove]. Qed.

Create HintDb annotations.
#[export] Hint Resolve set_optional_wf wf_or_new : annotations.
#[export] Hint Extern 1 (bt_wf (bt_insert _ _ _)) => apply bt_wf_insert : annotations.

(** Reads a key off a map built by insertions and removals. *)
Ltac lookup :=
  repeat first
    [ rewrite bt_get_insert_eq
    | rewrite set_optional_eq by auto 20 with annotations
    | rewrite bt_get_insert_ne by key_ne
    | rewrite set_optional_ne by (auto 20 with annotations || key_ne) ].

Section LeaseFacts.
Context `{Primitives}.

Lemma wf_guard_state l c n d w b l' : wf_lease l -> lease_with_guard_state l c n d w b = Ok l' -> wf_lease l'.
Proof.
  intros W G. unfold lease_with_guard_state in G. inv_bind. unfold wf_lease.
  cbn [metadata with_annotations annotations]. auto with annotations.
Qed.

Lemma wf_anchor_lease l st : wf_lease l -> wf_lease (v3_lease_with_state l st).
Proof. intros W. unfold wf_lease, v3_lease_with_state.
  cbn [metadata with_annotations annotations]. auto 20 with annotations. Qed.

(** Reading an anchor depends only on the anchor annotations. *)
Lemma anchor_frame l l' :
  (forall key, In key ANCHOR_ANNOTATIONS -> annotation l' key = annotation l key) ->
  has_v2_annotation (annotations_or_new l') = has_v2_annotation (annotations_or_new l) ->
  v3_anchor_state_from_lease_optional l' = v3_anchor_state_from_lease_optional l.
Proof.
  intros A V. unfold v3_anchor_state_from_lease_optional, v3_anchor_state_from_lease, v3_annotation, annotation,
    annotations_or_new in *.
  assert (forall o : option (BTreeMap text text), existsb
    (fun key => match match o with Some a => bt_get key a | None => None end with Some _ => true | None => false end)
    ANCHOR_ANNOTATIONS = match o with Some a => existsb (fun key => match bt_get key a with Some _ => true | None => false end)
    ANCHOR_ANNOTATIONS | None => false end) as E by (by intros []).
  assert (match annotations (metadata l') with
    | Some a => existsb (fun key => match bt_get key a with Some _ => true | None => false end) ANCHOR_ANNOTATIONS
    | None => false end =
    match annotations (metadata l) with
    | Some a => existsb (fun key => match bt_get key a with Some _ => true | None => false end) ANCHOR_ANNOTATIONS
    | None => false end) as X.
  { rewrite <- !E. apply existsb_ext_in. intros key I. by rewrite (A key I). }
  destruct (annotations (metadata l')) as [a'|], (annotations (metadata l)) as [a|]; cbn [ok_or rbind]; try done.
  - rewrite X, V. destruct (has_v2_annotation a); [done|]. cbn [reject_if rbind].
    rewrite !A by (unfold ANCHOR_ANNOTATIONS; simpl; tauto). done.
  - rewrite X, V. done.
  - rewrite <- X, <- V. done.
Qed.

(** ** Effect of each update *)

(** [l'] is [l] with the writer epoch [(holder, t, n)]. *)
Definition moves_epoch (l l' : Lease) (holder : option text) (t n : Z) : Prop :=
  lease_holder l' = holder /\ lease_token l' = Ok t /\ lease_renewal l' = Ok n
  /\ v3_anchor_state_from_lease_optional l' = v3_anchor_state_from_lease_optional l
  /\ resource_version (metadata l') = resource_version (metadata l) /\ (wf_lease l -> wf_lease l').

(** [l'] is [l] with the same writer epoch. *)
Definition keeps_epoch (l l' : Lease) : Prop :=
  spec l' = spec l /\ lease_token l' = lease_token l /\ lease_renewal l' = lease_renewal l
  /\ resource_version (metadata l') = resource_version (metadata l) /\ wf_lease l'.

Lemma keeps_holder l l' : keeps_epoch l l' -> lease_holder l' = lease_holder l.
Proof. intros (E & _). unfold lease_holder. by rewrite E. Qed.

Lemma coordination_Ok l d c :
  lease_coordination_state l d = Ok c ->
  lease_token l = Ok (fence_token c) /\ lease_renewal l = Ok (renewal c) /\ lease_holder l = holder_identity c.
Proof. unfold lease_coordination_state, lease_token, lease_renewal, lease_holder. intros E. inv_bind. done. Qed.

Lemma counter_range l key v : parse_counter_annotation l key = Ok v -> is_u64 v.
Proof.
  unfold parse_counter_annotation. destruct (annotation l key); intros P; inv_bind; [|unfold is_u64; lia].
  by eapply u64_from_str_range.
Qed.

Lemma counter_written a l key v : is_u64 v -> bt_get key a = Some (u64_to_string v) ->
  parse_counter_annotation (with_annotations l a) key = Ok v.
Proof. intros U G. unfold parse_counter_annotation. by rewrite annotation_with, G, u64_from_to_string. Qed.

(** Inserting a key that is not an anchor annotation leaves the anchor. *)
Lemma anchor_insert_other l key v :
  ~ In key ANCHOR_ANNOTATIONS -> is_v2 key = false -> forall sp,
  v3_anchor_state_from_lease_optional
    {| metadata := metadata (with_annotations l (bt_insert key v (annotations_or_new l))); spec := sp |}
  = v3_anchor_state_from_lease_optional l.
Proof.
  intros N V sp. apply anchor_frame.
  - intros k I. change (bt_get k (bt_insert key v (annotations_or_new l)) = annotation l k).
    rewrite bt_get_insert_ne by (by intros ->). apply annotation_or_new.
  - cbn [annotations_or_new annotations metadata with_annotations]. by apply has_v2_insert.
Qed.

Ltac not_anchor := unfold ANCHOR_ANNOTATIONS; simpl; intuition (by match goal with E : _ = _ |- _ => vm_compute in E end).

Lemma guard_state_moves l c n d w b l' :
  is_u64 (token c) -> is_u64 n -> lease_with_guard_state l c n d w b = Ok l' ->
  moves_epoch l l' (Some (claim_holder_identity c)) (token c) n.
Proof.
  intros Ut Un G. pose proof (fun W => wf_guard_state l c n d w b l' W G) as Wf.
  unfold lease_with_guard_state in G. inv_bind. unfold moves_epoch, lease_holder. cbn [spec spec_holder_identity].
  split_and!; try done.
  - apply (counter_written _ l); [done|]. by lookup.
  - apply (counter_written _ l); [done|]. by lookup.
  - set (l1 := with_annotations l (bt_insert WRITER_FENCE_ANNOTATION (u64_to_string (token c)) (annotations_or_new l))).
    etransitivity; [refine (anchor_insert_other l1 WRITER_RENEWAL_ANNOTATION _ _ _ _); [not_anchor|done]|].
    refine (anchor_insert_other l WRITER_FENCE_ANNOTATION _ _ _ (spec l)); [not_anchor|done].
Qed.

Lemma released_moves l t n w l' :
  lease_token l = Ok t -> is_u64 n -> lease_with_released_state l n w = Ok l' -> moves_epoch l l' None t n.
Proof.
  intros T Un R. unfold lease_with_released_state in R. inv_bind. unfold moves_epoch, lease_holder, wf_lease.
  cbn [spec spec_holder_identity metadata with_annotations annotations].
  match goal with A : annotations _ = Some ?a |- _ => rename a into a; rename A into A;
    assert (a = annotations_or_new l) as Ea by (unfold annotations_or_new; by rewrite A) end.
  split_and!; try done.
  - rewrite <- T. unfold lease_token, parse_counter_annotation, annotation at 1. cbn [annotations metadata].
    lookup. by rewrite Ea, annotation_or_new.
  - apply (counter_written _ l); [done|]. by lookup.
  - rewrite Ea. refine (anchor_insert_other l WRITER_RENEWAL_ANNOTATION _ _ _ _); [not_anchor|done].
  - intros W. apply bt_wf_insert. by rewrite Ea; apply wf_or_new.
Qed.

Lemma anchor_fence_keeps l :
  wf_lease l -> keeps_epoch l (lease_with_anchor_fence l)
  /\ v3_anchor_state_from_lease_optional (lease_with_anchor_fence l) = v3_anchor_state_from_lease_optional l.
Proof.
  intros W. unfold lease_with_anchor_fence. split.
  - unfold keeps_epoch, lease_token, lease_renewal, parse_counter_annotation, wf_lease.
    rewrite !annotation_with. lookup. rewrite !annotation_or_new.
    split_and!; try done. cbn [annotations metadata with_annotations]. auto with annotations.
  - refine (anchor_insert_other l ANCHOR_FENCE_ANNOTATION _ _ _ (spec l)); [not_anchor|done].
Qed.

Lemma anchor_state_keeps l st : wf_lease l -> keeps_epoch l (v3_lease_with_state l st).
Proof.
  intros W. unfold keeps_epoch, lease_token, lease_renewal, parse_counter_annotation.
  split_and!; try done; [| |by apply wf_anchor_lease];
    unfold v3_lease_with_state; rewrite annotation_with; lookup; by rewrite annotation_or_new.
Qed.
End LeaseFacts.

Section ReadBack.
Context `{PrimitivesLaws}.

Lemma transpose_names kind o :
  wf_opt_name o -> transpose (fun v => from_type (validate_non_empty kind v)) o = Ok o.
Proof. destruct o as [t|]; [|done]. intros W. simpl. unfold from_type. by rewrite validate_non_empty_ok. Qed.

Lemma hex_digest_encode d : length d = 32%nat -> hex_digest (hex_encode d) = Ok d.
Proof. intros L. unfold hex_digest. rewrite hex_decode_encode. cbn. unfold len. by rewrite L. Qed.

Lemma with_state_v2 l st :
  has_v2_annotation (annotations_or_new (v3_lease_with_state l st)) = has_v2_annotation (annotations_or_new l).
Proof.
  unfold v3_lease_with_state. cbn [annotations_or_new annotations metadata with_annotations].
  repeat first [rewrite has_v2_insert by done|rewrite has_v2_optional by done]. done.
Qed.

Lemma anchor_read_back l st :
  wf_lease l -> wf_anchor st -> has_v2_annotation (annotations_or_new l) = false ->
  v3_anchor_state_from_lease (v3_lease_with_state l st) = Ok st.
Proof.
  intros W (Us & Wk & Ld & Wv & Wi & Ug & Nd & Wo & Wfv) V. rewrite <- (with_state_v2 l st) in V.
  unfold v3_anchor_state_from_lease, v3_annotation, v3_lease_with_state in *.
  cbn [annotations_or_new annotations metadata with_annotations] in V |- *. cbn [ok_or rbind]. rewrite V.
  lookup. cbn [ok_or rbind].
  rewrite bool_decide_eq_true_2 by done. cbn [negb orb reject_if rbind].
  rewrite !u64_from_to_string by done. cbn [ok_or rbind].
  rewrite hex_digest_encode by done.
  unfold BackendObjectId_new, BackendVersionId_new, KeyId_new.
  rewrite !(from_type_name (new := validate_non_empty _) _ eq_refl) by done. cbn [rbind].
  rewrite !transpose_names by done. cbn [rbind].
  rewrite bool_decide_eq_false_2 by done. by destruct st as [? ? ? ? ? []].
Qed.

Lemma anchor_read_back_optional l st :
  wf_lease l -> wf_anchor st -> has_v2_annotation (annotations_or_new l) = false ->
  v3_anchor_state_from_lease_optional (v3_lease_with_state l st) = Ok (Some st).
Proof.
  intros W Wa V. pose proof (anchor_read_back l st W Wa V) as R. rewrite <- (with_state_v2 l st) in V.
  assert (annotation (v3_lease_with_state l st) REPOSITORY_FORMAT_ANNOTATION = Some (u64_to_string V3_FORMAT_VERSION)) as F.
  { unfold v3_lease_with_state. rewrite annotation_with. by lookup. }
  unfold v3_anchor_state_from_lease_optional, annotation, annotations_or_new in *.
  destruct (annotations (metadata (v3_lease_with_state l st))); [|done]. rewrite V, R. cbn [reject_if rbind].
  unfold ANCHOR_ANNOTATIONS. cbn [existsb]. by rewrite F.
Qed.

Lemma anchor_readable_v2 l cur :
  v3_anchor_state_from_lease_optional l = Ok cur -> has_v2_annotation (annotations_or_new l) = false.
Proof.
  unfold v3_anchor_state_from_lease_optional, annotations_or_new. destruct (annotations (metadata l)); [|done].
  intros R. by inv_bind.
Qed.
End ReadBack.
