(* ===== verification/LeaseProtocol.v ===== *)
(** * Writers sharing a Lease

    Any number of processes run the operations of the writer lease and of the
    anchor against one API server.  A step runs one call, critical section or
    clock reading of one thread, so every interleaving is covered.  Each thread
    is shown to write only what its own reads and its own epochs allow ([wp]);
    by the compare-and-swap of the server the versions of the object then form
    a chain of allowed updates. *)

From stdpp Require Import relations functions.
From S2P Require Import Prelude Ord Text Types External V3Wire Commit Format Anchor LeaseApi LeaseGuard LeaseAnchor LeaseFacts.
Open Scope Z_scope.
Import V3.

(** ** Processes *)

Inductive Operation : Type :=
| OpAcquire (wall_time : Z)
| OpAcquireWaiting (turns : nat) (wall_time : Z)
| OpAcquireUnlessLive (turns : nat) (wall_time : Z)
| OpRenew (wall_time : Z)
| OpRelease (wall_time : Z)
| OpAdvance (fence : option WriterFence) (expected : option V3AnchorState) (next : V3AnchorState)
| OpFenceAndRead (fence : option WriterFence)
| OpRead
| OpVerify (fence : WriterFence).

Inductive Outcome : Type :=
| Acquired (r : option (LR LeaseGuardState))
| Renewed (r : LR LeaseGuardState)
| Released (r : LR unit)
| Advanced (r : V3Result V3AnchorState)
| FencedRead (r : V3Result (option V3AnchorState))
| AnchorRead (r : V3Result (option V3AnchorState))
| Verified (r : V3Result unit).

(** The object, newest version first, with the process that wrote each
    version; what the mutexes of each process protect; the time; the running
    operations. *)
Record World : Type := {
  log : list (nat * Lease);
  states : nat -> GuardState;
  time : Z;
  threads : list (nat * prog GuardState Outcome)
}.

Definition versions (w : World) : list Lease := map snd (log w).

Definition set_thread (i : nat) (t : nat * prog GuardState Outcome) (w : World) : World :=
  {| log := log w; states := states w; time := time w; threads := <[i:=t]> (threads w) |}.

Definition set_log (l : list (nat * Lease)) (w : World) : World :=
  {| log := l; states := states w; time := time w; threads := threads w |}.

Definition set_state (g : nat) (s : GuardState) (w : World) : World :=
  {| log := log w; states := <[g:=s]> (states w); time := time w; threads := threads w |}.

(** The log after a request of [g] left the versions [vs]. *)
Definition logged (g : nat) (old new : list (nat * Lease)) (vs : list Lease) : Prop :=
  map snd new = vs /\ (new = old \/ exists l, new = (g, l) :: old).

Section Protocol.
Context `{Primitives}.

(** The guard of each process, and the time its clock was started. *)
Context (guard : nat -> LeaseGuard) (origin : nat -> Z).

Definition start (g : nat) (op : Operation) : prog GuardState Outcome :=
  match op with
  | OpAcquire wall => pbind (try_acquire (guard g) wall) (fun r => Ret (Acquired (Some r)))
  | OpAcquireWaiting turns wall => pbind (acquire turns (guard g) wall) (fun r => Ret (Acquired r))
  | OpAcquireUnlessLive turns wall =>
      pbind (acquire_unless_live_writer turns (guard g) wall) (fun r => Ret (Acquired r))
  | OpRenew wall => pbind (renew (guard g) wall) (fun r => Ret (Renewed r))
  | OpRelease wall => pbind (release_at (guard g) wall) (fun r => Ret (Released r))
  | OpAdvance fence expected next =>
      pbind (compare_and_advance_lease (settings (guard g)) fence expected next) (fun r => Ret (Advanced r))
  | OpFenceAndRead fence => pbind (fence_and_read_lease fence) (fun r => Ret (FencedRead r))
  | OpRead => pbind read_v3 (fun r => Ret (AnchorRead r))
  | OpVerify fence => pbind (verify_v3_maintenance fence) (fun r => Ret (Verified r))
  end.

Definition wf_operation (op : Operation) : Prop :=
  match op with
  | OpAdvance _ _ next => wf_anchor next
  | _ => True
  end.

Inductive step `{LeaseApi} : World -> World -> Prop :=
| step_tick w d :
    0 <= d ->
    step w {| log := log w; states := states w; time := time w + d; threads := threads w |}
| step_spawn w g op :
    wf_operation op ->
    step w {| log := log w; states := states w; time := time w; threads := threads w ++ [(g, start g op)] |}
| step_get w i g k r :
    threads w !! i = Some (g, GetLease k) -> get_step (versions w) r ->
    step w (set_thread i (g, k r) w)
| step_create w i g l k vs r new :
    threads w !! i = Some (g, CreateLease l k) -> create_step (versions w) l vs r -> logged g (log w) new vs ->
    step w (set_thread i (g, k r) (set_log new w))
| step_replace w i g l k vs r new :
    threads w !! i = Some (g, ReplaceLease l k) -> replace_step (versions w) l vs r -> logged g (log w) new vs ->
    step w (set_thread i (g, k r) (set_log new w))
| step_locked w i g f k :
    threads w !! i = Some (g, Locked f k) ->
    step w (set_thread i (g, k (states w g)) (set_state g (f (states w g)) w))
| step_elapsed w i g k :
    threads w !! i = Some (g, Elapsed k) ->
    step w (set_thread i (g, k (time w - origin g)) w)
| step_wake w i g d k :
    threads w !! i = Some (g, Sleep d k) ->
    step w (set_thread i (g, k) w).

(** No process has run yet; the object may exist. *)
Definition initial (first : option Lease) (t : Z) : World :=
  {| log := match first with Some l => [(O, l)] | None => [] end;
     states := fun _ => GuardState_new; time := t; threads := [] |}.

Definition wf_first (first : option Lease) : Prop :=
  match first with
  | Some l => wf_lease l /\ resource_version (metadata l) <> None
  | None => True
  end.

(** ** Allowed updates *)

Definition holds (l : Lease) (c : WriterFenceClaim) : Prop :=
  lease_holder l = Some (claim_holder_identity c) /\ lease_token l = Ok (token c).

(** An update outside of the coordination, or under one of the epochs. *)
Definition fenced (known : list WriterFenceClaim) (l : Lease) : Prop :=
  lease_has_writer_coordination l = false \/ exists c, In c known /\ holds l c.

Definition advances (current : option V3AnchorState) (next : V3AnchorState) : Prop :=
  match current with
  | Some current => next = current \/ anchor_sequence current < anchor_sequence next
  | None => True
  end.

(** [writes g known gained base new]: process [g], which knows that it acquired
    the epochs [known], may replace [base] by [new]; it has then acquired the
    epochs [gained] as well. *)
Inductive writes (g : nat) (known : list WriterFenceClaim) (base new : Lease) : list WriterFenceClaim -> Prop :=
| writes_acquire t n c :
    lease_token base = Ok t -> lease_renewal base = Ok n ->
    c = {| claim_holder_identity := guard_holder_identity (guard g); token := t + 1 |} ->
    moves_epoch base new (Some (claim_holder_identity c)) (t + 1) (n + 1) ->
    writes g known base new [c]
| writes_renew c n :
    In c known -> holds base c -> lease_renewal base = Ok n ->
    moves_epoch base new (Some (claim_holder_identity c)) (token c) (n + 1) ->
    writes g known base new []
| writes_release c n :
    In c known -> holds base c -> lease_renewal base = Ok n ->
    moves_epoch base new None (token c) (n + 1) ->
    writes g known base new []
| writes_advance current next :
    fenced known base -> keeps_epoch base new ->
    v3_anchor_state_from_lease_optional base = Ok current -> advances current next ->
    v3_anchor_state_from_lease_optional new = Ok (Some next) ->
    writes g known base new []
| writes_fence :
    fenced known base -> keeps_epoch base new ->
    v3_anchor_state_from_lease_optional new = v3_anchor_state_from_lease_optional base ->
    writes g known base new [].

Inductive creates (g : nat) (new : Lease) : list WriterFenceClaim -> Prop :=
| creates_epoch c :
    c = {| claim_holder_identity := guard_holder_identity (guard g); token := 1 |} ->
    wf_lease new -> holds new c -> creates g new [c]
| creates_anchor : wf_lease new -> creates g new [].

(** ** What a thread knows *)

Record Knowledge : Type := {
  seen : list Lease;                   (* versions it has read *)
  stored : list Lease;                 (* versions its process has written *)
  epochs : list WriterFenceClaim       (* epochs its process acquired *)
}.

Definition see (l : Lease) (K : Knowledge) : Knowledge :=
  {| seen := l :: seen K; stored := stored K; epochs := epochs K |}.
Definition gain (cs : list WriterFenceClaim) (K : Knowledge) : Knowledge :=
  {| seen := seen K; stored := stored K; epochs := cs ++ epochs K |}.
Definition store (l : Lease) (cs : list WriterFenceClaim) (K : Knowledge) : Knowledge :=
  {| seen := seen K; stored := l :: stored K; epochs := cs ++ epochs K |}.

(** The claim in the local state is one the process acquired. *)
Definition state_claims (s : GuardState) : list WriterFenceClaim :=
  match claim (local_state s) with Some c => [c] | None => [] end.

(** [wp g K p Q]: run by a thread of [g] that knows [K], the program [p] makes
    only allowed updates, and [Q] holds of what it knows and returns at the
    end, whatever the other threads do. *)
Fixpoint wp {A} (g : nat) (K : Knowledge) (p : prog GuardState A) (Q : Knowledge -> A -> Prop) : Prop :=
  match p with
  | Ret a => Q K a
  | GetLease k =>
      (forall e, wp g K (k (Err e)) Q) /\ wp g K (k (Ok None)) Q
      /\ forall l, wf_lease l -> wp g (see l K) (k (Ok (Some l))) Q
  | CreateLease l k =>
      (forall e, wp g K (k (Err e)) Q)
      /\ exists gained, creates g l gained /\ forall v, wp g (store (with_version l v) gained K) (k (Ok (with_version l v))) Q
  | ReplaceLease l k =>
      (forall e, wp g K (k (Err e)) Q)
      /\ exists base gained, In base (seen K)
         /\ resource_version (metadata l) = resource_version (metadata base)
         /\ writes g (epochs K) base l gained
         /\ forall v, wp g (store (with_version l v) gained K) (k (Ok (with_version l v))) Q
  | Locked f k =>
      forall s, (forall c, In c (state_claims (f s)) -> In c (state_claims s ++ epochs K))
        /\ wp g (gain (state_claims s) K) (k s) Q
  | Elapsed k => forall t, wp g K (k t) Q
  | Sleep _ k => wp g K k Q
  end.

Lemma wp_mono {A} g K (p : prog GuardState A) (Q Q' : Knowledge -> A -> Prop) :
  (forall K a, Q K a -> Q' K a) -> wp g K p Q -> wp g K p Q'.
Proof.
  intros I. revert K. induction p as [a|k IH|l k IH|l k IH|f k IH|k IH|d k IH]; intros K; simpl.
  - apply I.
  - intros (E & N & S). split_and!; auto.
  - intros (E & gained & C & S). split; [auto|]. exists gained. auto.
  - intros (E & base & gained & ? & ? & ? & S). split; [auto|]. exists base, gained. auto.
  - intros L s. destruct (L s). auto.
  - auto.
  - auto.
Qed.

Lemma wp_bind {A B} g K (p : prog GuardState A) (h : A -> prog GuardState B) Q :
  wp g K p (fun K a => wp g K (h a) Q) -> wp g K (pbind p h) Q.
Proof.
  revert K. induction p as [a|k IH|l k IH|l k IH|f k IH|k IH|d k IH]; intros K; simpl.
  - done.
  - intros (E & N & S). split_and!; auto.
  - intros (E & gained & C & S). split; [auto|]. exists gained. auto.
  - intros (E & base & gained & ? & ? & ? & S). split; [auto|]. exists base, gained. auto.
  - intros L s. destruct (L s). auto.
  - auto.
  - auto.
Qed.

(** ** The operations make only allowed updates *)

(** [p] makes only allowed updates, and when it succeeds [P] holds. *)
Definition ends {E A} (g : nat) (K : Knowledge) (p : prog GuardState (result E A)) (P : Knowledge -> A -> Prop) : Prop :=
  wp g K p (fun K r => match r with Ok a => P K a | Err _ => True end).

Definition extends (K K' : Knowledge) : Prop := incl (seen K) (seen K') /\ incl (epochs K) (epochs K').

Lemma extends_gain K cs : extends K (gain cs K).
Proof. split; simpl; [apply incl_refl|by apply incl_appr, incl_refl]. Qed.

Lemma extends_trans K1 K2 K3 : extends K1 K2 -> extends K2 K3 -> extends K1 K3.
Proof. intros [] []. split; eapply incl_tran; eauto. Qed.

Lemma wp_try {A B E} g K (p : prog GuardState (result E A)) (h : A -> prog GuardState (result E B)) Q :
  wp g K p (fun K r => match r with Ok a => wp g K (h a) Q | Err e => Q K (Err e) end) ->
  wp g K (ptry p h) Q.
Proof. intros W. apply wp_bind. eapply wp_mono; [|exact W]. by intros K' []. Qed.

Lemma ends_try_pure {A B E} g K (r : result E A) (h : A -> prog GuardState (result E B)) P :
  (forall a, r = Ok a -> ends g K (h a) P) -> ends g K (ptry (Ret r) h) P.
Proof. intros S. apply wp_try. simpl. destruct r; [by apply S|done]. Qed.

Lemma ends_try_get {B} g K (h : option Lease -> LProg B) P :
  ends g K (h None) P -> (forall l, wf_lease l -> ends g (see l K) (h (Some l)) P) ->
  ends g K (ptry (GetLease Ret) h) P.
Proof. intros N S. apply wp_try. split_and!; [done|exact N|exact S]. Qed.

Lemma wp_deactivate {A} g K (p : prog GuardState A) Q :
  (forall cs, wp g (gain cs K) p Q) -> wp g K (deactivate p) Q.
Proof. intros S s. split; [intros c I; apply in_or_app; left; exact I|]. apply S. Qed.

(** The state returned by a success is that of an epoch of the process. *)
Definition owns (K : Knowledge) (s : LeaseGuardState) : Prop :=
  exists c, In c (epochs K) /\ state_holder_identity s = claim_holder_identity c /\ state_fence_token s = token c.

Lemma ends_record_success g K l c m : In c (epochs K) -> ends g K (record_success l c m) owns.
Proof.
  intros I. apply ends_try_pure. intros state _. case_if; [by apply wp_deactivate|]. b2p.
  intros s. split; [|intros s'; split; [|exists c; split; [simpl; rewrite !in_app_iff; auto|done]]].
  - intros c' [<-|[]]. apply in_or_app. auto.
  - intros c' I'. apply in_or_app. by left.
Qed.

Lemma wp_may_take_ownership g K current now (Q : Knowledge -> LR TakeoverDecision -> Prop) :
  (forall K' d, extends K K' -> Q K' (Ok d)) -> wp g K (may_take_ownership current now) Q.
Proof.
  intros S. unfold may_take_ownership. destruct (coordination_observation current) as [r|]; simpl.
  2:{ apply S. split; apply incl_refl. }
  intros s. split; [|apply S, extends_gain]. intros c I. apply in_or_app. left.
  unfold observe, state_claims in *. destruct (observation s) as [prev|]; [|exact I].
  destruct (negb _); [exact I|]. by destruct (_ >=? _).
Qed.

Lemma ends_acquire g attempts K w m : ends g K (acquire_attempts attempts (guard g) w m) owns.
Proof.
  revert K. induction attempts as [|attempts IH]; intros K; cbn [acquire_attempts]; [done|].
  apply ends_try_get.
  - apply ends_try_pure. intros l L. split.
    { intros e. destruct e; try done. apply IH. }
    exists [{| claim_holder_identity := guard_holder_identity (guard g); token := 1 |}]. split.
    + unfold new_guard_lease in L. pose proof L as L'. apply wf_guard_state in L'; [|done].
      apply guard_state_moves in L as (Hh & Ht & _); [|unfold is_u64; simpl; lia..]. by eapply creates_epoch.
    + intros v. apply ends_record_success. by left.
  - intros l Wl. apply ends_try_pure. intros current C. apply coordination_Ok in C as (Ct & Cn & Ch).
    apply wp_try, wp_may_take_ownership. intros K' d [Es _]. destruct d; try done.
    apply ends_try_pure. intros t T. apply ends_try_pure. intros n N. apply ends_try_pure. intros l' L.
    unfold ok_or in T, N. destruct (checked_add (fence_token _) _) eqn:T'; [|done].
    destruct (checked_add (renewal _) _) eqn:N'; [|done].
    inv_bind. apply checked_add_Some in T' as [-> T'], N' as [-> N'].
    apply counter_range in Ct as Ut. apply counter_range in Cn as Un. unfold is_u64 in *.
    apply guard_state_moves in L as M; [|unfold is_u64; simpl; lia..]. split.
    { intros e. destruct e; try done. apply IH. }
    exists l, [{| claim_holder_identity := guard_holder_identity (guard g); token := fence_token current + 1 |}].
    split_and!; [apply Es; by left|apply M|by eapply writes_acquire|].
    intros v. apply ends_record_success. by left.
Qed.

(** The claim read under the lock is one the process acquired. *)
Lemma wp_current_claim g K (Q : Knowledge -> LR WriterFenceClaim -> Prop) :
  (forall K' c, extends K K' -> In c (epochs K') -> Q K' (Ok c)) ->
  (forall K', Q K' (Err LostLease)) -> wp g K current_claim Q.
Proof.
  intros S E s. split; [intros c I; apply in_or_app; by left|]. simpl. unfold active_claim.
  destruct (active (local_state s)); [|apply E]. destruct (claim (local_state s)) as [c|] eqn:C; [|apply E].
  apply S; [apply extends_gain|]. simpl. unfold state_claims. rewrite C. by left.
Qed.

Lemma ends_renew_attempts g attempts K c w m :
  In c (epochs K) -> ends g K (renew_attempts attempts (guard g) c w m) owns.
Proof.
  revert K. induction attempts as [|attempts IH]; intros K I; cbn [renew_attempts]; [done|].
  apply ends_try_get; [by apply wp_deactivate|].
  intros l Wl. apply ends_try_pure. intros current C. apply coordination_Ok in C as (Ct & Cn & Ch).
  case_if; [by apply wp_deactivate|]. b2p.
  apply ends_try_pure. intros n N. apply ends_try_pure. intros l' L. inv_bind.
  match goal with A : checked_add _ _ = Some _ |- _ => apply checked_add_Some in A as [-> A] end.
  apply counter_range in Ct as Ut. apply counter_range in Cn as Un. unfold is_u64 in *.
  apply guard_state_moves in L as M; [|unfold is_u64 in *; simpl; lia..]. split.
  { intros e. destruct e; try done. by apply IH. }
  exists l, []. split_and!; [by left|apply M| |].
  - eapply writes_renew; [exact I| |exact Cn|exact M]. split; congruence.
  - intros v. by apply ends_record_success.
Qed.

Definition released (K : Knowledge) (_ : unit) : Prop := exists v, In v (stored K) /\ lease_holder v = None.

Lemma ends_release_attempts g attempts K c w :
  In c (epochs K) -> ends g K (release_attempts attempts (guard g) c w) released.
Proof.
  revert K. induction attempts as [|attempts IH]; intros K I; cbn [release_attempts]; [done|].
  apply ends_try_get; [by apply wp_deactivate|].
  intros l Wl. apply ends_try_pure. intros holds_ Hd. case_if; [by apply wp_deactivate|].
  apply ends_try_pure. intros current C. apply coordination_Ok in C as (Ct & Cn & Ch).
  apply ends_try_pure. intros n N. apply ends_try_pure. intros l' L. unfold lease_holds_claim in Hd. inv_bind. b2p.
  match goal with A : checked_add _ _ = Some _ |- _ => apply checked_add_Some in A as [-> A] end.
  match goal with A : lease_coordination_state l (from_secs 1) = Ok _ |- _ => apply coordination_Ok in A as (At & _ & Ah) end.
  apply counter_range in Cn as Un. unfold is_u64 in *.
  apply (released_moves l (token c)) in L as M; [|congruence|unfold is_u64; lia]. split.
  { intros e. destruct e; try done. by apply IH. }
  exists l, []. split_and!; [by left|apply M| |].
  - eapply writes_release; [exact I| |exact Cn|exact M]. split; congruence.
  - intros v. apply wp_deactivate. intros cs. exists (with_version l' v). split; [by left|apply M].
Qed.

Lemma holds_claim_true l c : lease_holds_claim l c = Ok true -> holds l c.
Proof.
  unfold lease_holds_claim. intros E. destruct (lease_coordination_state l (from_secs 1)) as [cur|] eqn:C; [|done].
  apply coordination_Ok in C as (T & _ & Hh). simpl in E. injection E as E. b2p. split; congruence.
Qed.

Lemma wp_live_claim g K fence (Q : Knowledge -> option WriterFenceClaim -> Prop) :
  (forall K', extends K K' -> Q K' None) ->
  (forall K' c, extends K K' -> In c (epochs K') -> Q K' (Some c)) ->
  wp g K (live_claim fence) Q.
Proof.
  intros N S t s. split; [intros c I; apply in_or_app; by left|]. cbn [wp]. unfold live_claim_at.
  pose proof (extends_gain K (state_claims s)) as X. case_if; [auto|]. b2p.
  destruct (last_success _); [|auto]. case_if; [auto|]. apply S; [done|]. simpl. unfold state_claims.
  match goal with C : claim _ = Some _ |- _ => rewrite C end. by left.
Qed.

Lemma wp_validate_writer_fence g K l fence (Q : Knowledge -> V3Result unit -> Prop) :
  (forall K' e, Q K' (Err e)) ->
  (forall K', extends K K' -> fenced (epochs K') l -> Q K' (Ok tt)) ->
  wp g K (validate_writer_fence l fence) Q.
Proof.
  intros E S. destruct fence as [fence|]; cbn [validate_writer_fence].
  - apply wp_bind, wp_live_claim; intros K'; [intros X; apply E|]. intros c X I.
    apply wp_try. cbn [wp ok_or]. apply wp_try. cbn [wp].
    destruct (lease_holds_claim l c) as [holds_|] eqn:Hc; cbn [map_err]; [|apply E].
    destruct holds_; cbn [wp negb reject_if]; [|apply E]. apply S; [done|]. right. eauto using holds_claim_true.
  - cbn [wp]. destruct (lease_has_writer_coordination l) eqn:C; [apply E|]. apply S; [split; apply incl_refl|by left].
Qed.

Lemma wp_anchor_advance g K l st fence (Q : Knowledge -> V3Result Lease -> Prop) :
  (forall K' e, Q K' (Err e)) ->
  (forall K', extends K K' -> fenced (epochs K') l -> Q K' (Ok (v3_lease_with_state l st))) ->
  wp g K (v3_lease_for_anchor_advance l st fence) Q.
Proof.
  intros E S. apply wp_try, wp_validate_writer_fence; [by intros|]. intros K1 X1 F1.
  destruct fence as [fence|]; [|by apply S]. apply wp_bind, wp_live_claim.
  { intros K2 _. apply wp_try. apply E. }
  intros K2 c X2 I. apply wp_try. cbn [wp ok_or]. unfold v3_lease_with_claim.
  destruct (lease_holds_claim l c) as [[]|] eqn:Hc; cbn [map_err rbind negb reject_if]; [|apply E|apply E].
  apply S; [by eapply extends_trans|]. right. eauto using holds_claim_true.
Qed.

(** The anchor returned is the one in a version the process has written. *)
Definition settled (K : Knowledge) (r : option V3AnchorState) : Prop :=
  forall st, r = Some st -> exists v, In v (stored K) /\ v3_anchor_state_from_lease_optional v = Ok (Some st).

Lemma ends_fence_and_read g attempts K fence : ends g K (fence_and_read_attempts attempts fence) settled.
Proof.
  revert K. induction attempts as [|attempts IH]; intros K; cbn [fence_and_read_attempts]; [done|].
  split_and!; [done..|]. intros l Wl. apply wp_try, wp_validate_writer_fence; [done|]. intros K' [X _] F. split.
  { intros e. destruct e; try done. apply IH. }
  destruct (anchor_fence_keeps l Wl) as [Kp Ka]. exists l, []. split_and!; [apply X; by left|apply Kp| |].
  - by apply writes_fence.
  - intros v. cbn [wp]. destruct (v3_anchor_state_from_lease_optional (with_version _ v)) as [r|] eqn:R; [|done].
    intros st ->. exists (with_version (lease_with_anchor_fence l) v). split; [by left|done].
Qed.

Definition advanced (next : V3AnchorState) (K : Knowledge) (st : V3AnchorState) : Prop :=
  st = next /\ exists v, In v (stored K) /\ v3_anchor_state_from_lease_optional v = Ok (Some next).

Lemma ends_advance `{!PrimitivesLaws} g attempts K name fence expected next :
  wf_anchor next ->
  ends g K (compare_and_advance_attempts attempts name fence expected next) (advanced next).
Proof.
  intros Wa.
  assert (forall l v K, wf_lease l -> has_v2_annotation (annotations_or_new l) = false ->
    ends g (store (with_version (v3_lease_with_state l next) v) [] K)
      (Ret (v3_anchor_state_from_lease (with_version (v3_lease_with_state l next) v))) (advanced next)) as Done.
  { intros l v K0 Wl V. unfold ends. cbn [wp].
    change (v3_anchor_state_from_lease (with_version ?x v)) with (v3_anchor_state_from_lease x).
    rewrite anchor_read_back by done. split; [done|]. exists (with_version (v3_lease_with_state l next) v).
    split; [by left|].
    change (v3_anchor_state_from_lease_optional (with_version ?x v)) with (v3_anchor_state_from_lease_optional x).
    by apply anchor_read_back_optional. }
  revert K. induction attempts as [|attempts IH]; intros K; cbn [compare_and_advance_attempts]; [done|].
  split_and!; [done| |].
  - destruct expected, fence; try done. split.
    { intros e. destruct e; try done. apply IH. }
    exists []. split; [|intros v; by apply Done]. apply creates_anchor. by apply wf_anchor_lease.
  - intros l Wl. apply ends_try_pure. intros current C. case_if; [done|]. case_if; [done|]. b2p.
    apply wp_try, wp_anchor_advance; [done|]. intros K' [X _] F. split.
    { intros e. destruct e; try done. apply IH. }
    pose proof (anchor_state_keeps l next Wl) as Kp. apply anchor_readable_v2 in C as V.
    exists l, []. split_and!; [apply X; by left|apply Kp| |intros v; by apply Done].
    eapply (writes_advance _ _ _ _ current next); [done|done|done| |].
    + destruct current as [current|]; [|done]. simpl. destruct (bool_decide (next = current)) eqn:N; b2p; [by left|right].
      match goal with L : (_ && _) = false |- _ => apply andb_false_iff in L as [L|L] end; [done|]. b2p. lia.
    + by apply anchor_read_back_optional.
Qed.

(** ** What an outcome says of the log *)

Definition truthful (K : Knowledge) (o : Outcome) : Prop :=
  match o with
  | Acquired (Some (Ok s)) | Renewed (Ok s) => owns K s
  | Released (Ok r) => released K r
  | Advanced (Ok st) => advanced st K st
  | FencedRead (Ok r) => settled K r
  | AnchorRead (Ok r) =>
      forall st, r = Some st -> exists v, In v (seen K) /\ v3_anchor_state_from_lease_optional v = Ok (Some st)
  | _ => True
  end.

Lemma wp_acquire g turns K w : wp g K (acquire turns (guard g) w) (fun K r => truthful K (Acquired r)).
Proof.
  revert K. induction turns as [|turns IH]; intros K; cbn [acquire]; [done|].
  apply wp_bind. intros t. eapply wp_mono; [|apply ends_acquire]. intros K' r O.
  destruct r as [s|[]]; try done; apply IH.
Qed.

Lemma wp_acquire_unless_live g turns K w :
  wp g K (acquire_unless_live_writer turns (guard g) w) (fun K r => truthful K (Acquired r)).
Proof.
  revert K. induction turns as [|turns IH]; intros K; cbn [acquire_unless_live_writer]; [done|].
  apply wp_bind. intros t. eapply wp_mono; [|apply ends_acquire]. intros K' r O.
  destruct r as [s|[]]; try done. apply IH.
Qed.

Lemma wp_start `{!PrimitivesLaws} g K op : wf_operation op -> wp g K (start g op) truthful.
Proof.
  intros W. destruct op; cbn [start]; apply wp_bind.
  - intros t. eapply wp_mono; [|apply ends_acquire]. intros K' []; [|done]. done.
  - apply wp_acquire.
  - apply wp_acquire_unless_live.
  - intros t. apply wp_try, wp_current_claim; [|done]. intros K' c X I.
    eapply wp_mono; [|by apply ends_renew_attempts]. by intros ? [].
  - apply wp_try, wp_current_claim; [|done]. intros K' c X I.
    eapply wp_mono; [|by apply ends_release_attempts]. by intros ? [].
  - eapply wp_mono; [|by apply ends_advance]. intros K' [st|]; [|done]. intros [-> A]. by split.
  - eapply wp_mono; [|apply ends_fence_and_read]. by intros ? [].
  - split_and!; [done..|]. intros l Wl. cbn [wp truthful].
    destruct (v3_anchor_state_from_lease_optional l) as [r|] eqn:R; [|done]. intros st ->. exists l. split; [by left|done].
  - apply wp_bind, wp_live_claim; done.
Qed.
End Protocol.
