(* ===== verification/LeaseSafety.v ===== *)
(** * Safety of the writer lease and the anchor

    What holds in every state that any number of processes can reach: epochs
    are never shared, only the process that acquired an epoch writes in it, the
    anchor never goes back, and a write prepared from a version that has been
    replaced never lands. *)

From Stdlib Require Import Strings.String.
From stdpp Require Import relations functions.
From S2P Require Import Prelude Ord Text Types External V3Wire Commit Format Anchor LeaseApi.
From S2P Require Import LeaseGuard LeaseAnchor LeaseFacts LeaseProtocol.
Open Scope Z_scope.
Import V3.

Definition version_of (l : Lease) : option text := resource_version (metadata l).

(** Process [g] wrote the version that began the epoch [c]. *)
Definition acquired (log : list (nat * Lease)) (g : nat) (c : WriterFenceClaim) : Prop :=
  exists after v before, log = after ++ (g, v) :: before /\ holds v c
    /\ match before with
       | [] => True
       | (_, b) :: _ => exists t, lease_token b = Ok t /\ t < token c
       end.

Section Safety.
Context `{PrimitivesLaws} `{LeaseApiLaws} (guard : nat -> LeaseGuard) (origin : nat -> Z).

Definition allowed (log : list (nat * Lease)) (g : nat) (new : Lease) : Prop :=
  match log with
  | [] => True
  | (_, base) :: _ =>
      exists known gained l, Forall (acquired log g) known /\ writes guard g known base l gained
        /\ stored_as (map snd log) l new
  end.

Fixpoint chain (log : list (nat * Lease)) : Prop :=
  match log with
  | [] => True
  | (g, new) :: log' => allowed log' g new /\ chain log'
  end.

(** What a thread of [g] knows is true of the log. *)
Record knows (log : list (nat * Lease)) (g : nat) (K : Knowledge) : Prop := {
  knows_seen : Forall (fun l => In l (map snd log)) (seen K);
  knows_stored : Forall (fun l => In (g, l) log) (stored K);
  knows_epochs : Forall (acquired log g) (epochs K)
}.

Record Inv (w : World) : Prop := {
  inv_wf : Forall wf_lease (versions w);
  inv_version : Forall (fun l => version_of l <> None) (versions w);
  inv_fresh : NoDup (map version_of (versions w));
  inv_chain : chain (log w);
  inv_states : forall g c, claim (local_state (states w g)) = Some c -> acquired (log w) g c;
  inv_threads : Forall (fun t => exists K, knows (log w) t.1 K /\ wp guard t.1 K t.2 truthful) (threads w)
}.

(** ** Preservation *)

Lemma acquired_cons e log g c : acquired log g c -> acquired (e :: log) g c.
Proof. intros (after & v & before & -> & Hv & B). by exists (e :: after), v, before. Qed.

Lemma knows_cons e log g K : knows log g K -> knows (e :: log) g K.
Proof.
  intros [S T E]. split; (eapply List.Forall_impl; [|eassumption]); [by right|by right|].
  intros c. apply acquired_cons.
Qed.

Lemma knows_see log g l K : In l (map snd log) -> knows log g K -> knows log g (see l K).
Proof. intros I [S T E]. by split; [constructor|..]. Qed.

Lemma knows_gain log g cs K : Forall (acquired log g) cs -> knows log g K -> knows log g (gain cs K).
Proof. intros I [S T E]. split; [done|done|by apply Forall_app]. Qed.

Lemma inv_set_thread w i g p K : Inv w -> knows (log w) g K -> wp guard g K p truthful -> Inv (set_thread i (g, p) w).
Proof. intros [] S P. constructor; try done. cbn [threads set_thread]. apply Forall_insert; [done|]. by exists K. Qed.

Lemma inv_write w g l v :
  Inv w -> allowed (log w) g (with_version l v) -> wf_lease l ->
  ~ In (Some v) (map version_of (versions w)) ->
  Inv (set_log ((g, with_version l v) :: log w) w).
Proof.
  intros [Wf Ve Fr Ch St Th] A Wl F. constructor; cbn [log versions set_log states threads map snd].
  - by constructor.
  - by constructor.
  - constructor; [by rewrite list_elem_of_In|done].
  - by split.
  - intros. by apply acquired_cons, St.
  - eapply List.Forall_impl; [|exact Th]. intros t (K & Kn & P). exists K. split; [by apply knows_cons|done].
Qed.

Lemma writes_wf g known base l gained : wf_lease base -> writes guard g known base l gained -> wf_lease l.
Proof.
  intros W Wr. destruct Wr; match goal with
  | M : moves_epoch _ _ _ _ _ |- _ => by apply M
  | M : keeps_epoch _ _ |- _ => by apply M
  end.
Qed.

(** What a process gains by a write is acquired in the new log. *)
Lemma gained_acquired g known base l gained w v b rest :
  log w = (b, base) :: rest -> writes guard g known base l gained ->
  Forall (acquired ((g, with_version l v) :: log w) g) gained.
Proof.
  intros L Wr. destruct Wr as [t n c T N -> M| | | |]; try by constructor. constructor; [|done].
  exists [], (with_version l v), (log w). split; [done|]. split; [by split; apply M|]. rewrite L.
  exists t. simpl. split; [done|lia].
Qed.

(** Distinct resource versions identify the versions. *)
Lemma version_unique (vs : list Lease) a b :
  NoDup (map version_of vs) -> In a vs -> In b vs -> version_of a = version_of b -> a = b.
Proof.
  intros N Ia Ib E. apply list_elem_of_In, list_elem_of_lookup in Ia as [i Ia].
  apply list_elem_of_In, list_elem_of_lookup in Ib as [j Ib].
  assert (i = j) as ->; [|congruence]. change (map version_of vs) with (version_of <$> vs) in N.
  apply (NoDup_lookup _ i j (version_of a) N); rewrite list_lookup_fmap; [by rewrite Ia|]. rewrite Ib. simpl. congruence.
Qed.

Lemma inv_thread_at w i g p :
  Inv w -> threads w !! i = Some (g, p) -> exists K, knows (log w) g K /\ wp guard g K p truthful.
Proof. intros I T. exact (proj1 (Forall_lookup _ _) (inv_threads w I) i _ T). Qed.

Lemma step_get_inv w i g k r :
  Inv w -> threads w !! i = Some (g, GetLease k) -> get_step (versions w) r -> Inv (set_thread i (g, k r) w).
Proof.
  intros I T G. destruct (inv_thread_at w i g _ I T) as (K & Kn & Se & Sn & Ss).
  apply get_law in G as [->|[e ->]]; [|by apply (inv_set_thread w i g _ K)].
  destruct (versions w) as [|l vs] eqn:V; simpl; [by apply (inv_set_thread w i g _ K)|].
  assert (In l (versions w)) as Il by (rewrite V; by left).
  apply (inv_set_thread w i g _ (see l K)); [done|by apply knows_see|].
  apply Ss. pose proof (inv_wf w I) as F. rewrite Forall_forall in F. auto.
Qed.

(** By compare-and-swap a write replaces the version it was prepared from. *)
Lemma replaced_is_base w l base cur :
  Inv w -> In base (versions w) -> hd_error (versions w) = Some cur -> version_of l = version_of base ->
  version_of l = None \/ version_of l = version_of cur -> base = cur.
Proof.
  intros I Ib Hc Ev Cv. apply (version_unique (versions w)); [apply (inv_fresh w I)|done| |].
  - destruct (versions w); [done|]. injection Hc as ->. by left.
  - rewrite <- Ev. destruct Cv as [Cv|Cv]; [|done]. pose proof (inv_version w I) as Nn.
    rewrite Forall_forall in Nn. exfalso. apply (Nn base Ib). congruence.
Qed.

Lemma allowed_intro log b base rest g known gained l new :
  log = (b, base) :: rest -> Forall (acquired log g) known -> writes guard g known base l gained ->
  stored_as (map snd log) l new -> allowed log g new.
Proof. intros -> F Wr S. exists known, gained, l. done. Qed.

(** A request changes the log by the version it stored, or not at all. *)
Lemma logged_same g old new : logged g old new (map snd old) -> new = old.
Proof. intros [L [->|[x ->]]]; [done|]. apply (f_equal length) in L. simpl in L. rewrite !length_map in L. lia. Qed.

Lemma logged_cons g old new l : logged g old new (l :: map snd old) -> new = (g, l) :: old.
Proof.
  intros [L [->|[x ->]]]; [apply (f_equal length) in L; simpl in L; rewrite !length_map in L; lia|].
  simpl in L. by injection L as ->.
Qed.

(** The thread that stored a version goes on with what it gained. *)
Lemma inv_after_write w i g l v k r K gained :
  Inv (set_log ((g, with_version l v) :: log w) w) -> knows (log w) g K ->
  Forall (acquired ((g, with_version l v) :: log w) g) gained ->
  (forall e, wp guard g K (k (Err e)) truthful) ->
  (forall v, wp guard g (store (with_version l v) gained K) (k (Ok (with_version l v))) truthful) ->
  (r = Ok (with_version l v) \/ exists e, r = Err e /\ e <> Conflict) ->
  Inv (set_thread i (g, k r) (set_log ((g, with_version l v) :: log w) w)).
Proof.
  intros I Kn G Se Sv R. apply (knows_cons (g, with_version l v)) in Kn as Kc.
  destruct R as [->|(e & -> & _)]; [|by apply (inv_set_thread _ i g _ K)].
  apply (inv_set_thread _ i g _ (store (with_version l v) gained K)); [done| |apply Sv].
  destruct Kc as [S T E]. split; [done|by constructor; [left|]|by apply Forall_app].
Qed.

Lemma step_replace_inv w i g l k vs r new :
  Inv w -> threads w !! i = Some (g, ReplaceLease l k) -> replace_step (versions w) l vs r ->
  logged g (log w) new vs -> Inv (set_thread i (g, k r) (set_log new w)).
Proof.
  intros I T G Lg. destruct (inv_thread_at w i g _ I T) as (K & Kn & Se & base & gained & Ib & Ev & Wr & Sv).
  apply replace_law in G as [[-> [e ->]]|[(cur & Hc & Cv) (new_version & (v & Fv & ->) & -> & R)]].
  { apply logged_same in Lg as ->. by apply (inv_set_thread w i g _ K). }
  apply logged_cons in Lg as ->. pose proof (knows_seen _ _ _ Kn) as S. rewrite Forall_forall in S. apply S in Ib.
  pose proof (replaced_is_base w l base cur I Ib Hc Ev Cv) as <-.
  destruct (log w) as [|[b base'] rest] eqn:L; unfold versions in Hc; rewrite L in Hc; [done|].
  simpl in Hc. injection Hc as ->. rewrite <- L in *.
  assert (wf_lease l) as Wl.
  { eapply writes_wf; [|exact Wr]. pose proof (inv_wf w I) as F. rewrite Forall_forall in F. auto. }
  apply (inv_after_write w i g l v k r K gained); try done; [|by eapply gained_acquired].
  apply inv_write; [done| |done|done]. eapply allowed_intro; [exact L|apply Kn|exact Wr|]. by exists v.
Qed.

Lemma step_create_inv w i g l k vs r new :
  Inv w -> threads w !! i = Some (g, CreateLease l k) -> create_step (versions w) l vs r ->
  logged g (log w) new vs -> Inv (set_thread i (g, k r) (set_log new w)).
Proof.
  intros I T G Lg. destruct (inv_thread_at w i g _ I T) as (K & Kn & Se & gained & Cr & Sv).
  apply create_law in G as [[-> [e ->]]|[V (new_version & (v & Fv & ->) & -> & R)]].
  { apply logged_same in Lg as ->. by apply (inv_set_thread w i g _ K). }
  apply logged_cons in Lg as ->.
  assert (log w = []) as L by (unfold versions in V; by destruct (log w)).
  apply (inv_after_write w i g l v k r K gained); try done.
  - apply inv_write; [done|by rewrite L| |done]. by destruct Cr.
  - destruct Cr as [c -> Wl Hc|]; [|constructor]. constructor; [|constructor].
    exists [], (with_version l v), (log w). split; [done|]. split; [exact Hc|by rewrite L].
Qed.

Lemma step_locked_inv w i g f k :
  Inv w -> threads w !! i = Some (g, Locked f k) ->
  Inv (set_thread i (g, k (states w g)) (set_state g (f (states w g)) w)).
Proof.
  intros I T. destruct (inv_thread_at w i g _ I T) as (K & Kn & P). destruct (P (states w g)) as [Cl Sk].
  assert (Forall (acquired (log w) g) (state_claims (states w g))) as St.
  { unfold state_claims. destruct (claim _) as [c|] eqn:C; [|constructor]. constructor; [|constructor].
    by apply (inv_states w I). }
  apply (inv_set_thread _ i g _ (gain (state_claims (states w g)) K)); [|by apply knows_gain|done].
  destruct I as [Wf Ve Fr Ch Sc Th]. constructor; try done. intros g' c. cbn [states set_state log].
  destruct (decide (g' = g)) as [->|N]; [|rewrite fn_lookup_insert_ne by done; apply Sc].
  rewrite fn_lookup_insert. intros C. specialize (Cl c). unfold state_claims in Cl at 1. rewrite C in Cl.
  specialize (Cl (or_introl eq_refl)). apply (knows_gain _ _ _ _ St), knows_epochs in Kn.
  rewrite Forall_forall in Kn. by apply Kn.
Qed.

Lemma step_inv w w' : Inv w -> step guard origin w w' -> Inv w'.
Proof.
  intros I St. destruct St as [w d D|w g op W|w i g k r T G|w i g l k vs r new T G L|w i g l k vs r new T G L
    |w i g f k T|w i g k T|w i g d k T].
  - by destruct I.
  - destruct I as [Wf Ve Fr Ch Sc Th]. constructor; try done. cbn [threads]. apply Forall_app. split; [done|].
    constructor; [|constructor]. exists {| seen := []; stored := []; epochs := [] |}. split; [done|by apply wp_start].
  - by apply step_get_inv.
  - by eapply step_create_inv.
  - by eapply step_replace_inv.
  - by apply step_locked_inv.
  - destruct (inv_thread_at w i g _ I T) as (K & Kn & P). apply (inv_set_thread w i g _ K); [done..|apply P].
  - destruct (inv_thread_at w i g _ I T) as (K & Kn & P). by apply (inv_set_thread w i g _ K).
Qed.

Lemma initial_inv first t : wf_first first -> Inv (initial first t).
Proof.
  intros W. destruct first as [l|]; constructor; try done; simpl.
  - constructor; [apply W|constructor].
  - constructor; [apply W|constructor].
  - apply NoDup_singleton.
  - constructor.
Qed.

Lemma reachable_inv first t w : wf_first first -> rtc (step guard origin) (initial first t) w -> Inv w.
Proof.
  intros W R. apply initial_inv with (t := t) in W. revert W. induction R; [done|]. eauto using step_inv.
Qed.

(** ** The chain *)

(** Along an allowed update the token grows by an acquisition or the epoch
    stays with its holder until it is released. *)
Lemma allowed_token log g g' new base rest t :
  log = (g', base) :: rest -> allowed log g new -> lease_token base = Ok t ->
  exists t', lease_token new = Ok t' /\ t <= t'
    /\ (t = t' -> lease_holder new = lease_holder base \/ lease_holder new = None).
Proof.
  intros -> (known & gained & l & F & Wr & v & _ & ->) T.
  change (lease_token (with_version l v)) with (lease_token l).
  change (lease_holder (with_version l v)) with (lease_holder l).
  destruct Wr as [t0 n c T0 N E M|c n I Hc N M|c n I Hc N M|cur next Fe Kp|Fe Kp].
  - exists (t0 + 1). rewrite T in T0. inv_bind. split; [apply M|]. lia.
  - exists (token c). destruct M as (Mh & Mt & _), Hc as [Hh Ht]. rewrite T in Ht. inv_bind.
    split_and!; [done|lia|]. intros _. left. congruence.
  - exists (token c). destruct M as (Mh & Mt & _), Hc as [Hh Ht]. rewrite T in Ht. inv_bind.
    split_and!; [done|lia|]. auto.
  - exists t. rewrite (keeps_holder _ _ Kp). destruct Kp as (_ & Kt & _). rewrite Kt. split_and!; [done|lia|auto].
  - exists t. rewrite (keeps_holder _ _ Kp). destruct Kp as (_ & Kt & _). rewrite Kt. split_and!; [done|lia|auto].
Qed.

Lemma chain_app a b : chain (a ++ b) -> chain b.
Proof. induction a as [|[] a IH]; [done|]. intros [_ C]. auto. Qed.

(** Between any two versions. *)
Lemma chain_token after g2 v2 between g1 v1 before t1 :
  chain (after ++ (g2, v2) :: between ++ (g1, v1) :: before) -> lease_token v1 = Ok t1 ->
  exists t2, lease_token v2 = Ok t2 /\ t1 <= t2
    /\ (t1 = t2 -> lease_holder v2 = lease_holder v1 \/ lease_holder v2 = None).
Proof.
  intros C T. apply chain_app in C. revert g2 v2 C. induction between as [|[g v] between IH]; intros g2 v2 [A C].
  { by eapply allowed_token. }
  destruct (IH g v C) as (t & Tv & Le & Hh). simpl in A.
  destruct (allowed_token _ _ _ _ _ _ t eq_refl A Tv) as (t2 & T2 & Le2 & Hh2). exists t2. split_and!; [done|lia|].
  intros ->. assert (t = t2) as -> by lia. destruct (Hh2 eq_refl) as [E|E]; [rewrite E; auto|auto].
Qed.

(** The version that begins an epoch is older than no version of it. *)
Lemma acquired_later l a1 g1 v1 b1 a2 g2 v2 b2 c1 c2 :
  chain (a1 ++ (g1, v1) :: b1) -> a1 ++ (g1, v1) :: b1 = a2 ++ (g2, v2) :: b2 -> a1 = a2 ++ l ->
  holds v1 c1 -> holds v2 c2 -> token c1 = token c2 ->
  match b2 with [] => True | (_, b) :: _ => exists t, lease_token b = Ok t /\ t < token c2 end -> l = [].
Proof.
  intros C E -> Ho1 Ho2 T B. destruct l as [|e l]; [done|]. exfalso.
  rewrite <- app_assoc in E. apply app_inv_head in E. injection E as -> <-.
  rewrite <- app_assoc in C. apply chain_app in C. destruct Ho1 as [_ Ho1], Ho2 as [_ Ho2].
  destruct l as [|[g b] l]; simpl in B; destruct B as (t & Tb & L).
  - rewrite Ho1 in Tb. inv_bind. lia.
  - simpl in C. destruct C as [_ C].
    destruct (chain_token [] g b l g1 v1 b1 (token c1) C Ho1) as (t' & Tb' & Le & _). rewrite Tb in Tb'. inv_bind. lia.
Qed.

Lemma holds_inj l c1 c2 : holds l c1 -> holds l c2 -> c1 = c2.
Proof. destruct c1, c2. unfold holds. simpl. intros [] []. congruence. Qed.

Lemma acquired_unique log g1 g2 c1 c2 :
  chain log -> acquired log g1 c1 -> acquired log g2 c2 -> token c1 = token c2 -> g1 = g2 /\ c1 = c2.
Proof.
  intros C (a1 & v1 & b1 & E1 & Ho1 & B1) (a2 & v2 & b2 & E2 & Ho2 & B2) T.
  pose proof E2 as E. rewrite E1 in E. destruct (app_eq_app _ _ _ _ E) as [l [[Ea _]|[Ea _]]].
  - rewrite E1 in C. rewrite (acquired_later l a1 g1 v1 b1 a2 g2 v2 b2 c1 c2 C E Ea Ho1 Ho2 T B2), app_nil_r in Ea.
    subst a1. apply app_inv_head in E. injection E as -> -> _. split; [done|]. by eapply holds_inj.
  - rewrite E2 in C. symmetry in E, T.
    rewrite (acquired_later l a2 g2 v2 b2 a1 g1 v1 b1 c2 c1 C E Ea Ho2 Ho1 T B1), app_nil_r in Ea.
    subst a2. apply app_inv_head in E. injection E as -> -> _. split; [done|]. by eapply holds_inj.
Qed.

(** Along an allowed update the anchor stays or advances, and changes only
    without coordination or in an epoch of the writer. *)
Lemma allowed_anchor log g g' new base rest :
  log = (g', base) :: rest -> allowed log g new ->
  v3_anchor_state_from_lease_optional new = v3_anchor_state_from_lease_optional base
  \/ exists current next, v3_anchor_state_from_lease_optional base = Ok current
     /\ v3_anchor_state_from_lease_optional new = Ok (Some next) /\ advances current next
     /\ (lease_has_writer_coordination base = false
         \/ exists c, acquired log g c /\ holds base c /\ holds new c).
Proof.
  intros -> (known & gained & l & F & Wr & v & _ & ->).
  change (v3_anchor_state_from_lease_optional (with_version l v)) with (v3_anchor_state_from_lease_optional l).
  change (holds (with_version l v)) with (holds l).
  destruct Wr as [t n c T N E M|c n I Hc N M|c n I Hc N M|cur next Fe Kp Ab Ad An|Fe Kp An]; try (left; by apply M).
  - right. exists cur, next. split_and!; [done..|]. destruct Fe as [Fe|(c & I & Hc)]; [by left|right].
    exists c. rewrite Forall_forall in F. split_and!; [auto|done|]. destruct Hc as [Hh Ht]. split.
    + by rewrite (keeps_holder _ _ Kp).
    + destruct Kp as (_ & -> & _). done.
  - by left.
Qed.

Lemma chain_anchor after g2 v2 between g1 v1 before a1 :
  chain (after ++ (g2, v2) :: between ++ (g1, v1) :: before) ->
  v3_anchor_state_from_lease_optional v1 = Ok (Some a1) ->
  exists a2, v3_anchor_state_from_lease_optional v2 = Ok (Some a2) /\ advances (Some a1) a2.
Proof.
  intros C T. apply chain_app in C. revert g2 v2 C. induction between as [|[g v] between IH]; intros g2 v2 [A C].
  - destruct (allowed_anchor _ _ _ _ _ _ eq_refl A) as [E|(cur & next & E1 & E2 & Ad & _)].
    + rewrite E, T. exists a1. split; [done|by left].
    + rewrite T in E1. injection E1 as <-. eauto.
  - destruct (IH g v C) as (a & Av & Ad). simpl in A.
    destruct (allowed_anchor _ _ _ _ _ _ eq_refl A) as [E|(cur & next & E1 & E2 & Ad2 & _)].
    + rewrite E, Av. eauto.
    + rewrite Av in E1. injection E1 as <-. exists next. split; [done|]. simpl in *.
      destruct Ad as [->|], Ad2 as [->|]; auto; right; lia.
Qed.

Lemma step_log w w' : step guard origin w w' -> exists x, log w' = x ++ log w.
Proof.
  intros St. destruct St as [| | |w i g l k vs r new T G [_ [->|[x ->]]]|w i g l k vs r new T G [_ [->|[x ->]]]| | |];
    try (by exists []); by exists [(g, x)].
Qed.

Lemma steps_log w w' : rtc (step guard origin) w w' -> exists x, log w' = x ++ log w.
Proof.
  induction 1 as [w|w1 w2 w3 S _ [x ->]]; [by exists []|]. apply step_log in S as [y ->].
  exists (x ++ y). by rewrite app_assoc.
Qed.

(** A version that is no longer the newest cannot be replaced. *)
Lemma stale_refused w e rest base l vs r :
  Inv w -> log w = e :: rest -> In base (map snd rest) -> version_of l = version_of base ->
  replace_step (versions w) l vs r -> refused (versions w) vs r.
Proof.
  intros I L Ib Ev G. apply replace_law in G as [Rf|[(cur & Hc & Cv) _]]; [done|]. exfalso.
  assert (In base (versions w)) as Iw by (unfold versions; rewrite L; by right).
  pose proof (replaced_is_base w l base cur I Iw Hc Ev Cv) as ->. pose proof (inv_fresh w I) as N.
  unfold versions in N, Hc. rewrite L in N, Hc. simpl in Hc, N. injection Hc as Hc. rewrite Hc in N.
  apply list.NoDup_cons in N as [N _]. apply N. rewrite list_elem_of_In. by apply in_map.
Qed.
End Safety.

(** ** Properties *)

(** What the outcome of an operation of process [g] says of the log. *)
Definition outcome_true `{Primitives} (log : list (nat * Lease)) (g : nat) (o : Outcome) : Prop :=
  match o with
  | Acquired (Some (Ok s)) | Renewed (Ok s) =>
      acquired log g {| claim_holder_identity := state_holder_identity s; token := state_fence_token s |}
  | Released (Ok _) => exists v, In (g, v) log /\ lease_holder v = None
  | Advanced (Ok st) | FencedRead (Ok (Some st)) =>
      exists v, In (g, v) log /\ v3_anchor_state_from_lease_optional v = Ok (Some st)
  | AnchorRead (Ok (Some st)) =>
      exists g' v, In (g', v) log /\ v3_anchor_state_from_lease_optional v = Ok (Some st)
  | _ => True
  end.

Lemma knows_outcome `{Primitives} log g K o : knows log g K -> truthful K o -> outcome_true log g o.
Proof.
  intros [S T E]. rewrite Forall_forall in S, T, E.
  assert (forall s, owns K s ->
    acquired log g {| claim_holder_identity := state_holder_identity s; token := state_fence_token s |}) as Ow.
  { intros s ([] & I & Hh & Ht). rewrite Hh, Ht. by apply E. }
  destruct o as [[[s|]|]|[s|]|[u|]|[st|]|[[st|]|]|[[st|]|]|]; simpl; try done; auto.
  - intros (v & I & N). eauto.
  - intros (_ & v & I & A). eauto.
  - intros A. destruct (A st eq_refl) as (v & I & R). eauto.
  - intros A. destruct (A st eq_refl) as (v & I & R). apply S, in_map_iff in I as ([g' v'] & <- & I). eauto.
Qed.

Section LeaseProperties.
Context `{PrimitivesLaws} `{LeaseApiLaws} (guard : nat -> LeaseGuard) (origin : nat -> Z).

(** C4: Writer epochs are exclusive.  However the processes interleave and
    whichever replies are lost, the fence token of the Lease never decreases;
    while it stays the same the holder stays the same until it is released;
    and no two processes ever hold claims with the same token. *)
Theorem epochs_exclusive first t w :
  wf_first first -> rtc (step guard origin) (initial first t) w ->
  (forall after g2 v2 between g1 v1 before t1,
     log w = after ++ (g2, v2) :: between ++ (g1, v1) :: before -> lease_token v1 = Ok t1 ->
     exists t2, lease_token v2 = Ok t2 /\ t1 <= t2
       /\ (t1 = t2 -> lease_holder v2 = lease_holder v1 \/ lease_holder v2 = None))
  /\ forall g1 g2 c1 c2,
     claim (local_state (states w g1)) = Some c1 -> claim (local_state (states w g2)) = Some c2 ->
     token c1 = token c2 -> g1 = g2 /\ c1 = c2.
Proof.
  intros W R. pose proof (reachable_inv guard origin first t w W R) as I. split.
  - intros * L T. eapply (chain_token guard); [|exact T]. rewrite <- L. apply I.
  - intros g1 g2 c1 c2 C1 C2. eapply (acquired_unique guard); [apply I|by apply (inv_states guard w I)..].
Qed.

(** C10: A change of the anchor is fenced.  When a version of the Lease has
    another anchor than the version before it, the sequence has grown and the
    change was made either while no writer held the Lease, or by the process
    that acquired the epoch in force before and after the change; no other
    process ever acquired that epoch.  A process whose lease was taken over
    cannot move the anchor. *)
Theorem anchor_writes_fenced first t w after g new g' base before :
  wf_first first -> rtc (step guard origin) (initial first t) w ->
  log w = after ++ (g, new) :: (g', base) :: before ->
  v3_anchor_state_from_lease_optional new <> v3_anchor_state_from_lease_optional base ->
  exists current next, v3_anchor_state_from_lease_optional base = Ok current
    /\ v3_anchor_state_from_lease_optional new = Ok (Some next)
    /\ match current with Some c => anchor_sequence c < anchor_sequence next | None => True end
    /\ (lease_has_writer_coordination base = false
        \/ exists c, acquired (log w) g c /\ holds base c /\ holds new c
           /\ forall g2 c2, acquired (log w) g2 c2 -> token c2 = token c -> g2 = g).
Proof.
  intros W R L N. pose proof (inv_chain guard w (reachable_inv guard origin first t w W R)) as C.
  pose proof C as C'. rewrite L in C'. apply chain_app in C' as [A _].
  destruct (allowed_anchor guard _ _ _ _ _ _ eq_refl A) as [E|(cur & next & Eb & En & Ad & Fe)]; [done|].
  exists cur, next. split_and!; [done|done| |].
  - destruct cur as [cur|]; [|done]. destruct Ad as [->|Ad]; [|done]. congruence.
  - destruct Fe as [Fe|(c & Ac & Hb & Hn)]; [by left|right]. exists c.
    assert (acquired (log w) g c) as Aw.
    { rewrite L. clear - Ac. induction after as [|e after IH]; simpl; by apply acquired_cons. }
    split_and!; [done..|]. intros g2 c2 A2 T. by eapply (acquired_unique guard).
Qed.

(** C18: The anchor never goes back: a later version of the Lease carries the
    same anchor as an earlier one or an anchor with a larger sequence. *)
Theorem anchor_never_goes_back first t w after g2 v2 between g1 v1 before a1 :
  wf_first first -> rtc (step guard origin) (initial first t) w ->
  log w = after ++ (g2, v2) :: between ++ (g1, v1) :: before ->
  v3_anchor_state_from_lease_optional v1 = Ok (Some a1) ->
  exists a2, v3_anchor_state_from_lease_optional v2 = Ok (Some a2)
    /\ (a2 = a1 \/ anchor_sequence a1 < anchor_sequence a2).
Proof.
  intros W R L A. eapply (chain_anchor guard); [|exact A]. rewrite <- L.
  apply (inv_chain guard w (reachable_inv guard origin first t w W R)).
Qed.

(** C19: A superseded request never lands: once any version has been stored after
    a thread prepared a replacement, the server refuses that replacement.  So
    after the fencing write of [fence_and_read_lease], an earlier update whose
    reply was lost can no longer change what was read. *)
Theorem superseded_write_refused first t w i g l k w' :
  wf_first first -> rtc (step guard origin) (initial first t) w ->
  threads w !! i = Some (g, ReplaceLease l k) ->
  rtc (step guard origin) w w' -> log w' <> log w ->
  forall vs r, replace_step (versions w') l vs r -> vs = versions w' /\ exists e, r = Err e.
Proof.
  intros W R T S N vs r G. pose proof (reachable_inv guard origin first t w W R) as I.
  assert (Inv guard w') as I' by (eapply reachable_inv; [exact W|by etransitivity]).
  destruct (inv_thread_at guard w i g _ I T) as (K & Kn & _ & base & gained & Ib & Ev & _).
  pose proof (knows_seen _ _ _ Kn) as Se. rewrite Forall_forall in Se. apply Se in Ib.
  apply steps_log in S as [[|e x] L]; [done|].
  eapply (stale_refused guard w' e (x ++ log w) base); [done|done| |done|done].
  rewrite map_app. apply in_or_app. by right.
Qed.

(** C20: An operation reports only what happened: a successful acquisition or
    renewal names an epoch the process acquired, a release, an advance or a
    fenced read returns what is in a version the process stored, a read what
    is in some version. *)
Theorem outcomes_truthful first t w i g o :
  wf_first first -> rtc (step guard origin) (initial first t) w ->
  threads w !! i = Some (g, Ret o) -> outcome_true (log w) g o.
Proof.
  intros W R T. destruct (inv_thread_at guard w i g _ (reachable_inv guard origin first t w W R) T) as (K & Kn & P).
  by eapply knows_outcome.
Qed.
End LeaseProperties.
