(* ===== verification/LeaseSimulation.v ===== *)
(** * Running the writer lease

    An API server that answers every request, a scheduler that runs chosen
    interleavings against it, and two properties of runs: an abandoned lease is
    eventually taken over, and a takeover can come early. *)

From Stdlib Require Import Strings.String.
From stdpp Require Import relations functions.
From S2P Require Import Prelude Ord Text Types External V3Wire Commit Format Anchor LeaseApi.
From S2P Require Import LeaseGuard LeaseAnchor LeaseFacts LeaseProtocol LeaseSafety.
Open Scope Z_scope.
Import V3.

(** ** A cooperative server *)

Section Server.

(** A resource version that none of the versions has. *)
Definition version_length (l : Lease) : nat := match version_of l with Some v => length v | None => O end.
Definition fresh_version (vs : list Lease) : text := List.repeat x31 (S (list_max (map version_length vs))).

Definition serve_create (vs : list Lease) (l : Lease) : list Lease * result LeaseGuardError Lease :=
  match vs with
  | [] => let stored := with_version l (fresh_version vs) in (stored :: vs, Ok stored)
  | _ => (vs, Err Conflict)
  end.

Definition serve_replace (vs : list Lease) (l : Lease) : list Lease * result LeaseGuardError Lease :=
  match vs with
  | [] => (vs, Err Conflict)
  | current :: _ =>
      if bool_decide (version_of l = None) || bool_decide (version_of l = version_of current)
      then let stored := with_version l (fresh_version vs) in (stored :: vs, Ok stored)
      else (vs, Err Conflict)
  end.

#[export] Instance reference_api : LeaseApi := {|
  get_step vs r := r = Ok (hd_error vs);
  create_step vs l vs' r := (vs', r) = serve_create vs l;
  replace_step vs l vs' r := (vs', r) = serve_replace vs l
|}.

Lemma fresh_version_not_in vs : ~ In (Some (fresh_version vs)) (map version_of vs).
Proof.
  intros I. apply in_map_iff in I as (l & E & I).
  assert (version_length l <= list_max (map version_length vs))%nat as L.
  { pose proof (list_max_le (map version_length vs) (list_max (map version_length vs))) as [M _].
    specialize (M (le_n _)). rewrite Forall_forall in M. apply M, in_map, I. }
  unfold version_length in L at 1. rewrite E in L. unfold fresh_version in L. rewrite repeat_length in L. lia.
Qed.

#[export] Instance reference_api_laws : LeaseApiLaws.
Proof.
  split.
  - intros vs r ->. by left.
  - intros vs l vs' r E. destruct vs; injection E as -> ->; [right|left; split; eauto].
    split; [done|]. eexists. split; [eexists; split; [apply fresh_version_not_in|done]|]. auto.
  - intros vs l vs' r E. destruct vs as [|cur vs]; [injection E as -> ->; left; split; eauto|].
    cbn [replace_step reference_api serve_replace] in E. case_if_in E; injection E as -> ->; [right|left; split; eauto].
    split.
    + exists cur. split; [done|]. match goal with D : _ || _ = true |- _ => apply orb_true_iff in D as [D|D]; b2p end; auto.
    + eexists. split; [eexists; split; [apply fresh_version_not_in|done]|]. auto.
Qed.
End Server.

(** ** A scheduler *)

Inductive Action : Type :=
| Tick (d : Z)
| Spawn (g : nat) (op : Operation)
| Run (i : nat) (steps : nat).

Section Scheduler.
Context `{PrimitivesLaws} (guard : nat -> LeaseGuard) (origin : nat -> Z).

(** The log of [g] after the versions became [vs]. *)
Definition log_after (g : nat) (w : World) (vs : list Lease) : list (nat * Lease) :=
  match vs with
  | l :: vs' => if (length vs' =? length (log w))%nat then (g, l) :: log w else log w
  | [] => log w
  end.

(** One step of thread [i]. *)
Definition advance_thread (i : nat) (w : World) : World :=
  match threads w !! i with
  | Some (g, GetLease k) => set_thread i (g, k (Ok (hd_error (versions w)))) w
  | Some (g, CreateLease l k) =>
      let '(vs, r) := serve_create (versions w) l in set_thread i (g, k r) (set_log (log_after g w vs) w)
  | Some (g, ReplaceLease l k) =>
      let '(vs, r) := serve_replace (versions w) l in set_thread i (g, k r) (set_log (log_after g w vs) w)
  | Some (g, Locked f k) => set_thread i (g, k (states w g)) (set_state g (f (states w g)) w)
  | Some (g, Elapsed k) => set_thread i (g, k (time w - origin g)) w
  | Some (g, Sleep _ k) => set_thread i (g, k) w
  | Some (_, Ret _) | None => w
  end.

Definition act (w : World) (a : Action) : World :=
  match a with
  | Tick d => {| log := log w; states := states w; time := time w + Z.max 0 d; threads := threads w |}
  | Spawn g op =>
      {| log := log w; states := states w; time := time w; threads := threads w ++ [(g, start guard g op)] |}
  | Run i steps => Nat.iter steps (advance_thread i) w
  end.

Definition run (w : World) (schedule : list Action) : World := fold_left act schedule w.

Definition wf_action (a : Action) : Prop := match a with Spawn _ op => wf_operation op | _ => True end.

Lemma advance_thread_steps i w : rtc (step guard origin) w (advance_thread i w).
Proof.
  unfold advance_thread. destruct (threads w !! i) as [[g p]|] eqn:T; [|reflexivity]. destruct p as [a|k|l k|l k|f k|k|d k].
  - reflexivity.
  - apply rtc_once. by eapply step_get.
  - destruct (serve_create (versions w) l) as [vs r] eqn:E. apply rtc_once. eapply step_create; [done|by symmetry|].
    unfold serve_create, versions in E. unfold logged, log_after.
    destruct (log w) as [|e lg] eqn:L; simpl in E; injection E as <- <-; [split; [done|eauto]|].
    simpl. rewrite length_map. destruct (Nat.eqb_spec (length lg) (S (length lg))); [lia|]. split; [done|by left].
  - destruct (serve_replace (versions w) l) as [vs r] eqn:E. apply rtc_once. eapply step_replace; [done|by symmetry|].
    unfold serve_replace, versions in E. unfold logged, log_after.
    destruct (log w) as [|e lg] eqn:L; simpl in E; [by injection E as <- <-; split; [|left]|].
    case_if_in E; injection E as <- <-; simpl; rewrite length_map.
    + rewrite Nat.eqb_refl. split; [done|eauto].
    + destruct (Nat.eqb_spec (length lg) (S (length lg))); [lia|]. split; [done|by left].
  - apply rtc_once. by apply step_locked.
  - apply rtc_once. by apply step_elapsed.
  - apply rtc_once. by eapply step_wake.
Qed.

Lemma run_steps schedule w : Forall wf_action schedule -> rtc (step guard origin) w (run w schedule).
Proof.
  intros F. revert w. induction F as [|a schedule W F IH]; intros w; simpl; [reflexivity|].
  etransitivity; [|apply IH]. destruct a as [d|g op|i n]; simpl.
  - apply rtc_once, step_tick. lia.
  - by apply rtc_once, step_spawn.
  - induction n as [|n IHn]; simpl; [reflexivity|]. etransitivity; [exact (IHn I)|]. apply advance_thread_steps.
Qed.
End Scheduler.

(** The replacement a thread is about to request, and the outcome of a thread
    that has ended. *)
Definition pending (w : World) (i : nat) : option (nat * Lease) :=
  match threads w !! i with Some (g, ReplaceLease l _) => Some (g, l) | _ => None end.
Definition finished (w : World) (i : nat) : option (nat * Outcome) :=
  match threads w !! i with Some (g, Ret o) => Some (g, o) | _ => None end.

Lemma pending_Some w i g l : pending w i = Some (g, l) -> exists k, threads w !! i = Some (g, ReplaceLease l k).
Proof. unfold pending. destruct (threads w !! i) as [[? []]|]; naive_solver. Qed.

Lemma finished_Some w i g o : finished w i = Some (g, o) -> threads w !! i = Some (g, Ret o).
Proof. unfold finished. destruct (threads w !! i) as [[? []]|]; naive_solver. Qed.

(** ** Samples *)

Module LeaseSample.
Import Reference.

Definition lease_guard (holder : string) : LeaseGuard := {|
  settings := {| namespace := bytes_of_string "backup"; settings_name := bytes_of_string "anchor";
                 field_manager := bytes_of_string "rs3" |};
  guard_holder_identity := bytes_of_string holder;
  guard_lease_duration := from_secs 30
|}.

Definition guard (g : nat) : LeaseGuard := match g with O => lease_guard "pod-a" | _ => lease_guard "pod-b" end.
Definition origin (g : nat) : Z := 0.

Definition fence (g : nat) (t : Z) : WriterFence := {|
  fence_claim := {| claim_holder_identity := guard_holder_identity (guard g); token := t |};
  fence_lease_duration := from_secs 30
|}.

Definition anchor (sequence : Z) : V3AnchorState := {|
  anchor_sequence := sequence;
  anchor_commit_key := bytes_of_string "commits/v03/key";
  anchor_body_digest := List.repeat x05 32;
  anchor_version_id := None;
  anchor_signing_key_id := bytes_of_string "signing";
  anchor_format_ref := {| fr_generation := 1; fr_digest := bytes_of_string "digest";
                          fr_object_id := bytes_of_string "format/1"; fr_version_id := None |}
|}.

(** Process 0 acquires the lease and writes the anchor; process 1 begins to
    watch it; process 0 prepares another write and is held up. *)
Definition held_up : list Action := [
  Spawn 0 (OpAcquire 0); Run 0 20;
  Spawn 0 (OpAdvance (Some (fence 0 1)) None (anchor 1)); Run 1 20;
  Spawn 1 (OpAcquire 0); Run 2 20;
  Spawn 0 (OpAdvance (Some (fence 0 1)) (Some (anchor 1)) (anchor 2)); Run 3 5].

(** Process 1 takes over. *)
Definition take_over : list Action := [Tick (from_secs 30); Spawn 1 (OpAcquire 0); Run 4 20].

Definition before : World := run guard origin (initial None 0) held_up.
Definition after : World := run guard origin before take_over.

Lemma wf_sample_anchor s : is_u64 s -> wf_anchor (anchor s).
Proof. intros U. split; [exact U|]. split_and!; vm_compute; first [done|by split|discriminate]. Qed.

Lemma before_reachable : rtc (step guard origin) (initial None 0) before.
Proof.
  apply run_steps. repeat constructor; simpl; try done; apply wf_sample_anchor; unfold is_u64; lia.
Qed.

Lemma after_reachable : rtc (step guard origin) before after.
Proof. apply run_steps. by repeat constructor. Qed.

(** The versions it leaves, the newest first. *)
Definition after_log : list (nat * Lease) := Eval vm_compute in log after.
Definition taken : Lease := Eval vm_compute in snd (nth 0 after_log (O, with_version {| metadata := ObjectMeta_default; spec := None |} [])).
Definition anchored : Lease := Eval vm_compute in snd (nth 1 after_log (O, taken)).
Definition created : Lease := Eval vm_compute in snd (nth 2 after_log (O, taken)).

Lemma after_log_eq : log after = [(1%nat, taken); (0%nat, anchored); (0%nat, created)].
Proof. vm_compute. reflexivity. Qed.
End LeaseSample.

Import Reference LeaseSample.

Lemma after_initial : rtc (step guard origin) (initial None 0) after.
Proof. etransitivity; [exact before_reachable|exact after_reachable]. Qed.

Lemma epochs_exclusive_witness :
  exists c1 c2, claim (local_state (states after 0)) = Some c1 /\ claim (local_state (states after 1)) = Some c2
    /\ token c1 <> token c2.
Proof.
  eexists _, _. split; [vm_compute; reflexivity|]. split; [vm_compute; reflexivity|]. intros E.
  destruct (epochs_exclusive guard origin None 0 after I after_initial) as [_ X].
  destruct (X 0%nat 1%nat _ _ ltac:(vm_compute; reflexivity) ltac:(vm_compute; reflexivity) E) as [Y _]. discriminate Y.
Defined.

Lemma anchor_writes_fenced_witness :
  exists c, acquired (log after) 0 c /\ holds created c /\ holds anchored c.
Proof.
  destruct (anchor_writes_fenced guard origin None 0 after [(1%nat, taken)] 0 anchored 0 created [] I after_initial
              after_log_eq) as (cur & next & _ & _ & _ & [F|(c & A & Hb & Hn & _)]).
  - vm_compute. discriminate.
  - vm_compute in F. discriminate F.
  - exists c. split; [exact A|]. split; [exact Hb|exact Hn].
Defined.

Lemma anchor_never_goes_back_witness :
  exists a, v3_anchor_state_from_lease_optional taken = Ok (Some a) /\ (a = anchor 1 \/ 1 < anchor_sequence a).
Proof.
  apply (anchor_never_goes_back guard origin None 0 after [] 1 taken [] 0 anchored [(0%nat, created)] (anchor 1) I
           after_initial after_log_eq).
  vm_compute. reflexivity.
Defined.

Lemma superseded_write_refused_witness :
  exists l, pending before 3 = Some (0%nat, l)
    /\ forall vs r, replace_step (versions after) l vs r -> vs = versions after /\ exists e, r = Err e.
Proof.
  eexists. split; [vm_compute; reflexivity|].
  destruct (pending_Some before 3 0 _ ltac:(vm_compute; reflexivity)) as [k T].
  apply (superseded_write_refused guard origin None 0 before 3 0 _ k after I before_reachable T after_reachable).
  vm_compute. discriminate.
Defined.

Lemma outcomes_truthful_witness :
  exists s, finished after 4 = Some (1%nat, Acquired (Some (Ok s))) /\ state_fence_token s = 2
    /\ outcome_true (log after) 1 (Acquired (Some (Ok s))).
Proof.
  eexists. split; [vm_compute; reflexivity|]. split; [reflexivity|].
  apply (outcomes_truthful guard origin None 0 after 4 1 _ I after_initial).
  apply finished_Some. vm_compute. reflexivity.
Defined.

(** ** An early takeover *)

(** Process 0 acquires the lease.  Process 1 reads its clock at ten seconds and
    is held up; process 0 renews at twenty seconds; only then does process 1
    read the lease, and it dates what it saw to ten seconds. *)
Definition early_takeover : list Action := [
  Spawn 0 (OpAcquire 0); Run 0 20;
  Tick (from_secs 10); Spawn 1 (OpAcquire 0); Run 1 1;
  Tick (from_secs 10); Spawn 0 (OpRenew 0); Run 2 20;
  Run 1 20;
  Tick (from_secs 20); Spawn 1 (OpAcquire 0); Run 3 20].

Definition overlap : World := run guard origin (initial None 0) early_takeover.

(** C39: A takeover can come while the previous holder is live.  The observation
    of a competitor is dated by a clock reading taken before the lease was
    read, so a renewal between the two counts as older than it is: there is a
    run in which the lease is taken over twenty seconds after it was renewed
    for thirty, and the fences of both processes are then live. *)
Theorem takeover_may_overlap :
  rtc (step guard origin) (initial None 0) overlap
  /\ last_success (local_state (states overlap 0)) = Some (from_secs 20)
  /\ last_success (local_state (states overlap 1)) = Some (from_secs 40)
  /\ time overlap = from_secs 40
  /\ live_claim_at (fence 0 1) (states overlap 0) (time overlap - origin 0) = Some (fence_claim (fence 0 1))
  /\ live_claim_at (fence 1 2) (states overlap 1) (time overlap - origin 1) = Some (fence_claim (fence 1 2)).
Proof.
  split; [apply run_steps; by repeat constructor|]. split_and!; vm_compute; reflexivity.
Qed.

(** ** Taking over an abandoned lease *)

(** Runs a program while no other process writes.  Every request takes some
    time, [lag]; a sleep takes at least as long as asked. *)
Fixpoint alone {A} (lag : Z -> Z) (p : prog GuardState A) (vs : list Lease) (s : GuardState) (t : Z) :
    A * list Lease * GuardState * Z :=
  match p with
  | Ret a => (a, vs, s, t)
  | GetLease k => alone lag (k (Ok (hd_error vs))) vs s (lag t)
  | CreateLease l k => let '(vs', r) := serve_create vs l in alone lag (k r) vs' s (lag t)
  | ReplaceLease l k => let '(vs', r) := serve_replace vs l in alone lag (k r) vs' s (lag t)
  | Locked f k => alone lag (k s) vs (f s) t
  | Elapsed k => alone lag (k t) vs s t
  | Sleep d k => alone lag k vs s (lag (t + d))
  end.

Section Alone.
Context (lag : Z -> Z) (g : LeaseGuard) (wall : Z).

Lemma alone_bind {A B} (p : prog GuardState A) (h : A -> prog GuardState B) vs s t :
  alone lag (pbind p h) vs s t = let '(a, vs, s, t) := alone lag p vs s t in alone lag (h a) vs s t.
Proof.
  revert vs s t. induction p as [a|k IH|l k IH|l k IH|f k IH|k IH|d k IH]; intros vs s t; simpl; try done.
  - by destruct (serve_create vs l).
  - by destruct (serve_replace vs l).
Qed.

Lemma alone_try {A B E} (p : prog GuardState (result E A)) (h : A -> prog GuardState (result E B)) vs s t :
  alone lag (ptry p h) vs s t =
  let '(r, vs, s, t) := alone lag p vs s t in
  match r with Ok a => alone lag (h a) vs s t | Err e => (Err e, vs, s, t) end.
Proof. unfold ptry. rewrite alone_bind. by destruct (alone lag p vs s t) as [[[[]]]]. Qed.

Lemma alone_try_pure {A B E} (r : result E A) (h : A -> prog GuardState (result E B)) a vs s t :
  r = Ok a -> alone lag (ptry (Ret r) h) vs s t = alone lag (h a) vs s t.
Proof. intros ->. by rewrite alone_try. Qed.

(** The lease can be moved to the next epoch: no counter is exhausted. *)
Definition movable (l : Lease) (cur : LeaseCoordinationState) : Prop :=
  lease_coordination_state l (guard_lease_duration g) = Ok cur
  /\ fence_token cur + 1 <= u64_max /\ renewal cur + 1 <= u64_max
  /\ match spec l with
     | Some sp => match lease_transitions sp with Some n => n + 1 <= i32_max | None => True end
     | None => True
     end.

Definition next_claim (cur : LeaseCoordinationState) : WriterFenceClaim :=
  {| claim_holder_identity := guard_holder_identity g; token := fence_token cur + 1 |}.

Lemma duration_seconds_pos d secs : 0 <= d -> duration_seconds_i32 d = Ok secs -> 0 < secs.
Proof.
  intros D S. unfold duration_seconds_i32 in S. inv_bind. b2p. apply Z.div_str_pos. unfold NANOS_PER_SEC in *.
  match goal with Md : _ mod _ = 0 |- _ => apply Z.div_exact in Md; [|lia] end. lia.
Qed.

Lemma next_lease l cur :
  0 <= guard_lease_duration g -> is_ok (duration_seconds_i32 (guard_lease_duration g)) = true -> movable l cur ->
  exists l' st, lease_with_guard_state l (next_claim cur) (renewal cur + 1) (guard_lease_duration g) wall true = Ok l'
    /\ version_of l' = version_of l /\ lease_state_from_spec l' = Ok st
    /\ state_holder_identity st = guard_holder_identity g /\ state_fence_token st = fence_token cur + 1.
Proof.
  intros D Ds (C & T & N & Tr). apply coordination_Ok in C as (Ct & Cn & _).
  apply counter_range in Ct as Ut. apply counter_range in Cn as Un. unfold is_u64 in *.
  destruct (duration_seconds_i32 (guard_lease_duration g)) as [secs|] eqn:S; [|done].
  assert (exists l', lease_with_guard_state l (next_claim cur) (renewal cur + 1) (guard_lease_duration g) wall true = Ok l')
    as [l' L].
  { unfold lease_with_guard_state. rewrite S. case_if; [|by eexists].
    destruct (spec_holder_identity _); [|by eexists]. unfold reject_if. case_if; [|by eexists]. exfalso. b2p.
    destruct (spec l) as [sp|]; [destruct (lease_transitions sp)|]; unfold i32_max in *; simpl in *; lia. }
  pose proof L as M. apply guard_state_moves in M as (Mh & Mt & Mn & _ & Mv & _); [|unfold is_u64; simpl; lia..].
  pose proof (duration_seconds_pos _ _ D S) as Sp.
  assert (exists sp, spec l' = Some sp /\ spec_lease_duration_seconds sp = Some secs /\ is_Some (spec_renew_time sp))
    as (sp & Es & Ed & [rt Er]).
  { unfold lease_with_guard_state in L. rewrite S in L. inv_bind. eexists. split; [done|]. split; [done|by eexists]. }
  exists l'. unfold lease_state_from_spec, lease_coordination_state. unfold lease_token, lease_renewal, lease_holder in *.
  rewrite Es in Mh. rewrite Mt, Mn, Es, Ed, Mh. cbn [rbind]. destruct (Z.gtb_spec secs 0); [|lia].
  cbn [rbind ok_or holder_identity]. rewrite Er. eexists. by split_and!.
Qed.

(** What one turn does once the lease has been read. *)
Lemma turn_reads l cur r vs s t :
  movable l cur -> coordination_observation cur = Some r ->
  alone lag (try_acquire g wall) (l :: vs) s t =
  let '(d, s') := observe cur r t s in
  match d with
  | Observing => (Err HeldByOther, l :: vs, s', lag t)
  | CompetitorRenewed => (Err HeldByLiveWriter, l :: vs, s', lag t)
  | Allowed =>
      alone lag (
        updated <-! Ret (lease_with_guard_state l (next_claim cur) (renewal cur + 1) (guard_lease_duration g) wall true) ;;
        ReplaceLease updated (fun r =>
          match r with
          | Ok lease => record_success lease (next_claim cur) t
          | Err Conflict => acquire_attempts 15 g wall t
          | Err error => Ret (Err error)
          end))%prog (l :: vs) s' (lag t)
  end.
Proof.
  intros (C & T & N & _) Ob. unfold try_acquire, acquire_at, MAX_UPDATE_ATTEMPTS. cbn [alone].
  generalize 15%nat as attempts. intros attempts. cbn [acquire_attempts]. rewrite alone_try. cbn [alone hd_error]. rewrite (alone_try_pure _ _ cur) by done.
  rewrite alone_try. unfold may_take_ownership. rewrite Ob. cbn [alone].
  destruct (observe cur r t s) as [d s']. cbn [fst snd]. destruct d; [|done|done].
  apply coordination_Ok in C as (Ct & Cn & _). apply counter_range in Ct, Cn. unfold is_u64 in *.
  assert (forall n, 0 <= n -> n + 1 <= u64_max -> ok_or (checked_add n 1) InvalidLease = Ok (n + 1)) as Add.
  { intros n Ln Lm. unfold checked_add. case_if; [done|]. b2p. lia. }
  rewrite (alone_try_pure _ _ (fence_token cur + 1)) by (apply Add; lia).
  by rewrite (alone_try_pure _ _ (renewal cur + 1)) by (apply Add; lia).
Qed.

(** The process has taken the epoch that follows [cur]. *)
Definition took (cur : LeaseCoordinationState) (r : LR LeaseGuardState) (s : GuardState) : Prop :=
  (exists st, r = Ok st /\ state_holder_identity st = guard_holder_identity g
     /\ state_fence_token st = fence_token cur + 1)
  /\ active_claim s = Some (next_claim cur).

Lemma turn_takes l cur r vs s t o :
  0 <= guard_lease_duration g -> is_ok (duration_seconds_i32 (guard_lease_duration g)) = true -> movable l cur ->
  coordination_observation cur = Some r -> observation s = Some {| record := r; observed_at := o |} ->
  lease_duration cur <= t - o -> 0 < lease_duration cur ->
  exists res vs' s' t', alone lag (try_acquire g wall) (l :: vs) s t = (res, vs', s', t') /\ took cur res s'.
Proof.
  intros D Ds M Ob Os Le Nn. rewrite (turn_reads l cur r) by done. unfold observe. rewrite Os. cbn [record observed_at].
  rewrite bool_decide_eq_true_2 by done. cbn [negb].
  assert ((saturating_sub t o >=? lease_duration cur) = true) as -> by (unfold saturating_sub; lia).
  destruct (next_lease l cur D Ds M) as (l' & st & L & V & St & Sh & Sf).
  rewrite (alone_try_pure _ _ l') by done. cbn [alone]. unfold serve_replace.
  rewrite V, (bool_decide_eq_true_2 (version_of l = version_of l)), orb_true_r by done.
  unfold record_success. rewrite (alone_try_pure _ _ st) by exact St.
  rewrite Sh, Sf. cbn [next_claim claim_holder_identity token]. rewrite bool_decide_eq_true_2, Z.eqb_refl by done.
  cbn [negb orb alone]. eexists _, _, _, _. split; [done|]. split; [eauto|done].
Qed.

(** After [k] waits of a second the lease has been watched for [k] seconds. *)
Lemma waits_until_taken l cur r vs turns k s t o :
  (forall t, t <= lag t) ->
  0 <= guard_lease_duration g -> is_ok (duration_seconds_i32 (guard_lease_duration g)) = true -> movable l cur ->
  coordination_observation cur = Some r -> 0 < lease_duration cur ->
  observation s = Some {| record := r; observed_at := o |} -> o + from_secs k <= t ->
  lease_duration cur <= from_secs (k + Z.of_nat turns) ->
  exists res vs' s' t', alone lag (acquire_unless_live_writer (S turns) g wall) (l :: vs) s t = (Some res, vs', s', t')
    /\ took cur res s'.
Proof.
  intros Lg D Ds M Ob Nn. revert k s t. induction turns as [|turns IH]; intros k s t Os Lk Lt;
    cbn [acquire_unless_live_writer]; rewrite alone_bind;
    destruct (Z.le_gt_cases (lease_duration cur) (t - o)) as [Le|Gt];
    try (destruct (turn_takes l cur r vs s t o) as (res & vs' & s' & t' & -> & (st & -> & Hs) & A); try done;
         cbn [alone]; eexists _, _, _, _; split; [done|]; split; [by exists st|done]).
  - exfalso. unfold from_secs, NANOS_PER_SEC in *. lia.
  - rewrite (turn_reads l cur r) by done. unfold observe. rewrite Os. cbn [record observed_at].
    rewrite bool_decide_eq_true_2 by done. cbn [negb].
    assert ((saturating_sub t o >=? lease_duration cur) = false) as -> by (unfold saturating_sub; lia).
    apply (IH (k + 1)); [done| |].
    + pose proof (Lg t). pose proof (Lg (lag t + ACQUIRE_POLL_INTERVAL)). unfold ACQUIRE_POLL_INTERVAL, from_secs in *. lia.
    + replace (k + 1 + Z.of_nat turns) with (k + Z.of_nat (S turns)) by lia. done.
Qed.

Lemma coordination_duration l cur :
  0 <= guard_lease_duration g -> is_ok (duration_seconds_i32 (guard_lease_duration g)) = true ->
  lease_coordination_state l (guard_lease_duration g) = Ok cur ->
  0 < lease_duration_seconds cur /\ lease_duration cur = from_secs (lease_duration_seconds cur).
Proof.
  intros D Ds C. unfold lease_coordination_state in C. inv_bind. cbn [lease_duration_seconds lease_duration].
  split; [|done]. destruct (match spec l with Some _ => _ | None => _ end) as [n|].
  - match goal with X : (if n >? 0 then _ else _) = Ok _ |- _ => destruct (Z.gtb_spec n 0); [|done] end. by inv_bind.
  - destruct (duration_seconds_i32 (guard_lease_duration g)) as [secs|] eqn:S; [|done]. inv_bind.
    by eapply duration_seconds_pos.
Qed.

(** C21: An abandoned lease is taken over.  If a movable lease is held by a
    process that no longer writes, [acquire_unless_live_writer] returns after
    at most one turn more than the seconds of the lease, whatever the requests
    take, and it has acquired the next epoch for this process. *)
Theorem abandoned_lease_taken l cur r vs turns s t :
  (forall t, t <= lag t) ->
  0 <= guard_lease_duration g -> is_ok (duration_seconds_i32 (guard_lease_duration g)) = true ->
  movable l cur -> coordination_observation cur = Some r -> observation s = None ->
  lease_duration_seconds cur <= Z.of_nat turns ->
  exists res vs' s' t', alone lag (acquire_unless_live_writer (S turns) g wall) (l :: vs) s t = (Some res, vs', s', t')
    /\ took cur res s'.
Proof.
  intros Lg D Ds M Ob Os Lt. destruct (coordination_duration l cur D Ds (proj1 M)) as [Sp Ed].
  destruct turns as [|turns]; [lia|]. cbn [acquire_unless_live_writer]. rewrite alone_bind, (turn_reads l cur r) by done.
  unfold observe. rewrite Os. cbn [alone].
  apply (waits_until_taken l cur r vs turns 1 _ _ t); try done.
  - rewrite Ed. unfold from_secs, NANOS_PER_SEC. lia.
  - pose proof (Lg t). pose proof (Lg (lag t + ACQUIRE_POLL_INTERVAL)). unfold ACQUIRE_POLL_INTERVAL in *. lia.
  - rewrite Ed. unfold from_secs, NANOS_PER_SEC. lia.
Qed.
End Alone.

Lemma abandoned_lease_taken_witness :
  exists res vs s t, alone (fun t => t + 1) (acquire_unless_live_writer 31 (guard 1) 0) [anchored; created]
    GuardState_new 0 = (Some res, vs, s, t) /\ active_claim s = Some (fence_claim (fence 1 2)).
Proof.
  edestruct (abandoned_lease_taken (fun t => t + 1) (guard 1) 0 anchored) with
    (vs := [created]) (turns := 30%nat) (s := GuardState_new) (t := 0) as (res & vs & s & t & E & _ & A).
  - intros t. lia.
  - vm_compute. discriminate.
  - vm_compute. reflexivity.
  - split; [vm_compute; reflexivity|]. vm_compute. repeat split; discriminate.
  - vm_compute. reflexivity.
  - reflexivity.
  - vm_compute. discriminate.
  - exists res, vs, s, t. split; [exact E|exact A].
Defined.
