(* ===== verification/RunWire.v ===== *)
(** * Bounded writer and reader of the index-run format (crates/rs3-index/src/run.rs)

    The writer appends to a buffer with a maximum and refuses what does not
    fit; the reader consumes a slice.  Both sides of every primitive are
    related to one pure encoding: [writes] says that a writer that succeeds
    has appended exactly those bytes, [reads] and [accepts] of the prelude say
    that the reader takes those bytes and nothing else. *)

From Stdlib Require Import Strings.String.
From S2P Require Import Prelude Text Types.
Open Scope Z_scope.

Abbreviation field_name := string.

(** ** Limits and errors *)

Record IndexRunLimits : Type := {
  max_total_bytes : Z;
  max_frame_bytes : Z;
  max_record_bytes : Z;
  max_containers : Z;
  max_mutations : Z;
  max_path_bytes : Z;
  max_key_id_bytes : Z;
  max_object_id_bytes : Z;
  max_version_id_bytes : Z
}.

Definition IndexRunLimits_default : IndexRunLimits := {|
  max_total_bytes := 7 * 1024 * 1024;
  max_frame_bytes := 1024 * 1024 - 1024;
  max_record_bytes := 16 * 1024;
  max_containers := 4096;
  max_mutations := 65536;
  max_path_bytes := 1024;
  max_key_id_bytes := 256;
  max_object_id_bytes := 1024;
  max_version_id_bytes := 1024
|}.

Inductive IndexRunError : Type :=
| InvalidDomain
| UnsupportedVersion (version : Z)
| UnexpectedEof
| TrailingBytes
| NonCanonicalVarint
| InvalidPathPrefix
| IntegerOverflow
| LimitExceeded (field : field_name) (actual maximum : Z)
| InvalidUtf8 (field : field_name)
| InvalidValue (field : field_name)
| InvalidTag (field : field_name) (value : Z)
| RecordLengthMismatch
| InvalidMutationOrdinal (expected actual : Z)
| DuplicateContainer
| InvalidContainerOrder
| InvalidPackRecordCount
| InvalidPackRecordRange
| PackRecordFactsMismatch
| UnusedContainer (ordinal : Z)
| UnusedStandaloneStreamContainer (ordinal : Z)
| InvalidNamespaceKeyOrder
| DuplicateNamespaceKey
| UnusedNamespaceKey (ordinal : Z)
| InvalidNamespaceKeyOrdinal (ordinal : Z)
| InvalidContainerRange
| InvalidStandaloneStreamContainer
| InvalidContainerOrdinal (ordinal : Z)
| InvalidEmptyPayload
| ProjectionCountMismatch (namespace listing : Z)
| InvalidProjectionOrder (projection : field_name)
| DuplicateProjectionOrdinal (projection : field_name) (ordinal : Z)
| InvalidProjectionOrdinal (projection : field_name) (ordinal : Z)
| ProjectionMismatch (ordinal : Z)
| InvalidFrameOrder
| FrameFactsMismatch.

Definition validate_count (field : field_name) (actual maximum : Z) : result IndexRunError unit :=
  reject_if (actual >? maximum) (LimitExceeded field actual maximum).

(** [u64::try_from] on a [usize] of the same width, [usize::try_from] on a
    [u32] or [u64]: always representable. *)
Definition usize_to_u64 (value : Z) : result IndexRunError Z :=
  ok_or (if value <=? u64_max then Some value else None) IntegerOverflow.

(** [u32::try_from]. *)
Definition to_u32 (value : Z) : result IndexRunError Z := ok_or (try_u32 value) IntegerOverflow.

(** ** The writer *)

Module Writer.
Record t : Type := { buffer : list byte; maximum : Z }.

Definition W (A : Type) : Type := M t IndexRunError A.

Definition new (maximum : Z) : t := {| buffer := []; maximum := maximum |}.

Definition finish (w : t) : list byte := buffer w.

Definition reserve (w : t) (additional : Z) : result IndexRunError unit :=
  actual <-? ok_or (checked_add (len (buffer w)) additional) IntegerOverflow ;;
  validate_count "encoded bytes" actual (maximum w).

Definition bytes (value : list byte) : W unit := fun w =>
  reserve w (len value) ;;?
  Ok (tt, {| buffer := buffer w ++ value; maximum := maximum w |}).

Definition u8 (value : Z) : W unit := bytes [to_u8 value].
Definition u16 (value : Z) : W unit := bytes (to_be_bytes 2 value).
Definition u64 (value : Z) : W unit := bytes (to_be_bytes 8 value).
Definition i64 (value : Z) : W unit := bytes (i64_to_be_bytes value).

(** The loop shifts seven bits out per turn; ten turns exhaust a [u64]. *)
Fixpoint varint_loop (fuel : nat) (value : Z) : W unit :=
  match fuel with
  | O => lift (Err IntegerOverflow)
  | S fuel' =>
      let low := Z.land value 0x7f in
      let value := Z.shiftr value 7 in
      u8 (if value =? 0 then low else Z.lor low 0x80) ;;
      if value =? 0 then mret tt else varint_loop fuel' value
  end.

Definition varint (value : Z) : W unit := varint_loop 10 value.

Definition string (value : text) (maximum : Z) (field : field_name) : W unit :=
  lift (validate_count field (len value) maximum) ;;
  n <- lift (usize_to_u64 (len value)) ;;
  varint n ;;
  bytes value.

Definition record (rec : t) : W unit :=
  n <- lift (usize_to_u64 (len (buffer rec))) ;;
  varint n ;;
  bytes (buffer rec).
End Writer.

(** The number of bytes [Writer.varint] takes; the same loop bound. *)
Fixpoint varint_len_loop (fuel : nat) (value length : Z) : Z :=
  match fuel with
  | O => length
  | S fuel' =>
      if value >=? 0x80 then varint_len_loop fuel' (Z.shiftr value 7) (length + 1) else length
  end.

Definition varint_len (value : Z) : Z := varint_len_loop 9 value 1.

(** ** The reader *)

Module Reader.
Record t : Type := { remaining : list byte }.

Definition R (A : Type) : Type := M t IndexRunError A.

Definition new (bytes : list byte) : t := {| remaining := bytes |}.

Definition is_empty (r : t) : bool := len (remaining r) =? 0.

Definition bytes (length : Z) : R (list byte) := fun r =>
  if length >? len (remaining r) then Err UnexpectedEof
  else Ok (take (Z.to_nat length) (remaining r),
           {| remaining := drop (Z.to_nat length) (remaining r) |}).

Definition u8 : R Z :=
  bs <- bytes 1 ;;
  b <- lift (ok_or (hd_error bs) UnexpectedEof) ;;
  mret (u8 b).

Definition u16 : R Z := bs <- bytes 2 ;; mret (from_be_bytes bs).
Definition u64 : R Z := bs <- bytes 8 ;; mret (from_be_bytes bs).
Definition i64 : R Z := bs <- bytes 8 ;; mret (i64_from_be_bytes bs).

(** [for index in 0..10]; [n] is the number of turns left.  The shift of a
    [u64] drops what leaves its width. *)
Fixpoint varint_loop (n : nat) (index value : Z) : R Z :=
  match n with
  | O => lift (Err IntegerOverflow)
  | S n' =>
      byte <- u8 ;;
      let low := Z.land byte 0x7f in
      if (index =? 9) && (low >? 1) then lift (Err IntegerOverflow)
      else
        let value := Z.lor value (Z.shiftl low (index * 7) mod 2 ^ 64) in
        if Z.land byte 0x80 =? 0 then
          if (index >? 0) && (low =? 0) then lift (Err NonCanonicalVarint) else mret value
        else varint_loop n' (index + 1) value
  end.

Definition varint : R Z := varint_loop 10 0 0.

Definition u32_varint : R Z := v <- varint ;; lift (to_u32 v).

Definition bounded_count (field : field_name) (maximum : Z) : R Z :=
  v <- varint ;;
  value <- lift (usize_to_u64 v) ;;
  lift (validate_count field value maximum) ;;
  mret value.

Definition record (maximum : Z) : R t :=
  length <- bounded_count "record bytes" maximum ;;
  bs <- bytes length ;;
  mret (new bs).

Definition typed_string {E T} (field : field_name) (maximum : Z)
    (constructor : text -> result E T) : R T :=
  length <- bounded_count field maximum ;;
  bs <- bytes length ;;
  lift (reject_if (negb (utf8_valid bs)) (InvalidUtf8 field)) ;;
  lift (map_err (fun _ => InvalidValue field) (constructor bs)).

Definition finish_record (r : t) : result IndexRunError unit :=
  if is_empty r then Ok tt else Err RecordLengthMismatch.
End Reader.

(** ** Encodings *)

(** Little-endian groups of seven bits, the high bit set on all but the last. *)
Fixpoint enc_varint_loop (fuel : nat) (v : Z) : list byte :=
  match fuel with
  | O => []
  | S fuel' =>
      if v <? 128 then [to_u8 v]
      else to_u8 (v mod 128 + 128) :: enc_varint_loop fuel' (v / 128)
  end.

Definition enc_varint (v : Z) : list byte := enc_varint_loop 10 v.
#[global] Arguments enc_varint : simpl never.

(** A byte string behind its length. *)
Definition framed (bs : list byte) : list byte := enc_varint (len bs) ++ bs.

(** [writes w Q]: when [w] succeeds it has appended bytes that [Q] describes
    and has not passed the maximum. *)
Definition writes {A} (w : Writer.W A) (Q : A -> list byte -> Prop) : Prop :=
  forall s a s', w s = Ok (a, s') ->
    exists enc, s' = {| Writer.buffer := Writer.buffer s ++ enc; Writer.maximum := Writer.maximum s |}
      /\ (len (Writer.buffer s) <= Writer.maximum s -> len (Writer.buffer s ++ enc) <= Writer.maximum s)
      /\ Q a enc.

#[export] Instance cursor_run : Cursor Reader.t := fun r l => Reader.remaining r = l.

(** ** Writing *)

Create HintDb wire.

Lemma writes_bytes bs : writes (Writer.bytes bs) (fun _ enc => enc = bs).
Proof.
  intros s a s' E. unfold Writer.bytes, Writer.reserve, validate_count in E. inv_bind. b2p.
  fwd checked_add_Some. destruct_and?. subst. exists bs. rewrite len_app. auto with lia.
Qed.
#[export] Hint Resolve writes_bytes : wire.

Lemma writes_u8 v : writes (Writer.u8 v) (fun _ enc => enc = [to_u8 v]).
Proof. apply writes_bytes. Qed.
Lemma writes_u16 v : writes (Writer.u16 v) (fun _ enc => enc = to_be_bytes 2 v).
Proof. apply writes_bytes. Qed.
Lemma writes_u64 v : writes (Writer.u64 v) (fun _ enc => enc = to_be_bytes 8 v).
Proof. apply writes_bytes. Qed.
Lemma writes_i64 v : writes (Writer.i64 v) (fun _ enc => enc = i64_to_be_bytes v).
Proof. apply writes_bytes. Qed.
#[export] Hint Resolve writes_u8 writes_u16 writes_u64 writes_i64 : wire.

Lemma writes_lift {A} (r : result IndexRunError A) : writes (lift r) (fun a enc => r = Ok a /\ enc = []).
Proof. intros s a s' E. inv_bind. exists []. rewrite app_nil_r. by destruct s'. Qed.

Lemma writes_ret {A} (x : A) : writes (mret x) (fun a enc => a = x /\ enc = []).
Proof. intros s a s' E. inv_bind. exists []. rewrite app_nil_r. by destruct s'. Qed.
#[export] Hint Resolve writes_lift writes_ret : wire.

Lemma writes_bind {A B} (w : Writer.W A) (k : A -> Writer.W B) Q1 (Q2 : A -> B -> list byte -> Prop) Q :
  writes w Q1 -> (forall a, writes (k a) (Q2 a)) ->
  (forall a b e1 e2, Q1 a e1 -> Q2 a b e2 -> Q b (e1 ++ e2)) -> writes (mbind w k) Q.
Proof.
  intros P K C s b s' E. unfold mbind in E. destruct (w s) as [[a s1]|] eqn:E1; [|discriminate].
  destruct (P _ _ _ E1) as (e1 & -> & M1 & H1). destruct (K a _ _ _ E) as (e2 & -> & M2 & H2).
  simpl in *. exists (e1 ++ e2). rewrite <- app_assoc in *. split; [done|]. split; [tauto|eauto].
Qed.

Lemma writes_weaken {A} (w : Writer.W A) (Q Q' : A -> list byte -> Prop) :
  writes w Q -> (forall a e, Q a e -> Q' a e) -> writes w Q'.
Proof. intros P I s a s' E. destruct (P _ _ _ E) as (e & ? & ? & ?). eauto. Qed.

(** Runs the successful writes of the context forward, with the [writes]
    lemmas of the [wire] database. *)
Ltac step_writes :=
  match goal with
  | E : ?w ?s = Ok (?a, ?s') |- _ =>
      match type of s' with Writer.t => idtac end;
      let HW := fresh "HW" in
      eassert (writes w _) as HW by eauto with wire;
      let e := fresh "e" in
      let B := fresh "B" in
      let HR := fresh "HQ" in
      destruct (HW _ _ _ E) as (e & -> & B & HR);
      clear HW E; cbn [Writer.buffer Writer.maximum] in *
  end.

(** Proves a [writes] goal for a sequence of writes whose bytes it names. *)
Ltac all_writes :=
  intros ? ? ? ?; inv_bind; repeat (step_writes; cbv beta in *; destruct_and?; subst);
  eexists; split; [rewrite <- ?app_assoc; reflexivity|split; [rewrite <- ?app_assoc in *; tauto|]].

Lemma low_bits v : Z.land v 0x7f = v mod 128.
Proof. apply (land_pow2_minus1 v 7). lia. Qed.

Lemma or_continue v : 0 <= v < 128 -> Z.lor v 0x80 = v + 128.
Proof. intros. rewrite Z.lor_comm, Z.add_comm. apply (lor_shiftl 1 7 v); lia. Qed.

Lemma writes_varint_loop fuel v :
  0 <= v -> writes (Writer.varint_loop fuel v) (fun _ enc => enc = enc_varint_loop fuel v).
Proof.
  revert v. induction fuel as [|fuel IH]; intros v P; [by intros s a s' E|].
  cbn [Writer.varint_loop enc_varint_loop]. rewrite low_bits, Z.shiftr_div_pow2 by lia.
  change (2 ^ 7) with 128. pose proof (Z.mod_pos_bound v 128).
  destruct (Z.ltb_spec v 128).
  - rewrite Z.div_small, Z.mod_small by lia. simpl.
    eapply writes_bind; [apply writes_u8|intros; apply writes_ret|]. intros * -> [_ ->]. done.
  - assert (0 < v / 128) by (apply Z.div_str_pos; lia). rewrite (proj2 (Z.eqb_neq _ _)) by lia.
    rewrite or_continue by lia.
    eapply writes_bind; [apply writes_u8|intros; apply IH; lia|]. by intros * -> ->.
Qed.

Lemma writes_varint v : 0 <= v -> writes (Writer.varint v) (fun _ enc => enc = enc_varint v).
Proof. apply writes_varint_loop. Qed.
#[export] Hint Extern 2 (writes (Writer.varint _) _) => eapply writes_varint; lia : wire.

Lemma usize_to_u64_Ok v w : usize_to_u64 v = Ok w <-> w = v /\ v <= u64_max.
Proof.
  unfold usize_to_u64. destruct (Z.leb_spec v u64_max); simpl; split; intros; inv_bind;
    destruct_and?; subst; try done; lia.
Qed.

Lemma to_u32_Ok v w : to_u32 v = Ok w <-> w = v /\ v <= u32_max.
Proof.
  unfold to_u32, try_u32. destruct (Z.leb_spec v u32_max); simpl; split; intros; inv_bind;
    destruct_and?; subst; try done; lia.
Qed.

Lemma validate_count_Ok f a m u : validate_count f a m = Ok u <-> a <= m.
Proof.
  unfold validate_count, reject_if. destruct u. case_if; b2p; split; intros; try done; lia.
Qed.

(** The arithmetic facts behind the successful conversions of the context. *)
Ltac wire_facts :=
  repeat match goal with
  | H : usize_to_u64 _ = Ok _ |- _ => apply usize_to_u64_Ok in H
  | H : to_u32 _ = Ok _ |- _ => apply to_u32_Ok in H
  | H : validate_count _ _ _ = Ok _ |- _ => apply validate_count_Ok in H
  | H : checked_add _ _ = Some _ |- _ => apply checked_add_Some in H
  | H : checked_mul _ _ = Some _ |- _ => apply checked_mul_Some in H
  end; destruct_and?; subst.

Lemma writes_record rec :
  writes (Writer.record rec)
    (fun _ enc => enc = framed (Writer.buffer rec) /\ len (Writer.buffer rec) <= u64_max).
Proof.
  unfold Writer.record. intros s a s' E. inv_bind. fwd usize_to_u64_Ok. destruct_and?; subst.
  pose proof (len_nonneg (Writer.buffer rec)).
  repeat (step_writes; cbv beta in *; subst). eexists. rewrite <- app_assoc in *.
  split; [reflexivity|]. split; [tauto|done].
Qed.
#[export] Hint Resolve writes_record : wire.

Lemma writes_string v m f :
  writes (Writer.string v m f) (fun _ enc => enc = framed v /\ len v <= u64_max /\ len v <= m).
Proof.
  unfold Writer.string. intros s a s' E. inv_bind. fwd usize_to_u64_Ok. fwd validate_count_Ok.
  destruct_and?; subst. pose proof (len_nonneg v).
  repeat (step_writes; cbv beta in *; subst). eexists. rewrite <- app_assoc in *.
  split; [reflexivity|]. split; [tauto|done].
Qed.
#[export] Hint Resolve writes_string : wire.

(** ** Reading *)

Lemma run_reads_bytes bs n : n = len bs -> reads (E := IndexRunError) (Reader.bytes n) bs bs.
Proof.
  intros -> s rest V. unfold view, cursor_run in V. exists {| Reader.remaining := rest |}.
  split; [|done]. unfold Reader.bytes. rewrite V, len_app. pose proof (len_nonneg rest).
  case_if; b2p; [lia|]. unfold len. rewrite Nat2Z.id, take_app_length, drop_app_length. done.
Qed.

Lemma run_accepts_bytes n :
  0 <= n -> accepts (E := IndexRunError) (Reader.bytes n) (fun bs c => c = bs /\ len bs = n).
Proof.
  intros N s l bs s' V E. unfold Reader.bytes in E. unfold view, cursor_run in *. subst l.
  case_if_in E; [discriminate|]. inv_bind. b2p.
  eexists _, _. split; [symmetry; apply take_drop|]. split; [done|]. split; [done|].
  unfold len in *. rewrite length_take. lia.
Qed.

Lemma run_reads_u8 v : 0 <= v <= u8_max -> reads (E := IndexRunError) Reader.u8 [to_u8 v] v.
Proof.
  intros R. unfold Reader.u8. eapply reads_bind_end; [by apply run_reads_bytes|].
  eapply reads_bind_nil; [by apply reads_lift|]. rewrite u8_to_u8_small by done. apply reads_ret.
Qed.

Lemma run_accepts_u8 :
  accepts (E := IndexRunError) Reader.u8 (fun v c => 0 <= v <= u8_max /\ c = [to_u8 v]).
Proof.
  unfold Reader.u8. eapply accepts_bind; [by apply run_accepts_bytes| |].
  - intros bs c1 [-> L]. eapply (accepts_bind _ _ _ (fun b v c => v = u8 b /\ c = [])); [apply accepts_lift|..].
    + intros b c _. eapply accepts_weaken; [apply accepts_ret|]. done.
    + intros b v c1 c2 [Hb ->] [-> ->]. instantiate (1 := fun bs v c => hd_error bs = Some (to_u8 v) /\ 0 <= v <= u8_max /\ c = []).
      simpl. destruct bs as [|b' bs]; [done|]. simpl in *. inv_bind. rewrite to_u8_u8. auto using u8_range.
  - intros bs v c1 c2 [-> L] (H & R & ->). destruct bs as [|b [|b' bs]]; [done| |].
    + injection H as ->. by rewrite app_nil_r.
    + rewrite !len_cons in L. pose proof (len_nonneg bs). lia.
Qed.

Lemma run_reads_u16 v : is_u16 v -> reads (E := IndexRunError) Reader.u16 (to_be_bytes 2 v) v.
Proof.
  intros R. unfold Reader.u16. eapply reads_bind_end; [by apply run_reads_bytes|].
  rewrite from_to_be_bytes by (unfold is_u16 in R; simpl; lia). apply reads_ret.
Qed.

Lemma run_reads_u64 v : is_u64 v -> reads (E := IndexRunError) Reader.u64 (to_be_bytes 8 v) v.
Proof.
  intros R. unfold Reader.u64. eapply reads_bind_end; [by apply run_reads_bytes|].
  rewrite from_to_be_bytes by (unfold is_u64 in R; simpl; lia). apply reads_ret.
Qed.

Lemma run_reads_i64 v : is_i64 v -> reads (E := IndexRunError) Reader.i64 (i64_to_be_bytes v) v.
Proof.
  intros R. unfold Reader.i64. eapply reads_bind_end; [by apply run_reads_bytes|].
  rewrite i64_from_to_be_bytes by done. apply reads_ret.
Qed.

Lemma run_accepts_u16 :
  accepts (E := IndexRunError) Reader.u16 (fun v c => is_u16 v /\ c = to_be_bytes 2 v).
Proof.
  unfold Reader.u16. eapply (accepts_bind _ _ _ (fun bs v c => v = from_be_bytes bs /\ c = [])); [by apply run_accepts_bytes|..].
  - intros bs c _. eapply accepts_weaken; [apply accepts_ret|done].
  - intros bs v c1 c2 [-> L] [-> ->]. rewrite app_nil_r.
    pose proof (from_be_bytes_range bs) as B. rewrite L in B. unfold is_u16. split; [lia|].
    symmetry. apply to_from_be_bytes'. unfold len in L. lia.
Qed.

Lemma run_accepts_u64 :
  accepts (E := IndexRunError) Reader.u64 (fun v c => is_u64 v /\ c = to_be_bytes 8 v).
Proof.
  unfold Reader.u64. eapply (accepts_bind _ _ _ (fun bs v c => v = from_be_bytes bs /\ c = [])); [by apply run_accepts_bytes|..].
  - intros bs c _. eapply accepts_weaken; [apply accepts_ret|done].
  - intros bs v c1 c2 [-> L] [-> ->]. rewrite app_nil_r.
    pose proof (from_be_bytes_range bs) as B. rewrite L in B. unfold is_u64. split; [lia|].
    symmetry. apply to_from_be_bytes'. unfold len in L. lia.
Qed.

Lemma run_accepts_i64 :
  accepts (E := IndexRunError) Reader.i64 (fun v c => is_i64 v /\ c = i64_to_be_bytes v).
Proof.
  unfold Reader.i64. eapply (accepts_bind _ _ _ (fun bs v c => v = i64_from_be_bytes bs /\ c = [])); [by apply run_accepts_bytes|..].
  - intros bs c _. eapply accepts_weaken; [apply accepts_ret|done].
  - intros bs v c1 c2 [-> L] [-> ->]. rewrite app_nil_r.
    assert (length bs = 8%nat) by (unfold len in L; lia).
    split; [by apply i64_from_be_bytes_range|]. symmetry. by apply i64_to_from_be_bytes.
Qed.

(** *** Varints *)

Lemma shl_small low i : 0 <= low < 128 -> 0 <= i <= 9 -> (i = 9 -> low <= 1) ->
  Z.shiftl low (i * 7) mod 2 ^ 64 = low * 2 ^ (i * 7).
Proof.
  intros L I N. rewrite Z.shiftl_mul_pow2 by lia. apply Z.mod_small.
  assert (0 < 2 ^ (i * 7)) by (apply Z.pow_pos_nonneg; lia). split; [nia|].
  destruct (Z.eq_dec i 9) as [->|]; [specialize (N eq_refl); lia|].
  assert (2 ^ (i * 7) <= 2 ^ 56) by (apply Z.pow_le_mono_r; lia). nia.
Qed.

Lemma lor_disjoint acc low i :
  0 <= i -> 0 <= acc < 2 ^ (i * 7) -> Z.lor acc (low * 2 ^ (i * 7)) = acc + low * 2 ^ (i * 7).
Proof.
  intros I A. rewrite Z.lor_comm, <- Z.shiftl_mul_pow2 by lia.
  rewrite lor_shiftl by lia. rewrite Z.shiftl_mul_pow2 by lia. lia.
Qed.

Lemma top_bit x : 0 <= x < 256 -> (Z.land x 0x80 =? 0) = (x <? 128).
Proof.
  intros R. assert (forallb (fun n => Bool.eqb (Z.land (Z.of_nat n) 0x80 =? 0) (Z.of_nat n <? 128)) (seq 0 256) = true) as F
    by (vm_compute; reflexivity).
  rewrite forallb_forall in F. specialize (F (Z.to_nat x)). rewrite Z2Nat.id in F by lia.
  apply eqb_prop, F. apply in_seq. lia.
Qed.

(** One turn of the loop on a byte. *)
Lemma reads_turn n i acc v rest a :
  0 <= i <= 9 -> 0 <= acc < 2 ^ (i * 7) -> 0 <= v <= u8_max -> (i = 9 -> v mod 128 <= 1) ->
  reads (if v <? 128
         then if (i >? 0) && (v mod 128 =? 0) then lift (Err NonCanonicalVarint)
              else mret (acc + v mod 128 * 2 ^ (i * 7))
         else Reader.varint_loop n (i + 1) (acc + v mod 128 * 2 ^ (i * 7))) rest a ->
  reads (Reader.varint_loop (S n) i acc) (to_u8 v :: rest) a.
Proof.
  intros I A V N K. change (to_u8 v :: rest) with ([to_u8 v] ++ rest). cbn [Reader.varint_loop].
  eapply reads_bind; [by apply run_reads_u8|]. rewrite low_bits, top_bit by lia.
  pose proof (Z.mod_pos_bound v 128). rewrite shl_small, lor_disjoint by lia.
  destruct ((i =? 9) && (v mod 128 >? 1)) eqn:C; [b2p; lia|]. exact K.
Qed.

Lemma pow_turn i : 0 <= i -> 2 ^ ((i + 1) * 7) = 128 * 2 ^ (i * 7).
Proof. intros. replace ((i + 1) * 7) with (7 + i * 7) by lia. by rewrite Z.pow_add_r by lia. Qed.

Lemma pow_left i : 0 <= i <= 8 -> 2 ^ (64 - i * 7) = 128 * 2 ^ (64 - (i + 1) * 7).
Proof. intros. replace (64 - i * 7) with (7 + (64 - (i + 1) * 7)) by lia. by rewrite Z.pow_add_r by lia. Qed.

Lemma mod_continue v : (v mod 128 + 128) mod 128 = v mod 128.
Proof. rewrite <- (Z.mul_1_l 128) at 2. by rewrite Z.mod_add, Z.mod_mod by lia. Qed.

Lemma reads_varint_loop n i acc v :
  Z.of_nat n = 10 - i -> 0 <= i <= 9 -> 0 <= acc < 2 ^ (i * 7) -> 0 <= v < 2 ^ (64 - i * 7) ->
  (0 < i -> 0 < v) -> reads (Reader.varint_loop n i acc) (enc_varint_loop n v) (acc + v * 2 ^ (i * 7)).
Proof.
  revert i acc v. induction n as [|n IH]; intros i acc v N I A V P; [lia|].
  cbn [enc_varint_loop]. destruct (Z.ltb_spec v 128).
  - apply reads_turn; [done|done|lia| |].
    + intros ->. change (64 - 9 * 7) with 1 in V. rewrite Z.mod_small by lia. lia.
    + rewrite (proj2 (Z.ltb_lt v 128)), Z.mod_small by lia.
      destruct ((i >? 0) && (v =? 0)) eqn:C; [b2p; lia|]. apply reads_ret.
  - assert (i <> 9) by (intros ->; change (64 - 9 * 7) with 1 in V; lia).
    pose proof (Z.mod_pos_bound v 128). pose proof (Z.div_mod v 128).
    assert (0 < v / 128) by (apply Z.div_str_pos; lia).
    apply reads_turn; [done|done|lia|lia|].
    rewrite (proj2 (Z.ltb_ge _ 128)) by lia.
    rewrite mod_continue.
    pose proof (pow_turn i). pose proof (pow_left i).
    replace (acc + v * 2 ^ (i * 7))
      with (acc + v mod 128 * 2 ^ (i * 7) + v / 128 * 2 ^ ((i + 1) * 7)) by nia.
    apply IH; [lia|lia|nia|nia|lia].
Qed.

Lemma reads_varint v : is_u64 v -> reads Reader.varint (enc_varint v) v.
Proof.
  intros R. unfold is_u64 in R. replace v with (0 + v * 2 ^ (0 * 7)) at 2 by lia.
  apply reads_varint_loop; simpl; lia.
Qed.

Lemma accepts_varint_loop n i acc :
  Z.of_nat n = 10 - i -> 0 <= i <= 10 -> 0 <= acc < 2 ^ (i * 7) ->
  accepts (Reader.varint_loop n i acc)
    (fun a c => exists v, a = acc + v * 2 ^ (i * 7) /\ 0 <= v < 2 ^ (64 - i * 7) /\ (0 < i -> 0 < v)
                  /\ c = enc_varint_loop n v).
Proof.
  revert i acc. induction n as [|n IH]; intros i acc N I A; [by intros s l a s' V E|].
  cbn [Reader.varint_loop]. eapply (accepts_bind _ _ _ (fun b a c => exists v,
    a = acc + v * 2 ^ (i * 7) /\ 0 <= v < 2 ^ (64 - i * 7) /\ (0 < i -> 0 < v)
    /\ [to_u8 b] ++ c = enc_varint_loop (S n) v)); [apply run_accepts_u8| |].
  2: { by intros b a c1 c2 [_ ->] (v & ? & ? & ? & ?); exists v. }
  intros b c1 [R _]. rewrite low_bits, top_bit by lia.
  pose proof (Z.mod_pos_bound b 128 ltac:(lia)) as Lb.
  destruct ((i =? 9) && (b mod 128 >? 1)) eqn:C; [by intros s l a s' V E|].
  assert (i = 9 -> b mod 128 <= 1) as N9.
  { intros ->. simpl in C. b2p. lia. }
  rewrite shl_small, lor_disjoint by lia. cbn [enc_varint_loop].
  assert (1 <= 2 ^ (64 - i * 7) /\ (i = 9 \/ 128 <= 2 ^ (64 - i * 7))) as [P1 P2].
  { destruct (Z.eq_dec i 9) as [->|]; [simpl; lia|]. rewrite pow_left by lia.
    assert (0 < 2 ^ (64 - (i + 1) * 7)) by (apply Z.pow_pos_nonneg; lia). lia. }
  destruct (Z.ltb_spec b 128).
  - rewrite Z.mod_small in * by lia.
    destruct ((i >? 0) && (b =? 0)) eqn:C2; [by intros s l a s' V E|].
    eapply accepts_weaken; [apply accepts_ret|]. intros a c [-> ->]. exists b.
    rewrite (proj2 (Z.ltb_lt b 128)) by lia. split_and!; [done|lia| | |done].
    + change (64 - 9 * 7) with 1 in *. destruct P2 as [->|]; [|lia]. specialize (N9 eq_refl). simpl. lia.
    + intros. destruct (Z.gtb_spec i 0); [|lia]. simpl in C2. b2p. lia.
  - destruct (Z.eq_dec i 9) as [->|Ne].
    { assert (n = O) as -> by lia. by intros s l a s' V E. }
    eapply accepts_weaken; [apply IH; [lia|lia|]|].
    { rewrite pow_turn by lia. nia. }
    intros a c (v & -> & V & P & ->). specialize (P ltac:(lia)).
    pose proof (Z.mod_small (b - 128) 128 ltac:(lia)) as Eb.
    replace ((b - 128) mod 128) with (b mod 128) in Eb
      by (rewrite <- (Z.mod_add (b - 128) 1 128) by lia; f_equal; lia).
    exists (b mod 128 + v * 128). rewrite pow_turn, (pow_left i) by lia.
    rewrite (proj2 (Z.ltb_ge _ 128)), Z.div_add, Z.div_small, Z.add_0_l by lia.
    rewrite Z.mod_add, Z.mod_mod by lia.
    split_and!; [lia|lia|nia|lia|]. simpl. repeat f_equal. lia.
Qed.

Lemma accepts_varint : accepts Reader.varint (fun v c => is_u64 v /\ c = enc_varint v).
Proof.
  eapply accepts_weaken; [apply accepts_varint_loop; simpl; lia|].
  intros a c (v & -> & V & _ & ->). change (2 ^ (0 * 7)) with 1. rewrite Z.mul_1_r, Z.add_0_l.
  split; [|done]. unfold is_u64. change (64 - 0 * 7) with 64 in V. lia.
Qed.

(** [varint_len] counts the bytes of the encoding. *)
Lemma varint_len_loop_acc n v k : varint_len_loop n v k = k + varint_len_loop n v 0.
Proof.
  revert v k. induction n as [|n IH]; intros v k; simpl; [lia|].
  case_if; [|lia]. rewrite (IH _ (k + 1)), (IH _ 1). lia.
Qed.

Lemma len_enc_varint_loop n v :
  0 <= v < 128 * 128 ^ Z.of_nat n -> len (enc_varint_loop (S n) v) = varint_len_loop n v 1.
Proof.
  revert v. induction n as [|n IH]; intros v V.
  { cbn [enc_varint_loop varint_len_loop]. simpl in V. by rewrite (proj2 (Z.ltb_lt v 128)) by lia. }
  cbn [varint_len_loop]. remember (S n) as m. cbn [enc_varint_loop]. subst m.
  destruct (Z.ltb_spec v 128).
  - rewrite Z.geb_leb, (proj2 (Z.leb_gt 128 v)) by lia. done.
  - rewrite Z.geb_leb, (proj2 (Z.leb_le 128 v)) by lia.
    rewrite len_cons, Z.shiftr_div_pow2 by lia. change (2 ^ 7) with 128.
    rewrite Nat2Z.inj_succ, Z.pow_succ_r in V by lia.
    rewrite IH, (varint_len_loop_acc _ _ 1), (varint_len_loop_acc _ _ (1 + 1)); [lia|].
    split; [apply Z.div_pos; lia|]. apply Z.div_lt_upper_bound; lia.
Qed.

Lemma len_enc_varint v : is_u64 v -> len (enc_varint v) = varint_len v.
Proof. intros R. unfold is_u64 in R. apply len_enc_varint_loop. simpl. lia. Qed.

Lemma varint_len_loop_range n v : 0 <= varint_len_loop n v 0 <= Z.of_nat n.
Proof.
  revert v. induction n as [|n IH]; intros v; cbn [varint_len_loop]; [lia|].
  case_if; [|lia]. rewrite varint_len_loop_acc. specialize (IH (Z.shiftr v 7)). lia.
Qed.

Lemma varint_len_range v : 1 <= varint_len v <= 10.
Proof. unfold varint_len. rewrite varint_len_loop_acc. pose proof (varint_len_loop_range 9 v). lia. Qed.

(** *** Counts, records and strings *)

Lemma reads_u32_varint v : is_u32 v -> reads Reader.u32_varint (enc_varint v) v.
Proof.
  intros R. unfold is_u32 in R. eapply reads_bind_end; [apply reads_varint; unfold is_u64; lia|].
  apply reads_lift. apply to_u32_Ok. lia.
Qed.

Lemma accepts_u32_varint : accepts Reader.u32_varint (fun v c => is_u32 v /\ c = enc_varint v).
Proof.
  intros s l v s' V E. unfold Reader.u32_varint in E. inv_bind. fwd to_u32_Ok. destruct_and?; subst.
  destruct (accepts_varint _ _ _ _ V Heqr) as (c & r & -> & V' & R & ->). eexists _, _.
  split; [reflexivity|]. unfold is_u32, is_u64 in *. auto with lia.
Qed.

Lemma reads_bounded_count f m v :
  is_u64 v -> v <= m -> reads (Reader.bounded_count f m) (enc_varint v) v.
Proof.
  intros R B. eapply reads_bind_end; [by apply reads_varint|].
  eapply reads_bind_nil; [apply reads_lift, usize_to_u64_Ok; unfold is_u64 in R; split; [reflexivity|lia]|].
  eapply reads_bind_nil; [by apply reads_lift, validate_count_Ok|apply reads_ret].
Unshelve. exact tt.
Qed.

Lemma accepts_bounded_count f m :
  accepts (Reader.bounded_count f m) (fun v c => is_u64 v /\ v <= m /\ c = enc_varint v).
Proof.
  intros s l v s' V E. unfold Reader.bounded_count in E. inv_bind.
  fwd usize_to_u64_Ok. fwd validate_count_Ok. destruct_and?; subst.
  destruct (accepts_varint _ _ _ _ V Heqr) as (c & r & -> & V' & R & ->). eexists _, _.
  split; [reflexivity|]. auto.
Qed.

Lemma reads_record m bs :
  len bs <= u64_max -> len bs <= m -> reads (Reader.record m) (framed bs) (Reader.new bs).
Proof.
  intros U B. pose proof (len_nonneg bs).
  eapply reads_bind; [apply reads_bounded_count; [unfold is_u64|]; lia|].
  eapply reads_bind_end; [by apply run_reads_bytes|apply reads_ret].
Qed.

Lemma accepts_record m :
  accepts (Reader.record m)
    (fun r c => c = framed (Reader.remaining r) /\ len (Reader.remaining r) <= u64_max
                /\ len (Reader.remaining r) <= m).
Proof.
  intros s l v s' V E. unfold Reader.record in E. inv_bind.
  destruct (accepts_bounded_count _ _ _ _ _ _ V Heqr) as (c & r & -> & V' & R & B & ->).
  unfold is_u64 in R.
  destruct (run_accepts_bytes _ (proj1 R) _ _ _ _ V' Heqr0) as (c & r' & -> & V2 & -> & <-).
  eexists (framed _), r'. unfold framed. rewrite <- app_assoc. simpl. auto with lia.
Qed.

Lemma reads_typed_string f m kind s :
  wf_name s -> len s <= u64_max -> len s <= m ->
  reads (Reader.typed_string f m (validate_non_empty kind)) (framed s) s.
Proof.
  intros W U B. pose proof (len_nonneg s).
  eapply reads_bind; [apply reads_bounded_count; [unfold is_u64|]; lia|].
  eapply reads_bind_end; [by apply run_reads_bytes|].
  eapply reads_bind_nil; [apply reads_lift; by rewrite is_name_utf8|].
  apply reads_lift. by rewrite validate_non_empty_ok.
Qed.

Lemma accepts_typed_string f m kind :
  accepts (Reader.typed_string f m (validate_non_empty kind))
    (fun s c => wf_name s /\ len s <= u64_max /\ len s <= m /\ c = framed s).
Proof.
  intros s l v s' V E. unfold Reader.typed_string in E. inv_bind.
  destruct (accepts_bounded_count _ _ _ _ _ _ V Heqr) as (c & r & -> & V' & R & B & ->).
  unfold is_u64 in R.
  destruct (run_accepts_bytes _ (proj1 R) _ _ _ _ V' Heqr0) as (c & r' & -> & V2 & -> & <-).
  fwd validate_non_empty_inv. destruct_and?; subst. b2p.
  eexists (framed _), r'. unfold framed. rewrite <- app_assoc. simpl. split; [done|]. split; [done|].
  split; [by apply wf_name_intro|auto with lia].
Qed.

(** ** The exact varint codec *)

Lemma u8_fits z w :
  len (Writer.buffer w) + 1 <= Writer.maximum w <= u64_max ->
  Writer.u8 z w
  = Ok (tt, {| Writer.buffer := Writer.buffer w ++ [to_u8 z]; Writer.maximum := Writer.maximum w |}).
Proof.
  intros B. unfold Writer.u8, Writer.bytes, Writer.reserve. rewrite len_cons, len_nil.
  rewrite checked_add_ok by lia. cbn [ok_or rbind]. by rewrite (proj2 (validate_count_Ok _ _ _ tt)) by lia.
Qed.

Lemma varint_last n v w :
  0 <= v < 128 -> len (Writer.buffer w) + 1 <= Writer.maximum w <= u64_max ->
  Writer.varint_loop (S n) v w
  = Ok (tt, {| Writer.buffer := Writer.buffer w ++ enc_varint_loop (S n) v;
               Writer.maximum := Writer.maximum w |}).
Proof.
  intros P B. cbn [Writer.varint_loop enc_varint_loop].
  rewrite low_bits, Z.shiftr_div_pow2, (proj2 (Z.ltb_lt _ _)) by lia. change (2 ^ 7) with 128.
  rewrite Z.div_small, Z.mod_small by lia. cbn [Z.eqb]. unfold mbind. by rewrite u8_fits.
Qed.

(** A varint is written whenever its bytes fit. *)
Lemma varint_loop_fits fuel v w :
  0 <= v < 2 ^ (7 * Z.of_nat (S fuel)) ->
  len (Writer.buffer w) + len (enc_varint_loop (S fuel) v) <= Writer.maximum w <= u64_max ->
  Writer.varint_loop (S fuel) v w
  = Ok (tt, {| Writer.buffer := Writer.buffer w ++ enc_varint_loop (S fuel) v;
               Writer.maximum := Writer.maximum w |}).
Proof.
  revert v w. induction fuel as [|fuel IH]; intros v w P B.
  { change (2 ^ (7 * Z.of_nat 1)) with 128 in P. apply varint_last; [done|].
    cbn [enc_varint_loop] in B. rewrite (proj2 (Z.ltb_lt v 128)), len_cons, len_nil in B by lia. lia. }
  destruct (Z.ltb_spec v 128) as [Hs|Hl].
  { apply varint_last; [lia|]. cbn [enc_varint_loop] in B.
    rewrite (proj2 (Z.ltb_lt v 128)), len_cons, len_nil in B by lia. lia. }
  remember (S fuel) as n. cbn [Writer.varint_loop enc_varint_loop] in *.
  rewrite (proj2 (Z.ltb_ge v 128)) in * by lia. rewrite low_bits, Z.shiftr_div_pow2 by lia.
  change (2 ^ 7) with 128. rewrite len_cons in B. pose proof (len_nonneg (enc_varint_loop n (v / 128))).
  assert (0 < v / 128) by (apply Z.div_str_pos; lia). pose proof (Z.mod_pos_bound v 128).
  rewrite (proj2 (Z.eqb_neq _ _)), or_continue by lia. unfold mbind. rewrite u8_fits by lia.
  rewrite IH; cbn [Writer.buffer Writer.maximum].
  - by rewrite <- app_assoc.
  - split; [lia|]. apply Z.div_lt_upper_bound; [lia|]. rewrite Nat2Z.inj_succ in P.
    replace (7 * Z.succ (Z.of_nat n)) with (7 + 7 * Z.of_nat n) in P by lia.
    rewrite Z.pow_add_r in P by lia. exact (proj2 P).
  - rewrite len_app, len_cons, len_nil. lia.
Qed.

(** The variable-length integer codec is exact: the reader takes a value
    off its input precisely when the value fits 64 bits and the input starts
    with the bytes the writer produces for it.  Every 64-bit value is written
    in [varint_len] bytes, and no longer form of it is accepted. *)
Theorem varint_codec_exact bs v rest :
  Reader.varint (Reader.new bs) = Ok (v, Reader.new rest) <->
  is_u64 v /\ exists w, Writer.varint v (Writer.new (varint_len v)) = Ok (tt, w)
                       /\ bs = Writer.finish w ++ rest.
Proof.
  assert (forall v, is_u64 v -> Writer.varint v (Writer.new (varint_len v))
            = Ok (tt, {| Writer.buffer := enc_varint v; Writer.maximum := varint_len v |})) as G.
  { intros u U. pose proof (varint_len_range u). pose proof (len_enc_varint u U). unfold is_u64 in U.
    apply (varint_loop_fits 9 u (Writer.new (varint_len u))); [simpl; lia|].
    cbn [Writer.new Writer.buffer Writer.maximum]. rewrite len_nil. unfold enc_varint in *. lia. }
  split.
  - intros E. destruct (accepts_varint (Reader.new bs) bs _ _ eq_refl E) as (c & rest' & -> & V & U & ->).
    unfold view, cursor_run in V. simpl in V. subst. split; [done|]. eexists. split; [by apply G|done].
  - intros [U (w & E & ->)]. rewrite (G v U) in E. inv_bind. cbn [Writer.finish Writer.buffer].
    destruct (reads_varint v U (Reader.new (enc_varint v ++ rest)) rest) as ([r] & E & V); [done|].
    unfold view, cursor_run in V. simpl in V. by subst.
Qed.
