(* ===== verification/RunTypes.v ===== *)
(** * Index-run data (crates/rs3-index/src/run.rs)

    The records of a plaintext index run, the blind key and its lowercase-hex
    text form, and what the Rust types guarantee of each record. *)

From Stdlib Require Import Strings.String.
From S2P Require Import Prelude Ord Text Types Etag Checksum Completion Layout RunWire.
Open Scope Z_scope.

Definition INDEX_RUN_PLAINTEXT_DOMAIN : list byte :=
  bytes_of_string "rs3:index-run-frame-plaintext:v2" ++ [x0a].
Definition INDEX_RUN_WIRE_VERSION : Z := 10.
Definition INDEX_PACK_MAX_STORED_BYTES : Z := 32 * 1024 * 1024.
Definition INDEX_PACK_MAX_RECORDS : Z := 4096.
Definition INDEX_PACK_SEGMENT_BYTES : Z := PAYLOAD_PACK_SEGMENT_BYTES.
Definition INDEX_PACK_SEGMENT_TAG_BYTES : Z := PAYLOAD_AEAD_TAG_LEN.

(** ** Blind keys: [u8; 32] *)

Definition IndexBlindKey : Type := list byte.

(** [HEX]: the digits [0..9] then [a..f]. *)
Definition HEX : list byte := bytes_of_string "0123456789abcdef".
Definition hex_digit (n : Z) : byte := nth (Z.to_nat n) HEX x00.

Definition hex_encode (bytes : list byte) : text :=
  flat_map (fun b => [hex_digit (Z.shiftr (u8 b) 4); hex_digit (Z.land (u8 b) 0x0f)]) bytes.

Definition to_blind_index_key (key : IndexBlindKey) : result IndexRunError text :=
  map_err (fun _ => InvalidValue "blind key") (BlindIndexKey_new (hex_encode key)).

Definition decode_lower_hex (byte : Z) : option Z :=
  if (48 <=? byte) && (byte <=? 57) then Some (byte - 48)
  else if (97 <=? byte) && (byte <=? 102) then Some (byte - 97 + 10)
  else None.

(** [encoded.chunks_exact(2)]: a last odd byte is not visited. *)
Fixpoint try_from_pairs (encoded : list byte) : result IndexRunError (list byte) :=
  match encoded with
  | b0 :: b1 :: rest =>
      high <-? ok_or (decode_lower_hex (u8 b0)) (InvalidValue "blind key") ;;
      low <-? ok_or (decode_lower_hex (u8 b1)) (InvalidValue "blind key") ;;
      bytes <-? try_from_pairs rest ;;
      Ok (to_u8 (Z.lor (Z.shiftl high 4) low) :: bytes)
  | _ => Ok []
  end.

Definition IndexBlindKey_try_from (value : text) : result IndexRunError IndexBlindKey :=
  reject_if (negb (len value =? 64)) (InvalidValue "blind key") ;;?
  try_from_pairs value.

(** ** Records *)

Record IndexRunKeyringRef : Type := {
  kr_object_id : text;
  kr_digest : list byte
}.

Record IndexRunContainer : Type := {
  ct_object_id : text;
  ct_version_id : option text;
  ct_stored_len : Z;
  ct_commit_body_digest : list byte;
  ct_keyring_envelope : IndexRunKeyringRef;
  ct_pack_section_offset : Z;
  ct_pack_section_ordinal : Z;
  ct_pack_section_len : Z;
  ct_pack_id : list byte;
  ct_attempt_id : list byte;
  ct_content_key_id : text;
  ct_pack_record_count : Z
}.

Record IndexRunStandaloneStreamContainer : Type := {
  st_object_id : text;
  st_version_id : option text;
  st_stored_len : Z;
  st_object_digest : list byte;
  st_keyring_envelope : IndexRunKeyringRef;
  st_payload_layout : PayloadLayout
}.

Record IndexRunSelfPack : Type := {
  sp_pack_id : list byte;
  sp_attempt_id : list byte;
  sp_content_key_id : text;
  sp_stored_len : Z;
  sp_record_count : Z
}.

Record IndexPackRecordPointer : Type := {
  record_ordinal : Z;
  physical_offset : Z
}.

Inductive IndexPayloadPointer : Type :=
| Empty
| SelfPack (record : IndexPackRecordPointer)
| ExternalPack (container_ordinal : Z) (record : IndexPackRecordPointer)
| ExternalStandaloneStream (container_ordinal : Z).

Record IndexUpsert : Type := {
  up_mutation_ordinal : Z;
  up_blind_key : IndexBlindKey;
  up_namespace_key_id : text;
  up_path : text;
  up_generation : Z;
  up_payload : IndexPayloadPointer;
  up_content_len : Z;
  up_modified_at_ms : Z;
  up_retention : option RetentionPolicy;
  up_legal_hold : option LegalHoldStatus;
  up_etag : ObjectEtag;
  up_checksum : option ObjectChecksum
}.

Record IndexTombstone : Type := {
  tb_mutation_ordinal : Z;
  tb_blind_key : IndexBlindKey;
  tb_namespace_key_id : text;
  tb_path : text;
  tb_generation : Z
}.

Inductive IndexMutation : Type :=
| Upsert (upsert : IndexUpsert)
| Tombstone (tombstone : IndexTombstone).

Definition ordinal (m : IndexMutation) : Z :=
  match m with
  | Upsert u => up_mutation_ordinal u
  | Tombstone t => tb_mutation_ordinal t
  end.

Definition mutation_blind_key (m : IndexMutation) : IndexBlindKey :=
  match m with
  | Upsert u => up_blind_key u
  | Tombstone t => tb_blind_key t
  end.

Definition mutation_namespace_key_id (m : IndexMutation) : text :=
  match m with
  | Upsert u => up_namespace_key_id u
  | Tombstone t => tb_namespace_key_id t
  end.

Definition mutation_path (m : IndexMutation) : text :=
  match m with
  | Upsert u => up_path u
  | Tombstone t => tb_path t
  end.

Record IndexRun : Type := {
  run_completion_receipt : option CompletionReceipt;
  run_sequence : Z;
  run_self_pack : option IndexRunSelfPack;
  run_containers : list IndexRunContainer;
  run_standalone_stream_containers : list IndexRunStandaloneStreamContainer;
  run_mutations : list IndexMutation
}.

Inductive IndexRunFrameRole : Type := Metadata | Namespace | Listing.

Inductive IndexRunSearchBound : Type :=
| BoundNamespace (blind_key : IndexBlindKey) (mutation_ordinal : Z)
| BoundListing (path : text) (mutation_ordinal : Z).

Record EncodedIndexRunFrame : Type := {
  frame_role : IndexRunFrameRole;
  frame_role_ordinal : Z;
  frame_record_count_ : Z;
  first_bound : option IndexRunSearchBound;
  last_bound : option IndexRunSearchBound;
  frame_bytes : list byte
}.

Record EncodedIndexRun : Type := { frames : list EncodedIndexRunFrame }.

Definition frame_role_tag (role : IndexRunFrameRole) : Z :=
  match role with
  | Metadata => 0
  | Namespace => 1
  | Listing => 2
  end.

#[export] Instance role_eq_dec : EqDecision IndexRunFrameRole.
Proof. solve_decision. Defined.
#[export] Instance keyring_eq_dec : EqDecision IndexRunKeyringRef.
Proof. solve_decision. Defined.
#[export] Instance self_pack_eq_dec : EqDecision IndexRunSelfPack.
Proof. solve_decision. Defined.
#[export] Instance record_pointer_eq_dec : EqDecision IndexPackRecordPointer.
Proof. solve_decision. Defined.
#[export] Instance payload_pointer_eq_dec : EqDecision IndexPayloadPointer.
Proof. solve_decision. Defined.

(** The exact object a container names; the key of the container tables. *)
Definition ct_key (c : IndexRunContainer) : text * option text := (ct_object_id c, ct_version_id c).
Definition st_key (c : IndexRunStandaloneStreamContainer) : text * option text :=
  (st_object_id c, st_version_id c).

(** ** What the Rust types guarantee *)

Definition wf32 (bs : list byte) : Prop := length bs = 32%nat.

Definition wf_keyring (k : IndexRunKeyringRef) : Prop := wf_name (kr_object_id k) /\ wf32 (kr_digest k).

Definition wf_version (v : option text) : Prop := forall s, v = Some s -> wf_name s.

Definition wf_container (c : IndexRunContainer) : Prop :=
  wf_name (ct_object_id c) /\ wf_version (ct_version_id c) /\ is_u64 (ct_stored_len c)
  /\ wf32 (ct_commit_body_digest c) /\ wf_keyring (ct_keyring_envelope c)
  /\ is_u64 (ct_pack_section_offset c) /\ is_u32 (ct_pack_section_ordinal c)
  /\ is_u64 (ct_pack_section_len c) /\ wf32 (ct_pack_id c) /\ wf32 (ct_attempt_id c)
  /\ wf_name (ct_content_key_id c) /\ is_u32 (ct_pack_record_count c).

Definition wf_stream (c : IndexRunStandaloneStreamContainer) : Prop :=
  wf_name (st_object_id c) /\ wf_version (st_version_id c) /\ is_u64 (st_stored_len c)
  /\ wf32 (st_object_digest c) /\ wf_keyring (st_keyring_envelope c)
  /\ wf_layout (st_payload_layout c).

Definition wf_self_pack (p : IndexRunSelfPack) : Prop :=
  wf32 (sp_pack_id p) /\ wf32 (sp_attempt_id p) /\ wf_name (sp_content_key_id p)
  /\ is_u64 (sp_stored_len p) /\ is_u32 (sp_record_count p).

Definition wf_pointer (p : IndexPackRecordPointer) : Prop :=
  is_u32 (record_ordinal p) /\ is_u32 (physical_offset p).

Definition wf_payload (p : IndexPayloadPointer) : Prop :=
  match p with
  | Empty => True
  | SelfPack r => wf_pointer r
  | ExternalPack c r => is_u32 c /\ wf_pointer r
  | ExternalStandaloneStream c => is_u32 c
  end.

Definition wf_option {A} (P : A -> Prop) (o : option A) : Prop := forall a, o = Some a -> P a.

Definition wf_upsert (u : IndexUpsert) : Prop :=
  is_u32 (up_mutation_ordinal u) /\ wf32 (up_blind_key u) /\ wf_name (up_namespace_key_id u)
  /\ wf_name (up_path u) /\ is_u64 (up_generation u) /\ wf_payload (up_payload u)
  /\ is_u64 (up_content_len u) /\ is_i64 (up_modified_at_ms u)
  /\ wf_option wf_retention (up_retention u) /\ wf_etag (up_etag u)
  /\ wf_option wf_checksum (up_checksum u).

Definition wf_tombstone (t : IndexTombstone) : Prop :=
  is_u32 (tb_mutation_ordinal t) /\ wf32 (tb_blind_key t) /\ wf_name (tb_namespace_key_id t)
  /\ wf_name (tb_path t) /\ is_u64 (tb_generation t).

Definition wf_mutation (m : IndexMutation) : Prop :=
  match m with
  | Upsert u => wf_upsert u
  | Tombstone t => wf_tombstone t
  end.

Definition wf_run (r : IndexRun) : Prop :=
  wf_option wf_receipt (run_completion_receipt r) /\ is_u64 (run_sequence r)
  /\ wf_option wf_self_pack (run_self_pack r) /\ Forall wf_container (run_containers r)
  /\ Forall wf_stream (run_standalone_stream_containers r) /\ Forall wf_mutation (run_mutations r).

(** ** Hexadecimal blind keys *)

(** A digit is a lowercase hexadecimal character and decodes to itself. *)
Lemma hex_digit_ok n :
  0 <= n < 16 ->
  decode_lower_hex (u8 (hex_digit n)) = Some n /\ u8 (hex_digit n) < 0x80
  /\ is_whitespace (u8 (hex_digit n)) = false.
Proof.
  intros R. assert (In (Z.to_nat n) (seq 0 16)) as I by (apply in_seq; lia).
  rewrite <- (Z2Nat.id n) by lia. revert I. generalize (Z.to_nat n). intros m I.
  repeat (destruct I as [<-|I]; [by vm_compute|]). destruct I.
Qed.

Lemma decode_hex_inv b n : decode_lower_hex (u8 b) = Some n -> 0 <= n < 16 /\ hex_digit n = b.
Proof. destruct b; intros E; vm_compute in E; try discriminate E; injection E as <-; split; (lia || reflexivity). Qed.

Lemma low_nibble v : Z.land v 0x0f = v mod 16.
Proof. apply (land_pow2_minus1 v 4). lia. Qed.

Lemma nibbles b :
  0 <= Z.shiftr (u8 b) 4 < 16 /\ 0 <= Z.land (u8 b) 0x0f < 16
  /\ to_u8 (Z.lor (Z.shiftl (Z.shiftr (u8 b) 4) 4) (Z.land (u8 b) 0x0f)) = b.
Proof.
  pose proof (u8_range b). rewrite low_nibble.
  rewrite Z.shiftr_div_pow2 by lia. change (2 ^ 4) with 16. pose proof (Z.mod_pos_bound (u8 b) 16).
  rewrite lor_shiftl by lia. split; [split; [apply Z.div_pos|apply Z.div_lt_upper_bound]; lia|].
  split; [lia|]. apply to_u8_eq. change (2 ^ 4) with 16. rewrite Z.mul_comm. apply Z.div_mod. lia.
Qed.

Lemma nibbles_inv h l :
  0 <= h < 16 -> 0 <= l < 16 ->
  Z.shiftr (u8 (to_u8 (Z.lor (Z.shiftl h 4) l))) 4 = h
  /\ Z.land (u8 (to_u8 (Z.lor (Z.shiftl h 4) l))) 0x0f = l.
Proof.
  intros H L. rewrite lor_shiftl, u8_to_u8_small by (simpl; lia).
  rewrite low_nibble, Z.shiftr_div_pow2 by lia. change (2 ^ 4) with 16.
  rewrite Z.add_comm, Z.div_add, Z.mod_add, Z.div_small, Z.mod_small by lia. lia.
Qed.

Lemma try_from_pairs_encode key : try_from_pairs (hex_encode key) = Ok key.
Proof.
  induction key as [|b key IH]; [done|]. cbn [hex_encode flat_map app try_from_pairs].
  destruct (nibbles b) as (H & L & E).
  rewrite (proj1 (hex_digit_ok _ H)), (proj1 (hex_digit_ok _ L)). simpl.
  fold (hex_encode key). by rewrite IH, E.
Qed.

Lemma try_from_pairs_canonical s key :
  try_from_pairs s = Ok key -> Nat.Even (length s) -> s = hex_encode key /\ length s = (2 * length key)%nat.
Proof.
  assert (forall n s key, (length s <= n)%nat -> try_from_pairs s = Ok key -> Nat.Even (length s) ->
            s = hex_encode key /\ length s = (2 * length key)%nat) as G.
  { clear. induction n as [|n IH]; intros s key N E Ev.
    { destruct s; [|simpl in N; lia]. simpl in E. by inv_bind. }
    destruct s as [|b0 [|b1 s]]; simpl in E; [by inv_bind|by destruct Ev; simpl in *; lia|].
    inv_bind. destruct (IH s a1) as [-> Ls]; [simpl in N; lia|done| |].
    { destruct Ev as [k Ek]. exists (k - 1)%nat. simpl in Ek. lia. }
    fwd decode_hex_inv. fwd decode_hex_inv. destruct_and?; subst.
    cbn [hex_encode flat_map]. destruct (nibbles_inv a a0) as [-> ->]; [lia..|].
    split; [done|]. simpl. fold (hex_encode a1). lia. }
  by apply (G (length s)).
Qed.

Lemma length_hex_encode key : length (hex_encode key) = (2 * length key)%nat.
Proof. unfold hex_encode. induction key; simpl; [done|]. lia. Qed.

Lemma hex_encode_name key : wf32 key -> wf_name (hex_encode key).
Proof.
  intros L. assert (Forall (fun b => u8 b < 0x80 /\ is_whitespace (u8 b) = false) (hex_encode key)) as F.
  { clear. induction key as [|b key IH]; [constructor|]. destruct (nibbles b) as (H & Lo & _).
    destruct (hex_digit_ok _ H) as (_ & ? & ?), (hex_digit_ok _ Lo) as (_ & ? & ?).
    cbn [hex_encode flat_map app]. constructor; [done|]. constructor; [done|]. exact IH. }
  assert (utf8_chars (hex_encode key) = Some (map u8 (hex_encode key))) as U.
  { apply utf8_chars_ascii. eapply Forall_impl; [|exact F]. simpl. tauto. }
  apply wf_name_intro; [by unfold utf8_valid; rewrite U|]. unfold trim_is_empty. rewrite U.
  pose proof (length_hex_encode key) as Le. rewrite L in Le.
  destruct (hex_encode key) as [|b k]; [done|]. inversion F as [|? ? [_ Ws] _]; subst.
  cbn [map forallb]. by rewrite Ws.
Qed.

(** The hexadecimal form of a blind key is exact: a lookup key parses to a
    blind key precisely when the blind key has 32 bytes and the lookup key is
    what [to_blind_index_key] makes of it.  In particular upper-case digits
    and other lengths are refused, and no two lookup keys name one blind key. *)
Theorem blind_key_hex_exact value key :
  IndexBlindKey_try_from value = Ok key <-> wf32 key /\ to_blind_index_key key = Ok value.
Proof.
  assert (forall k, wf32 k -> to_blind_index_key k = Ok (hex_encode k)) as T.
  { intros k W. unfold to_blind_index_key, BlindIndexKey_new.
    by rewrite (validate_non_empty_ok _ _ (hex_encode_name k W)). }
  unfold IndexBlindKey_try_from. split.
  - intros E. inv_bind. b2p.
    apply try_from_pairs_canonical in E as [-> L]; [|exists 32%nat; unfold len in *; lia].
    unfold len in *. assert (wf32 key) by (unfold wf32; lia). auto.
  - intros [W E]. rewrite (T _ W) in E. inv_bind. rewrite try_from_pairs_encode.
    unfold len, reject_if. rewrite length_hex_encode, W. done.
Qed.
