(* ===== verification/RunValidate.v ===== *)
(** * Validation of index runs (crates/rs3-index/src/run.rs)

    The checks that the encoder runs before it writes a run and that the
    decoder repeats on what it read: limits, table order, container ranges,
    payload pointers, use of every container, agreement and disjointness of
    pack records, and the scope of a completion receipt. *)

From Stdlib Require Import Strings.String Sorted Permutation.
From S2P Require Import Prelude Ord Text Types Etag Checksum Completion Layout RunWire RunTypes.
Open Scope Z_scope.

Abbreviation V := (result IndexRunError unit).

(** ** Tables *)

Definition validate_container_order (previous : option (text * option text))
    (key : text * option text) : V :=
  match previous with
  | Some previous =>
      match cmp previous key with
      | Eq => Err DuplicateContainer
      | Gt => Err InvalidContainerOrder
      | Lt => Ok tt
      end
  | None => Ok tt
  end.

Definition validate_version_id (version_id : option text) (limits : IndexRunLimits) : V :=
  match version_id with
  | Some v => validate_count "version id" (len v) (max_version_id_bytes limits)
  | None => Ok tt
  end.

Definition validate_container_range (c : IndexRunContainer) : V :=
  section_end <-? ok_or (checked_add (ct_pack_section_offset c) (ct_pack_section_len c))
                    InvalidContainerRange ;;
  reject_if ((ct_pack_section_len c =? 0)
             || (ct_pack_section_len c >? INDEX_PACK_MAX_STORED_BYTES)
             || (ct_pack_record_count c =? 0)
             || (ct_pack_record_count c >? INDEX_PACK_MAX_RECORDS)
             || (section_end >? ct_stored_len c)) InvalidContainerRange.

Fixpoint validate_containers_loop (previous : option (text * option text))
    (containers : list IndexRunContainer) (limits : IndexRunLimits) : V :=
  match containers with
  | [] => Ok tt
  | c :: containers' =>
      validate_count "object id" (len (ct_object_id c)) (max_object_id_bytes limits) ;;?
      validate_version_id (ct_version_id c) limits ;;?
      validate_count "keyring envelope object id" (len (kr_object_id (ct_keyring_envelope c)))
        (max_object_id_bytes limits) ;;?
      validate_count "content key id" (len (ct_content_key_id c)) (max_key_id_bytes limits) ;;?
      validate_container_range c ;;?
      validate_container_order previous (ct_key c) ;;?
      validate_containers_loop (Some (ct_key c)) containers' limits
  end.

Definition validate_containers (containers : list IndexRunContainer) (limits : IndexRunLimits) : V :=
  validate_containers_loop None containers limits.

Definition validate_exact_container (object_id : text) (version_id : option text)
    (keyring_envelope : IndexRunKeyringRef) (limits : IndexRunLimits) : V :=
  validate_count "object id" (len object_id) (max_object_id_bytes limits) ;;?
  validate_version_id version_id limits ;;?
  validate_count "keyring envelope object id" (len (kr_object_id keyring_envelope))
    (max_object_id_bytes limits).

Definition validate_payload_layout (header : PayloadLayout) (limits : IndexRunLimits) : V :=
  validate_count "content key id" (len (layout_key_id header)) (max_key_id_bytes limits) ;;?
  _ <-? ok_or (PayloadLayout_stored_len header) InvalidStandaloneStreamContainer ;;
  Ok tt.

Definition stream_payload_stored_len (header : PayloadLayout) : result IndexRunError Z :=
  ok_or (PayloadLayout_stored_len header) InvalidStandaloneStreamContainer.

Definition validate_standalone_stream_container (c : IndexRunStandaloneStreamContainer)
    (limits : IndexRunLimits) : V :=
  map_err (fun _ => InvalidStandaloneStreamContainer)
    (validate_payload_layout (st_payload_layout c) limits) ;;?
  stored <-? map_err (fun _ => InvalidStandaloneStreamContainer)
               (stream_payload_stored_len (st_payload_layout c)) ;;
  reject_if (negb (stored =? st_stored_len c)) InvalidStandaloneStreamContainer.

Fixpoint validate_streams_loop (previous : option (text * option text))
    (containers : list IndexRunStandaloneStreamContainer) (limits : IndexRunLimits) : V :=
  match containers with
  | [] => Ok tt
  | c :: containers' =>
      validate_exact_container (st_object_id c) (st_version_id c) (st_keyring_envelope c) limits ;;?
      validate_standalone_stream_container c limits ;;?
      validate_container_order previous (st_key c) ;;?
      validate_streams_loop (Some (st_key c)) containers' limits
  end.

Definition validate_standalone_stream_containers
    (containers : list IndexRunStandaloneStreamContainer) (limits : IndexRunLimits) : V :=
  validate_streams_loop None containers limits.

Fixpoint distinct_loop (exact : BTreeSet (text * option text)) (keys : list (text * option text)) : V :=
  match keys with
  | [] => Ok tt
  | key :: keys' =>
      let '(inserted, exact) := bs_insert key exact in
      if negb inserted then Err DuplicateContainer else distinct_loop exact keys'
  end.

Definition validate_distinct_container_objects (pack : list IndexRunContainer)
    (standalone_stream : list IndexRunStandaloneStreamContainer) : V :=
  distinct_loop [] (map ct_key pack ++ map st_key standalone_stream).

Definition validate_self_pack (self_pack : option IndexRunSelfPack) (limits : IndexRunLimits) : V :=
  match self_pack with
  | None => Ok tt
  | Some pack =>
      validate_count "content key id" (len (sp_content_key_id pack)) (max_key_id_bytes limits) ;;?
      reject_if ((sp_stored_len pack =? 0)
                 || (sp_stored_len pack >? INDEX_PACK_MAX_STORED_BYTES)
                 || (sp_record_count pack =? 0)
                 || (sp_record_count pack >? INDEX_PACK_MAX_RECORDS)) InvalidPackRecordCount
  end.

(** The ordinals [0 .. count] are all used; the three callers differ in the
    error. *)
Fixpoint validate_use (unused : Z -> IndexRunError) (n : nat) (index : Z) (used : BTreeSet Z) : V :=
  match n with
  | O => Ok tt
  | S n' =>
      ordinal <-? to_u32 index ;;
      if negb (bs_mem ordinal used) then Err (unused ordinal)
      else validate_use unused n' (index + 1) used
  end.

Definition validate_container_use (container_count : nat) (used_containers : BTreeSet Z)
    (uses_self_pack : bool) (self_pack : option IndexRunSelfPack) : V :=
  let is_some := match self_pack with Some _ => true | None => false end in
  let zero := match self_pack with Some pack => sp_record_count pack =? 0 | None => false end in
  reject_if (negb (Bool.eqb uses_self_pack is_some) || zero) InvalidPackRecordCount ;;?
  validate_use UnusedContainer container_count 0 used_containers.

Definition validate_standalone_stream_container_use (container_count : nat)
    (used_containers : BTreeSet Z) : V :=
  validate_use UnusedStandaloneStreamContainer container_count 0 used_containers.

Definition validate_namespace_key_use (namespace_key_count : nat)
    (used_namespace_key_ids : BTreeSet Z) : V :=
  validate_use UnusedNamespaceKey namespace_key_count 0 used_namespace_key_ids.

Definition validate_next_container_count (containers : list IndexRunContainer)
    (standalone_stream_containers : list IndexRunStandaloneStreamContainer)
    (limits : IndexRunLimits) : V :=
  n <-? ok_or (checked_add (len containers) (len standalone_stream_containers)) IntegerOverflow ;;
  actual <-? ok_or (checked_add n 1) IntegerOverflow ;;
  validate_count "container count" actual (max_containers limits).

(** ** Payload pointers *)

Definition validate_container_ordinal (ordinal : Z) (container_count : Z) : V :=
  reject_if (ordinal >=? container_count) (InvalidContainerOrdinal ordinal).

Definition validate_empty_payload (pointer : IndexPayloadPointer) (content_len : Z) : V :=
  match pointer with
  | Empty => if content_len =? 0 then Ok tt else Err InvalidEmptyPayload
  | ExternalStandaloneStream _ => Ok tt
  | SelfPack _ | ExternalPack _ _ =>
      if negb (content_len =? 0) then Ok tt else Err InvalidEmptyPayload
  end.

Definition derived_record_stored_len (content_len : Z) : result IndexRunError Z :=
  let segment_count := div_ceil content_len INDEX_PACK_SEGMENT_BYTES in
  tags <-? ok_or (checked_mul segment_count INDEX_PACK_SEGMENT_TAG_BYTES) InvalidPackRecordRange ;;
  ok_or (checked_add content_len tags) InvalidPackRecordRange.

(** The end of [validate_payload_pointer], for a record of a pack. *)
Definition validate_record_range (record : IndexPackRecordPointer) (content_len pack_stored_len : Z) : V :=
  stored_len <-? derived_record_stored_len content_len ;;
  end_ <-? ok_or (checked_add (physical_offset record) stored_len) InvalidPackRecordRange ;;
  reject_if ((content_len =? 0) || (end_ >? pack_stored_len)) InvalidPackRecordRange.

(** [table[ordinal]] after the ordinal was checked. *)
Definition table_get {A} (table : list A) (ordinal : Z) : result IndexRunError A :=
  ok_or (table !! Z.to_nat ordinal) (InvalidContainerOrdinal ordinal).

Definition validate_payload_pointer (pointer : IndexPayloadPointer) (content_len : Z)
    (self_pack : option IndexRunSelfPack) (containers : list IndexRunContainer)
    (standalone_stream_containers : list IndexRunStandaloneStreamContainer) : V :=
  match pointer with
  | Empty => Ok tt
  | SelfPack record =>
      pack <-? ok_or self_pack InvalidPackRecordCount ;;
      validate_record_range record content_len (sp_stored_len pack)
  | ExternalPack container_ordinal record =>
      validate_container_ordinal container_ordinal (len containers) ;;?
      container <-? table_get containers container_ordinal ;;
      validate_record_range record content_len (ct_pack_section_len container)
  | ExternalStandaloneStream container_ordinal =>
      validate_container_ordinal container_ordinal (len standalone_stream_containers) ;;?
      container <-? table_get standalone_stream_containers container_ordinal ;;
      reject_if (negb (plaintext_len (st_payload_layout container) =? content_len))
        InvalidStandaloneStreamContainer
  end.

(** ** Repeated record facts *)

(** The pack and record an upsert points at: pack 0 is the commit's own. *)
Definition record_source (payload : IndexPayloadPointer) :
    result IndexRunError (option (Z * IndexPackRecordPointer)) :=
  match payload with
  | Empty | ExternalStandaloneStream _ => Ok None
  | SelfPack record => Ok (Some (0, record))
  | ExternalPack container_ordinal record =>
      source <-? ok_or (checked_add_u32 container_ordinal 1) IntegerOverflow ;;
      Ok (Some (source, record))
  end.

Definition Facts : Type := BTreeMap (Z * Z) (IndexPackRecordPointer * Z).
(** [(source, physical offset, end, record ordinal)]. *)
Definition Span : Type := Z * Z * Z * Z.

(** The first loop: each record's facts once, agreeing wherever repeated. *)
Fixpoint record_facts_loop (facts : Facts) (spans : list Span) (mutations : list IndexMutation) :
    result IndexRunError (list Span) :=
  match mutations with
  | [] => Ok spans
  | Tombstone _ :: mutations' => record_facts_loop facts spans mutations'
  | Upsert upsert :: mutations' =>
      source_record <-? record_source (up_payload upsert) ;;
      match source_record with
      | None => record_facts_loop facts spans mutations'
      | Some (source, record) =>
          let key := (source, record_ordinal record) in
          let value := (record, up_content_len upsert) in
          match bt_get key facts with
          | Some previous =>
              if bool_decide (previous = value) then record_facts_loop facts spans mutations'
              else Err PackRecordFactsMismatch
          | None =>
              let facts := bt_insert key value facts in
              stored_len <-? derived_record_stored_len (up_content_len upsert) ;;
              end_ <-? ok_or (checked_add (physical_offset record) stored_len) InvalidPackRecordRange ;;
              record_facts_loop facts
                (spans ++ [(source, physical_offset record, end_, record_ordinal record)]) mutations'
          end
      end
  end.

(** [spans.windows(2)]. *)
Fixpoint windows_disjoint (spans : list Span) : V :=
  match spans with
  | (left_source, _, left_end, left_ordinal) ::
    (((right_source, right_start, _, right_ordinal) :: _) as spans') =>
      if (left_source =? right_source) && negb (left_ordinal =? right_ordinal)
         && (right_start <? left_end)
      then Err PackRecordFactsMismatch
      else windows_disjoint spans'
  | _ => Ok tt
  end.

Definition validate_repeated_record_facts (mutations : list IndexMutation) : V :=
  spans <-? record_facts_loop [] [] mutations ;;
  windows_disjoint (sort_by_key id spans).

(** ** Receipts and mutations *)

Definition upserts_of (mutations : list IndexMutation) : list IndexUpsert :=
  omap (fun m => match m with Upsert u => Some u | Tombstone _ => None end) mutations.

Fixpoint receipt_tombstones_loop (upsert : IndexUpsert) (namespaces blind_keys : BTreeSet text)
    (mutations : list IndexMutation) : V :=
  match mutations with
  | [] => Ok tt
  | Upsert _ :: mutations' => receipt_tombstones_loop upsert namespaces blind_keys mutations'
  | Tombstone t :: mutations' =>
      let '(new_namespace, namespaces') := bs_insert (tb_namespace_key_id t) namespaces in
      let '(new_blind_key, blind_keys') := bs_insert (tb_blind_key t) blind_keys in
      if negb (bool_decide (tb_path t = up_path upsert))
         || negb (tb_generation t =? up_generation upsert)
         || negb new_namespace || negb new_blind_key
      then Err FrameFactsMismatch
      else receipt_tombstones_loop upsert namespaces' blind_keys' mutations'
  end.

Definition validate_completion_receipt (run : IndexRun) : V :=
  match run_completion_receipt run with
  | None => Ok tt
  | Some receipt =>
      map_err (fun _ => FrameFactsMismatch) (CompletionReceipt_validate receipt) ;;?
      match upserts_of (run_mutations run) with
      | [] => Err FrameFactsMismatch
      | upsert :: rest =>
          reject_if (negb (len rest =? 0)
                     || negb (bool_decide (up_path upsert = key receipt))
                     || negb (up_content_len upsert =? receipt_content_len receipt)
                     || negb (bool_decide (up_etag upsert = receipt_etag receipt))
                     || negb (bool_decide (up_checksum upsert = receipt_checksum receipt)))
            FrameFactsMismatch ;;?
          receipt_tombstones_loop upsert (bs_collect [up_namespace_key_id upsert])
            (bs_collect [up_blind_key upsert]) (run_mutations run)
      end
  end.

(** A composite checksum covers exactly the parts of the ETag. *)
Definition composite_mismatch (upsert : IndexUpsert) : bool :=
  match up_checksum upsert with
  | Some checksum =>
      match kind checksum with
      | Composite parts => negb (bool_decide (ObjectEtag_part_count (up_etag upsert) = Some parts))
      | FullObject => false
      end
  | None => false
  end.

(** What the loop over the mutations has seen in use. *)
Record Used : Type := {
  used_containers : BTreeSet Z;
  used_streams : BTreeSet Z;
  uses_self : bool
}.

Definition no_use : Used := {| used_containers := []; used_streams := []; uses_self := false |}.

(** The last match of the loop body: bounds of the record and use. *)
Definition validate_use_of (run : IndexRun) (payload : IndexPayloadPointer) (used : Used) :
    result IndexRunError Used :=
  match payload with
  | Empty => Ok used
  | SelfPack record =>
      pack <-? ok_or (run_self_pack run) InvalidPackRecordCount ;;
      reject_if (record_ordinal record >=? sp_record_count pack) InvalidPackRecordCount ;;?
      Ok {| used_containers := used_containers used; used_streams := used_streams used;
            uses_self := true |}
  | ExternalPack container_ordinal record =>
      validate_container_ordinal container_ordinal (len (run_containers run)) ;;?
      container <-? table_get (run_containers run) container_ordinal ;;
      reject_if (record_ordinal record >=? ct_pack_record_count container) InvalidPackRecordCount ;;?
      Ok {| used_containers := bs_add container_ordinal (used_containers used);
            used_streams := used_streams used; uses_self := uses_self used |}
  | ExternalStandaloneStream container_ordinal =>
      validate_container_ordinal container_ordinal (len (run_standalone_stream_containers run)) ;;?
      Ok {| used_containers := used_containers used;
            used_streams := bs_add container_ordinal (used_streams used); uses_self := uses_self used |}
  end.

Definition validate_mutation (run : IndexRun) (limits : IndexRunLimits) (mutation : IndexMutation)
    (used : Used) : result IndexRunError Used :=
  match mutation with
  | Upsert upsert =>
      validate_count "namespace key id" (len (up_namespace_key_id upsert)) (max_key_id_bytes limits) ;;?
      validate_count "logical path" (len (up_path upsert)) (max_path_bytes limits) ;;?
      validate_empty_payload (up_payload upsert) (up_content_len upsert) ;;?
      reject_if (composite_mismatch upsert) FrameFactsMismatch ;;?
      validate_payload_pointer (up_payload upsert) (up_content_len upsert) (run_self_pack run)
        (run_containers run) (run_standalone_stream_containers run) ;;?
      validate_use_of run (up_payload upsert) used
  | Tombstone tombstone =>
      validate_count "namespace key id" (len (tb_namespace_key_id tombstone)) (max_key_id_bytes limits) ;;?
      validate_count "logical path" (len (tb_path tombstone)) (max_path_bytes limits) ;;?
      Ok used
  end.

Fixpoint validate_mutations_loop (run : IndexRun) (limits : IndexRunLimits) (index : Z)
    (mutations : list IndexMutation) (used : Used) : result IndexRunError Used :=
  match mutations with
  | [] => Ok used
  | mutation :: mutations' =>
      expected <-? to_u32 index ;;
      let actual := ordinal mutation in
      reject_if (negb (actual =? expected)) (InvalidMutationOrdinal expected actual) ;;?
      used <-? validate_mutation run limits mutation used ;;
      validate_mutations_loop run limits (index + 1) mutations' used
  end.

Definition validate_mutations (run : IndexRun) (limits : IndexRunLimits) : V :=
  validate_completion_receipt run ;;?
  used <-? validate_mutations_loop run limits 0 (run_mutations run) no_use ;;
  validate_container_use (length (run_containers run)) (used_containers used) (uses_self used)
    (run_self_pack run) ;;?
  validate_standalone_stream_container_use (length (run_standalone_stream_containers run))
    (used_streams used) ;;?
  validate_repeated_record_facts (run_mutations run).
