(* ===== verification/RunEncode.v ===== *)
(** * Encoding of index runs (crates/rs3-index/src/run.rs)

    [encode_index_run_frames] validates a run, writes one record per container,
    namespace key, receipt and mutation, and packs the records of each role
    greedily into frames that fit the frame limit; [encode_index_run] bundles
    the frames. *)

From Stdlib Require Import Strings.String.
From S2P Require Import Prelude Ord Text Types Etag Checksum Completion Layout RunWire RunTypes RunValidate.
Open Scope Z_scope.

(** ** Record bodies *)

Definition encode_exact_container (object_id : text) (version_id : option text) (stored_len : Z)
    (object_digest : list byte) (keyring_envelope : IndexRunKeyringRef) (limits : IndexRunLimits) :
    Writer.W unit :=
  Writer.string object_id (max_object_id_bytes limits) "object id" ;;
  match version_id with
  | None => Writer.u8 0
  | Some version_id =>
      Writer.u8 1 ;;
      Writer.string version_id (max_version_id_bytes limits) "version id"
  end ;;
  Writer.u64 stored_len ;;
  Writer.bytes object_digest ;;
  Writer.string (kr_object_id keyring_envelope) (max_object_id_bytes limits)
    "keyring envelope object id" ;;
  Writer.bytes (kr_digest keyring_envelope).

Definition STANDALONE_CONTAINER_MAX_BYTES : Z := 512 * 1024.

Definition record_limit (role : IndexRunFrameRole) (tag : option Z) (limits : IndexRunLimits) : Z :=
  if bool_decide (role = Metadata) && bool_decide (tag = Some 2)
  then Z.min STANDALONE_CONTAINER_MAX_BYTES (max_frame_bytes limits)
  else max_record_bytes limits.

Fixpoint encode_payload_parts (parts : list PayloadPart) : Writer.W unit :=
  match parts with
  | [] => mret tt
  | part :: parts' =>
      Writer.varint (part_number part) ;;
      Writer.bytes (part_attempt_id part) ;;
      Writer.varint (part_plaintext_len part) ;;
      encode_payload_parts parts'
  end.

Definition encode_payload_layout (layout : PayloadLayout) : Writer.W unit :=
  Writer.varint (chunk_size layout) ;;
  Writer.varint (plaintext_len layout) ;;
  Writer.string (layout_key_id layout) 255 "content key id" ;;
  Writer.bytes (carrier_id layout) ;;
  count <- lift (usize_to_u64 (len (layout_parts layout))) ;;
  Writer.varint count ;;
  encode_payload_parts (layout_parts layout).

Definition encode_pack_record_pointer (pointer : IndexPackRecordPointer) : Writer.W unit :=
  Writer.varint (record_ordinal pointer) ;;
  Writer.varint (physical_offset pointer).

Definition encode_payload_pointer (pointer : IndexPayloadPointer) : Writer.W unit :=
  match pointer with
  | Empty => Writer.u8 0
  | SelfPack record =>
      Writer.u8 1 ;;
      encode_pack_record_pointer record
  | ExternalPack container_ordinal record =>
      Writer.u8 2 ;;
      Writer.varint container_ordinal ;;
      encode_pack_record_pointer record
  | ExternalStandaloneStream container_ordinal =>
      Writer.u8 5 ;;
      Writer.varint container_ordinal
  end.

Definition retention_mode_tag (mode : RetentionMode) : Z :=
  match mode with
  | RetentionNone => 0
  | Governance => 1
  | Compliance => 2
  end.

Definition encode_retention (retention : option RetentionPolicy) : Writer.W unit :=
  match retention with
  | None => Writer.u8 0
  | Some retention =>
      Writer.u8 1 ;;
      Writer.u8 (retention_mode_tag (mode retention)) ;;
      Writer.varint (retain_days retention)
  end.

Definition legal_hold_tag (legal_hold : option LegalHoldStatus) : Z :=
  match legal_hold with
  | None => 0
  | Some Off => 1
  | Some On => 2
  end.

Definition encode_legal_hold (legal_hold : option LegalHoldStatus) : Writer.W unit :=
  Writer.u8 (legal_hold_tag legal_hold).

Definition encode_checksum (checksum : option ObjectChecksum) : Writer.W unit :=
  match checksum with
  | None => Writer.u8 0
  | Some checksum =>
      let encoded := ObjectChecksum_encode checksum in
      lift (validate_count "checksum" (len encoded) MAX_ENCODED_BYTES) ;;
      n <- lift (ok_or (if len encoded <=? u8_max then Some (len encoded) else None) IntegerOverflow) ;;
      Writer.u8 n ;;
      Writer.bytes encoded
  end.

(** ** Records *)

(** Runs a writer on a fresh buffer and returns its bytes. *)
Definition written (maximum : Z) (w : Writer.W unit) : result IndexRunError (list byte) :=
  '(_, writer) <-? w (Writer.new maximum) ;;
  Ok (Writer.finish writer).

Definition encode_container_record (limits : IndexRunLimits) (c : IndexRunContainer) :
    result IndexRunError (list byte) :=
  written (max_record_bytes limits)
    (Writer.u8 0 ;;
     encode_exact_container (ct_object_id c) (ct_version_id c) (ct_stored_len c)
       (ct_commit_body_digest c) (ct_keyring_envelope c) limits ;;
     Writer.varint (ct_pack_section_ordinal c) ;;
     Writer.u64 (ct_pack_section_offset c) ;;
     Writer.u64 (ct_pack_section_len c) ;;
     Writer.bytes (ct_pack_id c) ;;
     Writer.bytes (ct_attempt_id c) ;;
     Writer.string (ct_content_key_id c) (max_key_id_bytes limits) "content key id" ;;
     Writer.varint (ct_pack_record_count c)).

Definition encode_stream_record (limits : IndexRunLimits) (c : IndexRunStandaloneStreamContainer) :
    result IndexRunError (list byte) :=
  written (Z.min STANDALONE_CONTAINER_MAX_BYTES (max_frame_bytes limits))
    (Writer.u8 2 ;;
     encode_exact_container (st_object_id c) (st_version_id c) (st_stored_len c)
       (st_object_digest c) (st_keyring_envelope c) limits ;;
     encode_payload_layout (st_payload_layout c)).

Definition encode_namespace_key_record (limits : IndexRunLimits) (namespace_key_id : text) :
    result IndexRunError (list byte) :=
  written (max_record_bytes limits)
    (Writer.u8 3 ;;
     Writer.string namespace_key_id (max_key_id_bytes limits) "namespace key id").

Definition encode_receipt_record (limits : IndexRunLimits) (receipt : CompletionReceipt) :
    result IndexRunError (list byte) :=
  written (max_record_bytes limits)
    (Writer.u8 4 ;;
     encoded <- lift (map_err (fun _ => FrameFactsMismatch) (CompletionReceipt_encode receipt)) ;;
     Writer.bytes encoded).

Definition namespace_key_ordinal (namespace_key_ids : list text) (namespace_key_id : text) :
    result IndexRunError Z :=
  ordinal <-? ok_or (binary_search namespace_key_ids namespace_key_id)
                (InvalidValue "namespace key id") ;;
  usize_to_u64 ordinal.

Definition encode_namespace_record (limits : IndexRunLimits) (namespace_key_ids : list text)
    (mutation : IndexMutation) : result IndexRunError (list byte) :=
  written (max_record_bytes limits)
    (Writer.varint (ordinal mutation) ;;
     match mutation with
     | Upsert upsert =>
         Writer.u8 0 ;;
         Writer.bytes (up_blind_key upsert) ;;
         n <- lift (namespace_key_ordinal namespace_key_ids (up_namespace_key_id upsert)) ;;
         Writer.varint n ;;
         Writer.varint (up_generation upsert) ;;
         encode_payload_pointer (up_payload upsert) ;;
         Writer.varint (up_content_len upsert) ;;
         Writer.i64 (up_modified_at_ms upsert) ;;
         encode_retention (up_retention upsert) ;;
         encode_legal_hold (up_legal_hold upsert) ;;
         encode_checksum (up_checksum upsert) ;;
         Writer.bytes (ObjectEtag_encode (up_etag upsert))
     | Tombstone tombstone =>
         Writer.u8 1 ;;
         Writer.bytes (tb_blind_key tombstone) ;;
         n <- lift (namespace_key_ordinal namespace_key_ids (tb_namespace_key_id tombstone)) ;;
         Writer.varint n ;;
         Writer.varint (tb_generation tombstone)
     end).

Definition encode_listing_record (limits : IndexRunLimits) (mutation : IndexMutation) :
    result IndexRunError (list byte) :=
  written (max_record_bytes limits)
    (Writer.varint (ordinal mutation) ;;
     match mutation with
     | Upsert upsert =>
         Writer.u8 0 ;;
         Writer.varint (up_generation upsert) ;;
         Writer.varint (up_content_len upsert) ;;
         Writer.i64 (up_modified_at_ms upsert)
     | Tombstone tombstone =>
         Writer.u8 1 ;;
         Writer.varint (tb_generation tombstone)
     end).

(** ** Frames *)

Record PreparedRecord : Type := {
  prep_bytes : list byte;
  prep_bound : option IndexRunSearchBound
}.

Definition PreparedRecord_metadata (bytes : list byte) : PreparedRecord :=
  {| prep_bytes := bytes; prep_bound := None |}.

Definition listing_path (r : PreparedRecord) : option (list byte) :=
  match prep_bound r with
  | Some (BoundListing path _) => Some path
  | _ => None
  end.

Fixpoint shared_prefix_len (previous current : list byte) : Z :=
  match previous, current with
  | a :: previous', b :: current' =>
      if bool_decide (a = b) then 1 + shared_prefix_len previous' current' else 0
  | _, _ => 0
  end.

Definition encoded_len (r : PreparedRecord) (previous_path : list byte) : result IndexRunError Z :=
  match listing_path r with
  | None => Ok (len (prep_bytes r))
  | Some path =>
      let prefix_len := shared_prefix_len previous_path path in
      let suffix_len := len path - prefix_len in
      p <-? usize_to_u64 prefix_len ;;
      n <-? ok_or (checked_add (len (prep_bytes r)) (varint_len p)) IntegerOverflow ;;
      s <-? usize_to_u64 suffix_len ;;
      n <-? ok_or (checked_add n (varint_len s)) IntegerOverflow ;;
      ok_or (checked_add n suffix_len) IntegerOverflow
  end.

Definition PreparedRecord_encode (r : PreparedRecord) (previous_path : list byte) : Writer.W unit :=
  match listing_path r with
  | Some path =>
      let prefix_len := shared_prefix_len previous_path path in
      p <- lift (usize_to_u64 prefix_len) ;;
      Writer.varint p ;;
      s <- lift (usize_to_u64 (len path - prefix_len)) ;;
      Writer.varint s ;;
      Writer.bytes (drop (Z.to_nat prefix_len) path)
  | None => mret tt
  end ;;
  Writer.bytes (prep_bytes r).

Inductive IndexRunSelfPayload : Type :=
| SelfNone
| SelfPackOf (pack : IndexRunSelfPack).

Record FrameEncodingFacts : Type := {
  fe_role : IndexRunFrameRole;
  fe_role_ordinal : Z;
  fe_sequence : Z;
  fe_mutation_count : Z;
  fe_role_record_count : Z;
  fe_frame_record_count : Z;
  fe_self_payload : IndexRunSelfPayload;
  fe_namespace_key_count : Z
}.

Definition encode_self_payload (self_payload : IndexRunSelfPayload) : Writer.W unit :=
  match self_payload with
  | SelfNone => Writer.u8 0
  | SelfPackOf pack =>
      Writer.u8 1 ;;
      Writer.bytes (sp_pack_id pack) ;;
      Writer.bytes (sp_attempt_id pack) ;;
      Writer.string (sp_content_key_id pack) usize_max "content key id" ;;
      Writer.u64 (sp_stored_len pack) ;;
      Writer.varint (sp_record_count pack)
  end.

Definition encode_frame_header (facts : FrameEncodingFacts) : Writer.W unit :=
  Writer.bytes INDEX_RUN_PLAINTEXT_DOMAIN ;;
  Writer.u16 INDEX_RUN_WIRE_VERSION ;;
  Writer.u8 (frame_role_tag (fe_role facts)) ;;
  Writer.varint (fe_role_ordinal facts) ;;
  Writer.u64 (fe_sequence facts) ;;
  Writer.varint (fe_mutation_count facts) ;;
  role_record_count <- lift (usize_to_u64 (fe_role_record_count facts)) ;;
  Writer.varint role_record_count ;;
  frame_record_count <- lift (usize_to_u64 (fe_frame_record_count facts)) ;;
  Writer.varint frame_record_count ;;
  if bool_decide (fe_role facts = Metadata) then
    encode_self_payload (fe_self_payload facts) ;;
    namespace_key_count <- lift (usize_to_u64 (fe_namespace_key_count facts)) ;;
    Writer.varint namespace_key_count
  else mret tt.

(** [a.checked_add(b).ok_or(IntegerOverflow)?]. *)
Definition add (a b : Z) : result IndexRunError Z := ok_or (checked_add a b) IntegerOverflow.

Definition frame_header_len (role : IndexRunFrameRole)
    (role_ordinal mutation_count role_record_count frame_record_count : Z)
    (self_payload : IndexRunSelfPayload) (namespace_key_count : Z) : result IndexRunError Z :=
  let base := len INDEX_RUN_PLAINTEXT_DOMAIN + 2 + 1 + varint_len role_ordinal + 8
              + varint_len mutation_count in
  n <-? usize_to_u64 role_record_count ;;
  length <-? add base (varint_len n) ;;
  n <-? usize_to_u64 frame_record_count ;;
  length <-? add length (varint_len n) ;;
  if bool_decide (role = Metadata) then
    length <-? add length 1 ;;
    length <-?
      match self_payload with
      | SelfPackOf pack =>
          length <-? add length 64 ;;
          n <-? usize_to_u64 (len (sp_content_key_id pack)) ;;
          length <-? add length (varint_len n) ;;
          length <-? add length (len (sp_content_key_id pack)) ;;
          length <-? add length 8 ;;
          add length (varint_len (sp_record_count pack))
      | SelfNone => Ok length
      end ;;
    n <-? usize_to_u64 namespace_key_count ;;
    add length (varint_len n)
  else Ok length.

(** The arguments of [pack_prepared_frames] that do not change. *)
Record PackArgs : Type := {
  pa_role : IndexRunFrameRole;
  pa_sequence : Z;
  pa_mutation_count : Z;
  pa_self_payload : IndexRunSelfPayload;
  pa_namespace_key_count : Z;
  pa_record_count : Z;  (* records.len() *)
  pa_limits : IndexRunLimits
}.

(** The [while let] loop: how many of the next records fit one frame. *)
Fixpoint fill_frame (a : PackArgs) (role_ordinal : Z) (records : list PreparedRecord)
    (count payload_len : Z) (previous_path : list byte) : result IndexRunError Z :=
  match records with
  | [] => Ok count
  | record :: records' =>
      record_len <-? encoded_len record previous_path ;;
      n <-? usize_to_u64 record_len ;;
      framed_len <-? add (varint_len n) record_len ;;
      candidate_payload <-? add payload_len framed_len ;;
      header_len <-? frame_header_len (pa_role a) role_ordinal (pa_mutation_count a)
                       (pa_record_count a) (count + 1) (pa_self_payload a)
                       (pa_namespace_key_count a) ;;
      total <-? add header_len candidate_payload ;;
      if total >? max_frame_bytes (pa_limits a) then Ok count
      else fill_frame a role_ordinal records' (count + 1) candidate_payload
             (default [] (listing_path record))
  end.

(** The [for] loop that writes the records of one frame. *)
Fixpoint write_records (a : PackArgs) (previous_path : list byte) (records : list PreparedRecord) :
    Writer.W unit :=
  match records with
  | [] => mret tt
  | record :: records' =>
      '(_, encoded_record) <-
        lift (PreparedRecord_encode record previous_path
                (Writer.new (record_limit (pa_role a) (u8 <$> hd_error (prep_bytes record)) (pa_limits a)))) ;;
      Writer.record encoded_record ;;
      write_records a (default [] (listing_path record)) records'
  end.

Definition bound_of (r : option PreparedRecord) : option IndexRunSearchBound :=
  match r with
  | Some r => prep_bound r
  | None => None
  end.

(** One frame, holding [frame_records]. *)
Definition write_frame (a : PackArgs) (role_ordinal : Z) (frame_records : list PreparedRecord) :
    result IndexRunError EncodedIndexRunFrame :=
  bytes <-? written (max_frame_bytes (pa_limits a))
    (encode_frame_header {|
       fe_role := pa_role a;
       fe_role_ordinal := role_ordinal;
       fe_sequence := pa_sequence a;
       fe_mutation_count := pa_mutation_count a;
       fe_role_record_count := pa_record_count a;
       fe_frame_record_count := len frame_records;
       fe_self_payload := pa_self_payload a;
       fe_namespace_key_count := pa_namespace_key_count a |} ;;
     write_records a [] frame_records) ;;
  record_count <-? to_u32 (len frame_records) ;;
  Ok {| frame_role := pa_role a;
        frame_role_ordinal := role_ordinal;
        frame_record_count_ := record_count;
        first_bound := bound_of (hd_error frame_records);
        last_bound := bound_of (hd_error (rev frame_records));
        frame_bytes := bytes |}.

(** The outer loop; [rest] is [records[start..]].  Every turn takes a record or
    stops, so one more turn than there are records is enough. *)
Fixpoint pack_loop (fuel : nat) (a : PackArgs) (frames : list EncodedIndexRunFrame)
    (rest : list PreparedRecord) : result IndexRunError (list EncodedIndexRunFrame) :=
  match fuel with
  | O => Err IntegerOverflow
  | S fuel' =>
      role_ordinal <-? to_u32 (len frames) ;;
      count <-? fill_frame a role_ordinal rest 0 0 [] ;;
      reject_if ((count =? 0) && negb (pa_record_count a =? 0))
        (LimitExceeded "frame bytes" (Z.min (max_frame_bytes (pa_limits a) + 1) usize_max)
           (max_frame_bytes (pa_limits a))) ;;?
      frame <-? write_frame a role_ordinal (take (Z.to_nat count) rest) ;;
      let frames := frames ++ [frame] in
      if count =? len rest then Ok frames
      else pack_loop fuel' a frames (drop (Z.to_nat count) rest)
  end.

Definition pack_prepared_frames (role : IndexRunFrameRole) (sequence mutation_count : Z)
    (self_payload : IndexRunSelfPayload) (namespace_key_count : Z)
    (records : list PreparedRecord) (limits : IndexRunLimits) :
    result IndexRunError (list EncodedIndexRunFrame) :=
  if (len records =? 0) && negb (bool_decide (role = Metadata)) then Ok []
  else
    pack_loop (S (length records)) {|
      pa_role := role;
      pa_sequence := sequence;
      pa_mutation_count := mutation_count;
      pa_self_payload := self_payload;
      pa_namespace_key_count := namespace_key_count;
      pa_record_count := len records;
      pa_limits := limits |} [] records.

(** ** The run *)

Definition namespace_key_ids_of (mutations : list IndexMutation) : list text :=
  bs_to_list (bs_collect (map mutation_namespace_key_id mutations)).

Definition namespace_order (mutations : list IndexMutation) : list IndexMutation :=
  sort_by_key (fun m => (mutation_blind_key m, ordinal m)) mutations.
Definition listing_order (mutations : list IndexMutation) : list IndexMutation :=
  sort_by_key (fun m => (mutation_path m, ordinal m)) mutations.

Definition encode_metadata_records (run : IndexRun) (namespace_key_ids : list text)
    (limits : IndexRunLimits) : result IndexRunError (list PreparedRecord) :=
  containers <-? try_map (encode_container_record limits) (run_containers run) ;;
  streams <-? try_map (encode_stream_record limits) (run_standalone_stream_containers run) ;;
  keys <-? try_map (encode_namespace_key_record limits) namespace_key_ids ;;
  receipts <-? try_map (encode_receipt_record limits)
                 (match run_completion_receipt run with Some r => [r] | None => [] end) ;;
  Ok (map PreparedRecord_metadata (containers ++ streams ++ keys ++ receipts)).

Definition prepare_namespace (limits : IndexRunLimits) (namespace_key_ids : list text)
    (mutation : IndexMutation) : result IndexRunError PreparedRecord :=
  bytes <-? encode_namespace_record limits namespace_key_ids mutation ;;
  Ok {| prep_bytes := bytes;
        prep_bound := Some (BoundNamespace (mutation_blind_key mutation) (ordinal mutation)) |}.

Definition prepare_listing (limits : IndexRunLimits) (mutation : IndexMutation) :
    result IndexRunError PreparedRecord :=
  bytes <-? encode_listing_record limits mutation ;;
  Ok {| prep_bytes := bytes;
        prep_bound := Some (BoundListing (mutation_path mutation) (ordinal mutation)) |}.

(** [frames.iter().try_fold(0, |total, frame| total.checked_add(frame.len()))]. *)
Fixpoint total_len (total : Z) (frames : list (list byte)) : result IndexRunError Z :=
  match frames with
  | [] => Ok total
  | frame :: frames' =>
      total <-? add total (len frame) ;;
      total_len total frames'
  end.

Definition encode_index_run_frames (run : IndexRun) (limits : IndexRunLimits) :
    result IndexRunError EncodedIndexRun :=
  container_count <-? add (len (run_containers run)) (len (run_standalone_stream_containers run)) ;;
  validate_count "container count" container_count (max_containers limits) ;;?
  validate_count "mutation count" (len (run_mutations run)) (max_mutations limits) ;;?
  validate_self_pack (run_self_pack run) limits ;;?
  let self_payload :=
    match run_self_pack run with
    | None => SelfNone
    | Some pack => SelfPackOf pack
    end in
  validate_containers (run_containers run) limits ;;?
  validate_standalone_stream_containers (run_standalone_stream_containers run) limits ;;?
  validate_distinct_container_objects (run_containers run) (run_standalone_stream_containers run) ;;?
  validate_mutations run limits ;;?
  let namespace_key_ids := namespace_key_ids_of (run_mutations run) in
  validate_count "namespace key count" (len namespace_key_ids) (max_mutations limits) ;;?
  n <-? add container_count (len namespace_key_ids) ;;
  _ <-? add n (match run_completion_receipt run with Some _ => 1 | None => 0 end) ;;
  metadata <-? encode_metadata_records run namespace_key_ids limits ;;
  namespace <-? try_map (prepare_namespace limits namespace_key_ids)
                  (namespace_order (run_mutations run)) ;;
  listing <-? try_map (prepare_listing limits) (listing_order (run_mutations run)) ;;
  mutation_count <-? to_u32 (len (run_mutations run)) ;;
  let pack role records :=
    pack_prepared_frames role (run_sequence run) mutation_count self_payload
      (len namespace_key_ids) records limits in
  metadata_frames <-? pack Metadata metadata ;;
  namespace_frames <-? pack Namespace namespace ;;
  listing_frames <-? pack Listing listing ;;
  let frames := metadata_frames ++ namespace_frames ++ listing_frames in
  total <-? total_len 0 (map frame_bytes frames) ;;
  validate_count "total frame bytes" total (max_total_bytes limits) ;;?
  Ok {| frames := frames |}.

Fixpoint bundle_loop (limits : IndexRunLimits) (frames : list EncodedIndexRunFrame) : Writer.W unit :=
  match frames with
  | [] => mret tt
  | frame :: frames' =>
      '(_, record) <- lift (Writer.bytes (frame_bytes frame) (Writer.new (max_frame_bytes limits))) ;;
      Writer.record record ;;
      bundle_loop limits frames'
  end.

Definition encode_index_run (run : IndexRun) (limits : IndexRunLimits) :
    result IndexRunError (list byte) :=
  encoded <-? encode_index_run_frames run limits ;;
  written (max_total_bytes limits)
    (count <- lift (usize_to_u64 (len (frames encoded))) ;;
     Writer.varint count ;;
     bundle_loop limits (frames encoded)).
