(* ===== verification/RunSamples.v ===== *)
(** * Sample index runs

    A run with one mutation of each kind, on which the theorems about index
    runs are instantiated. *)

From Stdlib Require Import Strings.String.
From S2P Require Import Prelude Ord Text Types Etag Checksum Completion Layout RunWire RunTypes RunValidate RunEncode.
Open Scope Z_scope.

Definition bytes32 (b : byte) : list byte := List.repeat b 32.
Definition sample_keyring : IndexRunKeyringRef :=
  {| kr_object_id := bytes_of_string "keyrings/1"; kr_digest := bytes32 x02 |}.
Definition sample_etag : ObjectEtag := {| digest := List.repeat x01 16; parts := 0 |}.

Definition sample_container : IndexRunContainer := {|
  ct_object_id := bytes_of_string "commits/1"; ct_version_id := None; ct_stored_len := 1000000;
  ct_commit_body_digest := bytes32 x01; ct_keyring_envelope := sample_keyring;
  ct_pack_section_offset := 10; ct_pack_section_ordinal := 2; ct_pack_section_len := 500000;
  ct_pack_id := bytes32 x09; ct_attempt_id := bytes32 x0a;
  ct_content_key_id := bytes_of_string "ck"; ct_pack_record_count := 5 |}.

Definition sample_stream : IndexRunStandaloneStreamContainer := {|
  st_object_id := bytes_of_string "payloads/1"; st_version_id := Some (bytes_of_string "v7");
  st_stored_len := 70049; st_object_digest := bytes32 x03; st_keyring_envelope := sample_keyring;
  st_payload_layout := sample_layout |}.

Definition sample_self_pack : IndexRunSelfPack := {|
  sp_pack_id := bytes32 x0b; sp_attempt_id := bytes32 x0c;
  sp_content_key_id := bytes_of_string "ck"; sp_stored_len := 4096; sp_record_count := 1 |}.

Definition sample_upsert (i : Z) (blind_key : byte) (path : string) (payload : IndexPayloadPointer)
    (content_len : Z) : IndexMutation := Upsert {|
  up_mutation_ordinal := i; up_blind_key := bytes32 blind_key;
  up_namespace_key_id := bytes_of_string "ns"; up_path := bytes_of_string path;
  up_generation := 7; up_payload := payload; up_content_len := content_len;
  up_modified_at_ms := -5; up_retention := Some {| mode := Governance; retain_days := 30 |};
  up_legal_hold := Some On; up_etag := sample_etag; up_checksum := None |}.

Definition sample_tombstone : IndexMutation := Tombstone {|
  tb_mutation_ordinal := 3; tb_blind_key := bytes32 x04;
  tb_namespace_key_id := bytes_of_string "nr"; tb_path := bytes_of_string "a/a";
  tb_generation := 9 |}.

Definition sample_mutations : list IndexMutation :=
  [ sample_upsert 0 x05 "a/b" (ExternalPack 0 {| record_ordinal := 3; physical_offset := 100 |}) 70000;
    sample_upsert 1 x03 "a/c" (ExternalStandaloneStream 0) (plaintext_len sample_layout);
    sample_upsert 2 x06 "a" (SelfPack {| record_ordinal := 0; physical_offset := 0 |}) 100;
    sample_tombstone ].

Definition sample_run : IndexRun := {|
  run_completion_receipt := None; run_sequence := 42; run_self_pack := Some sample_self_pack;
  run_containers := [sample_container]; run_standalone_stream_containers := [sample_stream];
  run_mutations := sample_mutations |}.

(** Limits small enough to spread the sample over several frames of a role. *)
Definition sample_limits : IndexRunLimits := {|
  max_total_bytes := 4096; max_frame_bytes := 384; max_record_bytes := 300; max_containers := 8;
  max_mutations := 8; max_path_bytes := 64; max_key_id_bytes := 64; max_object_id_bytes := 64;
  max_version_id_bytes := 64 |}.

(** Discharges the guarantees of the types on closed values. *)
Ltac wf_sample :=
  repeat lazymatch goal with
  | |- _ /\ _ => split
  | |- Forall ?P (_ :: _) => constructor
  | |- Forall ?P [] => constructor
  | |- Forall ?P ?l => let l' := eval hnf in l in change (Forall P l')
  | |- _ = _ => vm_compute; reflexivity
  | |- _ <= _ => vm_compute; discriminate
  | |- True => exact I
  | |- forall a, ?o = Some a -> _ => intros ? E; cbn in E; simplify_eq
  | |- ?P => let P' := eval hnf in P in change P'
  end.

Lemma sample_run_wf : wf_run sample_run.
Proof.
  wf_sample.
Qed.
