(* ===== verification/RunDecode.v ===== *)
(** * Decoding of index runs (crates/rs3-index/src/run.rs)

    [decode_index_run_frames] reads the frames of the three roles in order,
    collects the metadata tables, fills one slot per mutation from the
    namespace projection, pairs each slot with its listing record and checks
    what the tables and the projections must agree on. *)

From Stdlib Require Import Strings.String.
From S2P Require Import Prelude Ord Text Types Etag Checksum Completion Layout RunWire RunTypes RunValidate RunEncode.
Open Scope Z_scope.

Abbreviation R := Reader.R.

(** [reader.remaining.len()], and taking all of it. *)
Definition left_bytes : R Z := fun r => Ok (len (Reader.remaining r), r).
Definition take_remaining : R (list byte) := fun r =>
  Ok (Reader.remaining r, {| Reader.remaining := [] |}).

(** ** Record bodies *)

Definition decode_attempt_id : R (list byte) := Reader.bytes 32.

Fixpoint decode_payload_parts (count : nat) : R (list PayloadPart) :=
  match count with
  | O => mret []
  | S count' =>
      part_number <- Reader.u32_varint ;;
      attempt_id <- decode_attempt_id ;;
      plaintext_len <- Reader.varint ;;
      parts <- decode_payload_parts count' ;;
      mret ({| part_number := part_number; part_attempt_id := attempt_id;
               part_plaintext_len := plaintext_len |} :: parts)
  end.

Definition decode_payload_layout (limits : IndexRunLimits) : R PayloadLayout :=
  chunk_size <- Reader.varint ;;
  plaintext_len <- Reader.varint ;;
  key_id <- Reader.typed_string "content key id" (max_key_id_bytes limits) KeyId_new ;;
  carrier_id <- Reader.bytes 32 ;;
  count <- Reader.bounded_count "payload part count" MAX_PAYLOAD_PARTS ;;
  remaining <- left_bytes ;;
  lift (reject_if (count >? remaining / 34) InvalidStandaloneStreamContainer) ;;
  parts <- decode_payload_parts (Z.to_nat count) ;;
  let layout := {| chunk_size := chunk_size; plaintext_len := plaintext_len;
                   layout_key_id := key_id; carrier_id := carrier_id; layout_parts := parts |} in
  lift (validate_payload_layout layout limits) ;;
  mret layout.

Record DecodedExactContainer : Type := {
  ex_object_id : text;
  ex_version_id : option text;
  ex_stored_len : Z;
  ex_object_digest : list byte;
  ex_keyring_envelope : IndexRunKeyringRef
}.

Definition decode_version_id (limits : IndexRunLimits) : R (option text) :=
  tag <- Reader.u8 ;;
  if tag =? 0 then mret None
  else if tag =? 1 then
    version_id <- Reader.typed_string "version id" (max_version_id_bytes limits) BackendVersionId_new ;;
    mret (Some version_id)
  else lift (Err (InvalidTag "version option" tag)).

Definition decode_exact_container (limits : IndexRunLimits) : R DecodedExactContainer :=
  object_id <- Reader.typed_string "object id" (max_object_id_bytes limits) BackendObjectId_new ;;
  version_id <- decode_version_id limits ;;
  stored_len <- Reader.u64 ;;
  object_digest <- Reader.bytes 32 ;;
  keyring_object_id <- Reader.typed_string "keyring envelope object id"
                         (max_object_id_bytes limits) BackendObjectId_new ;;
  keyring_digest <- Reader.bytes 32 ;;
  mret {| ex_object_id := object_id; ex_version_id := version_id; ex_stored_len := stored_len;
          ex_object_digest := object_digest;
          ex_keyring_envelope := {| kr_object_id := keyring_object_id; kr_digest := keyring_digest |} |}.

Definition decode_container (limits : IndexRunLimits) : R IndexRunContainer :=
  exact <- decode_exact_container limits ;;
  section_ordinal <- Reader.u32_varint ;;
  section_offset <- Reader.u64 ;;
  section_len <- Reader.u64 ;;
  pack_id <- Reader.bytes 32 ;;
  attempt_id <- decode_attempt_id ;;
  content_key_id <- Reader.typed_string "content key id" (max_key_id_bytes limits) KeyId_new ;;
  record_count <- Reader.u32_varint ;;
  let container := {|
    ct_object_id := ex_object_id exact;
    ct_version_id := ex_version_id exact;
    ct_stored_len := ex_stored_len exact;
    ct_commit_body_digest := ex_object_digest exact;
    ct_keyring_envelope := ex_keyring_envelope exact;
    ct_pack_section_offset := section_offset;
    ct_pack_section_ordinal := section_ordinal;
    ct_pack_section_len := section_len;
    ct_pack_id := pack_id;
    ct_attempt_id := attempt_id;
    ct_content_key_id := content_key_id;
    ct_pack_record_count := record_count |} in
  lift (validate_container_range container) ;;
  mret container.

Definition decode_standalone_stream_container (limits : IndexRunLimits) :
    R IndexRunStandaloneStreamContainer :=
  exact <- decode_exact_container limits ;;
  layout <- decode_payload_layout limits ;;
  let container := {|
    st_object_id := ex_object_id exact;
    st_version_id := ex_version_id exact;
    st_stored_len := ex_stored_len exact;
    st_object_digest := ex_object_digest exact;
    st_keyring_envelope := ex_keyring_envelope exact;
    st_payload_layout := layout |} in
  lift (validate_standalone_stream_container container limits) ;;
  mret container.

Definition decode_pack_record_pointer : R IndexPackRecordPointer :=
  ordinal <- Reader.u32_varint ;;
  offset <- Reader.u32_varint ;;
  mret {| record_ordinal := ordinal; physical_offset := offset |}.

Definition decode_payload_pointer (containers : list IndexRunContainer)
    (self_pack : option IndexRunSelfPack)
    (standalone_stream_containers : list IndexRunStandaloneStreamContainer) : R IndexPayloadPointer :=
  tag <- Reader.u8 ;;
  if tag =? 0 then mret Empty
  else if tag =? 1 then
    record <- decode_pack_record_pointer ;;
    lift (reject_if (match self_pack with
                     | None => true
                     | Some pack => record_ordinal record >=? sp_record_count pack
                     end) InvalidPackRecordCount) ;;
    mret (SelfPack record)
  else if tag =? 2 then
    container_ordinal <- Reader.u32_varint ;;
    lift (validate_container_ordinal container_ordinal (len containers)) ;;
    record <- decode_pack_record_pointer ;;
    container <- lift (table_get containers container_ordinal) ;;
    lift (reject_if (record_ordinal record >=? ct_pack_record_count container)
            InvalidPackRecordCount) ;;
    mret (ExternalPack container_ordinal record)
  else if tag =? 5 then
    container_ordinal <- Reader.u32_varint ;;
    lift (validate_container_ordinal container_ordinal (len standalone_stream_containers)) ;;
    mret (ExternalStandaloneStream container_ordinal)
  else lift (Err (InvalidTag "payload pointer" tag)).

Definition decode_retention_mode : R RetentionMode :=
  tag <- Reader.u8 ;;
  if tag =? 0 then mret RetentionNone
  else if tag =? 1 then mret Governance
  else if tag =? 2 then mret Compliance
  else lift (Err (InvalidTag "retention mode" tag)).

Definition decode_retention : R (option RetentionPolicy) :=
  tag <- Reader.u8 ;;
  if tag =? 0 then mret None
  else if tag =? 1 then
    mode <- decode_retention_mode ;;
    retain_days <- Reader.u32_varint ;;
    mret (Some {| mode := mode; retain_days := retain_days |})
  else lift (Err (InvalidTag "retention option" tag)).

Definition decode_legal_hold : R (option LegalHoldStatus) :=
  tag <- Reader.u8 ;;
  if tag =? 0 then mret None
  else if tag =? 1 then mret (Some Off)
  else if tag =? 2 then mret (Some On)
  else lift (Err (InvalidTag "legal hold" tag)).

Definition decode_checksum : R (option ObjectChecksum) :=
  length <- Reader.u8 ;;
  if length =? 0 then mret None
  else
    lift (validate_count "checksum" length MAX_ENCODED_BYTES) ;;
    bytes <- Reader.bytes length ;;
    checksum <- lift (map_err (fun _ => InvalidValue "checksum") (ObjectChecksum_decode bytes)) ;;
    mret (Some checksum).

Definition decode_etag : R ObjectEtag :=
  bytes <- Reader.bytes ETAG_ENCODED_BYTES ;;
  lift (map_err (fun _ => InvalidValue "etag") (ObjectEtag_decode bytes)).

Definition decode_blind_key : R IndexBlindKey := Reader.bytes 32.

(** ** Projections *)

Inductive NamespaceProjection : Type :=
| NsUpsert (blind_key : IndexBlindKey) (namespace_key_id : text) (generation : Z)
    (payload : IndexPayloadPointer) (content_len modified_at_ms : Z)
    (retention : option RetentionPolicy) (legal_hold : option LegalHoldStatus)
    (checksum : option ObjectChecksum) (etag : ObjectEtag)
| NsTombstone (blind_key : IndexBlindKey) (namespace_key_id : text) (generation : Z).

Definition projection_blind_key (p : NamespaceProjection) : IndexBlindKey :=
  match p with
  | NsUpsert blind_key _ _ _ _ _ _ _ _ _ => blind_key
  | NsTombstone blind_key _ _ => blind_key
  end.

Inductive ListingProjection : Type :=
| LsUpsert (path : text) (generation content_len modified_at_ms : Z)
| LsTombstone (path : text) (generation : Z).

Definition projection_path (p : ListingProjection) : text :=
  match p with
  | LsUpsert path _ _ _ => path
  | LsTombstone path _ => path
  end.

Definition decode_namespace_key_reference (namespace_key_ids : list text) : R (Z * text) :=
  ordinal <- Reader.u32_varint ;;
  namespace_key_id <- lift (ok_or (namespace_key_ids !! Z.to_nat ordinal)
                              (InvalidNamespaceKeyOrdinal ordinal)) ;;
  mret (ordinal, namespace_key_id).

Definition decode_namespace_projection (namespace_key_ids : list text)
    (containers : list IndexRunContainer) (self_pack : option IndexRunSelfPack)
    (standalone_stream_containers : list IndexRunStandaloneStreamContainer) :
    R (NamespaceProjection * Z) :=
  tag <- Reader.u8 ;;
  if tag =? 0 then
    blind_key <- decode_blind_key ;;
    '(namespace_key_ordinal, namespace_key_id) <- decode_namespace_key_reference namespace_key_ids ;;
    generation <- Reader.varint ;;
    payload <- decode_payload_pointer containers self_pack standalone_stream_containers ;;
    content_len <- Reader.varint ;;
    lift (validate_empty_payload payload content_len) ;;
    lift (validate_payload_pointer payload content_len self_pack containers
            standalone_stream_containers) ;;
    modified_at_ms <- Reader.i64 ;;
    retention <- decode_retention ;;
    legal_hold <- decode_legal_hold ;;
    checksum <- decode_checksum ;;
    etag <- decode_etag ;;
    mret (NsUpsert blind_key namespace_key_id generation payload content_len modified_at_ms
            retention legal_hold checksum etag, namespace_key_ordinal)
  else if tag =? 1 then
    blind_key <- decode_blind_key ;;
    '(namespace_key_ordinal, namespace_key_id) <- decode_namespace_key_reference namespace_key_ids ;;
    generation <- Reader.varint ;;
    mret (NsTombstone blind_key namespace_key_id generation, namespace_key_ordinal)
  else lift (Err (InvalidTag "namespace mutation" tag)).

Definition decode_listing_path (previous : list byte) (limits : IndexRunLimits) : R text :=
  prefix_len <- Reader.bounded_count "logical path" (max_path_bytes limits) ;;
  prefix <- lift (ok_or (if prefix_len <=? len previous
                         then Some (take (Z.to_nat prefix_len) previous) else None)
                    InvalidPathPrefix) ;;
  suffix_len <- Reader.bounded_count "logical path" (max_path_bytes limits) ;;
  path_len <- lift (add prefix_len suffix_len) ;;
  lift (validate_count "logical path" path_len (max_path_bytes limits)) ;;
  suffix <- Reader.bytes suffix_len ;;
  lift (reject_if (match previous !! Z.to_nat prefix_len, hd_error suffix with
                   | Some a, Some b => bool_decide (a = b)
                   | _, _ => false
                   end) InvalidPathPrefix) ;;
  let path := prefix ++ suffix in
  lift (reject_if (negb (utf8_valid path)) (InvalidUtf8 "logical path")) ;;
  lift (map_err (fun _ => InvalidValue "logical path") (LogicalPath_new path)).

Definition decode_listing_projection (path : text) : R ListingProjection :=
  tag <- Reader.u8 ;;
  generation <- Reader.varint ;;
  if tag =? 0 then
    content_len <- Reader.varint ;;
    modified_at_ms <- Reader.i64 ;;
    mret (LsUpsert path generation content_len modified_at_ms)
  else if tag =? 1 then mret (LsTombstone path generation)
  else lift (Err (InvalidTag "listing mutation" tag)).

Definition pair_projections (ordinal : Z) (namespace : NamespaceProjection)
    (listing : ListingProjection) : result IndexRunError IndexMutation :=
  match namespace, listing with
  | NsUpsert blind_key namespace_key_id namespace_generation payload namespace_content_len
      namespace_modified_at_ms retention legal_hold checksum etag,
    LsUpsert path generation content_len modified_at_ms =>
      if (namespace_generation =? generation) && (namespace_content_len =? content_len)
         && (namespace_modified_at_ms =? modified_at_ms)
      then
        Ok (Upsert {|
          up_mutation_ordinal := ordinal;
          up_blind_key := blind_key;
          up_namespace_key_id := namespace_key_id;
          up_path := path;
          up_generation := generation;
          up_payload := payload;
          up_content_len := content_len;
          up_modified_at_ms := modified_at_ms;
          up_retention := retention;
          up_legal_hold := legal_hold;
          up_etag := etag;
          up_checksum := checksum |})
      else Err (ProjectionMismatch ordinal)
  | NsTombstone blind_key namespace_key_id namespace_generation, LsTombstone path generation =>
      if namespace_generation =? generation then
        Ok (Tombstone {|
          tb_mutation_ordinal := ordinal;
          tb_blind_key := blind_key;
          tb_namespace_key_id := namespace_key_id;
          tb_path := path;
          tb_generation := generation |})
      else Err (ProjectionMismatch ordinal)
  | _, _ => Err (ProjectionMismatch ordinal)
  end.

(** [projection.get_mut(ordinal)]: the slot's content. *)
Definition projection_slot {T} (projection : list (option T)) (name : field_name) (ordinal : Z) :
    result IndexRunError (option T) :=
  ok_or (projection !! Z.to_nat ordinal) (InvalidProjectionOrdinal name ordinal).

(** ** Frame headers *)

Record DecodedFrameHeader : Type := {
  h_role : IndexRunFrameRole;
  h_role_ordinal : Z;
  h_sequence : Z;
  h_mutation_count : Z;
  h_role_record_count : Z;
  h_frame_record_count : Z;
  h_self_pack : option (option IndexRunSelfPack);
  h_namespace_key_count : option Z
}.

Definition decode_role : R IndexRunFrameRole :=
  tag <- Reader.u8 ;;
  if tag =? 0 then mret Metadata
  else if tag =? 1 then mret Namespace
  else if tag =? 2 then mret Listing
  else lift (Err (InvalidTag "frame role" tag)).

Definition decode_self_pack (limits : IndexRunLimits) : R (option IndexRunSelfPack) :=
  tag <- Reader.u8 ;;
  if tag =? 0 then mret None
  else if tag =? 1 then
    pack_id <- Reader.bytes 32 ;;
    attempt_id <- decode_attempt_id ;;
    content_key_id <- Reader.typed_string "content key id" (max_key_id_bytes limits) KeyId_new ;;
    stored_len <- Reader.u64 ;;
    record_count <- Reader.u32_varint ;;
    let pack := {| sp_pack_id := pack_id; sp_attempt_id := attempt_id;
                   sp_content_key_id := content_key_id; sp_stored_len := stored_len;
                   sp_record_count := record_count |} in
    lift (validate_self_pack (Some pack) limits) ;;
    mret (Some pack)
  else lift (Err (InvalidTag "self payload option" tag)).

Definition role_record_limit (role : IndexRunFrameRole) (limits : IndexRunLimits) :
    result IndexRunError Z :=
  if bool_decide (role = Metadata) then
    n <-? add (max_containers limits) (max_mutations limits) ;;
    add n 1
  else Ok (max_mutations limits).

Definition decode_frame_header (limits : IndexRunLimits) : R DecodedFrameHeader :=
  domain <- Reader.bytes (len INDEX_RUN_PLAINTEXT_DOMAIN) ;;
  lift (reject_if (negb (bool_decide (domain = INDEX_RUN_PLAINTEXT_DOMAIN))) InvalidDomain) ;;
  version <- Reader.u16 ;;
  lift (reject_if (negb (version =? INDEX_RUN_WIRE_VERSION)) (UnsupportedVersion version)) ;;
  role <- decode_role ;;
  role_ordinal <- Reader.u32_varint ;;
  sequence <- Reader.u64 ;;
  mutation_count <- Reader.u32_varint ;;
  limit <- lift (role_record_limit role limits) ;;
  role_record_count <- Reader.bounded_count "role record count" limit ;;
  frame_record_count <- Reader.bounded_count "frame record count" limit ;;
  '(self_pack, namespace_key_count) <-
    (if bool_decide (role = Metadata) then
       self_pack <- decode_self_pack limits ;;
       namespace_key_count <- Reader.bounded_count "namespace key count" (max_mutations limits) ;;
       mret (Some self_pack, Some namespace_key_count)
     else mret (None, None)) ;;
  mret {| h_role := role;
          h_role_ordinal := role_ordinal;
          h_sequence := sequence;
          h_mutation_count := mutation_count;
          h_role_record_count := role_record_count;
          h_frame_record_count := frame_record_count;
          h_self_pack := self_pack;
          h_namespace_key_count := namespace_key_count |}.

(** ** The frame decoder

    The fields of [IndexRunFrameDecoder], grouped by the role that writes them. *)

Record MetadataState : Type := {
  ms_completion_receipt : option CompletionReceipt;
  ms_self_pack : option IndexRunSelfPack;
  ms_saw_self_payload_fact : bool;
  ms_containers : list IndexRunContainer;
  ms_streams : list IndexRunStandaloneStreamContainer;
  ms_namespace_key_ids : list text;
  ms_declared : option Z;
  ms_saw_stream : bool;
  ms_saw_namespace_key_id : bool
}.

Record NamespaceState : Type := {
  ns_slots : list (option NamespaceProjection);
  ns_previous_key : option (IndexBlindKey * Z);
  ns_used : Used;
  ns_used_keys : BTreeSet Z;
  ns_saw : bool
}.

Record ListingState : Type := {
  ls_mutations : list (option IndexMutation);
  ls_previous_key : option (text * Z);
  ls_saw : bool
}.

Record IndexRunFrameDecoder : Type := {
  d_metadata : MetadataState;
  d_namespace : NamespaceState;
  d_listing : ListingState
}.

Definition MetadataState_default : MetadataState := {|
  ms_completion_receipt := None; ms_self_pack := None; ms_saw_self_payload_fact := false;
  ms_containers := []; ms_streams := []; ms_namespace_key_ids := []; ms_declared := None;
  ms_saw_stream := false; ms_saw_namespace_key_id := false |}.

Definition IndexRunFrameDecoder_default : IndexRunFrameDecoder := {|
  d_metadata := MetadataState_default;
  d_namespace := {| ns_slots := []; ns_previous_key := None; ns_used := no_use;
                    ns_used_keys := []; ns_saw := false |};
  d_listing := {| ls_mutations := []; ls_previous_key := None; ls_saw := false |} |}.

(** *** Metadata *)

Definition push_container (ms : MetadataState) (c : IndexRunContainer) : MetadataState := {|
  ms_completion_receipt := ms_completion_receipt ms; ms_self_pack := ms_self_pack ms;
  ms_saw_self_payload_fact := ms_saw_self_payload_fact ms;
  ms_containers := ms_containers ms ++ [c]; ms_streams := ms_streams ms;
  ms_namespace_key_ids := ms_namespace_key_ids ms; ms_declared := ms_declared ms;
  ms_saw_stream := ms_saw_stream ms; ms_saw_namespace_key_id := ms_saw_namespace_key_id ms |}.

Definition push_stream (ms : MetadataState) (c : IndexRunStandaloneStreamContainer) : MetadataState := {|
  ms_completion_receipt := ms_completion_receipt ms; ms_self_pack := ms_self_pack ms;
  ms_saw_self_payload_fact := ms_saw_self_payload_fact ms;
  ms_containers := ms_containers ms; ms_streams := ms_streams ms ++ [c];
  ms_namespace_key_ids := ms_namespace_key_ids ms; ms_declared := ms_declared ms;
  ms_saw_stream := true; ms_saw_namespace_key_id := ms_saw_namespace_key_id ms |}.

Definition push_namespace_key (ms : MetadataState) (k : text) : MetadataState := {|
  ms_completion_receipt := ms_completion_receipt ms; ms_self_pack := ms_self_pack ms;
  ms_saw_self_payload_fact := ms_saw_self_payload_fact ms;
  ms_containers := ms_containers ms; ms_streams := ms_streams ms;
  ms_namespace_key_ids := ms_namespace_key_ids ms ++ [k]; ms_declared := ms_declared ms;
  ms_saw_stream := ms_saw_stream ms; ms_saw_namespace_key_id := true |}.

Definition set_receipt (ms : MetadataState) (r : CompletionReceipt) : MetadataState := {|
  ms_completion_receipt := Some r; ms_self_pack := ms_self_pack ms;
  ms_saw_self_payload_fact := ms_saw_self_payload_fact ms;
  ms_containers := ms_containers ms; ms_streams := ms_streams ms;
  ms_namespace_key_ids := ms_namespace_key_ids ms; ms_declared := ms_declared ms;
  ms_saw_stream := ms_saw_stream ms; ms_saw_namespace_key_id := ms_saw_namespace_key_id ms |}.

(** [vec.last()]. *)
Definition last_of {A} (l : list A) : option A := hd_error (rev l).

Definition validate_key_order (previous : option text) (key : text) : V :=
  match previous with
  | Some previous =>
      match cmp previous key with
      | Lt => Ok tt
      | Eq => Err DuplicateNamespaceKey
      | Gt => Err InvalidNamespaceKeyOrder
      end
  | None => Ok tt
  end.

Definition decode_metadata_record (ms : MetadataState) (limits : IndexRunLimits) : R MetadataState :=
  tag <- Reader.u8 ;;
  if tag =? 0 then
    lift (reject_if (ms_saw_stream ms || ms_saw_namespace_key_id ms) InvalidContainerOrder) ;;
    lift (validate_next_container_count (ms_containers ms) (ms_streams ms) limits) ;;
    container <- decode_container limits ;;
    lift (validate_container_order (ct_key <$> last_of (ms_containers ms)) (ct_key container)) ;;
    mret (push_container ms container)
  else if tag =? 2 then
    lift (reject_if (ms_saw_namespace_key_id ms) InvalidContainerOrder) ;;
    lift (validate_next_container_count (ms_containers ms) (ms_streams ms) limits) ;;
    container <- decode_standalone_stream_container limits ;;
    lift (validate_container_order (st_key <$> last_of (ms_streams ms)) (st_key container)) ;;
    mret (push_stream ms container)
  else if tag =? 3 then
    declared <- lift (ok_or (ms_declared ms) FrameFactsMismatch) ;;
    lift (reject_if (len (ms_namespace_key_ids ms) >=? declared) FrameFactsMismatch) ;;
    namespace_key_id <- Reader.typed_string "namespace key id" (max_key_id_bytes limits) KeyId_new ;;
    lift (validate_key_order (last_of (ms_namespace_key_ids ms)) namespace_key_id) ;;
    mret (push_namespace_key ms namespace_key_id)
  else if tag =? 4 then
    remaining <- take_remaining ;;
    receipt <- lift (map_err (fun _ => FrameFactsMismatch) (CompletionReceipt_decode remaining)) ;;
    mret (set_receipt ms receipt)
  else lift (Err (InvalidTag "container type" tag)).

(** Reads one length-prefixed record with [body], which must use it up. *)
Definition in_record {A} (maximum : Z) (check : Reader.t -> V) (body : R A) : R A :=
  record <- Reader.record maximum ;;
  lift (check record) ;;
  '(a, record) <- lift (body record) ;;
  lift (Reader.finish_record record) ;;
  mret a.

Fixpoint decode_metadata_loop (count : nat) (ms : MetadataState) (limits : IndexRunLimits) :
    R MetadataState :=
  match count with
  | O => mret ms
  | S count' =>
      lift (reject_if (match ms_completion_receipt ms with Some _ => true | None => false end)
              InvalidContainerOrder) ;;
      ms <- in_record
              (Z.max (Z.min STANDALONE_CONTAINER_MAX_BYTES (max_frame_bytes limits))
                 (max_record_bytes limits))
              (fun record =>
                 validate_count "metadata record bytes" (len (Reader.remaining record))
                   (record_limit Metadata (u8 <$> hd_error (Reader.remaining record)) limits))
              (decode_metadata_record ms limits) ;;
      decode_metadata_loop count' ms limits
  end.

(** The declared facts of a metadata frame, taken from the first frame and
    repeated by the others. *)
Definition accept_metadata_facts (ms : MetadataState) (header : DecodedFrameHeader) :
    result IndexRunError MetadataState :=
  count <-? ok_or (h_namespace_key_count header) FrameFactsMismatch ;;
  reject_if ((count >? h_role_record_count header) || (count >? h_mutation_count header))
    FrameFactsMismatch ;;?
  '(declared, keys) <-?
    match ms_declared ms with
    | None => Ok (count, [])
    | Some declared => if declared =? count then Ok (count, ms_namespace_key_ids ms)
                       else Err FrameFactsMismatch
    end ;;
  frame_self_pack <-? ok_or (h_self_pack header) FrameFactsMismatch ;;
  reject_if (ms_saw_self_payload_fact ms && negb (bool_decide (ms_self_pack ms = frame_self_pack)))
    FrameFactsMismatch ;;?
  Ok {| ms_completion_receipt := ms_completion_receipt ms;
        ms_self_pack := frame_self_pack;
        ms_saw_self_payload_fact := true;
        ms_containers := ms_containers ms;
        ms_streams := ms_streams ms;
        ms_namespace_key_ids := keys;
        ms_declared := Some declared;
        ms_saw_stream := ms_saw_stream ms;
        ms_saw_namespace_key_id := ms_saw_namespace_key_id ms |}.

Definition decode_metadata (ms : MetadataState) (header : DecodedFrameHeader)
    (limits : IndexRunLimits) : R MetadataState :=
  ms <- lift (accept_metadata_facts ms header) ;;
  decode_metadata_loop (Z.to_nat (h_frame_record_count header)) ms limits.

(** *** Namespace *)

Definition no_check (r : Reader.t) : V := Ok tt.

(** The use an accepted projection makes of the containers. *)
Definition mark_used (projection : NamespaceProjection) (used : Used) : Used :=
  match projection with
  | NsUpsert _ _ _ payload _ _ _ _ _ _ =>
      match payload with
      | Empty => used
      | SelfPack _ =>
          {| used_containers := used_containers used; used_streams := used_streams used;
             uses_self := true |}
      | ExternalPack container_ordinal _ =>
          {| used_containers := bs_add container_ordinal (used_containers used);
             used_streams := used_streams used; uses_self := uses_self used |}
      | ExternalStandaloneStream container_ordinal =>
          {| used_containers := used_containers used;
             used_streams := bs_add container_ordinal (used_streams used);
             uses_self := uses_self used |}
      end
  | NsTombstone _ _ _ => used
  end.

(** [previous.is_some_and(|previous| previous >= key)]. *)
Definition not_above {K} `{Ord K} (previous : option K) (key : K) : bool :=
  match previous with
  | Some previous => leb key previous
  | None => false
  end.

Definition store_namespace (ns : NamespaceState) (ordinal : Z) (projection : NamespaceProjection)
    (namespace_key_ordinal : Z) : result IndexRunError NamespaceState :=
  let sort_key := (projection_blind_key projection, ordinal) in
  reject_if (not_above (ns_previous_key ns) sort_key) (InvalidProjectionOrder "namespace") ;;?
  slot <-? projection_slot (ns_slots ns) "namespace" ordinal ;;
  match slot with
  | Some _ => Err (DuplicateProjectionOrdinal "namespace" ordinal)
  | None =>
      Ok {| ns_slots := <[Z.to_nat ordinal := Some projection]> (ns_slots ns);
            ns_previous_key := Some sort_key;
            ns_used := mark_used projection (ns_used ns);
            ns_used_keys := bs_add namespace_key_ordinal (ns_used_keys ns);
            ns_saw := ns_saw ns |}
  end.

Definition decode_namespace_record (ms : MetadataState) : R (Z * NamespaceProjection * Z) :=
  ordinal <- Reader.u32_varint ;;
  '(projection, namespace_key_ordinal) <-
    decode_namespace_projection (ms_namespace_key_ids ms) (ms_containers ms) (ms_self_pack ms)
      (ms_streams ms) ;;
  mret (ordinal, projection, namespace_key_ordinal).

Fixpoint decode_namespace_loop (count : nat) (ms : MetadataState) (ns : NamespaceState)
    (limits : IndexRunLimits) : R NamespaceState :=
  match count with
  | O => mret ns
  | S count' =>
      '(ordinal, projection, namespace_key_ordinal) <-
        in_record (max_record_bytes limits) no_check (decode_namespace_record ms) ;;
      ns <- lift (store_namespace ns ordinal projection namespace_key_ordinal) ;;
      decode_namespace_loop count' ms ns limits
  end.

Definition decode_namespace (d : IndexRunFrameDecoder) (header : DecodedFrameHeader)
    (limits : IndexRunLimits) : R IndexRunFrameDecoder :=
  let ms := d_metadata d in
  declared <- lift (ok_or (ms_declared ms) FrameFactsMismatch) ;;
  lift (reject_if (negb (len (ms_namespace_key_ids ms) =? declared)) FrameFactsMismatch) ;;
  lift (reject_if (negb (h_role_record_count header =? h_mutation_count header)) FrameFactsMismatch) ;;
  let count := Z.to_nat (h_mutation_count header) in
  let '(ns, ls) :=
    if negb (ns_saw (d_namespace d)) then
      ({| ns_slots := resize count None (ns_slots (d_namespace d));
          ns_previous_key := ns_previous_key (d_namespace d);
          ns_used := ns_used (d_namespace d);
          ns_used_keys := ns_used_keys (d_namespace d);
          ns_saw := true |},
       {| ls_mutations := resize count None (ls_mutations (d_listing d));
          ls_previous_key := ls_previous_key (d_listing d);
          ls_saw := ls_saw (d_listing d) |})
    else (d_namespace d, d_listing d) in
  ns <- decode_namespace_loop (Z.to_nat (h_frame_record_count header)) ms ns limits ;;
  mret {| d_metadata := ms; d_namespace := ns; d_listing := ls |}.

(** *** Listing *)

Definition store_listing (slots : list (option NamespaceProjection)) (ls : ListingState)
    (ordinal : Z) (listing : ListingProjection) :
    result IndexRunError (list (option NamespaceProjection) * ListingState) :=
  let sort_key := (projection_path listing, ordinal) in
  reject_if (not_above (ls_previous_key ls) sort_key) (InvalidProjectionOrder "listing") ;;?
  mutation_slot <-? projection_slot (ls_mutations ls) "listing" ordinal ;;
  match mutation_slot with
  | Some _ => Err (DuplicateProjectionOrdinal "listing" ordinal)
  | None =>
      slot <-? projection_slot slots "namespace" ordinal ;;
      namespace_mutation <-? ok_or slot (ProjectionMismatch ordinal) ;;
      mutation <-? pair_projections ordinal namespace_mutation listing ;;
      Ok (<[Z.to_nat ordinal := None]> slots,
          {| ls_mutations := <[Z.to_nat ordinal := Some mutation]> (ls_mutations ls);
             ls_previous_key := Some sort_key;
             ls_saw := ls_saw ls |})
  end.

Definition decode_listing_record (previous_path : list byte) (limits : IndexRunLimits) :
    R (Z * ListingProjection) :=
  path <- decode_listing_path previous_path limits ;;
  ordinal <- Reader.u32_varint ;;
  listing <- decode_listing_projection path ;;
  mret (ordinal, listing).

Fixpoint decode_listing_loop (count : nat) (previous_path : list byte)
    (slots : list (option NamespaceProjection)) (ls : ListingState) (limits : IndexRunLimits) :
    R (list (option NamespaceProjection) * ListingState) :=
  match count with
  | O => mret (slots, ls)
  | S count' =>
      '(ordinal, listing) <-
        in_record (max_record_bytes limits) no_check (decode_listing_record previous_path limits) ;;
      '(slots, ls) <- lift (store_listing slots ls ordinal listing) ;;
      decode_listing_loop count' (projection_path listing) slots ls limits
  end.

Definition decode_listing (d : IndexRunFrameDecoder) (header : DecodedFrameHeader)
    (limits : IndexRunLimits) : R IndexRunFrameDecoder :=
  lift (reject_if (negb (h_role_record_count header =? h_mutation_count header)) FrameFactsMismatch) ;;
  let ls := {| ls_mutations := ls_mutations (d_listing d);
               ls_previous_key := ls_previous_key (d_listing d); ls_saw := true |} in
  '(slots, ls) <- decode_listing_loop (Z.to_nat (h_frame_record_count header)) []
                    (ns_slots (d_namespace d)) ls limits ;;
  let ns := d_namespace d in
  mret {| d_metadata := d_metadata d;
          d_namespace := {| ns_slots := slots; ns_previous_key := ns_previous_key ns;
                            ns_used := ns_used ns; ns_used_keys := ns_used_keys ns;
                            ns_saw := ns_saw ns |};
          d_listing := ls |}.

(** *** The end of the frames *)

Fixpoint ordered_mutations (index : Z) (slots : list (option IndexMutation)) :
    result IndexRunError (list IndexMutation) :=
  match slots with
  | [] => Ok []
  | slot :: slots' =>
      ordinal <-? to_u32 index ;;
      mutation <-? ok_or slot (ProjectionMismatch ordinal) ;;
      mutations <-? ordered_mutations (index + 1) slots' ;;
      Ok (mutation :: mutations)
  end.

Definition decoder_finish (d : IndexRunFrameDecoder) (sequence count : Z) (metadata_total : option Z) :
    result IndexRunError IndexRun :=
  let ms := d_metadata d in
  let ns := d_namespace d in
  let ls := d_listing d in
  reject_if ((count >? 0) && (negb (ns_saw ns) || negb (ls_saw ls))) InvalidFrameOrder ;;?
  reject_if ((count =? 0) && (ns_saw ns || ls_saw ls)) FrameFactsMismatch ;;?
  declared <-? ok_or (ms_declared ms) FrameFactsMismatch ;;
  reject_if (negb (len (ms_namespace_key_ids ms) =? declared)) FrameFactsMismatch ;;?
  n <-? add (len (ms_containers ms)) (len (ms_streams ms)) ;;
  n <-? add n (len (ms_namespace_key_ids ms)) ;;
  n <-? add n (match ms_completion_receipt ms with Some _ => 1 | None => 0 end) ;;
  total <-? ok_or metadata_total InvalidFrameOrder ;;
  reject_if (negb (n =? total)) FrameFactsMismatch ;;?
  validate_distinct_container_objects (ms_containers ms) (ms_streams ms) ;;?
  validate_container_use (length (ms_containers ms)) (used_containers (ns_used ns))
    (uses_self (ns_used ns)) (ms_self_pack ms) ;;?
  validate_standalone_stream_container_use (length (ms_streams ms)) (used_streams (ns_used ns)) ;;?
  validate_namespace_key_use (length (ms_namespace_key_ids ms)) (ns_used_keys ns) ;;?
  mutations <-? ordered_mutations 0 (ls_mutations ls) ;;
  validate_repeated_record_facts mutations ;;?
  let run := {| run_completion_receipt := ms_completion_receipt ms;
                run_sequence := sequence;
                run_self_pack := ms_self_pack ms;
                run_containers := ms_containers ms;
                run_standalone_stream_containers := ms_streams ms;
                run_mutations := mutations |} in
  validate_completion_receipt run ;;?
  Ok run.

(** The local variables of [decode_index_run_frames]. *)
Record FrameLoop : Type := {
  fl_decoder : IndexRunFrameDecoder;
  fl_metadata_total : option Z;
  fl_sequence : option Z;
  fl_mutation_count : option Z;
  fl_expected_role : IndexRunFrameRole;
  fl_expected_role_ordinal : Z;
  fl_role_total : option Z;
  fl_role_seen : Z
}.

Definition FrameLoop_start : FrameLoop := {|
  fl_decoder := IndexRunFrameDecoder_default;
  fl_metadata_total := None;
  fl_sequence := None;
  fl_mutation_count := None;
  fl_expected_role := Metadata;
  fl_expected_role_ordinal := 0;
  fl_role_total := None;
  fl_role_seen := 0 |}.

(** [match fact { None => fact = Some(v), Some(v') if v' == v => {}, _ => return Err(..) }]. *)
Definition same_fact (fact : option Z) (v : Z) : V :=
  match fact with
  | None => Ok tt
  | Some v' => if v' =? v then Ok tt else Err FrameFactsMismatch
  end.

Definition is_expected (s : FrameLoop) (h : DecodedFrameHeader) : bool :=
  bool_decide (h_role h = fl_expected_role s) && (h_role_ordinal h =? fl_expected_role_ordinal s).

(** Moving on to the next role. *)
Definition next_role (s : FrameLoop) (h : DecodedFrameHeader) : result IndexRunError FrameLoop :=
  if is_expected s h then Ok s
  else
    reject_if (negb (frame_role_tag (h_role h) =? frame_role_tag (fl_expected_role s) + 1)
               || negb (h_role_ordinal h =? 0)) InvalidFrameOrder ;;?
    role_total <-? ok_or (fl_role_total s) InvalidFrameOrder ;;
    reject_if (negb (fl_role_seen s =? role_total)) InvalidFrameOrder ;;?
    Ok {| fl_decoder := fl_decoder s;
          fl_metadata_total := fl_metadata_total s;
          fl_sequence := fl_sequence s;
          fl_mutation_count := fl_mutation_count s;
          fl_expected_role := h_role h;
          fl_expected_role_ordinal := 0;
          fl_role_total := None;
          fl_role_seen := 0 |}.

(** The header checks of one turn of the loop. *)
Definition accept_header (s : FrameLoop) (h : DecodedFrameHeader) (limits : IndexRunLimits) :
    result IndexRunError FrameLoop :=
  s <-? next_role s h ;;
  reject_if (negb (is_expected s h)) InvalidFrameOrder ;;?
  expected_role_ordinal <-? ok_or (checked_add_u32 (fl_expected_role_ordinal s) 1) IntegerOverflow ;;
  same_fact (fl_sequence s) (h_sequence h) ;;?
  same_fact (fl_mutation_count s) (h_mutation_count h) ;;?
  match fl_mutation_count s with
  | None => validate_count "mutation count" (h_mutation_count h) (max_mutations limits)
  | Some _ => Ok tt
  end ;;?
  same_fact (fl_role_total s) (h_role_record_count h) ;;?
  role_seen <-? add (fl_role_seen s) (h_frame_record_count h) ;;
  reject_if (role_seen >? h_role_record_count h) FrameFactsMismatch ;;?
  Ok {| fl_decoder := fl_decoder s;
        fl_metadata_total := if bool_decide (h_role h = Metadata) then Some (h_role_record_count h)
                             else fl_metadata_total s;
        fl_sequence := Some (h_sequence h);
        fl_mutation_count := Some (h_mutation_count h);
        fl_expected_role := fl_expected_role s;
        fl_expected_role_ordinal := expected_role_ordinal;
        fl_role_total := Some (h_role_record_count h);
        fl_role_seen := role_seen |}.

Definition decode_role_records (d : IndexRunFrameDecoder) (h : DecodedFrameHeader)
    (limits : IndexRunLimits) : R IndexRunFrameDecoder :=
  match h_role h with
  | Metadata =>
      ms <- decode_metadata (d_metadata d) h limits ;;
      mret {| d_metadata := ms; d_namespace := d_namespace d; d_listing := d_listing d |}
  | Namespace => decode_namespace d h limits
  | Listing => decode_listing d h limits
  end.

Definition set_decoder (s : FrameLoop) (d : IndexRunFrameDecoder) : FrameLoop := {|
  fl_decoder := d;
  fl_metadata_total := fl_metadata_total s;
  fl_sequence := fl_sequence s;
  fl_mutation_count := fl_mutation_count s;
  fl_expected_role := fl_expected_role s;
  fl_expected_role_ordinal := fl_expected_role_ordinal s;
  fl_role_total := fl_role_total s;
  fl_role_seen := fl_role_seen s |}.

Definition decode_frame (s : FrameLoop) (encoded : list byte) (limits : IndexRunLimits) :
    result IndexRunError FrameLoop :=
  validate_count "frame bytes" (len encoded) (max_frame_bytes limits) ;;?
  '(h, reader) <-? decode_frame_header limits (Reader.new encoded) ;;
  s <-? accept_header s h limits ;;
  '(d, reader) <-? decode_role_records (fl_decoder s) h limits reader ;;
  reject_if (negb (Reader.is_empty reader)) TrailingBytes ;;?
  Ok (set_decoder s d).

Fixpoint decode_frames_loop (s : FrameLoop) (frames : list (list byte)) (limits : IndexRunLimits) :
    result IndexRunError FrameLoop :=
  match frames with
  | [] => Ok s
  | encoded :: frames' =>
      s <-? decode_frame s encoded limits ;;
      decode_frames_loop s frames' limits
  end.

Definition decode_index_run_frames (frames : list (list byte)) (limits : IndexRunLimits) :
    result IndexRunError IndexRun :=
  reject_if (len frames =? 0) InvalidFrameOrder ;;?
  total_bytes <-? total_len 0 frames ;;
  validate_count "total frame bytes" total_bytes (max_total_bytes limits) ;;?
  s <-? decode_frames_loop FrameLoop_start frames limits ;;
  role_total <-? ok_or (fl_role_total s) InvalidFrameOrder ;;
  reject_if (negb (fl_role_seen s =? role_total)) InvalidFrameOrder ;;?
  count <-? ok_or (fl_mutation_count s) InvalidFrameOrder ;;
  sequence <-? ok_or (fl_sequence s) InvalidFrameOrder ;;
  decoder_finish (fl_decoder s) sequence count (fl_metadata_total s).

Fixpoint bundle_frames (count : nat) (limits : IndexRunLimits) : R (list (list byte)) :=
  match count with
  | O => mret []
  | S count' =>
      record <- Reader.record (max_frame_bytes limits) ;;
      frames <- bundle_frames count' limits ;;
      mret (Reader.remaining record :: frames)
  end.

Definition decode_index_run (encoded : list byte) (limits : IndexRunLimits) :
    result IndexRunError IndexRun :=
  validate_count "total bytes" (len encoded) (max_total_bytes limits) ;;?
  n <-? ok_or (checked_mul (max_mutations limits) 3) IntegerOverflow ;;
  n <-? add n (max_containers limits) ;;
  maximum_frames <-? add n 1 ;;
  '(frame_count, bundle) <-? Reader.bounded_count "frame count" maximum_frames (Reader.new encoded) ;;
  '(frames, bundle) <-? bundle_frames (Z.to_nat frame_count) limits bundle ;;
  reject_if (negb (Reader.is_empty bundle)) TrailingBytes ;;?
  decode_index_run_frames frames limits.
