(* ===== verification/RunCodec.v ===== *)
(** * Record encodings of index runs

    The bytes of every record of a run as pure functions, the encoders of
    RunEncode shown to write them and the decoders of RunDecode shown to read
    them back. *)

From Stdlib Require Import Strings.String.
From S2P Require Import Prelude Ord Text Types Etag Checksum Completion Layout RunWire RunTypes RunValidate RunEncode RunDecode.
Open Scope Z_scope.

(** ** Encodings *)

Definition enc_version (v : option text) : list byte :=
  match v with
  | None => [to_u8 0]
  | Some v => [to_u8 1] ++ framed v
  end.

Definition enc_exact (object_id : text) (version_id : option text) (stored_len : Z)
    (object_digest : list byte) (k : IndexRunKeyringRef) : list byte :=
  framed object_id ++ enc_version version_id ++ to_be_bytes 8 stored_len ++ object_digest
  ++ framed (kr_object_id k) ++ kr_digest k.

Definition enc_container (c : IndexRunContainer) : list byte :=
  enc_exact (ct_object_id c) (ct_version_id c) (ct_stored_len c) (ct_commit_body_digest c)
    (ct_keyring_envelope c)
  ++ enc_varint (ct_pack_section_ordinal c) ++ to_be_bytes 8 (ct_pack_section_offset c)
  ++ to_be_bytes 8 (ct_pack_section_len c) ++ ct_pack_id c ++ ct_attempt_id c
  ++ framed (ct_content_key_id c) ++ enc_varint (ct_pack_record_count c).

Definition enc_part (p : PayloadPart) : list byte :=
  enc_varint (part_number p) ++ part_attempt_id p ++ enc_varint (part_plaintext_len p).

Definition enc_layout (l : PayloadLayout) : list byte :=
  enc_varint (chunk_size l) ++ enc_varint (plaintext_len l) ++ framed (layout_key_id l)
  ++ carrier_id l ++ enc_varint (len (layout_parts l)) ++ flat_map enc_part (layout_parts l).

Definition enc_stream (c : IndexRunStandaloneStreamContainer) : list byte :=
  enc_exact (st_object_id c) (st_version_id c) (st_stored_len c) (st_object_digest c)
    (st_keyring_envelope c)
  ++ enc_layout (st_payload_layout c).

Definition enc_pointer (p : IndexPackRecordPointer) : list byte :=
  enc_varint (record_ordinal p) ++ enc_varint (physical_offset p).

Definition enc_payload (p : IndexPayloadPointer) : list byte :=
  match p with
  | Empty => [to_u8 0]
  | SelfPack r => [to_u8 1] ++ enc_pointer r
  | ExternalPack c r => [to_u8 2] ++ enc_varint c ++ enc_pointer r
  | ExternalStandaloneStream c => [to_u8 5] ++ enc_varint c
  end.

Definition enc_retention (r : option RetentionPolicy) : list byte :=
  match r with
  | None => [to_u8 0]
  | Some r => [to_u8 1] ++ [to_u8 (retention_mode_tag (mode r))] ++ enc_varint (retain_days r)
  end.

Definition enc_legal_hold (h : option LegalHoldStatus) : list byte := [to_u8 (legal_hold_tag h)].

Definition enc_checksum (c : option ObjectChecksum) : list byte :=
  match c with
  | None => [to_u8 0]
  | Some c => [to_u8 (len (ObjectChecksum_encode c))] ++ ObjectChecksum_encode c
  end.

(** The namespace record of a mutation whose namespace key has ordinal [n]. *)
Definition enc_namespace (n : Z) (m : IndexMutation) : list byte :=
  enc_varint (ordinal m)
  ++ match m with
     | Upsert u =>
         [to_u8 0] ++ up_blind_key u ++ enc_varint n ++ enc_varint (up_generation u)
         ++ enc_payload (up_payload u) ++ enc_varint (up_content_len u)
         ++ i64_to_be_bytes (up_modified_at_ms u) ++ enc_retention (up_retention u)
         ++ enc_legal_hold (up_legal_hold u) ++ enc_checksum (up_checksum u)
         ++ ObjectEtag_encode (up_etag u)
     | Tombstone t =>
         [to_u8 1] ++ tb_blind_key t ++ enc_varint n ++ enc_varint (tb_generation t)
     end.

Definition enc_listing (m : IndexMutation) : list byte :=
  enc_varint (ordinal m)
  ++ match m with
     | Upsert u =>
         [to_u8 0] ++ enc_varint (up_generation u) ++ enc_varint (up_content_len u)
         ++ i64_to_be_bytes (up_modified_at_ms u)
     | Tombstone t => [to_u8 1] ++ enc_varint (tb_generation t)
     end.

(** ** Writing *)

Lemma writes_version v limits :
  writes (match v with
          | None => Writer.u8 0
          | Some version_id =>
              Writer.u8 1 ;; Writer.string version_id (max_version_id_bytes limits) "version id"
          end) (fun _ enc => enc = enc_version v
                     /\ forall s, v = Some s -> len s <= u64_max /\ len s <= max_version_id_bytes limits).
Proof.
  destruct v as [v|].
  - all_writes. split; [done|]. by intros ? [= <-].
  - eapply writes_weaken; [apply writes_u8|]. by intros _ e ->.
Qed.
#[export] Hint Resolve writes_version : wire.

(** What the strings of an exact container must satisfy to be read back. *)
Definition short (limit : Z) (s : text) : Prop := len s <= u64_max /\ len s <= limit.

Definition short_exact (limits : IndexRunLimits) (oid : text) (vid : option text)
    (k : IndexRunKeyringRef) : Prop :=
  short (max_object_id_bytes limits) oid /\ wf_option (short (max_version_id_bytes limits)) vid
  /\ short (max_object_id_bytes limits) (kr_object_id k).

Lemma writes_exact oid vid n d k limits :
  writes (encode_exact_container oid vid n d k limits)
    (fun _ enc => enc = enc_exact oid vid n d k /\ short_exact limits oid vid k).
Proof. unfold encode_exact_container, enc_exact, short_exact, wf_option, short. all_writes. auto. Qed.
#[export] Hint Resolve writes_exact : wire.

Lemma writes_parts ps :
  Forall wf_part ps -> writes (encode_payload_parts ps) (fun _ enc => enc = flat_map enc_part ps).
Proof.
  unfold wf_part, is_u32, is_u64. induction ps as [|p ps IH]; intros F.
  { eapply writes_weaken; [apply writes_ret|]. by intros _ e [_ ->]. }
  inversion F; subst. destruct_and?. specialize (IH ltac:(done)).
  cbn [encode_payload_parts flat_map]. unfold enc_part. all_writes. by rewrite <- !app_assoc.
Qed.
#[export] Hint Resolve writes_parts : wire.

Lemma writes_layout l :
  wf_layout l ->
  writes (encode_payload_layout l)
    (fun _ enc => enc = enc_layout l /\ len (layout_key_id l) <= u64_max /\ len (layout_parts l) <= u64_max).
Proof.
  intros (C & P & _ & _ & F). unfold is_u64 in C, P. unfold encode_payload_layout, enc_layout.
  intros s a s' E. inv_bind. fwd usize_to_u64_Ok. destruct_and?; subst.
  pose proof (len_nonneg (layout_parts l)).
  repeat (step_writes; cbv beta in *; destruct_and?; subst). eexists.
  split; [rewrite <- ?app_assoc; reflexivity|split; [rewrite <- ?app_assoc in *; tauto|]]. auto.
Qed.
#[export] Hint Resolve writes_layout : wire.

Lemma writes_pointer p : wf_pointer p -> writes (encode_pack_record_pointer p) (fun _ enc => enc = enc_pointer p).
Proof. unfold wf_pointer, is_u32, encode_pack_record_pointer. intros []. all_writes. done. Qed.
#[export] Hint Resolve writes_pointer : wire.

Lemma writes_payload p : wf_payload p -> writes (encode_payload_pointer p) (fun _ enc => enc = enc_payload p).
Proof.
  unfold encode_payload_pointer. destruct p; simpl; intros W; unfold is_u32 in *; destruct_and?;
    all_writes; done.
Qed.
#[export] Hint Resolve writes_payload : wire.

Lemma writes_retention r :
  wf_option wf_retention r -> writes (encode_retention r) (fun _ enc => enc = enc_retention r).
Proof.
  unfold encode_retention, wf_option, wf_retention, is_u32.
  destruct r as [r|]; intros W; [specialize (W r eq_refl)|]; all_writes; done.
Qed.
#[export] Hint Resolve writes_retention : wire.

Lemma writes_legal_hold h : writes (encode_legal_hold h) (fun _ enc => enc = enc_legal_hold h).
Proof. apply writes_u8. Qed.
#[export] Hint Resolve writes_legal_hold : wire.

Lemma writes_checksum c : writes (encode_checksum c) (fun _ enc => enc = enc_checksum c).
Proof.
  unfold encode_checksum. destruct c as [c|]; [|apply writes_u8].
  intros s a s' E. inv_bind. case_if_in Heqo; [|done]. inv_bind.
  repeat (step_writes; cbv beta in *; destruct_and?; subst). eexists.
  split; [rewrite <- ?app_assoc; reflexivity|split; [rewrite <- ?app_assoc in *; tauto|]]. done.
Qed.
#[export] Hint Resolve writes_checksum : wire.

(** A record written on a fresh buffer. *)
Lemma written_Ok maximum w bs Q :
  0 <= maximum -> writes w Q -> written maximum w = Ok bs -> Q tt bs /\ len bs <= maximum.
Proof.
  intros P W E. unfold written in E. inv_bind. destruct (W _ _ _ Heqr) as (enc & -> & B & HQ).
  simpl in *. split; [done|]. apply B. done.
Qed.

(** The limits are [usize] values. *)
Definition wf_limits (l : IndexRunLimits) : Prop :=
  is_u64 (max_total_bytes l) /\ is_u64 (max_frame_bytes l) /\ is_u64 (max_record_bytes l)
  /\ is_u64 (max_containers l) /\ is_u64 (max_mutations l) /\ is_u64 (max_path_bytes l)
  /\ is_u64 (max_key_id_bytes l) /\ is_u64 (max_object_id_bytes l) /\ is_u64 (max_version_id_bytes l).

Definition short_container (limits : IndexRunLimits) (c : IndexRunContainer) : Prop :=
  short_exact limits (ct_object_id c) (ct_version_id c) (ct_keyring_envelope c)
  /\ short (max_key_id_bytes limits) (ct_content_key_id c).

Lemma container_record_Ok limits c bs :
  wf_limits limits -> wf_container c -> encode_container_record limits c = Ok bs ->
  bs = [to_u8 0] ++ enc_container c /\ len bs <= max_record_bytes limits /\ short_container limits c.
Proof.
  unfold wf_limits, wf_container, is_u64, is_u32. intros L W E. destruct_and?.
  unfold encode_container_record in E.
  eapply (written_Ok _ _ _ (fun _ enc => enc = [to_u8 0] ++ enc_container c /\ short_container limits c)) in E;
    [tauto|lia|].
  all_writes. unfold short_container, short. split; [done|tauto].
Qed.

Lemma stream_record_Ok limits c bs :
  wf_limits limits -> wf_stream c -> encode_stream_record limits c = Ok bs ->
  bs = [to_u8 2] ++ enc_stream c
  /\ len bs <= Z.min STANDALONE_CONTAINER_MAX_BYTES (max_frame_bytes limits)
  /\ short_exact limits (st_object_id c) (st_version_id c) (st_keyring_envelope c)
  /\ len (layout_key_id (st_payload_layout c)) <= u64_max
  /\ len (layout_parts (st_payload_layout c)) <= u64_max.
Proof.
  unfold wf_limits, wf_stream, is_u64. intros L W E. destruct_and?.
  unfold encode_stream_record in E.
  eapply (written_Ok _ _ _ (fun _ enc => enc = [to_u8 2] ++ enc_stream c
    /\ short_exact limits (st_object_id c) (st_version_id c) (st_keyring_envelope c)
    /\ len (layout_key_id (st_payload_layout c)) <= u64_max
    /\ len (layout_parts (st_payload_layout c)) <= u64_max)) in E;
    [tauto|unfold STANDALONE_CONTAINER_MAX_BYTES; lia|].
  all_writes. split; [done|tauto].
Qed.

Lemma key_record_Ok limits k bs :
  wf_limits limits -> encode_namespace_key_record limits k = Ok bs ->
  bs = [to_u8 3] ++ framed k /\ len bs <= max_record_bytes limits /\ short (max_key_id_bytes limits) k.
Proof.
  unfold wf_limits, is_u64. intros L E. destruct_and?. unfold encode_namespace_key_record in E.
  eapply (written_Ok _ _ _ (fun _ enc => enc = [to_u8 3] ++ framed k /\ short (max_key_id_bytes limits) k)) in E;
    [tauto|lia|].
  all_writes. unfold short. auto.
Qed.

Lemma receipt_record_Ok limits r bs :
  wf_limits limits -> wf_receipt r -> encode_receipt_record limits r = Ok bs ->
  bs = [to_u8 4] ++ enc_receipt r /\ len bs <= max_record_bytes limits
  /\ CompletionReceipt_validate r = Ok tt.
Proof.
  unfold wf_limits, is_u64. intros L W E. destruct_and?. unfold encode_receipt_record in E.
  eapply (written_Ok _ _ _ (fun _ enc => enc = [to_u8 4] ++ enc_receipt r
            /\ CompletionReceipt_validate r = Ok tt)) in E; [tauto|lia|].
  intros s a s' E'. inv_bind.
  match goal with H : CompletionReceipt_encode r = Ok _ |- _ =>
    pose proof (receipt_encode_inv _ _ H) as Vd; rewrite (receipt_encode_enc r W Vd) in H end. inv_bind.
  repeat (step_writes; cbv beta in *; destruct_and?; subst). eexists.
  split; [rewrite <- ?app_assoc; reflexivity|split; [rewrite <- ?app_assoc in *; tauto|]]. auto.
Qed.

Lemma namespace_record_Ok limits keys m bs :
  wf_limits limits -> wf_mutation m -> encode_namespace_record limits keys m = Ok bs ->
  exists n, binary_search keys (mutation_namespace_key_id m) = Some n
    /\ bs = enc_namespace n m /\ len bs <= max_record_bytes limits.
Proof.
  unfold wf_limits, is_u64. intros L W E. destruct_and?. unfold encode_namespace_record in E.
  eapply (written_Ok _ _ _ (fun _ enc => exists n,
    binary_search keys (mutation_namespace_key_id m) = Some n /\ enc = enc_namespace n m)) in E.
  - destruct E as [(n & ? & ->) ?]. eauto.
  - lia.
  - assert (forall k n, binary_search keys k = Some n -> 0 <= n) as P.
    { intros k n B. apply position_Some in B. lia. }
    destruct m as [u|t]; simpl in W; unfold wf_upsert, wf_tombstone, is_u32, is_u64 in W; destruct_and?;
      cbn [ordinal mutation_namespace_key_id enc_namespace]; unfold namespace_key_ordinal;
      intros s a s' E'; inv_bind; fwd usize_to_u64_Ok; destruct_and?; subst;
      match goal with B : binary_search _ _ = Some _ |- _ => pose proof (P _ _ B) end;
      repeat (step_writes; cbv beta in *; destruct_and?; subst); eexists;
      (split; [rewrite <- ?app_assoc; reflexivity|split; [rewrite <- ?app_assoc in *; tauto|eauto]]).
Qed.

Lemma listing_record_Ok limits m bs :
  wf_limits limits -> wf_mutation m -> encode_listing_record limits m = Ok bs ->
  bs = enc_listing m /\ len bs <= max_record_bytes limits.
Proof.
  unfold wf_limits, is_u64. intros L W E. destruct_and?. unfold encode_listing_record in E.
  eapply (written_Ok _ _ _ (fun _ enc => enc = enc_listing m)) in E; [tauto|lia|].
  destruct m as [u|t]; simpl in W; unfold wf_upsert, wf_tombstone, is_u32, is_u64 in W; destruct_and?;
    cbn [ordinal enc_listing]; all_writes; done.
Qed.

(** ** Reading *)

Lemma wf32_len bs : wf32 bs -> 32 = len bs.
Proof. unfold wf32, len. intros ->. done. Qed.

Lemma reads_32 bs : wf32 bs -> reads (E := IndexRunError) (Reader.bytes 32) bs bs.
Proof. intros W. by apply run_reads_bytes, wf32_len. Qed.

Lemma reads_attempt bs : wf32 bs -> reads decode_attempt_id bs bs.
Proof. apply reads_32. Qed.

Lemma reads_blind_key bs : wf32 bs -> reads decode_blind_key bs bs.
Proof. apply reads_32. Qed.

Lemma reads_short_string f m kind s :
  wf_name s -> short m s -> reads (Reader.typed_string f m (validate_non_empty kind)) (framed s) s.
Proof. intros W []. by apply reads_typed_string. Qed.

#[export] Hint Resolve reads_32 reads_attempt reads_blind_key reads_short_string run_reads_u8
  run_reads_u16 run_reads_u64 run_reads_i64 reads_varint reads_u32_varint : codec.
#[export] Hint Extern 3 (_ <= _ <= _) => lia : codec.

(** One read of a sequence: of the next chunk, of the last, or of nothing. *)
Ltac rd := eapply reads_bind; [solve [eauto with codec]|].
Ltac rd_end := eapply reads_bind_end; [solve [eauto with codec]|].
Ltac rd_nil := eapply reads_bind_nil; [solve [eauto with codec]|].

Lemma reads_version v limits :
  wf_version v -> wf_option (short (max_version_id_bytes limits)) v ->
  reads (decode_version_id limits) (enc_version v) v.
Proof.
  intros W S. unfold decode_version_id. destruct v as [v|]; cbn [enc_version].
  - specialize (W v eq_refl). specialize (S v eq_refl). rd. cbn [Z.eqb Pos.eqb].
    eapply reads_bind_end; [by apply reads_short_string|]. apply reads_ret.
  - rd_end. apply reads_ret.
Qed.
#[export] Hint Resolve reads_version : codec.

Lemma reads_exact limits oid vid n d k :
  wf_name oid -> wf_version vid -> is_u64 n -> wf32 d -> wf_keyring k -> short_exact limits oid vid k ->
  reads (decode_exact_container limits) (enc_exact oid vid n d k)
    {| ex_object_id := oid; ex_version_id := vid; ex_stored_len := n; ex_object_digest := d;
       ex_keyring_envelope := k |}.
Proof.
  intros Wo Wv Wn Wd [Wk1 Wk2] (So & Sv & Sk). unfold decode_exact_container, enc_exact.
  eapply reads_bind; [by apply reads_short_string|]. rd. rd. rd.
  eapply reads_bind; [by apply reads_short_string|]. rd_end. destruct k. apply reads_ret.
Qed.

Lemma reads_container limits c :
  wf_container c -> short_container limits c -> validate_container_range c = Ok tt ->
  reads (decode_container limits) (enc_container c) c.
Proof.
  intros W [Se Sk] Vd. unfold wf_container in W. destruct_and?. unfold decode_container, enc_container.
  eapply reads_bind; [by apply reads_exact|]. cbn [ex_object_id ex_version_id ex_stored_len ex_object_digest ex_keyring_envelope].
  rd. rd. rd. rd. rd. eapply reads_bind; [by apply reads_short_string|]. rd_end.
  eapply reads_bind_nil; [apply reads_lift; destruct c; exact Vd|]. destruct c. apply reads_ret.
Qed.

Lemma reads_parts ps :
  Forall wf_part ps -> reads (decode_payload_parts (length ps)) (flat_map enc_part ps) ps.
Proof.
  induction ps as [|p ps IH]; intros F; [apply reads_ret|].
  inversion F as [|? ? (Wn & Wa & Wl) F']; subst. cbn [length decode_payload_parts flat_map].
  unfold enc_part at 1. rewrite <- !app_assoc. rd. rd. rd.
  eapply reads_bind_end; [by apply IH|]. destruct p. apply reads_ret.
Qed.

(** A part takes at least 34 bytes, so the guard before the parts passes. *)
Lemma parts_guard ps : Forall wf_part ps -> 34 * len ps <= len (flat_map enc_part ps).
Proof.
  induction ps as [|p ps IH]; intros F; [done|]. inversion F as [|? ? (Wn & Wa & Wl) F']; subst.
  cbn [flat_map]. rewrite len_app, len_cons. unfold enc_part at 1. rewrite !len_app. specialize (IH F').
  unfold is_u32, is_u64 in *.
  rewrite !len_enc_varint by (unfold is_u64; lia).
  pose proof (varint_len_range (part_number p)). pose proof (varint_len_range (part_plaintext_len p)).
  assert (len (part_attempt_id p) = 32) by (unfold len; rewrite Wa; done). lia.
Qed.

(** [left_bytes] sees what the following reads will consume. *)
Lemma reads_left_bytes {A} (k : Z -> R A) enc a :
  (forall n, len enc <= n -> reads (k n) enc a) -> reads (mbind left_bytes k) enc a.
Proof.
  intros K s rest V. unfold mbind, left_bytes. unfold view, cursor_run in V. rewrite V.
  apply (K (len (enc ++ rest))); [rewrite len_app; pose proof (len_nonneg rest); lia|done].
Qed.

Lemma reads_layout limits l :
  wf_layout l -> len (layout_key_id l) <= u64_max -> validate_payload_layout l limits = Ok tt ->
  reads (decode_payload_layout limits) (enc_layout l) l.
Proof.
  intros W Sk Vd. pose proof W as (Wc & Wp & Wk & Wi & F).
  pose proof Vd as Vd'. unfold validate_payload_layout in Vd. inv_bind. fwd validate_count_Ok.
  apply stored_len_iff in Heqo as [(_ & _ & [_ Np] & _) _]; [|done].
  assert (is_u64 (len (layout_parts l))) as Ul.
  { unfold is_u64, MAX_PAYLOAD_PARTS in *. pose proof (len_nonneg (layout_parts l)). lia. }
  unfold decode_payload_layout, enc_layout. rd. rd.
  eapply reads_bind; [apply reads_short_string; [done|by split]|]. rd.
  eapply reads_bind; [by apply reads_bounded_count|]. apply reads_left_bytes. intros n Ln.
  pose proof (parts_guard _ F).
  eapply reads_bind_nil; [apply reads_lift; unfold reject_if|].
  { destruct (Z.gtb_spec (len (layout_parts l)) (n / 34)) as [G|]; [|done].
    apply Z.lt_gt, Z.gt_lt in G. pose proof (Z.div_le_lower_bound n 34 (len (layout_parts l))). lia. }
  eapply reads_bind_end; [unfold len; rewrite Nat2Z.id; by apply reads_parts|].
  destruct l. eapply reads_bind_nil; [apply reads_lift, Vd'|apply reads_ret].
Qed.

Lemma reads_stream limits c :
  wf_stream c -> short_exact limits (st_object_id c) (st_version_id c) (st_keyring_envelope c) ->
  len (layout_key_id (st_payload_layout c)) <= u64_max ->
  validate_standalone_stream_container c limits = Ok tt ->
  reads (decode_standalone_stream_container limits) (enc_stream c) c.
Proof.
  intros W Se Sk Vd. unfold wf_stream in W. destruct_and?.
  unfold decode_standalone_stream_container, enc_stream.
  eapply reads_bind; [by apply reads_exact|].
  cbn [ex_object_id ex_version_id ex_stored_len ex_object_digest ex_keyring_envelope].
  eapply reads_bind_end.
  { apply reads_layout; [done..|]. unfold validate_standalone_stream_container in Vd. by inv_bind. }
  destruct c. eapply reads_bind_nil; [apply reads_lift, Vd|apply reads_ret].
Qed.

Lemma reads_pointer p : wf_pointer p -> reads decode_pack_record_pointer (enc_pointer p) p.
Proof. intros []. unfold decode_pack_record_pointer, enc_pointer. rd. rd_end. destruct p. apply reads_ret. Qed.

(** A payload pointer into the tables of the run. *)
Definition payload_in (containers : list IndexRunContainer) (self_pack : option IndexRunSelfPack)
    (streams : list IndexRunStandaloneStreamContainer) (p : IndexPayloadPointer) : Prop :=
  match p with
  | Empty => True
  | SelfPack r => exists pack, self_pack = Some pack /\ record_ordinal r < sp_record_count pack
  | ExternalPack c r =>
      c < len containers /\ exists ct, containers !! Z.to_nat c = Some ct
                                       /\ record_ordinal r < ct_pack_record_count ct
  | ExternalStandaloneStream c => c < len streams
  end.

Lemma reads_payload containers self_pack streams p :
  wf_payload p -> payload_in containers self_pack streams p ->
  reads (decode_payload_pointer containers self_pack streams) (enc_payload p) p.
Proof.
  unfold decode_payload_pointer. destruct p as [|r|c r|c]; cbn [enc_payload wf_payload payload_in].
  - intros _ _. rd_end. apply reads_ret.
  - intros W (pack & -> & L). rd. cbn [Z.eqb Pos.eqb]. eapply reads_bind_end; [by apply reads_pointer|].
    eapply reads_bind_nil; [apply reads_lift|apply reads_ret].
    unfold reject_if. by rewrite Z.geb_leb, (proj2 (Z.leb_gt _ _)).
  - intros [Wc W] (Lc & ct & Gc & L). rd. cbn [Z.eqb Pos.eqb]. rd.
    eapply reads_bind_nil; [apply reads_lift|].
    { unfold validate_container_ordinal, reject_if. by rewrite Z.geb_leb, (proj2 (Z.leb_gt _ _)). }
    eapply reads_bind_end; [by apply reads_pointer|].
    eapply reads_bind_nil; [apply reads_lift; unfold table_get; by rewrite Gc|].
    eapply reads_bind_nil; [apply reads_lift|apply reads_ret].
    unfold reject_if. by rewrite Z.geb_leb, (proj2 (Z.leb_gt _ _)).
  - intros Wc Lc. rd. cbn [Z.eqb Pos.eqb]. rd_end. eapply reads_bind_nil; [apply reads_lift|apply reads_ret].
    unfold validate_container_ordinal, reject_if. by rewrite Z.geb_leb, (proj2 (Z.leb_gt _ _)).
Qed.

Lemma reads_retention r : wf_option wf_retention r -> reads decode_retention (enc_retention r) r.
Proof.
  intros W. unfold decode_retention. destruct r as [[m d]|]; cbn [enc_retention].
  - specialize (W _ eq_refl). rd. cbn [Z.eqb Pos.eqb].
    eapply (reads_bind _ _ _ _ m); [|rd_end; apply reads_ret].
    unfold decode_retention_mode. destruct m; cbn [mode retention_mode_tag]; rd_end; apply reads_ret.
  - rd_end. apply reads_ret.
Qed.

Lemma reads_legal_hold h : reads decode_legal_hold (enc_legal_hold h) h.
Proof.
  unfold decode_legal_hold, enc_legal_hold.
  destruct h as [[]|]; cbn [legal_hold_tag]; rd_end; apply reads_ret.
Qed.

Lemma reads_checksum c : wf_option wf_checksum c -> reads decode_checksum (enc_checksum c) c.
Proof.
  intros W. unfold decode_checksum. destruct c as [c|]; cbn [enc_checksum].
  - specialize (W _ eq_refl). pose proof (len_checksum_encode c W) as B.
    pose proof (checksum_decode_encode c W) as D.
    assert (len (ObjectChecksum_encode c) <> 0) as N.
    { intros E. apply len_0_nil in E. by rewrite E in D. }
    pose proof (len_nonneg (ObjectChecksum_encode c)). unfold MAX_ENCODED_BYTES in *.
    rd. rewrite (proj2 (Z.eqb_neq _ _)) by done.
    eapply reads_bind_nil; [apply reads_lift, validate_count_Ok; lia|].
    eapply reads_bind_end; [by apply run_reads_bytes|].
    eapply reads_bind_nil; [apply reads_lift; by rewrite D|apply reads_ret].
  - rd_end. apply reads_ret.
Unshelve. exact tt.
Qed.

Lemma reads_etag e : wf_etag e -> reads decode_etag (ObjectEtag_encode e) e.
Proof.
  intros W. unfold decode_etag. eapply reads_bind_end; [apply run_reads_bytes; by rewrite len_etag_encode|].
  apply reads_lift. by rewrite etag_decode_encode.
Qed.

#[export] Hint Resolve reads_retention reads_legal_hold reads_checksum reads_etag reads_payload : codec.

(** The two projections of a mutation. *)
Definition ns_of (m : IndexMutation) : NamespaceProjection :=
  match m with
  | Upsert u =>
      NsUpsert (up_blind_key u) (up_namespace_key_id u) (up_generation u) (up_payload u)
        (up_content_len u) (up_modified_at_ms u) (up_retention u) (up_legal_hold u)
        (up_checksum u) (up_etag u)
  | Tombstone t => NsTombstone (tb_blind_key t) (tb_namespace_key_id t) (tb_generation t)
  end.

Definition ls_of (m : IndexMutation) : ListingProjection :=
  match m with
  | Upsert u => LsUpsert (up_path u) (up_generation u) (up_content_len u) (up_modified_at_ms u)
  | Tombstone t => LsTombstone (tb_path t) (tb_generation t)
  end.

Lemma pair_of m : pair_projections (ordinal m) (ns_of m) (ls_of m) = Ok m.
Proof. destruct m as [[]|[]]; simpl; by rewrite !Z.eqb_refl. Qed.

(** The payload of a mutation passes the checks of the decoder. *)
Definition payload_valid (ms : MetadataState) (m : IndexMutation) : Prop :=
  match m with
  | Upsert u =>
      payload_in (ms_containers ms) (ms_self_pack ms) (ms_streams ms) (up_payload u)
      /\ validate_empty_payload (up_payload u) (up_content_len u) = Ok tt
      /\ validate_payload_pointer (up_payload u) (up_content_len u) (ms_self_pack ms)
           (ms_containers ms) (ms_streams ms) = Ok tt
  | Tombstone _ => True
  end.

Lemma reads_key_reference keys n k :
  is_u32 n -> keys !! Z.to_nat n = Some k ->
  reads (decode_namespace_key_reference keys) (enc_varint n) (n, k).
Proof.
  intros U G. unfold decode_namespace_key_reference. rd_end.
  eapply reads_bind_nil; [apply reads_lift; by rewrite G|apply reads_ret].
Qed.

Lemma reads_namespace_record ms n m :
  wf_mutation m -> is_u32 n -> ms_namespace_key_ids ms !! Z.to_nat n = Some (mutation_namespace_key_id m) ->
  payload_valid ms m ->
  reads (decode_namespace_record ms) (enc_namespace n m) (ordinal m, ns_of m, n).
Proof.
  intros W U G Pv. unfold decode_namespace_record, enc_namespace.
  eapply (reads_bind _ _ _ _ (ordinal m)).
  { apply reads_u32_varint. destruct m; apply W. }
  eapply (reads_bind_end _ _ _ (ns_of m, n)); [|apply reads_ret].
  unfold decode_namespace_projection. destruct m as [u|t]; cbn [mutation_namespace_key_id] in *.
  - unfold wf_mutation, wf_upsert in W. destruct_and?. destruct Pv as (Pi & Pe & Pp). rd. cbn [Z.eqb Pos.eqb]. rd.
    eapply reads_bind; [by apply reads_key_reference|]. rd. rd. rd.
    eapply reads_bind_nil; [apply reads_lift, Pe|]. eapply reads_bind_nil; [apply reads_lift, Pp|].
    rd. rd. rd. rd. rd_end. apply reads_ret.
  - unfold wf_mutation, wf_tombstone in W. destruct_and?. rd. cbn [Z.eqb Pos.eqb]. rd.
    eapply reads_bind; [by apply reads_key_reference|]. rd_end. apply reads_ret.
Qed.

(** ** Listing paths *)

Lemma shared_prefix_spec previous path :
  let p := shared_prefix_len previous path in
  0 <= p <= len previous /\ p <= len path
  /\ take (Z.to_nat p) previous = take (Z.to_nat p) path
  /\ match previous !! Z.to_nat p, path !! Z.to_nat p with Some a, Some b => a <> b | _, _ => True end.
Proof.
  revert path. induction previous as [|a previous IH]; intros path; cbn [shared_prefix_len].
  { pose proof (len_nonneg path). split_and!; done || (unfold len; simpl; lia). }
  destruct path as [|b path].
  { split_and!; done || (unfold len; simpl; lia) || by destruct (_ !! _). }
  case_bool_decide as D.
  - subst b. specialize (IH path). cbn zeta in IH. set (q := shared_prefix_len previous path) in *.
    destruct IH as ([P1 P2] & P3 & T & N). rewrite !len_cons.
    replace (Z.to_nat (1 + q)) with (S (Z.to_nat q)) by lia. cbn [firstn lookup list_lookup].
    split_and!; [lia|lia|lia|by rewrite T|exact N].
  - rewrite !len_cons. pose proof (len_nonneg previous). pose proof (len_nonneg path).
    split_and!; try lia; done.
Qed.

(** The bytes of a path behind the one before it. *)
Definition enc_path (previous path : list byte) : list byte :=
  let p := shared_prefix_len previous path in
  enc_varint p ++ enc_varint (len path - p) ++ drop (Z.to_nat p) path.

Lemma reads_listing_path limits previous path :
  wf_name path -> len path <= u64_max -> len path <= max_path_bytes limits ->
  reads (decode_listing_path previous limits) (enc_path previous path) path.
Proof.
  intros W U B. destruct (shared_prefix_spec previous path) as ([P1 P2] & P3 & T & N).
  unfold enc_path, decode_listing_path. set (p := shared_prefix_len previous path) in *.
  assert (is_u64 p /\ is_u64 (len path - p)) as [Up Us] by (unfold is_u64; lia).
  eapply reads_bind; [apply reads_bounded_count; [done|lia]|].
  eapply reads_bind_nil; [apply reads_lift; by rewrite (proj2 (Z.leb_le _ _))|].
  eapply reads_bind; [apply reads_bounded_count; [done|lia]|].
  eapply reads_bind_nil.
  { apply reads_lift. unfold add. rewrite checked_add_ok by lia. simpl. reflexivity. }
  replace (p + (len path - p)) with (len path) by lia.
  eapply reads_bind_nil; [by apply reads_lift, validate_count_Ok|].
  eapply reads_bind_end.
  { apply run_reads_bytes. unfold len in *. rewrite length_drop. lia. }
  eapply reads_bind_nil.
  { apply reads_lift. replace (hd_error (drop (Z.to_nat p) path)) with (path !! Z.to_nat p); cycle 1.
    { rewrite <- (Nat.add_0_r (Z.to_nat p)) at 1. rewrite <- lookup_drop. by destruct (drop _ path). }
    destruct (previous !! Z.to_nat p), (path !! Z.to_nat p); try done.
    by rewrite bool_decide_false. }
  rewrite T, take_drop.
  eapply reads_bind_nil; [apply reads_lift; by rewrite is_name_utf8|].
  apply reads_lift. unfold LogicalPath_new. by rewrite validate_non_empty_ok.
Unshelve. exact tt.
Qed.

Lemma reads_listing_record limits previous m :
  wf_mutation m -> len (mutation_path m) <= u64_max -> len (mutation_path m) <= max_path_bytes limits ->
  reads (decode_listing_record previous limits) (enc_path previous (mutation_path m) ++ enc_listing m)
    (ordinal m, ls_of m).
Proof.
  intros W U B. unfold decode_listing_record, enc_listing.
  eapply reads_bind; [apply reads_listing_path; [destruct m; apply W|done|done]|].
  eapply (reads_bind _ _ _ _ (ordinal m)).
  { apply reads_u32_varint. destruct m; apply W. }
  eapply (reads_bind_end _ _ _ (ls_of m)); [|apply reads_ret].
  unfold decode_listing_projection. destruct m as [u|t].
  - unfold wf_mutation, wf_upsert in W. destruct_and?. rd. rd. cbn [Z.eqb]. rd. rd_end. apply reads_ret.
  - unfold wf_mutation, wf_tombstone in W. destruct_and?. rd. rd_end. apply reads_ret.
Qed.

(** ** Metadata records *)

(** A body that reads a record to its end. *)
Definition reads_whole {A} (body : R A) (bs : list byte) (a : A) : Prop :=
  exists r, body (Reader.new bs) = Ok (a, r) /\ Reader.remaining r = [].

Lemma reads_reads_whole {A} (body : R A) bs a : reads body bs a -> reads_whole body bs a.
Proof. intros P. apply (P (Reader.new bs) []). unfold view, cursor_run. by rewrite app_nil_r. Qed.

(** A record read whole inside its length prefix. *)
Lemma reads_in_record {A} maximum check (body : R A) bs a :
  len bs <= u64_max -> len bs <= maximum -> check (Reader.new bs) = Ok tt -> reads_whole body bs a ->
  reads (in_record maximum check body) (framed bs) a.
Proof.
  intros U B C (r & E & V). unfold in_record. eapply reads_bind_end; [by apply reads_record|].
  eapply reads_bind_nil; [by apply reads_lift|].
  eapply reads_bind_nil; [apply reads_lift, E|].
  eapply reads_bind_nil; [apply reads_lift|apply reads_ret].
  unfold Reader.finish_record, Reader.is_empty. by rewrite V.
Qed.

(** The items of the metadata role, their bytes, and what each does to the
    decoder. *)
Inductive MetaItem : Type :=
| MContainer (c : IndexRunContainer)
| MStream (c : IndexRunStandaloneStreamContainer)
| MKey (k : text)
| MReceipt (r : CompletionReceipt).

Definition enc_item (i : MetaItem) : list byte :=
  match i with
  | MContainer c => [to_u8 0] ++ enc_container c
  | MStream c => [to_u8 2] ++ enc_stream c
  | MKey k => [to_u8 3] ++ framed k
  | MReceipt r => [to_u8 4] ++ enc_receipt r
  end.

Definition push_item (ms : MetadataState) (i : MetaItem) : MetadataState :=
  match i with
  | MContainer c => push_container ms c
  | MStream c => push_stream ms c
  | MKey k => push_namespace_key ms k
  | MReceipt r => set_receipt ms r
  end.

(** The item fits the limits and is acceptable in state [ms]. *)
Definition item_ok (limits : IndexRunLimits) (ms : MetadataState) (i : MetaItem) : Prop :=
  ms_completion_receipt ms = None
  /\ match i with
     | MContainer c =>
         ms_saw_stream ms = false /\ ms_saw_namespace_key_id ms = false
         /\ validate_next_container_count (ms_containers ms) (ms_streams ms) limits = Ok tt
         /\ validate_container_order (ct_key <$> last_of (ms_containers ms)) (ct_key c) = Ok tt
         /\ wf_container c /\ short_container limits c /\ validate_container_range c = Ok tt
     | MStream c =>
         ms_saw_namespace_key_id ms = false
         /\ validate_next_container_count (ms_containers ms) (ms_streams ms) limits = Ok tt
         /\ validate_container_order (st_key <$> last_of (ms_streams ms)) (st_key c) = Ok tt
         /\ wf_stream c
         /\ short_exact limits (st_object_id c) (st_version_id c) (st_keyring_envelope c)
         /\ len (layout_key_id (st_payload_layout c)) <= u64_max
         /\ validate_standalone_stream_container c limits = Ok tt
     | MKey k =>
         (exists declared, ms_declared ms = Some declared /\ len (ms_namespace_key_ids ms) < declared)
         /\ wf_name k /\ short (max_key_id_bytes limits) k
         /\ validate_key_order (last_of (ms_namespace_key_ids ms)) k = Ok tt
     | MReceipt r => wf_receipt r /\ CompletionReceipt_validate r = Ok tt
     end.

Lemma reads_item limits ms i :
  item_ok limits ms i -> reads_whole (decode_metadata_record ms limits) (enc_item i) (push_item ms i).
Proof.
  intros (Nr & O). unfold decode_metadata_record. destruct i as [c|c|k|r]; cbn [enc_item push_item].
  - destruct O as (Ss & Sk & Vc & Vo & W & S & Vr). apply reads_reads_whole. rd. cbn [Z.eqb Pos.eqb].
    eapply reads_bind_nil; [apply reads_lift; by rewrite Ss, Sk|].
    eapply reads_bind_nil; [apply reads_lift, Vc|].
    eapply reads_bind_end; [by apply reads_container|].
    eapply reads_bind_nil; [apply reads_lift, Vo|apply reads_ret].
  - destruct O as (Sk & Vc & Vo & W & S & Sl & Vs). apply reads_reads_whole. rd. cbn [Z.eqb Pos.eqb].
    eapply reads_bind_nil; [apply reads_lift; by rewrite Sk|].
    eapply reads_bind_nil; [apply reads_lift, Vc|].
    eapply reads_bind_end; [by apply reads_stream|].
    eapply reads_bind_nil; [apply reads_lift, Vo|apply reads_ret].
  - destruct O as ((d & Ed & Ld) & W & S & Vo). apply reads_reads_whole. rd. cbn [Z.eqb Pos.eqb].
    eapply reads_bind_nil; [apply reads_lift; by rewrite Ed|].
    eapply reads_bind_nil; [apply reads_lift|].
    { unfold reject_if. by rewrite Z.geb_leb, (proj2 (Z.leb_gt _ _)). }
    eapply reads_bind_end; [by apply reads_short_string|].
    eapply reads_bind_nil; [apply reads_lift, Vo|apply reads_ret].
  - destruct O as (W & Vd). eexists. unfold mbind at 1.
    destruct (run_reads_u8 4 ltac:(lia) (Reader.new ([to_u8 4] ++ enc_receipt r)) (enc_receipt r) eq_refl)
      as (s & -> & V). cbn [Z.eqb Pos.eqb]. unfold mbind, take_remaining. rewrite V.
    rewrite (receipt_decode_encode r W Vd). split; reflexivity.
Qed.

(** Items in sequence. *)
Fixpoint items_ok (limits : IndexRunLimits) (ms : MetadataState) (items : list MetaItem) : Prop :=
  match items with
  | [] => True
  | i :: items' => item_ok limits ms i /\ items_ok limits (push_item ms i) items'
  end.

Definition push_items (ms : MetadataState) (items : list MetaItem) : MetadataState :=
  fold_left push_item items ms.

(** The record limit of an item, as the decoder looks it up by tag. *)
Definition item_limit (limits : IndexRunLimits) (i : MetaItem) : Z :=
  match i with
  | MStream _ => Z.min STANDALONE_CONTAINER_MAX_BYTES (max_frame_bytes limits)
  | _ => max_record_bytes limits
  end.

Lemma item_limit_tag limits i :
  record_limit Metadata (u8 <$> hd_error (enc_item i)) limits = item_limit limits i.
Proof. by destruct i. Qed.

Definition enc_items (items : list MetaItem) : list byte := flat_map (fun i => framed (enc_item i)) items.

Lemma reads_items limits ms items :
  items_ok limits ms items ->
  Forall (fun i => len (enc_item i) <= u64_max /\ len (enc_item i) <= item_limit limits i) items ->
  reads (decode_metadata_loop (length items) ms limits) (enc_items items) (push_items ms items).
Proof.
  revert ms. induction items as [|i items IH]; intros ms O F; [apply reads_ret|].
  inversion F as [|? ? [U B] F']; subst. destruct O as [O1 O2].
  cbn [length decode_metadata_loop enc_items flat_map].
  eapply reads_bind_nil; [apply reads_lift; by rewrite (proj1 O1)|].
  eapply reads_bind; [|by apply IH].
  apply reads_in_record; [done| | |by apply reads_item].
  - destruct i; cbn [item_limit] in B; lia.
  - cbn [Reader.new Reader.remaining]. rewrite item_limit_tag. by apply validate_count_Ok.
Qed.
