(* ===== verification/RunFrames.v ===== *)
(** * Frames of index runs

    The bytes of a frame as a pure function of its header facts and records,
    the packing loop shown to cut the records of a role into consecutive
    frames of that form, and the header shown to be read back.  The length the
    packer computes ahead of time is the length it then writes, so the frames
    it fills never overflow. *)

From Stdlib Require Import Strings.String.
From S2P Require Import Prelude Ord Text Types Etag Checksum Completion Layout RunWire RunTypes RunValidate RunEncode RunSamples RunDecode RunCodec.
Open Scope Z_scope.

(** ** Records of a frame *)

Definition path_of (r : PreparedRecord) : list byte := default [] (listing_path r).

Definition enc_prepared (previous : list byte) (r : PreparedRecord) : list byte :=
  match listing_path r with
  | Some path => enc_path previous path
  | None => []
  end ++ prep_bytes r.

Fixpoint enc_records (previous : list byte) (records : list PreparedRecord) : list byte :=
  match records with
  | [] => []
  | r :: records' => framed (enc_prepared previous r) ++ enc_records (path_of r) records'
  end.

(** Every record fits its limit. *)
Fixpoint records_fit (a : PackArgs) (previous : list byte) (records : list PreparedRecord) : Prop :=
  match records with
  | [] => True
  | r :: records' =>
      len (enc_prepared previous r) <= u64_max
      /\ len (enc_prepared previous r)
         <= record_limit (pa_role a) (u8 <$> hd_error (prep_bytes r)) (pa_limits a)
      /\ records_fit a (path_of r) records'
  end.

Lemma record_limit_nonneg role tag limits : wf_limits limits -> 0 <= record_limit role tag limits.
Proof.
  unfold wf_limits, is_u64, record_limit, STANDALONE_CONTAINER_MAX_BYTES. intros. destruct_and?.
  case_if; lia.
Qed.

Lemma writes_prepared r previous :
  writes (PreparedRecord_encode r previous) (fun _ enc => enc = enc_prepared previous r).
Proof.
  unfold PreparedRecord_encode, enc_prepared, enc_path. destruct (listing_path r) as [path|].
  - destruct (shared_prefix_spec previous path) as ([P1 P2] & P3 & _).
    intros s a s' E. inv_bind. wire_facts.
    repeat (step_writes; cbv beta in *; destruct_and?; subst). eexists.
    split; [rewrite <- ?app_assoc; reflexivity|split; [rewrite <- ?app_assoc in *; tauto|]].
    by rewrite <- !app_assoc.
  - all_writes. done.
Qed.
#[export] Hint Resolve writes_prepared : wire.

Lemma writes_records a previous records :
  wf_limits (pa_limits a) ->
  writes (write_records a previous records)
    (fun _ enc => enc = enc_records previous records /\ records_fit a previous records).
Proof.
  intros L. revert previous. induction records as [|r records IH]; intros previous; cbn [write_records enc_records records_fit].
  { eapply writes_weaken; [apply writes_ret|]. by intros _ e [_ ->]. }
  specialize (IH (path_of r)). intros s u s' E. inv_bind.
  match goal with H : PreparedRecord_encode _ _ _ = Ok _ |- _ =>
    apply writes_prepared in H as (enc & -> & B & ->) end.
  cbn [Writer.new Writer.buffer Writer.maximum app] in *.
  repeat (step_writes; cbv beta in *; destruct_and?; subst). eexists.
  split; [rewrite <- ?app_assoc; reflexivity|split; [rewrite <- ?app_assoc in *; tauto|]].
  cbn [Writer.buffer app]. split_and!; try done. apply B. by apply record_limit_nonneg.
Qed.
#[export] Hint Resolve writes_records : wire.

(** ** Headers *)

Definition enc_self (p : IndexRunSelfPayload) : list byte :=
  match p with
  | SelfNone => [to_u8 0]
  | SelfPackOf pack =>
      [to_u8 1] ++ sp_pack_id pack ++ sp_attempt_id pack ++ framed (sp_content_key_id pack)
      ++ to_be_bytes 8 (sp_stored_len pack) ++ enc_varint (sp_record_count pack)
  end.

Definition enc_header (f : FrameEncodingFacts) : list byte :=
  INDEX_RUN_PLAINTEXT_DOMAIN ++ to_be_bytes 2 INDEX_RUN_WIRE_VERSION
  ++ [to_u8 (frame_role_tag (fe_role f))] ++ enc_varint (fe_role_ordinal f)
  ++ to_be_bytes 8 (fe_sequence f) ++ enc_varint (fe_mutation_count f)
  ++ enc_varint (fe_role_record_count f) ++ enc_varint (fe_frame_record_count f)
  ++ (if bool_decide (fe_role f = Metadata)
      then enc_self (fe_self_payload f) ++ enc_varint (fe_namespace_key_count f) else []).

Definition wf_self (p : IndexRunSelfPayload) : Prop :=
  match p with
  | SelfNone => True
  | SelfPackOf pack => wf_self_pack pack
  end.

Definition wf_facts (f : FrameEncodingFacts) : Prop :=
  is_u32 (fe_role_ordinal f) /\ is_u64 (fe_sequence f) /\ is_u32 (fe_mutation_count f)
  /\ 0 <= fe_role_record_count f /\ 0 <= fe_frame_record_count f /\ wf_self (fe_self_payload f)
  /\ 0 <= fe_namespace_key_count f.

Lemma writes_self p : wf_self p -> writes (encode_self_payload p) (fun _ enc => enc = enc_self p).
Proof.
  destruct p as [|pack]; cbn [wf_self encode_self_payload enc_self]; intros W; [apply writes_u8|].
  unfold wf_self_pack, is_u32 in W. destruct_and?. all_writes. done.
Qed.
#[export] Hint Resolve writes_self : wire.

Lemma writes_header f :
  wf_facts f ->
  writes (encode_frame_header f)
    (fun _ enc => enc = enc_header f /\ fe_role_record_count f <= u64_max
                  /\ fe_frame_record_count f <= u64_max).
Proof.
  intros W. unfold wf_facts, is_u32, is_u64 in W. destruct_and?. unfold encode_frame_header, enc_header.
  destruct (bool_decide (fe_role f = Metadata));
    intros s a s' E; inv_bind; wire_facts;
    repeat (step_writes; cbv beta in *; destruct_and?; subst); eexists;
    (split; [rewrite <- ?app_assoc; reflexivity|split; [rewrite <- ?app_assoc in *; tauto|]]);
    rewrite ?app_nil_r; auto.
Qed.
#[export] Hint Resolve writes_header : wire.

(** [frame_header_len] is the length of the header. *)
Lemma add_Ok a b c : add a b = Ok c <-> c = a + b /\ a + b <= u64_max.
Proof.
  unfold add. rewrite <- checked_add_Some. unfold ok_or.
  destruct (checked_add a b); split; intros; inv_bind; congruence.
Qed.

Lemma len_framed s : len s <= u64_max -> len (framed s) = varint_len (len s) + len s.
Proof.
  intros U. unfold framed. rewrite len_app, len_enc_varint; [done|].
  pose proof (len_nonneg s). unfold is_u64. lia.
Qed.

Lemma frame_header_len_exact f n :
  wf_facts f ->
  frame_header_len (fe_role f) (fe_role_ordinal f) (fe_mutation_count f) (fe_role_record_count f)
    (fe_frame_record_count f) (fe_self_payload f) (fe_namespace_key_count f) = Ok n ->
  n = len (enc_header f).
Proof.
  intros W E. unfold frame_header_len in E. unfold wf_facts, is_u32, is_u64 in W. destruct_and?.
  unfold enc_header. rewrite !len_app, !len_to_be_bytes.
  change (len [to_u8 (frame_role_tag (fe_role f))]) with 1.
  destruct (bool_decide (fe_role f = Metadata)).
  - destruct (fe_self_payload f) as [|pack]; inv_bind; unfold add in *; inv_bind; wire_facts;
      rewrite !len_enc_varint by (unfold is_u64; lia); cbn [enc_self].
    + rewrite len_app, len_enc_varint by (unfold is_u64; lia). change (len [to_u8 0]) with 1. lia.
    + cbn [wf_self] in *. unfold wf_self_pack, wf32, is_u32 in *. destruct_and?.
      rewrite !len_app, len_framed, !len_to_be_bytes, !len_enc_varint by (try unfold is_u64; lia).
      change (len [to_u8 1]) with 1.
      assert (len (sp_pack_id pack) = 32 /\ len (sp_attempt_id pack) = 32) as [-> ->]
        by (unfold len; lia). lia.
  - inv_bind. unfold add in *. inv_bind. wire_facts.
    rewrite !len_enc_varint by (unfold is_u64; lia). rewrite len_nil. lia.
Qed.

(** ** Reading a header *)

Definition self_opt (p : IndexRunSelfPayload) : option IndexRunSelfPack :=
  match p with
  | SelfNone => None
  | SelfPackOf pack => Some pack
  end.

Definition header_of (f : FrameEncodingFacts) : DecodedFrameHeader := {|
  h_role := fe_role f;
  h_role_ordinal := fe_role_ordinal f;
  h_sequence := fe_sequence f;
  h_mutation_count := fe_mutation_count f;
  h_role_record_count := fe_role_record_count f;
  h_frame_record_count := fe_frame_record_count f;
  h_self_pack := if bool_decide (fe_role f = Metadata) then Some (self_opt (fe_self_payload f)) else None;
  h_namespace_key_count := if bool_decide (fe_role f = Metadata) then Some (fe_namespace_key_count f) else None |}.

(** The header facts pass the limits of the decoder. *)
Definition facts_fit (limits : IndexRunLimits) (f : FrameEncodingFacts) : Prop :=
  (exists limit, role_record_limit (fe_role f) limits = Ok limit
     /\ fe_role_record_count f <= limit <= u64_max /\ fe_frame_record_count f <= limit)
  /\ fe_namespace_key_count f <= max_mutations limits
  /\ validate_self_pack (self_opt (fe_self_payload f)) limits = Ok tt.

Lemma reads_self limits p :
  wf_limits limits -> wf_self p -> validate_self_pack (self_opt p) limits = Ok tt ->
  reads (decode_self_pack limits) (enc_self p) (self_opt p).
Proof.
  intros L W Vd. unfold decode_self_pack. destruct p as [|pack]; cbn [enc_self self_opt].
  - rd_end. apply reads_ret.
  - cbn [wf_self] in W. unfold wf_self_pack in W. destruct_and?. rd. cbn [Z.eqb Pos.eqb]. rd. rd.
    assert (short (max_key_id_bytes limits) (sp_content_key_id pack)).
    { cbn [self_opt validate_self_pack] in Vd. inv_bind. wire_facts. unfold wf_limits, is_u64 in L.
      unfold short. lia. }
    eapply reads_bind; [by apply reads_short_string|]. rd. rd_end. destruct pack.
    eapply reads_bind_nil; [apply reads_lift, Vd|apply reads_ret].
Qed.

Lemma reads_role role : reads decode_role [to_u8 (frame_role_tag role)] role.
Proof. unfold decode_role. destruct role; cbn [frame_role_tag]; rd_end; apply reads_ret. Qed.

Lemma reads_header limits f :
  wf_limits limits -> wf_facts f -> facts_fit limits f ->
  reads (decode_frame_header limits) (enc_header f) (header_of f).
Proof.
  intros L (Wo & Ws & Wm & Wr & Wf & Wp & Wn) ((limit & El & Bl & Bf) & Bn & Vs).
  unfold decode_frame_header, enc_header.
  eapply reads_bind; [by apply run_reads_bytes|].
  eapply reads_bind_nil; [apply reads_lift; by rewrite bool_decide_true|].
  eapply reads_bind; [by apply run_reads_u16|].
  eapply reads_bind_nil; [by apply reads_lift|].
  eapply reads_bind; [apply reads_role|]. rd. rd. rd.
  eapply reads_bind_nil; [apply reads_lift, El|].
  eapply reads_bind; [apply reads_bounded_count; [unfold is_u64|]; lia|].
  eapply reads_bind; [apply reads_bounded_count; [unfold is_u64|]; lia|].
  unfold header_of. destruct (bool_decide (fe_role f = Metadata)).
  - eapply (reads_bind_end _ _ _ (Some (self_opt (fe_self_payload f)), Some (fe_namespace_key_count f)));
      [|apply reads_ret].
    eapply reads_bind; [by apply reads_self|].
    eapply (reads_bind_end _ _ _ (fe_namespace_key_count f)); [|apply reads_ret].
    apply reads_bounded_count; [|done]. unfold wf_limits, is_u64 in *. lia.
  - eapply reads_bind_nil; [apply reads_ret|]. apply reads_ret.
Qed.

(** ** Packing *)

Definition facts_at (a : PackArgs) (i n : Z) : FrameEncodingFacts := {|
  fe_role := pa_role a;
  fe_role_ordinal := i;
  fe_sequence := pa_sequence a;
  fe_mutation_count := pa_mutation_count a;
  fe_role_record_count := pa_record_count a;
  fe_frame_record_count := n;
  fe_self_payload := pa_self_payload a;
  fe_namespace_key_count := pa_namespace_key_count a |}.

Definition enc_frame (a : PackArgs) (i : Z) (records : list PreparedRecord) : list byte :=
  enc_header (facts_at a i (len records)) ++ enc_records [] records.

Definition wf_args (a : PackArgs) : Prop :=
  is_u64 (pa_sequence a) /\ is_u32 (pa_mutation_count a) /\ wf_self (pa_self_payload a)
  /\ 0 <= pa_namespace_key_count a /\ 0 <= pa_record_count a /\ wf_limits (pa_limits a).

Lemma wf_facts_at a i n : wf_args a -> is_u32 i -> 0 <= n -> wf_facts (facts_at a i n).
Proof. intros (?&?&?&?&?&?) ? ?. unfold wf_facts. simpl. auto 10. Qed.

(** Frame [f] holds the records [s] as the [i]-th frame of its role. *)
Record frame_of (a : PackArgs) (i : Z) (s : list PreparedRecord) (f : EncodedIndexRunFrame) : Prop := {
  fo_bytes : frame_bytes f = enc_frame a i s;
  fo_len : len (frame_bytes f) <= max_frame_bytes (pa_limits a);
  fo_fit : records_fit a [] s;
  fo_ordinal : is_u32 i;
  fo_count : frame_record_count_ f = len s;
  fo_role : frame_role f = pa_role a;
  fo_role_ordinal : frame_role_ordinal f = i;
  fo_bounds : first_bound f = bound_of (hd_error s) /\ last_bound f = bound_of (hd_error (rev s))
}.

Fixpoint frames_of (a : PackArgs) (i : Z) (ss : list (list PreparedRecord))
    (fs : list EncodedIndexRunFrame) : Prop :=
  match ss, fs with
  | [], [] => True
  | s :: ss', f :: fs' => frame_of a i s f /\ frames_of a (i + 1) ss' fs'
  | _, _ => False
  end.

Lemma write_frame_Ok a i s f :
  wf_args a -> is_u32 i -> write_frame a i s = Ok f -> frame_of a i s f.
Proof.
  intros W U E. unfold write_frame in E. inv_bind. wire_facts.
  match goal with H : written _ _ = Ok ?b |- _ => 
    eapply (written_Ok _ _ b (fun _ enc => enc = enc_frame a i s /\ records_fit a [] s)) in H end.
  - destruct_and?; subst. split; done.
  - destruct W as (_&_&_&_&_&L). unfold wf_limits, is_u64 in L. lia.
  - pose proof W as (_&_&_&_&_&L). pose proof (len_nonneg s).
    pose proof (wf_facts_at a i (len s) W U ltac:(done)) as Wf. fold (facts_at a i (len s)).
    all_writes. split; [done|tauto].
Qed.

Lemma fill_frame_range a i records count payload previous k :
  fill_frame a i records count payload previous = Ok k -> count <= k <= count + len records.
Proof.
  revert count payload previous. induction records as [|r records IH]; intros count payload previous E;
    cbn [fill_frame] in E.
  { inv_bind. rewrite len_nil. lia. }
  rewrite len_cons. pose proof (len_nonneg records). inv_bind. case_if_in E; [inv_bind; lia|].
  apply IH in E. lia.
Qed.

(** The packing loop cuts [rest] into consecutive frames; a frame is empty only
    when there is nothing to pack, so there are no more frames than records. *)
Lemma pack_loop_Ok fuel a frames rest out :
  wf_args a -> (pa_record_count a = 0 -> rest = []) -> pack_loop fuel a frames rest = Ok out ->
  exists ss fs, out = frames ++ fs /\ concat ss = rest /\ frames_of a (len frames) ss fs /\ ss <> []
    /\ len ss <= Z.max 1 (len rest).
Proof.
  intros W. revert frames rest. induction fuel as [|fuel IH]; intros frames rest Nz E; [done|].
  cbn [pack_loop] in E. inv_bind. wire_facts.
  match goal with H : fill_frame _ _ _ _ _ _ = Ok ?k |- _ =>
    rename H into Ef; rename k into count; pose proof (fill_frame_range _ _ _ _ _ _ _ Ef) as R end.
  match goal with H : write_frame _ _ _ = Ok ?f |- _ => rename H into Ew; rename f into fr end.
  apply write_frame_Ok in Ew; [|done|unfold is_u32; pose proof (len_nonneg frames); lia].
  destruct (count =? len rest) eqn:C; b2p.
  - inv_bind. exists [rest], [fr]. rewrite take_ge in Ew by (unfold len; lia).
    simpl. rewrite app_nil_r, len_cons, len_nil. split_and!; try done. lia.
  - assert (0 < count).
    { apply andb_false_iff in Heqb as [H|H]; b2p; [lia|]. specialize (Nz H). subst rest. rewrite len_nil in *. lia. }
    apply IH in E as (ss & fs & -> & Ec & Fs & _ & Ls); cycle 1.
    { intros Hz. by rewrite (Nz Hz), drop_nil. }
    rewrite len_app in Fs.
    exists (take (Z.to_nat count) rest :: ss), (fr :: fs). rewrite <- app_assoc. simpl.
    rewrite Ec, take_drop, len_cons. split_and!; try done.
    unfold len at 2 in Ls. rewrite length_drop in Ls. unfold len in *. lia.
Qed.

(** One more turn than records always suffices: the loop never runs out. *)
Lemma pack_loop_enough fuel fuel' a frames rest :
  (pa_record_count a = 0 -> rest = []) -> (length rest < fuel)%nat -> (length rest < fuel')%nat ->
  pack_loop fuel a frames rest = pack_loop fuel' a frames rest.
Proof.
  revert fuel' frames rest. induction fuel as [|fuel IH]; intros fuel' frames rest Nz L L'; [lia|].
  destruct fuel' as [|fuel']; [lia|]. cbn [pack_loop].
  destruct (to_u32 _) as [i|]; [|done]. cbn [rbind].
  destruct (fill_frame _ _ _ _ _ _) as [count|] eqn:Ef; [|done]. cbn [rbind].
  apply fill_frame_range in Ef. unfold reject_if.
  destruct ((count =? 0) && negb (pa_record_count a =? 0)) eqn:Z; [done|]. cbn [rbind].
  destruct (write_frame _ _ _) as [f|]; [|done]. cbn [rbind].
  destruct (count =? len rest) eqn:C; [done|]. b2p.
  assert (0 < count).
  { apply andb_false_iff in Z as [H|H]; b2p; [lia|]. specialize (Nz H). subst rest. rewrite len_nil in *. lia. }
  unfold len in Ef. apply IH; [intros H'; by rewrite (Nz H'), drop_nil|rewrite length_drop; lia..].
Qed.

(** ** Maximal frames *)

Definition last_path (previous : list byte) (records : list PreparedRecord) : list byte :=
  fold_left (fun _ r => path_of r) records previous.

Lemma enc_records_snoc previous records r :
  enc_records previous (records ++ [r])
  = enc_records previous records ++ framed (enc_prepared (last_path previous records) r).
Proof.
  revert previous. induction records as [|r' records IH]; intros previous; simpl; [by rewrite app_nil_r|].
  by rewrite IH, app_assoc.
Qed.

(** The length computed ahead is the length of the record. *)
Lemma encoded_len_exact r previous n : encoded_len r previous = Ok n -> n = len (enc_prepared previous r).
Proof.
  unfold encoded_len, enc_prepared. intros E. destruct (listing_path r) as [path|]; [|by inv_bind].
  destruct (shared_prefix_spec previous path) as ([P1 P2] & P3 & _). inv_bind. wire_facts.
  unfold enc_path. rewrite !len_app, !len_enc_varint by (unfold is_u64; lia).
  unfold len in *. rewrite length_drop. lia.
Qed.

Definition frame_len (a : PackArgs) (i : Z) (records : list PreparedRecord) : Z := len (enc_frame a i records).

(** One more record on top of [done]: the total that [fill_frame] compares. *)
Lemma candidate_exact a i done r record_len framed_len payload header_len total :
  wf_args a -> is_u32 i -> len (enc_records [] done) = payload ->
  encoded_len r (last_path [] done) = Ok record_len -> record_len <= u64_max ->
  framed_len = varint_len record_len + record_len ->
  frame_header_len (pa_role a) i (pa_mutation_count a) (pa_record_count a) (len done + 1)
    (pa_self_payload a) (pa_namespace_key_count a) = Ok header_len ->
  total = header_len + (payload + framed_len) ->
  total = frame_len a i (done ++ [r]) /\ payload + framed_len = len (enc_records [] (done ++ [r])).
Proof.
  intros W U Ep El B Ef Eh ->. apply encoded_len_exact in El. pose proof (len_nonneg done).
  assert (len (done ++ [r]) = len done + 1) as Ln by (rewrite len_app, len_cons, len_nil; lia).
  apply (frame_header_len_exact (facts_at a i (len done + 1))) in Eh; [|apply wf_facts_at; [done|done|lia]].
  subst. unfold frame_len, enc_frame. rewrite len_app, Ln, enc_records_snoc, len_app, len_framed by lia. lia.
Qed.

Lemma fill_frame_spec a i records done k :
  wf_args a -> is_u32 i ->
  fill_frame a i records (len done) (len (enc_records [] done)) (last_path [] done) = Ok k ->
  len done <= k <= len (done ++ records)
  /\ (len done < k -> frame_len a i (take (Z.to_nat k) (done ++ records)) <= max_frame_bytes (pa_limits a))
  /\ (k < len (done ++ records) ->
      max_frame_bytes (pa_limits a) < frame_len a i (take (Z.to_nat (k + 1)) (done ++ records))).
Proof.
  intros W U. revert done. induction records as [|r records IH]; intros done E; cbn [fill_frame] in E.
  { inv_bind. rewrite app_nil_r. lia. }
  inv_bind. repeat match goal with H : add _ _ = Ok _ |- _ => apply add_Ok in H as [-> ?] end. wire_facts.
  match goal with Hl : encoded_len _ _ = Ok _, Hh : frame_header_len _ _ _ _ _ _ _ = Ok _ |- _ =>
    destruct (candidate_exact _ _ _ _ _ _ _ _ _ W U eq_refl Hl ltac:(lia) eq_refl Hh eq_refl) as [Et Ep] end.
  assert (Z.to_nat (len done + 1) = length (done ++ [r])) as Ln
    by (unfold len; rewrite length_app; simpl; lia).
  replace (done ++ r :: records) with ((done ++ [r]) ++ records) by (by rewrite <- app_assoc).
  assert (len (done ++ [r]) = len done + 1) as Ln' by (unfold len in *; lia).
  rewrite Et, Ep in E. case_if_in E; b2p.
  - inv_bind. rewrite len_app, Ln', Ln, take_app_length. pose proof (len_nonneg records). lia.
  - rewrite <- Ln' in E.
    replace (default [] (listing_path r)) with (last_path [] (done ++ [r])) in E
      by (unfold last_path; by rewrite fold_left_app).
    apply IH in E as (R & Fit & Max). rewrite Ln' in *. split; [lia|]. split; [|done].
    intros _. destruct (decide (k = len done + 1)) as [->|]; [|apply Fit; lia].
    rewrite Ln, take_app_length. lia.
Qed.

(** A frame is filled to the brim: the records chosen for the next frame,
    written with their header, stay within the frame limit, and with the record
    that follows them the frame would exceed it. *)
Theorem fill_frame_maximal a i rest k :
  wf_args a -> is_u32 i -> fill_frame a i rest 0 0 [] = Ok k ->
  0 <= k <= len rest
  /\ (0 < k -> len (enc_frame a i (take (Z.to_nat k) rest)) <= max_frame_bytes (pa_limits a))
  /\ (k < len rest ->
      max_frame_bytes (pa_limits a) < len (enc_frame a i (take (Z.to_nat (k + 1)) rest))).
Proof. intros W U E. by apply (fill_frame_spec a i rest [] k). Qed.

(** The packing loop terminates within its bound: with any fuel above the
    number of records left it gives the same result, so running out of turns
    is never the reason for an error. *)
Theorem pack_loop_terminates a frames rest fuel :
  (pa_record_count a = 0 -> rest = []) -> (length rest < fuel)%nat ->
  pack_loop fuel a frames rest = pack_loop (S (length rest)) a frames rest.
Proof. intros Nz L. apply pack_loop_enough; [done|done|lia]. Qed.

(** Three listing records that share path prefixes, and a frame limit that
    takes two of them. *)
Definition sample_records : list PreparedRecord :=
  map (fun p => {| prep_bytes := List.repeat x07 20;
                   prep_bound := Some (BoundListing (bytes_of_string p) 0) |})
    ["photos/a"; "photos/b"; "photos/c"]%string.

Definition sample_args : PackArgs := {|
  pa_role := Listing; pa_sequence := 9; pa_mutation_count := 3; pa_self_payload := SelfNone;
  pa_namespace_key_count := 1; pa_record_count := 3;
  pa_limits := {| max_total_bytes := 4096; max_frame_bytes := 110; max_record_bytes := 300;
    max_containers := 8; max_mutations := 8; max_path_bytes := 64; max_key_id_bytes := 64;
    max_object_id_bytes := 64; max_version_id_bytes := 64 |} |}.

Lemma fill_frame_maximal_witness :
  fill_frame sample_args 0 sample_records 0 0 [] = Ok 2
  /\ len (enc_frame sample_args 0 (take 2 sample_records)) <= 110
  /\ 110 < len (enc_frame sample_args 0 (take 3 sample_records)).
Proof.
  assert (fill_frame sample_args 0 sample_records 0 0 [] = Ok 2) as E by (vm_compute; reflexivity).
  split; [exact E|]. apply (fill_frame_maximal sample_args 0 sample_records 2) in E as (_ & F & M).
  - split; [by apply F|by apply M].
  - repeat split; vm_compute; discriminate.
  - split; vm_compute; discriminate.
Defined.

Lemma pack_loop_terminates_witness :
  pack_loop 40 sample_args [] sample_records = pack_loop 4 sample_args [] sample_records.
Proof. apply (pack_loop_terminates sample_args [] sample_records 40); [done|simpl; lia]. Defined.
