(* ===== verification/RunLoop.v ===== *)
(** * The decoder's frame loop

    How the loop of [decode_index_run_frames] moves through the frames of one
    role that the encoder packed, and from one role to the next: whatever the
    cuts between the frames, the decoder has consumed the records of the role
    in order. *)

From Stdlib Require Import Strings.String.
From S2P Require Import Prelude Ord Text Types Etag Checksum Completion Layout RunWire RunTypes RunValidate RunEncode RunDecode RunCodec RunFrames.
Open Scope Z_scope.

(** The loop in the middle of a role: [i] frames and [seen] records of it are
    behind. *)
Definition loop_at (a : PackArgs) (i seen : Z) (d : IndexRunFrameDecoder) (mt : option Z) : FrameLoop := {|
  fl_decoder := d;
  fl_metadata_total := mt;
  fl_sequence := Some (pa_sequence a);
  fl_mutation_count := Some (pa_mutation_count a);
  fl_expected_role := pa_role a;
  fl_expected_role_ordinal := i;
  fl_role_total := Some (pa_record_count a);
  fl_role_seen := seen |}.

(** The metadata total after a frame of this role. *)
Definition total_after (a : PackArgs) (mt : option Z) : option Z :=
  if bool_decide (pa_role a = Metadata) then Some (pa_record_count a) else mt.

(** The states from which the first frame of the role [a] is acceptable. *)
Inductive before_role (a : PackArgs) : FrameLoop -> IndexRunFrameDecoder -> option Z -> Prop :=
| before_start : pa_role a = Metadata -> pa_mutation_count a <= max_mutations (pa_limits a) ->
    before_role a FrameLoop_start IndexRunFrameDecoder_default None
| before_next b i d mt :
    frame_role_tag (pa_role a) = frame_role_tag (pa_role b) + 1 ->
    pa_sequence b = pa_sequence a -> pa_mutation_count b = pa_mutation_count a ->
    before_role a (loop_at b i (pa_record_count b) d mt) d mt.

Lemma same_fact_same v : same_fact (Some v) v = Ok tt.
Proof. simpl. by rewrite Z.eqb_refl. Qed.

(** The checks after the role is settled. *)
Lemma accept_fields (a : PackArgs) s i seen n :
  fl_expected_role s = pa_role a -> fl_expected_role_ordinal s = i -> fl_role_seen s = seen ->
  (fl_sequence s = None \/ fl_sequence s = Some (pa_sequence a)) ->
  ((fl_mutation_count s = None /\ pa_mutation_count a <= max_mutations (pa_limits a))
   \/ fl_mutation_count s = Some (pa_mutation_count a)) ->
  (fl_role_total s = None \/ fl_role_total s = Some (pa_record_count a)) ->
  i + 1 <= u32_max -> seen + n <= pa_record_count a <= u64_max ->
  next_role s (header_of (facts_at a i n)) = Ok s ->
  accept_header s (header_of (facts_at a i n)) (pa_limits a)
  = Ok (loop_at a (i + 1) (seen + n) (fl_decoder s) (total_after a (fl_metadata_total s))).
Proof.
  intros Er Ei Es Hs Hm Ht Bi Bn N. unfold accept_header. rewrite N. cbn [rbind].
  assert (is_expected s (header_of (facts_at a i n)) = true) as ->.
  { unfold is_expected. simpl. rewrite Er, Ei, bool_decide_true, Z.eqb_refl; done. }
  cbn [negb reject_if rbind]. rewrite Ei. unfold checked_add_u32. rewrite (proj2 (Z.leb_le _ _)) by done.
  cbn [ok_or rbind header_of facts_at h_sequence h_mutation_count h_role_record_count h_frame_record_count
       h_role fe_role fe_sequence fe_mutation_count fe_role_record_count fe_frame_record_count].
  assert (same_fact (fl_sequence s) (pa_sequence a) = Ok tt) as ->
    by (destruct Hs as [->| ->]; [done|apply same_fact_same]).
  assert (same_fact (fl_mutation_count s) (pa_mutation_count a) = Ok tt) as ->
    by (destruct Hm as [[-> _]| ->]; [done|apply same_fact_same]).
  assert (match fl_mutation_count s with
          | Some _ => Ok tt
          | None => validate_count "mutation count" (pa_mutation_count a) (max_mutations (pa_limits a))
          end = Ok tt) as -> by (destruct Hm as [[-> M]| ->]; [by apply validate_count_Ok|done]).
  assert (same_fact (fl_role_total s) (pa_record_count a) = Ok tt) as ->
    by (destruct Ht as [->| ->]; [done|apply same_fact_same]).
  cbn [rbind]. unfold add. rewrite Es, checked_add_ok by lia. cbn [ok_or rbind].
  unfold reject_if. rewrite Z.gtb_ltb, (proj2 (Z.ltb_ge _ _)) by lia. cbn [rbind].
  unfold loop_at, total_after. by rewrite Er.
Qed.

Lemma accept_same a i seen n d mt :
  i + 1 <= u32_max -> seen + n <= pa_record_count a <= u64_max ->
  accept_header (loop_at a i seen d mt) (header_of (facts_at a i n)) (pa_limits a)
  = Ok (loop_at a (i + 1) (seen + n) d (total_after a mt)).
Proof.
  intros. rewrite (accept_fields a (loop_at a i seen d mt) i seen n); simpl; auto.
  unfold next_role, is_expected. simpl. by rewrite bool_decide_true, Z.eqb_refl.
Qed.

Lemma accept_first a s d mt n :
  before_role a s d mt -> 0 <= n <= pa_record_count a -> pa_record_count a <= u64_max ->
  accept_header s (header_of (facts_at a 0 n)) (pa_limits a)
  = Ok (loop_at a 1 n d (total_after a mt)).
Proof.
  intros B N U. destruct B as [Er M|b i d mt Et Es Em].
  - rewrite (accept_fields a FrameLoop_start 0 0 n); simpl; auto with lia.
    unfold next_role, is_expected. simpl. by rewrite Er.
  - set (h := header_of (facts_at a 0 n)).
    set (s1 := {| fl_decoder := d; fl_metadata_total := mt; fl_sequence := Some (pa_sequence a);
      fl_mutation_count := Some (pa_mutation_count a); fl_expected_role := pa_role a;
      fl_expected_role_ordinal := 0; fl_role_total := None; fl_role_seen := 0 |}).
    assert (next_role (loop_at b i (pa_record_count b) d mt) h = Ok s1) as E1.
    { unfold next_role, is_expected. simpl. rewrite bool_decide_false; cycle 1.
      { intros E. rewrite E in Et. lia. }
      simpl. rewrite Et, !Z.eqb_refl. simpl. by rewrite Es, Em. }
    assert (next_role s1 h = Ok s1) as E2.
    { unfold next_role, is_expected. simpl. by rewrite bool_decide_true. }
    assert (accept_header (loop_at b i (pa_record_count b) d mt) h (pa_limits a)
            = accept_header s1 h (pa_limits a)) as ->.
    { unfold accept_header. by rewrite E1, E2. }
    unfold h in *. rewrite (accept_fields a s1 0 0 n); simpl; auto with lia.
Qed.

(** One frame. *)
Lemma decode_frame_Ok a i s seg f d' s' mt seen :
  wf_args a -> frame_of a i seg f -> facts_fit (pa_limits a) (facts_at a i (len seg)) ->
  accept_header s (header_of (facts_at a i (len seg))) (pa_limits a) = Ok (loop_at a (i + 1) seen s' mt) ->
  reads (decode_role_records s' (header_of (facts_at a i (len seg))) (pa_limits a)) (enc_records [] seg) d' ->
  decode_frame s (frame_bytes f) (pa_limits a) = Ok (loop_at a (i + 1) seen d' mt).
Proof.
  intros W F Ff A P. unfold decode_frame. pose proof (fo_len _ _ _ _ F) as Lf.
  rewrite (proj2 (validate_count_Ok _ _ _ tt) Lf). cbn [rbind]. rewrite (fo_bytes _ _ _ _ F).
  assert (wf_facts (facts_at a i (len seg))) as Wf.
  { apply wf_facts_at; [done|apply F|apply len_nonneg]. }
  destruct (reads_header _ _ (proj2 (proj2 (proj2 (proj2 (proj2 W))))) Wf Ff
              (Reader.new (enc_frame a i seg)) (enc_records [] seg)) as (r & -> & V); [done|].
  cbn [rbind]. rewrite A. cbn [rbind loop_at fl_decoder].
  destruct (P r []) as (r' & -> & V'); [unfold view, cursor_run in *; by rewrite app_nil_r|].
  cbn [rbind]. unfold view, cursor_run in V'. unfold Reader.is_empty. rewrite V'. done.
Qed.

(** The rest of a role: the decoder states [D n] follow the records consumed. *)
Lemma decode_role_rest a (D : nat -> IndexRunFrameDecoder) (records : list PreparedRecord) ss fs i n mt :
  wf_args a -> pa_record_count a = len records -> pa_record_count a <= u64_max ->
  total_after a mt = mt ->
  (forall i (seg : list PreparedRecord), len seg <= len records -> facts_fit (pa_limits a) (facts_at a i (len seg))) ->
  (forall i l1 seg l2, records = l1 ++ seg ++ l2 -> records_fit a [] seg ->
     reads (decode_role_records (D (length l1)) (header_of (facts_at a i (len seg))) (pa_limits a))
       (enc_records [] seg) (D (length (l1 ++ seg)))) ->
  frames_of a i ss fs -> (n <= length records)%nat -> drop n records = concat ss -> 0 <= i ->
  i + len ss <= u32_max ->
  decode_frames_loop (loop_at a i (Z.of_nat n) (D n) mt) (map frame_bytes fs) (pa_limits a)
  = Ok (loop_at a (i + len ss) (len records) (D (length records)) mt).
Proof.
  intros W Ec Uc Et Ff St. revert fs i n. induction ss as [|seg ss IH]; intros fs i n F Ln Ed Pi Li.
  - destruct fs; [|done]. simpl in *. rewrite len_nil, Z.add_0_r.
    assert (n = length records) as ->.
    { apply (f_equal length) in Ed. rewrite length_drop in Ed. simpl in Ed. lia. }
    done.
  - destruct fs as [|f fs]; [done|]. destruct F as [F1 F2]. simpl in Ed.
    cbn [map decode_frames_loop]. rewrite len_cons in Li |- *. pose proof (len_nonneg ss).
    assert (records = take n records ++ seg ++ concat ss) as Er by (rewrite <- Ed; symmetry; apply take_drop).
    assert (length (take n records) = n) as Lt by (rewrite length_take; lia).
    assert (Z.of_nat n + len seg <= len records) as Bn.
    { rewrite Er at 1. rewrite !len_app. unfold len at 2. rewrite Lt. pose proof (len_nonneg (concat ss)). lia. }
    specialize (St i (take n records) seg (concat ss) Er (fo_fit _ _ _ _ F1)) as St1.
    rewrite length_app, Lt in St1.
    rewrite (decode_frame_Ok a i _ seg f (D (n + length seg)%nat) (D n) mt (Z.of_nat n + len seg)); cycle 1.
    { done. } { done. } { apply Ff. lia. }
    { rewrite accept_same, Et; [done|lia|lia]. }
    { done. }
    cbn [rbind]. replace (Z.of_nat n + len seg) with (Z.of_nat (n + length seg)) by (unfold len; lia).
    rewrite (IH fs (i + 1) (n + length seg)%nat); [f_equal; f_equal; lia|done|unfold len in *; lia| |lia|lia].
    rewrite <- drop_drop, Ed. apply drop_app_length.
Qed.

(** A whole role, from its first frame. *)
Lemma decode_role_all a (D : nat -> IndexRunFrameDecoder) (records : list PreparedRecord) ss fs s d0 mt :
  wf_args a -> pa_record_count a = len records -> pa_record_count a <= u64_max ->
  before_role a s d0 mt ->
  (forall i (seg : list PreparedRecord), len seg <= len records -> facts_fit (pa_limits a) (facts_at a i (len seg))) ->
  (forall seg l2, records = seg ++ l2 -> records_fit a [] seg ->
     reads (decode_role_records d0 (header_of (facts_at a 0 (len seg))) (pa_limits a))
       (enc_records [] seg) (D (length seg))) ->
  (forall i l1 seg l2, records = l1 ++ seg ++ l2 -> records_fit a [] seg ->
     reads (decode_role_records (D (length l1)) (header_of (facts_at a i (len seg))) (pa_limits a))
       (enc_records [] seg) (D (length (l1 ++ seg)))) ->
  frames_of a 0 ss fs -> records = concat ss -> ss <> [] -> len ss <= u32_max ->
  decode_frames_loop s (map frame_bytes fs) (pa_limits a)
  = Ok (loop_at a (len ss) (len records) (D (length records)) (total_after a mt)).
Proof.
  intros W Ec Uc B Ff St0 St F Er Ns Ls. destruct ss as [|seg ss]; [done|]. clear Ns.
  destruct fs as [|f fs]; [done|]. destruct F as [F1 F2]. rewrite len_cons in Ls |- *.
  cbn [map decode_frames_loop]. cbn [concat] in Er. pose proof (len_nonneg ss).
  assert (len seg <= len records) as Bn.
  { rewrite Er, len_app. pose proof (len_nonneg (concat ss)). lia. }
  pose proof (len_nonneg seg).
  rewrite (decode_frame_Ok a 0 s seg f (D (length seg)) d0 (total_after a mt) (len seg)); cycle 1.
  { done. } { done. } { by apply Ff. }
  { apply accept_first; [done|lia|lia]. }
  { by apply (St0 seg (concat ss)), F1. }
  cbn [rbind]. replace (len ss + 1) with (1 + len ss) by lia.
  apply (decode_role_rest a D records ss fs 1 (length seg)); try done.
  - unfold total_after. by case_bool_decide.
  - unfold len in Bn. lia.
  - rewrite Er. apply drop_app_length.
  - lia.
Qed.
