(* ===== verification/RunMetadata.v ===== *)
(** * The metadata role of an index run

    The items the encoder writes for the tables of a run, shown acceptable to
    the decoder one after the other: the decoder ends up with the tables of
    the run. *)

From Stdlib Require Import Strings.String Sorted Permutation.
From stdpp Require Import sorting.
From S2P Require Import Prelude Ord Text Types Etag Checksum Completion Layout RunWire RunTypes RunValidate RunEncode RunDecode RunCodec RunFrames.
Open Scope Z_scope.

Definition receipts_of (r : option CompletionReceipt) : list CompletionReceipt :=
  match r with Some r => [r] | None => [] end.

(** The metadata items of a run in the order they are written. *)
Definition meta_items (run : IndexRun) (keys : list text) : list MetaItem :=
  map MContainer (run_containers run) ++ map MStream (run_standalone_stream_containers run)
  ++ map MKey keys ++ map MReceipt (receipts_of (run_completion_receipt run)).

(** What the encoder has checked of an item when it has written it. *)
Definition item_written (limits : IndexRunLimits) (i : MetaItem) : Prop :=
  match i with
  | MContainer c => wf_container c /\ short_container limits c
  | MStream c =>
      wf_stream c
      /\ short_exact limits (st_object_id c) (st_version_id c) (st_keyring_envelope c)
      /\ len (layout_key_id (st_payload_layout c)) <= u64_max
  | MKey k => wf_name k /\ short (max_key_id_bytes limits) k
  | MReceipt r => wf_receipt r /\ CompletionReceipt_validate r = Ok tt
  end.

Lemma try_map_Ok {E A B} (f : A -> result E B) l bs (P : A -> Prop) (g : A -> B) (Q : A -> Prop) :
  try_map f l = Ok bs -> Forall P l -> (forall a b, P a -> f a = Ok b -> b = g a /\ Q a) ->
  bs = map g l /\ Forall Q l.
Proof.
  intros T F S. revert bs T. induction F as [|a l Pa F IH]; simpl; intros bs T; inv_bind; [done|].
  match goal with Ha : f a = Ok _ |- _ => destruct (S _ _ Pa Ha) as [-> Qa] end.
  destruct (IH _ eq_refl) as [-> Ql].
  split; [done|by constructor].
Qed.

(** One table written record by record. *)
Lemma table_Ok {A} limits (f : A -> result IndexRunError (list byte)) (mk : A -> MetaItem) P l bs :
  try_map f l = Ok bs -> Forall P l ->
  (forall a b, P a -> f a = Ok b -> b = enc_item (mk a) /\ item_written limits (mk a)) ->
  bs = map enc_item (map mk l) /\ Forall (item_written limits) (map mk l).
Proof. intros T F S. rewrite map_map, Forall_map. by apply (try_map_Ok f l bs P). Qed.

Lemma encode_metadata_Ok limits run keys records :
  wf_limits limits -> wf_run run -> Forall wf_name keys ->
  encode_metadata_records run keys limits = Ok records ->
  records = map (fun i => PreparedRecord_metadata (enc_item i)) (meta_items run keys)
  /\ Forall (item_written limits) (meta_items run keys).
Proof.
  intros L (Wr & _ & _ & Wc & Ws & _) Wk E. unfold encode_metadata_records in E. inv_bind.
  match goal with
  | H1 : try_map _ _ = Ok ?b1, H2 : try_map _ _ = Ok ?b2, H3 : try_map _ _ = Ok ?b3,
    H4 : try_map _ _ = Ok ?b4 |- context [?b1 ++ ?b2 ++ ?b3 ++ ?b4] =>
      apply (table_Ok limits _ MContainer wf_container) in H1 as [-> F1]; [|done|];
      [apply (table_Ok limits _ MStream wf_stream) in H2 as [-> F2]; [|done|]|];
      [apply (table_Ok limits _ MKey wf_name) in H3 as [-> F3]; [|done|]|..];
      [apply (table_Ok limits _ MReceipt wf_receipt) in H4 as [-> F4]; [| |]|..]
  end.
  - unfold meta_items. rewrite <- !map_app, map_map. split; [done|]. by rewrite !Forall_app.
  - destruct (run_completion_receipt run); [constructor; [by apply Wr|constructor]|constructor].
  - intros r b W Eb. apply receipt_record_Ok in Eb as (-> & _ & V); done.
  - intros k b W Eb. apply key_record_Ok in Eb as (-> & _ & V); done.
  - intros c b W Eb. apply stream_record_Ok in Eb as (-> & _ & V & V' & _); done.
  - intros c b W Eb. apply container_record_Ok in Eb as (-> & _ & V); done.
Qed.

(** ** Accepting the items *)

Lemma items_ok_app limits ms l1 l2 :
  items_ok limits ms (l1 ++ l2) <-> items_ok limits ms l1 /\ items_ok limits (push_items ms l1) l2.
Proof. revert ms. induction l1 as [|i l1 IH]; intros ms; simpl; [tauto|]. rewrite IH. tauto. Qed.

Lemma push_items_app ms l1 l2 : push_items ms (l1 ++ l2) = push_items (push_items ms l1) l2.
Proof. apply fold_left_app. Qed.

Lemma last_of_snoc {A} (l : list A) a : last_of (l ++ [a]) = Some a.
Proof. unfold last_of. by rewrite rev_app_distr. Qed.

(** The state once the first metadata frame has declared its facts. *)
Definition meta_start (self_pack : option IndexRunSelfPack) (declared : Z) : MetadataState := {|
  ms_completion_receipt := None; ms_self_pack := self_pack; ms_saw_self_payload_fact := true;
  ms_containers := []; ms_streams := []; ms_namespace_key_ids := []; ms_declared := Some declared;
  ms_saw_stream := false; ms_saw_namespace_key_id := false |}.

Lemma push_containers ms cs :
  push_items ms (map MContainer cs) =
  {| ms_completion_receipt := ms_completion_receipt ms; ms_self_pack := ms_self_pack ms;
     ms_saw_self_payload_fact := ms_saw_self_payload_fact ms;
     ms_containers := ms_containers ms ++ cs; ms_streams := ms_streams ms;
     ms_namespace_key_ids := ms_namespace_key_ids ms; ms_declared := ms_declared ms;
     ms_saw_stream := ms_saw_stream ms; ms_saw_namespace_key_id := ms_saw_namespace_key_id ms |}.
Proof.
  revert ms. induction cs as [|c cs IH]; intros ms; simpl.
  - rewrite app_nil_r. by destruct ms.
  - rewrite IH. simpl. by rewrite <- app_assoc.
Qed.

Lemma push_streams ms cs :
  push_items ms (map MStream cs) =
  {| ms_completion_receipt := ms_completion_receipt ms; ms_self_pack := ms_self_pack ms;
     ms_saw_self_payload_fact := ms_saw_self_payload_fact ms;
     ms_containers := ms_containers ms; ms_streams := ms_streams ms ++ cs;
     ms_namespace_key_ids := ms_namespace_key_ids ms; ms_declared := ms_declared ms;
     ms_saw_stream := ms_saw_stream ms || negb (len cs =? 0);
     ms_saw_namespace_key_id := ms_saw_namespace_key_id ms |}.
Proof.
  revert ms. induction cs as [|c cs IH]; intros ms; simpl.
  - rewrite app_nil_r, orb_false_r. by destruct ms.
  - rewrite IH. simpl. rewrite <- app_assoc, orb_true_r. done.
Qed.

Lemma push_keys ms ks :
  push_items ms (map MKey ks) =
  {| ms_completion_receipt := ms_completion_receipt ms; ms_self_pack := ms_self_pack ms;
     ms_saw_self_payload_fact := ms_saw_self_payload_fact ms;
     ms_containers := ms_containers ms; ms_streams := ms_streams ms;
     ms_namespace_key_ids := ms_namespace_key_ids ms ++ ks; ms_declared := ms_declared ms;
     ms_saw_stream := ms_saw_stream ms;
     ms_saw_namespace_key_id := ms_saw_namespace_key_id ms || negb (len ks =? 0) |}.
Proof.
  revert ms. induction ks as [|k ks IH]; intros ms; simpl.
  - rewrite app_nil_r, orb_false_r. by destruct ms.
  - rewrite IH. simpl. rewrite <- app_assoc, orb_true_r. done.
Qed.

Lemma next_count_Ok cs ss limits :
  len cs + len ss + 1 <= max_containers limits -> max_containers limits <= u64_max ->
  validate_next_container_count cs ss limits = Ok tt.
Proof.
  intros B U. unfold validate_next_container_count. rewrite checked_add_ok by lia. cbn [ok_or rbind].
  rewrite checked_add_ok by lia. cbn [ok_or rbind]. by apply validate_count_Ok.
Qed.

Lemma containers_ok limits ms cs :
  wf_limits limits -> ms_completion_receipt ms = None -> ms_saw_stream ms = false ->
  ms_saw_namespace_key_id ms = false -> ms_streams ms = [] ->
  len (ms_containers ms) + len cs <= max_containers limits ->
  validate_containers_loop (ct_key <$> last_of (ms_containers ms)) cs limits = Ok tt ->
  Forall (fun c => item_written limits (MContainer c)) cs ->
  items_ok limits ms (map MContainer cs).
Proof.
  intros L Nr Ns Nk Es B V F. revert ms Nr Ns Nk Es B V.
  induction F as [|c cs [Wc Sc] F IH]; intros ms Nr Ns Nk Es B V; [done|].
  cbn [validate_containers_loop] in V. inv_bind. rewrite len_cons in B. pose proof (len_nonneg cs).
  unfold wf_limits, is_u64 in L.
  cbn [map items_ok item_ok push_item]. split.
  - split_and!; try done. apply next_count_Ok; rewrite ?Es, ?len_nil; lia.
  - apply IH; simpl; try done; [rewrite len_app, len_cons, len_nil; lia|by rewrite last_of_snoc].
Qed.

Lemma streams_ok limits ms cs :
  wf_limits limits -> ms_completion_receipt ms = None -> ms_saw_namespace_key_id ms = false ->
  len (ms_containers ms) + len (ms_streams ms) + len cs <= max_containers limits ->
  validate_streams_loop (st_key <$> last_of (ms_streams ms)) cs limits = Ok tt ->
  Forall (fun c => item_written limits (MStream c)) cs ->
  items_ok limits ms (map MStream cs).
Proof.
  intros L Nr Nk B V F. revert ms Nr Nk B V.
  induction F as [|c cs (Wc & Sc & Lc) F IH]; intros ms Nr Nk B V; [done|].
  cbn [validate_streams_loop] in V. inv_bind. rewrite len_cons in B. pose proof (len_nonneg cs).
  unfold wf_limits, is_u64 in L.
  cbn [map items_ok item_ok push_item]. split.
  - split_and!; try done. apply next_count_Ok; lia.
  - apply IH; simpl; try done; [rewrite len_app, len_cons, len_nil; lia|by rewrite last_of_snoc].
Qed.

Lemma keys_ok limits ms declared ks :
  ms_completion_receipt ms = None -> ms_declared ms = Some declared ->
  len (ms_namespace_key_ids ms) + len ks <= declared ->
  StronglySorted (fun a b => cmp a b = Lt) (ms_namespace_key_ids ms ++ ks) ->
  Forall (fun k => item_written limits (MKey k)) ks ->
  items_ok limits ms (map MKey ks).
Proof.
  intros Nr D B S F. revert ms Nr D B S.
  induction F as [|k ks [Wk Sk] F IH]; intros ms Nr D B S; [done|].
  rewrite len_cons in B. pose proof (len_nonneg ks).
  cbn [map items_ok item_ok push_item]. split.
  - split_and!; try done; [exists declared; split; [done|lia]|].
    destruct (ms_namespace_key_ids ms) as [|k' ks' _] using rev_ind; [done|].
    rewrite last_of_snoc. simpl. rewrite <- app_assoc in S. apply StronglySorted_app_1_r in S.
    inversion S as [|? ? _ Fk]; subst. inversion Fk as [|? ? C _]; subst. by rewrite C.
  - apply IH; simpl; try done; [rewrite len_app, len_cons, len_nil; lia|by rewrite <- app_assoc].
Qed.

(** The tables of the run, as the decoder holds them after the metadata role. *)
Definition meta_end (run : IndexRun) (keys : list text) : MetadataState :=
  push_items (meta_start (run_self_pack run) (len keys)) (meta_items run keys).

Lemma meta_items_ok limits run keys :
  wf_limits limits ->
  len (run_containers run) + len (run_standalone_stream_containers run) <= max_containers limits ->
  validate_containers (run_containers run) limits = Ok tt ->
  validate_standalone_stream_containers (run_standalone_stream_containers run) limits = Ok tt ->
  StronglySorted (fun a b => cmp a b = Lt) keys ->
  Forall (item_written limits) (meta_items run keys) ->
  items_ok limits (meta_start (run_self_pack run) (len keys)) (meta_items run keys).
Proof.
  intros L B Vc Vs S F. unfold meta_items in *. rewrite !Forall_app, !Forall_map in F.
  destruct F as (Fc & Fs & Fk & Fr). pose proof (len_nonneg (run_standalone_stream_containers run)).
  rewrite !items_ok_app, push_containers, push_streams, push_keys. simpl. split_and!.
  - apply containers_ok; simpl; try done. rewrite len_nil. lia.
  - apply streams_ok; simpl; try done. rewrite len_nil. lia.
  - eapply keys_ok; simpl; try done.
  - destruct (run_completion_receipt run) as [r|]; [|done]. inversion Fr as [|? ? Wr _]; subst.
    simpl. split; [|done]. split; [done|exact Wr].
Qed.

(** The fields at the end of the role. *)
Lemma meta_end_fields run keys :
  let ms := meta_end run keys in
  ms_completion_receipt ms = run_completion_receipt run /\ ms_self_pack ms = run_self_pack run
  /\ ms_containers ms = run_containers run /\ ms_streams ms = run_standalone_stream_containers run
  /\ ms_namespace_key_ids ms = keys /\ ms_declared ms = Some (len keys).
Proof.
  unfold meta_end, meta_items. rewrite !push_items_app, push_containers, push_streams, push_keys. simpl.
  destruct (run_completion_receipt run); simpl; split_and!; done.
Qed.

(** ** Metadata frames *)

Lemma enc_records_meta items :
  enc_records [] (map (fun i => PreparedRecord_metadata (enc_item i)) items) = enc_items items.
Proof. induction items as [|i items IH]; simpl; [done|]. unfold path_of. simpl. by rewrite IH. Qed.

Lemma records_fit_meta a items :
  pa_role a = Metadata ->
  records_fit a [] (map (fun i => PreparedRecord_metadata (enc_item i)) items) ->
  Forall (fun i => len (enc_item i) <= u64_max /\ len (enc_item i) <= item_limit (pa_limits a) i) items.
Proof.
  intros Er. induction items as [|i items IH]; simpl; [done|]. unfold path_of. simpl.
  rewrite Er, item_limit_tag. intros (U & B & F). constructor; [done|by apply IH].
Qed.

(** Declared facts: the first frame settles them, the others repeat them. *)
Lemma accept_facts_first a i n :
  pa_role a = Metadata -> pa_namespace_key_count a <= pa_record_count a ->
  pa_namespace_key_count a <= pa_mutation_count a ->
  accept_metadata_facts MetadataState_default (header_of (facts_at a i n))
  = Ok (meta_start (self_opt (pa_self_payload a)) (pa_namespace_key_count a)).
Proof.
  intros Er B1 B2. unfold accept_metadata_facts, header_of. simpl. rewrite Er. simpl.
  unfold reject_if. by rewrite !Z.gtb_ltb, !(proj2 (Z.ltb_ge _ _)) by lia.
Qed.

Lemma accept_facts_again a i n ms :
  pa_role a = Metadata -> pa_namespace_key_count a <= pa_record_count a ->
  pa_namespace_key_count a <= pa_mutation_count a ->
  ms_declared ms = Some (pa_namespace_key_count a) -> ms_saw_self_payload_fact ms = true ->
  ms_self_pack ms = self_opt (pa_self_payload a) ->
  accept_metadata_facts ms (header_of (facts_at a i n)) = Ok ms.
Proof.
  intros Er B1 B2 Ed Es Ep. unfold accept_metadata_facts, header_of. simpl. rewrite Er. simpl.
  unfold reject_if. rewrite !Z.gtb_ltb, !(proj2 (Z.ltb_ge _ _)) by lia. simpl.
  rewrite Ed, Z.eqb_refl, Es, Ep. simpl. rewrite bool_decide_true by done. simpl.
  rewrite <- Ep, <- Es, <- Ed. by destruct ms.
Qed.

Lemma push_items_facts ms items :
  ms_declared (push_items ms items) = ms_declared ms
  /\ ms_saw_self_payload_fact (push_items ms items) = ms_saw_self_payload_fact ms
  /\ ms_self_pack (push_items ms items) = ms_self_pack ms.
Proof.
  revert ms. induction items as [|i items IH]; intros ms; simpl; [done|].
  destruct (IH (push_item ms i)) as (-> & -> & ->). by destruct i.
Qed.
