(* ===== verification/RunProjections.v ===== *)
(** * The two projections of the mutations of an index run

    The namespace records and the listing records of a run, each in its own
    order, put back into the slots of the decoder: whatever the cuts between
    the frames, the slot of every ordinal ends up holding its mutation. *)

From Stdlib Require Import Strings.String Sorted Permutation.
From stdpp Require Import sorting.
From S2P Require Import Prelude Ord Text Types Etag Checksum Completion Layout RunWire RunTypes RunValidate RunEncode RunDecode RunCodec RunFrames RunMetadata.
Open Scope Z_scope.

(** ** Slots filled by ordinal *)

Definition slot_of (m : IndexMutation) : nat := Z.to_nat (ordinal m).

Definition fill {B} (g : IndexMutation -> B) (l : list IndexMutation) (slots : list B) : list B :=
  fold_left (fun slots m => <[slot_of m := g m]> slots) l slots.

Lemma length_fill {B} (g : IndexMutation -> B) l slots : length (fill g l slots) = length slots.
Proof. revert slots. induction l as [|m l IH]; intros slots; simpl; [done|]. by rewrite IH, length_insert. Qed.

Lemma fill_other {B} (g : IndexMutation -> B) l slots i :
  i ∉ map slot_of l -> fill g l slots !! i = slots !! i.
Proof.
  revert slots. induction l as [|m l IH]; intros slots N; simpl in *; [done|].
  apply not_elem_of_cons in N as [N1 N2]. rewrite IH by done. by apply list_lookup_insert_ne.
Qed.

Lemma fill_in {B} (g : IndexMutation -> B) l slots m :
  NoDup (map slot_of l) -> m ∈ l -> (slot_of m < length slots)%nat ->
  fill g l slots !! slot_of m = Some (g m).
Proof.
  revert slots. induction l as [|m' l IH]; intros slots D I L; [by apply not_elem_of_nil in I|].
  simpl in D. apply list.NoDup_cons in D as [N D]. simpl. apply elem_of_cons in I as [->|I].
  - rewrite fill_other by done. by apply list_lookup_insert_eq.
  - apply IH; [done|done|by rewrite length_insert].
Qed.

(** ** Namespace records *)

Definition ns_key (m : IndexMutation) : IndexBlindKey * Z := (mutation_blind_key m, ordinal m).
Definition ls_key (m : IndexMutation) : text * Z := (mutation_path m, ordinal m).

(** The ordinal of the mutation's key in the key table. *)
Definition key_ordinal (keys : list text) (m : IndexMutation) : Z :=
  default 0 (binary_search keys (mutation_namespace_key_id m)).

Definition ns_record (keys : list text) (m : IndexMutation) : PreparedRecord := {|
  prep_bytes := enc_namespace (key_ordinal keys m) m;
  prep_bound := Some (BoundNamespace (mutation_blind_key m) (ordinal m)) |}.

Definition ls_record (m : IndexMutation) : PreparedRecord := {|
  prep_bytes := enc_listing m;
  prep_bound := Some (BoundListing (mutation_path m) (ordinal m)) |}.

Definition put_namespace (keys : list text) (ns : NamespaceState) (m : IndexMutation) : NamespaceState := {|
  ns_slots := <[slot_of m := Some (ns_of m)]> (ns_slots ns);
  ns_previous_key := Some (ns_key m);
  ns_used := mark_used (ns_of m) (ns_used ns);
  ns_used_keys := bs_add (key_ordinal keys m) (ns_used_keys ns);
  ns_saw := ns_saw ns |}.

Definition put_namespaces (keys : list text) (l : list IndexMutation) (ns : NamespaceState) : NamespaceState :=
  fold_left (put_namespace keys) l ns.

(** The mutations of [l] can follow, in this order. *)
Definition ns_ready (ns : NamespaceState) (l : list IndexMutation) : Prop :=
  Forall (fun m => not_above (ns_previous_key ns) (ns_key m) = false
                   /\ ns_slots ns !! slot_of m = Some None) l.

Definition in_order {K} `{Ord K} (key : IndexMutation -> K) (l : list IndexMutation) : Prop :=
  StronglySorted (fun x y => cmp (key x) (key y) = Lt) l /\ NoDup (map slot_of l).

Lemma in_order_cons {K} `{Ord K} (key : IndexMutation -> K) m l :
  in_order key (m :: l) ->
  in_order key l /\ Forall (fun m' => cmp (key m) (key m') = Lt /\ slot_of m <> slot_of m') l.
Proof.
  intros [S D]. simpl in D. apply list.NoDup_cons in D as [N D]. inversion S as [|? ? S' F]; subst.
  split; [done|]. rewrite Forall_forall in *. intros m' I. split; [by apply F|].
  intros E. apply N. rewrite E. by apply list_elem_of_In, in_map.
Qed.

Lemma not_above_lt {K} `{OrdLaws K} (k k' : K) : cmp k k' = Lt -> not_above (Some k) k' = false.
Proof. intros C. simpl. by apply leb_gt. Qed.

Lemma ns_ready_put keys ns m l :
  in_order ns_key (m :: l) -> ns_ready ns (m :: l) -> ns_ready (put_namespace keys ns m) l.
Proof.
  intros [_ F]%in_order_cons R. inversion R as [|? ? _ R']; subst. unfold ns_ready in *.
  rewrite Forall_forall in *. intros m' I. destruct (F m' I) as [C N], (R' m' I) as [_ E].
  simpl. split; [by apply not_above_lt|]. by rewrite list_lookup_insert_ne.
Qed.

Lemma ns_ready_puts keys ns l rest :
  in_order ns_key (l ++ rest) -> ns_ready ns (l ++ rest) -> ns_ready (put_namespaces keys l ns) rest.
Proof.
  revert ns. induction l as [|m l IH]; intros ns O R; [done|]. cbn [app] in O, R.
  apply IH; [by apply in_order_cons in O as [O _]|by apply ns_ready_put].
Qed.

Lemma store_namespace_Ok keys ns m :
  not_above (ns_previous_key ns) (ns_key m) = false -> ns_slots ns !! slot_of m = Some None ->
  store_namespace ns (ordinal m) (ns_of m) (key_ordinal keys m) = Ok (put_namespace keys ns m).
Proof.
  intros N E. unfold store_namespace.
  replace (projection_blind_key (ns_of m), ordinal m) with (ns_key m) by (by destruct m).
  rewrite N. simpl. unfold projection_slot. fold (slot_of m). by rewrite E.
Qed.

(** What the decoder's tables must hold for the record to be read. *)
Definition ns_readable (ms : MetadataState) (keys : list text) (m : IndexMutation) : Prop :=
  wf_mutation m /\ is_u32 (key_ordinal keys m)
  /\ ms_namespace_key_ids ms !! Z.to_nat (key_ordinal keys m) = Some (mutation_namespace_key_id m)
  /\ payload_valid ms m.

Lemma reads_namespaces a ms keys ns l :
  pa_role a = Namespace -> Forall (ns_readable ms keys) l -> in_order ns_key l -> ns_ready ns l ->
  records_fit a [] (map (ns_record keys) l) ->
  reads (decode_namespace_loop (length l) ms ns (pa_limits a)) (enc_records [] (map (ns_record keys) l))
    (put_namespaces keys l ns).
Proof.
  intros Er. revert ns. induction l as [|m l IH]; intros ns F O R Ft; [apply reads_ret|].
  inversion F as [|? ? (W & U & G & P) F']; subst.
  pose proof (ns_ready_put keys _ _ _ O R) as R'. inversion R as [|? ? [N E] _]; subst.
  apply in_order_cons in O as [O _].
  cbn [map records_fit] in Ft. destruct Ft as (U1 & B1 & Ft). unfold path_of in Ft. cbn in Ft.
  pose proof (IH _ F' O R' Ft) as IH1.
  cbn [map length decode_namespace_loop enc_records].
  eapply (reads_bind _ _ _ _ (ordinal m, ns_of m, key_ordinal keys m)).
  { apply reads_in_record; [done| |done|].
    - etransitivity; [apply B1|]. unfold record_limit. by rewrite Er.
    - apply reads_reads_whole. by apply reads_namespace_record. }
  eapply reads_bind_nil; [apply reads_lift; by apply store_namespace_Ok|exact IH1].
Qed.

Lemma put_namespaces_slots keys l ns :
  ns_slots (put_namespaces keys l ns) = fill (fun m => Some (ns_of m)) l (ns_slots ns).
Proof. revert ns. induction l as [|m l IH]; intros ns; simpl; [done|apply IH]. Qed.

Lemma put_namespaces_saw keys l ns : ns_saw (put_namespaces keys l ns) = ns_saw ns.
Proof. revert ns. induction l as [|m l IH]; intros ns; simpl; [done|by rewrite IH]. Qed.

Lemma put_namespaces_used keys l ns :
  ns_used (put_namespaces keys l ns) = fold_left (fun used m => mark_used (ns_of m) used) l (ns_used ns)
  /\ ns_used_keys (put_namespaces keys l ns)
     = fold_left (fun used m => bs_add (key_ordinal keys m) used) l (ns_used_keys ns).
Proof. revert ns. induction l as [|m l IH]; intros ns; simpl; [done|apply IH]. Qed.

(** ** Listing records *)

Abbreviation Slots := (list (option NamespaceProjection)).

Definition put_listing (s : Slots * ListingState) (m : IndexMutation) : Slots * ListingState :=
  (<[slot_of m := None]> s.1,
   {| ls_mutations := <[slot_of m := Some m]> (ls_mutations s.2);
      ls_previous_key := Some (ls_key m);
      ls_saw := ls_saw s.2 |}).

Definition put_listings (l : list IndexMutation) (s : Slots * ListingState) : Slots * ListingState :=
  fold_left put_listing l s.

Definition ls_ready (s : Slots * ListingState) (l : list IndexMutation) : Prop :=
  Forall (fun m => not_above (ls_previous_key s.2) (ls_key m) = false
                   /\ ls_mutations s.2 !! slot_of m = Some None
                   /\ s.1 !! slot_of m = Some (Some (ns_of m))) l.

Lemma ls_ready_put s m l :
  in_order ls_key (m :: l) -> ls_ready s (m :: l) -> ls_ready (put_listing s m) l.
Proof.
  intros [_ F]%in_order_cons R. inversion R as [|? ? _ R']; subst. unfold ls_ready in *.
  rewrite Forall_forall in *. intros m' I. destruct (F m' I) as [C N], (R' m' I) as (_ & E & E').
  simpl. split_and!; [by apply not_above_lt|by rewrite list_lookup_insert_ne|by rewrite list_lookup_insert_ne].
Qed.

Lemma ls_ready_puts s l rest :
  in_order ls_key (l ++ rest) -> ls_ready s (l ++ rest) -> ls_ready (put_listings l s) rest.
Proof.
  revert s. induction l as [|m l IH]; intros s O R; [done|]. cbn [app] in O, R.
  apply IH; [by apply in_order_cons in O as [O _]|by apply ls_ready_put].
Qed.

Lemma store_listing_Ok s m :
  not_above (ls_previous_key s.2) (ls_key m) = false ->
  ls_mutations s.2 !! slot_of m = Some None -> s.1 !! slot_of m = Some (Some (ns_of m)) ->
  store_listing s.1 s.2 (ordinal m) (ls_of m) = Ok (put_listing s m).
Proof.
  intros N E E'. unfold store_listing.
  replace (projection_path (ls_of m), ordinal m) with (ls_key m) by (by destruct m).
  rewrite N. simpl. unfold projection_slot. fold (slot_of m). rewrite E, E'. simpl. by rewrite pair_of.
Qed.

Definition ls_readable (limits : IndexRunLimits) (m : IndexMutation) : Prop :=
  wf_mutation m /\ len (mutation_path m) <= u64_max /\ len (mutation_path m) <= max_path_bytes limits.

Lemma reads_listings a previous s l :
  pa_role a = Listing -> Forall (ls_readable (pa_limits a)) l -> in_order ls_key l -> ls_ready s l ->
  records_fit a previous (map ls_record l) ->
  reads (decode_listing_loop (length l) previous s.1 s.2 (pa_limits a))
    (enc_records previous (map ls_record l)) (put_listings l s).
Proof.
  intros Er. revert previous s. induction l as [|m l IH]; intros previous s F O R Ft.
  { destruct s. apply reads_ret. }
  inversion F as [|? ? (W & U & P) F']; subst.
  pose proof (ls_ready_put _ _ _ O R) as R'. inversion R as [|? ? (N & E & E') _]; subst.
  apply in_order_cons in O as [O _].
  cbn [map records_fit] in Ft. destruct Ft as (U1 & B1 & Ft).
  change (path_of (ls_record m)) with (mutation_path m) in Ft.
  pose proof (IH _ _ F' O R' Ft) as IH1.
  cbn [map length decode_listing_loop enc_records].
  change (path_of (ls_record m)) with (mutation_path m).
  eapply (reads_bind _ _ _ _ (ordinal m, ls_of m)).
  { apply reads_in_record; [done| |done|].
    - etransitivity; [apply B1|]. unfold record_limit. by rewrite Er.
    - apply reads_reads_whole. by apply reads_listing_record. }
  eapply reads_bind_nil; [apply reads_lift; by apply store_listing_Ok|].
  replace (projection_path (ls_of m)) with (mutation_path m) by (by destruct m). exact IH1.
Qed.

Lemma put_listings_mutations l s :
  ls_mutations (put_listings l s).2 = fill Some l (ls_mutations s.2).
Proof. revert s. induction l as [|m l IH]; intros s; simpl; [done|apply IH]. Qed.

Lemma put_listings_saw l s : ls_saw (put_listings l s).2 = ls_saw s.2.
Proof. revert s. induction l as [|m l IH]; intros s; simpl; [done|by rewrite IH]. Qed.

(** *** Segments of an order *)

Lemma in_order_app_r {K} `{Ord K} (key : IndexMutation -> K) l1 l2 :
  in_order key (l1 ++ l2) -> in_order key l2.
Proof.
  intros [S N]. split; [by apply StronglySorted_app_1_r in S|]. rewrite map_app in N.
  by apply list.NoDup_app in N as (_ & _ & N).
Qed.

Lemma in_order_app_l {K} `{Ord K} (key : IndexMutation -> K) l1 l2 :
  in_order key (l1 ++ l2) -> in_order key l1.
Proof.
  intros [S N]. split; [by apply StronglySorted_app_1_l in S|]. rewrite map_app in N.
  by apply list.NoDup_app in N as (N & _).
Qed.
