(* ===== verification/RunRules.v ===== *)
(** * What a validated index run satisfies

    The checks of the encoder and the decoder stated as facts about the run:
    ordinals number the mutations, every payload pointer lands inside the
    tables, and every container is used. *)

From Stdlib Require Import Strings.String Sorted Permutation.
From stdpp Require Import sorting.
From S2P Require Import Prelude Ord Text Types Etag Checksum Completion Layout RunWire RunTypes RunValidate RunEncode RunDecode RunCodec RunProjections.
Open Scope Z_scope.

(** ** Use of the tables *)

Lemma validate_use_Ok unused n index used u :
  validate_use unused n index used = Ok u <->
  forall i, index <= i < index + Z.of_nat n -> i <= u32_max /\ bs_mem i used = true.
Proof.
  destruct u. revert index. induction n as [|n IH]; intros index; cbn [validate_use].
  { split; [intros _ i ?; lia|done]. }
  split.
  - intros E i B. inv_bind. wire_facts. destruct (negb _) eqn:M; [done|]. b2p.
    destruct (decide (i = index)) as [->|]; [done|]. by apply (proj1 (IH _) E); lia.
  - intros F. destruct (F index ltac:(lia)) as [U M].
    rewrite (proj2 (to_u32_Ok _ _) (conj eq_refl U)). cbn [rbind]. rewrite M. cbn [negb].
    apply IH. intros i B. apply F. lia.
Qed.

Definition payload_of (m : IndexMutation) : IndexPayloadPointer :=
  match m with Upsert u => up_payload u | Tombstone _ => Empty end.

(** The use that [l] makes of the tables, on top of [used]. *)
Definition use_all (l : list IndexMutation) (used : Used) : Used :=
  fold_left (fun used m => mark_used (ns_of m) used) l used.

Lemma use_all_containers l used c :
  bs_mem c (used_containers (use_all l used)) = true <->
  bs_mem c (used_containers used) = true \/ Exists (fun m => exists r, payload_of m = ExternalPack c r) l.
Proof.
  revert used. induction l as [|m l IH]; intros used; cbn [use_all fold_left].
  { by rewrite Exists_nil; tauto. }
  fold (use_all l (mark_used (ns_of m) used)). rewrite IH, Exists_cons. clear IH.
  destruct m as [u|t]; simpl; [destruct (up_payload u); simpl; rewrite ?bs_mem_add|]; naive_solver.
Qed.

Lemma use_all_streams l used c :
  bs_mem c (used_streams (use_all l used)) = true <->
  bs_mem c (used_streams used) = true \/ Exists (fun m => payload_of m = ExternalStandaloneStream c) l.
Proof.
  revert used. induction l as [|m l IH]; intros used; cbn [use_all fold_left].
  { by rewrite Exists_nil; tauto. }
  fold (use_all l (mark_used (ns_of m) used)). rewrite IH, Exists_cons. clear IH.
  destruct m as [u|t]; simpl; [destruct (up_payload u); simpl; rewrite ?bs_mem_add|]; naive_solver.
Qed.

Lemma use_all_self l used :
  uses_self (use_all l used) = true <->
  uses_self used = true \/ Exists (fun m => exists r, payload_of m = SelfPack r) l.
Proof.
  revert used. induction l as [|m l IH]; intros used; cbn [use_all fold_left].
  { by rewrite Exists_nil; tauto. }
  fold (use_all l (mark_used (ns_of m) used)). rewrite IH, Exists_cons. clear IH.
  destruct m as [u|t]; simpl; [destruct (up_payload u); simpl; rewrite ?bs_mem_add|]; naive_solver.
Qed.

Lemma bool_iff (b b' : bool) : (b = true <-> b' = true) -> b = b'.
Proof. destruct b, b'; intuition congruence. Qed.

(** The use does not depend on the order of the mutations. *)
Lemma use_all_perm l l' :
  Permutation l l' ->
  uses_self (use_all l no_use) = uses_self (use_all l' no_use)
  /\ (forall c, bs_mem c (used_containers (use_all l no_use)) = bs_mem c (used_containers (use_all l' no_use)))
  /\ (forall c, bs_mem c (used_streams (use_all l no_use)) = bs_mem c (used_streams (use_all l' no_use))).
Proof.
  intros P. split_and!; [|intros c|intros c]; apply bool_iff;
    rewrite ?use_all_self, ?use_all_containers, ?use_all_streams; by rewrite P.
Qed.

Lemma validate_use_ext unused n index used used' :
  (forall i, bs_mem i used = bs_mem i used') ->
  validate_use unused n index used = validate_use unused n index used'.
Proof.
  intros H. revert index. induction n as [|n IH]; intros index; simpl; [done|].
  destruct (to_u32 index); simpl; [|done]. by rewrite H, IH.
Qed.

Lemma ordered_mutations_Ok index l :
  index + len l <= u32_max + 1 -> ordered_mutations index (map Some l) = Ok l.
Proof.
  revert index. induction l as [|m l IH]; intros index B; simpl; [done|].
  rewrite len_cons in B. pose proof (len_nonneg l).
  rewrite (proj2 (to_u32_Ok index index)) by (split; [done|lia]). simpl. by rewrite IH by lia.
Qed.

(** ** The mutations *)

(** What the loop of [validate_mutations] checks of one mutation. *)
Definition mutation_valid (run : IndexRun) (limits : IndexRunLimits) (m : IndexMutation) : Prop :=
  len (mutation_namespace_key_id m) <= max_key_id_bytes limits
  /\ len (mutation_path m) <= max_path_bytes limits
  /\ match m with
     | Upsert u =>
         payload_in (run_containers run) (run_self_pack run) (run_standalone_stream_containers run)
           (up_payload u)
         /\ validate_empty_payload (up_payload u) (up_content_len u) = Ok tt
         /\ validate_payload_pointer (up_payload u) (up_content_len u) (run_self_pack run)
              (run_containers run) (run_standalone_stream_containers run) = Ok tt
         /\ composite_mismatch u = false
     | Tombstone _ => True
     end.

Lemma validate_use_of_Ok run p used used' m :
  payload_of m = p -> validate_use_of run p used = Ok used' ->
  used' = mark_used (ns_of m) used
  /\ payload_in (run_containers run) (run_self_pack run) (run_standalone_stream_containers run) p.
Proof.
  intros Ep E. destruct m as [u|t]; simpl in Ep; [|subst p; cbn in E; inv_bind; done].
  destruct p; cbn [validate_use_of] in E; cbn [ns_of mark_used payload_in]; rewrite Ep; inv_bind;
    unfold validate_container_ordinal, table_get in *; inv_bind;
    rewrite ?Z.geb_leb in *; b2p; split; eauto.
Qed.

Lemma validate_mutation_Ok run limits m used used' :
  validate_mutation run limits m used = Ok used' ->
  mutation_valid run limits m /\ used' = mark_used (ns_of m) used.
Proof.
  intros E. destruct m as [u|t]; cbn [validate_mutation] in E; inv_bind; wire_facts; [|done].
  apply (validate_use_of_Ok _ _ _ _ (Upsert u) eq_refl) in E as [-> P]. done.
Qed.

Lemma validate_mutations_loop_Ok run limits index l used used' :
  validate_mutations_loop run limits index l used = Ok used' ->
  map ordinal l = seqZ index (len l) /\ (l <> [] -> index + len l <= u32_max + 1)
  /\ Forall (mutation_valid run limits) l /\ used' = use_all l used.
Proof.
  revert index used. induction l as [|m l IH]; intros index used E; cbn [validate_mutations_loop] in E.
  { inv_bind. done. }
  inv_bind. wire_facts. b2p.
  match goal with H : validate_mutation _ _ _ _ = Ok _ |- _ => apply validate_mutation_Ok in H as [Vm ->] end.
  apply IH in E as (Eo & B & F & ->). pose proof (len_nonneg l). rewrite len_cons.
  split_and!; [| |by constructor|done].
  - rewrite seqZ_cons by lia. simpl. rewrite Eo. f_equal; [lia|f_equal; lia].
  - intros _. destruct l as [|m' l]; [rewrite len_nil; lia|]. specialize (B ltac:(done)). lia.
Qed.

(** ** Distinct objects *)

Lemma distinct_loop_Ok exact keys u :
  distinct_loop exact keys = Ok u <-> NoDup keys /\ Forall (fun k => bs_mem k exact = false) keys.
Proof.
  destruct u. revert exact. induction keys as [|k keys IH]; intros exact; cbn [distinct_loop].
  { split; [by repeat constructor|done]. }
  rewrite bs_insert_eq, fresh_cons. destruct (bs_mem k exact); cbn [negb]; [naive_solver|].
  rewrite IH. naive_solver.
Qed.

Lemma distinct_containers_iff pack streams :
  validate_distinct_container_objects pack streams = Ok tt <->
  NoDup (map ct_key pack ++ map st_key streams).
Proof.
  unfold validate_distinct_container_objects. rewrite distinct_loop_Ok. split; [tauto|]. intros N.
  split; [done|]. rewrite Forall_forall. done.
Qed.

(** The check for distinct containers accepts the tables of a run exactly
    when no two containers, packs and standalone streams together, name the
    same version of the same object. *)
Theorem distinct_containers_exact pack streams :
  validate_distinct_container_objects pack streams = Ok tt <->
  NoDup (map ct_key pack ++ map st_key streams).
Proof. apply distinct_containers_iff. Qed.

(** ** Completion receipts *)

Definition tombstones_of (l : list IndexMutation) : list IndexTombstone :=
  omap (fun m => match m with Tombstone t => Some t | Upsert _ => None end) l.

Lemma receipt_tombstones_Ok upsert namespaces blind_keys l u :
  receipt_tombstones_loop upsert namespaces blind_keys l = Ok u <->
  Forall (fun t => tb_path t = up_path upsert /\ tb_generation t = up_generation upsert) (tombstones_of l)
  /\ (NoDup (map tb_namespace_key_id (tombstones_of l))
      /\ Forall (fun k => bs_mem k namespaces = false) (map tb_namespace_key_id (tombstones_of l)))
  /\ (NoDup (map tb_blind_key (tombstones_of l))
      /\ Forall (fun k => bs_mem k blind_keys = false) (map tb_blind_key (tombstones_of l))).
Proof.
  destruct u. revert namespaces blind_keys. induction l as [|[v|t] l IH]; intros ns bk.
  - split; [|done]. intros _. by repeat constructor.
  - apply IH.
  - cbn [receipt_tombstones_loop]. unfold tombstones_of in *. cbn [omap list_omap map]. rewrite !bs_insert_eq, !fresh_cons, Forall_cons_iff.
    cbv beta iota. rewrite !negb_involutive.
    destruct (bool_decide _) eqn:Bp, (tb_generation t =? up_generation upsert) eqn:Bg,
      (bs_mem (tb_namespace_key_id t) ns) eqn:Mn, (bs_mem (tb_blind_key t) bk) eqn:Mb; cbn [negb orb]; b2p;
      try (split; [done|intros; destruct_and?; congruence]).
    rewrite IH. tauto.
Qed.

Lemma fresh_from_one {K} `{OrdLaws K} (k : K) ks :
  NoDup ks /\ Forall (fun k' => bs_mem k' (bs_collect [k]) = false) ks <-> NoDup (k :: ks).
Proof.
  pose proof (fresh_cons k ks []) as E. change (bs_collect [k]) with (bs_add k []).
  split; [intros [D F]; by apply E|]. intros N. apply E. split; [done|]. by apply Forall_forall.
Qed.

(** A completion receipt is accepted exactly when it is valid in itself and
    bound to its run: the run has a single upsert, which agrees with the
    receipt on key, length, ETag and checksum, and all its other mutations are
    tombstones of the same path and generation under pairwise different
    namespace keys and blind keys. *)
Theorem receipt_scope_exact run :
  validate_completion_receipt run = Ok tt <->
  forall receipt, run_completion_receipt run = Some receipt ->
    CompletionReceipt_validate receipt = Ok tt
    /\ exists u, upserts_of (run_mutations run) = [u]
      /\ up_path u = key receipt /\ up_content_len u = receipt_content_len receipt
      /\ up_etag u = receipt_etag receipt /\ up_checksum u = receipt_checksum receipt
      /\ Forall (fun t => tb_path t = up_path u /\ tb_generation t = up_generation u)
           (tombstones_of (run_mutations run))
      /\ NoDup (up_namespace_key_id u :: map tb_namespace_key_id (tombstones_of (run_mutations run)))
      /\ NoDup (up_blind_key u :: map tb_blind_key (tombstones_of (run_mutations run))).
Proof.
  unfold validate_completion_receipt. destruct (run_completion_receipt run) as [receipt|]; [|by split].
  split.
  - intros E ? [= <-]. inv_bind. destruct (upserts_of _) as [|u rest]; [done|]. inv_bind. b2p.
    apply receipt_tombstones_Ok in E as (F & Nk & Nb). rewrite !fresh_from_one in *.
    destruct rest as [|u' rest]; [|rewrite len_cons in *; pose proof (len_nonneg rest); lia].
    split; [done|]. exists u. by split_and!.
  - intros H. destruct (H receipt eq_refl) as (V & u & -> & Ep & El & Ee & Ec & F & Nk & Nb).
    rewrite V. cbn [map_err rbind]. rewrite len_nil, El, !Z.eqb_refl, !bool_decide_true by done.
    cbn [negb orb reject_if rbind].
    apply receipt_tombstones_Ok. rewrite !fresh_from_one. done.
Qed.

(** ** All checks on the mutations *)

Lemma validate_use_of_total run p used :
  payload_in (run_containers run) (run_self_pack run) (run_standalone_stream_containers run) p ->
  exists used', validate_use_of run p used = Ok used'.
Proof.
  destruct p; cbn [payload_in validate_use_of]; unfold validate_container_ordinal, table_get, reject_if.
  - eauto.
  - intros (pack & -> & B). cbn [ok_or rbind]. rewrite Z.geb_leb, (proj2 (Z.leb_gt _ _)) by lia. eauto.
  - intros (B & c & G & B'). rewrite Z.geb_leb, (proj2 (Z.leb_gt (len _) _)) by lia. rewrite G. cbn [ok_or rbind].
    rewrite Z.geb_leb, (proj2 (Z.leb_gt _ _)) by lia. eauto.
  - intros B. rewrite Z.geb_leb, (proj2 (Z.leb_gt _ _)) by lia. eauto.
Qed.

Lemma validate_mutation_iff run limits m used used' :
  validate_mutation run limits m used = Ok used' <->
  mutation_valid run limits m /\ used' = mark_used (ns_of m) used.
Proof.
  split; [apply validate_mutation_Ok|]. intros [V ->].
  assert (exists used', validate_mutation run limits m used = Ok used') as [used' E].
  { destruct m as [u|t]; cbn [validate_mutation]; destruct V as (B1 & B2 & V);
      rewrite (proj2 (validate_count_Ok _ _ _ tt) B1); cbn [rbind];
      rewrite (proj2 (validate_count_Ok _ _ _ tt) B2); cbn [rbind]; [|eauto].
    destruct V as (Pi & Pe & Pp & Pc). rewrite Pe, Pc. cbn [reject_if rbind]. rewrite Pp. cbn [rbind].
    by apply validate_use_of_total. }
  rewrite E. by apply validate_mutation_Ok in E as [_ ->].
Qed.

Lemma validate_mutations_loop_iff run limits index l used used' :
  validate_mutations_loop run limits index l used = Ok used' <->
  map ordinal l = seqZ index (len l) /\ (l <> [] -> index + len l <= u32_max + 1)
  /\ Forall (mutation_valid run limits) l /\ used' = use_all l used.
Proof.
  split; [apply validate_mutations_loop_Ok|]. revert index used.
  induction l as [|m l IH]; intros index used (Eo & B & F & ->); [done|].
  cbn [validate_mutations_loop]. rewrite len_cons in *. pose proof (len_nonneg l). specialize (B ltac:(done)).
  rewrite seqZ_cons in Eo by lia. cbn [map] in Eo. injection Eo as Em Eo.
  rewrite (proj2 (to_u32_Ok index index)) by (split; [done|lia]). cbn [rbind].
  rewrite Em, Z.eqb_refl. cbn [negb reject_if rbind]. inversion F as [|? ? Vm F']; subst.
  rewrite (proj2 (validate_mutation_iff run limits m used _) (conj Vm eq_refl)). cbn [rbind].
  apply IH. split_and!; [|intros _; lia|done|done]. rewrite Eo. f_equal; lia.
Qed.
