(* ===== verification/RunRecords.v ===== *)
(** * Records of payload packs shared by the mutations of a run

    [validate_repeated_record_facts]: mutations that name the same record of a
    pack agree on it, and different records of one pack do not overlap. *)

From Stdlib Require Import Strings.String Sorted Permutation.
From stdpp Require Import sorting.
From S2P Require Import Prelude Ord Text Types Etag Checksum Completion Layout RunWire RunTypes RunValidate RunSamples.
Open Scope Z_scope.

(** The pack, record and content length a mutation names; pack 0 is the
    commit's own pack, pack [c + 1] that of container [c]. *)
Definition pack_record (m : IndexMutation) : option (Z * IndexPackRecordPointer * Z) :=
  match m with
  | Upsert u =>
      match up_payload u with
      | SelfPack r => Some (0, r, up_content_len u)
      | ExternalPack c r => Some (c + 1, r, up_content_len u)
      | Empty | ExternalStandaloneStream _ => None
      end
  | Tombstone _ => None
  end.

(** The sealed length of a record, and the end of its span in the pack. *)
Definition sealed_len (n : Z) : Z :=
  n + div_ceil n INDEX_PACK_SEGMENT_BYTES * INDEX_PACK_SEGMENT_TAG_BYTES.
Definition span_end (r : IndexPackRecordPointer) (n : Z) : Z := physical_offset r + sealed_len n.

(** No intermediate value of the checks leaves its width. *)
Definition record_fits (s : Z) (r : IndexPackRecordPointer) (n : Z) : Prop :=
  s <= u32_max /\ sealed_len n <= u64_max /\ span_end r n <= u64_max.

(** The same record is described in one way; different records are apart. *)
Definition compatible (r r' : IndexPackRecordPointer) (n n' : Z) : Prop :=
  if decide (record_ordinal r = record_ordinal r') then r = r' /\ n = n'
  else span_end r n <= physical_offset r' \/ span_end r' n' <= physical_offset r.

(** ** Spans *)

Definition sp_source (x : Span) : Z := x.1.1.1.
Definition sp_start (x : Span) : Z := x.1.1.2.
Definition sp_end (x : Span) : Z := x.1.2.
Definition sp_ordinal (x : Span) : Z := x.2.
Definition sp_key (x : Span) : Z * Z := (sp_source x, sp_ordinal x).

Lemma span_order (x y : Span) :
  leb x y = true -> sp_source x < sp_source y \/ sp_source x = sp_source y /\ sp_start x <= sp_start y.
Proof.
  destruct x as [[[s a] b] o], y as [[[s' a'] b'] o'].
  unfold leb, cmp, ord_prod, cmp, ord_Z, sp_source, sp_start, then_cmp. simpl.
  destruct (Z.compare_spec s s'); [|lia|done]. destruct (Z.compare_spec a a'); [lia|lia|done].
Qed.

Definition apart (x y : Span) : Prop := sp_source x = sp_source y -> sp_end x <= sp_start y.

Lemma windows_cons x y l :
  windows_disjoint (x :: y :: l) =
  if (sp_source x =? sp_source y) && negb (sp_ordinal x =? sp_ordinal y) && (sp_start y <? sp_end x)
  then Err PackRecordFactsMismatch else windows_disjoint (y :: l).
Proof. by destruct x as [[[? ?] ?] ?], y as [[[? ?] ?] ?]. Qed.

(** On sorted spans of distinct records, adjacent spans are apart exactly when
    all spans are. *)
Lemma windows_apart l u :
  StronglySorted (fun x y => leb x y = true) l -> NoDup (map sp_key l) ->
  windows_disjoint l = Ok u <-> ForallOrdPairs apart l.
Proof.
  destruct u. induction l as [|x l IH]; intros S N; [split; [constructor|done]|].
  inversion S as [|? ? S' F]; subst. simpl in N. apply list.NoDup_cons in N as [Nx N].
  destruct l as [|y l]; [split; [constructor; constructor|by destruct x as [[[? ?] ?] ?]]|].
  rewrite windows_cons. specialize (IH S' N).
  assert (sp_source x = sp_source y -> sp_ordinal x <> sp_ordinal y) as D.
  { intros Es Eo. apply Nx. simpl. apply elem_of_cons. left. unfold sp_key. congruence. }
  split.
  - intros E. destruct (_ && _) eqn:C; [done|]. constructor; [|by apply IH].
    assert (apart x y) as Axy.
    { intros Es. rewrite Es, Z.eqb_refl, (proj2 (Z.eqb_neq _ _)) in C by auto. simpl in C. b2p. lia. }
    constructor; [done|]. inversion S' as [|? ? _ Fy]; subst. rewrite Forall_forall in *.
    intros z I Es. specialize (Fy z I). apply span_order in Fy.
    specialize (F y ltac:(by left)). apply span_order in F. unfold apart in Axy. lia.
  - intros A. inversion A as [|? ? Fx A']; subst. inversion Fx as [|? ? Axy _]; subst.
    rewrite (proj2 IH A'). destruct (_ && _) eqn:C; [|done]. b2p. specialize (Axy ltac:(done)). lia.
Qed.

(** ** The loop over the mutations *)

Abbreviation Rec := (Z * IndexPackRecordPointer * Z)%type.

Definition records_of (l : list IndexMutation) : list Rec := omap pack_record l.

(** One turn of the loop, on a mutation that names a record. *)
Definition fact_step (s : Z) (r : IndexPackRecordPointer) (n : Z) (facts : Facts) (spans : list Span) :
    result IndexRunError (Facts * list Span) :=
  if s <=? u32_max then
    match bt_get (s, record_ordinal r) facts with
    | Some previous =>
        if bool_decide (previous = (r, n)) then Ok (facts, spans) else Err PackRecordFactsMismatch
    | None =>
        stored_len <-? derived_record_stored_len n ;;
        end_ <-? ok_or (checked_add (physical_offset r) stored_len) InvalidPackRecordRange ;;
        Ok (bt_insert (s, record_ordinal r) (r, n) facts,
            spans ++ [(s, physical_offset r, end_, record_ordinal r)])
    end
  else Err IntegerOverflow.

Lemma facts_loop_step facts spans m l :
  record_facts_loop facts spans (m :: l) =
  match pack_record m with
  | None => record_facts_loop facts spans l
  | Some (s, r, n) => x <-? fact_step s r n facts spans ;; record_facts_loop x.1 x.2 l
  end.
Proof.
  destruct m as [u|t]; [|done]. cbn [record_facts_loop pack_record].
  destruct (up_payload u) as [|r|c r|c]; cbn [record_source rbind]; try done.
  - unfold fact_step. change (0 <=? u32_max) with true. cbn iota.
    destruct (bt_get _ _) as [v|]; [by case_bool_decide|].
    destruct (derived_record_stored_len _); [|done]. cbn [rbind].
    by destruct (ok_or (checked_add _ _) _).
  - unfold fact_step, checked_add_u32. destruct (c + 1 <=? u32_max); [|done]. cbn [ok_or rbind].
    destruct (bt_get _ _) as [v|]; [by case_bool_decide|].
    destruct (derived_record_stored_len _); [|done]. cbn [rbind].
    by destruct (ok_or (checked_add _ _) _).
Qed.

(** The facts and spans collected from the records [D]. *)
Record collected (D : list Rec) (facts : Facts) (spans : list Span) : Prop := {
  co_fits : Forall (fun x => record_fits x.1.1 x.1.2 x.2) D;
  co_facts : forall s o r n, bt_get (s, o) facts = Some (r, n) <-> o = record_ordinal r /\ In (s, r, n) D;
  co_spans : forall x, In x spans <->
    exists r n, bt_get (sp_key x) facts = Some (r, n)
      /\ x = (sp_source x, physical_offset r, span_end r n, sp_ordinal x);
  co_once : NoDup (map sp_key spans)
}.

Lemma collected_nil : collected [] [] [].
Proof. split; [done| | |constructor]; simpl; [naive_solver|]. intros x. split; [done|naive_solver]. Qed.

Lemma derived_len_Ok n v :
  derived_record_stored_len n = Ok v <->
  v = sealed_len n /\ sealed_len n <= u64_max
  /\ div_ceil n INDEX_PACK_SEGMENT_BYTES * INDEX_PACK_SEGMENT_TAG_BYTES <= u64_max.
Proof.
  unfold derived_record_stored_len, sealed_len. split.
  - intros E. inv_bind. wire_facts. lia.
  - intros (-> & B & B'). rewrite (proj2 (checked_mul_Some _ _ _) (conj eq_refl B')). cbn [ok_or rbind].
    by rewrite checked_add_ok.
Qed.

Lemma collected_again D facts spans s r n :
  collected D facts spans -> In (s, r, n) D -> collected (D ++ [(s, r, n)]) facts spans.
Proof.
  intros [F H S O] I. split; [|intros s' o r' n'; rewrite H, in_app_iff; simpl|done|done].
  - apply Forall_app. split; [done|]. constructor; [|done]. rewrite Forall_forall in F. by apply F.
  - split; [tauto|]. intros [-> [I'|[[= <- <- <-]|[]]]]; done.
Qed.

Lemma collected_new D facts spans s r n :
  collected D facts spans -> record_fits s r n -> bt_get (s, record_ordinal r) facts = None ->
  collected (D ++ [(s, r, n)]) (bt_insert (s, record_ordinal r) (r, n) facts)
    (spans ++ [(s, physical_offset r, span_end r n, record_ordinal r)]).
Proof.
  intros [F H S O] Ft N. split.
  - apply Forall_app. split; [done|]. by constructor.
  - intros s' o r' n'. rewrite in_app_iff. simpl. destruct (decide ((s', o) = (s, record_ordinal r))) as [[= -> ->]|D'].
    + rewrite bt_get_insert_eq. split; [intros [= <- <-]; auto|].
      intros [E [I|[[= <- <-]|[]]]]; [|done]. rewrite (proj2 (H _ _ _ _) (conj E I)) in N. done.
    + rewrite bt_get_insert_ne by done. rewrite H. split; [tauto|].
      intros [-> [I|[[= -> -> ->]|[]]]]; [done|by destruct D'].
  - intros x. rewrite in_app_iff. simpl. destruct (decide (sp_key x = (s, record_ordinal r))) as [E|D'].
    + rewrite E, bt_get_insert_eq. split.
      * intros [I|[<-|[]]]; [|by eauto]. apply S in I as (r' & n' & G & _). rewrite E in G. by rewrite N in G.
      * intros (r' & n' & [= <- <-] & Ex). right. left. unfold sp_key in E. injection E as Es Eo.
        by rewrite Ex, Es, Eo.
    + rewrite bt_get_insert_ne by done. rewrite S. split; [|tauto].
      intros [I|[<-|[]]]; [done|]. by destruct D'.
  - rewrite map_app. apply list.NoDup_app. split; [done|]. split; [|apply NoDup_singleton].
    intros k I J. apply list_elem_of_singleton in J. subst k.
    apply list_elem_of_In, in_map_iff in I as (x & E & I). apply S in I as (r' & n' & G & _).
    rewrite E in G. change (bt_get (s, record_ordinal r) facts = Some (r', n')) in G. by rewrite N in G.
Qed.

(** The record agrees with those already seen. *)
Definition agrees (D : list Rec) (s : Z) (r : IndexPackRecordPointer) (n : Z) : Prop :=
  forall r' n', In (s, r', n') D -> record_ordinal r' = record_ordinal r -> r' = r /\ n' = n.

Lemma fact_step_Ok D facts spans s r n facts' spans' :
  collected D facts spans -> fact_step s r n facts spans = Ok (facts', spans') ->
  record_fits s r n /\ agrees D s r n /\ collected (D ++ [(s, r, n)]) facts' spans'.
Proof.
  intros C E. pose proof C as [F H S O]. unfold fact_step in E. case_if_in E; [|done]. b2p.
  destruct (bt_get _ facts) as [[r0 n0]|] eqn:G.
  - case_bool_decide as D0; [|done]. injection D0 as -> ->. inv_bind.
    pose proof (proj1 (H _ _ _ _) G) as [_ I]. rewrite Forall_forall in F.
    split; [by apply (F _ I)|]. split; [|by apply collected_again].
    intros r' n' I' Eo. assert (bt_get (s, record_ordinal r) facts' = Some (r', n')) as G' by (by apply H).
    rewrite G in G'. by injection G' as -> ->.
  - inv_bind. apply derived_len_Ok in Heqr0 as (-> & B & _). wire_facts.
    assert (record_fits s r n) by (unfold record_fits, span_end; lia).
    split; [done|]. split; [|by apply collected_new].
    intros r' n' I' Eo. assert (bt_get (s, record_ordinal r) facts = Some (r', n')) as G' by (by apply H).
    by rewrite G in G'.
Qed.

Lemma fact_step_total D facts spans s r n :
  0 <= n -> 0 <= physical_offset r -> collected D facts spans -> record_fits s r n -> agrees D s r n ->
  exists x, fact_step s r n facts spans = Ok x.
Proof.
  intros Pn Po [F H S O] (B1 & B2 & B3) A. unfold fact_step. rewrite (proj2 (Z.leb_le _ _) B1).
  destruct (bt_get _ facts) as [[r0 n0]|] eqn:G.
  - apply H in G as [Eo I]. destruct (A r0 n0 I (eq_sym Eo)) as [-> ->]. rewrite bool_decide_true by done. eauto.
  - assert (derived_record_stored_len n = Ok (sealed_len n)) as ->.
    { apply derived_len_Ok. split_and!; [done|done|]. unfold sealed_len in B2. lia. }
    cbn [rbind]. rewrite checked_add_ok by done. cbn [ok_or rbind]. eauto.
Qed.

(** The whole list. *)
Definition all_fit (D : list Rec) : Prop := Forall (fun x => record_fits x.1.1 x.1.2 x.2) D.
Definition all_agree (D : list Rec) : Prop := forall s r n, In (s, r, n) D -> agrees D s r n.

Lemma facts_loop_Ok D facts spans l out :
  collected D facts spans -> record_facts_loop facts spans l = Ok out ->
  exists facts', collected (D ++ records_of l) facts' out.
Proof.
  revert D facts spans. induction l as [|m l IH]; intros D facts spans C E.
  { cbn in E. inv_bind. exists facts. by rewrite app_nil_r. }
  rewrite facts_loop_step in E. unfold records_of. cbn [omap list_omap].
  destruct (pack_record m) as [[[s r] n]|]; [|by apply (IH _ _ _ C)].
  destruct (fact_step s r n facts spans) as [[f sp]|] eqn:Es; [|done]. cbn [rbind fst snd] in E.
  apply (fact_step_Ok _ _ _ _ _ _ _ _ C) in Es as (_ & _ & C').
  apply IH with (1 := C') in E as (facts' & C''). exists facts'. by rewrite <- app_assoc in C''.
Qed.

Lemma facts_loop_total D facts spans l :
  collected D facts spans -> Forall wf_mutation l -> all_fit (records_of l) ->
  all_agree (D ++ records_of l) -> exists out, record_facts_loop facts spans l = Ok out.
Proof.
  intros C W. revert D facts spans C. induction W as [|m l Wm W IH]; intros D facts spans C F A.
  { by exists spans. }
  rewrite facts_loop_step. unfold records_of in *. cbn [omap list_omap] in *.
  destruct (pack_record m) as [[[s r] n]|] eqn:Em; [|by apply (IH D)].
  inversion F as [|? ? Fm F']; subst. 
  assert (0 <= n /\ 0 <= physical_offset r) as [Pn Po].
  { destruct m as [u|t]; [|done]. cbn in Em, Wm. unfold wf_upsert, is_u64 in Wm. destruct_and?.
    destruct (up_payload u); simplify_eq; cbn in *; unfold wf_pointer, is_u32 in *; lia. }
  destruct (fact_step_total D facts spans s r n Pn Po C Fm) as [[f sp] E].
  { intros r' n' I. apply (A s r n); rewrite in_app_iff; [right; by left|by left]. }
  rewrite E. cbn [rbind fst snd]. apply (fact_step_Ok _ _ _ _ _ _ _ _ C) in E as (_ & _ & C').
  apply (IH _ _ _ C' F'). by rewrite <- app_assoc.
Qed.

(** ** The check *)

(** The collected facts make the records agree. *)
Lemma collected_agree D facts spans : collected D facts spans -> all_agree D.
Proof.
  intros [_ H _ _] s r n I r' n' I' Eo.
  pose proof (proj2 (H s (record_ordinal r) r n) (conj eq_refl I)) as G.
  rewrite (proj2 (H s (record_ordinal r) r' n') (conj (eq_sym Eo) I')) in G. by injection G as -> ->.
Qed.

Definition span_of (s : Z) (r : IndexPackRecordPointer) (n : Z) : Span :=
  (s, physical_offset r, span_end r n, record_ordinal r).

Lemma collected_span D facts spans x :
  collected D facts spans -> In x spans <-> exists s r n, In (s, r, n) D /\ x = span_of s r n.
Proof.
  intros [_ H S _]. rewrite S. destruct x as [[[s a] b] o]. unfold sp_key, sp_source, sp_ordinal, span_of. simpl.
  split.
  - intros (r & n & G & [= -> ->]). apply H in G as [-> I]. eauto 10.
  - intros (s' & r & n & I & [= -> -> -> ->]). exists r, n. split; [|done]. by apply H.
Qed.

Definition all_compatible (D : list Rec) : Prop :=
  forall s r n r' n', In (s, r, n) D -> In (s, r', n') D -> compatible r r' n n'.

Lemma compatible_agree D : all_compatible D -> all_agree D.
Proof.
  intros C s r n I r' n' I' Eo. specialize (C s r n r' n' I I'). unfold compatible in C.
  rewrite decide_True in C by done. by destruct C as [-> ->].
Qed.

Lemma ordered_pairs (Q : Span -> Span -> Prop) l :
  StronglySorted (fun x y => leb x y = true) l -> NoDup (map sp_key l) ->
  (forall x y, In x l -> In y l -> leb x y = true -> sp_key x <> sp_key y -> Q x y) -> ForallOrdPairs Q l.
Proof.
  induction 1 as [|x l S IH F]; intros N H; [constructor|]. simpl in N. apply list.NoDup_cons in N as [Nx N].
  constructor; [|apply IH; [done|]; intros; apply H; auto using in_cons].
  rewrite Forall_forall in *. intros y I. apply H; [by left|by right|by apply F|].
  intros E. apply Nx. rewrite E. by apply list_elem_of_In, in_map.
Qed.

(** The windows over the collected spans compare all of them. *)
Lemma collected_windows D facts out :
  collected D facts out ->
  windows_disjoint (sort_by_key id out) = Ok tt <-> ForallOrdPairs apart (sort_by_key id out).
Proof.
  intros C. apply windows_apart; [apply sort_by_key_sorted|].
  rewrite <- (sort_by_key_perm id out). apply C.
Qed.

Lemma repeated_facts_sound muts :
  validate_repeated_record_facts muts = Ok tt ->
  all_fit (records_of muts) /\ all_compatible (records_of muts).
Proof.
  unfold validate_repeated_record_facts. intros E. inv_bind.
  match goal with H : record_facts_loop _ _ _ = Ok ?x |- _ =>
    apply (facts_loop_Ok [] [] []) in H as (facts & C); [|apply collected_nil]; rename x into out end.
  cbn [app] in C. apply (collected_windows _ _ _ C) in E. split; [apply C|]. intros s r n r' n' I I'.
  unfold compatible.
  destruct (decide _) as [Eo|No]; [by destruct (collected_agree _ _ _ C s r n I r' n' I' (eq_sym Eo)) as [-> ->]|].
  assert (forall r n, In (s, r, n) (records_of muts) -> In (span_of s r n) (sort_by_key id out)) as In_out.
  { intros r0 n0 I0. eapply Permutation_in; [apply sort_by_key_perm|]. apply (collected_span _ _ _ _ C). eauto 10. }
  destruct (ForallOrdPairs_In E _ _ (In_out r n I) (In_out r' n' I')) as [X|[A|A]].
  - unfold span_of in X. congruence.
  - left. by apply A.
  - right. by apply A.
Qed.

Lemma repeated_facts_iff muts :
  Forall wf_mutation muts -> (forall s r n, In (s, r, n) (records_of muts) -> 0 < n) ->
  validate_repeated_record_facts muts = Ok tt <->
  all_fit (records_of muts) /\ all_compatible (records_of muts).
Proof.
  intros W P. split; [apply repeated_facts_sound|]. intros [F C]. unfold validate_repeated_record_facts.
  destruct (facts_loop_total [] [] [] muts collected_nil W F (compatible_agree _ C)) as [out E].
  rewrite E. cbn [rbind]. apply (facts_loop_Ok [] [] []) in E as (facts & Co); [|apply collected_nil].
  cbn [app] in Co. apply (collected_windows _ _ _ Co). apply ordered_pairs; [apply sort_by_key_sorted| |].
  { rewrite <- (sort_by_key_perm id out). apply Co. }
  intros x y Ix Iy L N Es. apply span_order in L.
  apply (Permutation_in _ (Permutation_sym (sort_by_key_perm id out))) in Ix, Iy.
  apply (collected_span _ _ _ _ Co) in Ix as (s & r & n & I & ->), Iy as (s' & r' & n' & I' & ->).
  cbn in Es. subst s'. specialize (C s r n r' n' I I'). unfold compatible in C. unfold sp_key in N. cbn in *.
  rewrite decide_False in C by congruence. pose proof (P _ _ _ I'). unfold span_end, sealed_len in *.
  assert (0 <= div_ceil n' INDEX_PACK_SEGMENT_BYTES) by (apply div_ceil_nonneg; [lia|done]).
  change INDEX_PACK_SEGMENT_TAG_BYTES with 16 in *. lia.
Qed.

(** C34: [validate_repeated_record_facts] accepts the mutations of a run exactly
    when no span leaves its width, mutations that name the same record of a
    pack agree on its position and length, and different records of one pack
    occupy disjoint byte ranges. *)
Theorem repeated_facts_exact muts :
  Forall wf_mutation muts -> (forall s r n, In (s, r, n) (records_of muts) -> 0 < n) ->
  validate_repeated_record_facts muts = Ok tt <->
  all_fit (records_of muts) /\ all_compatible (records_of muts).
Proof. apply repeated_facts_iff. Qed.

(** Two mutations on one record, and one on the record behind it. *)
Definition shared_records : list IndexMutation :=
  [ sample_upsert 0 x05 "a" (ExternalPack 0 {| record_ordinal := 3; physical_offset := 100 |}) 70000;
    sample_upsert 1 x06 "b" (ExternalPack 0 {| record_ordinal := 3; physical_offset := 100 |}) 70000;
    sample_upsert 2 x07 "c" (ExternalPack 0 {| record_ordinal := 2; physical_offset := 70132 |}) 5;
    sample_upsert 3 x08 "d" (SelfPack {| record_ordinal := 2; physical_offset := 100 |}) 9 ].

Lemma repeated_facts_exact_witness :
  all_fit (records_of shared_records) /\ all_compatible (records_of shared_records).
Proof.
  apply (repeated_facts_exact shared_records); [| |vm_compute; reflexivity].
  - wf_sample.
  - intros s r n I. cbn in I. repeat destruct I as [[= <- <- <-]|I]; done || lia.
Defined.
