(* ===== verification/RunSafety.v ===== *)
(** * Decoded index runs are consistent

    Whatever frames it is given, the decoder of index runs returns only runs
    whose mutations are numbered by their ordinals, whose payload pointers
    land inside the tables, and whose tables are ordered and in full use. *)

From Stdlib Require Import Strings.String Sorted Permutation.
From stdpp Require Import sorting.
From S2P Require Import Prelude Ord Text Types Etag Checksum Completion Layout RunWire RunTypes RunValidate RunEncode RunSamples RunDecode RunCodec RunMetadata RunProjections RunRules RunRecords.
Open Scope Z_scope.

(** ** Single records *)

Definition payload_at (p : NamespaceProjection) : IndexPayloadPointer :=
  match p with NsUpsert _ _ _ payload _ _ _ _ _ _ => payload | NsTombstone _ _ _ => Empty end.

(** The projection's payload passes the checks against the tables. *)
Definition projection_valid (ms : MetadataState) (p : NamespaceProjection) : Prop :=
  match p with
  | NsUpsert _ _ _ payload content_len _ _ _ _ _ =>
      payload_in (ms_containers ms) (ms_self_pack ms) (ms_streams ms) payload
      /\ validate_empty_payload payload content_len = Ok tt
      /\ validate_payload_pointer payload content_len (ms_self_pack ms) (ms_containers ms)
           (ms_streams ms) = Ok tt
  | NsTombstone _ _ _ => True
  end.

Lemma decode_payload_in cs sp ss r p r' :
  decode_payload_pointer cs sp ss r = Ok (p, r') -> payload_in cs sp ss p.
Proof.
  unfold decode_payload_pointer. intros E. inv_bind.
  repeat (case_if_in E; [inv_bind|]); try (by inv_bind); unfold validate_container_ordinal, table_get in *;
    inv_bind; rewrite ?Z.geb_leb in *; b2p; cbn [payload_in]; eauto.
  destruct sp as [pack|]; [|done]. rewrite Z.geb_leb in *. b2p. eauto.
Qed.

Lemma decode_namespace_valid ms r o p k r' :
  decode_namespace_record ms r = Ok ((o, p, k), r') -> 0 <= o /\ projection_valid ms p.
Proof.
  unfold decode_namespace_record. intros E. inv_bind.
  match goal with H : Reader.u32_varint ?s = Ok (?o, ?s') |- _ =>
    destruct (accepts_u32_varint s (Reader.remaining s) o s' eq_refl H) as (_ & _ & _ & _ & U & _) end.
  split; [apply U|]. unfold decode_namespace_projection in *.
  match goal with H : mbind Reader.u8 _ _ = Ok _ |- _ => rename H into E end. inv_bind.
  case_if_in E; [|case_if_in E; inv_bind; done]. inv_bind.
  match goal with H : decode_payload_pointer _ _ _ _ = Ok _ |- _ => apply decode_payload_in in H end. done.
Qed.

Lemma pair_inv o p l m : pair_projections o p l = Ok m -> ordinal m = o /\ ns_of m = p.
Proof.
  destruct p, l; cbn [pair_projections]; intros E; try done; case_if_in E; inv_bind; b2p; subst; done.
Qed.

Lemma decode_listing_ordinal previous limits r o l r' :
  decode_listing_record previous limits r = Ok ((o, l), r') -> 0 <= o.
Proof.
  unfold decode_listing_record. intros E. inv_bind.
  match goal with H : Reader.u32_varint ?s = Ok (?o, ?s') |- _ =>
    destruct (accepts_u32_varint s (Reader.remaining s) o s' eq_refl H) as (_ & _ & _ & _ & U & _) end.
  apply U.
Qed.

(** ** The slots *)

(** The projection is waiting for its listing record, or has become a mutation. *)
Definition held (slots : Slots) (ls : ListingState) (p : NamespaceProjection) : Prop :=
  (exists i, slots !! i = Some (Some p))
  \/ exists i m, ls_mutations ls !! i = Some (Some m) /\ ns_of m = p.

Definition use_of (l : list NamespaceProjection) : Used := fold_left (fun used p => mark_used p used) l no_use.

Record slots_ok (ms : MetadataState) (slots : Slots) (used : Used) (ls : ListingState) : Prop := {
  so_ns : forall i p, slots !! i = Some (Some p) ->
    projection_valid ms p /\ ls_mutations ls !! i = Some None;
  so_ls : forall i m, ls_mutations ls !! i = Some (Some m) ->
    ordinal m = Z.of_nat i /\ projection_valid ms (ns_of m);
  so_used : exists l, used = use_of l /\ Forall (held slots ls) l
}.

(** No listing record has been seen; a slot is free in both tables or in none. *)
Definition no_listing (slots : Slots) (ls : ListingState) : Prop :=
  length slots = length (ls_mutations ls)
  /\ forall i x, ls_mutations ls !! i = Some x -> x = None.

Lemma slots_ok_empty ms n prev saw :
  slots_ok ms (replicate n None) no_use
    {| ls_mutations := replicate n None; ls_previous_key := prev; ls_saw := saw |}.
Proof.
  split; [intros i p E|intros i m E|by exists []]; apply lookup_replicate_1 in E as [? _]; done.
Qed.

Lemma store_namespace_ok ms ns ls o p k ns' :
  0 <= o -> projection_valid ms p -> slots_ok ms (ns_slots ns) (ns_used ns) ls ->
  no_listing (ns_slots ns) ls -> store_namespace ns o p k = Ok ns' ->
  slots_ok ms (ns_slots ns') (ns_used ns') ls /\ no_listing (ns_slots ns') ls.
Proof.
  intros Po V [Hn Hl (l & Eu & F)] [El Hx] E. unfold store_namespace, projection_slot in E. inv_bind.
  match type of E with match ?x with Some _ => _ | None => _ end = _ => destruct x; [done|] end.
  inv_bind. cbn [ns_slots ns_used].
  match goal with H : ns_slots ns !! _ = Some None |- _ => pose proof (lookup_lt_Some _ _ _ H) as Lt end.
  split; [|by unfold no_listing; rewrite length_insert]. split.
  - intros i q G. apply list_lookup_insert_Some in G as [(<- & [= <-] & _)|[_ G]]; [|by apply Hn].
    split; [done|]. destruct (lookup_lt_is_Some_2 (ls_mutations ls) (Z.to_nat o) ltac:(lia)) as [x G].
    by rewrite G, (Hx _ _ G).
  - done.
  - exists (l ++ [p]). split; [unfold use_of; rewrite fold_left_app, Eu; done|].
    apply Forall_app. split; [|constructor; [left; exists (Z.to_nat o); by apply list_lookup_insert_eq|done]].
    eapply Forall_impl; [|exact F]. intros q [[i G]|H]; [|by right]. left. exists i.
    rewrite list_lookup_insert_ne; [done|]. intros <-. congruence.
Qed.

Lemma store_listing_ok ms slots used ls o l slots' ls' :
  0 <= o -> slots_ok ms slots used ls -> store_listing slots ls o l = Ok (slots', ls') ->
  slots_ok ms slots' used ls'.
Proof.
  intros Po [Hn Hl (us & Eu & F)] E. unfold store_listing, projection_slot in E. inv_bind.
  match type of E with match ?x with Some _ => _ | None => _ end = _ => destruct x; [done|] end. inv_bind.
  match goal with H : pair_projections _ _ _ = Ok ?m |- _ => apply pair_inv in H as [Eo Ep]; rename m into mm end.
  match goal with H : slots !! _ = Some (Some ?q) |- _ => rename H into Gs; destruct (Hn _ _ Gs) as [Vq _] end.
  match goal with H : ls_mutations ls !! _ = Some None |- _ => rename H into Gl end.
  pose proof (lookup_lt_Some _ _ _ Gl) as Lt. subst. split; cbn [ls_mutations].
  - intros i p G. apply list_lookup_insert_Some in G as [(_ & [=] & _)|[Ni G]].
    destruct (Hn _ _ G). rewrite list_lookup_insert_ne by done. done.
  - intros i m G. apply list_lookup_insert_Some in G as [(<- & [= <-] & _)|[_ G]]; [|by apply Hl].
    split; [lia|done].
  - exists us. split; [done|]. eapply Forall_impl; [|exact F].
    intros q [[i G]|(i & m & G & <-)].
    + destruct (decide (Z.to_nat (ordinal mm) = i)) as [<-|Ni].
      * right. exists (Z.to_nat (ordinal mm)), mm. cbn [ls_mutations].
        split; [by apply list_lookup_insert_eq|congruence].
      * left. exists i. by rewrite list_lookup_insert_ne.
    + right. exists i, m. cbn [ls_mutations]. split; [|done]. rewrite list_lookup_insert_ne; [done|].
      intros <-. congruence.
Qed.

(** ** The tables *)

Record tables_ok (limits : IndexRunLimits) (ms : MetadataState) : Prop := {
  to_containers : StronglySorted (fun a b => cmp a b = Lt) (map ct_key (ms_containers ms));
  to_ranges : Forall (fun c => validate_container_range c = Ok tt) (ms_containers ms);
  to_streams : StronglySorted (fun a b => cmp a b = Lt) (map st_key (ms_streams ms));
  to_layouts : Forall (fun c => validate_standalone_stream_container c limits = Ok tt) (ms_streams ms);
  to_keys : StronglySorted (fun a b => cmp a b = Lt) (ms_namespace_key_ids ms);
  to_self : validate_self_pack (ms_self_pack ms) limits = Ok tt
}.

Lemma tables_ok_default limits : tables_ok limits MetadataState_default.
Proof. split; constructor || done. Qed.

Lemma sorted_snoc {K} `{OrdLaws K} (l : list K) k :
  StronglySorted (fun a b => cmp a b = Lt) l ->
  (forall k', last_of l = Some k' -> cmp k' k = Lt) -> StronglySorted (fun a b => cmp a b = Lt) (l ++ [k]).
Proof.
  intros S Hk. apply StronglySorted_app_2; [|done|repeat constructor].
  intros x y Ix Iy. apply list_elem_of_singleton in Iy. subst y.
  destruct l as [|k' l' _] using rev_ind; [by apply not_elem_of_nil in Ix|].
  specialize (Hk k' (last_of_snoc _ _)). apply elem_of_app in Ix as [Ix|Ix].
  - eapply cmp_trans; [|exact Hk]. eapply (StronglySorted_app_1_elem_of _ _ _ _ _ S Ix).
    by apply list_elem_of_singleton.
  - apply list_elem_of_singleton in Ix. by subst.
Qed.

Lemma last_of_map {A B} (f : A -> B) l : last_of (map f l) = f <$> last_of l.
Proof. unfold last_of. rewrite <- map_rev. by destruct (rev l). Qed.

Lemma container_order_lt {A} (key : A -> text * option text) l k u :
  validate_container_order (key <$> last_of l) k = Ok u ->
  forall k', last_of (map key l) = Some k' -> cmp k' k = Lt.
Proof. rewrite last_of_map. intros E k' G. rewrite G in E. simpl in E. by destruct (cmp k' k). Qed.

Lemma key_order_lt l k u :
  validate_key_order (last_of l) k = Ok u -> forall k', last_of l = Some k' -> cmp k' k = Lt.
Proof. intros E k' G. rewrite G in E. simpl in E. by destruct (cmp k' k). Qed.

Lemma in_record_inv {A} maximum check (body : R A) r a r' :
  in_record maximum check body r = Ok (a, r') -> exists r1 r2, body r1 = Ok (a, r2).
Proof. unfold in_record. intros E. inv_bind. eauto. Qed.

Lemma metadata_record_ok limits ms r ms' r' :
  tables_ok limits ms -> decode_metadata_record ms limits r = Ok (ms', r') -> tables_ok limits ms'.
Proof.
  intros [Sc Fc Ss Fs Sk Vs] E. unfold decode_metadata_record in E. inv_bind.
  repeat (case_if_in E; [inv_bind|]); try (by inv_bind).
  - unfold decode_container in *. inv_bind. split; cbn; try done.
    + rewrite map_app. apply sorted_snoc; [done|]. by eapply container_order_lt.
    + apply Forall_app. split; [done|]. by constructor.
  - unfold decode_standalone_stream_container in *. inv_bind. split; cbn; try done.
    + rewrite map_app. apply sorted_snoc; [done|]. by eapply container_order_lt.
    + apply Forall_app. split; [done|]. by constructor.
  - split; cbn; try done. apply sorted_snoc; [done|]. by eapply key_order_lt.
Qed.

Lemma metadata_loop_ok limits n ms r ms' r' :
  tables_ok limits ms -> decode_metadata_loop n ms limits r = Ok (ms', r') -> tables_ok limits ms'.
Proof.
  revert ms r. induction n as [|n IH]; intros ms r T E; cbn [decode_metadata_loop] in E; inv_bind; [done|].
  match goal with H : in_record _ _ _ _ = Ok _ |- _ => apply in_record_inv in H as (r1 & r2 & H) end.
  eapply IH; [|exact E]. by eapply metadata_record_ok.
Qed.

Lemma metadata_facts_ok limits ms h ms' :
  tables_ok limits ms -> (forall sp, h_self_pack h = Some sp -> validate_self_pack sp limits = Ok tt) ->
  accept_metadata_facts ms h = Ok ms' -> tables_ok limits ms'.
Proof.
  intros [Sc Fc Ss Fs Sk Vs] Hs E. unfold accept_metadata_facts in E. inv_bind.
  assert (StronglySorted (fun a b => cmp a b = Lt) l) as Sl.
  { destruct (ms_declared ms); [|inv_bind; constructor].
    match goal with H : (if _ then _ else _) = Ok _ |- _ => case_if_in H end; inv_bind; done. }
  split; cbn; try done. by apply Hs.
Qed.

(** ** Frames *)

Lemma namespace_loop_ok limits n ms ns ls r ns' r' :
  slots_ok ms (ns_slots ns) (ns_used ns) ls -> no_listing (ns_slots ns) ls ->
  decode_namespace_loop n ms ns limits r = Ok (ns', r') ->
  slots_ok ms (ns_slots ns') (ns_used ns') ls /\ no_listing (ns_slots ns') ls /\ ns_saw ns' = ns_saw ns.
Proof.
  revert ns r. induction n as [|n IH]; intros ns r S N E; cbn [decode_namespace_loop] in E; inv_bind; [done|].
  match goal with H : in_record _ _ _ _ = Ok _ |- _ =>
    apply in_record_inv in H as (r1 & r2 & [Po V]%decode_namespace_valid) end.
  match goal with H : store_namespace _ _ _ _ = Ok ?x |- _ =>
    destruct (store_namespace_ok _ _ _ _ _ _ _ Po V S N H) as [S' N'];
    assert (ns_saw x = ns_saw ns) as <- end.
  { unfold store_namespace in *. inv_bind.
    match goal with H : match ?x with Some _ => _ | None => _ end = Ok _ |- _ => destruct x; [done|] end. by inv_bind. }
  by eapply IH.
Qed.

Lemma listing_loop_ok limits n ms previous slots used ls r slots' ls' r' :
  slots_ok ms slots used ls -> decode_listing_loop n previous slots ls limits r = Ok ((slots', ls'), r') ->
  slots_ok ms slots' used ls'.
Proof.
  revert previous slots ls r. induction n as [|n IH]; intros previous slots ls r S E;
    cbn [decode_listing_loop] in E; inv_bind; [done|].
  match goal with H : in_record _ _ _ _ = Ok _ |- _ =>
    apply in_record_inv in H as (r1 & r2 & Po%decode_listing_ordinal) end.
  match goal with H : store_listing _ _ _ _ = Ok _ |- _ =>
    apply (store_listing_ok _ _ _ _ _ _ _ _ Po S) in H as S' end.
  by eapply IH.
Qed.

(** What holds while the frames of a role are read. *)
Definition phase_ok (limits : IndexRunLimits) (role : IndexRunFrameRole) (d : IndexRunFrameDecoder) : Prop :=
  tables_ok limits (d_metadata d)
  /\ match role with
     | Metadata => d_namespace d = d_namespace IndexRunFrameDecoder_default
                   /\ d_listing d = d_listing IndexRunFrameDecoder_default
     | Namespace =>
         slots_ok (d_metadata d) (ns_slots (d_namespace d)) (ns_used (d_namespace d)) (d_listing d)
         /\ no_listing (ns_slots (d_namespace d)) (d_listing d)
         /\ (ns_saw (d_namespace d) = false ->
             d_namespace d = d_namespace IndexRunFrameDecoder_default
             /\ d_listing d = d_listing IndexRunFrameDecoder_default)
     | Listing =>
         slots_ok (d_metadata d) (ns_slots (d_namespace d)) (ns_used (d_namespace d)) (d_listing d)
     end.

Lemma phase_next limits role role' d :
  frame_role_tag role' = frame_role_tag role + 1 -> phase_ok limits role d -> phase_ok limits role' d.
Proof.
  destruct role, role'; simpl; try done; intros _ [T P].
  - destruct P as [En El]. split; [done|]. rewrite En, El. split_and!; [apply (slots_ok_empty _ 0)|done..].
  - split; [done|]. apply P.
Qed.

Lemma header_self_ok limits r h r' sp :
  decode_frame_header limits r = Ok (h, r') -> h_self_pack h = Some sp -> validate_self_pack sp limits = Ok tt.
Proof.
  unfold decode_frame_header. intros E Es. inv_bind. cbn in Es. subst.
  match goal with H : (if ?c then _ else _) _ = Ok _ |- _ => rename H into Ec; case_if_in Ec end; inv_bind.
  unfold decode_self_pack in *. 
  match goal with H : mbind Reader.u8 _ _ = Ok (sp, _) |- _ => rename H into Ed end. inv_bind.
  case_if_in Ed; [by inv_bind|]. case_if_in Ed; inv_bind; done.
Qed.

Lemma role_records_ok limits d h r d' r' :
  (forall sp, h_self_pack h = Some sp -> validate_self_pack sp limits = Ok tt) ->
  phase_ok limits (h_role h) d -> decode_role_records d h limits r = Ok (d', r') ->
  phase_ok limits (h_role h) d'.
Proof.
  intros Hs [T P] E. unfold decode_role_records in E. destruct (h_role h); cbn [phase_ok] in *.
  - unfold decode_metadata in E. inv_bind. split; [|done]. cbn.
    eapply metadata_loop_ok; [|done]. by eapply metadata_facts_ok.
  - unfold decode_namespace in E. destruct P as (S & N & D).
    match type of E with context [let '(_, _) := ?x in _] => destruct x as [n l] eqn:Ex end.
    assert (slots_ok (d_metadata d) (ns_slots n) (ns_used n) l /\ no_listing (ns_slots n) l /\ ns_saw n = true) as (S' & N' & Sw).
    { destruct (ns_saw (d_namespace d)) eqn:Sw; cbn [negb] in Ex; injection Ex as <- <-; [done|].
      destruct (D eq_refl) as [-> ->]. cbn [ns_slots ns_used d_namespace d_listing IndexRunFrameDecoder_default ls_mutations].
      rewrite !resize_nil. split; [apply slots_ok_empty|]. split; [|done]. split; [by cbn; rewrite !length_replicate|].
      intros i x G. by apply lookup_replicate_1 in G as [-> _]. }
    inv_bind.
    match goal with H : decode_namespace_loop _ _ _ _ _ = Ok _ |- _ =>
      apply (namespace_loop_ok _ _ _ _ _ _ _ _ S' N') in H as (S'' & N'' & Sw') end.
    split; [done|]. cbn. split_and!; [done|done|]. rewrite Sw', Sw. done.
  - unfold decode_listing in E. inv_bind. split; [done|]. cbn.
    match goal with H : decode_listing_loop _ _ _ _ _ _ = Ok _ |- _ => eapply listing_loop_ok in H; [exact H|] end.
    destruct P as [Pn Pl Pu]. split; done.
Qed.

(** ** The loop over the frames *)

Lemma accept_header_phase limits s h s' :
  phase_ok limits (fl_expected_role s) (fl_decoder s) -> accept_header s h limits = Ok s' ->
  phase_ok limits (h_role h) (fl_decoder s') /\ fl_expected_role s' = h_role h.
Proof.
  intros P E. unfold accept_header in E. inv_bind.
  match goal with H : next_role s h = Ok ?x |- _ => rename H into En; rename x into s1 end. cbn.
  match goal with H : negb (is_expected s1 h) = false |- _ => rename H into Ex end.
  apply negb_false_iff in Ex. unfold is_expected in Ex. b2p. split; [|congruence].
  unfold next_role in En. case_if_in En; inv_bind.
  - unfold is_expected in *. b2p. congruence.
  - b2p. cbn in *. by eapply phase_next.
Qed.

Lemma decode_frame_phase limits s f s' :
  phase_ok limits (fl_expected_role s) (fl_decoder s) -> decode_frame s f limits = Ok s' ->
  phase_ok limits (fl_expected_role s') (fl_decoder s').
Proof.
  intros P E. unfold decode_frame in E. inv_bind. cbn.
  match goal with Hh : decode_frame_header _ _ = Ok _, Ha : accept_header _ _ _ = Ok _,
    Hr : decode_role_records _ _ _ _ = Ok _ |- _ =>
      apply accept_header_phase in Ha as [P' ->]; [|done];
      eapply role_records_ok; [|exact P'|exact Hr]; intros sp; by eapply header_self_ok
  end.
Qed.

Lemma frames_loop_phase limits s fs s' :
  phase_ok limits (fl_expected_role s) (fl_decoder s) -> decode_frames_loop s fs limits = Ok s' ->
  phase_ok limits (fl_expected_role s') (fl_decoder s').
Proof.
  revert s. induction fs as [|f fs IH]; intros s P E; cbn [decode_frames_loop] in E; inv_bind; [done|].
  eapply IH; [|exact E]. by eapply decode_frame_phase.
Qed.

Lemma phase_slots limits role d :
  phase_ok limits role d ->
  slots_ok (d_metadata d) (ns_slots (d_namespace d)) (ns_used (d_namespace d)) (d_listing d).
Proof.
  intros [_ P]. destruct role; [|apply P|done]. destruct P as [-> ->]. apply (slots_ok_empty _ 0).
Qed.

(** ** The run *)

Lemma ordered_mutations_inv index slots l :
  ordered_mutations index slots = Ok l -> slots = map Some l.
Proof.
  revert index l. induction slots as [|x slots IH]; intros index l E; cbn [ordered_mutations] in E; inv_bind; [done|].
  cbn [map]. f_equal. by eapply IH.
Qed.

(** Every use that was marked is the use of a mutation of the run. *)
Lemma slots_ok_used ms slots used ls l :
  slots_ok ms slots used ls -> ls_mutations ls = map Some l ->
  exists l', used = use_all l' no_use /\ incl l' l.
Proof.
  intros [Hn _ (us & -> & F)] El.
  assert (exists l', us = map ns_of l' /\ incl l' l) as (l' & -> & I).
  { clear -Hn F El. induction F as [|p us H F IH]; [exists []; split; [done|apply incl_nil_l]|]. destruct IH as (l' & -> & I).
    assert (exists m, In m l /\ ns_of m = p) as (m & Im & <-).
    { destruct H as [[i G]|(i & m & G & E)].
      - destruct (Hn _ _ G) as [_ G']. rewrite El in G'. apply list_elem_of_lookup_2, list_elem_of_In in G'.
        apply in_map_iff in G' as (? & ? & _). done.
      - exists m. split; [|done]. rewrite El in G. apply list_elem_of_lookup_2, list_elem_of_In in G.
        apply in_map_iff in G as (m' & [= ->] & I'). done. }
    exists (m :: l'). split; [done|]. by apply incl_cons. }
  exists l'. split; [|done]. unfold use_of, use_all. generalize no_use.
  clear. induction l' as [|m l' IH]; intros u; simpl; [done|]. apply IH.
Qed.

(** What a decoded run satisfies. *)
Record run_consistent (limits : IndexRunLimits) (run : IndexRun) : Prop := {
  rc_ordinals : map ordinal (run_mutations run) = seqZ 0 (len (run_mutations run));
  rc_containers : StronglySorted (fun a b => cmp a b = Lt) (map ct_key (run_containers run));
  rc_ranges : Forall (fun c => validate_container_range c = Ok tt) (run_containers run);
  rc_streams : StronglySorted (fun a b => cmp a b = Lt) (map st_key (run_standalone_stream_containers run));
  rc_layouts : Forall (fun c => validate_standalone_stream_container c limits = Ok tt)
                 (run_standalone_stream_containers run);
  rc_distinct : NoDup (map ct_key (run_containers run) ++ map st_key (run_standalone_stream_containers run));
  rc_self : validate_self_pack (run_self_pack run) limits = Ok tt;
  rc_payloads : forall u, In (Upsert u) (run_mutations run) ->
    payload_in (run_containers run) (run_self_pack run) (run_standalone_stream_containers run) (up_payload u)
    /\ validate_empty_payload (up_payload u) (up_content_len u) = Ok tt
    /\ validate_payload_pointer (up_payload u) (up_content_len u) (run_self_pack run)
         (run_containers run) (run_standalone_stream_containers run) = Ok tt;
  rc_containers_used : forall c, 0 <= c < len (run_containers run) ->
    exists m r, In m (run_mutations run) /\ payload_of m = ExternalPack c r;
  rc_streams_used : forall c, 0 <= c < len (run_standalone_stream_containers run) ->
    exists m, In m (run_mutations run) /\ payload_of m = ExternalStandaloneStream c;
  rc_self_used : run_self_pack run <> None ->
    exists m r, In m (run_mutations run) /\ payload_of m = SelfPack r;
  rc_records : all_fit (records_of (run_mutations run)) /\ all_compatible (records_of (run_mutations run))
}.

Lemma ordinals_seq k l :
  (forall i m, l !! i = Some m -> ordinal m = k + Z.of_nat i) -> map ordinal l = seqZ k (len l).
Proof.
  revert k. induction l as [|m l IH]; intros k H; [done|]. rewrite len_cons, seqZ_cons by (pose proof (len_nonneg l); lia).
  cbn [map]. f_equal; [specialize (H 0%nat m eq_refl); lia|].
  rewrite (IH (k + 1)); [f_equal; lia|]. intros i m' G. specialize (H (S i) m' G). lia.
Qed.

Lemma finish_consistent limits role d sequence count total run :
  phase_ok limits role d -> decoder_finish d sequence count total = Ok run -> run_consistent limits run.
Proof.
  intros P E. pose proof (phase_slots _ _ _ P) as S. destruct P as [[Sc Fc Ss Fs Sk Vs] _].
  unfold decoder_finish in E. inv_bind.
  match goal with H : ordered_mutations 0 _ = Ok ?l |- _ =>
    apply ordered_mutations_inv in H as El; rename l into muts end.
  destruct (slots_ok_used _ _ _ _ _ S El) as (l' & Eu & I). destruct S as [_ Hl _]. rewrite El in Hl.
  assert (forall i m, muts !! i = Some m -> ordinal m = Z.of_nat i /\ projection_valid (d_metadata d) (ns_of m)) as Hm.
  { intros i m G. apply Hl. change (map Some muts) with (Some <$> muts). by rewrite list_lookup_fmap, G. }
  assert (forall Q, Exists Q l' -> exists m, In m muts /\ Q m) as Hx.
  { intros Q Ex. apply Exists_exists in Ex as (m & Im & Qm). eauto. }
  unfold validate_container_use, validate_standalone_stream_container_use in *. inv_bind.
  match goal with
  | Hc : validate_use UnusedContainer _ _ _ = Ok _, Hs : validate_use UnusedStandaloneStreamContainer _ _ _ = Ok _ |- _ =>
      pose proof (proj1 (validate_use_Ok _ _ _ _ _) Hc) as Uc; pose proof (proj1 (validate_use_Ok _ _ _ _ _) Hs) as Us
  end.
  rewrite Eu in *.
  split; cbn; try done.
  - apply ordinals_seq. intros i m G. by apply Hm in G as [-> _].
  - by apply distinct_containers_iff.
  - intros u Iu. apply list_elem_of_In, list_elem_of_lookup_1 in Iu as [i G]. by apply Hm in G as [_ V].
  - intros c B. destruct (Uc c ltac:(unfold len in *; lia)) as [_ M].
    apply use_all_containers in M as [M|M]; [done|]. apply Hx in M as (m & Im & r & Em). eauto.
  - intros c B. destruct (Us c ltac:(unfold len in *; lia)) as [_ M].
    apply use_all_streams in M as [M|M]; [done|]. by apply Hx in M.
  - intros Sp. destruct (ms_self_pack (d_metadata d)); [|done]. b2p.
    match goal with H : Bool.eqb _ true = true |- _ => apply eqb_prop in H; rename H into M end.
    apply use_all_self in M as [M|M]; [done|]. apply Hx in M as (m & Im & r & Em). eauto.
  - by apply repeated_facts_sound.
Qed.

(** C9: Whatever frames it is given, [decode_index_run_frames] returns only
    consistent runs: mutation [i] has ordinal [i]; containers and streams are
    strictly ordered, within their own objects and pairwise distinct; every
    payload pointer lands inside the table, pack or record range it names;
    every container, stream and the own pack is used; and the records of a
    pack agree and do not overlap. *)
Theorem decoded_run_consistent fs limits run :
  decode_index_run_frames fs limits = Ok run -> run_consistent limits run.
Proof.
  intros E. unfold decode_index_run_frames in E. inv_bind.
  match goal with H : decode_frames_loop _ _ _ = Ok _ |- _ =>
    apply frames_loop_phase in H as P; [|split; [apply tables_ok_default|done]] end.
  by eapply finish_consistent.
Qed.

(** ** Runs that the encoder accepts *)

Lemma validate_use_iff unused n used (P : Z -> Prop) :
  (forall c, bs_mem c used = true <-> P c) -> (forall c, P c -> c <= u32_max) ->
  validate_use unused n 0 used = Ok tt <-> forall c, 0 <= c < Z.of_nat n -> P c.
Proof.
  intros H U. rewrite validate_use_Ok. split.
  - intros F c B. apply H. by apply F.
  - intros F c B. specialize (F c B). split; [by apply U|by apply H].
Qed.

Lemma payload_u32 l m :
  Forall wf_mutation l -> In m l -> wf_payload (payload_of m).
Proof. rewrite Forall_forall. intros F I. specialize (F m I). destruct m as [u|t]; [apply F|done]. Qed.

Lemma records_nonempty run limits :
  Forall wf_mutation (run_mutations run) -> Forall (mutation_valid run limits) (run_mutations run) ->
  forall s r n, In (s, r, n) (records_of (run_mutations run)) -> 0 < n.
Proof.
  intros W V s r n I. unfold records_of in I. apply list_elem_of_In, list_elem_of_omap in I as (m & I & E).
  apply list_elem_of_In in I. rewrite Forall_forall in W, V. specialize (W m I). specialize (V m I).
  destruct m as [u|t]; [|done]. destruct V as (_ & _ & _ & Ve & _). cbn in E, W. unfold wf_upsert, is_u64 in W.
  destruct (up_payload u); simplify_eq; cbn in Ve; destruct (up_content_len u =? 0) eqn:Z; b2p; done || lia.
Qed.

Lemma containers_use_iff l n :
  Forall wf_mutation l ->
  validate_use UnusedContainer n 0 (used_containers (use_all l no_use)) = Ok tt <->
  forall c, 0 <= c < Z.of_nat n -> Exists (fun m => exists r, payload_of m = ExternalPack c r) l.
Proof.
  intros W. apply validate_use_iff.
  - intros c. rewrite use_all_containers. split; [|by right]. by intros [?|].
  - intros c (m & I & r & E)%Exists_exists. pose proof (payload_u32 _ _ W I) as P. rewrite E in P. apply P.
Qed.

Lemma streams_use_iff l n :
  Forall wf_mutation l ->
  validate_standalone_stream_container_use n (used_streams (use_all l no_use)) = Ok tt <->
  forall c, 0 <= c < Z.of_nat n -> Exists (fun m => payload_of m = ExternalStandaloneStream c) l.
Proof.
  intros W. apply validate_use_iff.
  - intros c. rewrite use_all_streams. split; [|by right]. by intros [?|].
  - intros c (m & I & E)%Exists_exists. pose proof (payload_u32 _ _ W I) as P. rewrite E in P. apply P.
Qed.

(** The own pack is present, with records, exactly when it is used. *)
Definition self_used (self_pack : option IndexRunSelfPack) (l : list IndexMutation) : Prop :=
  match self_pack with
  | Some pack => sp_record_count pack <> 0 /\ Exists (fun m => exists r, payload_of m = SelfPack r) l
  | None => ~ Exists (fun m => exists r, payload_of m = SelfPack r) l
  end.

Lemma container_use_iff l n self_pack :
  Forall wf_mutation l ->
  validate_container_use n (used_containers (use_all l no_use)) (uses_self (use_all l no_use)) self_pack = Ok tt <->
  self_used self_pack l
  /\ forall c, 0 <= c < Z.of_nat n -> Exists (fun m => exists r, payload_of m = ExternalPack c r) l.
Proof.
  intros W. rewrite <- (containers_use_iff l n W). unfold validate_container_use, self_used.
  assert (uses_self (use_all l no_use) = true <-> Exists (fun m => exists r, payload_of m = SelfPack r) l) as Hu.
  { rewrite use_all_self. split; [|by right]. by intros [?|]. }
  destruct self_pack as [pack|]; rewrite <- Hu; clear Hu;
    destruct (uses_self (use_all l no_use)); cbn [Bool.eqb negb orb reject_if rbind].
  - destruct (sp_record_count pack =? 0) eqn:Z; b2p; cbn [reject_if rbind]; split; [done|tauto|tauto|tauto].
  - split; [done|]. intros [[_ ?] _]. done.
  - split; [done|]. intros [? _]. done.
  - split; [|tauto]. intros E. by split.
Qed.


Lemma decoded_run_consistent_witness : run_consistent sample_limits sample_run.
Proof.
  apply (decoded_run_consistent
    (match encode_index_run_frames sample_run sample_limits with
     | Ok encoded => map frame_bytes (frames encoded)
     | Err _ => []
     end)).
  vm_compute. reflexivity.
Defined.

