(* ===== verification/RunRoundTrip.v ===== *)
(** * Index runs: decoding what was encoded

    The round trip of the index-run codec: a run that the encoder accepts is
    the run that the decoder returns, frame by frame and as a bundle. *)

From Stdlib Require Import Strings.String Sorted Permutation.
From stdpp Require Import sorting.
From S2P Require Import Prelude Ord Text Types Etag Checksum Completion Layout RunWire RunTypes RunValidate RunEncode RunDecode RunCodec RunFrames RunLoop RunMetadata RunProjections RunRules RunSamples.
Open Scope Z_scope.

(** Limits under which every record and frame count fits its width; the
    default limits are of this kind. *)
Definition decodable_limits (l : IndexRunLimits) : Prop :=
  wf_limits l /\ max_containers l + max_mutations l + 1 <= u32_max.

Definition self_payload_of (run : IndexRun) : IndexRunSelfPayload :=
  match run_self_pack run with
  | None => SelfNone
  | Some pack => SelfPackOf pack
  end.

Definition args_of (run : IndexRun) (limits : IndexRunLimits) (role : IndexRunFrameRole)
    (records : list PreparedRecord) : PackArgs := {|
  pa_role := role;
  pa_sequence := run_sequence run;
  pa_mutation_count := len (run_mutations run);
  pa_self_payload := self_payload_of run;
  pa_namespace_key_count := len (namespace_key_ids_of (run_mutations run));
  pa_record_count := len records;
  pa_limits := limits |}.

Definition pack_role (run : IndexRun) (limits : IndexRunLimits) (role : IndexRunFrameRole)
    (records : list PreparedRecord) : result IndexRunError (list EncodedIndexRunFrame) :=
  pack_prepared_frames role (run_sequence run) (len (run_mutations run)) (self_payload_of run)
    (len (namespace_key_ids_of (run_mutations run))) records limits.

Lemma namespace_order_perm l : Permutation l (namespace_order l).
Proof. apply sort_by_key_perm. Qed.

Lemma listing_order_perm l : Permutation l (listing_order l).
Proof. apply sort_by_key_perm. Qed.

(** Consecutive records come from consecutive items. *)
Lemma map_split3 {A B} (f : A -> B) items l1 seg l2 :
  map f items = l1 ++ seg ++ l2 ->
  exists i1 i2 i3, items = i1 ++ i2 ++ i3 /\ l1 = map f i1 /\ seg = map f i2.
Proof.
  intros (i1 & i' & -> & <- & (i2 & i3 & -> & <- & <-)%map_eq_app)%map_eq_app. eauto 10.
Qed.

(** ** What a successful encoding establishes *)

Section Encoded.
Context (run : IndexRun) (limits : IndexRunLimits).

Local Abbreviation muts := (run_mutations run).
Local Abbreviation keys := (namespace_key_ids_of (run_mutations run)).

Definition meta_records : list PreparedRecord :=
  map (fun i => PreparedRecord_metadata (enc_item i)) (meta_items run keys).
Definition ns_records : list PreparedRecord := map (ns_record keys) (namespace_order muts).
Definition ls_records : list PreparedRecord := map ls_record (listing_order muts).

Record encoded (out : list EncodedIndexRunFrame) : Prop := {
  en_containers : len (run_containers run) + len (run_standalone_stream_containers run)
                  <= max_containers limits;
  en_mutations : len muts <= max_mutations limits;
  en_count : len muts <= u32_max;
  en_self : validate_self_pack (run_self_pack run) limits = Ok tt;
  en_vc : validate_containers (run_containers run) limits = Ok tt;
  en_vs : validate_standalone_stream_containers (run_standalone_stream_containers run) limits = Ok tt;
  en_distinct : validate_distinct_container_objects (run_containers run)
                  (run_standalone_stream_containers run) = Ok tt;
  en_vm : validate_mutations run limits = Ok tt;
  en_written : Forall (item_written limits) (meta_items run keys);
  en_found : Forall (fun m => is_Some (binary_search keys (mutation_namespace_key_id m))) muts;
  en_frames : exists mf nf lf, out = mf ++ nf ++ lf
    /\ pack_role run limits Metadata meta_records = Ok mf
    /\ pack_role run limits Namespace ns_records = Ok nf
    /\ pack_role run limits Listing ls_records = Ok lf;
  en_total : exists total, total_len 0 (map frame_bytes out) = Ok total
    /\ validate_count "total frame bytes" total (max_total_bytes limits) = Ok tt
}.

Hypothesis W : wf_run run.
Hypothesis L : wf_limits limits.

Lemma wf_muts : Forall wf_mutation muts.
Proof. apply W. Qed.

Lemma wf_keys : Forall wf_name keys.
Proof.
  rewrite Forall_forall. intros k I. unfold namespace_key_ids_of in I.
  rewrite bs_collect_in, in_map_iff in I. destruct I as (m & <- & I).
  pose proof wf_muts as F. rewrite Forall_forall in F. specialize (F m I). destruct m; apply F.
Qed.

Lemma prepare_namespace_Ok l rs :
  Forall wf_mutation l -> try_map (prepare_namespace limits keys) l = Ok rs ->
  rs = map (ns_record keys) l
  /\ Forall (fun m => is_Some (binary_search keys (mutation_namespace_key_id m))) l.
Proof.
  intros F T. eapply try_map_Ok in T; [exact T|exact F|]. intros m r Wm E.
  unfold prepare_namespace in E. inv_bind.
  match goal with H : encode_namespace_record _ _ _ = Ok _ |- _ =>
    apply namespace_record_Ok in H as (n & B & -> & _); [|done|done] end.
  unfold ns_record, key_ordinal. rewrite B. eauto.
Qed.

Lemma prepare_listing_Ok l rs :
  Forall wf_mutation l -> try_map (prepare_listing limits) l = Ok rs -> rs = map ls_record l.
Proof.
  intros F T. eapply (try_map_Ok _ _ _ _ ls_record (fun _ => True)) in T as [-> _]; [done|exact F|].
  intros m r Wm E. unfold prepare_listing in E. inv_bind.
  match goal with H : encode_listing_record _ _ = Ok _ |- _ =>
    apply listing_record_Ok in H as [-> _]; done end.
Qed.

Lemma encode_facts enc : encode_index_run_frames run limits = Ok enc -> encoded (frames enc).
Proof.
  intros E. unfold encode_index_run_frames in E. fold (self_payload_of run) in E. inv_bind.
  repeat match goal with H : add _ _ = Ok _ |- _ => apply add_Ok in H as [-> ?] end.
  match goal with H : encode_metadata_records _ _ _ = Ok _ |- _ =>
    apply (encode_metadata_Ok _ _ _ _ L W wf_keys) in H as [-> Wr] end.
  match goal with H : try_map (prepare_namespace _ _) _ = Ok _ |- _ =>
    apply prepare_namespace_Ok in H as [-> Fk] end; [|by rewrite <- namespace_order_perm; apply wf_muts].
  match goal with H : try_map (prepare_listing _) _ = Ok _ |- _ =>
    apply prepare_listing_Ok in H as -> end; [|by rewrite <- listing_order_perm; apply wf_muts].
  rewrite <- namespace_order_perm in Fk.
  match goal with H : total_len 0 _ = Ok ?t, H' : validate_count "total frame bytes" ?t _ = Ok _ |- _ =>
    pose proof (ex_intro _ t (conj H H') : exists total, _ /\ _) as T; clear H' end.
  wire_facts. split; try done.
  do 3 eexists. by split_and!.
Qed.
End Encoded.

(** ** Reading the roles back *)

Section Decoding.
Context (run : IndexRun) (limits : IndexRunLimits) (out : list EncodedIndexRunFrame).
Hypothesis W : wf_run run.
Hypothesis D : decodable_limits limits.
Hypothesis En : encoded run limits out.

Local Abbreviation muts := (run_mutations run).
Local Abbreviation keys := (namespace_key_ids_of (run_mutations run)).
Local Abbreviation args := (args_of run limits).

Lemma keys_count : len keys <= len muts.
Proof.
  unfold len, namespace_key_ids_of. pose proof (bs_collect_length (map mutation_namespace_key_id muts)) as B.
  rewrite length_map in B. lia.
Qed.

Lemma wf_args_of role records : wf_args (args role records).
Proof.
  pose proof (en_count _ _ _ En). destruct W as (_ & Ws & Wp & _). unfold wf_args, is_u32. simpl.
  pose proof (len_nonneg muts). pose proof (len_nonneg keys). pose proof (len_nonneg records).
  split_and!; try done; [|apply D]. unfold self_payload_of. destruct (run_self_pack run); simpl; [|done].
  by apply Wp.
Qed.

Lemma pack_role_Ok role records fs :
  pack_role run limits role records = Ok fs ->
  (records = [] /\ role <> Metadata /\ fs = [])
  \/ exists ss, frames_of (args role records) 0 ss fs /\ records = concat ss /\ ss <> []
       /\ len ss <= Z.max 1 (len records).
Proof.
  intros E. unfold pack_role, pack_prepared_frames in E. destruct (_ && _) eqn:Z.
  - left. inv_bind. b2p. destruct records; [done|rewrite len_cons in *; pose proof (len_nonneg records); lia].
  - right. apply pack_loop_Ok in E as (ss & fs' & -> & Ec & F & Ne & B); [by eauto 10|apply wf_args_of|].
    simpl. intros Z0. destruct records; [done|]. rewrite len_cons in Z0. pose proof (len_nonneg records). lia.
Qed.

(** The mutations are numbered by their ordinals. *)
Lemma loop_facts :
  map ordinal muts = seqZ 0 (len muts) /\ Forall (mutation_valid run limits) muts
  /\ validate_container_use (length (run_containers run)) (used_containers (use_all muts no_use))
       (uses_self (use_all muts no_use)) (run_self_pack run) = Ok tt
  /\ validate_standalone_stream_container_use (length (run_standalone_stream_containers run))
       (used_streams (use_all muts no_use)) = Ok tt
  /\ validate_repeated_record_facts muts = Ok tt
  /\ validate_completion_receipt run = Ok tt.
Proof.
  pose proof (en_vm _ _ _ En) as V. unfold validate_mutations in V. inv_bind.
  match goal with H : validate_mutations_loop _ _ _ _ _ = Ok _ |- _ =>
    apply validate_mutations_loop_Ok in H as (? & _ & ? & ->) end.
  by split_and!.
Qed.

Lemma slots_seq : map slot_of muts = seq 0 (length muts).
Proof.
  unfold slot_of. rewrite <- map_map, (proj1 loop_facts). unfold seqZ, len.
  rewrite Nat2Z.id. induction (seq 0 (length muts)) as [|i l IH]; [done|].
  cbn [fmap list_fmap map]. f_equal; [lia|exact IH].
Qed.

Lemma slots_nodup l : Permutation muts l -> NoDup (map slot_of l).
Proof. intros P. rewrite <- P, slots_seq. apply NoDup_seq. Qed.

Lemma slot_lt m : In m muts -> (slot_of m < length muts)%nat.
Proof. intros I. apply (in_map slot_of) in I. rewrite slots_seq, in_seq in I. lia. Qed.

Lemma order_in_order {K} `{OrdLaws K} (key : IndexMutation -> K) (f : K -> nat) :
  (forall m, f (key m) = slot_of m) -> in_order key (sort_by_key key muts).
Proof.
  intros Hf. split; [|apply slots_nodup, sort_by_key_perm]. apply sort_by_key_strict.
  apply (NoDup_fmap_1 f). change (NoDup (map f (map key muts))). rewrite map_map.
  rewrite (map_ext _ slot_of) by done. by apply slots_nodup.
Qed.

Lemma ns_in_order : in_order ns_key (namespace_order muts).
Proof. by apply (order_in_order ns_key (fun k => Z.to_nat k.2)). Qed.

Lemma ls_in_order : in_order ls_key (listing_order muts).
Proof. by apply (order_in_order ls_key (fun k => Z.to_nat k.2)). Qed.

Lemma role_fits role records limit :
  role_record_limit role limits = Ok limit -> len records <= limit <= u64_max ->
  forall i (seg : list PreparedRecord), len seg <= len records ->
  facts_fit (pa_limits (args role records)) (facts_at (args role records) i (len seg)).
Proof.
  intros El B i seg Ls. split; [exists limit; simpl; split_and!; [done|lia..]|].
  split; [simpl; pose proof keys_count; pose proof (en_mutations _ _ _ En); lia|].
  simpl. pose proof (en_self _ _ _ En) as Vs. unfold self_payload_of.
  by destruct (run_self_pack run).
Qed.

Lemma meta_count : len (meta_records run) <= max_containers limits + max_mutations limits + 1.
Proof.
  unfold meta_records, meta_items, len.
  rewrite !length_map, !length_app, !length_map. pose proof keys_count. pose proof (en_containers _ _ _ En).
  pose proof (en_mutations _ _ _ En).
  assert (length (receipts_of (run_completion_receipt run)) <= 1)%nat
    by (destruct (run_completion_receipt run); simpl; lia).
  unfold len in *. lia.
Qed.

Lemma meta_limit : role_record_limit Metadata limits = Ok (max_containers limits + max_mutations limits + 1).
Proof.
  destruct D as [L B]. unfold role_record_limit. rewrite bool_decide_true by done. unfold wf_limits, is_u64 in L.
  assert (add (max_containers limits) (max_mutations limits)
          = Ok (max_containers limits + max_mutations limits)) as -> by (apply add_Ok; lia).
  apply add_Ok. lia.
Qed.

(** *** Metadata *)

Definition at_meta (n : nat) : IndexRunFrameDecoder := {|
  d_metadata := push_items (meta_start (run_self_pack run) (len keys)) (take n (meta_items run keys));
  d_namespace := d_namespace IndexRunFrameDecoder_default;
  d_listing := d_listing IndexRunFrameDecoder_default |}.

Lemma reads_meta_frame ms ms' i i1 seg i3 d :
  meta_items run keys = i1 ++ seg ++ i3 ->
  records_fit (args Metadata (meta_records run)) [] (map (fun i => PreparedRecord_metadata (enc_item i)) seg) ->
  accept_metadata_facts ms (header_of (facts_at (args Metadata (meta_records run)) i (len seg))) = Ok ms' ->
  ms' = push_items (meta_start (run_self_pack run) (len keys)) i1 ->
  d_metadata d = ms ->
  reads (decode_role_records d (header_of (facts_at (args Metadata (meta_records run)) i (len seg))) limits)
    (enc_records [] (map (fun i => PreparedRecord_metadata (enc_item i)) seg))
    {| d_metadata := push_items ms' seg; d_namespace := d_namespace d; d_listing := d_listing d |}.
Proof.
  intros E F A Es Ed. cbn [decode_role_records header_of facts_at h_role fe_role args_of pa_role].
  unfold decode_role_records. cbn [header_of facts_at h_role fe_role args_of pa_role].
  rewrite enc_records_meta, Ed.
  eapply reads_bind_end; [|apply reads_ret]. unfold decode_metadata.
  eapply reads_bind_nil; [apply reads_lift, A|].
  cbn [header_of facts_at h_frame_record_count fe_frame_record_count]. unfold len. rewrite Nat2Z.id.
  apply reads_items; [|by apply records_fit_meta in F].
  pose proof (meta_items_ok limits run keys (proj1 D) (en_containers _ _ _ En) (en_vc _ _ _ En)
    (en_vs _ _ _ En)) as O. rewrite E, items_ok_app, items_ok_app, <- Es in O. apply O.
  - apply bs_to_list_sorted, bs_collect_wf.
  - rewrite <- E. apply (en_written _ _ _ En).
Qed.

Lemma decode_meta_role mf :
  pack_role run limits Metadata (meta_records run) = Ok mf ->
  exists k, decode_frames_loop FrameLoop_start (map frame_bytes mf) limits
    = Ok (loop_at (args Metadata (meta_records run)) k (len (meta_records run))
            (at_meta (length (meta_records run))) (Some (len (meta_records run)))).
Proof.
  intros E. apply pack_role_Ok in E as [(_ & N & _)|(ss & F & Er & Ne & Ls)]; [done|].
  pose proof meta_count. pose proof meta_limit. pose proof (proj2 D). pose proof keys_count.
  assert (len keys <= len (meta_records run)).
  { unfold meta_records, meta_items, len. rewrite length_map, !length_app, !length_map. lia. }
  exists (len ss).
  apply (decode_role_all (args Metadata (meta_records run)) at_meta (meta_records run) ss mf
            FrameLoop_start IndexRunFrameDecoder_default None); simpl; try done; try lia.
  - apply wf_args_of.
  - constructor; [done|apply (en_mutations _ _ _ En)].
  - apply (role_fits _ _ (max_containers limits + max_mutations limits + 1)); [done|lia].
  - intros seg l2 E Ft. apply (map_split3 _ _ []) in E as (i1 & i2 & i3 & Ei & Z & ->).
    destruct i1; [|done]. cbn [app] in Ei. unfold at_meta. rewrite length_map, Ei, take_app_length.
    rewrite len_map.
    eapply (reads_meta_frame _ _ 0 [] i2 i3 IndexRunFrameDecoder_default); try done.
    rewrite accept_facts_first; try done. simpl. unfold self_payload_of. by destruct (run_self_pack run).
  - intros i l1 seg l2 E Ft. apply map_split3 in E as (i1 & i2 & i3 & Ei & -> & ->).
    unfold at_meta. rewrite length_app, !length_map, <- length_app, Ei.
    rewrite take_app_length, (app_assoc i1), take_app_length, push_items_app, len_map.
    match goal with |- reads (decode_role_records ?d _ _) _ _ =>
      eapply (reads_meta_frame _ _ i i1 i2 i3 d); try done end.
    destruct (push_items_facts (meta_start (run_self_pack run) (len keys)) i1) as (P1 & P2 & P3).
    apply accept_facts_again; try done. rewrite P3. simpl. unfold self_payload_of. by destruct (run_self_pack run).
Qed.

(** *** Namespace *)

Definition no_slots : NamespaceState := {|
  ns_slots := replicate (length muts) None; ns_previous_key := None; ns_used := no_use;
  ns_used_keys := []; ns_saw := true |}.

Definition no_listings : ListingState :=
  {| ls_mutations := replicate (length muts) None; ls_previous_key := None; ls_saw := false |}.

Definition at_ns (n : nat) : IndexRunFrameDecoder := {|
  d_metadata := meta_end run keys;
  d_namespace := put_namespaces keys (take n (namespace_order muts)) no_slots;
  d_listing := no_listings |}.

Lemma at_meta_end :
  at_meta (length (meta_records run)) = {| d_metadata := meta_end run keys;
    d_namespace := d_namespace IndexRunFrameDecoder_default;
    d_listing := d_listing IndexRunFrameDecoder_default |}.
Proof. unfold at_meta, meta_records. by rewrite length_map, take_ge. Qed.

Lemma no_slots_ready : ns_ready no_slots (namespace_order muts).
Proof.
  unfold ns_ready. rewrite Forall_forall. intros m I. split; [done|].
  apply (Permutation_in _ (Permutation_sym (namespace_order_perm muts))), slot_lt in I.
  by apply lookup_replicate_2.
Qed.

Lemma key_ordinal_Ok m :
  In m muts -> is_u32 (key_ordinal keys m)
  /\ keys !! Z.to_nat (key_ordinal keys m) = Some (mutation_namespace_key_id m).
Proof.
  intros I. pose proof (en_found _ _ _ En) as F. rewrite Forall_forall in F.
  destruct (F m I) as [n B]. unfold key_ordinal. rewrite B. simpl.
  apply position_Some in B as [R G]. rewrite Z.sub_0_r in G. split; [|done].
  pose proof keys_count. pose proof (en_count _ _ _ En). unfold is_u32. lia.
Qed.

Lemma all_ns_readable l : incl l muts -> Forall (ns_readable (meta_end run keys) keys) l.
Proof.
  intros S. rewrite Forall_forall. intros m I%S. destruct (key_ordinal_Ok m I).
  destruct (meta_end_fields run keys) as (_ & Es & Ec & Est & Ek & _).
  pose proof (proj2 (proj2 (proj2 (proj2 (proj2 W))))) as Wm. rewrite Forall_forall in Wm.
  destruct loop_facts as (_ & V & _). rewrite Forall_forall in V. specialize (V m I).
  unfold ns_readable. rewrite Ek. split_and!; [by apply Wm|done|done|].
  unfold payload_valid. rewrite Es, Ec, Est. destruct m; [|done]. split_and!; apply V.
Qed.

Lemma order_segment {order : list IndexMutation} {l1 seg l3} :
  Permutation muts order -> order = l1 ++ seg ++ l3 -> incl seg muts.
Proof.
  intros P E m I. apply (Permutation_in _ (Permutation_sym P)). rewrite E, !in_app_iff. auto.
Qed.

Lemma reads_ns_frame i l1 seg l3 d :
  namespace_order muts = l1 ++ seg ++ l3 ->
  records_fit (args Namespace (ns_records run)) [] (map (ns_record keys) seg) ->
  d_metadata d = meta_end run keys ->
  (l1 = [] /\ d = at_meta (length (meta_records run)) \/ d = at_ns (length l1)) ->
  reads (decode_role_records d (header_of (facts_at (args Namespace (ns_records run)) i (len seg))) limits)
    (enc_records [] (map (ns_record keys) seg)) (at_ns (length (l1 ++ seg))).
Proof.
  intros E F Em Ed. unfold decode_role_records. cbn [header_of facts_at h_role fe_role args_of pa_role].
  unfold decode_namespace. rewrite Em. destruct (meta_end_fields run keys) as (_ & _ & _ & _ & Ek & De).
  eapply reads_bind_nil; [apply reads_lift; by rewrite De|].
  eapply reads_bind_nil; [apply reads_lift; by rewrite Ek, Z.eqb_refl|].
  eapply reads_bind_nil.
  { apply reads_lift. simpl. unfold ns_records. rewrite len_map. unfold len, namespace_order.
    by rewrite sort_by_key_length, Z.eqb_refl. }
  cbn [header_of facts_at h_frame_record_count h_mutation_count fe_mutation_count
       fe_frame_record_count args_of pa_mutation_count]. unfold len. rewrite !Nat2Z.id.
  match goal with |- reads (let '(_, _) := ?x in _) _ _ =>
    assert (x = (d_namespace (at_ns (length l1)), no_listings)) as -> end.
  { destruct Ed as [[-> ->]| ->].
    - rewrite at_meta_end. simpl. by rewrite !resize_nil.
    - simpl. by rewrite put_namespaces_saw. }
  pose proof ns_in_order as O. rewrite E in O. pose proof no_slots_ready as R. rewrite E in R.
  simpl. rewrite E, take_app_length. unfold at_ns.
  eapply (reads_bind_end _ _ _ (put_namespaces keys seg (put_namespaces keys l1 no_slots))).
  - apply (reads_namespaces (args Namespace (ns_records run))); try done.
    + eapply all_ns_readable, (order_segment (namespace_order_perm muts)), E.
    + by apply in_order_app_r, in_order_app_l in O.
    + apply (ns_ready_puts keys) in R; [|done]. unfold ns_ready in *. by rewrite Forall_app in R; apply R.
  - rewrite E, (app_assoc l1), take_app_length. unfold put_namespaces. rewrite <- fold_left_app. apply reads_ret.
Qed.

(** The number of frames of a projection role. *)
Lemma few_frames (ss : list (list PreparedRecord)) n :
  n <= len muts -> len ss <= Z.max 1 n -> len ss <= u32_max.
Proof. pose proof (en_count _ _ _ En). lia. Qed.

Lemma decode_ns_role nf k mt :
  muts <> [] -> pack_role run limits Namespace (ns_records run) = Ok nf ->
  exists k', decode_frames_loop
      (loop_at (args Metadata (meta_records run)) k (len (meta_records run))
         (at_meta (length (meta_records run))) mt) (map frame_bytes nf) limits
    = Ok (loop_at (args Namespace (ns_records run)) k' (len (ns_records run))
            (at_ns (length (ns_records run))) mt).
Proof.
  intros Nm E. assert (len (ns_records run) = len muts) as Ln.
  { unfold ns_records, namespace_order. rewrite len_map. unfold len. by rewrite sort_by_key_length. }
  apply pack_role_Ok in E as [(Z & _)|(ss & F & Er & Ne & Ls)].
  { rewrite Z, len_nil in Ln. destruct muts; [done|]. rewrite len_cons in Ln. pose proof (len_nonneg l). lia. }
  pose proof (en_mutations _ _ _ En). pose proof (en_count _ _ _ En).
  exists (len ss).
  apply (decode_role_all (args Namespace (ns_records run)) at_ns (ns_records run) ss nf
            _ (at_meta (length (meta_records run))) mt); simpl; try done.
  - apply wf_args_of.
  - lia.
  - by apply (before_next (args Namespace (ns_records run)) (args Metadata (meta_records run))).
  - apply (role_fits _ _ (max_mutations limits)); [done|]. pose proof (proj1 D) as L.
    unfold wf_limits, is_u64 in L. lia.
  - intros seg l2 E Ft. apply (map_split3 _ _ []) in E as (i1 & i2 & i3 & Ei & Z & ->).
    destruct i1; [|done]. rewrite length_map, len_map.
    eapply (reads_ns_frame 0 [] i2 i3); try done; [by rewrite at_meta_end|by left].
  - intros i l1 seg l2 E Ft. apply map_split3 in E as (i1 & i2 & i3 & Ei & -> & ->).
    rewrite <- map_app, !length_map, len_map. eapply reads_ns_frame; try done. by right.
  - eapply few_frames; [|exact Ls]. lia.
Qed.

(** *** Listing *)

Definition ns_end : NamespaceState := put_namespaces keys (namespace_order muts) no_slots.

Definition ls_start : Slots * ListingState :=
  (ns_slots ns_end,
   {| ls_mutations := replicate (length muts) None; ls_previous_key := None; ls_saw := true |}).

Definition at_ls (n : nat) : IndexRunFrameDecoder :=
  let s := put_listings (take n (listing_order muts)) ls_start in {|
  d_metadata := meta_end run keys;
  d_namespace := {| ns_slots := s.1; ns_previous_key := ns_previous_key ns_end;
                    ns_used := ns_used ns_end; ns_used_keys := ns_used_keys ns_end;
                    ns_saw := ns_saw ns_end |};
  d_listing := s.2 |}.

Lemma at_ns_end :
  at_ns (length (ns_records run)) = {| d_metadata := meta_end run keys; d_namespace := ns_end;
                                       d_listing := no_listings |}.
Proof. unfold at_ns, ns_records. by rewrite length_map, take_ge. Qed.

Lemma ls_start_ready : ls_ready ls_start (listing_order muts).
Proof.
  unfold ls_ready. rewrite Forall_forall. intros m I.
  apply (Permutation_in _ (Permutation_sym (listing_order_perm muts))) in I.
  pose proof (slot_lt m I). simpl. split_and!; [done|by apply lookup_replicate_2|].
  unfold ns_end. rewrite put_namespaces_slots. apply (fill_in (fun m => Some (ns_of m))).
  - apply slots_nodup, namespace_order_perm.
  - apply list_elem_of_In. by rewrite <- namespace_order_perm.
  - simpl. by rewrite length_replicate.
Qed.

Lemma all_ls_readable l : incl l muts -> Forall (ls_readable limits) l.
Proof.
  intros S. rewrite Forall_forall. intros m I%S.
  pose proof (proj2 (proj2 (proj2 (proj2 (proj2 W))))) as Wm. rewrite Forall_forall in Wm.
  destruct loop_facts as (_ & V & _). rewrite Forall_forall in V. destruct (V m I) as (_ & B & _).
  pose proof (proj1 D) as L. unfold wf_limits, is_u64 in L. split_and!; [by apply Wm|lia|done].
Qed.

Lemma reads_ls_frame i l1 seg l3 d :
  listing_order muts = l1 ++ seg ++ l3 ->
  records_fit (args Listing (ls_records run)) [] (map ls_record seg) ->
  (l1 = [] /\ d = at_ns (length (ns_records run)) \/ d = at_ls (length l1)) ->
  reads (decode_role_records d (header_of (facts_at (args Listing (ls_records run)) i (len seg))) limits)
    (enc_records [] (map ls_record seg)) (at_ls (length (l1 ++ seg))).
Proof.
  intros E F Ed. unfold decode_role_records. cbn [header_of facts_at h_role fe_role args_of pa_role].
  unfold decode_listing.
  eapply reads_bind_nil.
  { apply reads_lift. simpl. unfold ls_records. rewrite len_map. unfold len, listing_order.
    by rewrite sort_by_key_length, Z.eqb_refl. }
  cbn [header_of facts_at h_frame_record_count fe_frame_record_count]. unfold len. rewrite Nat2Z.id.
  pose proof ls_in_order as O. rewrite E in O. pose proof ls_start_ready as R. rewrite E in R.
  set (s1 := put_listings l1 ls_start).
  match goal with |- reads (mbind (decode_listing_loop _ _ _ ?ls _) _) _ _ => assert (ls = s1.2) as -> end.
  { destruct Ed as [[-> ->]| ->]; [by rewrite at_ns_end|]. unfold at_ls, s1. simpl.
    rewrite E, take_app_length. pose proof (put_listings_saw l1 ls_start) as Sw.
    destruct ((put_listings l1 ls_start).2). simpl in *. by rewrite Sw. }
  assert (ns_slots (d_namespace d) = s1.1) as ->.
  { destruct Ed as [[-> ->]| ->]; [by rewrite at_ns_end|]. unfold at_ls, s1. simpl.
    by rewrite E, take_app_length. }
  eapply (reads_bind_end _ _ _ (put_listings seg s1)).
  - apply (reads_listings (args Listing (ls_records run))); try done.
    + eapply all_ls_readable, (order_segment (listing_order_perm muts)), E.
    + by apply in_order_app_r, in_order_app_l in O.
    + apply ls_ready_puts in R; [|done]. unfold ls_ready in *. by rewrite Forall_app in R; apply R.
  - unfold at_ls. rewrite E, (app_assoc l1), take_app_length. unfold s1, put_listings.
    rewrite <- fold_left_app. destruct (fold_left _ _ _) eqn:Ef.
    destruct Ed as [[-> ->]| ->]; [rewrite at_ns_end|]; simpl; apply reads_ret.
Qed.

Lemma decode_ls_role lf k mt :
  muts <> [] -> pack_role run limits Listing (ls_records run) = Ok lf ->
  exists k', decode_frames_loop
      (loop_at (args Namespace (ns_records run)) k (len (ns_records run))
         (at_ns (length (ns_records run))) mt) (map frame_bytes lf) limits
    = Ok (loop_at (args Listing (ls_records run)) k' (len (ls_records run))
            (at_ls (length (ls_records run))) mt).
Proof.
  intros Nm E. assert (len (ls_records run) = len muts) as Ln.
  { unfold ls_records, listing_order. rewrite len_map. unfold len. by rewrite sort_by_key_length. }
  apply pack_role_Ok in E as [(Z & _)|(ss & F & Er & Ne & Ls)].
  { rewrite Z, len_nil in Ln. destruct muts; [done|]. rewrite len_cons in Ln. pose proof (len_nonneg l). lia. }
  pose proof (en_mutations _ _ _ En). pose proof (en_count _ _ _ En).
  exists (len ss).
  apply (decode_role_all (args Listing (ls_records run)) at_ls (ls_records run) ss lf
            _ (at_ns (length (ns_records run))) mt); simpl; try done.
  - apply wf_args_of.
  - lia.
  - by apply (before_next (args Listing (ls_records run)) (args Namespace (ns_records run))).
  - apply (role_fits _ _ (max_mutations limits)); [done|]. pose proof (proj1 D) as L.
    unfold wf_limits, is_u64 in L. lia.
  - intros seg l2 E Ft. apply (map_split3 _ _ []) in E as (i1 & i2 & i3 & Ei & Z & ->).
    destruct i1; [|done]. rewrite length_map, len_map.
    eapply (reads_ls_frame 0 [] i2 i3); try done. by left.
  - intros i l1 seg l2 E Ft. apply map_split3 in E as (i1 & i2 & i3 & Ei & -> & ->).
    rewrite <- map_app, !length_map, len_map. eapply reads_ls_frame; try done. by right.
  - eapply few_frames; [|exact Ls]. lia.
Qed.

(** *** The end of the frames *)

Definition keys_used (l : list IndexMutation) (used : BTreeSet Z) : BTreeSet Z :=
  fold_left (fun used m => bs_add (key_ordinal keys m) used) l used.

Lemma keys_used_in l used i :
  bs_mem i used = true \/ Exists (fun m => key_ordinal keys m = i) l -> bs_mem i (keys_used l used) = true.
Proof.
  revert used. induction l as [|m l IH]; intros used H; simpl.
  - destruct H as [H|H]; [done|by apply Exists_nil in H].
  - apply IH. rewrite bs_mem_add. rewrite Exists_cons in H. naive_solver.
Qed.

Lemma every_key_used :
  validate_namespace_key_use (length keys) (keys_used (namespace_order muts) []) = Ok tt.
Proof.
  apply validate_use_Ok. intros i B. pose proof keys_count. pose proof (en_count _ _ _ En).
  split; [unfold len in *; lia|]. apply keys_used_in. right. rewrite <- namespace_order_perm.
  destruct (lookup_lt_is_Some_2 keys (Z.to_nat i) ltac:(lia)) as [k G].
  pose proof (list_elem_of_lookup_2 _ _ _ G) as I. apply list_elem_of_In in I.
  unfold namespace_key_ids_of in I. rewrite bs_collect_in, in_map_iff in I. destruct I as (m & Ek & I).
  apply Exists_exists. exists m. split; [done|].
  destruct (key_ordinal_Ok m I) as [U G']. rewrite Ek in G'.
  assert (NoDup keys) as N by apply sorted_NoDup, bs_to_list_sorted, bs_collect_wf.
  pose proof (NoDup_lookup _ _ _ _ N G G'). unfold is_u32 in U. lia.
Qed.

Lemma meta_records_count :
  len (meta_records run)
  = len (run_containers run) + len (run_standalone_stream_containers run) + len keys
    + match run_completion_receipt run with Some _ => 1 | None => 0 end.
Proof.
  unfold meta_records, meta_items, len. rewrite length_map, !length_app, !length_map.
  destruct (run_completion_receipt run); simpl; lia.
Qed.

Lemma finish_Ok d :
  d_metadata d = meta_end run keys ->
  ns_saw (d_namespace d) = negb (len muts =? 0) -> ls_saw (d_listing d) = negb (len muts =? 0) ->
  ns_used (d_namespace d) = use_all (namespace_order muts) no_use ->
  ns_used_keys (d_namespace d) = keys_used (namespace_order muts) [] ->
  ls_mutations (d_listing d) = map Some muts ->
  decoder_finish d (run_sequence run) (len muts) (Some (len (meta_records run))) = Ok run.
Proof.
  intros Em Sn Sl Eu Ek El. unfold decoder_finish. rewrite Em, Sn, Sl, Eu, Ek, El.
  destruct (meta_end_fields run keys) as (-> & -> & -> & -> & -> & ->).
  destruct loop_facts as (_ & _ & Vc & Vs & Vr & Vx).
  destruct (use_all_perm _ _ (namespace_order_perm muts)) as (Us & Uc & Ut).
  pose proof meta_count. pose proof (proj2 D). pose proof meta_records_count as Mc.
  pose proof (len_nonneg (run_containers run)). pose proof (len_nonneg (run_standalone_stream_containers run)).
  pose proof (len_nonneg keys). pose proof (len_nonneg muts). pose proof (en_count _ _ _ En).
  assert (forall b, ((len muts >? 0) && (negb (negb (len muts =? 0)) || negb (negb (len muts =? 0)))) = b -> b = false) as Z1.
  { intros b <-. destruct (len muts =? 0) eqn:Z; b2p; [by rewrite Z|apply andb_false_r]. }
  rewrite (Z1 _ eq_refl). cbn [reject_if rbind].
  assert (((len muts =? 0) && (negb (len muts =? 0) || negb (len muts =? 0))) = false) as ->
    by (by destruct (len muts =? 0)).
  cbn [reject_if rbind ok_or]. rewrite Z.eqb_refl. cbn [negb reject_if rbind].
  do 3 (match goal with |- context [add ?x ?y] =>
    rewrite (proj2 (add_Ok x y (x + y))) by (split; [done|destruct (run_completion_receipt run); lia]) end;
    cbn [rbind]).
  rewrite <- Mc, Z.eqb_refl. cbn [ok_or rbind negb reject_if].
  rewrite (en_distinct _ _ _ En). cbn [rbind].
  unfold validate_container_use in *. rewrite <- Us.
  rewrite (validate_use_ext _ _ _ _ (used_containers (use_all muts no_use))) by (intros; by rewrite Uc).
  rewrite Vc. cbn [rbind]. unfold validate_standalone_stream_container_use in *.
  rewrite (validate_use_ext _ _ _ _ (used_streams (use_all muts no_use))) by (intros; by rewrite Ut).
  rewrite Vs, every_key_used. cbn [rbind]. rewrite ordered_mutations_Ok by lia. cbn [rbind].
  rewrite Vr. cbn [rbind]. destruct run. cbn in *. by rewrite Vx.
Qed.

Lemma filled : fill Some (listing_order muts) (replicate (length muts) None) = map Some muts.
Proof.
  apply list_eq. intros i. destruct (decide (i < length muts)%nat) as [Li|Li].
  - destruct (lookup_lt_is_Some_2 muts i Li) as [m G].
    assert (slot_of m = i) as <-.
    { pose proof (f_equal (lookup i) slots_seq) as E.
      change (map slot_of muts) with (slot_of <$> muts) in E.
      rewrite list_lookup_fmap, G, lookup_seq_lt in E by done. simpl in E. congruence. }
    rewrite fill_in; [|apply slots_nodup, listing_order_perm| |by rewrite length_replicate].
    + change (map Some muts) with (Some <$> muts). by rewrite list_lookup_fmap, G.
    + rewrite <- listing_order_perm. by eapply list_elem_of_lookup_2.
  - rewrite !lookup_ge_None_2; [done|rewrite length_map; lia|rewrite length_fill, length_replicate; lia].
Qed.

Lemma decode_frames_app s l1 l2 s' :
  decode_frames_loop s l1 limits = Ok s' ->
  decode_frames_loop s (l1 ++ l2) limits = decode_frames_loop s' l2 limits.
Proof. revert s. induction l1 as [|f l1 IH]; intros s E; simpl in *; inv_bind; [done|by apply IH]. Qed.

Lemma out_nonempty : len (map frame_bytes out) <> 0.
Proof.
  destruct (en_frames _ _ _ En) as (mf & nf & lf & Eo & Pm & _). rewrite len_map, Eo, len_app.
  apply pack_role_Ok in Pm as [(_ & ? & _)|(ss & F & _ & Ne & _)]; [done|].
  destruct ss, mf; try done. rewrite len_cons.
  pose proof (len_nonneg mf). pose proof (len_nonneg (nf ++ lf)). lia.
Qed.

(** The loop ends in a state from which [decoder_finish] returns the run. *)
Lemma decode_out :
  exists a k d, decode_frames_loop FrameLoop_start (map frame_bytes out) limits
    = Ok (loop_at a k (pa_record_count a) d (Some (len (meta_records run))))
    /\ pa_sequence a = run_sequence run /\ pa_mutation_count a = len muts
    /\ decoder_finish d (run_sequence run) (len muts) (Some (len (meta_records run))) = Ok run.
Proof.
  destruct (en_frames _ _ _ En) as (mf & nf & lf & Eo & Pm & Pn & Pl). rewrite Eo, !map_app.
  apply decode_meta_role in Pm as [k Pm]. rewrite (decode_frames_app _ _ _ _ Pm). clear Pm.
  destruct (decide (muts = [])) as [Z|Nm].
  - unfold ns_records, ls_records in *. rewrite Z in Pn, Pl.
    unfold pack_role, pack_prepared_frames in Pn, Pl. simpl in Pn, Pl.
    assert (nf = [] /\ lf = []) as [-> ->] by (split; congruence).
    exists (args Metadata (meta_records run)), k. eexists. split_and!; [reflexivity|done|done|].
    rewrite at_meta_end. apply finish_Ok; simpl; by rewrite ?Z.
  - apply (decode_ns_role _ k (Some (len (meta_records run)))) in Pn as [k' Pn]; [|done].
    rewrite (decode_frames_app _ _ _ _ Pn). clear Pn.
    apply (decode_ls_role _ k' (Some (len (meta_records run)))) in Pl as [k'' Pl]; [|done].
    exists (args Listing (ls_records run)), k''. eexists. split_and!; [exact Pl|done|done|].
    assert (negb (len muts =? 0) = true) as Nz.
    { destruct muts as [|m l]; [done|]. rewrite len_cons. pose proof (len_nonneg l).
      rewrite (proj2 (Z.eqb_neq _ _)); [done|lia]. }
    unfold at_ls, ls_records. rewrite length_map, take_ge by done.
    destruct (put_namespaces_used keys (namespace_order muts) no_slots) as [Eu Ek].
    apply finish_Ok; cbn [d_metadata d_namespace d_listing ns_saw ns_used ns_used_keys]; try done.
    + rewrite Nz. apply put_namespaces_saw.
    + rewrite Nz. apply put_listings_saw.
    + rewrite put_listings_mutations. apply filled.
Qed.

Lemma decode_encoded : decode_index_run_frames (map frame_bytes out) limits = Ok run.
Proof.
  destruct (en_total _ _ _ En) as (total & Et & Vt). unfold decode_index_run_frames.
  rewrite Et, (proj2 (Z.eqb_neq _ _) out_nonempty). cbn [reject_if rbind]. rewrite Vt. cbn [rbind].
  destruct decode_out as (a & k & d & -> & Es & Ec & Fin).
  cbn [rbind loop_at fl_role_total fl_role_seen fl_mutation_count fl_sequence fl_decoder
       fl_metadata_total ok_or].
  rewrite Z.eqb_refl. cbn [negb reject_if rbind]. by rewrite Es, Ec.
Qed.

Lemma frames_of_len a i ss fs : frames_of a i ss fs -> len ss = len fs.
Proof.
  revert i fs. induction ss as [|s ss IH]; intros i [|f fs] F; try done.
  destruct F as [_ F]. rewrite !len_cons. by rewrite (IH _ _ F).
Qed.

(** No role takes more frames than records, metadata at least one. *)
Lemma role_frames role records fs :
  pack_role run limits role records = Ok fs ->
  len fs <= len records \/ role = Metadata /\ len fs <= Z.max 1 (len records).
Proof.
  intros E. destruct records as [|r records].
  - destruct (decide (role = Metadata)) as [->|N].
    + right. split; [done|]. apply pack_role_Ok in E as [(_ & ? & _)|(ss & F & _ & _ & Ls)]; [done|].
      by rewrite <- (frames_of_len _ _ _ _ F).
    + left. unfold pack_role, pack_prepared_frames in E. rewrite bool_decide_false in E by done.
      simpl in E. inv_bind. done.
  - left. apply pack_role_Ok in E as [(? & _)|(ss & F & _ & _ & Ls)]; [done|].
    rewrite <- (frames_of_len _ _ _ _ F). rewrite len_cons in *. pose proof (len_nonneg records). lia.
Qed.

Lemma frame_count : len out <= max_mutations limits * 3 + max_containers limits + 1.
Proof.
  destruct (en_frames _ _ _ En) as (mf & nf & lf & Eo & Pm & Pn & Pl). rewrite Eo, !len_app.
  apply role_frames in Pm, Pn, Pl. pose proof meta_count. pose proof (en_mutations _ _ _ En).
  assert (len (ns_records run) = len muts /\ len (ls_records run) = len muts) as [Ln Ll].
  { unfold ns_records, ls_records, namespace_order, listing_order. rewrite !len_map. unfold len.
    by rewrite !sort_by_key_length. }
  pose proof (proj1 D) as L. unfold wf_limits, is_u64 in L.
  destruct Pn as [Pn|[? _]]; [|done]. destruct Pl as [Pl|[? _]]; [|done].
  pose proof (len_nonneg (meta_records run)). lia.
Qed.
End Decoding.

(** ** Bundles *)

Definition enc_bundle (fs : list EncodedIndexRunFrame) : list byte :=
  enc_varint (len fs) ++ flat_map (fun f => framed (frame_bytes f)) fs.

Lemma writes_bundle limits fs :
  0 <= max_frame_bytes limits ->
  writes (bundle_loop limits fs)
    (fun _ enc => enc = flat_map (fun f => framed (frame_bytes f)) fs
       /\ Forall (fun f => len (frame_bytes f) <= u64_max /\ len (frame_bytes f) <= max_frame_bytes limits) fs).
Proof.
  intros L. induction fs as [|f fs IH]; cbn [bundle_loop flat_map].
  { eapply writes_weaken; [apply writes_ret|]. by intros _ e [_ ->]. }
  intros s u s' E. inv_bind.
  match goal with H : Writer.bytes _ _ = Ok _ |- _ => apply writes_bytes in H as (enc & -> & B & ->) end.
  cbn [Writer.new Writer.buffer Writer.maximum app] in *.
  repeat (step_writes; cbv beta in *; destruct_and?; subst). eexists.
  split; [rewrite <- ?app_assoc; reflexivity|split; [rewrite <- ?app_assoc in *; tauto|]].
  cbn [Writer.buffer app] in *. split; [done|]. constructor; [|done]. split; [done|by apply B].
Qed.

Lemma reads_bundle limits fs :
  Forall (fun f => len (frame_bytes f) <= u64_max /\ len (frame_bytes f) <= max_frame_bytes limits) fs ->
  reads (bundle_frames (length fs) limits) (flat_map (fun f => framed (frame_bytes f)) fs)
    (map frame_bytes fs).
Proof.
  induction 1 as [|f fs [U B] F IH]; cbn [length bundle_frames flat_map map]; [apply reads_ret|].
  eapply reads_bind; [by apply reads_record|]. eapply reads_bind_end; [exact IH|apply reads_ret].
Qed.

(** A bundle is read as the frames it holds. *)
Lemma decode_bundle limits fs :
  decodable_limits limits ->
  Forall (fun f => len (frame_bytes f) <= u64_max /\ len (frame_bytes f) <= max_frame_bytes limits) fs ->
  len (enc_bundle fs) <= max_total_bytes limits ->
  len fs <= max_mutations limits * 3 + max_containers limits + 1 ->
  decode_index_run (enc_bundle fs) limits = decode_index_run_frames (map frame_bytes fs) limits.
Proof.
  intros [L Ld] F Lb B. unfold wf_limits, is_u64 in L. unfold decode_index_run.
  rewrite (proj2 (validate_count_Ok _ _ _ tt) Lb). cbn [rbind].
  rewrite (proj2 (checked_mul_Some _ _ _) (conj eq_refl (ltac:(lia) : max_mutations limits * 3 <= u64_max))).
  cbn [ok_or rbind].
  do 2 (match goal with |- context [add ?x ?y] =>
    rewrite (proj2 (add_Ok x y (x + y))) by (split; [done|lia]) end; cbn [rbind]).
  assert (is_u64 (len fs)) as U by (pose proof (len_nonneg fs); unfold is_u64; lia).
  destruct (reads_bounded_count "frame count" _ _ U B
    (Reader.new (enc_bundle fs)) (flat_map (fun f => framed (frame_bytes f)) fs)) as (r & -> & V); [done|].
  cbn [rbind]. unfold len at 1. rewrite Nat2Z.id.
  destruct (reads_bundle limits fs F r []) as (r' & -> & V').
  { unfold view, cursor_run in *. by rewrite app_nil_r. }
  cbn [rbind]. unfold Reader.is_empty. unfold view, cursor_run in V'. by rewrite V'.
Qed.

(** C3: Decoding the frames of an encoded index run gives the run back: every
    run of representable values that [encode_index_run_frames] accepts, under
    limits whose record counts fit 32 bits (the defaults do), is returned by
    [decode_index_run_frames] from the bytes of the frames, in whatever way
    the records were spread over frames. *)
Theorem run_frames_roundtrip run limits enc :
  wf_run run -> decodable_limits limits ->
  encode_index_run_frames run limits = Ok enc ->
  decode_index_run_frames (map frame_bytes (frames enc)) limits = Ok run.
Proof. intros W D E. eapply decode_encoded; eauto. apply encode_facts; [done|apply D|done]. Qed.

(** C17: The bundled encoding of an index run decodes to the run. *)
Theorem run_bundle_roundtrip run limits bs :
  wf_run run -> decodable_limits limits ->
  encode_index_run run limits = Ok bs -> decode_index_run bs limits = Ok run.
Proof.
  intros W D E. unfold encode_index_run in E. inv_bind.
  match goal with H : encode_index_run_frames _ _ = Ok ?e |- _ =>
    apply encode_facts in H; [|done|apply D]; rename H into En; set (fs := frames e) in * end.
  pose proof (frame_count _ _ _ W D En) as B. pose proof D as [L Ld]. unfold wf_limits, is_u64 in L.
  eapply (written_Ok _ _ _ (fun _ enc => enc = enc_bundle fs /\ Forall (fun f => len (frame_bytes f) <= u64_max
    /\ len (frame_bytes f) <= max_frame_bytes limits) fs)) in E as [[-> F] Lb]; [|lia|].
  - rewrite decode_bundle by done. by apply decode_encoded.
  - pose proof (writes_bundle limits fs ltac:(lia)). pose proof (len_nonneg fs). intros s u s' E'. inv_bind. wire_facts.
    repeat (step_writes; cbv beta in *; destruct_and?; subst). eexists.
    split; [rewrite <- ?app_assoc; reflexivity|split; [rewrite <- ?app_assoc in *; tauto|]]. done.
Qed.

Lemma sample_limits_ok : decodable_limits sample_limits.
Proof. repeat split; vm_compute; discriminate. Qed.

Lemma run_frames_roundtrip_witness :
  exists enc, encode_index_run_frames sample_run sample_limits = Ok enc
    /\ len (frames enc) = 4
    /\ decode_index_run_frames (map frame_bytes (frames enc)) sample_limits = Ok sample_run.
Proof.
  eexists. split; [vm_compute; reflexivity|]. split; [vm_compute; reflexivity|].
  apply (run_frames_roundtrip sample_run sample_limits);
    [apply sample_run_wf|apply sample_limits_ok|vm_compute; reflexivity].
Defined.

Lemma run_bundle_roundtrip_witness :
  exists bs, encode_index_run sample_run sample_limits = Ok bs
    /\ decode_index_run bs sample_limits = Ok sample_run.
Proof.
  eexists. split; [vm_compute; reflexivity|].
  apply (run_bundle_roundtrip sample_run sample_limits);
    [apply sample_run_wf|apply sample_limits_ok|vm_compute; reflexivity].
Defined.

(** ** Search bounds *)

(** A frame carries the keys of its first and last mutation. *)
Definition bounds_match (bound : IndexMutation -> IndexRunSearchBound) (seg : list IndexMutation)
    (f : EncodedIndexRunFrame) : Prop :=
  frame_record_count_ f = len seg
  /\ first_bound f = bound <$> hd_error seg /\ last_bound f = bound <$> hd_error (rev seg).

Lemma frames_bounds a i ss fs bound (record : IndexMutation -> PreparedRecord) (order : list IndexMutation) :
  (forall m, prep_bound (record m) = Some (bound m)) ->
  frames_of a i ss fs -> map record order = concat ss ->
  exists segs, concat segs = order /\ Forall2 (bounds_match bound) segs fs.
Proof.
  intros Hb. revert i fs order. induction ss as [|s ss IH]; intros i [|f fs] order F E; try done.
  { exists []. simpl in *. by destruct order. }
  destruct F as [F Fs]. cbn [concat] in E. apply map_eq_app in E as (seg & rest & -> & <- & E).
  destruct (IH _ _ _ Fs E) as (segs & <- & H). exists (seg :: segs). split; [done|]. constructor; [|done].
  destruct F as [_ _ _ _ Ec _ _ [E1 E2]]. unfold bounds_match.
  rewrite Ec, len_map, E1, E2, <- map_rev. split_and!; [done| |].
  - destruct seg; [done|]. cbn. by rewrite Hb.
  - destruct (rev seg); [done|]. cbn. by rewrite Hb.
Qed.

Definition ns_bound (m : IndexMutation) : IndexRunSearchBound :=
  BoundNamespace (mutation_blind_key m) (ordinal m).
Definition ls_bound (m : IndexMutation) : IndexRunSearchBound :=
  BoundListing (mutation_path m) (ordinal m).

Lemma frames_role a i ss fs : frames_of a i ss fs -> Forall (fun f => frame_role f = pa_role a) fs.
Proof.
  revert i fs. induction ss as [|s ss IH]; intros i [|f fs] F; try done. destruct F as [F Fs].
  constructor; [apply F|by eapply IH].
Qed.

Definition role_is (role : IndexRunFrameRole) (f : EncodedIndexRunFrame) : bool := bool_decide (frame_role f = role).

Lemma filter_role role role' fs :
  Forall (fun f => frame_role f = role') fs ->
  List.filter (role_is role) fs = if decide (role = role') then fs else [].
Proof.
  induction 1 as [|f fs E F IH]; [by destruct (decide _)|]. cbn [List.filter]. rewrite IH. unfold role_is.
  destruct (decide (role = role')) as [->|]; [by rewrite bool_decide_true|].
  by rewrite bool_decide_false by congruence.
Qed.

Lemma role_segments run limits out role fs bound record order :
  wf_run run -> decodable_limits limits -> encoded run limits out ->
  (forall m, prep_bound (record m) = Some (bound m)) ->
  pack_role run limits role (map record order) = Ok fs ->
  Forall (fun f => frame_role f = role) fs
  /\ exists segs, concat segs = order /\ Forall2 (bounds_match bound) segs fs.
Proof.
  intros W D En Hb E. apply (pack_role_Ok run limits out W D En) in E as [(E & _ & ->)|(ss & F & E & _)].
  - split; [done|]. exists []. by destruct order.
  - split; [by apply frames_role in F|]. by eapply frames_bounds.
Qed.

(** C35: The frames of an encoded run come in the order metadata, namespace,
    listing; the namespace frames hold the mutations in strictly increasing
    (blind key, ordinal) order and the listing frames in strictly increasing
    (path, ordinal) order, cut into consecutive segments; and every frame
    carries the number of its records and, as search bounds, the keys of the
    first and the last of them. *)
Theorem search_bounds_exact run limits enc :
  wf_run run -> decodable_limits limits -> encode_index_run_frames run limits = Ok enc ->
  let by_role role := List.filter (role_is role) (frames enc) in
  frames enc = by_role Metadata ++ by_role Namespace ++ by_role Listing
  /\ StronglySorted (fun x y => cmp (ns_key x) (ns_key y) = Lt) (namespace_order (run_mutations run))
  /\ StronglySorted (fun x y => cmp (ls_key x) (ls_key y) = Lt) (listing_order (run_mutations run))
  /\ (exists segs, concat segs = namespace_order (run_mutations run)
        /\ Forall2 (bounds_match ns_bound) segs (by_role Namespace))
  /\ (exists segs, concat segs = listing_order (run_mutations run)
        /\ Forall2 (bounds_match ls_bound) segs (by_role Listing)).
Proof.
  intros W D E. apply encode_facts in E as En; [|done|apply D]. clear E. cbv zeta.
  destruct (en_frames _ _ _ En) as (mf & nf & lf & Eo & Pm & Pn & Pl).
  assert (Forall (fun f => frame_role f = Metadata) mf) as Fm.
  { apply (pack_role_Ok run limits _ W D En) in Pm as [(_ & ? & _)|(ss & F & _)]; [done|].
    by apply frames_role in F. }
  apply (role_segments _ _ _ _ _ ns_bound _ _ W D En) in Pn as [Fn Sn]; [|done].
  apply (role_segments _ _ _ _ _ ls_bound _ _ W D En) in Pl as [Fl Sl]; [|done].
  rewrite Eo, !filter_app, !(filter_role _ Metadata mf), !(filter_role _ Namespace nf),
    !(filter_role _ Listing lf) by done. simpl. rewrite !app_nil_r.
  split_and!; try done; [apply (ns_in_order run limits _ En)|apply (ls_in_order run limits _ En)].
Qed.

Lemma search_bounds_exact_witness :
  match encode_index_run_frames sample_run sample_limits with
  | Ok enc => exists segs, concat segs = namespace_order sample_mutations
                /\ Forall2 (bounds_match ns_bound) segs (List.filter (role_is Namespace) (frames enc))
  | Err _ => False
  end.
Proof.
  destruct (encode_index_run_frames sample_run sample_limits) as [enc|e] eqn:E.
  - destruct (search_bounds_exact sample_run sample_limits enc sample_run_wf sample_limits_ok E)
      as (_ & _ & _ & S & _). exact S.
  - vm_compute in E. discriminate E.
Defined.

(** ** A difference between the two directions *)

(** An upsert of a single-part object whose checksum claims three parts. *)
Definition foreign_run : IndexRun := {|
  run_completion_receipt := None; run_sequence := 1; run_self_pack := None; run_containers := [];
  run_standalone_stream_containers := [];
  run_mutations := [Upsert {|
    up_mutation_ordinal := 0; up_blind_key := bytes32 x05;
    up_namespace_key_id := bytes_of_string "ns"; up_path := bytes_of_string "a";
    up_generation := 1; up_payload := Empty; up_content_len := 0; up_modified_at_ms := 0;
    up_retention := None; up_legal_hold := None; up_etag := sample_etag;
    up_checksum := Some {| algorithm := Crc32c; kind := Composite 3; cdigest := List.repeat x01 4 |} |}] |}.

(** Its frames, written without the checks of [validate_mutations]. *)
Definition foreign_frames : list (list byte) :=
  match pack_role foreign_run sample_limits Metadata (meta_records foreign_run),
        pack_role foreign_run sample_limits Namespace (ns_records foreign_run),
        pack_role foreign_run sample_limits Listing (ls_records foreign_run) with
  | Ok m, Ok n, Ok l => map frame_bytes (m ++ n ++ l)
  | _, _, _ => []
  end.

(** C40: The decoder accepts a run that the encoder refuses: only the encoder
    compares the part count of a composite checksum with that of the ETag. *)
Theorem decoder_skips_composite_check :
  decode_index_run_frames foreign_frames sample_limits = Ok foreign_run
  /\ encode_index_run_frames foreign_run sample_limits = Err FrameFactsMismatch.
Proof. split; vm_compute; reflexivity. Qed.
